(* ===== verification/_CoqProject ===== *)
-Q . S2P
Prelude.v
Bytes.v
Interest.v
InterestProps.v
Format.v
Ring.v
Writer.v
Sweeper.v
SpanBuffer.v
BufferInv.v
BufferSpec.v
Demo.v
PageProps.v
BufferProps.v
BufferLive.v
BufferFaults.v
PData.v
Evaluator.v
EvalDemo.v
EvalProps.v
Registry.v
RegistryProps.v
Split.v
Processor.v
ProcessorProps.v
System.v
SystemProps.v
Server.v
Streams.v
PubSub.v
Dedup.v
Link.v
CoordConfig.v
CoordConfigProps.v
Serve.v
Tracegen.v
TracegenProps.v
TracegenMain.v
TracegenMainProps.v
Network.v
NetworkInv.v
Routes.v
NetworkProps.v
Fleet.v
FleetProps.v
