(* ===== verification/Prelude.v ===== *)
(** * Retroactive sampling: a verification development

    The program is an OpenTelemetry collector processor that decides about
    traces after the fact, the coordinator through which processors tell each
    other their decisions, and a trace generator that tests such a pipeline. A
    processor evaluates its policies on the spans of each batch; what is not
    sampled at once waits in a file-backed buffer until some processor decides
    to keep its trace, or until the retention window is over. A decision travels
    from the processor over a gRPC stream to the coordinator, which deduplicates
    it and broadcasts it to all connected processors, whose buffers then deliver
    what they hold of the trace.

    ** Files and what they model

    Below, [P] is src/processor/retroactivesampling, [C] is src/coordinator.

    Shared: Prelude.v (machine integers, time, slices, the circular view of a
    buffer, tactics and hints), Bytes.v (bytes, big-endian integers, trace
    identifiers).

    The span buffer ([P]/internal/buffer/buffer.go):
    - Interest.v: the interest set, a map and a linked list that share their
      elements ([AddInterest], [pruneInterestLocked], the two queries);
      InterestProps.v: its theorems.
    - Format.v: records and pages as bytes. Ring.v: the file as a ring of units.
    - Writer.v: [runWriter] with [flush] and [handle]. Sweeper.v: [processPage]
      and [runSweeper]. SpanBuffer.v: [New], [Write], [Close] and the two
      goroutines as one labelled transition system, [exec]. A transition touches
      shared state once, so that a run of [exec] is an interleaving of the
      goroutines, the clients and the timers. A waiting loop of the writer tests
      [used] in one transition ([LWait]) and receives in another ([LPageFreed],
      [LGiveUp]): in between the sweeper may free pages.
    - BufferInv.v: the invariant. BufferSpec.v: the abstract specification, a bag
      of pending requests, and the simulation. BufferProps.v, PageProps.v and
      BufferLive.v: the theorems. BufferFaults.v: the same transition system with
      a file whose reads and writes may fail. Demo.v: a small buffer for the
      examples.

    The policies ([P]/internal/evaluator): PData.v (the trace data library, a
    class), Evaluator.v (util.go, every policy's [Evaluate], the chain),
    Registry.v (config.go, registry.go, the constructors), EvalProps.v and
    RegistryProps.v (theorems), EvalDemo.v (concrete libraries for examples).

    The processor ([P]/split.go, processor.go, config.go, factory.go): Split.v
    ([groupByTrace]), Processor.v ([processTraces], [onMatch], [onDecision],
    [newProcessor] against the class [BufferOps]), ProcessorProps.v, and System.v:
    concurrent calls, decisions and the buffer's goroutines, interleaved at each
    access to what they share, with the failures of the buffer's file that it
    gets over; SystemProps.v: its theorems.

    The coordinator ([C]):
    - Server.v: server/server.go, the streams ([Connect] with its sender,
      [Broadcast]); Streams.v: what its transitions add to each stream. Serve.v:
      [Start] and the end of main.go, the life of the process around the server,
      with the closure [onNotify] of main.go cut between the test of the context,
      the access to the store and the publication.
    - PubSub.v: memory/pubsub.go, redis/pubsub.go with its clients and its
      goroutine, and the closure of main.go, for one identifier; Dedup.v: the same over time, with a log of what was new.
    - Link.v: the processor's client [P]/internal/coordinator/client.go and
      proxy/pubsub.go, one transition system with a class for what differs.
    - CoordConfig.v: config.go, proxy/config.go, redis/config.go, server/tls.go,
      the constructors of the backends and the checks of main.go;
      CoordConfigProps.v: its theorems.

    A deployment: Network.v puts any number of processors' links and coordinators
    together, each coordinator in one of the modes of main.go: single (a memory of
    its own), distributed (a Redis that all such coordinators share) or proxy (a
    link to another coordinator). NetworkInv.v: its invariant. Routes.v: how a
    decision gets through a chain of proxies. NetworkProps.v: the theorems.
    Fleet.v and FleetProps.v add the processors of System.v, whose notifications
    and decisions pass through that network.

    The trace generator (src/cmd/tracegen/main.go): Tracegen.v (emitting,
    receiving, sweeping) and TracegenProps.v; TracegenMain.v ([main] around them,
    with its ticker, its listener and its signals; its last sweep and the
    gathering of the metrics are two transitions) and TracegenMainProps.v.

    ** What is proved

    - The buffer, for every reachable state of the transition system: it refines
      the bag ([buffer_refines_spec]); nothing accepted is lost, duplicated or
      altered ([buffer_conservation]); every callback is justified by a decision,
      the window, the pressure or the shutdown ([callbacks_justified]); offsets
      and occupancy ([ring_geometry]); no lost wakeup; after [Close] every
      schedule of the goroutines ends, in a bounded number of transitions, with the
      file empty and all accounted for, and only a writer that found the file full
      drops anything ([close_completes]); one pass
      over a page or a large record against a pass over the list of its records;
      what is staged is read back ([page_roundtrip]); which failures of the file
      it gets over ([faults_tolerated]).
    - The interest set refines a map with a retention window.
    - The chain computes a declarative meaning of its policies, whatever was
      evaluated before: the caches are transparent ([Chain_Evaluate_spec]); the
      meaning of the latency policy is over the prefixes of the spans, that of an
      OTTL condition over the list of its answers; the combinations, the latency
      and the probabilistic policy; what [Build] accepts, and the shape of what it returns
      ([built_chain]).
    - [groupByTrace] is the restriction of a batch to each trace; one call of
      [processTraces] accounts for every span, in any iteration order of its map;
      what that order decides ([iteration_order]: which records are refused when
      the buffer's queue is nearly full, but not which traces are forwarded);
      end to end, every span received is in one place ([spans_accounted]), what is
      delivered is whole, and a decision lasts for the retention window; every
      call returns. ([uninterrupted] relates the two models of [processTraces], the
      sequential one of Processor.v and the interleaved one of System.v.)
    - The coordinator: [Broadcast], the streams as bounded queues, the accounting
      of drops, deduplication by both backends, the subscription and the clients
      of Redis through [Close] ([redis_lifecycle]), the links' queues and delays.
      Which configurations it starts with, that a signal ends it in time
      ([shutdown_bounded]), and that it publishes only what was under way then
      ([shutdown_graceful]).
    - The network: no decision is invented, streams deliver in order, a decision
      that waits can arrive through the proxies on the way, and no stream of a
      coordinator that deduplicates carries a trace more often than its time to
      live allows ([deliveries_rate]).
    - The deployment: whatever leaves any processor is of a trace that some
      processor's policies sampled ([only_sampled_leaves]), and a decision at a
      coordinator can reach a processor's buffer ([decision_reaches_buffer]).
    - The generator's verdicts on its own spans, and the completeness it reports;
      its pace, with the floating point it is computed in ([pace_kept]); that its
      last report leaves nothing out ([report_complete]); when its listener stops
      ([interrupt_stops_listener]).
    - Behaviour the code does not intend, as theorems: a zero trace identifier
      hides the rest of a page, a failing [WriteAt] makes the writer panic or
      desynchronises the ring, a failing [ReadAt] makes the sweeper read payload
      as records or deliver zeroes, a failing write back delivers twice, a sender loses its unfinished batch uncounted, the
      reconnection delay is not reset by a connection that worked, an interrupt
      stops the listener before the wait for the spans in flight.

    ** Conventions, bounds and fuel

    An [int] is a [Z]; conversions to 32 and 64 bits wrap ([u32], [u64], [i64]).
    A time is a [Z] of nanoseconds (seconds in Tracegen.v, as its code has them); a
    [float64] is a [spec_float] of the Standard Library. Loops that are not
    structural have fuel: [processPage] a page's size in iterations, each of which
    advances by at least a header; [prune_loop] and [sweep_loop] one more than the
    length of the list they shorten; [write_chunks] the length of the payload.
    That this is enough is part of the theorems about them: they state the result
    of the whole loop. [BufCfgOk] is what [New] ensures, with a capacity whose
    triple fits an [int64] (the code computes [3*maxBytes]); [New_spec] proves it.
    The theorems of TracegenProps.v are about sessions of fewer than [2^32] steps,
    because identifiers wrap. Histories (fields described as such) record what
    happened and are read by no transition.

    ** Not modelled, and why

    Code outside the repository is a parameter, with laws where the code relies
    on documented behaviour: the trace data library, regular expressions, the LRU
    cache, trace states, OTTL, the key stores, TLS and YAML, gRPC, the operating
    system. Generated code (protobuf, telemetry metadata), metrics and logging are
    left out: they are output that no code reads. The functions of the packages
    ottlspan and ottlspanevent are two instances of one record.

    In [exec] the file does not fail; System.v and what is built on it have the
    failures the buffer gets over ([permitted]), and BufferFaults.v has all of
    them: a read that fails reads nothing and a write that fails writes nothing.

    In System.v the evaluation of one trace is one transition. The code does not
    see to that: two calls can be in [Evaluate] at once ([evaluations_overlap]) and
    race for the caches, which have no lock. The effects of that data race are not
    modelled.

    In Fleet.v all processors have the same configuration of the buffer. In
    Network.v there is one Redis, which a coordinator's subscription reads
    directly, and a coordinator that is signalled publishes no more but keeps its
    streams, with the test of the context and the publication in one transition;
    Serve.v has them apart, for one process, whose broadcasts may happen at any
    time.
    The exporters of the generator and their batches are I/O. What a conversion of
    a [float64] to an integer gives out of range is a parameter: it depends on the
    processor. *)

From stdpp Require Export base tactics numbers list gmap strings sorting.
From Stdlib Require Export ZArith Lia.

#[global] Open Scope Z_scope.

(** ** Notations and machine integers *)

Declare Scope go_scope.
Delimit Scope go_scope with go.

(** [len l] is Go's [len], an [int] (64-bit) and hence a [Z] here. *)
Notation "'len' l" := (Z.of_nat (length l)) (at level 10, l at level 9) : go_scope.
#[global] Open Scope go_scope.

(** The value of [z] stored in a [w]-bit unsigned integer. *)
Definition wrapU (w z : Z) : Z := z mod 2 ^ w.

(** The value of [z] stored in a [w]-bit two's complement integer. *)
Definition wrapS (w z : Z) : Z := (z + 2 ^ (w - 1)) mod 2 ^ w - 2 ^ (w - 1).

Abbreviation u8 := (wrapU 8).
Abbreviation u32 := (wrapU 32).
Abbreviation u64 := (wrapU 64).
Abbreviation i64 := (wrapS 64).

Definition max_i64 : Z := 9223372036854775807.
Definition min_i64 : Z := -9223372036854775808.
Definition is_i64 (z : Z) : Prop := min_i64 <= z <= max_i64.
Definition is_u64 (z : Z) : Prop := 0 <= z < 2 ^ 64.

(** ** Time

    A [time.Time] is its number of nanoseconds since the Unix epoch, an
    unbounded [Z] (a [time.Time] holds seconds and nanoseconds apart and does
    not overflow in [Add]); a [time.Duration] is an [int64] of nanoseconds. *)
Abbreviation Time := Z.
Abbreviation Duration := Z.

(** [t.Sub(u)]: saturates at the bounds of [Duration]. *)
Definition time_sub (t u : Time) : Duration := Z.max min_i64 (Z.min max_i64 (t - u)).

(** [t.UnixNano()]: the [int64] the seconds and nanoseconds are folded to. *)
Definition time_unixNano (t : Time) : Z := i64 t.

Definition nanosecond : Duration := 1.
Definition millisecond : Duration := 1000000.
Definition second : Duration := 1000000000.

(** ** Automation *)

(** Arithmetic with [/] and [mod] by (possibly variable) divisors. *)
Ltac dm_lia := Z.to_euclidean_division_equations; nia.

(** Turn a boolean comparison on [Z] of the goal or of a hypothesis into a case split. *)
Ltac zcase_step :=
  match goal with
  | |- context [Z.ltb ?a ?b] => destruct (Z.ltb_spec a b)
  | |- context [Z.leb ?a ?b] => destruct (Z.leb_spec a b)
  | |- context [Z.eqb ?a ?b] => destruct (Z.eqb_spec a b)
  | |- context [Z.gtb ?a ?b] => rewrite (Z.gtb_ltb a b)
  | |- context [Z.geb ?a ?b] => rewrite (Z.geb_leb a b)
  end.
Ltac zcase := repeat (zcase_step; try lia; simpl).

Create Rewrite HintDb go_len.
Create HintDb go discriminated.
#[global] Hint Constants Opaque : go.
#[global] Hint Variables Opaque : go.

(** Closes length and range side conditions. *)
#[export] Hint Rewrite @length_app @length_replicate @length_take @length_drop @length_fmap
  @length_nil @length_cons : go_len.
Ltac len_simpl := autorewrite with go_len in *.
Ltac len_lia := len_simpl; lia.

(** The conditions under which a transition that is defined by options is enabled. *)
Ltac exec_inv He :=
  repeat match type of He with
         | (if ?b then _ else _) = Some _ => let E := fresh "E" in destruct b eqn:E; [|done]
         | match ?x with _ => _ end = Some _ => let E := fresh "E" in destruct x eqn:E; try done
         | mbind _ ?x = Some _ => let E := fresh "E" in destruct x eqn:E; [|done]; cbn [mbind option_bind] in He
         end; simplify_eq.

(** ** Machine integer lemmas *)

Lemma wrapU_small w z : 0 <= z < 2 ^ w -> wrapU w z = z.
Proof. intros H. by apply Z.mod_small. Qed.

Lemma wrapU_range w z : 0 <= w -> 0 <= wrapU w z < 2 ^ w.
Proof. intros H. apply Z.mod_pos_bound. by apply Z.pow_pos_nonneg. Qed.

Lemma wrapS_small w z : 0 < w -> - 2 ^ (w - 1) <= z < 2 ^ (w - 1) -> wrapS w z = z.
Proof.
  intros Hw Hz. unfold wrapS.
  assert (2 ^ w = 2 * 2 ^ (w - 1)) as E.
  { rewrite <- Z.pow_succ_r by lia. f_equal. lia. }
  rewrite Z.mod_small; lia.
Qed.

Lemma i64_small z : is_i64 z -> i64 z = z.
Proof. intros H. apply wrapS_small; [lia|]. unfold is_i64, min_i64, max_i64 in H. change (2 ^ (64 - 1)) with 9223372036854775808. lia. Qed.

Lemma i64_range z : is_i64 (i64 z).
Proof.
  unfold wrapS, is_i64, min_i64, max_i64.
  change (2 ^ (64 - 1)) with 9223372036854775808. change (2 ^ 64) with 18446744073709551616.
  pose proof (Z.mod_pos_bound (z + 9223372036854775808) 18446744073709551616). lia.
Qed.

(** A signed value survives the trip through an unsigned cell of the same width. *)
Lemma i64_u64 z : i64 (u64 z) = i64 z.
Proof.
  unfold wrapS, wrapU. change (2 ^ 64) with 18446744073709551616.
  by rewrite Zplus_mod_idemp_l.
Qed.

Lemma time_sub_small t u : is_i64 (t - u) -> time_sub t u = t - u.
Proof. unfold time_sub, is_i64. lia. Qed.

Lemma time_sub_lt t u d : is_i64 d -> min_i64 < d -> time_sub t u < d <-> t - u < d.
Proof. unfold time_sub, is_i64, min_i64, max_i64. lia. Qed.

Lemma len_app {A} (a b : list A) : len (a ++ b) = len a + len b.
Proof. rewrite length_app. lia. Qed.

(** ** Slices

    [slice l i j] is [l[i:j]], [copy_at dst i src] is [dst] after
    [copy(dst[i:], src)], [clear_from l i] is [l] after [clear(l[i:])]. The
    bounds checks are where the code's operations fail and are written at
    the call sites. *)
Section slices.
Context {A : Type}.
Implicit Types l dst src : list A.

Definition slice l (i j : Z) : list A :=
  take (Z.to_nat (j - i)) (drop (Z.to_nat i) l).

Definition copy_at dst (i : Z) src : list A :=
  take (Z.to_nat i) dst ++ take (length dst - Z.to_nat i) src
    ++ drop (Z.to_nat i + length src) dst.

(** The number of elements [copy(dst[i:], src)] copies. *)
Definition copied dst (i : Z) src : Z := Z.min (len dst - i) (len src).

Definition fill_from (z : A) l (i : Z) : list A :=
  take (Z.to_nat i) l ++ replicate (length l - Z.to_nat i) z.

Lemma length_slice l i j : 0 <= i <= j -> j <= len l -> len (slice l i j) = j - i.
Proof. intros. unfold slice. rewrite length_take, length_drop. lia. Qed.

Lemma length_copy_at dst i src : 0 <= i <= len dst -> len (copy_at dst i src) = len dst.
Proof. intros. unfold copy_at. rewrite !length_app, !length_take, length_drop. lia. Qed.

Lemma length_fill_from z l i : 0 <= i <= len l -> len (fill_from z l i) = len l.
Proof. intros. unfold fill_from. rewrite length_app, length_take, length_replicate. lia. Qed.

(** On a list split where the slice falls, [slice] and [copy_at] are exact. *)
Lemma slice_app a b c i j : i = len a -> j = i + len b -> slice (a ++ b ++ c) i j = b.
Proof.
  intros -> ->. unfold slice.
  rewrite Nat2Z.id, drop_app_length.
  replace (Z.to_nat _) with (length b) by lia. by rewrite take_app_length.
Qed.

Lemma copy_at_app a b c b' i :
  i = len a -> length b' = length b -> copy_at (a ++ b ++ c) i b' = a ++ b' ++ c.
Proof.
  intros -> Hb. unfold copy_at. rewrite Nat2Z.id, take_app_length.
  f_equal. f_equal.
  - apply take_ge. rewrite !length_app. lia.
  - rewrite Hb, app_assoc. rewrite <- length_app. by rewrite drop_app_length.
Qed.

Lemma fill_from_app z a b i : i = len a -> fill_from z (a ++ b) i = a ++ replicate (length b) z.
Proof.
  intros ->. unfold fill_from. rewrite Nat2Z.id, take_app_length, length_app.
  do 2 f_equal. lia.
Qed.

Lemma lookup_slice l i j k :
  0 <= i -> 0 <= j -> slice l i j !! k = if decide (Z.of_nat k < j - i) then l !! (Z.to_nat i + k)%nat else None.
Proof.
  intros. unfold slice. case_decide.
  - rewrite lookup_take_lt by lia. by rewrite lookup_drop.
  - by rewrite lookup_take_ge by lia.
Qed.

Lemma lookup_copy_at dst i src k :
  0 <= i -> i + len src <= len dst ->
  copy_at dst i src !! k =
    if decide (i <= Z.of_nat k < i + len src) then src !! (k - Z.to_nat i)%nat else dst !! k.
Proof.
  intros Hi Hl. unfold copy_at. case_decide as Hk.
  - rewrite lookup_app_r by (rewrite length_take; lia).
    rewrite length_take, Nat.min_l by lia.
    rewrite lookup_app_l by (rewrite length_take; lia).
    by rewrite lookup_take_lt by lia.
  - destruct (decide (Z.of_nat k < i)).
    + rewrite lookup_app_l by (rewrite length_take; lia). by rewrite lookup_take_lt by lia.
    + rewrite app_assoc, lookup_app_r; rewrite length_app, !length_take; [|lia].
      rewrite lookup_drop. f_equal. lia.
Qed.

(** ** The circular view of a buffer

    [ring r f] is the buffer [f] read from offset [r] once around. *)
Definition ring (r : Z) (f : list A) : list A := drop (Z.to_nat r) f ++ take (Z.to_nat r) f.

Lemma length_ring r f : length (ring r f) = length f.
Proof. unfold ring. rewrite length_app, length_take, length_drop. lia. Qed.

Lemma lookup_ring r f k :
  0 <= r < len f -> Z.of_nat k < len f ->
  ring r f !! k = f !! Z.to_nat ((r + Z.of_nat k) mod len f).
Proof.
  intros Hr Hk. unfold ring.
  destruct (decide (r + Z.of_nat k < len f)).
  - rewrite lookup_app_l by (rewrite length_drop; lia).
    rewrite lookup_drop. f_equal. rewrite Z.mod_small; lia.
  - rewrite lookup_app_r by (rewrite length_drop; lia).
    rewrite length_drop, lookup_take_lt by lia. f_equal.
    rewrite <- (Z.mod_unique (r + Z.of_nat k) (len f) 1 (r + Z.of_nat k - len f)); lia.
Qed.

Lemma ring_offset (r k m : Z) :
  0 <= r < m -> 0 <= k <= m ->
  (r + k < m /\ (r + k) mod m = r + k) \/ (m <= r + k /\ (r + k) mod m = r + k - m).
Proof.
  intros Hr Hk. destruct (decide (r + k < m)).
  - left. split; [done|]. apply Z.mod_small. lia.
  - right. split; [lia|]. symmetry. apply (Z.mod_unique _ _ 1); lia.
Qed.

(** A read at [(r + k) mod len f] that does not straddle the end of the
    buffer is a read at [k] of the circular view. *)
Lemma ring_slice r f k n :
  let off := (r + k) mod len f in
  0 <= r < len f -> 0 <= k -> 0 <= n -> k + n <= len f -> off + n <= len f ->
  slice f off (off + n) = slice (ring r f) k (k + n).
Proof.
  intros off Hr Hk Hn Hkn Hfit. subst off.
  apply list_eq. intros i.
  destruct (ring_offset r k (len f)) as [[? E]|[? E]]; [lia..| |]; rewrite E in *;
    rewrite !lookup_slice by lia; (case_decide; case_decide; try lia; [|done]);
    rewrite lookup_ring by lia; f_equal.
  - rewrite Z.mod_small; lia.
  - rewrite <- (Z.mod_unique _ (len f) 1 (r + Z.of_nat (Z.to_nat k + i) - len f)); lia.
Qed.

(** The same for writes. *)
Lemma ring_copy_at r f k src :
  let off := (r + k) mod len f in
  0 <= r < len f -> 0 <= k -> k + len src <= len f -> off + len src <= len f ->
  ring r (copy_at f off src) = copy_at (ring r f) k src.
Proof.
  intros off Hr Hk Hks Hfit. subst off.
  assert (0 <= (r + k) mod len f) by (apply Z.mod_pos_bound; lia).
  assert (length (copy_at f ((r + k) mod len f) src) = length f) as HL.
  { apply Nat2Z.inj. apply length_copy_at. lia. }
  apply list_eq. intros i.
  destruct (decide (Z.of_nat i < len f)) as [Hi|Hi].
  2:{ rewrite !lookup_ge_None_2; [done| |].
      - apply Nat2Z.inj_le. rewrite length_copy_at; rewrite length_ring; lia.
      - rewrite length_ring, HL. lia. }
  rewrite lookup_ring by (rewrite HL; lia). rewrite HL.
  rewrite (lookup_copy_at (ring r f)) by (rewrite ?length_ring; lia).
  rewrite lookup_copy_at by lia.
  destruct (ring_offset r k (len f)) as [[? E]|[? E]]; [lia..| |]; rewrite E in *;
    destruct (ring_offset r (Z.of_nat i) (len f)) as [[? E']|[? E']]; try lia;
    rewrite E'; (case_decide; case_decide; try lia);
    try (f_equal; lia); rewrite lookup_ring by lia; by rewrite E'.
Qed.

(** Moving the read offset rotates the view. *)
Lemma ring_advance r f k :
  0 <= r < len f -> 0 <= k <= len f ->
  ring ((r + k) mod len f) f = drop (Z.to_nat k) (ring r f) ++ take (Z.to_nat k) (ring r f).
Proof.
  intros Hr Hk. unfold ring.
  destruct (ring_offset r k (len f)) as [[? ->]|[? ->]]; [lia..| |].
  - rewrite drop_app_le, take_app_le by (rewrite length_drop; lia).
    rewrite drop_drop, Z2Nat.inj_add by lia. rewrite <- app_assoc. f_equal.
    by rewrite take_take_drop.
  - rewrite drop_app_ge, take_app_ge by (rewrite length_drop; lia).
    rewrite !length_drop.
    replace (Z.to_nat k - (length f - Z.to_nat r))%nat with (Z.to_nat (r + k - len f)) by lia.
    assert (Z.to_nat (r + k - len f) <= Z.to_nat r)%nat as Hj by lia. revert Hj.
    generalize (Z.to_nat (r + k - len f)) (Z.to_nat r). intros j r' Hj.
    rewrite take_take, Nat.min_l by done. rewrite app_assoc. f_equal.
    rewrite <- (take_drop r' f) at 1.
    destruct (decide (r' <= length f)%nat).
    + by rewrite drop_app_le by (rewrite length_take; lia).
    + rewrite (drop_ge f r') by lia. rewrite !app_nil_r. done.
Qed.

Lemma copy_at_copy_at dst i a b j :
  0 <= i -> j = i + len a -> j + len b <= len dst ->
  copy_at (copy_at dst i a) j b = copy_at dst i (a ++ b).
Proof.
  intros Hi -> Hfit.
  assert (len (copy_at dst i a) = len dst) as HL by (apply length_copy_at; lia).
  apply list_eq. intros k.
  rewrite lookup_copy_at by lia. rewrite (lookup_copy_at dst i (a ++ b)) by (rewrite ?length_app; lia).
  rewrite length_app.
  destruct (decide (i <= Z.of_nat k < i + len a)).
  - rewrite decide_False by lia. rewrite decide_True by lia.
    rewrite lookup_copy_at by lia. rewrite decide_True by lia. by rewrite lookup_app_l by lia.
  - case_decide; [rewrite decide_True by lia; rewrite lookup_app_r by lia; f_equal; lia|].
    rewrite decide_False by lia. rewrite lookup_copy_at by lia. by rewrite decide_False by lia.
Qed.

Lemma copy_at_nil dst i : copy_at dst i [] = dst.
Proof. unfold copy_at. rewrite take_nil. simpl. rewrite Nat.add_0_r. apply take_drop. Qed.

(** Writing at the end of a known prefix. *)
Lemma copy_at_prefix pre old src i :
  i = len pre -> len src <= len old ->
  copy_at (pre ++ old) i src = pre ++ src ++ drop (length src) old.
Proof.
  intros -> Hl. rewrite <- (take_drop (length src) old) at 1.
  apply copy_at_app; [done|]. rewrite length_take. lia.
Qed.

Lemma copy_at_0 b c b' : length b' = length b -> copy_at (b ++ c) 0 b' = b' ++ c.
Proof. apply (copy_at_app [] b c b' 0). done. Qed.

Lemma slice_shift a b c i j k n :
  i = len a + k -> j = len a + n -> 0 <= k <= n -> n <= len b ->
  slice (a ++ b ++ c) i j = slice b k n.
Proof.
  intros -> -> Hk Hn. unfold slice.
  rewrite Z2Nat.inj_add, Nat2Z.id, drop_app_add' by lia.
  rewrite drop_app_le, take_app_le by (rewrite ?length_drop; lia). f_equal. lia.
Qed.

Lemma take_slice l i j : 0 <= i <= j -> take (Z.to_nat i) l ++ slice l i j = take (Z.to_nat j) l.
Proof.
  intros H. unfold slice. rewrite take_take_drop. f_equal. lia.
Qed.

Lemma slice_0 l j : slice l 0 j = take (Z.to_nat j) l.
Proof. unfold slice. rewrite drop_0. f_equal. lia. Qed.

Lemma split_len l n : 0 <= n <= len l -> ∃ a b, l = a ++ b ∧ len a = n.
Proof.
  intros Hn. exists (take (Z.to_nat n) l), (drop (Z.to_nat n) l).
  rewrite take_drop, length_take. split; [done|lia].
Qed.
End slices.

(** An offset that is a multiple of the page size leaves room for a page. *)
Lemma aligned_fit (p m x : Z) :
  0 < p -> 0 < m -> (p | m) -> (p | x) -> 0 <= x mod m /\ x mod m + p <= m /\ (p | x mod m).
Proof.
  intros Hp Hm [a Ha] [b Hb].
  assert (x mod m = (b - a * (x / m)) * p) as E.
  { rewrite Z.mod_eq by lia. rewrite Hb at 1. rewrite Ha at 1. ring. }
  pose proof (Z.mod_pos_bound x m). rewrite E in *.
  split; [lia|]. split; [|by eexists]. rewrite Ha in *. revert H. generalize (b - a * (x / (a * p))). intros t H.
  assert (t < a) by nia. nia.
Qed.

(** ** Lists *)

Lemma filter_all {A} (P : A → Prop) `{!∀ x, Decision (P x)} (l : list A) :
  (∀ x, x ∈ l → P x) → filter P l = l.
Proof.
  induction l as [|a l IH]; intros Hall; [done|].
  rewrite filter_cons_True by (apply Hall; set_solver). f_equal. apply IH. set_solver.
Qed.

Lemma filter_ne_notin {A} `{EqDecision A} (x : A) (l : list A) : x ∉ l → filter (λ y, y ≠ x) l = l.
Proof. intros Hx. apply filter_all. intros y Hy ->. done. Qed.

Lemma StronglySorted_impl_in {A} (R R' : relation A) (l : list A) :
  (∀ x y, x ∈ l → y ∈ l → R x y → R' x y) → StronglySorted R l → StronglySorted R' l.
Proof.
  intros HR HS. induction HS as [|a l HS IH HF]; constructor.
  - apply IH. set_solver.
  - rewrite Forall_forall in *. intros x Hx. apply HR; [set_solver..|]. by apply HF.
Qed.

Lemma StronglySorted_filter {A} (R : relation A) (P : A → Prop) `{!∀ x, Decision (P x)} l :
  StronglySorted R l → StronglySorted R (filter P l).
Proof.
  induction 1 as [|a l HS IH HF]; [constructor|].
  rewrite filter_cons. case_decide; [|done]. constructor; [done|].
  rewrite Forall_forall in *. intros x Hx. apply HF. by apply list_elem_of_filter in Hx as [_ Hx].
Qed.

(** *** Pointwise variants under membership *)
Lemma Forall2_impl_l {A B} (P Q : A → B → Prop) (l : list A) (k : list B) :
  (∀ x y, x ∈ l → P x y → Q x y) → Forall2 P l k → Forall2 Q l k.
Proof. intros Hi H. induction H; constructor; [apply Hi; [set_solver|done]|apply IHForall2; set_solver]. Qed.

Lemma filter_ext_in {A} (P Q : A → Prop) `{∀ x, Decision (P x), ∀ x, Decision (Q x)} (l : list A) :
  (∀ x, x ∈ l → P x ↔ Q x) → filter P l = filter Q l.
Proof.
  induction l as [|x l IH]; intros Hl; [done|]. rewrite !filter_cons, IH by (intros; apply Hl; set_solver).
  destruct (Hl x); [set_solver|]. repeat case_decide; tauto.
Qed.
