(* ===== verification/Bytes.v ===== *)
(** * Bytes, big-endian integers and trace identifiers

    The byte-level vocabulary of the buffer file: [Byte.byte] with its
    conversions, [binary.BigEndian.PutUint32/PutUint64/Uint32/Uint64] for any
    width, and [pcommon.TraceID], an array of 16 bytes. *)

From S2P Require Import Prelude.
From Stdlib Require Export Strings.Byte.

Abbreviation byte := Byte.byte.
Abbreviation bytes := (list byte).

#[global] Instance byte_eq_dec : EqDecision byte := Byte.byte_eq_dec.
#[global] Program Instance byte_countable : Countable byte :=
  inj_countable Byte.to_N Byte.of_N _.
Next Obligation. intros b. apply Byte.of_to_N. Qed.
#[global] Instance byte_inhabited : Inhabited byte := populate x00.

(** Go's conversion [byte(z)]. *)
Definition byte_of_Z (z : Z) : byte := default x00 (Byte.of_N (Z.to_N (u8 z))).
Definition Z_of_byte (b : byte) : Z := Z.of_N (Byte.to_N b).

Lemma Z_of_byte_range b : 0 <= Z_of_byte b < 256.
Proof. unfold Z_of_byte. pose proof (Byte.to_N_bounded b). lia. Qed.

Lemma Z_of_byte_of_Z z : Z_of_byte (byte_of_Z z) = z mod 256.
Proof.
  unfold Z_of_byte, byte_of_Z, wrapU. change (2 ^ 8) with 256.
  pose proof (Z.mod_pos_bound z 256).
  destruct (Byte.of_N (Z.to_N (z mod 256))) as [b|] eqn:E; simpl.
  - apply Byte.to_of_N in E. lia.
  - apply Byte.of_N_None_iff in E. lia.
Qed.

(** ** Big-endian integers of [n] bytes *)
Fixpoint be_put (n : nat) (z : Z) : bytes :=
  match n with
  | O => []
  | S n => byte_of_Z (Z.shiftr z (8 * Z.of_nat n)) :: be_put n z
  end.

Fixpoint be_get_acc (acc : Z) (l : bytes) : Z :=
  match l with
  | [] => acc
  | b :: l => be_get_acc (Z.lor (Z.shiftl acc 8) (Z_of_byte b)) l
  end.
Definition be_get (l : bytes) : Z := be_get_acc 0 l.

Lemma length_be_put n z : length (be_put n z) = n.
Proof. induction n; simpl; congruence. Qed.
#[export] Hint Rewrite length_be_put : go_len.

Lemma lor_shiftl_byte acc b :
  Z.lor (Z.shiftl acc 8) (Z_of_byte b) = acc * 256 + Z_of_byte b.
Proof.
  pose proof (Z_of_byte_range b) as Hb.
  assert (Z.land (Z.shiftl acc 8) (Z_of_byte b) = 0) as E.
  { apply Z.bits_inj'. intros n Hn. rewrite Z.land_spec, Z.bits_0, Z.shiftl_spec by done.
    destruct (decide (n < 8)).
    - by rewrite (Z.testbit_neg_r acc) by lia.
    - rewrite <- (Z.mod_small (Z_of_byte b) (2 ^ 8)) by lia.
      rewrite Z.mod_pow2_bits_high by lia. apply andb_false_r. }
  pose proof (Zbitwise.Z.add_lor_land (Z.shiftl acc 8) (Z_of_byte b)) as H.
  rewrite E in H. rewrite Z.shiftl_mul_pow2 in * by lia. change (2 ^ 8) with 256 in *. lia.
Qed.

Lemma be_get_acc_eq acc l : be_get_acc acc l = acc * 256 ^ len l + be_get l.
Proof.
  unfold be_get. revert acc. induction l as [|b l IH]; intros acc; cbn [be_get_acc].
  - simpl. lia.
  - rewrite IH, (IH (Z.lor _ _)), !lor_shiftl_byte. cbn [length].
    rewrite Nat2Z.inj_succ, Z.pow_succ_r by lia. lia.
Qed.

(** Round trip: what [Uint] reads back is the value modulo the width. *)
Lemma be_get_put n z : be_get (be_put n z) = wrapU (8 * Z.of_nat n) z.
Proof.
  unfold wrapU. induction n as [|n IH]; [simpl; by rewrite Z.mod_1_r|].
  cbn [be_put]. unfold be_get in *. cbn [be_get_acc].
  rewrite be_get_acc_eq. unfold be_get. rewrite IH, length_be_put, lor_shiftl_byte, Z_of_byte_of_Z.
  rewrite Z.shiftr_div_pow2 by lia.
  replace (8 * Z.of_nat (S n)) with (8 * Z.of_nat n + 8) by lia.
  rewrite Z.pow_add_r by lia. change (2 ^ 8) with 256.
  rewrite Z.rem_mul_r by lia.
  replace (256 ^ Z.of_nat n) with (2 ^ (8 * Z.of_nat n)); [lia|].
  by rewrite Z.pow_mul_r by lia.
Qed.

Definition PutUint32 (z : Z) : bytes := be_put 4 z.
Definition PutUint64 (z : Z) : bytes := be_put 8 z.
#[global] Arguments PutUint32 : simpl never.
#[global] Arguments PutUint64 : simpl never.
Definition Uint32 (l : bytes) : Z := be_get l.
Definition Uint64 (l : bytes) : Z := be_get l.

Lemma length_PutUint32 z : length (PutUint32 z) = 4%nat.
Proof. apply length_be_put. Qed.
Lemma length_PutUint64 z : length (PutUint64 z) = 8%nat.
Proof. apply length_be_put. Qed.
#[export] Hint Rewrite length_PutUint32 length_PutUint64 : go_len.

Lemma Uint32_put z : Uint32 (PutUint32 z) = u32 z.
Proof. apply be_get_put. Qed.
Lemma Uint64_put z : Uint64 (PutUint64 z) = u64 z.
Proof. apply be_get_put. Qed.

(** ** Trace identifiers

    [pcommon.TraceID] is [[16]byte]; the length is the type's invariant. *)
Abbreviation TraceID := (list byte).

Definition wf_tid (tid : TraceID) : Prop := length tid = 16%nat.
#[global] Instance wf_tid_dec tid : Decision (wf_tid tid) := decide (length tid = 16%nat).

Definition zero_tid : TraceID := replicate 16 x00.

(** [zeroes n] is [make([]byte, n)]. *)
Definition zeroes (n : Z) : bytes := replicate (Z.to_nat n) x00.

Lemma length_zeroes n : length (zeroes n) = Z.to_nat n.
Proof. apply length_replicate. Qed.
#[export] Hint Rewrite length_zeroes : go_len.
