(* ===== verification/Interest.v ===== *)
(** * The interest set of the span buffer

    [SpanBuffer] keeps the traces a keep decision was taken for in a
    [container/list] ordered by the time of the decision (front: newest) and a
    map from the trace identifier to its list element
    (processor/retroactivesampling/internal/buffer/buffer.go). The elements are
    pointers: the map and the list share them and [AddInterest] updates them in
    place, so the model has a store of elements, and the list and the map hold
    locations. *)

From S2P Require Import Prelude Bytes.

Record interestEntry := InterestEntry { ie_id : TraceID; ie_addedAt : Time }.

(** A [*list.Element]. *)
Abbreviation loc := nat.

Record InterestSet := MkInterestSet {
  is_entries : gmap TraceID loc;        (* interestEntries *)
  is_list : list loc;                   (* interestList, front first *)
  is_elems : gmap loc interestEntry;    (* the values of the elements *)
  is_next : loc;                        (* the next element to be allocated *)
}.

Definition empty_set : InterestSet := MkInterestSet ∅ [] ∅ 0%nat.

Section interest.
Variable decisionWait : Duration.

(** [interestList.Remove(el); delete(interestEntries, id)] *)
Definition remove_entry (el : loc) (id : TraceID) (s : InterestSet) : InterestSet :=
  {| is_entries := delete id (is_entries s);
     is_list := filter (.≠ el) (is_list s);
     is_elems := delete el (is_elems s);
     is_next := is_next s |}.

(** The loop of [pruneInterestLocked]; the clock is read once, since the
    whole call holds the lock. *)
Fixpoint prune_loop (fuel : nat) (now : Time) (s : InterestSet) : InterestSet :=
  match fuel with
  | O => s
  | S fuel =>
      match last (is_list s) with
      | None => s
      | Some back =>
          match is_elems s !! back with
          | None => s
          | Some e =>
              if time_sub now (ie_addedAt e) <? i64 (2 * decisionWait) then s
              else prune_loop fuel now (remove_entry back (ie_id e) s)
          end
      end
  end.

(** One iteration per element is enough: every one but the last removes an
    element. *)
Definition pruneInterestLocked (now : Time) (s : InterestSet) : InterestSet :=
  prune_loop (S (length (is_list s))) now s.

(** [AddInterest], up to the unlock; the wakeup that follows it is a step of
    its own in [SpanBuffer]. *)
Definition AddInterest (tid : TraceID) (now : Time) (s0 : InterestSet) : InterestSet :=
  let s := pruneInterestLocked now s0 in
  match is_entries s !! tid with
  | Some el =>
      {| is_entries := is_entries s;
         is_list := el :: filter (.≠ el) (is_list s);
         is_elems := alter (λ e, InterestEntry (ie_id e) now) el (is_elems s);
         is_next := is_next s |}
  | None =>
      let el := is_next s in
      {| is_entries := <[tid := el]> (is_entries s);
         is_list := el :: is_list s;
         is_elems := <[el := InterestEntry tid now]> (is_elems s);
         is_next := S (is_next s) |}
  end.

Definition addedAt (s : InterestSet) (tid : TraceID) : option Time :=
  el ← is_entries s !! tid; ie_addedAt <$> is_elems s !! el.

Definition hasInterestRLocked (tid : TraceID) (now : Time) (s : InterestSet) : bool :=
  match addedAt s tid with
  | None => false
  | Some t => time_sub now t <? decisionWait
  end.

Definition HasInterest := hasInterestRLocked.

(** [addedAt.Before(insertedAt.Add(decisionWait))] *)
Definition hasInterestForSpanRLocked (tid : TraceID) (insertedAt : Time) (s : InterestSet) : bool :=
  match addedAt s tid with
  | None => false
  | Some t => t <? insertedAt + decisionWait
  end.

(** ** Invariant *)

Definition elem_time (s : InterestSet) (el : loc) : Time :=
  default 0 (ie_addedAt <$> is_elems s !! el).

(** The list and the map hold the same elements, each under its own
    identifier, and the list is ordered by time, newest first. *)
Record wf (s : InterestSet) : Prop := {
  wf_nodup : NoDup (is_list s);
  wf_fresh : ∀ el, el ∈ is_list s → (el < is_next s)%nat;
  wf_map : ∀ tid el, is_entries s !! tid = Some el ↔
               el ∈ is_list s ∧ ie_id <$> is_elems s !! el = Some tid;
  wf_elem : ∀ el, el ∈ is_list s → is_Some (is_elems s !! el);
  wf_sorted : StronglySorted (λ a b, elem_time s b <= elem_time s a) (is_list s);
}.

(** No decision lies in the future of [now]. *)
Definition before_now (now : Time) (s : InterestSet) : Prop :=
  ∀ el, el ∈ is_list s → elem_time s el <= now.

(** ** Abstraction: a map from trace identifiers to decision times *)
Definition abs (s : InterestSet) : gmap TraceID Time :=
  omap (λ el, ie_addedAt <$> is_elems s !! el) (is_entries s).

Definition live_at (now : Time) (t : Time) : Prop := time_sub now t < i64 (2 * decisionWait).
#[export] Instance live_at_dec now t : Decision (live_at now t) :=
  decide (time_sub now t < i64 (2 * decisionWait)).

Definition spec_prune (now : Time) (m : gmap TraceID Time) : gmap TraceID Time :=
  filter (λ kv, live_at now kv.2) m.

Definition spec_add (tid : TraceID) (now : Time) (m : gmap TraceID Time) : gmap TraceID Time :=
  <[tid := now]> (spec_prune now m).

Lemma lookup_abs s tid : abs s !! tid = addedAt s tid.
Proof. unfold abs, addedAt. by rewrite lookup_omap. Qed.

Lemma wf_empty : wf empty_set.
Proof.
  split; simpl; [constructor|set_solver| |set_solver|constructor].
  intros tid el. rewrite lookup_empty. set_solver.
Qed.

(** *** Removing an element *)

Lemma last_split (l : list loc) el : last l = Some el → ∃ l', l = l' ++ [el].
Proof. intros H. apply last_Some in H as [l' ->]. by exists l'. Qed.

Lemma filter_ne_last (l : list loc) el :
  NoDup (l ++ [el]) → filter (.≠ el) (l ++ [el]) = l.
Proof.
  intros Hnd. apply NoDup_app in Hnd as (_ & Hne & _).
  rewrite filter_app, filter_cons_False, app_nil_r by (by intros []).
  apply filter_ne_notin. intros Hx. apply (Hne el); set_solver.
Qed.

Lemma wf_lookup_inj s el1 el2 e1 e2 :
  wf s → el1 ∈ is_list s → el2 ∈ is_list s →
  is_elems s !! el1 = Some e1 → is_elems s !! el2 = Some e2 → ie_id e1 = ie_id e2 → el1 = el2.
Proof.
  intros Hwf H1 H2 E1 E2 Hid.
  assert (is_entries s !! ie_id e1 = Some el1) as A by (apply (wf_map _ Hwf); by rewrite E1).
  assert (is_entries s !! ie_id e1 = Some el2) as B
    by (rewrite Hid; apply (wf_map _ Hwf); by rewrite E2).
  congruence.
Qed.

Lemma elem_time_remove s el id el' :
  el' ≠ el → elem_time (remove_entry el id s) el' = elem_time s el'.
Proof. intros H. unfold elem_time. simpl. by rewrite lookup_delete_ne by done. Qed.

Lemma wf_remove s el e :
  wf s → last (is_list s) = Some el → is_elems s !! el = Some e →
  wf (remove_entry el (ie_id e) s).
Proof.
  intros Hwf Hlast He. apply last_split in Hlast as [l' Hl].
  pose proof (wf_nodup _ Hwf) as Hnd. rewrite Hl in Hnd.
  assert (el ∈ is_list s) as Hin by (rewrite Hl; set_solver).
  assert (filter (.≠ el) (is_list s) = l') as Hf by (rewrite Hl; by apply filter_ne_last).
  assert (∀ x, x ∈ l' → x ≠ el ∧ x ∈ is_list s) as Hl'.
  { intros x Hx. rewrite <- Hf in Hx. apply list_elem_of_filter in Hx. done. }
  split; simpl; rewrite ?Hf.
  - by apply NoDup_app in Hnd as [? _].
  - intros x Hx. by apply (wf_fresh _ Hwf), Hl'.
  - intros tid x. rewrite lookup_delete. case_decide as Htid.
    + split; [done|]. intros [Hx Ex]. destruct (Hl' _ Hx) as [Hne Hx'].
      rewrite lookup_delete_ne in Ex by done.
      destruct (is_elems s !! x) as [e'|] eqn:E; simplify_eq/=.
      destruct Hne. eapply wf_lookup_inj; eauto; congruence.
    + rewrite (wf_map _ Hwf). split; intros [Hx Ex].
      * rewrite Hl in Hx. apply elem_of_app in Hx as [Hx|Hx%list_elem_of_singleton].
        -- split; [done|]. rewrite lookup_delete_ne; [done|]. by apply not_eq_sym, Hl'.
        -- subst x. rewrite He in Ex. simplify_eq/=.
      * destruct (Hl' _ Hx) as [Hne Hx'].
        by rewrite lookup_delete_ne in Ex by done.
  - intros x Hx. destruct (Hl' _ Hx) as [Hne Hx'].
    rewrite lookup_delete_ne by done. by apply (wf_elem _ Hwf).
  - assert (StronglySorted (λ a b, elem_time s b <= elem_time s a) l') as HS.
    { pose proof (wf_sorted _ Hwf) as HS. rewrite Hl in HS.
      by apply StronglySorted_app in HS as (_ & HS & _). }
    eapply StronglySorted_impl_in, HS. intros x y Hx Hy.
    by rewrite !elem_time_remove by (by apply Hl').
Qed.

Lemma abs_remove s el e :
  wf s → el ∈ is_list s → is_elems s !! el = Some e →
  abs (remove_entry el (ie_id e) s) = delete (ie_id e) (abs s).
Proof.
  intros Hwf Hin He. apply map_eq. intros tid. rewrite lookup_delete, !lookup_abs.
  unfold addedAt. simpl. rewrite lookup_delete. case_decide as Htid; [done|].
  destruct (is_entries s !! tid) as [x|] eqn:Ex; [|done]. simpl.
  rewrite lookup_delete_ne; [done|]. intros <-.
  apply (wf_map _ Hwf) in Ex as [_ Ex]. rewrite He in Ex. simplify_eq/=.
Qed.

(** *** Pruning *)

Lemma prune_stop s now el e :
  wf s → last (is_list s) = Some el → is_elems s !! el = Some e →
  live_at now (ie_addedAt e) → spec_prune now (abs s) = abs s.
Proof.
  intros Hwf Hlast He Hlive. apply last_split in Hlast as [l' Hl].
  unfold spec_prune. apply map_filter_id. intros tid t. rewrite lookup_abs. unfold addedAt. simpl.
  destruct (is_entries s !! tid) as [x|] eqn:Ex; [|done]. simpl.
  destruct (is_elems s !! x) as [e'|] eqn:Ee; intros [= <-].
  apply (wf_map _ Hwf) in Ex as [Hx _].
  assert (elem_time s el <= elem_time s x) as Hle.
  { pose proof (wf_sorted _ Hwf) as HS. rewrite Hl in HS, Hx.
    apply StronglySorted_app in HS as (HR & _).
    apply elem_of_app in Hx as [Hx|Hx%list_elem_of_singleton]; [|subst; lia].
    apply HR; set_solver. }
  unfold elem_time in Hle. rewrite He, Ee in Hle. simpl in Hle.
  unfold live_at, time_sub in *. lia.
Qed.

Lemma prune_loop_spec fuel now s :
  (length (is_list s) < fuel)%nat → wf s →
  let s' := prune_loop fuel now s in
  wf s' ∧ abs s' = spec_prune now (abs s) ∧
  (∀ el, el ∈ is_list s' → el ∈ is_list s ∧ elem_time s' el = elem_time s el).
Proof.
  revert s. induction fuel as [|fuel IH]; intros s Hf Hwf; [lia|]. simpl.
  destruct (last (is_list s)) as [el|] eqn:Hlast.
  - pose proof (last_split _ _ Hlast) as [l' Hl].
    assert (el ∈ is_list s) as Hin by (rewrite Hl; set_solver).
    destruct (wf_elem _ Hwf el Hin) as [e He]. rewrite He.
    destruct (Z.ltb_spec (time_sub now (ie_addedAt e)) (i64 (2 * decisionWait))) as [Hlt|Hge].
    + split; [done|]. split; [|done]. symmetry. by eapply prune_stop.
    + pose proof (wf_remove _ _ _ Hwf Hlast He) as Hwf'.
      assert (filter (.≠ el) (is_list s) = l') as Hfl.
      { rewrite Hl. apply filter_ne_last. rewrite <- Hl. by apply wf_nodup. }
      destruct (IH (remove_entry el (ie_id e) s)) as (H1 & H2 & H3); [|done|].
      { simpl. rewrite Hfl. rewrite Hl, length_app in Hf. simpl in Hf. lia. }
      split; [done|]. split.
      * rewrite H2, (abs_remove _ _ _ Hwf Hin He). unfold spec_prune.
        apply map_filter_delete_not. intros t Ht.
        rewrite lookup_abs in Ht. unfold addedAt in Ht.
        assert (is_entries s !! ie_id e = Some el) as Hen
          by (apply (wf_map _ Hwf); by rewrite He).
        rewrite Hen in Ht. simpl in Ht. rewrite He in Ht. simplify_eq/=.
        unfold live_at. lia.
      * intros x Hx. destruct (H3 x Hx) as [Hx1 Hx2]. simpl in Hx1.
        apply list_elem_of_filter in Hx1 as [Hne Hx1]. split; [done|].
        rewrite Hx2. by apply elem_time_remove.
  - apply last_None in Hlast. split; [done|]. split; [|done].
    unfold spec_prune. symmetry. apply map_filter_id. intros tid t. rewrite lookup_abs.
    unfold addedAt. simpl. destruct (is_entries s !! tid) as [x|] eqn:Ex; [|done].
    apply (wf_map _ Hwf) in Ex as [Hx _]. rewrite Hlast in Hx. by apply not_elem_of_nil in Hx.
Qed.

Lemma prune_wf now s : wf s → wf (pruneInterestLocked now s).
Proof. intros. by apply prune_loop_spec; [lia|]. Qed.

Lemma prune_abs now s : wf s → abs (pruneInterestLocked now s) = spec_prune now (abs s).
Proof. intros. by apply prune_loop_spec; [lia|]. Qed.

Lemma prune_before now now' s :
  wf s → before_now now' s → before_now now' (pruneInterestLocked now s).
Proof.
  intros Hwf Hb el Hel.
  destruct (prune_loop_spec (S (length (is_list s))) now s) as (_ & _ & H); [lia|done|].
  destruct (H el Hel) as [Hin Ht]. unfold pruneInterestLocked. rewrite Ht. by apply Hb.
Qed.

(** *** Adding *)

Lemma elem_time_some s el e : is_elems s !! el = Some e → elem_time s el = ie_addedAt e.
Proof. unfold elem_time. by intros ->. Qed.

(** Refreshing an element in place and moving it to the front. *)
Lemma wf_refresh s tid el now :
  wf s → before_now now s → is_entries s !! tid = Some el →
  wf {| is_entries := is_entries s;
        is_list := el :: filter (.≠ el) (is_list s);
        is_elems := alter (λ e, InterestEntry (ie_id e) now) el (is_elems s);
        is_next := is_next s |}.
Proof.
  intros Hwf Hb Hel. pose proof (proj1 (wf_map _ Hwf _ _) Hel) as [Hin _].
  destruct (wf_elem _ Hwf _ Hin) as [e He].
  assert (∀ x, x ∈ el :: filter (.≠ el) (is_list s) ↔ x ∈ is_list s) as Hmem.
  { intros x. rewrite elem_of_cons, list_elem_of_filter. destruct (decide (x = el)); set_solver. }
  split; simpl.
  - constructor; [|by apply NoDup_filter, wf_nodup]. rewrite list_elem_of_filter. by intros [? _].
  - intros x. rewrite Hmem. by apply wf_fresh.
  - intros tid' x. rewrite Hmem, (wf_map _ Hwf), lookup_alter. case_decide as Hx; [|done].
    subst x. rewrite He. done.
  - intros x. rewrite Hmem. intros Hx. rewrite lookup_alter. case_decide; [subst; by rewrite He|].
    by apply (wf_elem _ Hwf).
  - constructor.
    + eapply StronglySorted_impl_in, StronglySorted_filter, wf_sorted, Hwf.
      intros x y [Hx _]%list_elem_of_filter [Hy _]%list_elem_of_filter. unfold elem_time; simpl.
      by rewrite !lookup_alter_ne by done.
    + apply Forall_forall. intros x [Hx Hx']%list_elem_of_filter. unfold elem_time; simpl.
      rewrite lookup_alter_eq, lookup_alter_ne, He by done. by apply Hb.
Qed.

Lemma wf_push s tid now :
  wf s → before_now now s → is_entries s !! tid = None →
  wf {| is_entries := <[tid := is_next s]> (is_entries s);
        is_list := is_next s :: is_list s;
        is_elems := <[is_next s := InterestEntry tid now]> (is_elems s);
        is_next := S (is_next s) |}.
Proof.
  intros Hwf Hb Htid.
  assert (∀ x, x ∈ is_list s → x ≠ is_next s) as Hne.
  { intros x Hx. apply (wf_fresh _ Hwf) in Hx. lia. }
  split; simpl.
  - constructor; [|by apply wf_nodup]. intros Hx. by apply Hne in Hx.
  - intros x [->|Hx]%elem_of_cons; [lia|]. apply (wf_fresh _ Hwf) in Hx. lia.
  - intros tid' x. rewrite elem_of_cons, lookup_insert. case_decide as Ht.
    + subst tid'. split.
      * intros [= <-]. split; [by left|]. by rewrite lookup_insert_eq.
      * intros [[->|Hx] Ex]; [done|]. rewrite lookup_insert_ne in Ex by (by apply not_eq_sym, Hne).
        rewrite (proj2 (wf_map _ Hwf tid x)) in Htid; done.
    + rewrite (wf_map _ Hwf). split.
      * intros [Hx Ex]. split; [by right|].
        by rewrite lookup_insert_ne by (by apply not_eq_sym, Hne).
      * intros [[->|Hx] Ex]; [rewrite lookup_insert_eq in Ex; simplify_eq/=|].
        by rewrite lookup_insert_ne in Ex by (by apply not_eq_sym, Hne).
  - intros x [->|Hx]%elem_of_cons; [by rewrite lookup_insert_eq|].
    rewrite lookup_insert_ne by (by apply not_eq_sym, Hne). by apply (wf_elem _ Hwf).
  - constructor.
    + eapply StronglySorted_impl_in, wf_sorted, Hwf. intros x y Hx Hy. unfold elem_time; simpl.
      by rewrite !lookup_insert_ne by (by apply not_eq_sym, Hne).
    + apply Forall_forall. intros x Hx. unfold elem_time; simpl.
      rewrite lookup_insert_eq, lookup_insert_ne by (by apply not_eq_sym, Hne). by apply Hb.
Qed.

Lemma AddInterest_wf tid now s : wf s → before_now now s → wf (AddInterest tid now s).
Proof.
  intros Hwf Hb. pose proof (prune_wf now _ Hwf). pose proof (prune_before now now _ Hwf Hb).
  unfold AddInterest. destruct (is_entries _ !! tid) eqn:E.
  - by eapply wf_refresh.
  - by apply wf_push.
Qed.

Lemma AddInterest_before tid now s : wf s → before_now now s → before_now now (AddInterest tid now s).
Proof.
  intros Hwf Hb. pose proof (prune_wf now _ Hwf) as Hwf'.
  pose proof (prune_before now now _ Hwf Hb) as Hb'.
  unfold AddInterest. destruct (is_entries _ !! tid) as [x|] eqn:E; intros el; simpl.
  - apply (wf_map _ Hwf') in E as [Hx _]. destruct (wf_elem _ Hwf' _ Hx) as [e He].
    unfold elem_time; simpl. intros [->|Hel]%elem_of_cons.
    + by rewrite lookup_alter_eq, He.
    + apply list_elem_of_filter in Hel as [Hne Hel].
      rewrite lookup_alter_ne by done. by apply Hb'.
  - unfold elem_time; simpl. intros [->|Hel]%elem_of_cons; [by rewrite lookup_insert_eq|].
    rewrite lookup_insert_ne; [by apply Hb'|].
    apply (wf_fresh _ Hwf') in Hel. lia.
Qed.

(** The pointer structure refines the abstract map. *)
Lemma AddInterest_abs tid now s :
  wf s → abs (AddInterest tid now s) = spec_add tid now (abs s).
Proof.
  intros Hwf. pose proof (prune_wf now _ Hwf) as Hwf'.
  unfold spec_add. rewrite <- prune_abs by done. unfold AddInterest.
  remember (pruneInterestLocked now s) as p eqn:Ep. clear Ep.
  apply map_eq. intros tid'. rewrite lookup_insert, !lookup_abs.
  unfold addedAt. destruct (is_entries p !! tid) as [x|] eqn:E; simpl.
  - pose proof E as E'. apply (wf_map _ Hwf') in E' as [Hx Eid].
    destruct (wf_elem _ Hwf' _ Hx) as [e He]. case_decide as Ht.
    + subst tid'. rewrite E. simpl. by rewrite lookup_alter_eq, He.
    + destruct (is_entries p !! tid') as [y|] eqn:Ey; [|done]. simpl.
      rewrite lookup_alter_ne; [done|]. intros <-.
      apply (wf_map _ Hwf') in Ey as [_ Ey]. congruence.
  - rewrite lookup_insert. case_decide as Ht.
    + simpl. by rewrite lookup_insert_eq.
    + destruct (is_entries p !! tid') as [y|] eqn:Ey; [|done]. simpl.
      rewrite lookup_insert_ne; [done|]. intros <-.
      apply (wf_map _ Hwf') in Ey as [Hy _]. apply (wf_fresh _ Hwf') in Hy. lia.
Qed.

(** *** What the queries answer, over the abstract map *)
Lemma HasInterest_abs tid now s :
  HasInterest tid now s =
    match abs s !! tid with None => false | Some t => time_sub now t <? decisionWait end.
Proof. by rewrite lookup_abs. Qed.

Lemma hasInterestForSpan_abs tid ins s :
  hasInterestForSpanRLocked tid ins s =
    match abs s !! tid with None => false | Some t => t <? ins + decisionWait end.
Proof. by rewrite lookup_abs. Qed.
End interest.
