(* ===== verification/InterestProps.v ===== *)
(** * The interest set: what is proved of it

    The pointer structure implements a finite map from trace identifiers to
    decision times, and, over a history of [AddInterest] calls, the two queries
    answer by the last decision about a trace. *)

From S2P Require Import Prelude Bytes Interest.

Section props.
Variable decisionWait : Duration.
Hypothesis Hwait : 0 < decisionWait /\ 2 * decisionWait <= max_i64.

(** A history of [AddInterest] calls, oldest first. *)
Definition history := list (Time * TraceID).

Definition replay (h : history) : InterestSet :=
  foldl (λ s c, AddInterest decisionWait c.2 c.1 s) empty_set h.

(** The clock does not go back. *)
Definition ordered (h : history) : Prop := StronglySorted Z.le h.*1.

Definition last_add (tid : TraceID) (h : history) : option Time :=
  foldl (λ r c, if decide (c.2 = tid) then Some c.1 else r) None h.

Definition last_time (h : history) : Time := default 0 (last h.*1).

Lemma ordered_snoc h t tid :
  ordered (h ++ [(t, tid)]) → ordered h ∧ ∀ u, u ∈ h.*1 → u <= t.
Proof.
  unfold ordered. rewrite fmap_app. intros H. apply StronglySorted_app in H as (HR & H1 & _).
  split; [done|]. intros u Hu. apply HR; set_solver.
Qed.

Lemma last_add_snoc tid h c :
  last_add tid (h ++ [c]) = if decide (c.2 = tid) then Some c.1 else last_add tid h.
Proof. unfold last_add. by rewrite foldl_app. Qed.

Lemma last_add_in tid h t : last_add tid h = Some t → t ∈ h.*1.
Proof.
  induction h as [|c h IH] using rev_ind; [done|]. rewrite last_add_snoc, fmap_app.
  case_decide; [intros [= <-]; set_solver|]. intros Ht. apply IH in Ht. set_solver.
Qed.

Lemma last_time_snoc h c : last_time (h ++ [c]) = c.1.
Proof. unfold last_time. rewrite fmap_app. simpl. by rewrite last_snoc. Qed.

Lemma replay_snoc h c : replay (h ++ [c]) = AddInterest decisionWait c.2 c.1 (replay h).
Proof. unfold replay. by rewrite foldl_app. Qed.

Lemma last_time_in h : h ≠ [] → last_time h ∈ h.*1.
Proof.
  induction h as [|c h IH] using rev_ind; [done|]. intros _. rewrite last_time_snoc, fmap_app. set_solver.
Qed.

(** Every state a history leads to is well formed, and no decision in it is
    later than the last call. *)
Lemma replay_wf h : ordered h → wf (replay h) ∧ ∀ now, (∀ u, u ∈ h.*1 → u <= now) → before_now now (replay h).
Proof.
  induction h as [|[t tid] h IH] using rev_ind.
  { intros _. split; [apply wf_empty|]. intros now _ el Hel. by apply not_elem_of_nil in Hel. }
  intros Ho. apply ordered_snoc in Ho as [Ho Hle]. destruct (IH Ho) as [Hwf Hb].
  rewrite replay_snoc. simpl. split; [apply AddInterest_wf; auto|].
  intros now Hnow el Hel.
  assert (elem_time (AddInterest decisionWait tid t (replay h)) el <= t)
    by (apply AddInterest_before; auto).
  assert (t <= now) by (apply Hnow; rewrite fmap_app; set_solver). lia.
Qed.

Lemma double_wait : i64 (2 * decisionWait) = 2 * decisionWait.
Proof. apply i64_small. unfold is_i64, min_i64. lia. Qed.

(** The map holds the last decision about each trace, until the first call
    that comes twice the decision window later. *)
Lemma replay_lookup h tid :
  ordered h →
  abs (replay h) !! tid =
    match last_add tid h with
    | None => None
    | Some t => if time_sub (last_time h) t <? 2 * decisionWait then Some t else None
    end.
Proof.
  induction h as [|[t tid'] h IH] using rev_ind; [done|].
  intros Ho. apply ordered_snoc in Ho as [Ho Hle]. destruct (replay_wf _ Ho) as [Hwf Hb].
  rewrite replay_snoc, AddInterest_abs, last_add_snoc, last_time_snoc by done. simpl.
  unfold spec_add. rewrite lookup_insert. case_decide as Ht.
  - assert (time_sub t t < 2 * decisionWait) by (unfold time_sub, min_i64, max_i64 in *; lia).
    destruct (Z.ltb_spec (time_sub t t) (2 * decisionWait)); [done|lia].
  - unfold spec_prune. rewrite map_lookup_filter, IH by done.
    destruct (last_add tid h) as [u|] eqn:Hu; [|done].
    apply last_add_in in Hu. assert (h ≠ []) as Hne by (intros ->; set_solver).
    pose proof (Hle _ (last_time_in _ Hne)).
    assert (time_sub (last_time h) u <= time_sub t u) by (unfold time_sub, min_i64, max_i64; lia).
    destruct (Z.ltb_spec (time_sub (last_time h) u) (2 * decisionWait)); simpl.
    + destruct (Z.ltb_spec (time_sub t u) (2 * decisionWait)).
      * by rewrite option_guard_True by (unfold live_at; rewrite double_wait; simpl; lia).
      * by rewrite option_guard_False by (unfold live_at; rewrite double_wait; simpl; lia).
    + destruct (Z.ltb_spec (time_sub t u) (2 * decisionWait)); [lia|done].
Qed.

(** C22: [AddInterest] refines insertion in a finite map: it keeps the list and
    the map of the set in step, the list sorted by time, and changes the map of
    decision times as pruning and insertion do. *)
Theorem AddInterest_refines tid now s :
  wf s → before_now now s →
  wf (AddInterest decisionWait tid now s) ∧
  before_now now (AddInterest decisionWait tid now s) ∧
  abs (AddInterest decisionWait tid now s) = spec_add decisionWait tid now (abs s).
Proof.
  intros Hwf Hb. split; [by apply AddInterest_wf|]. split; [by apply AddInterest_before|].
  by apply AddInterest_abs.
Qed.

(** [HasInterest] answers by the last decision about the trace, whatever
    was added before and between: yes exactly while it is less than
    [decisionWait] old. *)
Theorem HasInterest_window h tid now :
  ordered h → (∀ u, u ∈ h.*1 → u <= now) →
  HasInterest decisionWait tid now (replay h) =
    match last_add tid h with None => false | Some t => now - t <? decisionWait end.
Proof.
  intros Ho Hnow. rewrite HasInterest_abs, replay_lookup by done.
  destruct (last_add tid h) as [t|] eqn:Ht; [|done].
  apply last_add_in in Ht. assert (h ≠ []) as Hne by (intros ->; by apply not_elem_of_nil in Ht).
  pose proof (Hnow _ (last_time_in _ Hne)).
  assert (time_sub now t < decisionWait ↔ now - t < decisionWait) as Hsub
    by (apply time_sub_lt; unfold is_i64, min_i64 in *; lia).
  assert (time_sub (last_time h) t <= time_sub now t) by (unfold time_sub; lia).
  destruct (Z.ltb_spec (time_sub (last_time h) t) (2 * decisionWait));
    destruct (Z.ltb_spec (now - t) decisionWait); zcase; try done; lia.
Qed.

(** C23: retention. As long as no [AddInterest] call came twice the decision
    window after the decision about a trace, the sweeper still sees it, and
    finds a record interesting exactly if the decision came before the record's
    own window closed, however late it looks. *)
Theorem decision_retained h tid t ins :
  ordered h → last_add tid h = Some t → last_time h - t < 2 * decisionWait →
  hasInterestForSpanRLocked decisionWait tid ins (replay h) = (t <? ins + decisionWait).
Proof.
  intros Ho Ht Hlast. rewrite hasInterestForSpan_abs, replay_lookup, Ht by done.
  assert (time_sub (last_time h) t < 2 * decisionWait)
    by (apply time_sub_lt; unfold is_i64, min_i64 in *; lia).
  destruct (Z.ltb_spec (time_sub (last_time h) t) (2 * decisionWait)); [done|lia].
Qed.
End props.

(** *** Examples: a window of 10 *)

Definition demo_history : history :=
  [(1, replicate 16 x01); (2, replicate 16 x02); (8, replicate 16 x01); (23, replicate 16 x03)].

Lemma demo_ordered : ordered demo_history.
Proof. unfold ordered. simpl. repeat first [apply SSorted_nil|apply SSorted_cons|apply Forall_nil_2|apply Forall_cons_2]; lia. Qed.

Lemma demo_wait : 0 < 10 ∧ 2 * 10 <= max_i64.
Proof. unfold max_i64. lia. Qed.

Lemma AddInterest_refines_witness :
  wf (replay 10 demo_history) ∧ before_now 23 (replay 10 demo_history) ∧
  abs (AddInterest 10 (replicate 16 x02) 23 (replay 10 demo_history)) =
    spec_add 10 (replicate 16 x02) 23 (abs (replay 10 demo_history)).
Proof.
  assert (wf (replay 10 demo_history) ∧ before_now 23 (replay 10 demo_history)) as [Hwf Hb].
  { destruct (replay_wf 10 demo_wait demo_history demo_ordered) as [Hwf Hb]. split; [done|]. apply Hb.
    intros u Hu. unfold demo_history in Hu. simpl in Hu.
    rewrite !elem_of_cons, elem_of_nil in Hu. lia. }
  split; [done|]. split; [done|]. by apply (AddInterest_refines 10 (replicate 16 x02) 23).
Defined.

Lemma HasInterest_window_witness :
  HasInterest 10 (replicate 16 x03) 30 (replay 10 demo_history) = (30 - 23 <? 10).
Proof.
  apply (HasInterest_window 10 demo_wait demo_history (replicate 16 x03) 30).
  - apply demo_ordered.
  - intros u Hu. unfold demo_history in Hu. simpl in Hu. rewrite !elem_of_cons, elem_of_nil in Hu. lia.
Defined.

Lemma decision_retained_witness :
  hasInterestForSpanRLocked 10 (replicate 16 x01) 0 (replay 10 demo_history) = (8 <? 0 + 10).
Proof.
  apply (decision_retained 10 demo_wait demo_history).
  - apply demo_ordered.
  - vm_compute. reflexivity.
  - vm_compute. reflexivity.
Defined.
