(* ===== verification/Format.v ===== *)
(** * The record and page format of the buffer file

    The constants of processor/retroactivesampling/internal/buffer/buffer.go,
    the buffer's configuration, and the byte images of what the writer puts in
    the file: a page of small records padded with zeroes, or one large record
    that spans several pages. The images are the specification of the format;
    the code that produces and reads them is in [Writer] and [Sweeper]. *)

From S2P Require Import Prelude Bytes.

(** 16 traceID + 8 insertedAt(ns) + 4 dataLen *)
Definition hdrSize : Z := 28.

(** [pcommon.TraceID{0xFF}]: the other 15 bytes are zero. *)
Definition tombstoneID : TraceID := xff :: replicate 15 x00.

(** The fields of [SpanBuffer] that [New] fixes, and the page size of the
    operating system. *)
Class BufCfg := MkBufCfg {
  pageSize : Z;
  maxBytes : Z;
  decisionWait : Duration;
}.

(** What [New] establishes (with a page that has room for a header, and a file
    below 2.6 EiB, so that [3*maxBytes] is an [int64]). *)
Class BufCfgOk (cfg : BufCfg) : Prop := {
  cfg_page : hdrSize < pageSize;
  cfg_pages : ∃ n, 2 <= n ∧ maxBytes = n * pageSize;
  cfg_max : 3 * maxBytes <= max_i64;
  cfg_wait : 0 < decisionWait <= max_i64;
}.

Record writeReq := WriteReq {
  traceID : TraceID;
  data : bytes;
  insertedAt : Time;
}.

#[global] Instance writeReq_eq_dec : EqDecision writeReq.
Proof. solve_decision. Defined.

Definition recSize (r : writeReq) : Z := hdrSize + len (data r).

(** Requests the format can represent: an identifier that is neither the
    padding nor the tombstone, a payload whose length fits the 32-bit field and
    a time whose nanoseconds fit the 64-bit field. *)
Record valid_req (r : writeReq) : Prop := {
  valid_tid : wf_tid (traceID r);
  valid_nonzero : traceID r ≠ zero_tid;
  valid_alive : traceID r ≠ tombstoneID;
  valid_len : len (data r) < 2 ^ 32;
  valid_time : is_i64 (insertedAt r);
}.

(** The header [handle] writes. *)
Definition header (tid : TraceID) (ins : Time) (n : Z) : bytes :=
  tid ++ PutUint64 (u64 (time_unixNano ins)) ++ PutUint32 (u32 n).

(** A record in a page: pending, or marked with the tombstone. *)
Record slot := Slot { sl_req : writeReq; sl_dead : bool }.

Definition slot_tid (s : slot) : TraceID :=
  if sl_dead s then tombstoneID else traceID (sl_req s).
Definition slot_size (s : slot) : Z := recSize (sl_req s).
Definition slot_image (s : slot) : bytes :=
  header (slot_tid s) (insertedAt (sl_req s)) (len (data (sl_req s))) ++ data (sl_req s).
Definition kill (s : slot) : slot := Slot (sl_req s) true.
Definition fresh_slot (r : writeReq) : slot := Slot r false.

Definition slots_image (l : list slot) : bytes := mjoin (slot_image <$> l).

Section format.
Context `{BufCfg}.

(** [(hdrSize + len(data) + pageSize - 1) / pageSize]; the operands are not
    negative, so that Go's division is [Z.div]. *)
Definition numChunks (n : Z) : Z := (hdrSize + n + pageSize - 1) / pageSize.

Definition page_image (l : list slot) : bytes :=
  slots_image l ++ zeroes (pageSize - len (slots_image l)).

Definition large_image (s : slot) : bytes :=
  slot_image s ++ zeroes (numChunks (len (data (sl_req s))) * pageSize - slot_size s).

(** What one flush adds to the ring. *)
Inductive unit_ := UPage (l : list slot) | ULarge (s : slot).

Definition unit_image (u : unit_) : bytes :=
  match u with UPage l => page_image l | ULarge s => large_image s end.
Definition unit_slots (u : unit_) : list slot :=
  match u with UPage l => l | ULarge s => [s] end.
Definition unit_chunks (u : unit_) : Z :=
  match u with UPage _ => 1 | ULarge s => numChunks (len (data (sl_req s))) end.

Definition unit_ok (u : unit_) : Prop :=
  Forall (λ s, valid_req (sl_req s)) (unit_slots u) ∧
  match u with
  | UPage l => len (slots_image l) <= pageSize
  | ULarge s => pageSize < slot_size s
  end.

Definition units_image (us : list unit_) : bytes := mjoin (unit_image <$> us).
Definition units_chunks (us : list unit_) : Z := foldr Z.add 0 (unit_chunks <$> us).
End format.

(** ** Lengths *)

Lemma length_header tid ins n : wf_tid tid → length (header tid ins n) = 28%nat.
Proof. unfold header, wf_tid. intros Htid. rewrite !length_app. autorewrite with go_len. lia. Qed.

Lemma wf_tombstone : wf_tid tombstoneID.
Proof. reflexivity. Qed.
Lemma wf_zero : wf_tid zero_tid.
Proof. reflexivity. Qed.

Lemma wf_slot_tid s : wf_tid (traceID (sl_req s)) → wf_tid (slot_tid s).
Proof. unfold slot_tid. by destruct (sl_dead s). Qed.

Lemma length_slot_image s :
  wf_tid (traceID (sl_req s)) → len (slot_image s) = slot_size s.
Proof.
  intros Htid. unfold slot_image, slot_size, recSize, hdrSize.
  rewrite length_app, length_header by (by apply wf_slot_tid). lia.
Qed.

Lemma slot_size_hdr s : hdrSize <= slot_size s.
Proof. unfold slot_size, recSize. lia. Qed.

Lemma slots_image_cons s l : slots_image (s :: l) = slot_image s ++ slots_image l.
Proof. done. Qed.
Lemma slots_image_app l l' : slots_image (l ++ l') = slots_image l ++ slots_image l'.
Proof. unfold slots_image. by rewrite fmap_app, join_app. Qed.
Lemma slots_image_nil : slots_image [] = [].
Proof. done. Qed.

Lemma slot_tid_kill s : slot_tid (kill s) = tombstoneID.
Proof. done. Qed.

(** ** Reading a header, and a slot, back *)
Section read_header.
Variables (pre post : bytes) (tid : TraceID) (ins : Time) (n pos : Z).
Hypothesis Htid : wf_tid tid.
Hypothesis Hpos : pos = len pre.

Let buf : bytes := pre ++ header tid ins n ++ post.

Local Lemma buf_split :
  buf = pre ++ tid ++ PutUint64 (u64 (time_unixNano ins)) ++ PutUint32 (u32 n) ++ post.
Proof. unfold buf, header. by rewrite <- !app_assoc. Qed.

Lemma read_tid : slice buf pos (pos + 16) = tid.
Proof. rewrite buf_split. apply slice_app; [done|]. rewrite Htid. lia. Qed.

Lemma read_time : is_i64 ins → i64 (Uint64 (slice buf (pos + 16) (pos + 24))) = ins.
Proof.
  intros Hins. rewrite buf_split, (app_assoc pre).
  rewrite slice_app; [|rewrite length_app, Htid; lia|autorewrite with go_len; lia].
  rewrite Uint64_put. unfold time_unixNano.
  rewrite !i64_u64, !i64_small; [done|done|apply i64_range].
Qed.

Lemma read_len : 0 <= n < 2 ^ 32 → Uint32 (slice buf (pos + 24) (pos + 28)) = n.
Proof.
  intros Hn. rewrite buf_split, (app_assoc pre), (app_assoc (pre ++ _)).
  rewrite slice_app;
    [|rewrite !length_app, Htid; autorewrite with go_len; lia|autorewrite with go_len; lia].
  rewrite Uint32_put. by rewrite !(wrapU_small 32 n) by lia.
Qed.

Lemma kill_header : copy_at buf pos tombstoneID = pre ++ header tombstoneID ins n ++ post.
Proof.
  unfold buf, header. rewrite <- !app_assoc.
  apply copy_at_app; [done|]. by rewrite Htid.
Qed.
End read_header.

Lemma read_data pre post s pos :
  valid_req (sl_req s) → pos = len pre →
  slice (pre ++ slot_image s ++ post) (pos + hdrSize) (pos + slot_size s) = data (sl_req s).
Proof.
  intros Hv Hpos. unfold slot_image. rewrite <- !app_assoc, (app_assoc pre).
  pose proof (length_header (slot_tid s) (insertedAt (sl_req s)) (len (data (sl_req s))) (wf_slot_tid s (valid_tid _ Hv))).
  apply slice_app; rewrite ?length_app; unfold slot_size, recSize, hdrSize; lia.
Qed.

Lemma kill_slot pre post s pos :
  valid_req (sl_req s) → pos = len pre →
  copy_at (pre ++ slot_image s ++ post) pos tombstoneID = pre ++ slot_image (kill s) ++ post.
Proof.
  intros Hv Hpos. unfold slot_image. rewrite <- !app_assoc.
  apply kill_header; [|done]. apply wf_slot_tid, Hv.
Qed.
