(* ===== verification/Ring.v ===== *)
(** * The ring of pages

    The relation between the bytes of the buffer file and the units (pages of
    small records, large records) that are in it: read from [rHead] once around,
    the file is the images of the units in order, followed by bytes nobody looks
    at. [runWriter] extends it at [wHead], [runSweeper] updates and removes its
    first unit at [rHead] (buffer.go); both work with offsets modulo [maxBytes]. *)

From S2P Require Import Prelude Bytes Format.

Section ring.
Context {cfg : BufCfg} {Hok : BufCfgOk cfg}.

Lemma page_pos : 0 < pageSize.
Proof. pose proof cfg_page. unfold hdrSize in *. lia. Qed.

Lemma max_pos : 0 < maxBytes.
Proof. pose proof page_pos. destruct cfg_pages as (n & ? & ->). nia. Qed.

Lemma two_pages : 2 * pageSize <= maxBytes.
Proof. pose proof page_pos. destruct cfg_pages as (n & ? & ->). nia. Qed.

Lemma max_aligned : (pageSize | maxBytes).
Proof. destruct cfg_pages as (n & _ & ->). by exists n. Qed.

Lemma numChunks_spec n :
  0 <= n → (numChunks n - 1) * pageSize < hdrSize + n <= numChunks n * pageSize.
Proof.
  intros Hn. unfold numChunks. pose proof page_pos.
  pose proof (Z.div_mod (hdrSize + n + pageSize - 1) pageSize).
  pose proof (Z.mod_pos_bound (hdrSize + n + pageSize - 1) pageSize). nia.
Qed.

Lemma numChunks_pos n : 0 <= n → 1 <= numChunks n.
Proof.
  intros Hn. pose proof (numChunks_spec n Hn). pose proof page_pos. unfold hdrSize in *. nia.
Qed.

Lemma unit_image_len u : unit_ok u → len (unit_image u) = unit_chunks u * pageSize.
Proof.
  intros [Hv Hsz]. destruct u as [l|s]; simpl in *; unfold page_image, large_image.
  - len_lia.
  - rewrite Forall_singleton in Hv. pose proof (length_slot_image s (valid_tid _ Hv)).
    pose proof (numChunks_spec (len (data (sl_req s)))).
    unfold slot_size, recSize in *. len_lia.
Qed.

Lemma unit_chunks_pos u : unit_ok u → 1 <= unit_chunks u.
Proof. intros _. destruct u; simpl; [lia|]. apply numChunks_pos. lia. Qed.

Lemma units_image_cons u us : units_image (u :: us) = unit_image u ++ units_image us.
Proof. done. Qed.
Lemma units_image_snoc us u : units_image (us ++ [u]) = units_image us ++ unit_image u.
Proof. unfold units_image. rewrite fmap_app, join_app. simpl. by rewrite app_nil_r. Qed.
Lemma units_chunks_cons u us : units_chunks (u :: us) = unit_chunks u + units_chunks us.
Proof. done. Qed.
Lemma units_chunks_snoc us u : units_chunks (us ++ [u]) = units_chunks us + unit_chunks u.
Proof.
  induction us as [|v us IH]; [unfold units_chunks; simpl; lia|].
  rewrite <- app_comm_cons, !units_chunks_cons. lia.
Qed.

Lemma units_image_len us : Forall unit_ok us → len (units_image us) = units_chunks us * pageSize.
Proof.
  induction 1 as [|u us Hu Hus IH]; [done|].
  rewrite units_image_cons, units_chunks_cons, length_app.
  pose proof (unit_image_len u Hu). lia.
Qed.

Lemma units_chunks_nonneg us : Forall unit_ok us → 0 <= units_chunks us.
Proof.
  induction 1 as [|u us Hu Hus IH]; [done|]. rewrite units_chunks_cons.
  pose proof (unit_chunks_pos u Hu). lia.
Qed.

Record ring_holds (r : Z) (f : bytes) (used : Z) (us : list unit_) : Prop := {
  rh_len : len f = maxBytes;
  rh_head : 0 <= r < maxBytes;
  rh_align : (pageSize | r);
  rh_used : used = units_chunks us * pageSize;
  rh_le : used <= maxBytes;
  rh_view : ∃ rest, ring r f = units_image us ++ rest;
  rh_ok : Forall unit_ok us;
}.

Lemma ring_empty r f :
  len f = maxBytes → 0 <= r < maxBytes → (pageSize | r) → ring_holds r f 0 [].
Proof. intros. pose proof max_pos. split; try done; [lia|by eexists]. Qed.

Lemma rh_nonneg r f used us : ring_holds r f used us → 0 <= used.
Proof.
  intros [_ _ _ -> _ _ Hu]. pose proof (units_chunks_nonneg _ Hu). pose proof page_pos. nia.
Qed.

(** [used] is zero exactly when there is no unit. *)
Lemma rh_zero r f used us : ring_holds r f used us → used = 0 ↔ us = [].
Proof.
  intros [_ _ _ -> _ _ Hu]. pose proof page_pos. destruct us as [|u us]; [done|].
  apply Forall_cons in Hu as [Hu Hus]. rewrite units_chunks_cons.
  pose proof (unit_chunks_pos u Hu). pose proof (units_chunks_nonneg _ Hus). split; [nia|done].
Qed.

(** A page of the file at a page-aligned offset of the view. *)
Lemma ring_read_page r f used us k n :
  ring_holds r f used us → 0 <= k → (pageSize | k) → k + pageSize <= maxBytes → 0 <= n <= pageSize →
  slice f ((r + k) mod maxBytes) ((r + k) mod maxBytes + n) = slice (ring r f) k (k + n).
Proof.
  intros Hrh Hk Hka Hfit Hn. pose proof (rh_head _ _ _ _ Hrh). pose proof (rh_len _ _ _ _ Hrh) as Hl.
  pose proof page_pos. pose proof max_pos.
  destruct (aligned_fit pageSize maxBytes (r + k)) as (? & ? & ?); try done.
  { apply max_aligned. }
  { apply Z.divide_add_r; [apply (rh_align _ _ _ _ Hrh)|done]. }
  rewrite <- Hl. apply ring_slice; rewrite ?Hl; lia.
Qed.

Lemma ring_write_page (r : Z) (f : bytes) (k : Z) (p : bytes) :
  len f = maxBytes → 0 <= r < maxBytes → (pageSize | r) →
  0 <= k → (pageSize | k) → k + pageSize <= maxBytes → len p = pageSize →
  ring r (copy_at f ((r + k) mod maxBytes) p) = copy_at (ring r f) k p ∧
  len (copy_at f ((r + k) mod maxBytes) p) = maxBytes.
Proof.
  intros Hl Hr Hra Hk Hka Hfit Hp. pose proof page_pos. pose proof max_pos.
  destruct (aligned_fit pageSize maxBytes (r + k)) as (? & ? & ?); try done.
  { apply max_aligned. }
  { by apply Z.divide_add_r. }
  split; [|rewrite length_copy_at; lia].
  rewrite <- Hl. apply ring_copy_at; rewrite ?Hl; lia.
Qed.

(** Any write of whole pages behind the last unit extends the ring by a unit. *)
Lemma ring_push r f f' used us u :
  ring_holds r f used us → unit_ok u → used + unit_chunks u * pageSize <= maxBytes →
  len f' = maxBytes → ring r f' = copy_at (ring r f) used (unit_image u) →
  ring_holds r f' (used + unit_chunks u * pageSize) (us ++ [u]).
Proof.
  intros [Hl Hh Ha Hus Hle [rest Hv] Huok] Hu Hfit Hl' Hring.
  split; try done.
  - rewrite units_chunks_snoc. lia.
  - eexists. rewrite Hring, Hv, units_image_snoc, <- app_assoc.
    pose proof (unit_image_len u Hu). pose proof (units_image_len us Huok).
    apply copy_at_prefix; [lia|].
    assert (length (ring r f) = length f) as HL by apply length_ring.
    rewrite Hv, length_app in HL. lia.
  - apply Forall_app. by split; [|constructor].
Qed.

(** The page the sweeper reads is the start of the first unit. *)
Lemma ring_head_page r f used u us :
  ring_holds r f used (u :: us) → slice f r (r + pageSize) = take (Z.to_nat pageSize) (unit_image u).
Proof.
  intros Hrh. pose proof page_pos. destruct (rh_head _ _ _ _ Hrh).
  destruct cfg_pages as (n & ? & Hm).
  pose proof (ring_read_page r f used (u :: us) 0 pageSize Hrh) as Hread.
  rewrite Z.add_0_r, Z.mod_small in Hread by lia.
  rewrite Hread; [|lia|apply Z.divide_0_r|nia|lia].
  destruct (rh_view _ _ _ _ Hrh) as [rest ->]. rewrite units_image_cons, <- app_assoc.
  unfold slice. rewrite drop_0. rewrite take_app_le; [f_equal; lia|].
  pose proof (rh_ok _ _ _ _ Hrh) as Hu. apply Forall_cons in Hu as [Hu _].
  pose proof (unit_image_len u Hu). pose proof (unit_chunks_pos u Hu). nia.
Qed.

(** Overwriting the first page of the ring changes the first unit only. *)
Lemma ring_update_head r f used u u' us p :
  ring_holds r f used (u :: us) → unit_ok u' → unit_chunks u' = unit_chunks u →
  len p = pageSize → copy_at (unit_image u) 0 p = unit_image u' →
  ring_holds r (copy_at f r p) used (u' :: us).
Proof.
  intros Hrh Hu' Hch Hp Himg. destruct Hrh as [Hl Hh Ha Hus Hle [rest Hv] Huok].
  pose proof page_pos. destruct cfg_pages as (n & ? & Hm).
  destruct (ring_write_page r f 0 p) as [Hring Hl']; try done; [apply Z.divide_0_r|nia|].
  rewrite Z.add_0_r, Z.mod_small in Hring, Hl' by lia.
  apply Forall_cons in Huok as [Hu Huok].
  split; try done.
  - by rewrite units_chunks_cons in *; rewrite Hch.
  - rewrite Hring, Hv. exists rest. rewrite !units_image_cons, <- !app_assoc, <- Himg.
    pose proof (unit_image_len u Hu). pose proof (unit_chunks_pos u Hu).
    destruct (split_len (unit_image u) (len p)) as (a & b & -> & Hab); [nia|].
    rewrite <- app_assoc, !copy_at_0 by lia. by rewrite <- app_assoc.
  - by constructor.
Qed.

(** Advancing the read offset past the first unit removes it. *)
Lemma ring_pop r f used u us :
  ring_holds r f used (u :: us) →
  ring_holds ((r + unit_chunks u * pageSize) mod maxBytes) f (used - unit_chunks u * pageSize) us.
Proof.
  intros [Hl Hh Ha Hus Hle [rest Hv] Huok]. pose proof page_pos. pose proof max_pos.
  apply Forall_cons in Huok as [Hu Huok]. rewrite units_chunks_cons in Hus.
  pose proof (unit_image_len u Hu) as Hul. pose proof (unit_chunks_pos u Hu).
  pose proof (units_chunks_nonneg _ Huok).
  assert (unit_chunks u * pageSize <= maxBytes) as Hfit by nia.
  split; try done; [| |lia|lia|].
  - apply Z.mod_pos_bound. lia.
  - eapply aligned_fit; try done; [apply max_aligned|].
    apply Z.divide_add_r; [done|]. by exists (unit_chunks u).
  - rewrite <- Hl. rewrite ring_advance by lia. rewrite Hv, units_image_cons, <- app_assoc.
    replace (Z.to_nat (unit_chunks u * pageSize)) with (length (unit_image u)) by lia.
    rewrite drop_app_length, take_app_length. eexists. by rewrite <- app_assoc.
Qed.
End ring.
