(* ===== verification/Writer.v ===== *)
(** * The writer goroutine of the span buffer

    [runWriter] with its closures [flush] and [handle]
    (processor/retroactivesampling/internal/buffer/buffer.go). The goroutine
    blocks in three places: the [select] of its main loop, the loop of [flush]
    that waits for a free page, and the loop of [handle] that waits for all the
    pages of a large record. [wpc] names these places and what is left to do
    once the wait is over; the code between two of them is one function here,
    and [SpanBuffer] runs them against the sweeper and the clients. A waiting
    loop tests [used] first and selects afterwards: [w_waiting] says that the
    test found no room and the goroutine is in the select. *)

From S2P Require Import Prelude Bytes Format Ring.

(** What the caller of [flush] goes on with. *)
Inductive cont :=
| KSmall (req : writeReq)    (* handle, small record *)
| KLarge (req : writeReq)    (* handle, large record *)
| KTick                      (* the ticker *)
| KFinal.                    (* the last flush before the goroutine returns *)

Inductive wpc :=
| WSelect                    (* the select of the main loop, or of the drain loop *)
| WFlush (k : cont)          (* the waiting loop of flush *)
| WPages (req : writeReq)    (* the waiting loop of handle *)
| WWake (k : option cont)    (* used is updated, the wakeup is to be sent *)
| WExit                      (* returned *)
| WPanic.                    (* a slice bound was exceeded *)

Record writer := MkWriter {
  w_stage : bytes;
  w_stageN : Z;
  w_head : Z;
  w_drain : bool;            (* in the drain loop, after closeCh *)
  w_pc : wpc;
  w_waiting : bool;          (* in the select of a waiting loop, after its test *)
}.

Definition set_pc (pc : wpc) (w : writer) : writer :=
  MkWriter (w_stage w) (w_stageN w) (w_head w) (w_drain w) pc false.
Definition set_stage (stage : bytes) (n : Z) (w : writer) : writer :=
  MkWriter stage n (w_head w) (w_drain w) (w_pc w) (w_waiting w).
Definition set_head (h : Z) (w : writer) : writer :=
  MkWriter (w_stage w) (w_stageN w) h (w_drain w) (w_pc w) (w_waiting w).
Definition set_drain (w : writer) : writer :=
  MkWriter (w_stage w) (w_stageN w) (w_head w) true (w_pc w) false.
Definition set_waiting (x : bool) (w : writer) : writer :=
  MkWriter (w_stage w) (w_stageN w) (w_head w) (w_drain w) (w_pc w) x.

Section writer.
Context `{BufCfg}.

Definition init_writer : writer := MkWriter (zeroes pageSize) 0 0 false WSelect false.

(** [for b.used.Load()+need > b.maxBytes] *)
Definition must_wait (used need : Z) : bool := maxBytes <? i64 (used + need).

(** The start of [flush]: [clear(stage[stageN:])]. *)
Definition flush_start (k : cont) (w : writer) : writer :=
  if len (w_stage w) <? w_stageN w then set_pc WPanic w
  else set_pc (WFlush k) (set_stage (fill_from x00 (w_stage w) (w_stageN w)) (w_stageN w) w).

(** A small record is copied to the stage. The two [Put]s check their
    bounds, [copy] truncates. *)
Definition stage_record (req : writeReq) (w : writer) : writer :=
  let n := w_stageN w in
  if len (w_stage w) <? n + hdrSize then set_pc WPanic w
  else
    let st := copy_at (w_stage w) n (traceID req) in
    let st := copy_at st (n + 16) (PutUint64 (u64 (time_unixNano (insertedAt req)))) in
    let st := copy_at st (n + 24) (PutUint32 (u32 (len (data req)))) in
    let st := copy_at st (n + hdrSize) (data req) in
    set_pc WSelect (set_stage st (n + recSize req) w).

(** The large branch of [handle], up to the waiting loop. *)
Definition large_check (req : writeReq) (w : writer) : writer :=
  if maxBytes <? numChunks (len (data req)) * pageSize then set_pc WSelect w
  else set_pc (WPages req) w.

(** What the caller does after [flush] returned [closed]. *)
Definition after_flush (k : cont) (closed : bool) (w : writer) : writer :=
  match k with
  | KSmall req => if closed then set_pc WSelect w else stage_record req w
  | KLarge req => if closed then set_pc WSelect w else large_check req w
  | KTick => set_pc WSelect w
  | KFinal => set_pc WExit w
  end.

(** [flush] gives up when the buffer is full at shutdown. *)
Definition flush_closed (k : cont) (w : writer) : writer :=
  after_flush k true (set_stage (w_stage w) 0 w).

(** The rest of [flush] once there is room, up to the wakeup. [io] is
    whether the [WriteAt] succeeds: its error is returned, and ignored by
    every caller. *)
Definition flush_commit (io : bool) (k : cont) (w : writer) (file : bytes) (used : Z)
    : writer * bytes * Z :=
  if io then
    (set_pc (WWake (Some k)) (set_stage (w_stage w) 0 (set_head ((w_head w + pageSize) mod maxBytes) w)),
     copy_at file (w_head w) (w_stage w),
     i64 (used + pageSize))
  else (after_flush k false w, file, used).

(** [handle], up to its first wait. *)
Definition handle (req : writeReq) (w : writer) : writer :=
  if recSize req <=? pageSize then
    if pageSize <? w_stageN w + recSize req then flush_start (KSmall req) w
    else stage_record req w
  else if 0 <? w_stageN w then flush_start (KLarge req) w
  else large_check req w.

(** The first chunk of a large record: header and as much data as fits. *)
Definition first_chunk (req : writeReq) (stage : bytes) : bytes :=
  let st := copy_at stage 0 (traceID req) in
  let st := copy_at st 16 (PutUint64 (u64 (time_unixNano (insertedAt req)))) in
  let st := copy_at st 24 (PutUint32 (u32 (len (data req)))) in
  let n := copied st hdrSize (data req) in
  fill_from x00 (copy_at st hdrSize (data req)) (hdrSize + n).

(** [for off < len(req.data)]: the continuation chunks. [io i] is whether the
    [i]-th [WriteAt] succeeds. The result says whether all of them did. *)
Fixpoint write_chunks (fuel : nat) (io : nat → bool) (i : nat) (d : bytes) (off : Z)
    (stage : bytes) (head : Z) (file : bytes) : bytes * Z * bytes * bool :=
  match fuel with
  | O => (stage, head, file, true)
  | S fuel =>
      if off <? len d then
        let rest := drop (Z.to_nat off) d in
        let n := copied stage 0 rest in
        let stage := fill_from x00 (copy_at stage 0 rest) n in
        if io i then
          write_chunks fuel io (S i) d (off + n) stage ((head + pageSize) mod maxBytes)
            (copy_at file head stage)
        else (stage, head, file, false)
      else (stage, head, file, true)
  end.

(** The rest of [handle] once all pages of a large record can be claimed, up
    to the wakeup. *)
Definition large_commit (io : nat → bool) (req : writeReq) (w : writer) (file : bytes) (used : Z)
    : writer * bytes * Z :=
  let stage := first_chunk req (w_stage w) in
  let w := set_stage stage (w_stageN w) w in
  if io O then
    let n := copied (w_stage w) hdrSize (data req) in
    let '(stage, head, file, ok) :=
      write_chunks (length (data req)) io 1 (data req) n stage
        ((w_head w + pageSize) mod maxBytes) (copy_at file (w_head w) stage) in
    let w := set_head head (set_stage stage (w_stageN w) w) in
    if ok then
      (set_pc (WWake None) w, file, i64 (used + numChunks (len (data req)) * pageSize))
    else (set_pc WSelect w, file, used)
  else (set_pc WSelect w, file, used).

(** What follows the wakeup. *)
Definition after_wake (k : option cont) (w : writer) : writer :=
  match k with
  | Some k => after_flush k false w
  | None => set_pc WSelect w
  end.

(** The ticker's branch of the main loop. *)
Definition tick (w : writer) : writer :=
  if 0 <? w_stageN w then flush_start KTick w else set_pc WSelect w.

(** The default branch of the drain loop. *)
Definition drain_done (w : writer) : writer :=
  if 0 <? w_stageN w then flush_start KFinal w else set_pc WExit w.
End writer.

(** ** The stage holds the images of the records that were handled *)
Section writer_spec.
Context {cfg : BufCfg} {Hok : BufCfgOk cfg}.

Definition small_req (r : writeReq) : Prop := recSize r <= pageSize.

Record stage_ok (rs : list writeReq) (w : writer) : Prop := {
  stage_len : len (w_stage w) = pageSize;
  stage_n : w_stageN w = len (slots_image (fresh_slot <$> rs));
  stage_fit : w_stageN w <= pageSize;
  stage_image : ∃ rest, w_stage w = slots_image (fresh_slot <$> rs) ++ rest;
  stage_valid : Forall valid_req rs;
}.

Lemma init_stage_ok : stage_ok [] init_writer.
Proof.
  pose proof cfg_page. unfold hdrSize in *.
  split; simpl; [autorewrite with go_len; lia|done|lia|by eexists|constructor].
Qed.

(** The four copies of [handle] put the image of the record. *)
Lemma put_record_image req st pre rest :
  wf_tid (traceID req) → st = pre ++ rest → recSize req <= len rest →
  let n := len pre in
  copy_at (copy_at (copy_at (copy_at st n (traceID req)) (n + 16)
    (PutUint64 (u64 (time_unixNano (insertedAt req))))) (n + 24)
    (PutUint32 (u32 (len (data req))))) (n + hdrSize) (data req)
  = pre ++ slot_image (fresh_slot req) ++ drop (Z.to_nat (recSize req)) rest.
Proof.
  intros Htid -> Hfit n. subst n. unfold wf_tid in Htid.
  unfold recSize, hdrSize in *.
  assert (len (traceID req) = 16) as Ht by lia.
  rewrite (copy_at_copy_at (pre ++ rest) (len pre) (traceID req)) by len_lia.
  do 2 rewrite (copy_at_copy_at (pre ++ rest) (len pre) (_ ++ _)) by len_lia.
  rewrite copy_at_prefix by len_lia.
  unfold slot_image, header, slot_tid, fresh_slot, sl_dead, sl_req.
  rewrite <- !app_assoc. do 4 f_equal. f_equal. apply (f_equal (λ n, drop n rest)). len_lia.
Qed.

Lemma stage_record_spec req rs w :
  stage_ok rs w → valid_req req → w_stageN w + recSize req <= pageSize →
  let w' := stage_record req w in
  stage_ok (rs ++ [req]) w' ∧ w_pc w' = WSelect ∧ w_head w' = w_head w ∧ w_drain w' = w_drain w.
Proof.
  intros Hst Hv Hfit. destruct Hst as [Hlen Hn Hle [rest Himg] Hval].
  unfold stage_record.
  assert (hdrSize <= recSize req) by (unfold recSize; lia).
  destruct (Z.ltb_spec (len (w_stage w)) (w_stageN w + hdrSize)); [lia|].
  split; [|done].
  assert (recSize req <= len rest) as Hrest.
  { rewrite Himg, length_app in Hlen. lia. }
  assert (len (slot_image (fresh_slot req)) = recSize req) as Hsz
    by (apply length_slot_image, Hv).
  pose proof (put_record_image req _ _ _ (valid_tid _ Hv) Himg Hrest) as Hput.
  rewrite <- Hn in Hput. cbv zeta in Hput.
  assert (slots_image (fresh_slot <$> (rs ++ [req])) =
    slots_image (fresh_slot <$> rs) ++ slot_image (fresh_slot req)) as Happ.
  { rewrite fmap_app, slots_image_app. simpl. by rewrite slots_image_cons, slots_image_nil, app_nil_r. }
  split; simpl.
  - rewrite Hput, !length_app, length_drop. rewrite Himg, length_app in Hlen. lia.
  - rewrite Happ, length_app. lia.
  - done.
  - rewrite Hput, Happ. eexists. by rewrite <- app_assoc.
  - apply Forall_app. split; [done|]. by constructor.
Qed.

Lemma flush_start_spec k rs w :
  stage_ok rs w →
  let w' := flush_start k w in
  stage_ok rs w' ∧ w_stage w' = page_image (fresh_slot <$> rs) ∧
  w_pc w' = WFlush k ∧ w_head w' = w_head w ∧ w_drain w' = w_drain w.
Proof.
  intros [Hlen Hn Hle [rest Himg] Hval]. unfold flush_start.
  destruct (Z.ltb_spec (len (w_stage w)) (w_stageN w)); [lia|].
  assert (fill_from x00 (w_stage w) (w_stageN w) = page_image (fresh_slot <$> rs)) as E.
  { rewrite Himg, (fill_from_app x00 _ rest) by done. unfold page_image, zeroes.
    rewrite Himg, length_app in Hlen. do 2 f_equal. lia. }
  split; [|by rewrite <- E].
  split; simpl; try done.
  - rewrite length_fill_from; lia.
  - rewrite E. unfold page_image. by eexists.
Qed.

Lemma page_image_len l : len (slots_image l) <= pageSize → len (page_image l) = pageSize.
Proof. intros. unfold page_image. rewrite length_app. autorewrite with go_len. lia. Qed.

(** *** Large records *)

Lemma first_chunk_image req st :
  valid_req req → len st = pageSize → pageSize < recSize req →
  copied st hdrSize (data req) = pageSize - hdrSize ∧
  first_chunk req st = header (traceID req) (insertedAt req) (len (data req)) ++
    take (Z.to_nat (pageSize - hdrSize)) (data req).
Proof.
  intros Hv Hst Hbig. pose proof cfg_page. unfold recSize, copied, first_chunk, hdrSize in *.
  assert (len (traceID req) = 16) as Ht by (rewrite (valid_tid _ Hv); done).
  split; [lia|].
  rewrite (copy_at_copy_at st 0 (traceID req)) by len_lia.
  rewrite (copy_at_copy_at st 0 (_ ++ _)) by len_lia.
  destruct (split_len st 28) as (h & rest & -> & Hh); [lia|]. rewrite length_app in Hst.
  rewrite copy_at_0 by len_lia.
  match goal with |- context [copied _ _ _] => unfold copied end.
  set (hd := (traceID req ++ PutUint64 _) ++ PutUint32 _).
  assert (len hd = 28) as Hhd by (subst hd; len_lia).
  replace (28 + _) with pageSize by len_lia.
  assert (copy_at (hd ++ rest) 28 (data req) = hd ++ take (Z.to_nat (pageSize - 28)) (data req)) as E.
  { unfold copy_at. replace (Z.to_nat 28) with (length hd) by lia. rewrite take_app_length. f_equal.
    rewrite (drop_ge (hd ++ rest)) by len_lia. rewrite app_nil_r. f_equal. len_lia. }
  rewrite E. unfold fill_from. rewrite take_ge by len_lia.
  replace (length _ - _)%nat with 0%nat by len_lia. simpl. rewrite app_nil_r.
  subst hd. unfold header. by rewrite <- !app_assoc.
Qed.

Definition chunks_len (n : Z) : Z := (n + pageSize - 1) / pageSize * pageSize.
Definition chunks_image (rest : bytes) : bytes := rest ++ zeroes (chunks_len (len rest) - len rest).

Lemma chunks_len_spec n : 0 <= n → n <= chunks_len n < n + pageSize.
Proof.
  intros Hn. unfold chunks_len. pose proof page_pos.
  pose proof (Z.div_mod (n + pageSize - 1) pageSize).
  pose proof (Z.mod_pos_bound (n + pageSize - 1) pageSize). nia.
Qed.

Lemma chunks_len_step n : chunks_len n = pageSize + chunks_len (n - pageSize).
Proof.
  unfold chunks_len. pose proof page_pos.
  replace (n + pageSize - 1) with ((n - pageSize + pageSize - 1) + 1 * pageSize) by lia.
  rewrite Z.div_add by lia. lia.
Qed.

Lemma chunks_len_small n : 1 - pageSize <= n <= 0 → chunks_len n = 0.
Proof. intros. unfold chunks_len. pose proof page_pos. by rewrite Z.div_small by lia. Qed.

Lemma chunks_image_len rest : len (chunks_image rest) = chunks_len (len rest).
Proof. unfold chunks_image. pose proof (chunks_len_spec (len rest)). len_lia. Qed.

Lemma chunks_image_nil : chunks_image [] = [].
Proof. unfold chunks_image. pose proof page_pos. by rewrite chunks_len_small by (simpl; lia). Qed.

(** One iteration of the loop writes the first page of the image. *)
Lemma chunks_image_step rest stage :
  0 < len rest → len stage = pageSize →
  let n := copied stage 0 rest in
  let stage' := fill_from x00 (copy_at stage 0 rest) n in
  len stage' = pageSize ∧ n = Z.min pageSize (len rest) ∧
  chunks_image rest = stage' ++ chunks_image (drop (Z.to_nat n) rest).
Proof.
  intros Hr Hst n stage'. pose proof page_pos.
  assert (n = Z.min pageSize (len rest)) as Hn by (subst n; unfold copied; lia).
  assert (stage' = take (Z.to_nat n) rest ++ zeroes (pageSize - n)) as E.
  { subst stage'. unfold fill_from. rewrite Nat2Z.inj_iff || idtac.
    assert (len (copy_at stage 0 rest) = pageSize) as Hc by (rewrite length_copy_at; lia).
    unfold zeroes. f_equal; [|f_equal; lia].
    unfold copy_at. simpl. rewrite take_app_le by len_lia. rewrite take_take. f_equal. lia. }
  split; [rewrite E; len_lia|]. split; [done|]. rewrite E.
  destruct (decide (len rest <= pageSize)).
  - rewrite (take_ge rest), (drop_ge rest) by lia. rewrite chunks_image_nil, app_nil_r.
    unfold chunks_image. rewrite chunks_len_step, chunks_len_small by lia. do 2 f_equal. lia.
  - replace (pageSize - n) with 0 by lia. rewrite app_nil_r.
    unfold chunks_image. rewrite app_assoc, take_drop. do 2 f_equal.
    rewrite (chunks_len_step (len rest)).
    replace (len (drop (Z.to_nat n) rest)) with (len rest - pageSize) by len_lia. lia.
Qed.

Lemma write_chunks_spec fuel i d off stage r k f :
  len d - off <= Z.of_nat fuel → 0 <= off <= len d → len stage = pageSize →
  len f = maxBytes → 0 <= r < maxBytes → (pageSize | r) → 0 <= k → (pageSize | k) →
  k + chunks_len (len d - off) <= maxBytes →
  ∃ stage' f',
    write_chunks fuel (λ _, true) i d off stage ((r + k) mod maxBytes) f =
      (stage', (r + k + chunks_len (len d - off)) mod maxBytes, f', true) ∧
    len stage' = pageSize ∧ len f' = maxBytes ∧
    ring r f' = copy_at (ring r f) k (chunks_image (drop (Z.to_nat off) d)).
Proof.
  pose proof page_pos. pose proof max_pos.
  revert i off stage k f. induction fuel as [|fuel IH];
    intros i off stage k f Hfuel Hoff Hst Hl Hr Hra Hk Hka Hfit; cbn [write_chunks].
  { rewrite drop_ge, chunks_image_nil, copy_at_nil by lia.
    rewrite chunks_len_small, Z.add_0_r by lia. by exists stage, f. }
  destruct (Z.ltb_spec off (len d)).
  2:{ rewrite drop_ge, chunks_image_nil, copy_at_nil by lia.
      rewrite chunks_len_small, Z.add_0_r by lia. by exists stage, f. }
  destruct (chunks_image_step (drop (Z.to_nat off) d) stage) as (Hst' & Hn & Himg); [len_lia|done|].
  set (n := copied _ _ _) in *. set (stage1 := fill_from _ _ _) in *.
  pose proof (chunks_len_step (len d - off)) as Hstep.
  assert (0 <= chunks_len (len d - off - pageSize)) as Hnn.
  { destruct (decide (len d - off <= pageSize)).
    - by rewrite chunks_len_small by lia.
    - pose proof (chunks_len_spec (len d - off - pageSize)). lia. }
  destruct (ring_write_page r f k stage1) as [Hring Hl1]; try done; [lia|].
  rewrite Zplus_mod_idemp_l, <- Z.add_assoc.
  rewrite length_drop in Hn.
  assert (chunks_len (len d - (off + n)) = chunks_len (len d - off - pageSize)) as Hcl.
  { destruct (decide (len d - off <= pageSize)).
    - rewrite !chunks_len_small; lia.
    - f_equal. lia. }
  destruct (IH (S i) (off + n) stage1 (k + pageSize) (copy_at f ((r + k) mod maxBytes) stage1))
    as (stage' & f' & E & Hs' & Hl' & Hr'); try done; try lia.
  { by apply Z.divide_add_r; [|apply Z.divide_refl]. }
  exists stage', f'. rewrite E.
  replace (r + k + chunks_len (len d - off)) with (r + (k + pageSize) + chunks_len (len d - (off + n))) by lia.
  split; [done|]. split; [done|]. split; [done|].
  rewrite Hr', Hring, Himg, drop_drop.
  pose proof (length_ring r f).
  replace (Z.to_nat off + Z.to_nat n)%nat with (Z.to_nat (off + n)) by lia.
  apply copy_at_copy_at; [lia|lia|].
  rewrite chunks_image_len, length_drop.
  replace (Z.of_nat (length d - _)) with (len d - (off + n)) by lia. lia.
Qed.

(** *** The two commits extend the ring by a unit *)

Lemma must_wait_false r f used us need :
  ring_holds r f used us → 0 <= need <= maxBytes → must_wait used need = false →
  used + need <= maxBytes ∧ i64 (used + need) = used + need.
Proof.
  intros Hrh Hneed. unfold must_wait. pose proof (rh_nonneg _ _ _ _ Hrh).
  pose proof (rh_le _ _ _ _ Hrh). pose proof cfg_max.
  rewrite i64_small by (unfold is_i64, min_i64 in *; lia). intros Hw.
  apply Z.ltb_ge in Hw. lia.
Qed.

Lemma page_unit_ok rs w : stage_ok rs w → unit_ok (UPage (fresh_slot <$> rs)).
Proof.
  intros [_ Hn Hfit _ Hv]. split; simpl; [|lia]. by apply Forall_fmap.
Qed.

Lemma flush_commit_spec k rs w r f used us :
  stage_ok rs w → w_stage w = page_image (fresh_slot <$> rs) →
  ring_holds r f used us → w_head w = (r + used) mod maxBytes → must_wait used pageSize = false →
  ∃ w' f', flush_commit true k w f used = (w', f', used + pageSize) ∧
    ring_holds r f' (used + pageSize) (us ++ [UPage (fresh_slot <$> rs)]) ∧
    w_head w' = (r + (used + pageSize)) mod maxBytes ∧
    stage_ok [] w' ∧ w_pc w' = WWake (Some k) ∧ w_drain w' = w_drain w.
Proof.
  intros Hst Hpage Hrh Hhead Hw. pose proof page_pos. pose proof max_pos.
  pose proof two_pages.
  assert (0 <= pageSize <= maxBytes) as Hneed by lia.
  destruct (must_wait_false _ _ _ _ _ Hrh Hneed Hw) as [Hfit Hi].
  pose proof (page_unit_ok _ _ Hst) as Hu.
  destruct (ring_write_page r f used (w_stage w)) as [Hring Hl'];
    try apply Hrh; try done; [by eapply rh_nonneg| |apply Hst|].
  { rewrite (rh_used _ _ _ _ Hrh). by eexists. }
  eexists _, _. unfold flush_commit. rewrite Hi. split; [done|]. simpl.
  rewrite Hhead. split; [|split; [by rewrite Zplus_mod_idemp_l, Z.add_assoc|]].
  - replace pageSize with (unit_chunks (UPage (fresh_slot <$> rs)) * pageSize) at 1 by (simpl; lia).
    eapply ring_push; try done; [simpl; lia|]. by rewrite Hring, Hpage.
  - split; [|done]. destruct Hst as [Hl ? ? _ _].
    split; simpl; [done|done|lia|by eexists|constructor].
Qed.

Lemma large_commit_spec req rs w r f used us :
  stage_ok rs w → w_stageN w = 0 → valid_req req → pageSize < recSize req →
  ring_holds r f used us → w_head w = (r + used) mod maxBytes →
  numChunks (len (data req)) * pageSize <= maxBytes →
  let need := numChunks (len (data req)) * pageSize in
  must_wait used need = false →
  ∃ w' f', large_commit (λ _, true) req w f used = (w', f', used + need) ∧
    ring_holds r f' (used + need) (us ++ [ULarge (fresh_slot req)]) ∧
    w_head w' = (r + (used + need)) mod maxBytes ∧
    stage_ok [] w' ∧ w_pc w' = WWake None ∧ w_drain w' = w_drain w.
Proof.
  intros Hst Hn0 Hv Hbig Hrh Hhead Hle need Hw. pose proof page_pos. pose proof max_pos.
  assert (0 <= len (data req)) as Hd0 by lia. pose proof (numChunks_spec _ Hd0) as Hnc.
  assert (0 <= need <= maxBytes) as Hneed by (subst need; unfold recSize, hdrSize in *; lia).
  destruct (must_wait_false _ _ _ _ need Hrh Hneed Hw) as [Hfit Hi].
  pose proof (rh_nonneg _ _ _ _ Hrh) as Hnn. pose proof (stage_len _ _ Hst) as Hsl.
  destruct (first_chunk_image req (w_stage w) Hv Hsl Hbig) as [Hcop Hfc].
  set (n := pageSize - hdrSize) in *. set (c1 := first_chunk req (w_stage w)) in *.
  assert (len (data req) = recSize req - hdrSize) as Hd by (unfold recSize; lia).
  pose proof cfg_page as Hps.
  assert (0 < n <= len (data req)) as Hnb by (subst n; lia).
  assert (len c1 = pageSize) as Hc1.
  { rewrite Hfc, length_app, length_header by apply Hv. unfold hdrSize in *. len_lia. }
  assert (copied c1 hdrSize (data req) = n) as Hcop1 by (unfold copied in *; lia).
  assert (chunks_len (len (data req) - n) = need - pageSize) as Hcl.
  { subst need n. unfold chunks_len, numChunks.
    replace (hdrSize + len (data req) + pageSize - 1)
      with ((len (data req) - (pageSize - hdrSize) + pageSize - 1) + 1 * pageSize) by lia.
    rewrite Z.div_add by lia. lia. }
  destruct (ring_write_page r f used c1) as [Hring Hl'];
    try apply Hrh; try done; [..|lia|].
  { rewrite (rh_used _ _ _ _ Hrh). by eexists. }
  destruct (write_chunks_spec (length (data req)) 1 (data req) n c1 r (used + pageSize)
    (copy_at f ((r + used) mod maxBytes) c1)) as (st' & f' & E & Hst' & Hlf & Hrf);
    try apply Hrh; try done; try lia.
  { apply Z.divide_add_r; [|apply Z.divide_refl]. rewrite (rh_used _ _ _ _ Hrh). by eexists. }
  unfold large_commit. fold c1. cbn [w_stage set_stage w_head set_head].
  rewrite Hhead, Zplus_mod_idemp_l, <- Z.add_assoc, Hcop1, E.
  fold need. eexists _, f'. rewrite Hi. split; [done|].
  assert (unit_ok (ULarge (fresh_slot req))) as Hu.
  { split; simpl; [by constructor|]. done. }
  split; [|split; [simpl; f_equal; lia|split; [|done]]].
  - eapply (ring_push r f f' used us (ULarge (fresh_slot req))); try done.
    rewrite Hrf, Hring, copy_at_copy_at; [|done|lia|].
    + f_equal. rewrite Hfc, <- app_assoc. unfold chunks_image. rewrite app_assoc.
      rewrite app_assoc, <- (app_assoc (header _ _ _)), take_drop. simpl. unfold large_image, slot_image.
      simpl. do 2 f_equal. rewrite length_drop. unfold slot_size. simpl.
      replace (Z.of_nat (length (data req) - Z.to_nat n)) with (len (data req) - n) by lia. lia.
    + rewrite chunks_image_len, length_drop, length_ring, (rh_len _ _ _ _ Hrh).
      replace (Z.of_nat (length (data req) - Z.to_nat n)) with (len (data req) - n) by lia. lia.
  - split; simpl; [done|done|lia|by eexists|constructor].
Qed.
End writer_spec.
