(* ===== verification/Sweeper.v ===== *)
(** * The sweeper goroutine of the span buffer

    [processPage] and [runSweeper]
    (processor/retroactivesampling/internal/buffer/buffer.go). [page_iter] is one
    iteration of the loop of [processPage]; it looks at the interest set and at
    the clock through a [view], and successive iterations may see different
    views, since [AddInterest] runs between them. *)

From S2P Require Import Prelude Bytes Format Ring Interest.

(** What one iteration sees under the read lock, and of the clock. *)
Record view := View { v_now : Time; v_interest : InterestSet }.

(** The calls the sweeper makes: [b.onMatch(tid, payload)], [b.evictObs(age)]. *)
Inductive event :=
| EMatch (tid : TraceID) (payload : bytes)
| EEvict (age : Duration).

#[global] Instance event_eq_dec : EqDecision event.
Proof. solve_decision. Defined.

(** The local variables of [processPage]. *)
Record scan := MkScan {
  sc_scratch : bytes;
  sc_pos : Z;
  sc_full : bool;              (* fullyConsumed *)
  sc_chunks : Z;               (* chunksConsumed *)
  sc_minRem : Duration;        (* minRemaining *)
  sc_wb : bool;                (* needsWriteback *)
  sc_events : list event;      (* the callbacks so far *)
}.

Definition scan_start (scratch : bytes) : scan := MkScan scratch 0 true 1 0 false [].

(** A record was handed to a callback: the identifier in the page is
    overwritten with the tombstone. *)
Definition scan_kill (ev : event) (size : Z) (s : scan) : scan :=
  MkScan (copy_at (sc_scratch s) (sc_pos s) tombstoneID) (sc_pos s + size)
    (sc_full s) (sc_chunks s) (sc_minRem s) true (sc_events s ++ [ev]).

Definition min_remaining (minRem remaining : Duration) : Duration :=
  if (minRem =? 0) || (remaining <? minRem) then remaining else minRem.

(** A record is left pending. *)
Definition scan_keep (remaining : Duration) (size : Z) (s : scan) : scan :=
  MkScan (sc_scratch s) (sc_pos s + size) false (sc_chunks s)
    (min_remaining (sc_minRem s) remaining) (sc_wb s) (sc_events s).

Definition scan_skip (size : Z) (s : scan) : scan :=
  MkScan (sc_scratch s) (sc_pos s + size) (sc_full s) (sc_chunks s)
    (sc_minRem s) (sc_wb s) (sc_events s).

Definition scan_chunks (n : Z) (s : scan) : scan :=
  MkScan (sc_scratch s) (sc_pos s) (sc_full s) n (sc_minRem s) (sc_wb s) (sc_events s).

Definition scan_wait (s : scan) : scan :=
  MkScan (sc_scratch s) (sc_pos s) false (sc_chunks s) (sc_minRem s) (sc_wb s) (sc_events s).

Section sweeper.
Context `{BufCfg}.

(** [used > b.maxBytes*3/4 || closing] *)
Definition pressure (used : Z) (closing : bool) : bool :=
  (Z.quot (i64 (maxBytes * 3)) 4 <? used) || closing.

(** The loop over the continuation chunks; the errors of [ReadAt] are
    ignored. *)
Fixpoint read_chunks (n : nat) (file : bytes) (rHead i dataLen payloadOff : Z) (payload : bytes) : bytes :=
  match n with
  | O => payload
  | S n =>
      let chunkOff := (rHead + i * pageSize) mod maxBytes in
      let remaining := Z.min (dataLen - payloadOff) pageSize in
      read_chunks n file rHead (i + 1) dataLen (payloadOff + remaining)
        (copy_at payload payloadOff (slice file chunkOff (chunkOff + remaining)))
  end.

Definition read_payload (file : bytes) (rHead : Z) (scratch : bytes) (dataLen : Z) : bytes :=
  let payload := copy_at (zeroes dataLen) 0 (slice scratch hdrSize pageSize) in
  read_chunks (Z.to_nat (numChunks dataLen - 1)) file rHead 1 dataLen (pageSize - hdrSize) payload.

(** One iteration of the loop of [processPage]; the boolean is false when it
    breaks out of the loop. [press] is the loop-invariant [pressure]. *)
Definition page_iter (v : view) (used : Z) (press : bool) (file : bytes) (rHead : Z) (s : scan)
    : scan * bool :=
  let scratch := sc_scratch s in
  let pos := sc_pos s in
  let tid := slice scratch pos (pos + 16) in
  if decide (tid = zero_tid) then (s, false) else
  let dataLen := Uint32 (slice scratch (pos + 24) (pos + 28)) in
  let recSize := hdrSize + dataLen in
  let insertedAt := i64 (Uint64 (slice scratch (pos + 16) (pos + 24))) in
  let interesting := hasInterestForSpanRLocked decisionWait tid insertedAt (v_interest v) in
  let age := time_sub (v_now v) insertedAt in
  if (pos =? 0) && (pageSize <? recSize) then
    let nc := numChunks dataLen in
    if decide (tid = tombstoneID) then (scan_chunks nc s, false) else
    if used <? nc * pageSize then (scan_wait s, false) else
    if interesting || (decisionWait <=? age) || press then
      let payload := read_payload file rHead scratch dataLen in
      let ev := if interesting then EMatch tid payload else EEvict age in
      (scan_chunks nc (scan_kill ev 0 s), false)
    else (scan_keep (i64 (decisionWait - age)) 0 s, false)
  else
    if pageSize <? pos + recSize then (s, false) else
    if decide (tid = tombstoneID) then (scan_skip recSize s, true) else
    if interesting then
      (scan_kill (EMatch tid (slice scratch (pos + hdrSize) (pos + recSize))) recSize s, true)
    else if (decisionWait <=? age) || press then (scan_kill (EEvict age) recSize s, true)
    else (scan_keep (i64 (decisionWait - age)) recSize s, true).

(** The loop; iteration [i] sees [views i]. *)
Fixpoint page_loop (fuel : nat) (views : nat → view) (i : nat) (used : Z) (press : bool)
    (file : bytes) (rHead : Z) (s : scan) : scan :=
  match fuel with
  | O => s
  | S fuel =>
      if sc_pos s + hdrSize <=? pageSize then
        let '(s, again) := page_iter (views i) used press file rHead s in
        if again then page_loop fuel views (S i) used press file rHead s else s
      else s
  end.

(** [processPage]: the scan and the file after the write back. Every
    iteration but the last advances by a header at least, so that [pageSize]
    iterations are enough. *)
Definition processPage (views : nat → view) (file : bytes) (rHead used : Z) (closing : bool)
    (scratch : bytes) : scan * bytes :=
  let s := page_loop (Z.to_nat pageSize) views 0 used (pressure used closing) file rHead
             (scan_start scratch) in
  (s, if sc_wb s then copy_at file rHead (sc_scratch s) else file).

(** ** What the sweeper decides for a record *)

Inductive verdict :=
| VSkip                        (* processed before *)
| VMatch                       (* delivered *)
| VEvict (age : Duration)      (* dropped *)
| VKeep (remaining : Duration) (* left in the page *).

Definition slot_verdict (v : view) (press : bool) (s : slot) : verdict :=
  let r := sl_req s in
  if sl_dead s then VSkip
  else if hasInterestForSpanRLocked decisionWait (traceID r) (insertedAt r) (v_interest v) then VMatch
  else
    let age := time_sub (v_now v) (insertedAt r) in
    if (decisionWait <=? age) || press then VEvict age else VKeep (i64 (decisionWait - age)).

Definition verdict_slot (d : verdict) (s : slot) : slot :=
  match d with VMatch | VEvict _ => kill s | VSkip | VKeep _ => s end.

Definition verdict_event (d : verdict) (s : slot) : option event :=
  match d with
  | VMatch => Some (EMatch (traceID (sl_req s)) (data (sl_req s)))
  | VEvict age => Some (EEvict age)
  | VSkip | VKeep _ => None
  end.

(** The same for the records of a page in order; record [j] sees [views (i+j)]. *)
Fixpoint sweep_slots (views : nat → view) (i : nat) (press : bool) (l : list slot) : list slot :=
  match l with
  | [] => []
  | s :: l => verdict_slot (slot_verdict (views i) press s) s :: sweep_slots views (S i) press l
  end.

Fixpoint sweep_events (views : nat → view) (i : nat) (press : bool) (l : list slot) : list event :=
  match l with
  | [] => []
  | s :: l => option_list (verdict_event (slot_verdict (views i) press s) s)
                ++ sweep_events views (S i) press l
  end.

(** The time until the first of the records that are kept expires, 0 if none is. *)
Fixpoint sweep_min (views : nat → view) (i : nat) (press : bool) (l : list slot) (m : Duration) : Duration :=
  match l with
  | [] => m
  | s :: l => sweep_min views (S i) press l
      (match slot_verdict (views i) press s with VKeep rem => min_remaining m rem | _ => m end)
  end.

Definition all_dead (l : list slot) : bool := forallb sl_dead l.

(** The effect of a verdict on the scan, apart from the bytes. *)
Definition verdict_scan (d : verdict) (size : Z) (scratch : bytes) (ev : option event) (s : scan) : scan :=
  MkScan scratch (sc_pos s + size)
    (match d with VKeep _ => false | _ => sc_full s end)
    (sc_chunks s)
    (match d with VKeep rem => min_remaining (sc_minRem s) rem | _ => sc_minRem s end)
    (match d with VMatch | VEvict _ => true | _ => sc_wb s end)
    (sc_events s ++ option_list ev).
End sweeper.

Section sweeper_spec.
Context {cfg : BufCfg} {Hok : BufCfgOk cfg}.

(** ** One iteration over a record of a page *)

Lemma slot_tid_nonzero s : valid_req (sl_req s) → slot_tid s ≠ zero_tid.
Proof. intros Hv. unfold slot_tid. destruct (sl_dead s); [done|]. apply Hv. Qed.

Lemma slot_tid_dead s : valid_req (sl_req s) → slot_tid s = tombstoneID ↔ sl_dead s = true.
Proof.
  intros Hv. unfold slot_tid. destruct (sl_dead s); [done|].
  split; [|done]. intros E. by destruct (valid_alive _ Hv).
Qed.

Lemma page_iter_slot v used press file rHead s pre post sc :
  valid_req (sl_req s) → sc_scratch sc = pre ++ slot_image s ++ post → sc_pos sc = len pre →
  len pre + slot_size s <= pageSize →
  let d := slot_verdict v press s in
  page_iter v used press file rHead sc =
    (verdict_scan d (slot_size s) (pre ++ slot_image (verdict_slot d s) ++ post) (verdict_event d s) sc, true).
Proof.
  intros Hv Hsc Hpos Hfit d. unfold page_iter. rewrite Hsc.
  pose proof (wf_slot_tid s (valid_tid _ Hv)) as Ht. pose proof (valid_len _ Hv).
  assert (pre ++ slot_image s ++ post = pre ++ header (slot_tid s) (insertedAt (sl_req s))
    (len (data (sl_req s))) ++ data (sl_req s) ++ post) as E
    by (unfold slot_image; by rewrite <- !app_assoc).
  rewrite E, (read_tid _ _ _ _ _ _ Ht Hpos), (read_len _ _ _ _ _ _ Ht Hpos) by lia.
  rewrite (read_time _ _ _ _ _ _ Ht Hpos), <- E by apply Hv.
  rewrite decide_False by (by apply slot_tid_nonzero).
  change (hdrSize + len (data (sl_req s))) with (slot_size s).
  replace ((sc_pos sc =? 0) && (pageSize <? slot_size s)) with false
    by (symmetry; apply andb_false_iff; right; apply Z.ltb_ge; lia).
  replace (pageSize <? sc_pos sc + slot_size s) with false by (symmetry; apply Z.ltb_ge; lia).
  rewrite (read_data pre post s _ Hv Hpos).
  subst d. unfold slot_verdict. destruct (sl_dead s) eqn:Hd.
  - rewrite decide_True by (by apply slot_tid_dead).
    unfold scan_skip, verdict_scan. simpl. rewrite Hsc, app_nil_r. done.
  - assert (slot_tid s = traceID (sl_req s)) as -> by (unfold slot_tid; by rewrite Hd).
    rewrite decide_False by apply Hv.
    destruct (hasInterestForSpanRLocked _ _ _ _) eqn:Hi.
    + unfold scan_kill, verdict_scan. simpl. rewrite Hsc.
      by rewrite (kill_slot pre post s _ Hv Hpos).
    + destruct ((decisionWait <=? _) || press) eqn:Ha.
      * unfold scan_kill, verdict_scan. simpl. rewrite Hsc.
        by rewrite (kill_slot pre post s _ Hv Hpos).
      * unfold scan_keep, verdict_scan. simpl. by rewrite Hsc, app_nil_r.
Qed.

(** The loop ends where the identifier would be zero, as it is behind the last
    record of a page. *)
Lemma page_iter_zero v used press file rHead pre t sc :
  sc_scratch sc = pre ++ t → sc_pos sc = len pre → take 16 t = zero_tid →
  page_iter v used press file rHead sc = (sc, false).
Proof.
  intros Hsc Hpos Ht. unfold page_iter. rewrite decide_True; [done|].
  rewrite Hsc, Hpos, <- Ht. unfold slice. rewrite Nat2Z.id, drop_app_length. f_equal. lia.
Qed.

Lemma take_zeroes n : 16 <= n → take 16 (zeroes n) = zero_tid.
Proof.
  intros Hn. unfold zeroes. rewrite take_replicate. unfold zero_tid. f_equal. lia.
Qed.

Lemma page_iter_end v used press file rHead pre sc :
  sc_scratch sc = pre ++ zeroes (pageSize - len pre) → sc_pos sc = len pre →
  len pre + hdrSize <= pageSize →
  page_iter v used press file rHead sc = (sc, false).
Proof.
  intros Hsc Hpos Hfit. eapply page_iter_zero; [done..|]. apply take_zeroes. unfold hdrSize in *. lia.
Qed.

(** ** The whole loop over a page of small records *)

Lemma verdict_slot_req d s : sl_req (verdict_slot d s) = sl_req s.
Proof. by destruct d. Qed.

Lemma verdict_slot_size d s : slot_size (verdict_slot d s) = slot_size s.
Proof. by destruct d. Qed.

Lemma verdict_slot_dead v press s :
  sl_dead (verdict_slot (slot_verdict v press s) s) =
    match slot_verdict v press s with VKeep _ => false | _ => true end.
Proof.
  unfold slot_verdict. destruct (sl_dead s) eqn:Hd; [done|].
  destruct (hasInterestForSpanRLocked _ _ _ _); [done|].
  by destruct ((decisionWait <=? _) || press).
Qed.

Lemma slots_image_len l :
  Forall (λ s, valid_req (sl_req s)) l → len (slots_image l) = foldr Z.add 0 (slot_size <$> l).
Proof.
  induction 1 as [|s l Hs Hl IH]; [done|].
  rewrite slots_image_cons, length_app. pose proof (length_slot_image s (valid_tid _ Hs)).
  cbn [fmap list_fmap foldr]. lia.
Qed.

Lemma sweep_slots_valid views i press l :
  Forall (λ s, valid_req (sl_req s)) l → Forall (λ s, valid_req (sl_req s)) (sweep_slots views i press l).
Proof.
  intros Hl. revert i. induction Hl as [|s l Hs Hl IH]; intros i; constructor; [|done].
  by rewrite verdict_slot_req.
Qed.

Lemma sweep_slots_image_len views i press l :
  Forall (λ s, valid_req (sl_req s)) l →
  len (slots_image (sweep_slots views i press l)) = len (slots_image l).
Proof.
  intros Hl. rewrite !slots_image_len by (by try apply sweep_slots_valid). clear Hl.
  revert i. induction l as [|s l IH]; intros i; [done|].
  cbn [sweep_slots fmap list_fmap foldr]. by rewrite verdict_slot_size, IH.
Qed.

Lemma slots_image_length_bound l :
  Forall (λ s, valid_req (sl_req s)) l → hdrSize * len l <= len (slots_image l).
Proof.
  intros Hl. rewrite slots_image_len by done. clear Hl. induction l as [|s l IH]; [done|].
  cbn [length foldr fmap list_fmap]. pose proof (slot_size_hdr s). lia.
Qed.

Lemma page_loop_end fuel views i used press file rHead pre t sc :
  sc_scratch sc = pre ++ t → sc_pos sc = len pre →
  (len pre + hdrSize <= pageSize → take 16 t = zero_tid) →
  page_loop fuel views i used press file rHead sc = sc.
Proof.
  intros Hsc Hpos Ht. destruct fuel as [|fuel]; [done|]. simpl.
  destruct (Z.leb_spec (sc_pos sc + hdrSize) pageSize); [|done].
  rewrite (page_iter_zero _ _ _ _ _ pre t); [done..|]. apply Ht. lia.
Qed.

(** The loop over the records [l], up to the first place [t] where it ends. *)
Lemma page_loop_tail fuel views i used press file rHead pre l t sc :
  Forall (λ s, valid_req (sl_req s)) l →
  sc_scratch sc = pre ++ slots_image l ++ t →
  sc_pos sc = len pre → len pre + len (slots_image l) <= pageSize → (length l < fuel)%nat →
  (len pre + len (slots_image l) + hdrSize <= pageSize → take 16 t = zero_tid) →
  page_loop fuel views i used press file rHead sc =
    MkScan (pre ++ slots_image (sweep_slots views i press l) ++ t)
      (len pre + len (slots_image l))
      (sc_full sc && all_dead (sweep_slots views i press l)) (sc_chunks sc)
      (sweep_min views i press l (sc_minRem sc))
      (sc_wb sc || negb (bool_decide (sweep_events views i press l = [])))
      (sc_events sc ++ sweep_events views i press l).
Proof.
  intros Hl. revert fuel i pre sc. induction Hl as [|s l Hs Hl IH]; intros fuel i pre sc Hsc Hpos Hfit Hfuel Ht.
  { rewrite (page_loop_end _ _ _ _ _ _ _ pre t).
    - destruct sc; simpl in *. rewrite andb_true_r, orb_false_r, app_nil_r.
      f_equal; [done|]. lia.
    - done.
    - done.
    - intros ?. apply Ht. simpl. lia. }
  destruct fuel as [|fuel]; [simpl in *; lia|].
  pose proof (length_slot_image s (valid_tid _ Hs)) as Hlen. pose proof (slot_size_hdr s).
  rewrite slots_image_cons, <- app_assoc in Hsc. rewrite slots_image_cons, len_app in *.
  cbn [page_loop]. destruct (Z.leb_spec (sc_pos sc + hdrSize) pageSize); [|lia].
  rewrite (page_iter_slot _ _ _ _ _ s _ _ _ Hs Hsc Hpos) by lia.
  set (d := slot_verdict (views i) press s).
  assert (valid_req (sl_req (verdict_slot d s))) as Hs' by (by rewrite verdict_slot_req).
  pose proof (length_slot_image _ (valid_tid _ Hs')) as Hlen'. rewrite verdict_slot_size in Hlen'.
  assert (len (pre ++ slot_image (verdict_slot d s)) = len pre + slot_size s) as Hpre
    by (rewrite len_app, Hlen'; lia).
  rewrite (IH fuel (S i) (pre ++ slot_image (verdict_slot d s))); simpl; rewrite ?Hpre.
  - assert (sl_dead (verdict_slot d s) = match d with VKeep _ => false | _ => true end) as Hdd
      by apply verdict_slot_dead.
    f_equal.
    + rewrite <- !app_assoc. fold d. rewrite slots_image_cons. by rewrite <- app_assoc.
    + lia.
    + fold d. rewrite Hdd. destruct d; simpl; by rewrite ?andb_false_r, ?andb_true_r.
    + fold d. destruct d; simpl; try done; by rewrite orb_true_r.
    + fold d. by rewrite <- app_assoc.
  - by rewrite <- app_assoc.
  - lia.
  - lia.
  - simpl in Hfuel. lia.
  - intros ?. apply Ht. lia.
Qed.

Lemma page_loop_slots fuel views i used press file rHead pre l sc :
  Forall (λ s, valid_req (sl_req s)) l →
  sc_scratch sc = pre ++ slots_image l ++ zeroes (pageSize - len pre - len (slots_image l)) →
  sc_pos sc = len pre → len pre + len (slots_image l) <= pageSize → (length l < fuel)%nat →
  page_loop fuel views i used press file rHead sc =
    MkScan (pre ++ slots_image (sweep_slots views i press l) ++ zeroes (pageSize - len pre - len (slots_image l)))
      (len pre + len (slots_image l))
      (sc_full sc && all_dead (sweep_slots views i press l)) (sc_chunks sc)
      (sweep_min views i press l (sc_minRem sc))
      (sc_wb sc || negb (bool_decide (sweep_events views i press l = [])))
      (sc_events sc ++ sweep_events views i press l).
Proof.
  intros Hl Hsc Hpos Hfit Hfuel. apply page_loop_tail; try done.
  intros ?. apply take_zeroes. unfold hdrSize in *. lia.
Qed.

(** ** Large records *)

Lemma read_chunks_spec n f r i d h pad rest off :
  len f = maxBytes → 0 <= r < maxBytes → (pageSize | r) →
  ring r f = h ++ d ++ pad ++ rest → len h = hdrSize →
  numChunks (len d) * pageSize <= maxBytes →
  1 <= i → i + Z.of_nat n = numChunks (len d) → off = Z.min (i * pageSize - hdrSize) (len d) →
  read_chunks n f r i (len d) off (take (Z.to_nat off) d ++ zeroes (len d - off)) = d.
Proof.
  intros Hl Hr Hra Hring Hh Hmax. pose proof page_pos. pose proof cfg_page as Hps.
  assert (0 <= len d) as Hd0 by lia. pose proof (numChunks_spec _ Hd0) as Hnc.
  revert i off. induction n as [|n IH]; intros i off Hi Hin Hoff; cbn [read_chunks].
  { assert (off = len d) as -> by (subst off; replace i with (numChunks (len d)) by lia; lia).
    rewrite Z.sub_diag, app_nil_r. apply take_ge. lia. }
  assert ((i + 1) * pageSize <= numChunks (len d) * pageSize) as Hi1 by nia.
  assert (i * pageSize <= (numChunks (len d) - 1) * pageSize) as Hi2 by nia.
  assert (1 * pageSize <= i * pageSize) as Hi3 by nia.
  assert (off = i * pageSize - hdrSize) as Hoff' by lia.
  remember (Z.min (len d - off) pageSize) as rem eqn:Hrem.
  assert (slice f ((r + i * pageSize) mod maxBytes) ((r + i * pageSize) mod maxBytes + rem)
    = slice d off (off + rem)) as Hread.
  { pose proof max_pos. destruct (aligned_fit pageSize maxBytes (r + i * pageSize)) as (? & ? & ?); try done.
    { apply max_aligned. } { apply Z.divide_add_r; [done|]. by exists i. }
    rewrite <- Hl. rewrite ring_slice; rewrite ?Hl; try lia.
    rewrite Hring. apply slice_shift; lia. }
  assert (len (slice d off (off + rem)) = rem) as Hsl by (rewrite length_slice; lia).
  rewrite Hread, copy_at_prefix by len_lia.
  rewrite app_assoc, take_slice by lia.
  etransitivity; [|apply (IH (i + 1) (off + rem)); lia].
  do 2 f_equal. unfold zeroes. rewrite drop_replicate. f_equal. lia.
Qed.

Lemma read_payload_spec r f used s us :
  ring_holds r f used (ULarge s :: us) →
  read_payload f r (slice f r (r + pageSize)) (len (data (sl_req s))) = data (sl_req s).
Proof.
  intros Hrh. set (d := data (sl_req s)). pose proof page_pos. pose proof cfg_page as Hps.
  pose proof (rh_ok _ _ _ _ Hrh) as Hu. apply Forall_cons in Hu as [[Hv Hbig] Hus].
  simpl in Hv. rewrite Forall_singleton in Hv.
  assert (0 <= len d) as Hd0 by lia. pose proof (numChunks_spec _ Hd0) as Hnc.
  pose proof (numChunks_pos _ Hd0) as Hnc1.
  assert (numChunks (len d) * pageSize <= maxBytes) as Hmax.
  { pose proof (rh_le _ _ _ _ Hrh). pose proof (rh_used _ _ _ _ Hrh) as E.
    rewrite units_chunks_cons in E. pose proof (units_chunks_nonneg _ Hus).
    cbn [unit_chunks] in E. fold d in E. nia. }
  assert (recSize (sl_req s) = hdrSize + len d) as Hrs by done.
  unfold slot_size in Hbig.
  destruct (rh_view _ _ _ _ Hrh) as [rest Hring].
  rewrite units_image_cons, <- app_assoc in Hring. cbn [unit_image] in Hring.
  unfold large_image, slot_image in Hring. fold d in Hring. rewrite <- !app_assoc in Hring.
  set (h := header _ _ _) in Hring.
  assert (len h = hdrSize) as Hh by (subst h; by rewrite length_header by (apply wf_slot_tid, Hv)).
  unfold read_payload. rewrite (ring_head_page _ _ _ _ _ Hrh).
  assert (slice (take (Z.to_nat pageSize) (unit_image (ULarge s))) hdrSize pageSize =
    take (Z.to_nat (pageSize - hdrSize)) d) as E.
  { cbn [unit_image]. unfold large_image, slot_image. fold d h. rewrite <- !app_assoc.
    rewrite take_app_ge by lia.
    replace (Z.to_nat pageSize - length h)%nat with (Z.to_nat (pageSize - hdrSize)) by lia.
    rewrite (take_app_le d) by lia.
    rewrite <- (app_nil_r (h ++ _)), <- app_assoc.
    apply slice_app; [lia|]. rewrite length_take. lia. }
  rewrite E.
  rewrite (copy_at_prefix [] (zeroes (len d))) || rewrite <- (app_nil_l (zeroes (len d))), copy_at_prefix;
    [|done|len_lia].
  simpl. replace (drop _ (zeroes (len d))) with (zeroes (len d - (pageSize - hdrSize))).
  - eapply read_chunks_spec; try apply Hrh; try done; lia.
  - unfold zeroes. rewrite drop_replicate. f_equal. rewrite length_take. lia.
Qed.

(** The page at the head begins with the header of the large record there. *)
Lemma large_head_page r f used s us :
  ring_holds r f used (ULarge s :: us) →
  ∃ post, slice f r (r + pageSize) = [] ++ header (slot_tid s) (insertedAt (sl_req s)) (len (data (sl_req s))) ++ post.
Proof.
  intros Hrh. pose proof (rh_ok _ _ _ _ Hrh) as [[Hv _] _]%Forall_cons. simpl in Hv. rewrite Forall_singleton in Hv.
  pose proof cfg_page. rewrite (ring_head_page _ _ _ _ _ Hrh). cbn [unit_image]. unfold large_image, slot_image.
  rewrite <- !app_assoc. rewrite take_app_ge; [by eexists|].
  rewrite length_header by (apply wf_slot_tid, Hv). unfold hdrSize in *. lia.
Qed.

Lemma page_iter_large v used used0 press r f s us :
  ring_holds r f used (ULarge s :: us) → sl_dead s = false →
  unit_chunks (ULarge s) * pageSize <= used0 →
  let start := scan_start (slice f r (r + pageSize)) in
  page_iter v used0 press f r start =
    match slot_verdict v press s with
    | VKeep rem => (scan_keep rem 0 start, false)
    | d => (scan_chunks (unit_chunks (ULarge s))
              (scan_kill (default (EEvict 0) (verdict_event d s)) 0 start), false)
    end.
Proof.
  intros Hrh Hd Hused0 start.
  pose proof (rh_ok _ _ _ _ Hrh) as Hu. apply Forall_cons in Hu as [Hus0 Hus].
  pose proof Hus0 as [Hv Hbig]. simpl in Hv. rewrite Forall_singleton in Hv. pose proof page_pos.
  pose proof cfg_page as Hps. pose proof (length_slot_image s (valid_tid _ Hv)) as Hsl.
  pose proof (read_payload_spec _ _ _ _ _ Hrh) as Hpay.
  destruct (large_head_page _ _ _ _ _ Hrh) as [post Hsc].
  pose proof (wf_slot_tid s (valid_tid _ Hv)) as Ht. pose proof (valid_len _ Hv).
  assert (slot_tid s = traceID (sl_req s)) as Htid by (unfold slot_tid; by rewrite Hd).
  set (scr := slice f r (r + pageSize)) in *.
  assert (slice scr 0 (0 + 16) = traceID (sl_req s)) as E1.
  { rewrite <- Htid, Hsc. by apply (read_tid [] post). }
  assert (Uint32 (slice scr (0 + 24) (0 + 28)) = len (data (sl_req s))) as E2.
  { rewrite Hsc. apply (read_len [] post); [done|done|lia]. }
  assert (i64 (Uint64 (slice scr (0 + 16) (0 + 24))) = insertedAt (sl_req s)) as E3.
  { rewrite Hsc. apply (read_time [] post); [done|done|apply Hv]. }
  unfold page_iter. subst start. cbn [sc_scratch sc_pos scan_start].
  rewrite E1, E2, E3, Hpay. rewrite !decide_False by apply Hv.
  change (hdrSize + len (data (sl_req s))) with (slot_size s).
  replace ((0 =? 0) && (pageSize <? slot_size s)) with true
    by (symmetry; apply andb_true_iff; split; [done|apply Z.ltb_lt; lia]).
  replace (used0 <? numChunks (len (data (sl_req s))) * pageSize) with false
    by (symmetry; by apply Z.ltb_ge).
  unfold slot_verdict. rewrite Hd.
  destruct (hasInterestForSpanRLocked _ _ _ _); [done|]. simpl.
  by destruct ((decisionWait <=? _) || press).
Qed.

(** The page written back over a processed large record marks it. *)
Lemma large_kill_image s :
  valid_req (sl_req s) → pageSize < slot_size s →
  let p := copy_at (take (Z.to_nat pageSize) (large_image s)) 0 tombstoneID in
  len p = pageSize ∧ copy_at (large_image s) 0 p = large_image (kill s).
Proof.
  intros Hv Hbig p. pose proof page_pos. pose proof cfg_page as Hps. unfold hdrSize in Hps.
  assert (length (slot_tid s) = 16%nat) as Ht by apply wf_slot_tid, Hv.
  assert (∃ rest, large_image s = slot_tid s ++ rest ∧ large_image (kill s) = tombstoneID ++ rest)
    as (rest & E & E').
  { unfold large_image, slot_image, header. rewrite <- !app_assoc. by eexists. }
  assert (pageSize <= len (large_image s)) as Hl.
  { unfold large_image. rewrite len_app, length_slot_image by apply Hv. lia. }
  rewrite E, len_app, Ht in Hl.
  assert (p = tombstoneID ++ take (Z.to_nat pageSize - 16) rest) as Ep.
  { subst p. rewrite E, take_app_ge, Ht by lia. by rewrite copy_at_0. }
  assert (len tombstoneID = 16) as Htomb by done.
  split; [rewrite Ep, len_app, length_take; lia|].
  set (k := (Z.to_nat pageSize - 16)%nat) in *.
  assert (slot_tid s ++ rest = (slot_tid s ++ take k rest) ++ drop k rest) as E2
    by (by rewrite <- app_assoc, take_drop).
  rewrite Ep, E, E', E2, copy_at_0 by (by rewrite !length_app, Ht).
  by rewrite <- app_assoc, take_drop.
Qed.
End sweeper_spec.
