(* ===== verification/SpanBuffer.v ===== *)
(** * The span buffer: a file-backed ring with a writer and a sweeper goroutine

    [New], [Write], [AddInterest], [HasInterest], [Close] and the composition of
    [runWriter] and [runSweeper] (buffer.go) as a labelled transition system.
    One transition is a code fragment that touches shared state once: a
    [select], an atomic operation on [used] with the file accesses it publishes,
    a send on a channel, one iteration of the loop of [processPage]. The
    transitions of the two goroutines and of the clients interleave freely. *)

From S2P Require Import Prelude Bytes Format Ring Interest Writer Sweeper.

(** ** State *)

(** Where the sweeper is. *)
Inductive spc :=
| SLoop                                        (* the head of the main loop *)
| SEmpty                                       (* the select for used = 0 *)
| SRead                                        (* about to read the page at rHead *)
| SScan (press : bool) (used0 : Z) (sc : scan) (* in the loop of processPage *)
| SBack (sc : scan)                            (* after it *)
| SFreed                                       (* about to send on pageFreed *)
| SWait                                        (* the select after an incomplete page *)
| SExit.                                       (* returned *)

Record sweeper := MkSweeper { s_head : Z; s_closing : bool; s_pc : spc }.

(** [b_wakes] and [b_timers] stand for the goroutines of clients and timers that
    are about to send on [wakeup]. *)
Record SpanBuffer := MkBuf {
  b_file : bytes;
  b_used : Z;   (* atomic *)
  b_writeCh : list writeReq;   (* cap: pageCount *)
  b_wakeup : bool;   (* a channel of capacity 1 *)
  b_pageFreed : bool;   (* a channel of capacity 1 *)
  b_closed : bool;   (* closeCh is closed *)
  b_interest : InterestSet;   (* interestEntries, interestList *)
  b_wakes : nat;   (* AddInterest calls between the unlock and the send on wakeup *)
  b_timers : list Time;   (* deadlines of the pending time.AfterFunc calls *)
  b_now : Time;   (* the clock *)
  b_writer : writer;   (* the goroutine runWriter *)
  b_sweeper : sweeper;   (* the goroutine runSweeper *)
  b_events : list event;   (* callbacks of the finished processPage calls *)
  b_accepted : list writeReq;   (* history: the requests Write returned nil for *)
}.

Definition set_file (x : bytes) (b : SpanBuffer) : SpanBuffer :=
  MkBuf x (b_used b) (b_writeCh b) (b_wakeup b) (b_pageFreed b) (b_closed b) (b_interest b)
    (b_wakes b) (b_timers b) (b_now b) (b_writer b) (b_sweeper b) (b_events b) (b_accepted b).
Definition set_used (x : Z) (b : SpanBuffer) : SpanBuffer :=
  MkBuf (b_file b) x (b_writeCh b) (b_wakeup b) (b_pageFreed b) (b_closed b) (b_interest b)
    (b_wakes b) (b_timers b) (b_now b) (b_writer b) (b_sweeper b) (b_events b) (b_accepted b).
Definition set_writeCh (x : list writeReq) (b : SpanBuffer) : SpanBuffer :=
  MkBuf (b_file b) (b_used b) x (b_wakeup b) (b_pageFreed b) (b_closed b) (b_interest b)
    (b_wakes b) (b_timers b) (b_now b) (b_writer b) (b_sweeper b) (b_events b) (b_accepted b).
Definition set_wakeup (x : bool) (b : SpanBuffer) : SpanBuffer :=
  MkBuf (b_file b) (b_used b) (b_writeCh b) x (b_pageFreed b) (b_closed b) (b_interest b)
    (b_wakes b) (b_timers b) (b_now b) (b_writer b) (b_sweeper b) (b_events b) (b_accepted b).
Definition set_pageFreed (x : bool) (b : SpanBuffer) : SpanBuffer :=
  MkBuf (b_file b) (b_used b) (b_writeCh b) (b_wakeup b) x (b_closed b) (b_interest b)
    (b_wakes b) (b_timers b) (b_now b) (b_writer b) (b_sweeper b) (b_events b) (b_accepted b).
Definition set_closed (x : bool) (b : SpanBuffer) : SpanBuffer :=
  MkBuf (b_file b) (b_used b) (b_writeCh b) (b_wakeup b) (b_pageFreed b) x (b_interest b)
    (b_wakes b) (b_timers b) (b_now b) (b_writer b) (b_sweeper b) (b_events b) (b_accepted b).
Definition set_interest (x : InterestSet) (b : SpanBuffer) : SpanBuffer :=
  MkBuf (b_file b) (b_used b) (b_writeCh b) (b_wakeup b) (b_pageFreed b) (b_closed b) x
    (b_wakes b) (b_timers b) (b_now b) (b_writer b) (b_sweeper b) (b_events b) (b_accepted b).
Definition set_wakes (x : nat) (b : SpanBuffer) : SpanBuffer :=
  MkBuf (b_file b) (b_used b) (b_writeCh b) (b_wakeup b) (b_pageFreed b) (b_closed b)
    (b_interest b) x (b_timers b) (b_now b) (b_writer b) (b_sweeper b) (b_events b) (b_accepted b).
Definition set_timers (x : list Time) (b : SpanBuffer) : SpanBuffer :=
  MkBuf (b_file b) (b_used b) (b_writeCh b) (b_wakeup b) (b_pageFreed b) (b_closed b)
    (b_interest b) (b_wakes b) x (b_now b) (b_writer b) (b_sweeper b) (b_events b) (b_accepted b).
Definition set_now (x : Time) (b : SpanBuffer) : SpanBuffer :=
  MkBuf (b_file b) (b_used b) (b_writeCh b) (b_wakeup b) (b_pageFreed b) (b_closed b)
    (b_interest b) (b_wakes b) (b_timers b) x (b_writer b) (b_sweeper b) (b_events b)
    (b_accepted b).
Definition set_writer (x : writer) (b : SpanBuffer) : SpanBuffer :=
  MkBuf (b_file b) (b_used b) (b_writeCh b) (b_wakeup b) (b_pageFreed b) (b_closed b)
    (b_interest b) (b_wakes b) (b_timers b) (b_now b) x (b_sweeper b) (b_events b) (b_accepted b).
Definition set_sweeper (x : sweeper) (b : SpanBuffer) : SpanBuffer :=
  MkBuf (b_file b) (b_used b) (b_writeCh b) (b_wakeup b) (b_pageFreed b) (b_closed b)
    (b_interest b) (b_wakes b) (b_timers b) (b_now b) (b_writer b) x (b_events b) (b_accepted b).
Definition set_events (x : list event) (b : SpanBuffer) : SpanBuffer :=
  MkBuf (b_file b) (b_used b) (b_writeCh b) (b_wakeup b) (b_pageFreed b) (b_closed b)
    (b_interest b) (b_wakes b) (b_timers b) (b_now b) (b_writer b) (b_sweeper b) x (b_accepted b).
Definition set_accepted (x : list writeReq) (b : SpanBuffer) : SpanBuffer :=
  MkBuf (b_file b) (b_used b) (b_writeCh b) (b_wakeup b) (b_pageFreed b) (b_closed b)
    (b_interest b) (b_wakes b) (b_timers b) (b_now b) (b_writer b) (b_sweeper b) (b_events b) x.

Definition go_sweeper (pc : spc) (b : SpanBuffer) : SpanBuffer :=
  set_sweeper (MkSweeper (s_head (b_sweeper b)) (s_closing (b_sweeper b)) pc) b.

(** The callbacks so far, those of an unfinished [processPage] included. *)
Definition scan_events (pc : spc) : list event :=
  match pc with SScan _ _ sc | SBack sc => sc_events sc | _ => [] end.
Definition all_events (b : SpanBuffer) : list event :=
  b_events b ++ scan_events (s_pc (b_sweeper b)).

(** ** New *)

Inductive newError :=
| ErrDecisionWait (d : Duration)
| ErrMaxBytes (n : Z)
| ErrOpen
| ErrLocked
| ErrLock
| ErrTruncate.

Inductive flockResult := FlockOk | FlockWouldBlock | FlockFailed.

(** What the operating system answers: [os.OpenFile], [syscall.Flock],
    [f.Truncate]; with the last, the [maxBytes] bytes the file then holds. *)
Record newEnv := NewEnv {
  env_open : bool;
  env_flock : flockResult;
  env_truncate : option (Z → bytes);
}.

Definition init_sweeper : sweeper := MkSweeper 0 false SLoop.

Definition init_buffer `{BufCfg} (file : bytes) (now : Time) : SpanBuffer :=
  MkBuf file 0 [] false false false empty_set 0 [] now init_writer init_sweeper [] [].

(** [page] is [os.Getpagesize()]. *)
Definition New (page : Z) (env : newEnv) (maxBytes0 : Z) (dw : Duration) (now : Time)
    : newError + (BufCfg * SpanBuffer) :=
  if dw <=? 0 then inl (ErrDecisionWait dw)
  else
    let max := Z.quot maxBytes0 page * page in
    if max <? 2 * page then inl (ErrMaxBytes max)
    else if negb (env_open env) then inl ErrOpen
    else match env_flock env with
         | FlockWouldBlock => inl ErrLocked
         | FlockFailed => inl ErrLock
         | FlockOk =>
             match env_truncate env with
             | None => inl ErrTruncate
             | Some content =>
                 let cfg := MkBufCfg page max dw in
                 inr (cfg, @init_buffer cfg (content max) now)
             end
         end.

Section buffer.
Context `{BufCfg}.

(** The capacity of [writeCh]. *)
Definition pageCount : Z := maxBytes / pageSize.

(** ** Write: [true] is [nil], [false] is [ErrFull]. *)
Definition Write (req : writeReq) (b : SpanBuffer) : bool * SpanBuffer :=
  if (pageSize <? recSize req) && (maxBytes <? numChunks (len (data req)) * pageSize) then (false, b)
  else if len (b_writeCh b) <? pageCount then
    (true, set_writeCh (b_writeCh b ++ [req]) (set_accepted (b_accepted b ++ [req]) b))
  else (false, b).

(** ** The transitions *)

Inductive label :=
| LWrite (req : writeReq)       (* a client calls Write *)
| LAddInterest (tid : TraceID)  (* AddInterest, up to the unlock *)
| LWakeSend                     (* AddInterest's send on wakeup *)
| LTimer (i : nat)              (* the i-th timer fires: it sends on wakeup *)
| LTime (t : Time)              (* the clock advances to t *)
| LClose                        (* close(closeCh) *)
| LRecv                         (* the writer receives from writeCh *)
| LTick                         (* the writer's ticker *)
| LSeeClose                     (* the main loop of the writer sees closeCh *)
| LDrained                      (* the drain loop finds writeCh empty *)
| LWait                         (* a waiting loop of the writer finds no room and selects *)
| LPageFreed                    (* its select receives from pageFreed *)
| LGiveUp                       (* its select sees closeCh *)
| LCommit                       (* a waiting loop of the writer finds room and ends *)
| LWake                         (* the writer sends on wakeup *)
| LSweep                        (* the sweeper runs *)
| LSweepWakeup                  (* a select of the sweeper receives from wakeup *)
| LSweepDone.                   (* a select of the sweeper sees writerDone *)

Definition writerDone (b : SpanBuffer) : bool :=
  match w_pc (b_writer b) with WExit => true | _ => false end.

(** The waiting loop the writer is in: what it needs. *)
Definition wait_need (w : writer) : option Z :=
  match w_pc w with
  | WFlush _ => Some pageSize
  | WPages req => Some (numChunks (len (data req)) * pageSize)
  | _ => None
  end.

Definition writer_commit (w : writer) (file : bytes) (used : Z) : option (writer * bytes * Z) :=
  match w_pc w with
  | WFlush k => Some (flush_commit true k w file used)
  | WPages req => Some (large_commit (λ _, true) req w file used)
  | _ => None
  end.

Definition writer_give_up (w : writer) : writer :=
  match w_pc w with
  | WFlush k => flush_closed k w
  | _ => set_pc WSelect w
  end.

(** The sweeper after [processPage] returned: the write back, and the new
    head or the timer. *)
Definition sweep_back (sc : scan) (b : SpanBuffer) : SpanBuffer :=
  let sw := b_sweeper b in
  let file := if sc_wb sc then copy_at (b_file b) (s_head sw) (sc_scratch sc) else b_file b in
  let b := set_file file (set_events (b_events b ++ sc_events sc) b) in
  if sc_full sc then
    set_used (i64 (b_used b - sc_chunks sc * pageSize))
      (set_sweeper (MkSweeper ((s_head sw + sc_chunks sc * pageSize) mod maxBytes) (s_closing sw) SFreed) b)
  else
    go_sweeper SWait
      (if 0 <? sc_minRem sc then set_timers (b_now b + sc_minRem sc :: b_timers b) b else b).

(** The steps the sweeper takes by itself. *)
Definition sweep (b : SpanBuffer) : option SpanBuffer :=
  let sw := b_sweeper b in
  match s_pc sw with
  | SLoop =>
      Some (if b_used b =? 0 then go_sweeper (if s_closing sw then SExit else SEmpty) b
            else go_sweeper SRead b)
  | SRead =>
      Some (go_sweeper (SScan (pressure (b_used b) (s_closing sw)) (b_used b)
              (scan_start (slice (b_file b) (s_head sw) (s_head sw + pageSize)))) b)
  | SScan press used0 sc =>
      Some (if sc_pos sc + hdrSize <=? pageSize then
              let '(sc, again) := page_iter (View (b_now b) (b_interest b)) used0 press
                                    (b_file b) (s_head sw) sc in
              go_sweeper (if again then SScan press used0 sc else SBack sc) b
            else go_sweeper (SBack sc) b)
  | SBack sc => Some (sweep_back sc b)
  | SFreed => Some (set_pageFreed true (go_sweeper SLoop b))
  | SEmpty | SWait | SExit => None
  end.

(** What the sweeper does instead of [processPage] when [ReadAt] fails: it skips
    the page. [exec] has no such transition, [io_exec] of BufferFaults.v has. *)
Definition sweep_unreadable (b : SpanBuffer) : option SpanBuffer :=
  let sw := b_sweeper b in
  match s_pc sw with
  | SRead =>
      Some (set_used (i64 (b_used b - pageSize))
              (set_sweeper (MkSweeper ((s_head sw + pageSize) mod maxBytes) (s_closing sw) SFreed) b))
  | _ => None
  end.

Definition sweep_selects (b : SpanBuffer) : bool :=
  match s_pc (b_sweeper b) with SEmpty | SWait => true | _ => false end.

(** [exec l b] is the state after the transition [l], [None] where it is not
    enabled. The clients stop calling [Write] before they call [Close]. *)
Definition exec (l : label) (b : SpanBuffer) : option SpanBuffer :=
  let w := b_writer b in
  match l with
  | LWrite req => if b_closed b then None else Some (snd (Write req b))
  | LAddInterest tid =>
      Some (set_interest (AddInterest decisionWait tid (b_now b) (b_interest b))
              (set_wakes (S (b_wakes b)) b))
  | LWakeSend =>
      match b_wakes b with
      | O => None
      | S n => Some (set_wakeup true (set_wakes n b))
      end
  | LTimer i =>
      match b_timers b !! i with
      | Some d => if d <=? b_now b then Some (set_wakeup true (set_timers (delete i (b_timers b)) b)) else None
      | None => None
      end
  | LTime t => if b_now b <=? t then Some (set_now t b) else None
  | LClose => if b_closed b then None else Some (set_closed true b)
  | LRecv =>
      match w_pc w, b_writeCh b with
      | WSelect, req :: rest => Some (set_writeCh rest (set_writer (handle req w) b))
      | _, _ => None
      end
  | LTick =>
      match w_pc w with
      | WSelect => if w_drain w then None else Some (set_writer (tick w) b)
      | _ => None
      end
  | LSeeClose =>
      match w_pc w with
      | WSelect => if b_closed b && negb (w_drain w) then Some (set_writer (set_drain w) b) else None
      | _ => None
      end
  | LDrained =>
      match w_pc w, b_writeCh b with
      | WSelect, [] => if w_drain w then Some (set_writer (drain_done w) b) else None
      | _, _ => None
      end
  | LWait =>
      match wait_need w with
      | Some need =>
          if negb (w_waiting w) && must_wait (b_used b) need
          then Some (set_writer (set_waiting true w) b) else None
      | None => None
      end
  | LPageFreed =>
      match wait_need w with
      | Some _ =>
          if w_waiting w && b_pageFreed b
          then Some (set_pageFreed false (set_writer (set_waiting false w) b)) else None
      | None => None
      end
  | LGiveUp =>
      match wait_need w with
      | Some _ =>
          if w_waiting w && b_closed b then Some (set_writer (writer_give_up w) b) else None
      | None => None
      end
  | LCommit =>
      match wait_need w, writer_commit w (b_file b) (b_used b) with
      | Some need, Some (w', file, used) =>
          if w_waiting w || must_wait (b_used b) need then None
          else Some (set_writer w' (set_file file (set_used used b)))
      | _, _ => None
      end
  | LWake =>
      match w_pc w with
      | WWake k => Some (set_writer (after_wake k w) (set_wakeup true b))
      | _ => None
      end
  | LSweep => sweep b
  | LSweepWakeup =>
      if sweep_selects b && b_wakeup b then Some (set_wakeup false (go_sweeper SLoop b)) else None
  | LSweepDone =>
      if sweep_selects b && writerDone b then
        Some (set_sweeper (MkSweeper (s_head (b_sweeper b)) true SLoop) b)
      else None
  end.

Definition step (b b' : SpanBuffer) : Prop := ∃ l, exec l b = Some b'.

Fixpoint run (ls : list label) (b : SpanBuffer) : option SpanBuffer :=
  match ls with
  | [] => Some b
  | l :: ls => b' ← exec l b; run ls b'
  end.

(** The states a buffer that [New] returned can get into. *)
Inductive reachable : SpanBuffer → Prop :=
| reach_init file now : len file = maxBytes → reachable (init_buffer file now)
| reach_step b b' : reachable b → step b b' → reachable b'.
End buffer.

Lemma run_reachable `{BufCfg} ls b b' : run ls b = Some b' → reachable b → reachable b'.
Proof.
  revert b. induction ls as [|l ls IH]; intros b Hrun Hb; simpl in Hrun; [by simplify_eq|].
  destruct (exec l b) as [b1|] eqn:He; [|done].
  apply (IH b1 Hrun). eapply reach_step; [done|]. by exists l.
Qed.
