(* ===== verification/BufferInv.v ===== *)
(** * The invariant of the span buffer

    What holds in every reachable state of the transition system of
    [SpanBuffer]: where every accepted request is (queue, writer, stage, ring,
    callbacks), that the file holds the ring's units at the offsets both
    goroutines use, and what the two goroutines' local variables mean. *)

From S2P Require Import Prelude Bytes Format Ring Interest Writer Sweeper SpanBuffer.

(** ** Permutations by counting *)

Lemma perm_count (l k : list writeReq) :
  l ≡ₚ k ↔ ∀ x, count_occ writeReq_eq_dec l x = count_occ writeReq_eq_dec k x.
Proof. apply Permutation_count_occ. Qed.

Lemma count_app (l k : list writeReq) x :
  count_occ writeReq_eq_dec (l ++ k) x = (count_occ writeReq_eq_dec l x + count_occ writeReq_eq_dec k x)%nat.
Proof. apply count_occ_app. Qed.

Lemma count_cons (r : writeReq) l x :
  count_occ writeReq_eq_dec (r :: l) x = (count_occ writeReq_eq_dec [r] x + count_occ writeReq_eq_dec l x)%nat.
Proof. apply (count_app [r] l). Qed.

(** Proves a permutation of sums of lists from the permutation [H]. *)
Ltac perm_solve H :=
  apply perm_count; intros ?x;
  let Hx := fresh in pose proof (proj1 (perm_count _ _) H x) as Hx;
  rewrite ?fmap_app in *; cbn [fmap list_fmap fst snd] in *;
  repeat first [ rewrite count_app in Hx | rewrite count_app ];
  repeat match goal with
  | |- context [count_occ _ (?r :: ?l) ?y] =>
      lazymatch l with [] => fail | _ => rewrite (count_cons r l y) end
  | Hy : context [count_occ _ (?r :: ?l) ?y] |- _ =>
      lazymatch l with [] => fail | _ => rewrite (count_cons r l y) in Hy end
  end;
  cbn [count_occ app] in *; try lia.

Section inv.
Context {cfg : BufCfg} {Hok : BufCfgOk cfg}.

(** ** Where the requests are *)

Definition alive_reqs (l : list slot) : list writeReq :=
  sl_req <$> filter (λ s, sl_dead s = false) l.

Definition units_live (us : list unit_) : list writeReq :=
  mjoin ((λ u, alive_reqs (unit_slots u)) <$> us).

Definition cont_req (k : cont) : list writeReq :=
  match k with KSmall req | KLarge req => [req] | KTick | KFinal => [] end.

Definition inflight (w : writer) : list writeReq :=
  match w_pc w with
  | WFlush k | WWake (Some k) => cont_req k
  | WPages req => [req]
  | _ => []
  end.

(** Requests [Write] lets through: small, or no larger than the file. *)
Definition fits (req : writeReq) : Prop :=
  recSize req <= pageSize ∨ numChunks (len (data req)) * pageSize <= maxBytes.

Definition large_fits (req : writeReq) : Prop :=
  pageSize < recSize req ∧ numChunks (len (data req)) * pageSize <= maxBytes.

Definition cont_ok (k : cont) : Prop :=
  match k with
  | KSmall req => recSize req <= pageSize
  | KLarge req => large_fits req
  | KTick | KFinal => True
  end.

(** ** The writer *)

Definition writer_inv (rs : list writeReq) (w : writer) : Prop :=
  stage_ok rs w ∧
  match w_pc w with
  | WSelect => True
  | WFlush k => w_stage w = page_image (fresh_slot <$> rs) ∧ cont_ok k
  | WPages req => rs = [] ∧ large_fits req
  | WWake (Some k) => rs = [] ∧ cont_ok k
  | WWake None => rs = []
  | WExit => rs = []
  | WPanic => False
  end.

(** ** The sweeper *)

(** In the loop of [processPage]: [done] were processed, [todo] were not. *)
Definition scan_inv (file : bytes) (head : Z) (u : unit_) (cur : list slot) (sc : scan) : Prop :=
  match u with
  | UPage l => ∃ orig done todo,
      l = orig ++ todo ∧ cur = done ++ todo ∧ Forall (λ s, valid_req (sl_req s)) cur ∧
      len (slots_image orig) = len (slots_image done) ∧
      sc_scratch sc = slots_image done ++ slots_image todo
        ++ zeroes (pageSize - len (slots_image done) - len (slots_image todo)) ∧
      sc_pos sc = len (slots_image done) ∧ sc_chunks sc = 1 ∧
      (sc_wb sc = false → done = orig) ∧ sc_full sc = all_dead done
  | ULarge s => cur = [s] ∧ sc = scan_start (slice file head (head + pageSize))
  end.

(** After it. *)
Definition back_inv (u : unit_) (cur : list slot) (sc : scan) : Prop :=
  match u with
  | UPage l =>
      sc_scratch sc = page_image cur ∧ Forall (λ s, valid_req (sl_req s)) cur ∧
      len (slots_image cur) = len (slots_image l) ∧ sc_chunks sc = 1 ∧
      (sc_wb sc = false → cur = l) ∧ sc_full sc = all_dead cur
  | ULarge s =>
      (cur = [s] ∧ sc_full sc = false ∧ sc_wb sc = false) ∨
      (cur = [kill s] ∧ sc_full sc = true ∧ sc_wb sc = true ∧ sc_chunks sc = unit_chunks u ∧
       sc_scratch sc = copy_at (take (Z.to_nat pageSize) (large_image s)) 0 tombstoneID)
  end.

(** [cur] are the records of the first unit as the sweeper has them. *)
Definition sweeper_inv (file : bytes) (sw : sweeper) (used : Z) (us : list unit_) (cur : list slot) : Prop :=
  match s_pc sw with
  | SScan press used0 sc => ∃ u us', us = u :: us' ∧ used0 <= used ∧
      press = pressure used0 (s_closing sw) ∧
      unit_chunks u * pageSize <= used0 ∧ scan_inv file (s_head sw) u cur sc
  | SBack sc => ∃ u us', us = u :: us' ∧ back_inv u cur sc
  | SRead => ∃ u us', us = u :: us' ∧ cur = unit_slots u
  | _ => cur = match us with [] => [] | u :: _ => unit_slots u end
  end.

(** Large records leave the ring when they are marked. *)
Definition unit_alive (u : unit_) : Prop :=
  match u with UPage _ => True | ULarge s => sl_dead s = false end.

(** A callback was made for a record: the payload is that of the record. *)
Definition outcome_ok (o : writeReq * event) : Prop :=
  match o.2 with
  | EMatch tid payload => tid = traceID o.1 ∧ payload = data o.1
  | EEvict _ => True
  end.

(** [us] are the units of the ring, [cur] the first one's records, [rs] the
    records in the stage, [outs] the records the callbacks were made for and
    [lost] those dropped at shutdown. *)
Record inv_at (us : list unit_) (cur : list slot) (rs : list writeReq)
    (outs : list (writeReq * event)) (lost : list writeReq) (b : SpanBuffer) : Prop := {
  inv_ring : ring_holds (s_head (b_sweeper b)) (b_file b) (b_used b) us;
  inv_head : w_head (b_writer b) = (s_head (b_sweeper b) + b_used b) mod maxBytes;
  inv_writer : writer_inv rs (b_writer b);
  inv_sweeper : sweeper_inv (b_file b) (b_sweeper b) (b_used b) us cur;
  inv_alive : Forall unit_alive us;
  inv_events : all_events b = outs.*2;
  inv_outs : Forall outcome_ok outs;
  inv_where : b_accepted b ≡ₚ b_writeCh b ++ inflight (b_writer b) ++ rs ++
                alive_reqs cur ++ units_live (tail us) ++ outs.*1 ++ lost;
  inv_lost : b_closed b = false → lost = [];
  inv_fits : Forall fits (b_accepted b);
  inv_queue : len (b_writeCh b) <= pageCount;
}.

(** The invariant, with the callbacks made and the requests dropped so far. *)
Definition InvO (outs : list (writeReq * event)) (lost : list writeReq) (b : SpanBuffer) : Prop :=
  ∃ us cur rs, inv_at us cur rs outs lost b.

Definition Inv (b : SpanBuffer) : Prop := ∃ outs lost, InvO outs lost b.

(** ** Bookkeeping *)

Lemma alive_app l l' : alive_reqs (l ++ l') = alive_reqs l ++ alive_reqs l'.
Proof. unfold alive_reqs. by rewrite filter_app, fmap_app. Qed.

Lemma alive_one s : alive_reqs [s] = if sl_dead s then [] else [sl_req s].
Proof. unfold alive_reqs. rewrite filter_cons. by destruct (sl_dead s). Qed.

Lemma alive_fresh rs : alive_reqs (fresh_slot <$> rs) = rs.
Proof.
  unfold alive_reqs. induction rs as [|r rs IH]; [done|]. rewrite fmap_cons, filter_cons_True by done.
  rewrite fmap_cons. by f_equal.
Qed.

Lemma alive_all_dead l : all_dead l = true → alive_reqs l = [].
Proof.
  unfold alive_reqs, all_dead. induction l as [|s l IH]; [done|]. simpl. intros [Hs Hl]%andb_true_iff.
  rewrite filter_cons_False by (by rewrite Hs). by apply IH.
Qed.

Lemma units_live_cons u us : units_live (u :: us) = alive_reqs (unit_slots u) ++ units_live us.
Proof. done. Qed.

Lemma units_live_snoc us u : units_live (us ++ [u]) = units_live us ++ alive_reqs (unit_slots u).
Proof. unfold units_live. rewrite fmap_app, join_app. simpl. by rewrite app_nil_r. Qed.

(** The records of the first unit and those of the others. *)
Lemma units_live_split us :
  units_live us = alive_reqs (match us with [] => [] | u :: _ => unit_slots u end) ++ units_live (tail us).
Proof. by destruct us. Qed.

Lemma stage_empty rs w : stage_ok rs w → w_stageN w = 0 → rs = [].
Proof.
  intros [_ Hn _ _ Hv] H0. destruct rs as [|r rs]; [done|].
  apply Forall_cons in Hv as [Hr _]. rewrite Hn, fmap_cons, slots_image_cons, len_app in H0.
  pose proof (length_slot_image (fresh_slot r) (valid_tid _ Hr)). pose proof (slot_size_hdr (fresh_slot r)).
  unfold hdrSize in *. lia.
Qed.

Lemma stage_nil_0 w : stage_ok [] w → w_stageN w = 0.
Proof. by intros [_ -> _ _ _]. Qed.

Lemma stage_ok_pc pc rs w : stage_ok rs w → stage_ok rs (set_pc pc w).
Proof. intros []. by split. Qed.

(** ** The writer's own steps *)

Lemma writer_inv_waiting x rs w : writer_inv rs w → writer_inv rs (set_waiting x w).
Proof. intros [[] Hw]. by split; [constructor|]. Qed.

Lemma large_check_spec req w :
  stage_ok [] w → large_fits req →
  writer_inv [] (large_check req w) ∧ inflight (large_check req w) = [req] ∧
  w_head (large_check req w) = w_head w.
Proof.
  intros Hst [Hbig Hmax]. unfold large_check.
  destruct (Z.ltb_spec maxBytes (numChunks (len (data req)) * pageSize)); [lia|].
  split; [|done]. split; [by apply stage_ok_pc|]. done.
Qed.

Lemma after_flush_spec k closed w :
  stage_ok [] w → cont_ok k → Forall valid_req (cont_req k) →
  let w' := after_flush k closed w in
  w_head w' = w_head w ∧
  ∃ rs', writer_inv rs' w' ∧ inflight w' ++ rs' = if closed then [] else cont_req k.
Proof.
  intros Hst Hk Hv. pose proof (stage_nil_0 _ Hst) as H0.
  assert (∀ pc, pc = WSelect ∨ pc = WExit → writer_inv [] (set_pc pc w)) as Hpc.
  { intros pc Hpc. split; [by apply stage_ok_pc|]. by destruct Hpc as [-> | ->]. }
  destruct k as [req|req| |]; simpl in *.
  - rewrite Forall_singleton in Hv. destruct closed.
    + split; [done|]. exists []. split; [|done]. apply Hpc. by left.
    + destruct (stage_record_spec req [] w) as (Hst' & Hpc' & Hh & _); [done|done|lia|].
      split; [done|]. exists [req]. unfold inflight, writer_inv. by rewrite Hpc'.
  - destruct closed.
    + split; [done|]. exists []. split; [|done]. apply Hpc. by left.
    + destruct (large_check_spec req w Hst Hk) as (Hw & Hi & Hh). split; [done|].
      exists []. by rewrite Hi.
  - split; [done|]. exists []. split; [apply Hpc; by left|]. by destruct closed.
  - split; [done|]. exists []. split; [apply Hpc; by right|]. by destruct closed.
Qed.

Lemma flush_start_inv k rs w :
  stage_ok rs w → cont_ok k →
  writer_inv rs (flush_start k w) ∧ inflight (flush_start k w) = cont_req k ∧
  w_head (flush_start k w) = w_head w.
Proof.
  intros Hst Hk. destruct (flush_start_spec k rs w Hst) as (Hst' & Himg & Hpc & Hh & _).
  unfold writer_inv, inflight. rewrite Hpc. done.
Qed.

Lemma handle_spec req rs w :
  stage_ok rs w → valid_req req → fits req →
  w_head (handle req w) = w_head w ∧
  ∃ rs', writer_inv rs' (handle req w) ∧ inflight (handle req w) ++ rs' ≡ₚ req :: rs.
Proof.
  intros Hst Hv Hfit. unfold handle.
  destruct (Z.leb_spec (recSize req) pageSize) as [Hsm|Hbig].
  - destruct (Z.ltb_spec pageSize (w_stageN w + recSize req)) as [Hful|Hroom].
    + destruct (flush_start_inv (KSmall req) rs w Hst) as (Hw & Hi & Hh); [done|].
      split; [done|]. exists rs. by rewrite Hi.
    + destruct (stage_record_spec req rs w) as (Hst' & Hpc & Hh & _); [done|done|lia|].
      split; [done|]. exists (rs ++ [req]). unfold writer_inv, inflight. rewrite Hpc.
      split; [done|]. simpl. by rewrite (comm (++)).
  - assert (large_fits req) as Hlf by (destruct Hfit; [lia|done]).
    destruct (Z.ltb_spec 0 (w_stageN w)) as [Hn|Hn].
    + destruct (flush_start_inv (KLarge req) rs w Hst) as (Hw & Hi & Hh); [done|].
      split; [done|]. exists rs. by rewrite Hi.
    + assert (rs = []) as ->.
      { apply (stage_empty _ w); [done|]. pose proof (stage_n _ _ Hst). lia. }
      destruct (large_check_spec req w Hst Hlf) as (Hw & Hi & Hh). split; [done|].
      exists []. by rewrite Hi.
Qed.

(** ** Preservation: the clients *)

Lemma inv_accepted_valid us cur rs outs lost b :
  inv_at us cur rs outs lost b → Forall valid_req (b_accepted b) →
  Forall valid_req (b_writeCh b) ∧ Forall valid_req (inflight (b_writer b)) ∧ Forall valid_req rs.
Proof.
  intros Hinv Hv. rewrite (inv_where _ _ _ _ _ _ Hinv) in Hv. rewrite !Forall_app in Hv. tauto.
Qed.

Lemma inv_Write us cur rs outs lost b req :
  b_closed b = false → inv_at us cur rs outs lost b → inv_at us cur rs outs lost (snd (Write req b)).
Proof.
  intros Hcl Hinv. unfold Write.
  destruct ((pageSize <? recSize req) && (maxBytes <? _)) eqn:Hbig; [done|].
  destruct (Z.ltb_spec (len (b_writeCh b)) pageCount) as [Hq|]; [|done].
  destruct Hinv as [? ? ? ? ? ? ? Hwhere Hlost Hfits Hqueue]; constructor; simpl; try done.
  - perm_solve Hwhere.
  - apply Forall_app. split; [done|]. constructor; [|constructor]. unfold fits.
    apply andb_false_iff in Hbig as [Hb%Z.ltb_ge|Hb%Z.ltb_ge]; auto.
  - rewrite len_app. simpl. lia.
Qed.

Lemma inv_client outs lost l b b' :
  match l with
  | LWrite _ | LAddInterest _ | LWakeSend | LTimer _ | LTime _ | LClose => True
  | _ => False
  end →
  exec l b = Some b' → InvO outs lost b → InvO outs lost b'.
Proof.
  intros Hl He (us & cur & rs & Hinv). exists us, cur, rs.
  destruct l; try done; simpl in He; repeat case_match; simplify_eq;
    try (destruct Hinv; constructor; simpl in *; congruence || done).
  by apply inv_Write.
Qed.

(** ** Preservation: the writer *)

(** The writer moves a request from the queue, or between its places. *)
Lemma inv_writer_step us cur rs outs lost b w q rs' lost' :
  inv_at us cur rs outs lost b →
  writer_inv rs' w → w_head w = w_head (b_writer b) → len q <= len (b_writeCh b) →
  q ++ inflight w ++ rs' ++ lost' ≡ₚ b_writeCh b ++ inflight (b_writer b) ++ rs ++ lost →
  (b_closed b = false → lost' = []) →
  inv_at us cur rs' outs lost' (set_writeCh q (set_writer w b)).
Proof.
  intros [Hr Hh Hw Hs Ha Hev Ho Hwhere Hl Hf Hq] Hw' Hh' Hq' Hperm Hlost'.
  constructor; simpl; try done; [congruence| |lia].
  apply perm_count; intros x. pose proof (proj1 (perm_count _ _) Hwhere x) as Hx.
  pose proof (proj1 (perm_count _ _) Hperm x) as Hy. rewrite !count_app in *. lia.
Qed.

Lemma inv_Recv outs lost b b' :
  exec LRecv b = Some b' → Forall valid_req (b_accepted b) → InvO outs lost b → InvO outs lost b'.
Proof.
  intros He Hv (us & cur & rs & Hinv). simpl in He.
  destruct (w_pc (b_writer b)) eqn:Hpc; try done.
  destruct (b_writeCh b) as [|req rest] eqn:Hq; [done|]. simplify_eq.
  destruct (inv_accepted_valid _ _ _ _ _ _ Hinv Hv) as (Hvq & _ & _).
  rewrite Hq in Hvq. apply Forall_cons in Hvq as [Hvr _].
  assert (fits req) as Hfit.
  { pose proof (inv_fits _ _ _ _ _ _ Hinv) as Hf. rewrite (inv_where _ _ _ _ _ _ Hinv), Hq in Hf.
    by apply Forall_app in Hf as [[? _]%Forall_cons _]. }
  pose proof (inv_writer _ _ _ _ _ _ Hinv) as [Hst _].
  destruct (handle_spec req rs _ Hst Hvr Hfit) as (Hh & rs' & Hw' & Hperm).
  exists us, cur, rs'. apply (inv_writer_step us cur rs outs lost b); try done.
  - rewrite Hq. simpl. lia.
  - assert (inflight (b_writer b) = []) as -> by (unfold inflight; by rewrite Hpc).
    rewrite Hq. perm_solve Hperm.
  - apply (inv_lost _ _ _ _ _ _ Hinv).
Qed.

Lemma inv_writer_local b w rs' us cur rs outs lost :
  inv_at us cur rs outs lost b → writer_inv rs' w → w_head w = w_head (b_writer b) →
  inflight w ++ rs' ≡ₚ inflight (b_writer b) ++ rs → InvO outs lost (set_writer w b).
Proof.
  intros Hinv Hw Hh Hperm. exists us, cur, rs'.
  apply (inv_writer_step us cur rs outs lost b w (b_writeCh b) rs' lost); try done.
  - perm_solve Hperm.
  - apply (inv_lost _ _ _ _ _ _ Hinv).
Qed.

Lemma inv_Select outs lost b b' l :
  match l with LTick | LSeeClose | LDrained | LWait | LPageFreed => True | _ => False end →
  exec l b = Some b' → InvO outs lost b → InvO outs lost b'.
Proof.
  intros Hl He (us & cur & rs & Hinv).
  pose proof (inv_writer _ _ _ _ _ _ Hinv) as [Hst _]. simpl in He.
  assert (0 <= w_stageN (b_writer b)) by (pose proof (stage_n _ _ Hst); lia).
  assert (∀ x, InvO outs lost (set_writer (set_waiting x (b_writer b)) b)) as Hwait.
  { intros x. eapply inv_writer_local; [done| |done|done].
    apply writer_inv_waiting. apply Hinv. }
  destruct l; try done; simpl in He;
    try (destruct (wait_need _); [|done]; case_match; [|done]; simplify_eq;
         first [ by apply Hwait | specialize (Hwait false); destruct Hwait as (? & ? & ? & []); 
                 eexists _, _, _; by constructor ]);
    destruct (w_pc (b_writer b)) eqn:Hpc; try done;
    assert (inflight (b_writer b) = []) as Hin by (unfold inflight; by rewrite Hpc).
  - destruct (w_drain _); [done|]. simplify_eq. unfold tick.
    destruct (Z.ltb_spec 0 (w_stageN (b_writer b))).
    + destruct (flush_start_inv KTick rs _ Hst I) as (Hw & Hi & Hh).
      eapply inv_writer_local; try done. by rewrite Hi, Hin.
    + eapply inv_writer_local; try done; [split; [by apply stage_ok_pc|done]|]. by rewrite Hin.
  - destruct (b_closed b && _); [|done]. simplify_eq.
    eapply (inv_writer_local _ _ rs); [done| |done|done].
    split; [destruct Hst; by split|]. simpl. by rewrite Hpc.
  - destruct (b_writeCh b); [|done]. destruct (w_drain _); [|done]. simplify_eq. unfold drain_done.
    destruct (Z.ltb_spec 0 (w_stageN (b_writer b))).
    + destruct (flush_start_inv KFinal rs _ Hst I) as (Hw & Hi & Hh).
      eapply inv_writer_local; try done. by rewrite Hi, Hin.
    + assert (rs = []) as -> by (apply (stage_empty _ _ Hst); lia).
      eapply inv_writer_local; try done; [split; [by apply stage_ok_pc|done]|]. by rewrite Hin.
Qed.

Lemma inv_Wake outs lost b b' :
  exec LWake b = Some b' → Forall valid_req (b_accepted b) → InvO outs lost b → InvO outs lost b'.
Proof.
  intros He Hv (us & cur & rs & Hinv). simpl in He.
  destruct (w_pc (b_writer b)) as [|k|req|k| |] eqn:Hpc; try done. simplify_eq.
  destruct (inv_accepted_valid _ _ _ _ _ _ Hinv Hv) as (_ & Hvi & _).
  pose proof (inv_writer _ _ _ _ _ _ Hinv) as [Hst Hw]. rewrite Hpc in Hw.
  unfold inflight in Hvi. rewrite Hpc in Hvi.
  assert (inv_at us cur rs outs lost (set_wakeup true b)) as Hinv' by (destruct Hinv; constructor; done).
  destruct k as [k|]; simpl.
  - destruct Hw as [-> Hk].
    destruct (after_flush_spec k false _ Hst Hk Hvi) as (Hh & rs' & Hw' & Hi).
    eapply inv_writer_local; try done. rewrite Hi. simpl. unfold inflight. by rewrite Hpc, app_nil_r.
  - subst rs. eapply inv_writer_local; try done.
    + split; [by apply stage_ok_pc|]. done.
    + unfold inflight. simpl. by rewrite Hpc.
Qed.

Lemma inv_GiveUp outs lost b b' :
  exec LGiveUp b = Some b' → Forall valid_req (b_accepted b) → InvO outs lost b →
  b_closed b = true ∧ w_waiting (b_writer b) = true ∧
  ∃ rs, stage_ok rs (b_writer b) ∧ InvO outs (lost ++ inflight (b_writer b) ++ rs) b'.
Proof.
  intros He Hv (us & cur & rs & Hinv). simpl in He.
  destruct (inv_accepted_valid _ _ _ _ _ _ Hinv Hv) as (_ & Hvi & _).
  pose proof (inv_writer _ _ _ _ _ _ Hinv) as [Hst Hw].
  unfold wait_need, writer_give_up in He. unfold inflight in Hvi.
  destruct (w_pc (b_writer b)) as [|k|req|k| |] eqn:Hpc; try done;
    destruct (w_waiting _ && b_closed b) eqn:Hc; try done;
    apply andb_true_iff in Hc as [Hwt Hclosed]; simplify_eq; (split; [done|]); (split; [done|]);
    exists rs; (split; [done|]).
  - destruct Hw as [_ Hk].
    assert (stage_ok [] (set_stage (w_stage (b_writer b)) 0 (b_writer b))) as Hst0.
    { pose proof page_pos. destruct Hst. split; simpl; try done; [lia|by eexists]. }
    destruct (after_flush_spec k true _ Hst0 Hk Hvi) as (Hh & rs' & Hw' & Hi).
    apply app_eq_nil in Hi as [Hi ->].
    exists us, cur, [].
    apply (inv_writer_step us cur rs outs lost b _ (b_writeCh b)); try done; [|congruence].
    replace (inflight match k with KFinal => _ | _ => _ end) with (@nil writeReq) by (by destruct k).
    apply perm_count; intros x. rewrite !count_app. simpl. lia.
  - destruct Hw as [-> Hk].
    exists us, cur, [].
    apply (inv_writer_step us cur [] outs lost b _ (b_writeCh b)); try done; [| |congruence].
    + split; [by apply stage_ok_pc|]. done.
    + apply perm_count; intros x. rewrite !count_app. simpl. lia.
Qed.
(** A unit is added behind the others; the sweeper sees it if there were none. *)
Lemma sweeper_inv_push f f' sw used used' us u cur :
  ring_holds (s_head sw) f used us → ring_holds (s_head sw) f' used' (us ++ [u]) → used <= used' →
  sweeper_inv f sw used us cur →
  ∃ cur', sweeper_inv f' sw used' (us ++ [u]) cur' ∧
    alive_reqs cur' ++ units_live (tail (us ++ [u])) ≡ₚ
    alive_reqs cur ++ units_live (tail us) ++ alive_reqs (unit_slots u).
Proof.
  intros Hr Hr' Hle Hs. destruct us as [|v us].
  - exists (unit_slots u). unfold sweeper_inv in *. simpl.
    destruct (s_pc sw); try (by destruct Hs as (? & ? & ? & _)); subst cur; split; try done;
      by rewrite app_nil_r.
  - exists cur. split.
    + unfold sweeper_inv in *. simpl. destruct (s_pc sw) as [| | |press used0 sc|sc| | |]; try done.
      * destruct Hs as (u0 & us' & [= <- <-] & ->). by eexists _, _.
      * destruct Hs as (u0 & us' & [= <- <-] & ? & ? & ? & Hsc). eexists _, _. split; [done|].
        split; [lia|]. split; [done|]. split; [done|]. destruct v as [l|s]; [done|]. simpl in *.
        by rewrite (ring_head_page _ _ _ _ _ Hr'), <- (ring_head_page _ _ _ _ _ Hr).
      * destruct Hs as (u0 & us' & [= <- <-] & ?). by eexists _, _.
    + simpl. by rewrite units_live_snoc.
Qed.

(** What [LCommit] does to the buffer, whatever was committed. *)
Lemma inv_push us cur rs outs lost b w f used u :
  inv_at us cur rs outs lost b →
  ring_holds (s_head (b_sweeper b)) f used (us ++ [u]) → b_used b <= used →
  w_head w = (s_head (b_sweeper b) + used) mod maxBytes → unit_alive u →
  writer_inv [] w → inflight w ++ alive_reqs (unit_slots u) ≡ₚ inflight (b_writer b) ++ rs →
  InvO outs lost (set_writer w (set_file f (set_used used b))).
Proof.
  intros [Hr Hh Hw Hs Ha Hev Ho Hwhere Hl Hf Hq] Hr' Hle Hh' Hau Hw' Hperm.
  destruct (sweeper_inv_push _ _ _ _ _ _ _ _ Hr Hr' Hle Hs) as (cur' & Hs' & Hperm').
  exists (us ++ [u]), cur', []. constructor; simpl; try done.
  - apply Forall_app. by split; [|constructor].
  - apply perm_count; intros x. pose proof (proj1 (perm_count _ _) Hwhere x) as Hx.
    pose proof (proj1 (perm_count _ _) Hperm x) as Hy.
    pose proof (proj1 (perm_count _ _) Hperm' x) as Hz.
    rewrite !count_app in *. cbn [count_occ]. lia.
Qed.

Lemma inv_Commit outs lost b b' :
  exec LCommit b = Some b' → Forall valid_req (b_accepted b) → InvO outs lost b → InvO outs lost b'.
Proof.
  intros He Hv (us & cur & rs & Hinv). simpl in He.
  destruct (inv_accepted_valid _ _ _ _ _ _ Hinv Hv) as (_ & Hvi & _).
  pose proof (inv_writer _ _ _ _ _ _ Hinv) as [Hst Hw]. pose proof page_pos.
  pose proof (inv_ring _ _ _ _ _ _ Hinv) as Hr. pose proof (inv_head _ _ _ _ _ _ Hinv) as Hh.
  unfold wait_need, writer_commit in He. unfold inflight in Hvi.
  destruct (w_pc (b_writer b)) as [|k|req|k| |] eqn:Hpc; try done.
  - destruct Hw as [Himg Hk].
    destruct (w_waiting _); [by repeat case_match|]. cbn [orb] in He.
    destruct (must_wait (b_used b) pageSize) eqn:Hmw; [by repeat case_match|].
    destruct (flush_commit_spec k rs _ _ _ _ _ Hst Himg Hr Hh Hmw)
      as (w' & f' & E & Hr' & Hh' & Hst' & Hpc' & _).
    rewrite E in He. simplify_eq.
    eapply (inv_push us cur rs); try done; [lia| |].
    + split; [done|]. by rewrite Hpc'.
    + unfold inflight. rewrite Hpc, Hpc'. simpl. by rewrite alive_fresh.
  - destruct Hw as [-> [Hbig Hmax]]. rewrite Forall_singleton in Hvi.
    destruct (w_waiting _); [by repeat case_match|]. cbn [orb] in He.
    destruct (must_wait (b_used b) _) eqn:Hmw; [by repeat case_match|].
    destruct (large_commit_spec req [] _ _ _ _ _ Hst (stage_nil_0 _ Hst) Hvi Hbig Hr Hh Hmax Hmw)
      as (w' & f' & E & Hr' & Hh' & Hst' & Hpc' & _).
    rewrite E in He. simplify_eq.
    assert (1 <= numChunks (len (data req))) by (apply numChunks_pos; lia).
    eapply (inv_push us cur []); try done; [nia| |].
    + split; [done|]. by rewrite Hpc'.
    + unfold inflight. rewrite Hpc, Hpc'. simpl. by rewrite alive_one.
Qed.
(** ** Preservation: the sweeper *)

(** The sweeper changes its program counter only, outside [processPage]. *)
Lemma inv_go us cur rs outs lost b pc :
  inv_at us cur rs outs lost b → scan_events pc = scan_events (s_pc (b_sweeper b)) →
  sweeper_inv (b_file b) (MkSweeper (s_head (b_sweeper b)) (s_closing (b_sweeper b)) pc) (b_used b) us cur →
  inv_at us cur rs outs lost (go_sweeper pc b).
Proof.
  intros [Hr Hh Hw Hs Ha Hev Ho Hwhere Hl Hf Hq] Hpc Hs'. constructor; simpl; try done.
  unfold all_events in *. simpl. by rewrite Hpc.
Qed.

Lemma inv_Loop outs lost b :
  s_pc (b_sweeper b) = SLoop → InvO outs lost b →
  InvO outs lost (if b_used b =? 0 then go_sweeper (if s_closing (b_sweeper b) then SExit else SEmpty) b
       else go_sweeper SRead b).
Proof.
  intros Hpc (us & cur & rs & Hinv).
  pose proof (inv_sweeper _ _ _ _ _ _ Hinv) as Hs. unfold sweeper_inv in Hs. rewrite Hpc in Hs.
  exists us, cur, rs. destruct (Z.eqb_spec (b_used b) 0) as [H0|H0].
  - apply inv_go; [done|rewrite Hpc|]; by destruct (s_closing _).
  - apply inv_go; [done|by rewrite Hpc|]. simpl. destruct us as [|u us].
    + destruct H0. by eapply rh_zero; [apply Hinv|].
    + by eexists _, _.
Qed.

Lemma scan_inv_start r f used u us :
  ring_holds r f used (u :: us) →
  scan_inv f r u (unit_slots u) (scan_start (slice f r (r + pageSize))).
Proof.
  intros Hr. destruct u as [l|s]; [|done]. rewrite (ring_head_page _ _ _ _ _ Hr).
  pose proof (rh_ok _ _ _ _ Hr) as Hu. apply Forall_cons in Hu as [[Hv Hfit] _]. simpl in *.
  exists [], [], l. split; [done|]. split; [done|]. split; [done|]. split; [done|].
  split; [|done]. simpl. rewrite take_ge.
  - unfold page_image. do 2 f_equal. lia.
  - pose proof (page_image_len l Hfit). lia.
Qed.

Lemma inv_Read outs lost b :
  s_pc (b_sweeper b) = SRead → InvO outs lost b →
  InvO outs lost (go_sweeper (SScan (pressure (b_used b) (s_closing (b_sweeper b))) (b_used b)
    (scan_start (slice (b_file b) (s_head (b_sweeper b)) (s_head (b_sweeper b) + pageSize)))) b).
Proof.
  intros Hpc (us & cur & rs & Hinv).
  pose proof (inv_sweeper _ _ _ _ _ _ Hinv) as Hs. unfold sweeper_inv in Hs. rewrite Hpc in Hs.
  destruct Hs as (u & us' & -> & ->). pose proof (inv_ring _ _ _ _ _ _ Hinv) as Hr.
  exists (u :: us'), (unit_slots u), rs. apply inv_go; [done|by rewrite Hpc|].
  simpl. exists u, us'. split; [done|]. split; [lia|]. split; [done|]. split.
  - rewrite (rh_used _ _ _ _ Hr), units_chunks_cons.
    pose proof (rh_ok _ _ _ _ Hr) as Hu. apply Forall_cons in Hu as [_ Hu].
    pose proof (units_chunks_nonneg _ Hu). pose proof page_pos. nia.
  - by eapply scan_inv_start.
Qed.

(** A verdict about the record [s] of the first unit. *)
Definition verdict_out (d : verdict) (s : slot) : list (writeReq * event) :=
  (λ ev, (sl_req s, ev)) <$> option_list (verdict_event d s).

Lemma verdict_out_events d s : (verdict_out d s).*2 = option_list (verdict_event d s).
Proof. by destruct d. Qed.

Lemma verdict_out_ok d s : Forall outcome_ok (verdict_out d s).
Proof. destruct d; repeat constructor. Qed.

Lemma verdict_out_alive v press s :
  let d := slot_verdict v press s in
  alive_reqs [s] ≡ₚ alive_reqs [verdict_slot d s] ++ (verdict_out d s).*1.
Proof.
  intros d. rewrite !alive_one. subst d. rewrite verdict_slot_dead. unfold slot_verdict.
  destruct (sl_dead s); [done|]. destruct (hasInterestForSpanRLocked _ _ _ _); [done|].
  by destruct (_ || press).
Qed.

(** One iteration of the loop of [processPage], in the invariant. *)
Lemma inv_scanned us cur cur' rs outs lost b pc d s :
  inv_at us cur rs outs lost b →
  scan_events pc = scan_events (s_pc (b_sweeper b)) ++ option_list (verdict_event d s) →
  sweeper_inv (b_file b) (MkSweeper (s_head (b_sweeper b)) (s_closing (b_sweeper b)) pc) (b_used b) us cur' →
  alive_reqs cur ≡ₚ alive_reqs cur' ++ (verdict_out d s).*1 →
  inv_at us cur' rs (outs ++ verdict_out d s) lost (go_sweeper pc b).
Proof.
  intros [Hr Hh Hw Hs Ha Hev Ho Hwhere Hl Hf Hq] Hpc Hs' Hperm. constructor; simpl; try done.
  - unfold all_events in *. simpl. by rewrite Hpc, app_assoc, Hev, fmap_app, verdict_out_events.
  - apply Forall_app. split; [done|]. apply verdict_out_ok.
  - rewrite fmap_app. apply perm_count; intros x. pose proof (proj1 (perm_count _ _) Hwhere x) as Hx.
    pose proof (proj1 (perm_count _ _) Hperm x) as Hy. rewrite !count_app in *. lia.
Qed.
Lemma all_dead_app l l' : all_dead (l ++ l') = all_dead l && all_dead l'.
Proof. unfold all_dead. by rewrite forallb_app. Qed.

(** The loop over a page of small records, between two iterations. *)
Record page_scan (l orig done todo : list slot) (sc : scan) : Prop := {
  ps_page : l = orig ++ todo;
  ps_valid : Forall (λ s, valid_req (sl_req s)) (done ++ todo);
  ps_len : len (slots_image orig) = len (slots_image done);
  ps_image : sc_scratch sc = slots_image done ++ slots_image todo
    ++ zeroes (pageSize - len (slots_image done) - len (slots_image todo));
  ps_pos : sc_pos sc = len (slots_image done);
  ps_chunks : sc_chunks sc = 1;
  ps_wb : sc_wb sc = false → done = orig;
  ps_full : sc_full sc = all_dead done;
}.

Lemma page_scan_inv f r l cur sc :
  scan_inv f r (UPage l) cur sc ↔ ∃ orig done todo, cur = done ++ todo ∧ page_scan l orig done todo sc.
Proof.
  split.
  - intros (orig & done & todo & -> & -> & ? & ? & ? & ? & ? & ? & ?).
    exists orig, done, todo. split; [reflexivity|]. by constructor.
  - intros (orig & done & todo & -> & [-> ? ? ? ? ? ? ?]).
    exists orig, done, todo. tauto.
Qed.

Lemma page_scan_back l orig done sc : page_scan l orig done [] sc → back_inv (UPage l) done sc.
Proof.
  intros [-> Hv Hlen Himg Hpos Hch Hwb Hfull]. rewrite !app_nil_r in *. simpl.
  split; [|split; [done|split; [done|split; [done|split; done]]]].
  rewrite Himg. unfold page_image. simpl. do 2 f_equal. lia.
Qed.

Lemma page_scan_step l orig done s todo sc v press :
  page_scan l orig done (s :: todo) sc →
  let d := slot_verdict v press s in
  page_scan l (orig ++ [s]) (done ++ [verdict_slot d s]) todo
    (verdict_scan d (slot_size s)
      (slots_image done ++ slot_image (verdict_slot d s) ++ slots_image todo
        ++ zeroes (pageSize - len (slots_image done) - len (slots_image (s :: todo))))
      (verdict_event d s) sc).
Proof.
  intros [-> Hv Hlen Himg Hpos Hch Hwb Hfull] d.
  pose proof Hv as [_ [Hs _]%Forall_cons]%Forall_app.
  pose proof (length_slot_image s (valid_tid _ Hs)) as Hsl.
  assert (len (slot_image (verdict_slot d s)) = slot_size s) as Hsl'.
  { rewrite length_slot_image by (rewrite verdict_slot_req; apply Hs). apply verdict_slot_size. }
  assert (sl_dead (verdict_slot d s) = match d with VKeep _ => false | _ => true end) as Hdd
    by apply verdict_slot_dead.
  assert (slots_image [verdict_slot d s] = slot_image (verdict_slot d s)) as E1 by apply app_nil_r.
  assert (slots_image [s] = slot_image s) as E2 by apply app_nil_r.
  constructor; cbn [verdict_scan sc_scratch sc_pos sc_full sc_chunks sc_minRem sc_wb sc_events].
  - by rewrite <- app_assoc.
  - rewrite <- app_assoc. apply Forall_app in Hv as [Hv1 [_ Hv2]%Forall_cons].
    apply Forall_app. split; [done|]. constructor; [|done]. by rewrite verdict_slot_req.
  - rewrite !slots_image_app, !len_app, E1, E2. lia.
  - rewrite slots_image_app, <- app_assoc, E1. do 4 f_equal.
    rewrite slots_image_cons, !len_app. lia.
  - rewrite slots_image_app, len_app, E1. lia.
  - done.
  - destruct d eqn:Ed; try discriminate; intros H; by rewrite (Hwb H).
  - rewrite all_dead_app. simpl. rewrite Hdd, Hfull. destruct d; by rewrite ?andb_false_r, ?andb_true_r.
Qed.

Lemma page_scan_room l orig done s todo sc :
  unit_ok (UPage l) → page_scan l orig done (s :: todo) sc →
  len (slots_image done) + slot_size s <= pageSize.
Proof.
  intros [_ Hfit] [-> Hv Hlen _ _ _ _ _]. simpl in Hfit.
  pose proof Hv as [_ [Hs _]%Forall_cons]%Forall_app.
  pose proof (length_slot_image s (valid_tid _ Hs)) as Hsl.
  rewrite slots_image_app, slots_image_cons, !len_app in Hfit. lia.
Qed.

(** The loop of [processPage] goes on with [scan_next]. *)
Definition scan_next (b : SpanBuffer) (press : bool) (used0 : Z) (sc : scan) : spc :=
  if sc_pos sc + hdrSize <=? pageSize then
    let '(sc, again) := page_iter (View (b_now b) (b_interest b)) used0 press
                          (b_file b) (s_head (b_sweeper b)) sc in
    if again then SScan press used0 sc else SBack sc
  else SBack sc.

(** What a verdict does to the time the sweeper will wait. *)
Definition timed (d : verdict) (sc sc' : scan) : Prop :=
  match d with
  | VKeep rem => sc_full sc' = false ∧ sc_minRem sc' = min_remaining (sc_minRem sc) rem
  | _ => sc_full sc' = sc_full sc ∧ sc_minRem sc' = sc_minRem sc
  end.

(** One iteration on a page of small records ends the loop behind the last
    record, and otherwise gives the verdict about the next one. *)
Lemma scan_next_page b press used0 l orig done todo sc :
  unit_ok (UPage l) → page_scan l orig done todo sc →
  (todo = [] ∧ scan_next b press used0 sc = SBack sc) ∨
  ∃ s todo', todo = s :: todo' ∧
    let d := slot_verdict (View (b_now b) (b_interest b)) press s in
    ∃ sc', scan_next b press used0 sc = SScan press used0 sc' ∧
      sc_events sc' = sc_events sc ++ option_list (verdict_event d s) ∧ timed d sc sc' ∧
      page_scan l (orig ++ [s]) (done ++ [verdict_slot d s]) todo' sc'.
Proof.
  intros Hu Hps. unfold scan_next. destruct todo as [|s todo]; [left|right].
  - split; [done|]. destruct (Z.leb_spec (sc_pos sc + hdrSize) pageSize) as [Hpos|Hpos]; [|done].
    rewrite (page_iter_end _ _ _ _ _ (slots_image done)); [done| |apply Hps|].
    + rewrite (ps_image _ _ _ _ _ Hps). simpl. do 2 f_equal. lia.
    + rewrite <- (ps_pos _ _ _ _ _ Hps). lia.
  - exists s, todo. split; [done|]. pose proof (page_scan_room _ _ _ _ _ _ Hu Hps) as Hroom.
    pose proof (slot_size_hdr s). pose proof (ps_pos _ _ _ _ _ Hps) as Hp.
    destruct (Z.leb_spec (sc_pos sc + hdrSize) pageSize) as [Hpos|Hpos]; [|lia].
    pose proof (ps_valid _ _ _ _ _ Hps) as [_ [Hs _]%Forall_cons]%Forall_app.
    pose proof (ps_image _ _ _ _ _ Hps) as Himg. rewrite slots_image_cons, <- app_assoc in Himg.
    erewrite page_iter_slot; [|exact Hs|exact Himg|exact Hp|done].
    eexists. split; [reflexivity|]. split; [done|]. split; [|by apply page_scan_step].
    by destruct (slot_verdict _ press s).
Qed.

(** One iteration on a large record gives the verdict and ends the loop. *)
Lemma scan_next_large b press used0 s us :
  let sc := scan_start (slice (b_file b) (s_head (b_sweeper b)) (s_head (b_sweeper b) + pageSize)) in
  let d := slot_verdict (View (b_now b) (b_interest b)) press s in
  ring_holds (s_head (b_sweeper b)) (b_file b) (b_used b) (ULarge s :: us) → sl_dead s = false →
  unit_chunks (ULarge s) * pageSize <= used0 →
  ∃ sc', scan_next b press used0 sc = SBack sc' ∧
    sc_events sc' = option_list (verdict_event d s) ∧ timed d sc sc' ∧
    back_inv (ULarge s) [verdict_slot d s] sc'.
Proof.
  intros sc d Hr Hd Hused0. pose proof cfg_page. unfold scan_next.
  destruct (Z.leb_spec (sc_pos sc + hdrSize) pageSize) as [_|Hpos]; [|simpl in Hpos; lia].
  subst sc. erewrite page_iter_large; [|done|done|done]. fold d.
  set (sc := scan_start _) in *. pose proof (ring_head_page _ _ _ _ _ Hr) as Hpage.
  assert (d ≠ VSkip) as Hns.
  { subst d. unfold slot_verdict. rewrite Hd. destruct (hasInterestForSpanRLocked _ _ _ _); [done|].
    by destruct (_ || press). }
  assert ((d = VMatch ∨ ∃ age, d = VEvict age) →
    let sc' := scan_chunks (unit_chunks (ULarge s)) (scan_kill (default (EEvict 0) (verdict_event d s)) 0 sc) in
    sc_events sc' = option_list (verdict_event d s) ∧ timed d sc sc' ∧
    back_inv (ULarge s) [verdict_slot d s] sc') as Hkill.
  { intros Hdd. split; [by destruct Hdd as [-> | [age ->]]|].
    split; [by destruct Hdd as [-> | [age ->]]|]. right.
    split; [by destruct Hdd as [-> | [age ->]]|]. split; [done|]. split; [done|]. split; [done|].
    simpl. by rewrite Hpage. }
  destruct d as [| |age|rem]; [done| | |]; eexists; (split; [reflexivity|]).
  - apply Hkill. by left.
  - apply Hkill. right. by eexists.
  - split; [done|]. split; [done|]. by left.
Qed.

(** What allows the callback [o.2] for the request [o.1]. *)
Definition justified (b : SpanBuffer) (o : writeReq * event) : Prop :=
  let r := o.1 in
  let interesting := hasInterestForSpanRLocked decisionWait (traceID r) (insertedAt r) (b_interest b) in
  match o.2 with
  | EMatch tid payload => tid = traceID r ∧ payload = data r ∧ interesting = true
  | EEvict age => interesting = false ∧ age = time_sub (b_now b) (insertedAt r) ∧
      (decisionWait <= age ∨ Z.quot (maxBytes * 3) 4 < b_used b ∨ s_closing (b_sweeper b) = true)
  end.

(** What one step does to the callbacks made and the requests dropped. *)
Inductive effect (b : SpanBuffer) (outs : list (writeReq * event)) (lost : list writeReq) :
    list (writeReq * event) → list writeReq → Prop :=
| eff_none : effect b outs lost outs lost
| eff_out o : justified b o → effect b outs lost (outs ++ [o]) lost
| eff_drop rs : b_closed b = true → w_waiting (b_writer b) = true → stage_ok rs (b_writer b) →
    effect b outs lost outs (lost ++ inflight (b_writer b) ++ rs).

(** The requests one transition drops: a writer that gives up drops the record
    it is handling and the records in the stage; nothing else drops any. *)
Definition dropped (l : label) (b : SpanBuffer) (d : list writeReq) : Prop :=
  match l with
  | LGiveUp => ∃ rs, stage_ok rs (b_writer b) ∧ d = inflight (b_writer b) ++ rs
  | _ => d = []
  end.

Lemma verdict_effect b used0 s outs lost :
  used0 <= b_used b →
  let press := pressure used0 (s_closing (b_sweeper b)) in
  let d := slot_verdict (View (b_now b) (b_interest b)) press s in
  effect b outs lost (outs ++ verdict_out d s) lost.
Proof.
  intros Hused press d. subst d. unfold verdict_out, slot_verdict.
  destruct (sl_dead s); simpl; [rewrite app_nil_r; constructor|].
  destruct (hasInterestForSpanRLocked _ _ _ _) eqn:Hi; simpl; [by apply eff_out|].
  destruct (decisionWait <=? _) eqn:Ha; simpl.
  - apply eff_out. split; [done|]. split; [done|]. left. by apply Z.leb_le in Ha.
  - destruct press eqn:Hp; simpl; [|rewrite app_nil_r; constructor].
    apply eff_out. split; [done|]. split; [done|]. right. subst press. unfold pressure in Hp.
    pose proof cfg_max. pose proof max_pos.
    rewrite i64_small in Hp by (unfold is_i64, min_i64; lia).
    apply orb_true_iff in Hp as [Hp%Z.ltb_lt|Hp]; [left; lia|by right].
Qed.

Lemma inv_Scan_page b press used0 sc l us' orig done todo rs outs lost :
  s_pc (b_sweeper b) = SScan press used0 sc →
  inv_at (UPage l :: us') (done ++ todo) rs outs lost b →
  used0 <= b_used b → press = pressure used0 (s_closing (b_sweeper b)) →
  1 * pageSize <= used0 → page_scan l orig done todo sc →
  ∃ outs', InvO outs' lost (go_sweeper (scan_next b press used0 sc) b) ∧ effect b outs lost outs' lost.
Proof.
  intros Hpc Hinv Hused Hpress Hused0 Hps.
  pose proof (rh_ok _ _ _ _ (inv_ring _ _ _ _ _ _ Hinv)) as [Hu _]%Forall_cons.
  destruct (scan_next_page b press used0 _ _ _ _ _ Hu Hps)
    as [[-> ->]|(s & todo' & -> & sc' & -> & Hev & _ & Hps')].
  - exists outs. split; [|constructor]. exists (UPage l :: us'), (done ++ []), rs.
    apply inv_go; [done|by rewrite Hpc|]. exists (UPage l), us'. split; [reflexivity|].
    rewrite app_nil_r. by eapply page_scan_back.
  - set (v := View _ _) in *. set (d := slot_verdict v press s) in *.
    exists (outs ++ verdict_out d s). split; [|subst d press; by apply verdict_effect].
    exists (UPage l :: us'), ((done ++ [verdict_slot d s]) ++ todo'), rs.
    eapply inv_scanned; [done|by rewrite Hpc| |].
    + exists (UPage l), us'. split; [reflexivity|]. split; [done|]. split; [done|]. split; [done|].
      apply page_scan_inv. eexists _, _, _. split; [reflexivity|]. exact Hps'.
    + rewrite <- app_assoc, !alive_app, (alive_app [s] todo' : alive_reqs (s :: todo') = _).
      rewrite (verdict_out_alive v press s). fold d.
      apply perm_count; intros x. rewrite !count_app. lia.
Qed.

Lemma inv_Scan outs lost b press used0 sc :
  s_pc (b_sweeper b) = SScan press used0 sc → InvO outs lost b →
  ∃ outs', InvO outs' lost (go_sweeper (scan_next b press used0 sc) b) ∧ effect b outs lost outs' lost.
Proof.
  intros Hpc (us & cur & rs & Hinv).
  pose proof (inv_sweeper _ _ _ _ _ _ Hinv) as Hs. unfold sweeper_inv in Hs. rewrite Hpc in Hs.
  destruct Hs as (u & us' & -> & Hused & Hpress & Hused0 & Hsc). destruct u as [l|s].
  - apply page_scan_inv in Hsc as (orig & done & todo & -> & Hps).
    eapply inv_Scan_page; done.
  - destruct Hsc as [-> ->]. pose proof (inv_alive _ _ _ _ _ _ Hinv) as [Hd _]%Forall_cons.
    destruct (scan_next_large b press used0 s us') as (sc' & -> & Hev & _ & Hback); [apply Hinv|done|done|].
    set (v := View _ _) in *. set (d := slot_verdict v press s) in *.
    exists (outs ++ verdict_out d s). split; [|subst d press; by apply verdict_effect].
    eexists (ULarge s :: us'), _, rs.
    eapply inv_scanned; [done|rewrite Hpc; exact Hev| |apply verdict_out_alive].
    exists (ULarge s), us'. split; [reflexivity|done].
Qed.

(** *** The write back and the new head *)

Lemma head_pop h used n : (h + used) mod maxBytes = ((h + n) mod maxBytes + (used - n)) mod maxBytes.
Proof. pose proof max_pos. rewrite Zplus_mod_idemp_l. f_equal. lia. Qed.

(** The state after the write back, before the new head. *)
Definition written (sc : scan) (b : SpanBuffer) : SpanBuffer :=
  let file := if sc_wb sc then copy_at (b_file b) (s_head (b_sweeper b)) (sc_scratch sc) else b_file b in
  go_sweeper SWait (set_file file (set_events (b_events b ++ sc_events sc) b)).

(** After the write back the first unit holds the sweeper's records. *)
Lemma inv_written us cur rs outs lost b sc :
  s_pc (b_sweeper b) = SBack sc → inv_at us cur rs outs lost b →
  ∃ u us', ring_holds (s_head (b_sweeper b)) (b_file (written sc b)) (b_used b) (u :: us') ∧
    cur = unit_slots u ∧ Forall unit_alive us' ∧ tail us = us' ∧
    (sc_full sc = true → unit_chunks u = sc_chunks sc ∧ alive_reqs cur = []) ∧
    (sc_full sc = false → unit_alive u).
Proof.
  intros Hpc Hinv. pose proof (inv_sweeper _ _ _ _ _ _ Hinv) as Hs. unfold sweeper_inv in Hs.
  rewrite Hpc in Hs. destruct Hs as (u & us' & -> & Hback).
  pose proof (inv_ring _ _ _ _ _ _ Hinv) as Hr.
  pose proof (inv_alive _ _ _ _ _ _ Hinv) as [Hal Hals]%Forall_cons.
  pose proof (rh_ok _ _ _ _ Hr) as [Hu _]%Forall_cons. unfold written. simpl.
  destruct u as [l|s]; simpl in Hback.
  - destruct Hback as (Himg & Hv & Hlen & Hch & Hwb & Hfull). exists (UPage cur), us'.
    destruct Hu as [Hvl Hfit]. simpl in Hfit.
    split; [|split; [done|split; [done|split; [done|split; [|done]]]]].
    + destruct (sc_wb sc) eqn:Ewb; [|by rewrite (Hwb eq_refl)].
      assert (unit_ok (UPage cur)) as Hu' by (split; simpl; [done|lia]).
      eapply ring_update_head; try done.
      * rewrite Himg. apply page_image_len. lia.
      * simpl. rewrite Himg. rewrite <- (app_nil_r (page_image l)), copy_at_0, app_nil_r; [done|].
        apply Nat2Z.inj. rewrite !page_image_len; lia.
    + rewrite Hfull. intros Hd. split; [done|]. by apply alive_all_dead.
  - destruct Hback as [(-> & Hfull & Hwb)|(-> & Hfull & Hwb & Hch & Himg)]; rewrite Hfull, Hwb.
    + by exists (ULarge s), us'.
    + destruct Hu as [Hvs Hbig]. simpl in Hvs, Hbig. rewrite Forall_singleton in Hvs.
      destruct (large_kill_image s Hvs Hbig) as [Hp1 Hp2].
      exists (ULarge (kill s)), us'. rewrite Himg.
      split; [|done]. eapply ring_update_head; try done. split; simpl; [by constructor|done].
Qed.

Lemma inv_Back outs lost b sc : s_pc (b_sweeper b) = SBack sc → InvO outs lost b → InvO outs lost (sweep_back sc b).
Proof.
  intros Hpc (us & cur & rs & Hinv).
  destruct (inv_written _ _ _ _ _ _ _ Hpc Hinv) as (u & us' & Hr & -> & Hals & Htl & Hfull & Hkeep).
  destruct Hinv as [Hr0 Hh Hw Hs Ha Hev Ho Hwhere Hl Hf Hq]. rewrite Htl in Hwhere.
  unfold all_events in Hev. rewrite Hpc in Hev. simpl in Hev.
  unfold sweep_back. destruct (sc_full sc) eqn:Efull.
  - destruct (Hfull eq_refl) as [Hch Hdead]. pose proof (ring_pop _ _ _ _ _ Hr) as Hr'.
    rewrite Hch in Hr'. pose proof (rh_nonneg _ _ _ _ Hr') as Hnn. pose proof (rh_le _ _ _ _ Hr') as Hle.
    pose proof cfg_max. pose proof max_pos.
    exists us', (match us' with [] => [] | v :: _ => unit_slots v end), rs.
    constructor; simpl; try done; try rewrite i64_small by (unfold is_i64, min_i64; lia).
    + done.
    + by rewrite <- head_pop.
    + unfold all_events. simpl. by rewrite app_nil_r.
    + rewrite Hdead in Hwhere. by rewrite (app_assoc (alive_reqs _)), <- units_live_split.
  - exists (u :: us'), (unit_slots u), rs.
    destruct (0 <? sc_minRem sc); constructor; simpl; try done; try (by constructor; [apply Hkeep|]);
      unfold all_events; simpl; by rewrite app_nil_r.
Qed.

Lemma inv_sweep outs lost b b' :
  sweep b = Some b' → InvO outs lost b →
  ∃ outs', InvO outs' lost b' ∧ effect b outs lost outs' lost.
Proof.
  intros He Hinv.
  assert (InvO outs lost b' → ∃ outs', InvO outs' lost b' ∧ effect b outs lost outs' lost) as Hnone
    by (intros ?; exists outs; by split; [|constructor]). unfold sweep in He.
  destruct (s_pc (b_sweeper b)) as [| | |press used0 sc|sc| | |] eqn:Hpc; try done.
  - pose proof (inv_Loop _ _ _ Hpc Hinv). simplify_eq. by apply Hnone.
  - pose proof (inv_Read _ _ _ Hpc Hinv). simplify_eq. by apply Hnone.
  - pose proof (inv_Scan _ _ _ _ _ _ Hpc Hinv) as H. unfold scan_next in H.
    destruct (_ <=? _); [|by simplify_eq]. destruct (page_iter _ _ _ _ _ _) as [sc' again].
    by simplify_eq.
  - pose proof (inv_Back _ _ _ _ Hpc Hinv). simplify_eq. by apply Hnone.
  - simplify_eq. apply Hnone. destruct Hinv as (us & cur & rs & Hinv).
    exists us, cur, rs.
    assert (inv_at us cur rs outs lost (go_sweeper SLoop b)) as Hi.
    { apply inv_go; [done|by rewrite Hpc|]. pose proof (inv_sweeper _ _ _ _ _ _ Hinv) as Hs.
      unfold sweeper_inv in *. by rewrite Hpc in Hs. }
    destruct Hi; by constructor.
Qed.

Lemma inv_sweep_select outs lost l b b' :
  match l with LSweepWakeup | LSweepDone => True | _ => False end →
  exec l b = Some b' → InvO outs lost b → InvO outs lost b'.
Proof.
  intros Hl He (us & cur & rs & Hinv). exists us, cur, rs.
  assert (sweep_selects b = true → inv_at us cur rs outs lost (go_sweeper SLoop b)) as Hgo.
  { unfold sweep_selects. intros Hsel. pose proof (inv_sweeper _ _ _ _ _ _ Hinv) as Hs.
    unfold sweeper_inv in Hs.
    apply inv_go; [done| |]; by destruct (s_pc (b_sweeper b)). }
  destruct l; try done; simpl in He; destruct (sweep_selects b); try done; simpl in He;
    case_match; simplify_eq; destruct (Hgo eq_refl); by constructor.
Qed.

(** ** Every step preserves the invariant *)

Lemma inv_exec l outs lost b b' :
  exec l b = Some b' → Forall valid_req (b_accepted b) → InvO outs lost b →
  ∃ outs' d, InvO outs' (lost ++ d) b' ∧ effect b outs lost outs' (lost ++ d) ∧ dropped l b d.
Proof.
  intros He Hv Hinv.
  assert ((∀ b, dropped l b []) → InvO outs lost b' → ∃ outs' d, InvO outs' (lost ++ d) b' ∧
    effect b outs lost outs' (lost ++ d) ∧ dropped l b d) as Hnone.
  { intros Hd ?. exists outs, []. rewrite app_nil_r. split; [done|]. by split; [constructor|]. }
  destruct l; try (apply Hnone; [done|];
    first [ by eapply inv_client in He; eauto | by eapply inv_Recv in He; eauto
          | by eapply inv_Select in He; eauto | by eapply inv_Commit in He; eauto
          | by eapply inv_Wake in He; eauto | by eapply inv_sweep_select in He; eauto ]).
  - destruct (inv_GiveUp _ _ _ _ He Hv Hinv) as (Hcl & Hwt & rs & Hrs & Hl).
    exists outs, (inflight (b_writer b) ++ rs). split; [done|]. split; [by constructor|]. by exists rs.
  - destruct (inv_sweep _ _ _ _ He Hinv) as (outs' & Ho & Heff). exists outs', []. by rewrite app_nil_r.
Qed.

Lemma inv_step outs lost b b' :
  step b b' → Forall valid_req (b_accepted b) → InvO outs lost b →
  ∃ outs' lost', InvO outs' lost' b' ∧ effect b outs lost outs' lost'.
Proof.
  intros [l He] Hv Hinv. destruct (inv_exec _ _ _ _ _ He Hv Hinv) as (outs' & d & ? & ? & _).
  by exists outs', (lost ++ d).
Qed.

Lemma inv_init file now : len file = maxBytes → InvO [] [] (init_buffer file now).
Proof.
  intros Hfile. pose proof max_pos. pose proof page_pos.
  exists [], [], []. constructor; simpl; try done.
  - apply ring_empty; [done|lia|apply Z.divide_0_r].
  - split; [apply init_stage_ok|done].
  - unfold pageCount. apply Z.div_pos; lia.
Qed.

(** What was accepted stays accepted. *)
Lemma sweep_accepted b b' : sweep b = Some b' → b_accepted b' = b_accepted b.
Proof.
  unfold sweep, sweep_back. intros He. repeat (case_match; simplify_eq/=; try done).
Qed.

Lemma accepted_mono b b' : step b b' → ∃ l, b_accepted b' = b_accepted b ++ l.
Proof.
  intros [l He].
  assert ((∃ req, l = LWrite req) ∨ b_accepted b' = b_accepted b) as [[req ->]| ->];
    [|simpl in He|exists []; by rewrite app_nil_r].
  - destruct l as [req| | | | | | | | | | | | | | | | | ]; [left; by eexists|right..];
      try (by apply sweep_accepted); simpl in He; repeat (case_match; try done); by simplify_eq/=.
  - destruct (b_closed b); [done|]. simplify_eq. unfold Write.
    repeat case_match; simpl; try (exists []; by rewrite app_nil_r). by eexists.
Qed.

Lemma run_accepted ls b b' : run ls b = Some b' → ∃ l, b_accepted b' = b_accepted b ++ l.
Proof.
  revert b. induction ls as [|l ls IH]; intros b Hrun; simpl in Hrun.
  { simplify_eq. exists []. by rewrite app_nil_r. }
  destruct (exec l b) as [b1|] eqn:He; [|done].
  destruct (accepted_mono b b1) as [k1 Hk1]; [by exists l|].
  destruct (IH _ Hrun) as [k2 Hk2]. exists (k1 ++ k2). by rewrite Hk2, Hk1, app_assoc.
Qed.

Lemma reachable_inv b : reachable b → Forall valid_req (b_accepted b) → Inv b.
Proof.
  induction 1 as [file now Hfile|b b' Hr IH Hst]; intros Hv; [by exists [], []; apply inv_init|].
  destruct (accepted_mono _ _ Hst) as [l Hl]. rewrite Hl in Hv. apply Forall_app in Hv as [Hv _].
  destruct (IH Hv) as (outs & lost & Hinv).
  destruct (inv_step _ _ _ _ Hst Hv Hinv) as (outs' & lost' & Hinv' & _). by exists outs', lost'.
Qed.
End inv.
