(* ===== verification/BufferSpec.v ===== *)
(** * What the span buffer promises

    The control invariant of the two goroutines, the abstract specification of
    the buffer as a bag of pending requests, and the simulation that relates the
    transition system of [SpanBuffer] to it. *)

From S2P Require Import Prelude Bytes Format Ring Interest Writer Sweeper SpanBuffer BufferInv.

(** ** Control: which goroutine waits for what *)
Section control.
Context {cfg : BufCfg}.

(** The last flush of the drain loop. *)
Definition final_pc (pc : wpc) : bool :=
  match pc with WFlush KFinal | WWake (Some KFinal) | WExit => true | _ => false end.

Definition waking (pc : wpc) : bool := match pc with WWake _ => true | _ => false end.

Record ctl (b : SpanBuffer) : Prop := {
  ctl_drain : w_drain (b_writer b) = true → b_closed b = true;
  ctl_final : final_pc (w_pc (b_writer b)) = true →
                w_drain (b_writer b) = true ∧ b_writeCh b = [];
  ctl_closing : s_closing (b_sweeper b) = true → w_pc (b_writer b) = WExit;
  ctl_sexit : s_pc (b_sweeper b) = SExit → s_closing (b_sweeper b) = true ∧ b_used b = 0;
  ctl_empty : s_pc (b_sweeper b) = SEmpty → b_used b ≠ 0 →
                b_wakeup b = true ∨ waking (w_pc (b_writer b)) = true;
  ctl_interest : wf (b_interest b) ∧ before_now (b_now b) (b_interest b);
}.

(** The functions of the writer keep [draining], and end the goroutine
    after the final flush only. *)
Definition keeps (w w' : writer) : Prop :=
  w_drain w' = w_drain w ∧ final_pc (w_pc w') = false ∧ waking (w_pc w') = false.

Lemma handle_keeps req w : keeps w (handle req w).
Proof. unfold handle, flush_start, stage_record, large_check, keeps. repeat case_match; done. Qed.

Lemma tick_keeps w : keeps w (tick w).
Proof. unfold tick, flush_start, keeps. repeat case_match; done. Qed.

Lemma after_flush_keeps k closed w :
  w_drain (after_flush k closed w) = w_drain w ∧ waking (w_pc (after_flush k closed w)) = false ∧
  final_pc (w_pc (after_flush k closed w)) = match k with KFinal => true | _ => false end.
Proof. unfold after_flush, stage_record, large_check. repeat case_match; done. Qed.

Lemma drain_done_final w :
  w_drain (drain_done w) = w_drain w ∧ waking (w_pc (drain_done w)) = false ∧
  (final_pc (w_pc (drain_done w)) = true ∨ w_pc (drain_done w) = WPanic).
Proof. unfold drain_done, flush_start. repeat case_match; simpl; auto. Qed.

Lemma write_chunks_true fuel i d off stage head f :
  (write_chunks fuel (λ _, true) i d off stage head f).2 = true.
Proof.
  revert i off stage head f. induction fuel as [|fuel IH]; intros; cbn [write_chunks]; [done|].
  destruct (_ <? _); [|done]. by rewrite IH.
Qed.

Lemma large_commit_pc req w f used :
  let w' := (large_commit (λ _, true) req w f used).1.1 in
  w_drain w' = w_drain w ∧ w_pc w' = WWake None.
Proof.
  unfold large_commit.
  pose proof (write_chunks_true (length (data req)) 1 (data req)) as Hok.
  destruct (write_chunks _ _ _ _ _ _ _ _) as [[[st h] f'] ok] eqn:E.
  match type of E with write_chunks _ _ _ _ ?off ?s ?h ?g = _ => specialize (Hok off s h g) end.
  rewrite E in Hok. simpl in Hok. by subst ok.
Qed.

Lemma sweep_control b b' :
  sweep b = Some b' →
  b_writer b' = b_writer b ∧ b_writeCh b' = b_writeCh b ∧ b_closed b' = b_closed b ∧
  b_interest b' = b_interest b ∧ b_now b' = b_now b ∧
  s_closing (b_sweeper b') = s_closing (b_sweeper b) ∧ s_pc (b_sweeper b) ≠ SExit ∧
  (s_pc (b_sweeper b') = SExit → s_closing (b_sweeper b) = true ∧ b_used b' = 0) ∧
  (s_pc (b_sweeper b') = SEmpty → b_used b' = 0).
Proof.
  unfold sweep, sweep_back. intros He.
  destruct (s_pc (b_sweeper b)) eqn:Hpc; try done;
    repeat (case_match; simplify_eq/=); try done; rewrite ?Hpc;
    repeat match goal with H : (_ =? _) = true |- _ => apply Z.eqb_eq in H end; try naive_solver.
Qed.

(** A step of the writer that is not the end of a wait. *)
Lemma ctl_writer b w q :
  ctl b → (w_drain w = true → b_closed b = true) →
  (final_pc (w_pc w) = true → w_drain w = true ∧ q = []) →
  final_pc (w_pc (b_writer b)) = false → waking (w_pc (b_writer b)) = false →
  ctl (set_writeCh q (set_writer w b)).
Proof.
  intros [Hd Hf Hc Hx He Hi] Hd' Hf' Hnf Hnw. constructor; simpl; try done.
  - intros Hcl. apply Hc in Hcl. by rewrite Hcl in Hnf.
  - intros Hpc Hu. destruct (He Hpc Hu) as [?|Hw]; [by left|]. by rewrite Hnw in Hw.
Qed.

Lemma ctl_Select l b b' :
  match l with LRecv | LTick | LSeeClose | LDrained => True | _ => False end →
  exec l b = Some b' → ctl b → ctl b'.
Proof.
  intros Hl He Hctl. destruct l; try done; cbn [exec] in He; destruct (w_pc (b_writer b)) eqn:Hpc; try done.
  - destruct (b_writeCh b) as [|req q] eqn:Hq; [done|]. simplify_eq.
    destruct (handle_keeps req (b_writer b)) as (Hd & Hf & Hw).
    apply ctl_writer; rewrite ?Hpc; try done; [rewrite Hd; apply Hctl|by rewrite Hf].
  - destruct (w_drain (b_writer b)) eqn:Hdr; [done|].
    destruct (tick_keeps (b_writer b)) as (Hd & Hf & Hw).
    remember (tick (b_writer b)) as w eqn:Ew. clear Ew. simplify_eq.
    apply (ctl_writer b w (b_writeCh b)); rewrite ?Hpc; try done; [|by rewrite Hf].
    by rewrite Hd, Hdr.
  - destruct (b_closed b) eqn:Hcl; [|done]. destruct (w_drain _) eqn:Hdr; [done|]. simplify_eq/=.
    apply (ctl_writer b _ (b_writeCh b)); simpl; rewrite ?Hpc; try done.
  - destruct (b_writeCh b) as [|req q] eqn:Hq; [|done]. destruct (w_drain (b_writer b)) eqn:Hdr; [|done].
    destruct (drain_done_final (b_writer b)) as (Hd & Hw & Hf).
    remember (drain_done (b_writer b)) as w eqn:Ew. clear Ew. simplify_eq.
    apply (ctl_writer b w (b_writeCh b)); rewrite ?Hpc, ?Hd, ?Hdr; try done.
    intros _. by apply Hctl.
Qed.

Lemma ctl_Wait l b b' :
  match l with LGiveUp | LCommit | LWake | LWait | LPageFreed => True | _ => False end →
  exec l b = Some b' → ctl b → ctl b'.
Proof.
  intros Hl He Hctl. destruct l; try done; cbn [exec] in He.
  - unfold wait_need in He. destruct (w_pc (b_writer b)) eqn:Hpc; try done; case_match; simplify_eq;
      destruct Hctl; by constructor.
  - unfold wait_need in He. destruct (w_pc (b_writer b)) eqn:Hpc; try done; case_match; simplify_eq;
      destruct Hctl; by constructor.
  - unfold wait_need, writer_give_up, flush_closed in He.
    destruct (w_pc (b_writer b)) as [|k|req|k| |] eqn:Hpc; try done; case_match; simplify_eq.
    + pose proof (after_flush_keeps k true (set_stage (w_stage (b_writer b)) 0 (b_writer b))) as (Hd & Hw & Hf).
      remember (after_flush _ _ _) as w eqn:Ew. clear Ew. simpl in Hd.
      pose proof (ctl_final _ Hctl) as Hfin. rewrite Hpc in Hfin. simpl in Hfin.
      destruct Hctl as [Hdr _ Hc Hx He Hi]. rewrite Hpc in *. constructor; simpl; try done.
      * by rewrite Hd.
      * rewrite Hf, Hd. destruct k; try done; by apply Hfin.
      * intros Hs. by apply Hc in Hs.
      * intros Hs Hu. destruct (He Hs Hu); [by left|done].
    + apply (ctl_writer b _ (b_writeCh b)); simpl; rewrite ?Hpc; try done; apply Hctl.
  - destruct (wait_need _) as [need|] eqn:Hn; [|done]. unfold writer_commit in He.
    unfold wait_need in Hn.
    destruct (w_pc (b_writer b)) as [|k|req|k| |] eqn:Hpc; try done.
    + unfold flush_commit in He. destruct (_ || must_wait _ _); simplify_eq.
      destruct Hctl as [Hdr Hfin Hc Hx He Hi]. rewrite Hpc in *.
      constructor; simpl; try done; [| |by right].
      * intros Hs. by apply Hc in Hs.
      * intros Hs. apply Hx in Hs as [Hs _]. by apply Hc in Hs.
    + pose proof (large_commit_pc req (b_writer b) (b_file b) (b_used b)) as [Hd Hw].
      destruct (large_commit _ _ _ _ _) as [[w f] u]. simpl in Hd, Hw.
      destruct (_ || must_wait _ _); simplify_eq.
      destruct Hctl as [Hdr Hfin Hc Hx He Hi]. rewrite Hpc in *.
      constructor; simpl; rewrite ?Hd, ?Hw; try done; [| |by right].
      * intros Hs. by apply Hc in Hs.
      * intros Hs. apply Hx in Hs as [Hs _]. by apply Hc in Hs.
  - destruct (w_pc (b_writer b)) as [|k|req|k| |] eqn:Hpc; try done. simplify_eq.
    destruct Hctl as [Hdr Hfin Hc Hx He Hi]. rewrite Hpc in *. destruct k as [k|]; simpl.
    + destruct (after_flush_keeps k false (b_writer b)) as (Hd & Hw & Hf).
      remember (after_flush _ _ _) as w eqn:Ew. clear Ew.
      constructor; simpl; rewrite ?Hd, ?Hf; try done.
      * intros Hs. by apply Hc in Hs.
      * intros _ _. by left.
    + constructor; simpl; try done; [|by left]. intros Hs. apply Hc in Hs. done.
Qed.

Lemma ctl_step b b' : step b b' → ctl b → ctl b'.
Proof.
  intros [l He] Hctl.
  destruct l; try (by eapply ctl_Select in He); try (by eapply ctl_Wait in He); cbn [exec] in He.
  - destruct (b_closed b) eqn:Hcl; [done|]. simplify_eq. unfold Write.
    destruct Hctl as [Hdr Hfin Hc Hx He Hi].
    assert (final_pc (w_pc (b_writer b)) = true → False) as Hnf.
    { intros Hf. apply Hfin in Hf as [Hf _]. apply Hdr in Hf. congruence. }
    repeat case_match; constructor; simpl; try done; intros Hf; by apply Hnf in Hf.
  - simplify_eq. destruct Hctl as [Hdr Hfin Hc Hx He [Hi1 Hi2]]. constructor; simpl; try done.
    split; [by apply AddInterest_wf|by apply AddInterest_before].
  - destruct (b_wakes b); simplify_eq. destruct Hctl as [Hdr Hfin Hc Hx He Hi].
    constructor; simpl; try done. by left.
  - repeat case_match; simplify_eq. destruct Hctl as [Hdr Hfin Hc Hx He Hi].
    constructor; simpl; try done. by left.
  - destruct (Z.leb_spec (b_now b) t); simplify_eq. destruct Hctl as [Hdr Hfin Hc Hx He [Hi1 Hi2]].
    constructor; simpl; try done. split; [done|]. intros el Hel. specialize (Hi2 el Hel). lia.
  - destruct (b_closed b) eqn:Hcl; [done|]. simplify_eq. destruct Hctl as [Hdr Hfin Hc Hx He Hi].
    constructor; simpl; try done.
  - apply sweep_control in He as (Ew & Eq & Ecl & Ei & En & Es & Hne & Hx' & He').
    destruct Hctl as [Hdr Hfin Hc Hx He Hi].
    constructor; rewrite ?Ew, ?Eq, ?Ecl, ?Ei, ?En, ?Es; try done. intros Hs Hu. by apply He' in Hs.
  - destruct (sweep_selects b && b_wakeup b); simplify_eq. by destruct Hctl.
  - destruct (sweep_selects b); [|done]. simpl in He. unfold writerDone in He.
    destruct (w_pc (b_writer b)) eqn:Hpc; simplify_eq. destruct Hctl. by constructor.
Qed.

Lemma ctl_run ls b b' : ctl b → run ls b = Some b' → ctl b'.
Proof.
  revert b. induction ls as [|l ls IH]; intros b Hctl Hrun; simpl in Hrun; [by simplify_eq|].
  destruct (exec l b) as [b1|] eqn:He; [|done].
  apply (IH b1); [|done]. eapply ctl_step; [by exists l|done].
Qed.

Lemma reachable_ctl b : reachable b → ctl b.
Proof.
  induction 1 as [file now Hf|b b' Hr IH Hst]; [|by eapply ctl_step].
  constructor; simpl; try done. split; [apply wf_empty|]. intros el Hel. by apply not_elem_of_nil in Hel.
Qed.
End control.

(** ** The abstract buffer: a bag of pending requests *)
Section spec.
Context {cfg : BufCfg} {Hok : BufCfgOk cfg}.

Record bag := Bag {
  a_pending : list writeReq;           (* in no order *)
  a_interest : gmap TraceID Time;      (* when each trace was decided *)
  a_now : Time;
  a_load : Z;                          (* occupied bytes *)
  a_closed : bool;
  a_events : list event;
}.

(** A record is interesting if its trace was decided before the record's own
    retention window closed. *)
Definition a_interesting (m : gmap TraceID Time) (r : writeReq) : bool :=
  match m !! traceID r with None => false | Some t => t <? insertedAt r + decisionWait end.

Inductive spec_step : bag → bag → Prop :=
| spec_accept r p m now load evs :
    fits r → spec_step (Bag p m now load false evs) (Bag (p ++ [r]) m now load false evs)
| spec_interest tid p m now load cl evs :
    spec_step (Bag p m now load cl evs) (Bag p (spec_add decisionWait tid now m) now load cl evs)
| spec_time t p m now load cl evs :
    now <= t → spec_step (Bag p m now load cl evs) (Bag p m t load cl evs)
| spec_load l p m now load cl evs :
    0 <= l <= maxBytes → spec_step (Bag p m now load cl evs) (Bag p m now l cl evs)
| spec_close p m now load evs :
    spec_step (Bag p m now load false evs) (Bag p m now load true evs)
| spec_deliver r p p' m now load cl evs :
    p ≡ₚ p' ++ [r] → a_interesting m r = true →
    spec_step (Bag p m now load cl evs)
              (Bag p' m now load cl (evs ++ [EMatch (traceID r) (data r)]))
| spec_evict r p p' m now load cl evs :
    p ≡ₚ p' ++ [r] → a_interesting m r = false →
    (decisionWait <= time_sub now (insertedAt r) ∨ Z.quot (maxBytes * 3) 4 < load ∨ cl = true) →
    spec_step (Bag p m now load cl evs)
              (Bag p' m now load cl (evs ++ [EEvict (time_sub now (insertedAt r))]))
| spec_drop l p p' m now load evs :
    p ≡ₚ p' ++ l → spec_step (Bag p m now load true evs) (Bag p' m now load true evs).

(** The abstraction relation. *)
Definition simulates (b : SpanBuffer) (a : bag) : Prop :=
  ∃ outs lost, InvO outs lost b ∧ ctl b ∧
    b_accepted b ≡ₚ a_pending a ++ outs.*1 ++ lost ∧
    a_interest a = Interest.abs (b_interest b) ∧ a_now a = b_now b ∧
    a_load a = b_used b ∧ a_closed a = b_closed b ∧ a_events a = all_events b.

Lemma interesting_abs b r :
  hasInterestForSpanRLocked decisionWait (traceID r) (insertedAt r) (b_interest b) =
  a_interesting (Interest.abs (b_interest b)) r.
Proof. apply hasInterestForSpan_abs. Qed.

Lemma inv_used outs lost b : InvO outs lost b → 0 <= b_used b <= maxBytes.
Proof.
  intros (us & cur & rs & Hinv). pose proof (inv_ring _ _ _ _ _ _ Hinv) as Hr.
  split; [by eapply rh_nonneg|apply (rh_le _ _ _ _ Hr)].
Qed.

Lemma inv_all_events outs lost b : InvO outs lost b → all_events b = outs.*2.
Proof. by intros (us & cur & rs & []). Qed.

(** The steps of the goroutines leave the parts clients see alone. *)
Definition internal (l : label) : Prop :=
  match l with
  | LWrite _ | LAddInterest _ | LTime _ | LClose => False
  | _ => True
  end.

Lemma internal_frame l b b' :
  internal l → exec l b = Some b' →
  b_accepted b' = b_accepted b ∧ b_interest b' = b_interest b ∧ b_now b' = b_now b ∧
  b_closed b' = b_closed b.
Proof.
  intros Hl He.
  destruct l; try done; try (cbn [exec] in He; repeat (case_match; try done); by simplify_eq/=).
  cbn [exec] in He. pose proof (sweep_accepted _ _ He). apply sweep_control in He. tauto.
Qed.

(** What is pending in the state of the goroutines. *)
Lemma inv_pending outs lost b :
  InvO outs lost b → ∃ p, b_accepted b ≡ₚ p ++ outs.*1 ++ lost.
Proof.
  intros (us & cur & rs & Hinv).
  exists (b_writeCh b ++ inflight (b_writer b) ++ rs ++ alive_reqs cur ++ units_live (tail us)).
  rewrite (inv_where _ _ _ _ _ _ Hinv). by rewrite <- !app_assoc.
Qed.

(** A callback or a drop, in the abstract buffer. *)
Lemma effect_spec b outs lost outs' lost' p p' m evs :
  effect b outs lost outs' lost' → ctl b → m = Interest.abs (b_interest b) →
  b_accepted b ≡ₚ p ++ outs.*1 ++ lost → b_accepted b ≡ₚ p' ++ outs'.*1 ++ lost' → evs = outs.*2 →
  ∃ p'', rtc spec_step (Bag p m (b_now b) (b_used b) (b_closed b) evs)
                       (Bag p'' m (b_now b) (b_used b) (b_closed b) (outs'.*2)) ∧
    p'' ≡ₚ p'.
Proof.
  intros Heff Hctl -> Hp Hp' ->.
  pose proof (ctl_closing _ Hctl) as Hc. pose proof (ctl_drain _ Hctl) as Hd.
  pose proof (ctl_final _ Hctl) as Hf.
  destruct Heff as [|o Hj|rs Hcl _ _].
  - exists p. split; [apply rtc_refl|]. rewrite Hp in Hp'. perm_solve Hp'.
  - exists p'. split; [|done]. rewrite fmap_app. apply rtc_once.
    assert (p ≡ₚ p' ++ [o.1]) as Hpp by (rewrite Hp in Hp'; perm_solve Hp').
    destruct o as [r ev]. unfold justified in Hj. cbn [fst snd] in *. rewrite interesting_abs in Hj.
    destruct ev as [tid payload|age].
    + destruct Hj as (-> & -> & Hi). by apply spec_deliver.
    + destruct Hj as (Hi & -> & Hage). apply spec_evict; [done|done|].
      destruct Hage as [?|[?|Hcl]]; [by left|by right; left|right; right].
      apply Hd, Hf. by rewrite (Hc Hcl).
  - exists p'. split; [|done]. apply rtc_once. rewrite Hcl. apply (spec_drop (inflight (b_writer b) ++ rs)).
    rewrite Hp in Hp'. perm_solve Hp'.
Qed.

Lemma simulates_internal l b b' a :
  internal l → exec l b = Some b' → Forall valid_req (b_accepted b) → simulates b a →
  ∃ a', rtc spec_step a a' ∧ simulates b' a'.
Proof.
  intros Hl He Hv (outs & lost & Hinv & Hctl & Hp & Hi & Hn & Hld & Hcl & Hev).
  assert (step b b') as Hst by (by exists l).
  destruct (internal_frame _ _ _ Hl He) as (Eacc & Eint & Enow & Ecl).
  destruct (inv_step _ _ _ _ Hst Hv Hinv) as (outs' & lost' & Hinv' & Heff).
  destruct (inv_pending _ _ _ Hinv') as (p' & Hp'). rewrite Eacc in Hp'.
  rewrite (inv_all_events _ _ _ Hinv) in Hev.
  destruct (effect_spec _ _ _ _ _ _ _ _ _ Heff Hctl Hi Hp Hp' Hev) as (p'' & Hrtc & Hpp).
  exists (Bag p'' (a_interest a) (b_now b) (b_used b') (b_closed b) (outs'.*2)). split.
  - destruct a as [ap am an al acl aev]. simpl in *. subst an al acl.
    etransitivity; [exact Hrtc|]. apply rtc_once, spec_load. by eapply inv_used.
  - exists outs', lost'. split; [done|]. split; [by eapply ctl_step|]. simpl.
    rewrite Eacc, Eint, Enow, Ecl. split; [by rewrite Hpp|]. split; [done|]. split; [done|].
    split; [done|]. split; [done|]. by rewrite (inv_all_events _ _ _ Hinv').
Qed.

Lemma simulates_client l b b' a :
  ¬ internal l → exec l b = Some b' → simulates b a →
  ∃ a', rtc spec_step a a' ∧ simulates b' a'.
Proof.
  intros Hl He (outs & lost & Hinv & Hctl & Hp & Hi & Hn & Hld & Hcl & Hev).
  assert (ctl b') as Hctl' by (eapply ctl_step; [by exists l|done]).
  assert (InvO outs lost b') as Hinv' by (apply (inv_client _ _ l b b'); [by destruct l; first [exact I|exfalso; apply Hl; exact I]|done|done]).
  assert (∀ a', rtc spec_step a a' →
    b_accepted b' ≡ₚ a_pending a' ++ outs.*1 ++ lost →
    a_interest a' = Interest.abs (b_interest b') → a_now a' = b_now b' →
    a_load a' = b_used b' → a_closed a' = b_closed b' → a_events a' = all_events b' →
    ∃ a', rtc spec_step a a' ∧ simulates b' a') as Hgo.
  { intros a' ? ? ? ? ? ? ?. exists a'. split; [done|]. by exists outs, lost. }
  destruct a as [ap am an al acl aev]. simpl in *. subst an al acl aev am.
  destruct l as [req|tid| | |t| | | | | | | | | | | | |]; try (exfalso; apply Hl; exact I); cbn [exec] in He.
  - destruct (b_closed b) eqn:Ecl; [done|]. simplify_eq. unfold Write in *.
    destruct ((pageSize <? recSize req) && (maxBytes <? _)) eqn:Hbig; [by eapply Hgo|].
    destruct (Z.ltb_spec (len (b_writeCh b)) pageCount) as [Hq|]; [|by eapply Hgo].
    eapply (Hgo (Bag (ap ++ [req]) _ _ _ _ _)); [apply rtc_once, spec_accept| |try done..].
    + unfold fits. apply andb_false_iff in Hbig as [Hb%Z.ltb_ge|Hb%Z.ltb_ge]; auto.
    + simpl. rewrite Hp. by solve_Permutation.
  - simplify_eq. eapply (Hgo (Bag ap _ _ _ _ _)); [apply rtc_once, (spec_interest tid)|try done..].
    simpl. symmetry. apply AddInterest_abs, Hctl.
  - destruct (Z.leb_spec (b_now b) t); simplify_eq.
    eapply (Hgo (Bag ap _ _ _ _ _)); [apply rtc_once, (spec_time t); done|try done..].
  - destruct (b_closed b) eqn:Ecl; [done|]. simplify_eq.
    eapply (Hgo (Bag ap _ _ _ _ _)); [apply rtc_once, spec_close|try done..].
Qed.

Lemma decide_internal l : internal l ∨ ¬ internal l.
Proof. destruct l; simpl; auto. Qed.

Lemma simulates_run ls b b' a a0 :
  rtc spec_step a0 a → simulates b a → run ls b = Some b' → Forall valid_req (b_accepted b') →
  ∃ a', rtc spec_step a0 a' ∧ simulates b' a'.
Proof.
  revert b a. induction ls as [|l ls IH]; intros b a Hrtc Hs Hrun Hv; simpl in Hrun.
  { simplify_eq. by exists a. }
  destruct (exec l b) as [b1|] eqn:He; [|done].
  assert (∃ k, b_accepted b' = b_accepted b ++ k) as [k Hk].
  { destruct (accepted_mono b b1) as [k1 Hk1]; [by exists l|].
    destruct (run_accepted _ _ _ Hrun) as [k2 Hk2]. exists (k1 ++ k2).
    by rewrite Hk2, Hk1, app_assoc. }
  assert (Forall valid_req (b_accepted b)) as Hvb by (rewrite Hk in Hv; by apply Forall_app in Hv as [? _]).
  assert (∃ a', rtc spec_step a a' ∧ simulates b1 a') as (a' & Hrtc' & Hs').
  { destruct (decide_internal l); [by eapply simulates_internal|by eapply simulates_client]. }
  apply (IH b1 a'); [by transitivity a|done|done|done].
Qed.

(** The operations of the clients make no callbacks. *)
Lemma client_events l b b' : ¬ internal l → exec l b = Some b' → all_events b' = all_events b.
Proof.
  intros Hl He. destruct l; try (exfalso; apply Hl; exact I); cbn [exec] in He;
    repeat (case_match; try done); simplify_eq; try done.
  unfold Write. repeat case_match; done.
Qed.

(** Where the accepted requests are that had no callback and were not dropped. *)
Lemma placed outs lost b :
  InvO outs lost b →
  ∃ pending, b_accepted b ≡ₚ pending ++ outs.*1 ++ lost ∧
    (b_writeCh b = [] → inflight (b_writer b) = [] → w_stageN (b_writer b) = 0 → b_used b = 0 → pending = []).
Proof.
  intros (us & cur & rs & Hinv).
  exists (b_writeCh b ++ inflight (b_writer b) ++ rs ++ alive_reqs cur ++ units_live (tail us)).
  destruct Hinv as [Hrg Hh [Hst _] Hs Ha Hev Ho Hwhere Hl Hf Hq].
  split; [by rewrite Hwhere, <- !app_assoc|].
  intros -> -> Hn Hu. rewrite (stage_empty _ _ Hst Hn).
  assert (us = []) as -> by (by eapply rh_zero).
  assert (cur = []) as ->; [|done]. unfold sweeper_inv in Hs.
  destruct (s_pc _); try done; by destruct Hs as (? & ? & ? & _).
Qed.

(** Where the accepted requests are. *)
Lemma conserved b :
  reachable b → Forall valid_req (b_accepted b) →
  ∃ pending outs lost,
    b_accepted b ≡ₚ pending ++ outs.*1 ++ lost ∧ all_events b = outs.*2 ∧ Forall outcome_ok outs ∧
    (b_closed b = false → lost = []) ∧
    (b_writeCh b = [] → inflight (b_writer b) = [] → w_stageN (b_writer b) = 0 → b_used b = 0 →
     pending = []).
Proof.
  intros Hr Hv. destruct (reachable_inv _ Hr Hv) as (outs & lost & Hinv).
  destruct (placed _ _ _ Hinv) as (pending & Hp & Hq). exists pending, outs, lost.
  destruct Hinv as (us & cur & rs & Hinv). split; [done|]. split; [apply Hinv|]. split; [apply Hinv|]. split; [apply Hinv|done].
Qed.
End spec.
