(* ===== verification/Demo.v ===== *)
(** * A small buffer for the examples

    A configuration of five pages of 64 bytes, three requests and some runs,
    on which the theorems about the span buffer are instantiated. *)

From S2P Require Import Prelude Bytes Format Ring Interest Writer Sweeper SpanBuffer.

#[export] Instance cfg : BufCfg | 100 := MkBufCfg 64 320 10.

#[export] Instance cfg_ok : BufCfgOk cfg.
Proof.
  split; unfold hdrSize, max_i64; simpl; try lia. exists 5. lia.
Qed.

Definition tid (b : byte) : TraceID := b :: replicate 15 x01.
Definition r1 : writeReq := WriteReq (tid x0a) [x61; x62] 1.
Definition r2 : writeReq := WriteReq (tid x0b) [x63] 2.
Definition r3 : writeReq := WriteReq (tid x0c) (replicate 70 x64) 3.

Definition start : SpanBuffer := init_buffer (zeroes 320) 0.

(** Two small records share a page, the large one takes two. *)
Definition written : list label :=
  [LWrite r1; LWrite r2; LWrite r3; LRecv; LRecv; LRecv; LCommit; LWake; LCommit; LWake].

(** The trace of the large record is decided at 5; the sweeper finds the first
    page too young, and wakes up at 20. *)
Definition swept : list label :=
  written ++ [LTime 5; LAddInterest (tid x0c)] ++ replicate 6 LSweep
    ++ [LTime 20; LWakeSend; LSweepWakeup] ++ replicate 13 LSweep.

Definition closed : list label :=
  swept ++ [LClose; LSeeClose; LDrained; LSweepDone; LSweep].

Definition after (ls : list label) : SpanBuffer := default start (run ls start).

Lemma start_file : len (zeroes 320) = maxBytes.
Proof. reflexivity. Qed.

Lemma demo_reachable ls : is_Some (run ls start) → reachable (after ls).
Proof.
  intros [b Hb]. apply (run_reachable ls start); [unfold after; by rewrite Hb|].
  apply reach_init, start_file.
Qed.

(** Closes [Forall valid_req l] for a list that computes to known requests. *)
Ltac valid_tac :=
  match goal with |- Forall _ ?l => let l' := eval vm_compute in l in change (Forall valid_req l') end;
  repeat constructor; try discriminate; try reflexivity; vm_compute; intuition discriminate.

