(* ===== verification/PageProps.v ===== *)
(** * The operations of the span buffer, one by one

    [New], [Write], [processPage] on the two kinds of units, the commit of a
    large record, and what failing writes do to the goroutines. *)

From S2P Require Import Prelude Bytes Format Ring Interest Writer Sweeper SpanBuffer Demo.

(** Computes the length of nested copies. *)
Ltac copy_len :=
  repeat match goal with
  | |- context [len (copy_at ?d ?i ?s)] =>
      let H := fresh in
      assert (len (copy_at d i s) = len d) as H by (apply length_copy_at; copy_len; len_lia);
      rewrite H; clear H
  end.

(** ** New *)

(** The capacity in whole pages. *)
Lemma capacity_round max page :
  0 < page → 0 <= max → max / page * page <= max < max / page * page + page.
Proof. intros. split; dm_lia. Qed.

(** The buffer [New] returns. *)
Lemma New_ok page env max dw now cfg b :
  hdrSize < page → 0 <= max → 3 * max <= max_i64 → dw <= max_i64 →
  (∀ content n, env_truncate env = Some content → 0 <= n → len (content n) = n) →
  New page env max dw now = inr (cfg, b) →
  BufCfgOk cfg ∧ @pageSize cfg = page ∧ @decisionWait cfg = dw ∧
  @maxBytes cfg = max / page * page ∧ @reachable cfg b.
Proof.
  unfold New, hdrSize. intros Hp H0 Hmax Hdw Hcontent. rewrite !Z.quot_div_nonneg by lia. intros Hnew.
  pose proof (capacity_round max page ltac:(lia) H0) as Hround.
  destruct (Z.leb_spec dw 0); [done|]. destruct (Z.ltb_spec (max / page * page) (2 * page)); [done|].
  destruct (env_open env); [|done]. destruct (env_flock env); try done. simpl in Hnew.
  destruct (env_truncate env) as [content|] eqn:Ht; [|done]. simplify_eq. simpl.
  assert (BufCfgOk (MkBufCfg page (max / page * page) dw)) as Hok.
  { split; unfold hdrSize; simpl; [lia| |lia|lia]. exists (max / page).
    split; [apply Z.div_le_lower_bound; lia|done]. }
  split; [done|]. split; [done|]. split; [done|]. split; [done|].
  apply reach_init. apply Hcontent; [done|].
  apply Z.mul_nonneg_nonneg; [apply Z.div_pos|]; lia.
Qed.

(** [New] succeeds exactly if the window is positive, the capacity at least
    two pages, and the file can be opened, locked and resized. The buffer it
    returns has the requested window, the requested capacity rounded down to
    whole pages, a file of that size, and satisfies everything the other theorems
    assume of a buffer. *)
Theorem New_spec page env max dw now :
  hdrSize < page → 0 <= max → 3 * max <= max_i64 → dw <= max_i64 →
  (∀ content n, env_truncate env = Some content → 0 <= n → len (content n) = n) →
  (is_Some (maybe inr (New page env max dw now)) ↔
     0 < dw ∧ 2 * page <= max ∧ env_open env = true ∧ env_flock env = FlockOk ∧
     is_Some (env_truncate env)) ∧
  ∀ cfg b, New page env max dw now = inr (cfg, b) →
    BufCfgOk cfg ∧ @pageSize cfg = page ∧ @decisionWait cfg = dw ∧
    @maxBytes cfg <= max < @maxBytes cfg + page ∧ @reachable cfg b.
Proof.
  intros Hp H0 Hmax Hdw Hcontent. pose proof (capacity_round max page ltac:(unfold hdrSize in *; lia) H0) as Hround.
  split.
  - unfold New, hdrSize in *. rewrite !Z.quot_div_nonneg by lia.
    assert (max / page * page < 2 * page ↔ max < 2 * page) as Htwo.
    { split; [|lia]. intros ?. destruct (decide (max < 2 * page)); [done|].
      assert (2 <= max / page) by (apply Z.div_le_lower_bound; lia). nia. }
    destruct (Z.leb_spec dw 0); [split; [by intros []|lia]|].
    destruct (Z.ltb_spec (max / page * page) (2 * page)); [split; [by intros []|lia]|].
    destruct (env_open env), (env_flock env), (env_truncate env) eqn:Ht; simpl;
      (split; [intros [? [=]]|intros (? & ? & ? & ? & ?)]); try done.
    split; [done|]. split; [lia|]. split; [done|]. split; [done|]. by eexists.
  - intros cfg b Hnew. destruct (New_ok _ _ _ _ _ _ _ Hp H0 Hmax Hdw Hcontent Hnew) as (H1 & H2 & H3 & H4 & H5).
    split; [done|]. split; [done|]. split; [done|]. by rewrite H4.
Qed.

Section ops.
Context {cfg : BufCfg} {Hok : BufCfgOk cfg}.

(** ** Write *)

(** [Write] accepts a request exactly if its record fits the file and the
    queue is not full; then it appends the request to the queue, and otherwise
    it changes nothing. *)
Theorem Write_spec req b :
  let fits := recSize req <= pageSize ∨ numChunks (len (data req)) * pageSize <= maxBytes in
  let room := len (b_writeCh b) < pageCount in
  (fst (Write req b) = true ↔ fits ∧ room) ∧
  (fst (Write req b) = true →
     b_writeCh (snd (Write req b)) = b_writeCh b ++ [req] ∧
     b_file (snd (Write req b)) = b_file b ∧ b_used (snd (Write req b)) = b_used b) ∧
  (fst (Write req b) = false → snd (Write req b) = b).
Proof.
  intros fits room. subst fits room. unfold Write.
  destruct (Z.ltb_spec pageSize (recSize req)); simpl;
    [destruct (Z.ltb_spec maxBytes (numChunks (len (data req)) * pageSize)); simpl|];
    destruct (Z.ltb_spec (len (b_writeCh b)) pageCount); simpl; intuition (lia || done).
Qed.

(** ** processPage *)

Lemma page_fuel l : unit_ok (UPage l) → (length l < Z.to_nat pageSize)%nat.
Proof.
  intros [Hv Hfit]. simpl in *. pose proof (slots_image_length_bound l Hv). pose proof cfg_page.
  unfold hdrSize in *. lia.
Qed.

Lemma processPage_slots views file rHead used closing l :
  unit_ok (UPage l) →
  let press := pressure used closing in
  let l' := sweep_slots views 0 press l in
  let evs := sweep_events views 0 press l in
  let '(sc, file') := processPage views file rHead used closing (page_image l) in
  sc_events sc = evs ∧ sc_full sc = all_dead l' ∧ sc_chunks sc = 1 ∧
  sc_minRem sc = sweep_min views 0 press l 0 ∧
  file' = if decide (evs = []) then file else copy_at file rHead (page_image l').
Proof.
  intros Hu press l' evs. pose proof (page_fuel l Hu) as Hfuel. destruct Hu as [Hv Hfit]. simpl in *.
  unfold processPage. fold press.
  rewrite (page_loop_slots _ _ _ _ _ _ _ [] l); simpl; try done.
  - fold l' evs. split; [done|]. split; [done|]. split; [done|]. split; [done|].
    unfold page_image. rewrite Z.sub_0_r.
    assert (len (slots_image l') = len (slots_image l)) as -> by (by apply sweep_slots_image_len).
    case_bool_decide; case_decide; done.
  - unfold page_image. do 2 f_equal. lia.
Qed.

(** C35: on a page of small records [processPage] does what a pass over the list
    of its records does: each pending record gets its verdict from the interest
    set and the clock as they are when its turn comes, the callbacks are made in
    the order of the records with their exact payloads, the page written back
    holds the same records with the processed ones marked, it is reported as
    consumed exactly if no record is left, and otherwise the remaining time is
    the shortest of those left. *)
Theorem processPage_page views file rHead used closing l :
  unit_ok (UPage l) →
  let press := pressure used closing in
  let l' := sweep_slots views 0 press l in
  let evs := sweep_events views 0 press l in
  let '(sc, file') := processPage views file rHead used closing (page_image l) in
  sc_events sc = evs ∧ sc_full sc = all_dead l' ∧ sc_chunks sc = 1 ∧
  sc_minRem sc = sweep_min views 0 press l 0 ∧
  file' = if decide (evs = []) then file else copy_at file rHead (page_image l').
Proof. apply processPage_slots. Qed.

(** *** What [handle] writes, [processPage] reads *)

Lemma stage_records rs w rs0 :
  stage_ok rs0 w → Forall valid_req rs → w_stageN w + len (slots_image (fresh_slot <$> rs)) <= pageSize →
  stage_ok (rs0 ++ rs) (foldl (λ w r, stage_record r w) w rs).
Proof.
  revert w rs0. induction rs as [|r rs IH]; intros w rs0 Hst Hv Hfit; [by rewrite app_nil_r|].
  apply Forall_cons in Hv as [Hr Hv]. rewrite fmap_cons, slots_image_cons, len_app in Hfit.
  pose proof (length_slot_image (fresh_slot r) (valid_tid _ Hr)) as Hsz. unfold slot_size in Hsz. simpl in Hsz.
  destruct (stage_record_spec r rs0 w Hst Hr) as [Hst' _]; [lia|].
  change (r :: rs) with ([r] ++ rs). rewrite app_assoc. simpl. apply IH; [done|done|].
  rewrite (stage_n _ _ Hst'), fmap_app, slots_image_app, len_app, <- (stage_n _ _ Hst).
  simpl. unfold slots_image at 1. simpl. rewrite app_nil_r. lia.
Qed.

Lemma sweep_all_match views i press rs :
  (∀ j r, rs !! j = Some r →
     hasInterestForSpanRLocked decisionWait (traceID r) (insertedAt r) (v_interest (views (i + j)%nat)) = true) →
  sweep_events views i press (fresh_slot <$> rs) = (λ r, EMatch (traceID r) (data r)) <$> rs
  ∧ all_dead (sweep_slots views i press (fresh_slot <$> rs)) = true.
Proof.
  revert i. induction rs as [|r rs IH]; intros i Hi; [done|].
  pose proof (Hi 0%nat r eq_refl) as H0. rewrite Nat.add_0_r in H0.
  assert (slot_verdict (views i) press (fresh_slot r) = VMatch) as Hd
    by (unfold slot_verdict; cbn [sl_dead fresh_slot sl_req]; by rewrite H0).
  rewrite !fmap_cons. cbn [sweep_events sweep_slots]. unfold all_dead in *. cbn [forallb]. rewrite Hd.
  destruct (IH (S i)) as [-> ->]; [|done].
  intros j r' Hj. rewrite <- (Hi (S j) r' Hj). do 3 f_equal. lia.
Qed.

(** C14: What [handle] puts into a page, [processPage] reads back. For any list of
    valid records that fit a page together, staged one after the other and
    flushed, a pass over the page at a time when all of them are of interest
    hands out exactly their trace identifiers and payloads, in the order in
    which they were written, and consumes the page. *)
Theorem page_roundtrip rs views file rHead used closing :
  Forall valid_req rs → len (slots_image (fresh_slot <$> rs)) <= pageSize →
  (∀ i r, rs !! i = Some r →
     hasInterestForSpanRLocked decisionWait (traceID r) (insertedAt r) (v_interest (views i)) = true) →
  let page := w_stage (flush_start KTick (foldl (λ w r, stage_record r w) init_writer rs)) in
  let '(sc, _) := processPage views file rHead used closing page in
  sc_events sc = (λ r, EMatch (traceID r) (data r)) <$> rs ∧ sc_full sc = true.
Proof.
  intros Hv Hfit Hi page.
  pose proof (stage_records rs init_writer [] init_stage_ok Hv ltac:(simpl; lia)) as Hst.
  destruct (flush_start_spec KTick _ _ Hst) as (_ & Hpage & _). simpl in Hpage.
  assert (unit_ok (UPage (fresh_slot <$> rs))) as Hu by (split; [by apply Forall_fmap|done]).
  pose proof (processPage_slots views file rHead used closing _ Hu) as Hp.
  subst page. rewrite Hpage. destruct (processPage _ _ _ _ _ _) as [sc file'].
  destruct Hp as (He & Hf & _). destruct (sweep_all_match views 0 (pressure used closing) rs Hi) as [E1 E2].
  by rewrite He, Hf, E1, E2.
Qed.

(** C36: on a large record [processPage] collects the payload from the chunks of
    the ring, wherever they wrap around the end of the file, gives the record
    its verdict, and if it is processed marks the first chunk and reports all
    its chunks as consumed. *)
Theorem processPage_large views file r used s us closing :
  ring_holds r file used (ULarge s :: us) → sl_dead s = false →
  let d := slot_verdict (views 0%nat) (pressure used closing) s in
  let '(sc, file') := processPage views file r used closing (slice file r (r + pageSize)) in
  sc_events sc = option_list (verdict_event d s) ∧
  match d with
  | VKeep rem => sc_full sc = false ∧ sc_minRem sc = min_remaining 0 rem ∧ file' = file
  | _ => sc_full sc = true ∧ sc_chunks sc = numChunks (len (data (sl_req s))) ∧
         ring_holds r file' used (ULarge (kill s) :: us)
  end.
Proof.
  intros Hr Hd d. pose proof (rh_ok _ _ _ _ Hr) as [Hu Hus]%Forall_cons.
  pose proof Hu as [Hvs Hbig]. simpl in Hvs, Hbig. rewrite Forall_singleton in Hvs.
  assert (unit_chunks (ULarge s) * pageSize <= used) as Hused.
  { rewrite (rh_used _ _ _ _ Hr), units_chunks_cons. pose proof (units_chunks_nonneg _ Hus).
    pose proof page_pos. nia. }
  pose proof cfg_page as Hpg. unfold hdrSize in Hpg. unfold processPage.
  destruct (Z.to_nat pageSize) as [|fuel] eqn:Ef; [lia|]. cbn [page_loop sc_pos scan_start].
  destruct (Z.leb_spec (0 + hdrSize) pageSize) as [_|]; [|unfold hdrSize in *; lia].
  rewrite (page_iter_large _ used _ _ _ _ _ _ Hr Hd Hused). fold d.
  assert (d = VSkip → False) as Hns.
  { subst d. unfold slot_verdict. rewrite Hd. destruct (hasInterestForSpanRLocked _ _ _ _); [done|].
    by destruct (_ || _). }
  assert (ring_holds r (copy_at file r (copy_at (slice file r (r + pageSize)) 0 tombstoneID)) used
    (ULarge (kill s) :: us)) as Hkill.
  { rewrite (ring_head_page _ _ _ _ _ Hr). destruct (large_kill_image s Hvs Hbig) as [Hp1 Hp2].
    eapply ring_update_head; try done. split; simpl; [by constructor|done]. }
  destruct d as [| |age|rem]; [by destruct Hns|..]; simpl; done.
Qed.

(** ** What the code does where it relies on assumptions *)

(** A request with the zero trace identifier, which [Write] accepts, ends
    the sweeper's pass over its page: the records before it get their verdicts,
    the record itself and all records behind it get none, and the page is
    reported as consumed, and hence overwritten, as soon as those before it are. *)
Theorem zero_trace_id_hides_page views file rHead used closing l z post :
  Forall (λ s, valid_req (sl_req s)) l → traceID z = zero_tid →
  len (slots_image l ++ slot_image (fresh_slot z) ++ post) = pageSize →
  let press := pressure used closing in
  let '(sc, _) := processPage views file rHead used closing
                    (slots_image l ++ slot_image (fresh_slot z) ++ post) in
  sc_events sc = sweep_events views 0 press l ∧
  sc_full sc = all_dead (sweep_slots views 0 press l) ∧ sc_chunks sc = 1.
Proof.
  intros Hl Hz Hlen press. unfold processPage. fold press.
  pose proof (slots_image_length_bound l Hl) as Hb. pose proof cfg_page as Hpg.
  assert (len (slot_image (fresh_slot z)) = slot_size (fresh_slot z)) as Hzl
    by (apply length_slot_image; simpl; by rewrite Hz).
  pose proof (slot_size_hdr (fresh_slot z)) as Hsz. rewrite !len_app in Hlen. unfold hdrSize in *.
  rewrite (page_loop_tail _ _ _ _ _ _ _ [] l (slot_image (fresh_slot z) ++ post)); simpl; try done.
  - lia.
  - lia.
  - intros _. unfold slot_image, header, slot_tid. simpl. rewrite Hz. done.
Qed.

(** The second page of a large record. *)
Lemma ring_second_page r f used s us :
  ring_holds r f used (ULarge s :: us) →
  pageSize < used ∧
  slice f ((r + pageSize) mod maxBytes) ((r + pageSize) mod maxBytes + pageSize)
    = slice (large_image s) pageSize (2 * pageSize).
Proof.
  intros Hr. pose proof page_pos. pose proof two_pages.
  pose proof (rh_ok _ _ _ _ Hr) as [Hu Hus]%Forall_cons. pose proof (unit_image_len _ Hu) as Hul.
  pose proof (units_chunks_nonneg _ Hus). pose proof (rh_used _ _ _ _ Hr) as Hused.
  rewrite units_chunks_cons in Hused. destruct Hu as [Hv Hbig]. cbn [unit_slots unit_chunks unit_image] in *.
  unfold slot_size, recSize in Hbig.
  assert (2 <= numChunks (len (data (sl_req s)))) as Hn.
  { pose proof (numChunks_spec (len (data (sl_req s))) ltac:(lia)). nia. }
  split; [nia|].
  pose proof (ring_read_page r f used (ULarge s :: us) pageSize pageSize Hr) as ->;
    [|lia|apply Z.divide_refl|lia|lia].
  destruct (rh_view _ _ _ _ Hr) as [rest ->]. rewrite units_image_cons, <- app_assoc. cbn [unit_image].
  replace (pageSize + pageSize) with (2 * pageSize) by lia.
  rewrite <- (app_nil_l (large_image s ++ _)). apply slice_shift; simpl; nia.
Qed.

(** When a page cannot be read the sweeper skips one page, without a callback
    for its records. After a page of small records it goes on with the next
    unit; but of a large record only the first page is skipped, and the page read
    next is a piece of the record's payload, which [processPage] takes for
    records. *)
Theorem unreadable_page b b' u us :
  ring_holds (s_head (b_sweeper b)) (b_file b) (b_used b) (u :: us) → sweep_unreadable b = Some b' →
  all_events b' = all_events b ∧ b_file b' = b_file b ∧
  let r' := s_head (b_sweeper b') in
  match u with
  | UPage _ => ring_holds r' (b_file b') (b_used b') us
  | ULarge s => 0 < b_used b' ∧
      slice (b_file b') r' (r' + pageSize) = slice (large_image s) pageSize (2 * pageSize)
  end.
Proof.
  intros Hr. unfold sweep_unreadable. destruct (s_pc (b_sweeper b)) eqn:Hpc; try done. intros [= <-].
  pose proof page_pos. pose proof (rh_nonneg _ _ _ _ Hr). pose proof (rh_le _ _ _ _ Hr). pose proof cfg_max.
  pose proof two_pages.
  assert (i64 (b_used b - pageSize) = b_used b - pageSize) as Hi
    by (apply i64_small; unfold is_i64, min_i64, max_i64 in *; lia).
  split; [unfold all_events; simpl; by rewrite Hpc|]. split; [done|]. simpl. rewrite Hi.
  destruct u as [l|s].
  - pose proof (ring_pop _ _ _ _ _ Hr) as Hp. cbn [unit_chunks] in Hp. by rewrite Z.mul_1_l in Hp.
  - destruct (ring_second_page _ _ _ _ _ Hr) as [Hlt E]. split; [lia|done].
Qed.

(** [handle] and the main loop ignore the error [flush] returns, so a
    failing [WriteAt] leaves a stage that has no room for the record [flush] was
    called for. Either the bounds check of [PutUint64] or [PutUint32] fails at
    once, or the stage is overfull, and then the next record, tick or shutdown
    fails in [clear]. *)
Theorem flush_error_panics req w file used :
  len (w_stage w) = pageSize → 0 <= w_stageN w → pageSize < w_stageN w + recSize req →
  let '(w', file', used') := flush_commit false (KSmall req) w file used in
  file' = file ∧ used' = used ∧
  (w_pc w' = WPanic ∨
   (∀ req', w_pc (handle req' w') = WPanic) ∧ w_pc (tick w') = WPanic ∧ w_pc (drain_done w') = WPanic).
Proof.
  intros Hst H0 Hbig. unfold flush_commit, after_flush, stage_record. split; [done|]. split; [done|].
  destruct (Z.ltb_spec (len (w_stage w)) (w_stageN w + hdrSize)); [by left|right].
  set (st := copy_at _ _ _). set (w' := set_pc _ _).
  assert (len (w_stage w') = pageSize) as Hl.
  { subst w' st. simpl. unfold hdrSize in *. copy_len. lia. }
  assert (w_stageN w' = w_stageN w + recSize req) as Hn by done.
  assert (∀ k, w_pc (flush_start k w') = WPanic) as Hfl.
  { intros k. unfold flush_start. destruct (Z.ltb_spec (len (w_stage w')) (w_stageN w')); [done|lia]. }
  pose proof page_pos. unfold handle, tick, drain_done. split; [|split].
  - intros req'. assert (0 <= recSize req') by (unfold recSize, hdrSize; lia).
    destruct (Z.leb_spec (recSize req') pageSize).
    + destruct (Z.ltb_spec pageSize (w_stageN w' + recSize req')); [apply Hfl|lia].
    + destruct (Z.ltb_spec 0 (w_stageN w')); [apply Hfl|lia].
  - destruct (Z.ltb_spec 0 (w_stageN w')); [apply Hfl|lia].
  - destruct (Z.ltb_spec 0 (w_stageN w')); [apply Hfl|lia].
Qed.

(** When the [WriteAt] of a continuation chunk of a large record fails, the
    writer has advanced its offset but not the occupancy, so that from then on
    it writes elsewhere than behind the occupied pages, where the sweeper will
    look for what it writes. *)
Theorem large_error_desyncs io req w file r used :
  io 0%nat = true → io 1%nat = false → pageSize < recSize req →
  len (w_stage w) = pageSize → wf_tid (traceID req) →
  w_head w = (r + used) mod maxBytes →
  let '(w', _, used') := large_commit io req w file used in
  w_pc w' = WSelect ∧ used' = used ∧ w_head w' ≠ (r + used') mod maxBytes.
Proof.
  intros Hio0 Hio1 Hbig Hst Htid Hhead. pose proof page_pos. pose proof two_pages. pose proof cfg_page.
  unfold large_commit. rewrite Hio0. cbn [w_stage set_stage w_head w_stageN].
  set (c := first_chunk req (w_stage w)).
  assert (hdrSize + len (data req) = recSize req) as Hrs by done.
  destruct (length (data req)) as [|fuel] eqn:Ef; [lia|]. cbn [write_chunks].
  assert (copied c hdrSize (data req) < len (data req)) as Hcop.
  { enough (len c = pageSize) by (unfold copied; lia).
    subst c. unfold first_chunk, hdrSize in *. unfold wf_tid in Htid.
    rewrite length_fill_from; unfold copied; copy_len; len_lia. }
  destruct (Z.ltb_spec (copied c hdrSize (data req)) (len (data req))); [|lia].
  rewrite Hio1. simpl. split; [done|]. split; [done|].
  rewrite Hhead, Zplus_mod_idemp_l. intros Heq.
  assert (maxBytes ≠ 0) as Hne by lia.
  pose proof (Z.div_mod (r + used + pageSize) maxBytes Hne) as E1.
  pose proof (Z.div_mod (r + used) maxBytes Hne) as E2. rewrite Heq in E1.
  assert (pageSize = maxBytes * ((r + used + pageSize) / maxBytes - (r + used) / maxBytes)) as Ep by lia.
  revert Ep. generalize ((r + used + pageSize) / maxBytes - (r + used) / maxBytes). intros k Ep.
  assert (0 < k) by nia. nia.
Qed.
End ops.

(** *** Examples on the small buffer *)

Definition demo_env : newEnv := NewEnv true FlockOk (Some zeroes).

Lemma New_spec_witness :
  is_Some (maybe inr (New 64 demo_env 330 10 0)) ∧
  (∀ cfg b, New 64 demo_env 330 10 0 = inr (cfg, b) → BufCfgOk cfg ∧ @maxBytes cfg <= 330).
Proof.
  destruct (New_spec 64 demo_env 330 10 0) as [Hiff Hnew];
    try (unfold hdrSize, max_i64; lia).
  { intros content n [= <-] Hn. rewrite length_zeroes. lia. }
  split.
  - apply Hiff. split; [lia|]. split; [lia|]. split; [done|]. split; [done|]. by eexists.
  - intros c b Hb. destruct (Hnew c b Hb) as (Hok & _ & _ & Hm & _). split; [done|]. lia.
Defined.

Definition demo_page : list slot := [fresh_slot r1; fresh_slot r2].

Lemma demo_page_ok : unit_ok (UPage demo_page).
Proof. split; [|vm_compute; intros [=]]. unfold demo_page. simpl. repeat constructor; try done; vm_compute; intuition discriminate. Qed.

(** At 20 both records are expired, and the trace of the second was decided. *)
Definition demo_view : view := View 20 (AddInterest 10 (tid x0b) 5 empty_set).

Lemma processPage_page_witness :
  let '(sc, file') := processPage (λ _, demo_view) (zeroes 320) 64 64 false (page_image demo_page) in
  sc_events sc = [EEvict 19; EMatch (tid x0b) [x63]] ∧ sc_full sc = true ∧
  file' = copy_at (zeroes 320) 64 (page_image (kill <$> demo_page)).
Proof.
  pose proof (processPage_page (λ _, demo_view) (zeroes 320) 64 64 false demo_page demo_page_ok) as H.
  cbv zeta in H. destruct (processPage _ _ _ _ _ _) as [sc file'].
  destruct H as (-> & -> & _ & _ & ->). split; [vm_compute; reflexivity|].
  split; [vm_compute; reflexivity|]. rewrite decide_False by (vm_compute; discriminate).
  vm_compute. reflexivity.
Defined.

Definition demo_large_file : bytes := large_image (fresh_slot r3) ++ zeroes 192.

Lemma demo_large_ring : ring_holds 0 demo_large_file 128 [ULarge (fresh_slot r3)].
Proof.
  split.
  - vm_compute. reflexivity.
  - simpl. lia.
  - apply Z.divide_0_r.
  - vm_compute. reflexivity.
  - simpl. lia.
  - exists (zeroes 192). vm_compute. reflexivity.
  - constructor; [|constructor]. split; [|vm_compute; reflexivity].
    simpl. repeat constructor; try done; vm_compute; intuition discriminate.
Qed.

Lemma processPage_large_witness :
  let '(sc, file') := processPage (λ _, demo_view) demo_large_file 0 128 false (slice demo_large_file 0 (0 + 64)) in
  sc_events sc = [EEvict 17] ∧ sc_chunks sc = 2 ∧ ring_holds 0 file' 128 [ULarge (kill (fresh_slot r3))].
Proof.
  pose proof (processPage_large (λ _, demo_view) _ _ _ _ _ false demo_large_ring eq_refl) as H.
  cbv zeta in H. change pageSize with 64 in H. destruct (processPage _ _ _ _ _ _) as [sc file'].
  destruct H as (-> & H). split; [vm_compute; reflexivity|].
  assert (slot_verdict demo_view (pressure 128 false) (fresh_slot r3) = VEvict 17) as E by (vm_compute; reflexivity).
  rewrite E in H. destruct H as (_ & Hc & Hr). split; [rewrite Hc; vm_compute; reflexivity|done].
Defined.

(** A zero identifier between two ordinary records. *)
Definition zero_req : writeReq := WriteReq zero_tid [] 0.

Lemma zero_trace_id_hides_page_witness :
  let '(sc, _) := processPage (λ _, demo_view) (zeroes 320) 0 64 false
                    (slots_image [] ++ slot_image (fresh_slot zero_req) ++ slot_image (fresh_slot r2) ++ zeroes 7) in
  sc_events sc = [] ∧ sc_full sc = true.
Proof.
  pose proof (zero_trace_id_hides_page (λ _, demo_view) (zeroes 320) 0 64 false [] zero_req
    (slot_image (fresh_slot r2) ++ zeroes 7) (Forall_nil_2 _) eq_refl eq_refl) as H.
  cbv zeta in H. destruct (processPage _ _ _ _ _ _) as [sc file'].
  destruct H as (-> & -> & _). done.
Defined.

Definition demo_full_stage : writer := MkWriter (zeroes 64) 40 0 false (WFlush (KSmall r1)) false.

Lemma flush_error_panics_witness :
  w_pc (fst (fst (flush_commit false (KSmall r1) demo_full_stage (zeroes 320) 0))) = WPanic.
Proof.
  assert (0 <= w_stageN demo_full_stage) as H0 by (vm_compute; discriminate).
  assert (pageSize < w_stageN demo_full_stage + recSize r1) as H1 by reflexivity.
  pose proof (flush_error_panics r1 demo_full_stage (zeroes 320) 0 eq_refl H0 H1) as H.
  destruct (flush_commit _ _ _ _ _) as [[w f] u] eqn:E.
  destruct H as (_ & _ & [Hp|(_ & Ht & _)]); [done|].
  exfalso. vm_compute in E. simplify_eq.
Defined.

Definition first_only (i : nat) : bool := Nat.eqb i 0.

Lemma large_error_desyncs_witness :
  let '(w', _, used') := large_commit first_only r3 init_writer (zeroes 320) 0 in
  w_pc w' = WSelect ∧ used' = 0 ∧ w_head w' ≠ (0 + used') mod maxBytes.
Proof.
  assert (pageSize < recSize r3) as H1 by (vm_compute; reflexivity).
  assert (len (w_stage init_writer) = pageSize) as H2 by (vm_compute; reflexivity).
  assert (wf_tid (traceID r3)) as H3 by (vm_compute; reflexivity).
  assert (w_head init_writer = (0 + 0) mod maxBytes) as H4 by (vm_compute; reflexivity).
  exact (large_error_desyncs first_only r3 init_writer (zeroes 320) 0 0 eq_refl eq_refl H1 H2 H3 H4).
Defined.

Lemma page_roundtrip_witness :
  let v := View 20 (AddInterest 10 (tid x0b) 4 (AddInterest 10 (tid x0a) 3 empty_set)) in
  let page := w_stage (flush_start KTick (foldl (λ w r, stage_record r w) init_writer [r1; r2])) in
  let '(sc, _) := processPage (λ _, v) (zeroes 320) 64 64 false page in
  sc_events sc = [EMatch (tid x0a) [x61; x62]; EMatch (tid x0b) [x63]] ∧ sc_full sc = true.
Proof.
  cbv zeta. apply (page_roundtrip [r1; r2] (λ _, _) (zeroes 320) 64 64 false).
  - valid_tac.
  - vm_compute. discriminate.
  - intros i r Hi. destruct i as [|[|i]]; simpl in Hi; simplify_eq; vm_compute; reflexivity.
Defined.

(** A large record whose payload contains, where its second page begins, the
    image of a record of another trace. *)
Definition forged_req : writeReq := WriteReq (tid x0c) (replicate 36 x64 ++ slot_image (fresh_slot r2)) 3.
Definition forged_buffer : SpanBuffer :=
  go_sweeper SRead (set_used 128 (set_file (large_image (fresh_slot forged_req) ++ zeroes 192) start)).

Lemma forged_ring :
  ring_holds (s_head (b_sweeper forged_buffer)) (b_file forged_buffer) (b_used forged_buffer)
    [ULarge (fresh_slot forged_req)].
Proof.
  split; [done|simpl; lia|by exists 0|done|vm_compute; discriminate| |].
  - exists (zeroes 192). reflexivity.
  - constructor; [|constructor]. split; [|vm_compute; reflexivity].
    simpl. repeat constructor; try done; vm_compute; intuition discriminate.
Qed.

(** The record of the other trace, which nobody wrote, is delivered. *)
Lemma unreadable_page_witness :
  ∃ b', sweep_unreadable forged_buffer = Some b' ∧ 0 < b_used b' ∧
    let r' := s_head (b_sweeper b') in
    slice (b_file b') r' (r' + pageSize) = slice (large_image (fresh_slot forged_req)) pageSize (2 * pageSize) ∧
    sc_events (processPage (λ _, demo_view) (b_file b') r' (b_used b') false (slice (b_file b') r' (r' + 64))).1 =
      [EMatch (tid x0b) [x63]].
Proof.
  eexists. split; [reflexivity|].
  destruct (unreadable_page forged_buffer _ _ _ forged_ring eq_refl) as (_ & _ & Hu & E).
  split; [exact Hu|]. split; [exact E|]. vm_compute. reflexivity.
Defined.
