(* ===== verification/BufferLive.v ===== *)
(** * Progress of the span buffer

    The sweeper does not sleep while there is work nobody will wake it for, and
    after [Close] every schedule of the two goroutines ends, whatever the state
    [Close] finds them in, with the file empty and every request accounted for. *)

From S2P Require Import Prelude Bytes Format Ring Interest Writer Sweeper SpanBuffer BufferInv BufferSpec Demo.

Section live.
Context {cfg : BufCfg} {Hok : BufCfgOk cfg}.

(** The local variables of [processPage], while it runs. *)
Definition scan_of (pc : spc) : option scan :=
  match pc with SScan _ _ sc | SBack sc => Some sc | _ => None end.

(** A page is left incomplete only with a time to wait; the wait has a timer;
    and no page is left incomplete once the writer has finished. *)
Record timely (b : SpanBuffer) : Prop := {
  t_scan : ∀ sc, scan_of (s_pc (b_sweeper b)) = Some sc →
             0 <= sc_minRem sc ∧ (sc_full sc = false → 0 < sc_minRem sc);
  t_wait : s_pc (b_sweeper b) = SWait → b_wakeup b = true ∨ b_timers b ≠ [];
  t_close : s_closing (b_sweeper b) = true → s_pc (b_sweeper b) ≠ SWait ∧ s_pc (b_sweeper b) ≠ SEmpty ∧
              ∀ sc, scan_of (s_pc (b_sweeper b)) = Some sc → sc_full sc = true;
}.

(** Outside [processPage] and the wait. *)
Lemma timely_simple b :
  scan_of (s_pc (b_sweeper b)) = None → s_pc (b_sweeper b) ≠ SWait →
  (s_closing (b_sweeper b) = true → s_pc (b_sweeper b) ≠ SEmpty) → timely b.
Proof.
  intros Hn Hw Hc. constructor; rewrite ?Hn; try done. intros Hcl. split; [done|]. split; [auto|done].
Qed.

(** The clock shows a time after 1970, and no retention window of an accepted
    request ends beyond the range of a [Duration]. *)
Definition times_ok (b : SpanBuffer) : Prop :=
  0 <= b_now b ∧ Forall (λ r, insertedAt r + decisionWait <= max_i64) (b_accepted b).

Lemma keep_positive v press s rem :
  0 <= v_now v → insertedAt (sl_req s) + decisionWait <= max_i64 → is_i64 (insertedAt (sl_req s)) →
  slot_verdict v press s = VKeep rem → 0 < rem ∧ press = false.
Proof.
  intros Hnow Hins Hi. unfold slot_verdict. destruct (sl_dead s); [done|].
  destruct (hasInterestForSpanRLocked _ _ _ _); [done|]. pose proof cfg_wait.
  destruct (Z.leb_spec decisionWait (time_sub (v_now v) (insertedAt (sl_req s)))) as [|Ha]; [done|].
  destruct press; [done|]. intros [= <-]. split; [|done].
  unfold time_sub, is_i64, min_i64, max_i64 in *.
  rewrite i64_small; unfold is_i64, min_i64, max_i64; lia.
Qed.

Lemma min_remaining_pos m rem : 0 <= m → 0 < rem → 0 < min_remaining m rem.
Proof. intros Hm Hr. unfold min_remaining.
  destruct (Z.eqb_spec m 0); simpl; [done|]. destruct (Z.ltb_spec rem m); lia. Qed.

(** One verdict keeps the loop's variables timely. *)
Lemma timed_ok b press s d sc sc' :
  d = slot_verdict (View (b_now b) (b_interest b)) press s → timed d sc sc' →
  0 <= b_now b → (sl_dead s = false → insertedAt (sl_req s) + decisionWait <= max_i64) →
  valid_req (sl_req s) →
  0 <= sc_minRem sc ∧ (sc_full sc = false → 0 < sc_minRem sc) →
  (0 <= sc_minRem sc' ∧ (sc_full sc' = false → 0 < sc_minRem sc')) ∧
  (press = true → sc_full sc = true → sc_full sc' = true).
Proof.
  intros Hd Ht Hnow Hins Hv [Hm Hf].
  destruct d as [| |age|rem] eqn:Ed; simpl in Ht; destruct Ht as [-> ->]; try done.
  assert (sl_dead s = false) as Hdead.
  { unfold slot_verdict in Hd. by destruct (sl_dead s). }
  symmetry in Hd. destruct (keep_positive (View (b_now b) (b_interest b)) _ _ _ Hnow (Hins Hdead) (valid_time _ Hv) Hd) as [Hrem ->].
  pose proof (min_remaining_pos _ _ Hm Hrem). split; [lia|done].
Qed.

Lemma alive_accepted us cur rs outs lost b s :
  inv_at us cur rs outs lost b → s ∈ cur → sl_dead s = false → sl_req s ∈ b_accepted b.
Proof.
  intros Hinv Hs Hd. rewrite (inv_where _ _ _ _ _ _ Hinv).
  assert (sl_req s ∈ alive_reqs cur); [|set_solver].
  unfold alive_reqs. apply list_elem_of_fmap. exists s. split; [done|].
  by apply list_elem_of_filter.
Qed.

(** The step inside [processPage]. *)
Lemma timely_Scan b press used0 sc :
  s_pc (b_sweeper b) = SScan press used0 sc → Inv b → times_ok b →
  0 <= sc_minRem sc ∧ (sc_full sc = false → 0 < sc_minRem sc) →
  ∃ sc', scan_of (scan_next b press used0 sc) = Some sc' ∧
    (0 <= sc_minRem sc' ∧ (sc_full sc' = false → 0 < sc_minRem sc')) ∧
    (s_closing (b_sweeper b) = true → sc_full sc = true → sc_full sc' = true).
Proof.
  intros Hpc (outs & lost & us & cur & rs & Hinv) [Hnow Hins] Hsc.
  pose proof (inv_sweeper _ _ _ _ _ _ Hinv) as Hs. unfold sweeper_inv in Hs. rewrite Hpc in Hs.
  destruct Hs as (u & us' & -> & Hused & Hpress & Hused0 & Hscan).
  pose proof (rh_ok _ _ _ _ (inv_ring _ _ _ _ _ _ Hinv)) as [Hu _]%Forall_cons.
  assert (s_closing (b_sweeper b) = true → press = true) as Hcl.
  { intros Hc. rewrite Hpress. unfold pressure. by rewrite Hc, orb_true_r. }
  assert (∀ s, s ∈ cur → sl_dead s = false → insertedAt (sl_req s) + decisionWait <= max_i64) as Hcur.
  { intros s Hin Hd. rewrite Forall_forall in Hins. apply Hins. by eapply alive_accepted. }
  destruct u as [l|s].
  - apply page_scan_inv in Hscan as (orig & done & todo & -> & Hps).
    destruct (scan_next_page b press used0 _ _ _ _ _ Hu Hps)
      as [[-> ->]|(s & todo' & -> & sc' & -> & Hev & Ht & Hps')]; simpl.
    + by exists sc.
    + exists sc'. split; [done|].
      destruct (timed_ok b press s _ _ _ eq_refl Ht Hnow) as [H1 H2]; try done.
      * apply Hcur. set_solver.
      * pose proof (ps_valid _ _ _ _ _ Hps) as [_ [Hs _]%Forall_cons]%Forall_app. done.
      * split; [done|]. auto.
  - destruct Hscan as [-> ->]. pose proof (inv_alive _ _ _ _ _ _ Hinv) as [Hd _]%Forall_cons.
    destruct (scan_next_large b press used0 s us') as (sc' & -> & Hev & Ht & Hback); [apply Hinv|done|done|].
    exists sc'. split; [done|].
    destruct (timed_ok b press s _ _ _ eq_refl Ht Hnow) as [H1 H2]; try done.
    + apply Hcur. set_solver.
    + destruct Hu as [Hv _]. simpl in Hv. by rewrite Forall_singleton in Hv.
    + split; [done|]. auto.
Qed.

Lemma timely_sweep b b' :
  sweep b = Some b' → Inv b → times_ok b → timely b → timely b'.
Proof.
  intros He Hinv Htimes [Hsc Hw Hc]. unfold sweep in He.
  destruct (s_pc (b_sweeper b)) as [| | |press used0 sc|sc| | |] eqn:Hpc; try done.
  - simplify_eq. destruct (b_used b =? 0); [|by apply timely_simple].
    destruct (s_closing (b_sweeper b)) eqn:Hcl; apply timely_simple; simpl; try done. by rewrite Hcl.
  - simplify_eq. constructor; simpl; try done.
    + intros sc [= <-]. done.
    + intros _. split; [done|]. split; [done|]. by intros sc [= <-].
  - destruct (timely_Scan _ _ _ _ Hpc Hinv Htimes) as (sc' & Hn & H1 & H2); [by apply Hsc|].
    assert (b' = go_sweeper (scan_next b press used0 sc) b) as ->.
    { unfold scan_next. destruct (_ <=? _); [|by simplify_eq].
      destruct (page_iter _ _ _ _ _ _) as [sc1 again]. by simplify_eq. }
    constructor; simpl.
    + intros sc1 Hsc1. rewrite Hn in Hsc1. by simplify_eq.
    + intros Hwait. by rewrite Hwait in Hn.
    + intros Hcl. destruct (Hc Hcl) as (_ & _ & Hfull).
      split; [by intros Hwait; rewrite Hwait in Hn|]. split; [by intros Hwait; rewrite Hwait in Hn|].
      intros sc1 Hsc1. rewrite Hn in Hsc1. simplify_eq. apply H2; [done|]. by apply Hfull.
  - simplify_eq. destruct (Hsc sc eq_refl) as [Hm Hf]. unfold sweep_back.
    destruct (sc_full sc) eqn:Hfull; [by apply timely_simple|].
    destruct (Z.ltb_spec 0 (sc_minRem sc)); [|specialize (Hf eq_refl); lia].
    constructor; simpl; [done|by right|]. intros Hcl. destruct (Hc Hcl) as (_ & _ & Hfull').
    specialize (Hfull' sc eq_refl). congruence.
  - simplify_eq. by apply timely_simple.
Qed.

Lemma timely_frame b b' :
  b_sweeper b' = b_sweeper b → (b_wakeup b = true → b_wakeup b' = true) →
  (b_wakeup b' = true ∨ b_timers b' = b_timers b) → timely b → timely b'.
Proof.
  intros Hs Hw Ht [Hsc Hwait Hc]. constructor; rewrite Hs; try done.
  intros Hpc. destruct Ht as [Ht| ->]; [by left|]. destruct (Hwait Hpc); auto.
Qed.

Lemma timely_loop b : s_pc (b_sweeper b) = SLoop → timely b.
Proof. intros Hpc. apply timely_simple; by rewrite Hpc. Qed.

Lemma timely_step b b' : step b b' → Inv b → times_ok b → timely b → timely b'.
Proof.
  intros [l He] Hinv Htimes Ht.
  destruct l; try (by eapply timely_sweep); cbn [exec] in He;
    try (repeat (case_match; try done); simplify_eq;
         by first [ apply (timely_frame b); [done|done|first [by left|by right]|done] | by apply timely_loop ]).
  destruct (b_closed b); [done|]. simplify_eq. apply (timely_frame b); try done;
    unfold Write; repeat case_match; auto.
Qed.

Lemma now_mono b b' : step b b' → b_now b <= b_now b'.
Proof.
  intros [l He]. destruct (decide_internal l) as [Hl|Hl].
  - destruct (internal_frame _ _ _ Hl He) as (_ & _ & -> & _). lia.
  - destruct l; try (exfalso; apply Hl; exact I); cbn [exec] in He;
      repeat (case_match; try done); simplify_eq/=; try lia.
    unfold Write. repeat case_match; simpl; lia.
Qed.

Lemma run_now ls b b' : run ls b = Some b' → b_now b <= b_now b'.
Proof.
  revert b. induction ls as [|l ls IH]; intros b Hrun; simpl in Hrun; [by simplify_eq|].
  destruct (exec l b) as [b1|] eqn:He; [|done].
  pose proof (now_mono b b1 ltac:(by exists l)). specialize (IH _ Hrun). lia.
Qed.

Lemma run_timely ls b b' :
  run ls b = Some b' → reachable b → timely b → 0 <= b_now b →
  Forall valid_req (b_accepted b') → Forall (λ r, insertedAt r + decisionWait <= max_i64) (b_accepted b') →
  timely b'.
Proof.
  revert b. induction ls as [|l ls IH]; intros b Hrun Hr Ht Hnow Hv Htm; simpl in Hrun; [by simplify_eq|].
  destruct (exec l b) as [b1|] eqn:He; [|done]. assert (step b b1) as Hst by (by exists l).
  destruct (accepted_mono _ _ Hst) as [k1 Hk1]. destruct (run_accepted _ _ _ Hrun) as [k2 Hk2].
  assert (Forall valid_req (b_accepted b)) as Hvb.
  { rewrite Hk2, Hk1, !Forall_app in Hv. tauto. }
  assert (times_ok b) as Htb.
  { split; [done|]. rewrite Hk2, Hk1, !Forall_app in Htm. tauto. }
  pose proof (now_mono _ _ Hst).
  apply (IH b1 Hrun); try done; [by eapply reach_step| |lia].
  eapply timely_step; try done. by apply reachable_inv.
Qed.

(** C21: no wakeup is lost. A sweeper that waits for the first page while the
    ring has pages has a wakeup pending, or the writer is about to send it; a
    sweeper that waits for records to expire has a wakeup pending or a timer
    that will send one. *)
Theorem no_lost_wakeup file now ls b :
  len file = maxBytes → 0 <= now → run ls (init_buffer file now) = Some b →
  Forall valid_req (b_accepted b) → Forall (λ r, insertedAt r + decisionWait <= max_i64) (b_accepted b) →
  (s_pc (b_sweeper b) = SEmpty → b_used b ≠ 0 →
     b_wakeup b = true ∨ waking (w_pc (b_writer b)) = true) ∧
  (s_pc (b_sweeper b) = SWait → b_wakeup b = true ∨ b_timers b ≠ []).
Proof.
  intros Hf Hnow Hrun Hv Ht. assert (reachable (init_buffer file now)) as Hr by (by apply reach_init).
  assert (reachable b) as Hrb by (eapply run_reachable; eauto). split.
  - intros Hpc Hu. by apply (ctl_empty _ (reachable_ctl _ Hrb)).
  - apply t_wait. eapply run_timely; done.
Qed.

(** ** The end of the writer *)

(** How far the writer is from its end: ten for each queued request, and less
    for each place further in the code. *)
Definition writer_rank (pc : wpc) : Z :=
  match pc with
  | WSelect => 5
  | WFlush KFinal => 4
  | WWake (Some KFinal) => 3
  | WFlush _ => 9
  | WWake (Some _) => 8
  | WPages _ => 7
  | WWake None => 6
  | WExit | WPanic => 0
  end.

Definition writer_left (b : SpanBuffer) : Z :=
  10 * len (b_writeCh b) + writer_rank (w_pc (b_writer b)) + (if w_drain (b_writer b) then 0 else 1).

Lemma writer_left_nonneg b : 0 <= writer_left b.
Proof. unfold writer_left, writer_rank. repeat case_match; lia. Qed.

Lemma handle_rank req w : writer_rank (w_pc (handle req w)) <= 9 ∧ w_drain (handle req w) = w_drain w.
Proof. unfold handle, flush_start, stage_record, large_check. repeat case_match; simpl; split; (lia || done). Qed.

Lemma after_flush_rank k closed w :
  writer_rank (w_pc (after_flush k closed w)) < writer_rank (WWake (Some k)) ∧
  writer_rank (w_pc (after_flush k closed w)) < writer_rank (WFlush k) ∧
  w_drain (after_flush k closed w) = w_drain w.
Proof.
  unfold after_flush, stage_record, large_check.
  destruct k, closed; repeat case_match; simpl; repeat split; (lia || done).
Qed.

Lemma drain_done_rank w : writer_rank (w_pc (drain_done w)) <= 4 ∧ w_drain (drain_done w) = w_drain w.
Proof. unfold drain_done, flush_start. repeat case_match; simpl; split; (lia || done). Qed.

(** Every step of the writer but the ticker's brings it nearer to its end. *)
Definition writer_label (l : label) : Prop :=
  match l with LRecv | LSeeClose | LDrained | LGiveUp | LCommit | LWake => True | _ => False end.

(** What a step of the writer leaves alone. *)
Definition same_rest (b b' : SpanBuffer) : Prop :=
  b_sweeper b' = b_sweeper b ∧ b_wakes b' = b_wakes b ∧ b_timers b' = b_timers b ∧
  b_now b' = b_now b ∧ b_pageFreed b' = b_pageFreed b.

Lemma writer_step l b b' :
  writer_label l → exec l b = Some b' → writer_left b' < writer_left b ∧ same_rest b b'.
Proof.
  intros Hl He. unfold writer_left, same_rest.
  destruct l; try done; cbn [exec] in He; unfold wait_need, writer_give_up, writer_commit in He;
    destruct (w_pc (b_writer b)) as [|k|req|k| |] eqn:Hpc; try done.
  - destruct (b_writeCh b) as [|req q] eqn:Hq; [done|]. simplify_eq.
    destruct (handle_rank req (b_writer b)) as [Hrk Hd].
    cbn [b_writeCh b_writer set_writer set_writeCh]. rewrite Hd. simpl in *.
    split; [destruct (w_drain _); lia|done].
  - destruct (w_drain (b_writer b)) eqn:Hdr; [by rewrite andb_false_r in He|].
    destruct (b_closed b); simpl in He; simplify_eq. simpl. rewrite Hpc. simpl. split; [lia|done].
  - destruct (b_writeCh b) eqn:Hq; [|done]. destruct (w_drain (b_writer b)) eqn:Hdr; simplify_eq.
    destruct (drain_done_rank (b_writer b)) as [Hrk Hd].
    cbn [b_writeCh b_writer set_writer]. rewrite Hd, Hdr, Hq. simpl. split; [lia|done].
  - destruct (w_waiting _ && b_closed b); simplify_eq. unfold flush_closed.
    destruct (after_flush_rank k true (set_stage (w_stage (b_writer b)) 0 (b_writer b))) as (_ & Hrk & Hd).
    cbn [b_writeCh b_writer set_writer]. rewrite Hd. simpl in *. split; [destruct (w_drain _); lia|done].
  - destruct (w_waiting _ && b_closed b); simplify_eq. simpl. split; [destruct (w_drain _); lia|done].
  - unfold flush_commit in He. destruct (_ || must_wait _ _); simplify_eq. simpl.
    split; [destruct k, (w_drain _); lia|done].
  - pose proof (large_commit_pc req (b_writer b) (b_file b) (b_used b)) as [Hd Hw].
    destruct (large_commit _ _ _ _ _) as [[w f] u]. destruct (_ || must_wait _ _); simplify_eq.
    simpl in *. rewrite Hd, Hw. simpl. split; [destruct (w_drain _); lia|done].
  - simplify_eq. destruct k as [k|]; cbn [after_wake].
    + destruct (after_flush_rank k false (b_writer b)) as (Hrk & _ & Hd).
      cbn [b_writeCh b_writer set_writer set_wakeup]. rewrite Hd. simpl in *.
      split; [destruct (w_drain _); lia|done].
    + simpl. split; [destruct (w_drain _); lia|done].
Qed.

(** The steps of the two goroutines, of the timers that are due and of the
    [AddInterest] calls under way; not the ticker, the clock or new calls. *)
Definition goroutine (l : label) : Prop :=
  match l with LWrite _ | LAddInterest _ | LTime _ | LClose | LTick => False | _ => True end.

Lemma goroutine_internal l : goroutine l → internal l.
Proof. by destruct l. Qed.

(** After [Close] the writer can go on until it returns. *)
Lemma writer_next b :
  b_closed b = true → w_pc (b_writer b) ≠ WPanic → w_pc (b_writer b) ≠ WExit →
  ∃ l, goroutine l ∧ is_Some (exec l b).
Proof.
  intros Hcl Hnp Hne.
  assert (∀ need, wait_need (b_writer b) = Some need → ∃ l, goroutine l ∧ is_Some (exec l b)) as Hwait.
  { intros need Hn. destruct (w_waiting (b_writer b)) eqn:Hwt.
    { exists LGiveUp. split; [done|]. cbn [exec]. rewrite Hn, Hwt, Hcl. by eexists. }
    destruct (must_wait (b_used b) need) eqn:Hmw.
    { exists LWait. split; [done|]. cbn [exec]. rewrite Hn, Hwt, Hmw. by eexists. }
    exists LCommit. split; [done|]. cbn [exec]. rewrite Hn, Hwt, Hmw.
    unfold wait_need in Hn. unfold writer_commit.
    destruct (w_pc (b_writer b)); try done; destruct (_ : writer * bytes * Z) as [[??]?]; by eexists. }
  destruct (w_pc (b_writer b)) as [|k|req|k| |] eqn:Hpc; try done.
  - destruct (w_drain (b_writer b)) eqn:Hdr.
    + destruct (b_writeCh b) as [|req q] eqn:Hq.
      * exists LDrained. split; [done|]. cbn [exec]. rewrite Hpc, Hq, Hdr. by eexists.
      * exists LRecv. split; [done|]. cbn [exec]. rewrite Hpc, Hq. by eexists.
    + exists LSeeClose. split; [done|]. cbn [exec]. rewrite Hpc, Hdr, Hcl. by eexists.
  - apply (Hwait pageSize). unfold wait_need. by rewrite Hpc.
  - eapply Hwait. unfold wait_need. by rewrite Hpc.
  - exists LWake. split; [done|]. cbn [exec]. rewrite Hpc. by eexists.
Qed.

(** ** The end of the sweeper *)

Lemma be_get_acc_nonneg acc l : 0 <= acc → 0 <= be_get_acc acc l.
Proof.
  revert acc. induction l as [|x l IH]; intros acc Hacc; cbn [be_get_acc]; [done|].
  apply IH. rewrite lor_shiftl_byte. pose proof (Z_of_byte_range x). lia.
Qed.

(** Every iteration of [processPage] that does not end the loop advances. *)
Lemma page_iter_advances v used press file rHead sc sc' :
  page_iter v used press file rHead sc = (sc', true) →
  sc_pos sc + hdrSize <= sc_pos sc' <= pageSize.
Proof.
  unfold page_iter. intros Hit.
  assert (0 <= Uint32 (slice (sc_scratch sc) (sc_pos sc + 24) (sc_pos sc + 28))) as Hn
    by (by apply be_get_acc_nonneg).
  repeat (case_match; simplify_eq/=);
    match goal with H : (pageSize <? _) = false |- _ => apply Z.ltb_ge in H end; lia.
Qed.

(** How far the sweeper is from its next select, for the same occupancy. *)
Definition sweep_rank (pc : spc) : Z :=
  match pc with
  | SFreed => pageSize + 41
  | SLoop => pageSize + 40
  | SRead => pageSize + 39
  | SScan _ _ sc => Z.max 6 (pageSize + 10 - sc_pos sc)
  | SBack _ => 5
  | SEmpty | SWait | SExit => 0
  end.

(** More than four times what one round of the main loop takes. *)
Definition round : Z := 4 * (pageSize + 50).

(** The work the sweeper has left without a further wakeup. *)
Definition sweep_left (b : SpanBuffer) : Z :=
  round * b_used b + (if s_closing (b_sweeper b) then 0 else round) +
  4 * sweep_rank (s_pc (b_sweeper b)) + 2 * Z.b2z (b_pageFreed b).

(** The timers that can fire without the clock advancing. *)
Definition due (b : SpanBuffer) : list Time := filter (λ d, d <= b_now b) (b_timers b).

Lemma sweep_rank_bounds pc : 0 <= sweep_rank pc.
Proof. pose proof page_pos. destruct pc; simpl; lia. Qed.

Lemma sweep_step b b' :
  sweep b = Some b' → Inv b → timely b →
  sweep_left b' < sweep_left b ∧ b_writer b' = b_writer b ∧ b_writeCh b' = b_writeCh b ∧
  b_wakes b' = b_wakes b ∧ b_wakeup b' = b_wakeup b ∧ due b' = due b.
Proof.
  intros He Hinv Ht. pose proof page_pos. unfold sweep_left, round, due. unfold sweep in He.
  destruct (s_pc (b_sweeper b)) as [| | |press used0 sc|sc| | |] eqn:Hpc; try done.
  - simplify_eq. destruct (b_used b =? 0); [destruct (s_closing (b_sweeper b)) eqn:Hc|]; simpl;
      rewrite ?Hc; split; (lia || done).
  - simplify_eq. simpl. split; [lia|done].
  - destruct (Z.leb_spec (sc_pos sc + hdrSize) pageSize); [|simplify_eq; simpl; split; [lia|done]].
    destruct (page_iter _ _ _ _ _ _) as [sc' again] eqn:Hit. simplify_eq.
    destruct again; simpl; [|split; [lia|done]].
    apply page_iter_advances in Hit. unfold hdrSize in *. split; [lia|done].
  - simplify_eq. unfold sweep_back. destruct (sc_full sc) eqn:Hfull; simpl.
    + destruct Hinv as (outs & lost & us & cur & rs & Hinv).
      destruct (inv_written _ _ _ _ _ _ _ Hpc Hinv) as (u & us' & Hr & _ & _ & _ & Hf & _).
      destruct (Hf Hfull) as [Hch _]. pose proof (ring_pop _ _ _ _ _ Hr) as Hr'. rewrite Hch in Hr'.
      pose proof (rh_nonneg _ _ _ _ Hr') as Hnn. pose proof (rh_le _ _ _ _ Hr'). pose proof cfg_max.
      rewrite i64_small by (unfold is_i64, min_i64; lia).
      pose proof (rh_ok _ _ _ _ Hr) as [Hu _]%Forall_cons. pose proof (unit_chunks_pos u Hu).
      rewrite Hch in *. split; [|done].
      assert (pageSize <= sc_chunks sc * pageSize) by nia. nia.
    + destruct (t_scan _ Ht sc) as [_ Hrem]; [by rewrite Hpc|]. specialize (Hrem Hfull).
      destruct (Z.ltb_spec 0 (sc_minRem sc)); [|lia]. simpl.
      rewrite filter_cons_False by lia. split; [lia|done].
  - simplify_eq. simpl. split; [|done]. destruct (b_pageFreed b); simpl; lia.
Qed.

(** Once the writer has finished, the sweeper can go on until it returns. *)
Lemma sweep_next b :
  w_pc (b_writer b) = WExit → s_pc (b_sweeper b) ≠ SExit → ∃ l, goroutine l ∧ is_Some (exec l b).
Proof.
  intros Hw Hne.
  destruct (s_pc (b_sweeper b)) as [| | |press used0 sc|sc| | |] eqn:Hpc; try done;
    first [ exists LSweep; split; [done|]; cbn [exec]; unfold sweep; rewrite Hpc; by eexists
          | exists LSweepDone; split; [done|]; cbn [exec]; unfold sweep_selects, writerDone;
            rewrite Hpc, Hw; by eexists ].
Qed.

(** ** Closing *)

(** A state [Close] can be called in, and those after it. *)
Record closing_ok (b : SpanBuffer) : Prop := {
  co_reach : reachable b;
  co_closed : b_closed b = true;
  co_timely : timely b;
  co_times : times_ok b;
  co_valid : Forall valid_req (b_accepted b);
}.

Lemma closing_step l b b' :
  internal l → exec l b = Some b' → closing_ok b → closing_ok b' ∧ b_accepted b' = b_accepted b.
Proof.
  intros Hl He [Hr Hc Ht Htm Hv]. destruct (internal_frame _ _ _ Hl He) as (Eacc & _ & En & Ec).
  split; [|done]. assert (step b b') as Hst by (by exists l).
  constructor; rewrite ?Eacc, ?Ec; try done.
  - by eapply reach_step.
  - eapply timely_step; try done. by apply reachable_inv.
  - destruct Htm as [Hn Hf]. split; [by rewrite En|by rewrite Eacc].
Qed.

(** The steps the goroutines can still take after [Close]: the writer pays for
    the pages and wakeups it may still produce, each pending wakeup for a round of
    the sweeper. *)
Definition close_work (b : SpanBuffer) : Z :=
  (round * maxBytes + round + 2) * writer_left b +
  2 * round * (Z.of_nat (b_wakes b) + len (due b)) + round * Z.b2z (b_wakeup b) +
  sweep_left b + (if w_waiting (b_writer b) then 0 else 1).

Lemma closing_inv b : closing_ok b → Inv b.
Proof. intros []. by apply reachable_inv. Qed.

Lemma used_bounds b : Inv b → 0 <= b_used b <= maxBytes.
Proof. intros (outs & lost & Hinv). by eapply inv_used. Qed.

Lemma close_work_nonneg b : Inv b → 0 <= close_work b.
Proof.
  intros Hinv. pose proof (used_bounds _ Hinv). pose proof page_pos. pose proof max_pos.
  pose proof (writer_left_nonneg b). pose proof (sweep_rank_bounds (s_pc (b_sweeper b))).
  unfold close_work, sweep_left, round.
  assert (0 <= 4 * (pageSize + 50) * maxBytes) by nia.
  assert (0 <= (4 * (pageSize + 50) * maxBytes + 4 * (pageSize + 50) + 2) * writer_left b) by nia.
  assert (0 <= 4 * (pageSize + 50) * b_used b) by nia.
  assert (0 <= 2 * (4 * (pageSize + 50)) * (Z.of_nat (b_wakes b) + len (due b))) by nia.
  destruct (b_wakeup b), (s_closing _), (b_pageFreed b), (w_waiting _); simpl; lia.
Qed.

Lemma writer_step_work l b b' :
  writer_label l → exec l b = Some b' → Inv b → Inv b' → close_work b' < close_work b.
Proof.
  intros Hl He Hi Hi'. destruct (writer_step _ _ _ Hl He) as (Hlt & Es & Ek & Et & En & Ep).
  pose proof (used_bounds _ Hi). pose proof (used_bounds _ Hi'). pose proof page_pos. pose proof max_pos.
  unfold close_work, sweep_left, due. rewrite Es, Ek, Et, En, Ep.
  assert (0 < round) by (unfold round; lia).
  assert (round * b_used b' <= round * b_used b + round * maxBytes) by nia.
  assert (round * Z.b2z (b_wakeup b') <= round * Z.b2z (b_wakeup b) + round)
    by (destruct (b_wakeup b), (b_wakeup b'); simpl; lia).
  set (c := round * maxBytes + round + 2) in *.
  assert (0 <= round * maxBytes) by nia.
  assert (c * writer_left b' <= c * writer_left b - c) by nia.
  destruct (w_waiting (b_writer b)), (w_waiting (b_writer b')); lia.
Qed.

Lemma due_fires b i d :
  b_timers b !! i = Some d → d <= b_now b →
  len (filter (λ d, d <= b_now b) (delete i (b_timers b))) = len (due b) - 1.
Proof.
  intros Hi Hd. unfold due.
  assert (filter (λ d, d <= b_now b) (b_timers b) ≡ₚ
    filter (λ d, d <= b_now b) (d :: delete i (b_timers b))) as Hp%Permutation_length.
  { by rewrite <- (delete_Permutation _ _ _ Hi). }
  rewrite filter_cons_True in Hp by done. simpl in Hp. lia.
Qed.

(** Every step of the goroutines leaves less work. *)
Lemma goroutine_step l b b' :
  goroutine l → exec l b = Some b' → closing_ok b → closing_ok b' → close_work b' < close_work b.
Proof.
  intros Hl He Hok1 Hok2. pose proof (closing_inv _ Hok1) as Hi. pose proof (closing_inv _ Hok2) as Hi'.
  pose proof page_pos. assert (4 * pageSize + 200 = round) as Hround by (unfold round; lia).
  destruct l; try done; try (by eapply writer_step_work; [|exact He|done|done]);
    cbn [exec] in He; unfold close_work.
  - destruct (b_wakes b) as [|n] eqn:Hn; simplify_eq. unfold sweep_left, due, writer_left.
    cbn [b_wakes set_wakeup set_wakes]. rewrite Nat2Z.inj_succ. unfold Z.succ. simpl.
    destruct (b_wakeup b); simpl; lia.
  - destruct (b_timers b !! i) as [d|] eqn:Hti; [|done].
    destruct (Z.leb_spec d (b_now b)) as [Hd|]; simplify_eq.
    pose proof (due_fires _ _ _ Hti Hd) as Hdue. unfold due at 1.
    cbn [b_timers b_now set_wakeup set_timers]. rewrite Hdue. unfold sweep_left, writer_left. simpl.
    destruct (b_wakeup b); simpl; lia.
  - unfold wait_need in He. destruct (w_pc (b_writer b)) eqn:Hpc; try done;
      destruct (w_waiting (b_writer b)) eqn:Hw; try done; simpl in He; case_match; simplify_eq;
      unfold sweep_left, due, writer_left; simpl; rewrite Hpc; lia.
  - unfold wait_need in He. destruct (w_pc (b_writer b)) eqn:Hpc; try done;
      destruct (w_waiting (b_writer b)) eqn:Hw; try done; destruct (b_pageFreed b) eqn:Hpf; try done;
      simpl in He; simplify_eq; unfold sweep_left, due, writer_left; simpl; rewrite Hpf, Hpc; simpl; lia.
  - destruct (sweep_step _ _ He Hi (co_timely _ Hok1)) as (Hlt & Ew & Eq & Ek & Eu & Ed).
    unfold writer_left. rewrite Ew, Eq, Ek, Eu, Ed. lia.
  - destruct (sweep_selects b) eqn:Hs; [|done]. destruct (b_wakeup b) eqn:Hw; [|done].
    simpl in He. simplify_eq.
    unfold sweep_selects in Hs. unfold sweep_left, due, writer_left. simpl.
    destruct (s_pc (b_sweeper b)); try done; simpl; lia.
  - destruct (sweep_selects b) eqn:Hs; [|done]. simpl in He. destruct (writerDone b); simplify_eq.
    unfold sweep_selects in Hs. unfold sweep_left, due, writer_left. simpl.
    destruct (s_closing (b_sweeper b)) eqn:Hc.
    { destruct (t_close _ (co_timely _ Hok1) Hc) as (? & ? & _). by destruct (s_pc (b_sweeper b)). }
    destruct (s_pc (b_sweeper b)); try done; simpl; lia.
Qed.

Lemma goroutine_run ls b b' :
  Forall goroutine ls → run ls b = Some b' → closing_ok b →
  closing_ok b' ∧ b_accepted b' = b_accepted b ∧ len ls + close_work b' <= close_work b.
Proof.
  revert b. induction ls as [|l ls IH]; intros b Hls Hrun Hok1; simpl in Hrun; [simplify_eq; simpl; split; [done|split; [done|lia]]|].
  apply Forall_cons in Hls as [Hl Hls]. destruct (exec l b) as [b1|] eqn:He; [|done].
  destruct (closing_step _ _ _ (goroutine_internal _ Hl) He Hok1) as [Hok2 Ea].
  pose proof (goroutine_step _ _ _ Hl He Hok1 Hok2).
  destruct (IH _ Hls Hrun Hok2) as (Hok3 & Ea' & Hlen). split; [done|]. split; [congruence|].
  simpl length. lia.
Qed.

(** One of the goroutines can go on until both have returned. *)
Lemma close_progress b :
  closing_ok b →
  (w_pc (b_writer b) = WExit ∧ s_pc (b_sweeper b) = SExit) ∨ ∃ l, goroutine l ∧ is_Some (exec l b).
Proof.
  intros Hok'. pose proof (closing_inv _ Hok') as (outs & lost & us & cur & rs & Hinv).
  pose proof (inv_writer _ _ _ _ _ _ Hinv) as [_ Hw].
  assert (w_pc (b_writer b) = WExit ∨ w_pc (b_writer b) ≠ WExit) as [Hx|Hx]
    by (destruct (w_pc (b_writer b)); first [by left|by right]).
  - assert (s_pc (b_sweeper b) = SExit ∨ s_pc (b_sweeper b) ≠ SExit) as [Hs|Hs]
      by (destruct (s_pc (b_sweeper b)); first [by left|by right]); [by left|].
    right. by apply sweep_next.
  - right. apply writer_next; [apply Hok'| |done]. intros E. by rewrite E in Hw.
Qed.

(** ** What is dropped *)

(** The requests the transitions of a run drop. *)
Inductive gave_up : list label → SpanBuffer → list writeReq → Prop :=
| gu_nil b : gave_up [] b []
| gu_cons l ls b b' d ds :
    exec l b = Some b' → dropped l b d → gave_up ls b' ds → gave_up (l :: ls) b (d ++ ds).

Lemma inv_run ls outs lost b b' :
  run ls b = Some b' → Forall valid_req (b_accepted b') → InvO outs lost b →
  ∃ outs' d, InvO outs' (lost ++ d) b' ∧ gave_up ls b d.
Proof.
  revert b outs lost. induction ls as [|l ls IH]; intros b outs lost Hrun Hv Hinv; simpl in Hrun.
  { simplify_eq. exists outs, []. rewrite app_nil_r. by split; [|constructor]. }
  destruct (exec l b) as [b1|] eqn:He; [|done].
  destruct (accepted_mono b b1) as [k1 Hk1]; [by exists l|]. destruct (run_accepted _ _ _ Hrun) as [k2 Hk2].
  assert (Forall valid_req (b_accepted b)) as Hvb by (rewrite Hk2, Hk1, !Forall_app in Hv; tauto).
  destruct (inv_exec _ _ _ _ _ He Hvb Hinv) as (outs1 & d & Hinv1 & _ & Hd).
  destruct (IH _ _ _ Hrun Hv Hinv1) as (outs' & ds & Hinv' & Hgu).
  exists outs', (d ++ ds). rewrite app_assoc. split; [done|]. by econstructor.
Qed.

Lemma run_app ls ls' b b' : run ls b = Some b' → run (ls ++ ls') b = run ls' b'.
Proof.
  revert b. induction ls as [|l ls IH]; intros b Hrun; simpl in *; [by simplify_eq|].
  destruct (exec l b); [by apply IH|done].
Qed.

(** What is left when both goroutines have returned. *)
Lemma exited_empty b outs lost :
  closing_ok b → InvO outs lost b → w_pc (b_writer b) = WExit → s_pc (b_sweeper b) = SExit →
  b_used b = 0 ∧ b_writeCh b = [] ∧
  b_accepted b ≡ₚ outs.*1 ++ lost ∧ all_events b = outs.*2 ∧ Forall outcome_ok outs.
Proof.
  intros [Hr Hc Ht Htm Hv] (us & cur & rs & Hinv) Hw Hs. pose proof (reachable_ctl _ Hr) as Hctl.
  destruct (ctl_sexit _ Hctl Hs) as [_ Hu]. destruct (ctl_final _ Hctl) as [_ Hq]; [by rewrite Hw|].
  split; [done|]. split; [done|].
  destruct Hinv as [Hrg _ [_ Hwi] Hsi _ Hev Ho Hwhere _ _ _].
  rewrite Hw in Hwi. subst rs. assert (us = []) as -> by (by eapply rh_zero).
  unfold sweeper_inv in Hsi. rewrite Hs in Hsi. subst cur.
  split; [|done]. rewrite Hwhere, Hq. unfold inflight. by rewrite Hw.
Qed.

(** The writer is in the select of a waiting loop, after the last transition of
    [ls]: its test found no room, and it has not moved since. *)
Definition found_full (ls : list label) (b0 b : SpanBuffer) : Prop :=
  ∃ k1 k2 c need, ls = k1 ++ LWait :: k2 ∧ run k1 b0 = Some c ∧
    wait_need (b_writer c) = Some need ∧ must_wait (b_used c) need = true ∧
    b_writer b = set_waiting true (b_writer c).

Lemma run_snoc ls l b b' :
  run (ls ++ [l]) b = Some b' → ∃ c, run ls b = Some c ∧ exec l c = Some b'.
Proof.
  revert b. induction ls as [|x ls IH]; intros b Hrun; simpl in Hrun.
  - destruct (exec l b) eqn:He; [|done]. simplify_eq/=. by exists b.
  - destruct (exec x b) as [b1|] eqn:He; [|done]. destruct (IH _ Hrun) as (c & Hc & Hl).
    exists c. split; [|done]. simpl. by rewrite He.
Qed.

(** The functions of the writer leave the select. *)
Lemma handle_awake req w : w_waiting (handle req w) = false.
Proof. unfold handle, flush_start, stage_record, large_check. repeat case_match; done. Qed.

Lemma commit_awake w f used w' f' used' :
  writer_commit w f used = Some (w', f', used') → w_waiting w' = false.
Proof.
  unfold writer_commit. destruct (w_pc w) as [|k|req|k| |]; try done; intros [= E]; [by simplify_eq|].
  pose proof (write_chunks_true (length (data req)) 1 (data req)) as Hcks.
  unfold large_commit in E. destruct (write_chunks _ _ _ _ _ _ _ _) as [[[st h] g] ok].
  repeat case_match; by simplify_eq.
Qed.

(** A transition other than [LWait] leaves the writer alone or out of the select. *)
Lemma waiting_kept l b b' :
  exec l b = Some b' → w_waiting (b_writer b') = true →
  b_writer b' = b_writer b ∨
  l = LWait ∧ b_writer b' = set_waiting true (b_writer b) ∧
    ∃ need, wait_need (b_writer b) = Some need ∧ must_wait (b_used b) need = true.
Proof.
  intros He Hw. destruct l; cbn [exec] in He.
  - left. destruct (b_closed b); simplify_eq. unfold Write. by repeat case_match.
  - left. by simplify_eq.
  - left. by destruct (b_wakes b); simplify_eq.
  - left. repeat case_match; by simplify_eq.
  - left. case_match; by simplify_eq.
  - left. case_match; by simplify_eq.
  - repeat case_match; simplify_eq. cbn [b_writer set_writer set_writeCh] in Hw. by rewrite handle_awake in Hw.
  - repeat case_match; simplify_eq. unfold tick, flush_start in Hw. by repeat case_match.
  - by repeat case_match; simplify_eq.
  - repeat case_match; simplify_eq. unfold drain_done, flush_start in Hw. by repeat case_match.
  - right. destruct (wait_need (b_writer b)) as [need|]; [|done].
    destruct (negb _ && must_wait _ _) eqn:Hm; simplify_eq. apply andb_true_iff in Hm as [_ Hm].
    split; [done|]. split; [done|]. by exists need.
  - by repeat case_match; simplify_eq.
  - destruct (wait_need _); [|done]. destruct (w_waiting _ && _); simplify_eq.
    cbn [b_writer set_writer] in Hw. unfold writer_give_up, flush_closed in Hw.
    destruct (w_pc _); try done. unfold after_flush in Hw. by destruct k.
  - destruct (wait_need _); [|done]. destruct (writer_commit _ _ _) as [[[w f] u]|] eqn:E; [|done].
    case_match; simplify_eq. apply commit_awake in E. simpl in Hw. congruence.
  - repeat case_match; simplify_eq. destruct k as [k|]; [|done]. cbn [b_writer set_writer after_wake] in Hw.
    unfold after_flush, stage_record, large_check in Hw. by repeat case_match.
  - left. apply sweep_control in He. tauto.
  - left. case_match; by simplify_eq.
  - left. case_match; by simplify_eq.
Qed.

Lemma waiting_found_full ls b0 b :
  w_waiting (b_writer b0) = false → run ls b0 = Some b → w_waiting (b_writer b) = true →
  found_full ls b0 b.
Proof.
  intros H0. revert b. induction ls as [|l ls IH] using rev_ind; intros b Hrun Hw.
  { simpl in Hrun. simplify_eq. congruence. }
  destruct (run_snoc _ _ _ _ Hrun) as (c & Hc & He).
  destruct (waiting_kept _ _ _ He Hw) as [E|(-> & E & need & Hn & Hm)].
  - rewrite E in Hw. destruct (IH c Hc Hw) as (k1 & k2 & c1 & need & -> & Hk & Hn & Hm & Ew).
    exists k1, (k2 ++ [l]), c1, need. by rewrite <- app_assoc, E.
  - exists ls, [], c, need. done.
Qed.

(** A writer gives up after [Close], having found the file too full. *)
Lemma give_up_full l1 l2 b0 b' :
  w_waiting (b_writer b0) = false → run (l1 ++ LGiveUp :: l2) b0 = Some b' →
  ∃ c, run l1 b0 = Some c ∧ b_closed c = true ∧ found_full l1 b0 c.
Proof.
  intros H0 Hrun. destruct (run l1 b0) as [c|] eqn:Hc.
  2:{ exfalso. clear H0. revert b0 Hrun Hc. induction l1 as [|l l1 IH]; intros b0 Hrun Hc; [by simpl in Hc|].
      simpl in *. destruct (exec l b0) as [b1|]; [|done]. eapply IH; done. }
  rewrite (run_app _ _ _ _ Hc) in Hrun. cbn [run] in Hrun.
  destruct (exec LGiveUp c) as [c'|] eqn:He; [|done]. cbn [exec] in He.
  destruct (wait_need _); [|done]. destruct (w_waiting _ && b_closed c) eqn:Hw; [|done].
  apply andb_true_iff in Hw as [Hw Hcl]. exists c. split; [done|]. split; [done|].
  by apply waiting_found_full.
Qed.

(** C20: [Close] terminates and drains the buffer, whatever the two goroutines'
    schedule. From any state after [Close], every sequence of their steps (with
    the timers that are due and the [AddInterest] calls under way, without the
    clock or the ticker) is no longer than [close_work]; as long as one of the two
    has not returned a step is possible; and when both have, the queue and the
    ring are empty and every request accepted before [Close] had its one callback
    or is one of those the writer dropped in the run from [New] on. It drops
    nothing but the record it is handling and the stage, and only in a waiting
    loop whose test found no room for them, after [Close]. *)
Theorem close_completes file now ls b ls' b' :
  len file = maxBytes → 0 <= now → run ls (init_buffer file now) = Some b → b_closed b = true →
  Forall valid_req (b_accepted b) → Forall (λ r, insertedAt r + decisionWait <= max_i64) (b_accepted b) →
  Forall goroutine ls' → run ls' b = Some b' →
  let returned := w_pc (b_writer b') = WExit ∧ s_pc (b_sweeper b') = SExit in
  len ls' <= close_work b ∧
  (returned ∨ ∃ l, goroutine l ∧ is_Some (exec l b')) ∧
  (returned → b_used b' = 0 ∧ b_writeCh b' = [] ∧
    ∃ outs lost, b_accepted b ≡ₚ outs.*1 ++ lost ∧ all_events b' = outs.*2 ∧ Forall outcome_ok outs ∧
      gave_up (ls ++ ls') (init_buffer file now) lost) ∧
  (∀ l1 l2, ls ++ ls' = l1 ++ LGiveUp :: l2 → ∃ c,
     run l1 (init_buffer file now) = Some c ∧ b_closed c = true ∧ found_full l1 (init_buffer file now) c).
Proof.
  intros Hf Hnow Hrun Hcl Hv Ht Hls Hrun' returned.
  assert (reachable (init_buffer file now)) as Hr0 by (by apply reach_init).
  assert (0 <= b_now b) as Hnb by (pose proof (run_now _ _ _ Hrun); simpl in *; lia).
  assert (closing_ok b) as Hco.
  { constructor; try done; [by eapply run_reachable|]. eapply run_timely; done. }
  destruct (goroutine_run _ _ _ Hls Hrun' Hco) as (Hco' & Ea & Hlen).
  assert (run (ls ++ ls') (init_buffer file now) = Some b') as Hall by (by erewrite run_app).
  split; [pose proof (close_work_nonneg _ (closing_inv _ Hco')); lia|].
  split; [by apply close_progress|]. split.
  - intros [Hw Hs]. destruct (inv_run _ [] [] _ _ Hall) as (outs & lost & Hinv & Hgu);
      [by rewrite Ea|by apply inv_init|].
    destruct (exited_empty _ _ _ Hco' Hinv Hw Hs) as (Hu & Hq & Hacc & Hev & Ho).
    rewrite Ea in Hacc. split; [done|]. split; [done|]. by exists outs, lost.
  - intros l1 l2 E. rewrite E in Hall. by eapply give_up_full.
Qed.
End live.

(** *** Examples on the small buffer *)

Ltac times_tac :=
  match goal with |- Forall ?P ?l => let l' := eval vm_compute in l in change (Forall P l') end;
  repeat (apply Forall_cons_2; [vm_compute; discriminate|]); apply Forall_nil_2.


Lemma no_lost_wakeup_witness :
  s_pc (b_sweeper (after (take 18 swept))) = SWait ∧ b_timers (after (take 18 swept)) ≠ [].
Proof.
  assert (run (take 18 swept) (init_buffer (zeroes 320) 0) = Some (after (take 18 swept))) as Hrun
    by (vm_compute; reflexivity).
  destruct (no_lost_wakeup (zeroes 320) 0 (take 18 swept) (after (take 18 swept))) as [_ Hwait];
    [reflexivity|lia|exact Hrun|valid_tac|times_tac|].
  assert (s_pc (b_sweeper (after (take 18 swept))) = SWait) as Hs by (vm_compute; reflexivity).
  split; [done|]. destruct (Hwait Hs) as [Hw|Ht]; [|done]. vm_compute in Hw. vm_compute. discriminate.
Defined.

(** [Close] while the writer waits for the two pages of the third record: it
    gives up although the sweeper has freed them by then. *)
Definition crowded : list label :=
  [LWrite r3; LRecv; LCommit; LWake; LWrite r3; LRecv; LCommit; LWake; LWrite r3; LRecv; LWait; LClose].
Definition crowded_end : list label :=
  replicate 6 LSweep ++ [LGiveUp; LSeeClose; LDrained] ++ replicate 3 LSweep ++ [LSweepDone]
    ++ replicate 6 LSweep.

Lemma close_completes_witness :
  let b := after crowded in let b' := after (crowded ++ crowded_end) in
  b_used b = 256 ∧ w_pc (b_writer b') = WExit ∧ s_pc (b_sweeper b') = SExit ∧
  b_used b' = 0 ∧ b_writeCh b' = [] ∧
  (∃ outs lost, b_accepted b ≡ₚ outs.*1 ++ lost ∧ all_events b' = outs.*2 ∧ Forall outcome_ok outs ∧
     gave_up (crowded ++ crowded_end) start lost) ∧
  ∃ c, run (take 18 (crowded ++ crowded_end)) start = Some c ∧ b_closed c = true ∧
    found_full (take 18 (crowded ++ crowded_end)) start c.
Proof.
  assert (run crowded start = Some (after crowded)) as Hrun by (vm_compute; reflexivity).
  assert (run crowded_end (after crowded) = Some (after (crowded ++ crowded_end))) as Hrun'
    by (vm_compute; reflexivity).
  destruct (close_completes (zeroes 320) 0 crowded (after crowded) crowded_end
    (after (crowded ++ crowded_end))) as (_ & _ & Hdone & Hgu);
    [reflexivity|lia|exact Hrun|reflexivity|valid_tac|times_tac| |exact Hrun'|].
  { repeat (apply Forall_cons_2; [exact I|]). apply Forall_nil_2. }
  destruct Hdone as (Hu & Hq & Hacc); [split; vm_compute; reflexivity|].
  split; [vm_compute; reflexivity|]. split; [vm_compute; reflexivity|]. split; [vm_compute; reflexivity|].
  split; [exact Hu|]. split; [exact Hq|]. split; [exact Hacc|].
  apply (Hgu _ (drop 19 (crowded ++ crowded_end))). vm_compute. reflexivity.
Defined.
