(* ===== verification/BufferFaults.v ===== *)
(** * The span buffer when the file fails

    [exec] of SpanBuffer.v has a file that never fails. Here every access to it
    may: the writes of [flush] and of the large branch of [handle], the read of a
    page and those of the chunks of a large record, and the write back. What each
    failure costs, and which failures the buffer gets over. *)

From S2P Require Import Prelude Bytes Format Ring Interest Writer Sweeper SpanBuffer BufferInv BufferSpec Demo.

Section faults.
Context {cfg : BufCfg} {Hok : BufCfgOk cfg}.

(** ** The transitions *)

(** A read that fails reads nothing: the payload, made of zeroes, is as if the
    file had zeroes there. [ks] are the chunks whose reads fail. *)
Definition unread (ks : list Z) (rHead : Z) (file : bytes) : bytes :=
  foldr (λ k f, copy_at f ((rHead + k * pageSize) mod maxBytes) (zeroes pageSize)) file ks.

Inductive io_label :=
| IoOk (l : label)             (* no access fails *)
| IoFlush                      (* the WriteAt of flush *)
| IoLarge (io : nat → bool)    (* those of a large record: which succeed *)
| IoRead                       (* the ReadAt of runSweeper *)
| IoChunks (ks : list Z)       (* the ReadAts of processPage: which fail *)
| IoWriteBack.                 (* the WriteAt of processPage *)

Definition commit (r : writer * bytes * Z) (b : SpanBuffer) : SpanBuffer :=
  set_writer r.1.1 (set_file r.1.2 (set_used r.2 b)).

Definition io_exec (l : io_label) (b : SpanBuffer) : option SpanBuffer :=
  let w := b_writer b in
  let sw := b_sweeper b in
  match l with
  | IoOk l => exec l b
  | IoFlush =>
      match w_pc w with
      | WFlush k => if w_waiting w || must_wait (b_used b) pageSize then None
                    else Some (commit (flush_commit false k w (b_file b) (b_used b)) b)
      | _ => None
      end
  | IoLarge io =>
      match w_pc w with
      | WPages req => if w_waiting w || must_wait (b_used b) (numChunks (len (data req)) * pageSize) then None
                      else Some (commit (large_commit io req w (b_file b) (b_used b)) b)
      | _ => None
      end
  | IoRead => sweep_unreadable b
  | IoChunks ks =>
      match s_pc sw with
      | SScan press used0 sc =>
          if sc_pos sc + hdrSize <=? pageSize then
            let '(sc, again) := page_iter (View (b_now b) (b_interest b)) used0 press
                                  (unread ks (s_head sw) (b_file b)) (s_head sw) sc in
            Some (go_sweeper (if again then SScan press used0 sc else SBack sc) b)
          else None
      | _ => None
      end
  | IoWriteBack =>
      match s_pc sw with
      | SBack sc => if sc_wb sc then Some (set_file (b_file b) (sweep_back sc b)) else None
      | _ => None
      end
  end.

Fixpoint io_run (ls : list io_label) (b : SpanBuffer) : option SpanBuffer :=
  match ls with
  | [] => Some b
  | l :: ls => b' ← io_exec l b; io_run ls b'
  end.

(** ** The failures the buffer gets over *)

(** The page at the sweeper's head begins with a small record, or is empty. *)
Definition small_page (b : SpanBuffer) : bool :=
  let h := s_head (b_sweeper b) in
  hdrSize + Uint32 (slice (slice (b_file b) h (h + pageSize)) 24 28) <=? pageSize.

(** A flush by the ticker, which is tried again; the first page of a large
    record; the read of a page of small records; the write back of a page that is
    done with. *)
Definition tolerated (l : io_label) (b : SpanBuffer) : bool :=
  match l with
  | IoOk _ => true
  | IoFlush => match w_pc (b_writer b) with WFlush KTick => true | _ => false end
  | IoLarge io => negb (io O)
  | IoRead => small_page b
  | IoChunks _ => false
  | IoWriteBack => match s_pc (b_sweeper b) with SBack sc => sc_full sc | _ => false end
  end.

(** Those that lose requests. *)
Definition loses (l : io_label) : bool := match l with IoLarge _ | IoRead => true | _ => false end.

Fixpoint tolerated_run (ls : list io_label) (b : SpanBuffer) : bool :=
  match ls with
  | [] => true
  | l :: ls => tolerated l b && match io_exec l b with Some b => tolerated_run ls b | None => false end
  end.

(** A failure that one wants to allow, and the states that runs with such failures
    get to. [may_lose] says whether those that lose requests are allowed. *)
Class FileFaults := { may_lose : bool }.

Definition permitted `{FileFaults} (l : io_label) (b : SpanBuffer) : bool :=
  match l with IoOk _ => false | _ => tolerated l b && (negb (loses l) || may_lose) end.

Definition io_step `{FileFaults} (b b' : SpanBuffer) : Prop :=
  step b b' ∨ ∃ l, permitted l b = true ∧ io_exec l b = Some b'.

Inductive io_reachable `{FileFaults} : SpanBuffer → Prop :=
| io_init file now : len file = maxBytes → io_reachable (init_buffer file now)
| io_next b b' : io_reachable b → io_step b b' → io_reachable b'.

(** ** The history of what was accepted is read by nothing *)

Lemma sweep_back_history sc b acc : sweep_back sc (set_accepted acc b) = set_accepted acc (sweep_back sc b).
Proof. unfold sweep_back. simpl. by destruct (sc_full sc), (0 <? sc_minRem sc). Qed.

Lemma sweep_history b b' acc : sweep b = Some b' → sweep (set_accepted acc b) = Some (set_accepted acc b').
Proof.
  unfold sweep. simpl. intros He. destruct (s_pc (b_sweeper b)); try done; simplify_eq.
  - by destruct (b_used b =? 0), (s_closing (b_sweeper b)).
  - done.
  - destruct (_ <=? _); [|done]. by destruct (page_iter _ _ _ _ _ _).
  - by rewrite sweep_back_history.
  - done.
Qed.

Lemma exec_accepted l b b' acc :
  exec l b = Some b' →
  ∃ new, b_accepted b' = b_accepted b ++ new ∧
    exec l (set_accepted acc b) = Some (set_accepted (acc ++ new) b').
Proof.
  intros He. destruct l; cbn [exec] in *.
  { destruct (b_closed b) eqn:Hc; [done|]. simplify_eq. simpl. rewrite Hc. unfold Write. simpl.
    destruct (_ && _); [exists []; by rewrite !app_nil_r|].
    destruct (_ <? _); [|exists []; by rewrite !app_nil_r]. by exists [req]. }
  all: exists []; rewrite !app_nil_r; simpl.
  all: try (repeat (case_match; try done); simplify_eq/=; done).
  - split; [by apply sweep_accepted|by apply sweep_history].
  - unfold sweep_selects in *. simpl. by destruct (_ && _); simplify_eq.
  - unfold sweep_selects, writerDone in *. simpl. by destruct (_ && _); simplify_eq.
Qed.

(** ** The invariant, with what failures lost *)

(** The buffer as if what was skipped had never been accepted. *)
Definition FaultInv (outs : list (writeReq * event)) (lost skipped : list writeReq) (b : SpanBuffer) : Prop :=
  ∃ acc, b_accepted b ≡ₚ acc ++ skipped ∧ InvO outs lost (set_accepted acc b).

Lemma fault_valid skipped b acc :
  Forall valid_req (b_accepted b) → b_accepted b ≡ₚ acc ++ skipped → Forall valid_req acc.
Proof. intros Hv Hp. rewrite Hp in Hv. by apply Forall_app in Hv as [? _]. Qed.

(** What a failure takes out of the ring or of the writer is skipped. *)
Lemma fault_skip outs lost skipped b acc acc' gone b' :
  b_accepted b' = b_accepted b → b_accepted b ≡ₚ acc ++ skipped → acc ≡ₚ acc' ++ gone →
  InvO outs lost (set_accepted acc' b') → FaultInv outs lost (skipped ++ gone) b'.
Proof.
  intros Ea Hp Hp' Hi. exists acc'. split; [|done]. rewrite Ea, Hp, Hp', <- app_assoc. f_equiv. apply Permutation_app_comm.
Qed.

(** A flush by the ticker: the stage is kept. *)
Lemma fault_flush outs lost b :
  w_pc (b_writer b) = WFlush KTick → InvO outs lost b →
  InvO outs lost (commit (flush_commit false KTick (b_writer b) (b_file b) (b_used b)) b).
Proof.
  intros Hpc (us & cur & rs & Hinv). pose proof (inv_writer _ _ _ _ _ _ Hinv) as [Hst _].
  replace (commit _ b) with (set_writer (set_pc WSelect (b_writer b)) b) by (by destruct b).
  eapply inv_writer_local; [done| |done|].
  - split; [by apply stage_ok_pc|done].
  - unfold inflight. by rewrite Hpc.
Qed.

(** The first page of a large record: the request is gone. *)
Lemma fault_large outs lost b req io acc :
  w_pc (b_writer b) = WPages req → io O = false → InvO outs lost (set_accepted acc b) →
  ∃ acc', acc ≡ₚ acc' ++ [req] ∧
    InvO outs lost (set_accepted acc' (commit (large_commit io req (b_writer b) (b_file b) (b_used b)) b)).
Proof.
  intros Hpc Hio (us & cur & rs & Hinv). pose proof (inv_writer _ _ _ _ _ _ Hinv) as [Hst Hw]. simpl in Hst, Hw.
  rewrite Hpc in Hw. destruct Hw as [-> Hlf]. unfold large_commit, commit. rewrite Hio. simpl.
  exists (b_writeCh b ++ alive_reqs cur ++ units_live (tail us) ++ outs.*1 ++ lost).
  destruct Hinv as [Hr Hh Hw Hs Ha Hev Ho Hwhere Hl Hf Hq]. simpl in *. unfold inflight in Hwhere. rewrite Hpc in Hwhere.
  assert (acc ≡ₚ (b_writeCh b ++ alive_reqs cur ++ units_live (tail us) ++ outs.*1 ++ lost) ++ [req]) as Hacc
    by perm_solve Hwhere.
  split; [done|]. exists us, cur, []. constructor; simpl; try done.
  - split; [|done]. pose proof (stage_nil_0 _ Hst) as H0. destruct Hst as [Hlen Hn Hfit Hst Hv].
    pose proof cfg_page. unfold hdrSize in *. split; simpl; try done; [|by eexists].
    unfold first_chunk, copied, hdrSize. rewrite length_fill_from; rewrite ?length_copy_at; rewrite ?length_copy_at;
      rewrite ?length_copy_at; rewrite ?length_copy_at; lia.
  - rewrite Hacc in Hf. by apply Forall_app in Hf as [? _].
Qed.
(** Where a large record begins there is no small page. *)
Lemma small_page_large b s us :
  ring_holds (s_head (b_sweeper b)) (b_file b) (b_used b) (ULarge s :: us) → small_page b = false.
Proof.
  intros Hr. destruct (large_head_page _ _ _ _ _ Hr) as [post E].
  pose proof (rh_ok _ _ _ _ Hr) as [[Hv Hbig] _]%Forall_cons. simpl in Hv, Hbig. rewrite Forall_singleton in Hv.
  unfold small_page. rewrite E. rewrite (read_len [] post _ _ _ 0);
    [|by apply wf_slot_tid, Hv|done|pose proof (valid_len _ Hv); lia].
  apply Z.leb_gt. exact Hbig.
Qed.

(** The first unit of the ring leaves it, and the sweeper goes on behind it. *)
Lemma inv_pop u us cur rs outs lost acc b n :
  inv_at (u :: us) cur rs outs lost (set_accepted acc b) → n = unit_chunks u * pageSize →
  ∃ acc', acc ≡ₚ acc' ++ alive_reqs cur ∧
    InvO outs lost (set_accepted acc'
      (set_used (i64 (b_used b - n))
        (set_sweeper (MkSweeper ((s_head (b_sweeper b) + n) mod maxBytes) (s_closing (b_sweeper b)) SFreed)
          (set_events (all_events b) b)))).
Proof.
  intros [Hr Hh Hw Hs Ha Hev Ho Hwhere Hl Hf Hq] ->. simpl in *.
  pose proof (ring_pop _ _ _ _ _ Hr) as Hr'.
  pose proof (rh_nonneg _ _ _ _ Hr') as Hnn. pose proof (rh_le _ _ _ _ Hr') as Hle.
  pose proof cfg_max. pose proof max_pos.
  exists (b_writeCh b ++ inflight (b_writer b) ++ rs ++ units_live us ++ outs.*1 ++ lost).
  assert (acc ≡ₚ (b_writeCh b ++ inflight (b_writer b) ++ rs ++ units_live us ++ outs.*1 ++ lost) ++ alive_reqs cur) as Hacc
    by perm_solve Hwhere.
  split; [done|]. exists us, (match us with [] => [] | v :: _ => unit_slots v end), rs.
  constructor; simpl; try done; try rewrite i64_small by (unfold is_i64, min_i64; lia).
  - done.
  - by rewrite <- head_pop.
  - by apply Forall_cons in Ha as [_ ?].
  - unfold all_events at 1. simpl. by rewrite app_nil_r.
  - by rewrite (app_assoc (alive_reqs _)), <- units_live_split.
  - rewrite Hacc in Hf. by apply Forall_app in Hf as [? _].
Qed.

(** A page of small records that cannot be read: its records are gone. *)
Lemma fault_read outs lost b b' acc :
  sweep_unreadable b = Some b' → small_page b = true → InvO outs lost (set_accepted acc b) →
  ∃ acc' gone, acc ≡ₚ acc' ++ gone ∧ InvO outs lost (set_accepted acc' b').
Proof.
  intros He Hsm (us & cur & rs & Hinv). unfold sweep_unreadable in He.
  destruct (s_pc (b_sweeper b)) eqn:Hpc; try done. simplify_eq.
  pose proof (inv_sweeper _ _ _ _ _ _ Hinv) as Hs. unfold sweeper_inv in Hs. simpl in Hs. rewrite Hpc in Hs.
  destruct Hs as (u & us' & -> & ->). pose proof (inv_ring _ _ _ _ _ _ Hinv) as Hr. simpl in Hr.
  destruct u as [l|s]; [|by rewrite (small_page_large _ _ _ Hr) in Hsm].
  destruct (inv_pop _ _ _ _ _ _ _ _ pageSize Hinv) as (acc' & Hp & Hi); [simpl; lia|].
  exists acc', (alive_reqs l). split; [done|].
  assert (all_events b = b_events b) as Eev by (unfold all_events; by rewrite Hpc, app_nil_r).
  rewrite Eev in Hi. by destruct b.
Qed.

(** The write back of a page that is done with: nothing is gone. *)
Lemma fault_write_back outs lost b sc acc :
  s_pc (b_sweeper b) = SBack sc → sc_full sc = true → InvO outs lost (set_accepted acc b) →
  ∃ acc', acc ≡ₚ acc' ++ [] ∧ InvO outs lost (set_accepted acc' (set_file (b_file b) (sweep_back sc b))).
Proof.
  intros Hpc Hfull (us & cur & rs & Hinv).
  pose proof (inv_sweeper _ _ _ _ _ _ Hinv) as Hs. unfold sweeper_inv in Hs. simpl in Hs. rewrite Hpc in Hs.
  destruct Hs as (u & us' & -> & Hback).
  assert (sc_chunks sc = unit_chunks u ∧ alive_reqs cur = []) as [Hch Hdead].
  { destruct u as [l|s]; simpl in Hback.
    - destruct Hback as (_ & _ & _ & Hch & _ & Hd). split; [done|]. apply alive_all_dead. by rewrite <- Hd.
    - destruct Hback as [(_ & ? & _)|(-> & _ & _ & Hch & _)]; [congruence|done]. }
  destruct (inv_pop _ _ _ _ _ _ _ _ (sc_chunks sc * pageSize) Hinv) as (acc' & Hp & Hi); [by rewrite Hch|].
  rewrite Hdead in Hp. exists acc'. split; [done|].
  assert (all_events b = b_events b ++ sc_events sc) as Eev by (unfold all_events; by rewrite Hpc).
  rewrite Eev in Hi. unfold sweep_back. rewrite Hfull. by destruct b.
Qed.

Lemma fault_step outs lost skipped l b b' :
  tolerated l b = true → io_exec l b = Some b' → Forall valid_req (b_accepted b) → FaultInv outs lost skipped b →
  ∃ outs' lost' gone, FaultInv outs' lost' (skipped ++ gone) b' ∧ (loses l = false → gone = []).
Proof.
  intros Ht He Hv (acc & Hp & Hinv). pose proof (fault_valid _ _ _ Hv Hp) as Hva.
  assert (∀ acc' gone, b_accepted b' = b_accepted b → (loses l = false → gone = []) → acc ≡ₚ acc' ++ gone →
    InvO outs lost (set_accepted acc' b') →
    ∃ outs' lost' gone, FaultInv outs' lost' (skipped ++ gone) b' ∧ (loses l = false → gone = [])) as Hskip.
  { intros acc' gone Ea Hg Hp' Hi. exists outs, lost, gone. split; [|done]. by eapply fault_skip. }
  destruct l as [l| |io| | |]; cbn [io_exec] in He; try done.
  - destruct (exec_accepted _ _ _ acc He) as (new & Ea & He').
    destruct (inv_step _ _ _ _ (ex_intro _ l He') Hva Hinv) as (outs' & lost' & Hi & _).
    exists outs', lost', []. split; [|done]. exists (acc ++ new). split; [|done].
    rewrite Ea, Hp, app_nil_r, <- !app_assoc. f_equiv. apply Permutation_app_comm.
  - simpl in Ht. destruct (w_pc (b_writer b)) as [|[]| | | |] eqn:Hpc; try done. destruct (_ || must_wait _ _); [done|]. simplify_eq.
    apply (Hskip acc []); [done|done|by rewrite app_nil_r|]. by apply (fault_flush _ _ (set_accepted acc b)).
  - simpl in Ht. destruct (w_pc (b_writer b)) eqn:Hpc; try done. destruct (_ || must_wait _ _); [done|]. simplify_eq.
    destruct (fault_large _ _ _ _ io _ Hpc ltac:(by destruct (io O)) Hinv) as (acc' & Hp' & Hi). by apply (Hskip acc' [req]).
  - destruct (fault_read _ _ _ _ _ He Ht Hinv) as (acc' & gone & Hp' & Hi). apply (Hskip acc' gone); try done.
    unfold sweep_unreadable in He. destruct (s_pc _); by simplify_eq.
  - simpl in Ht. destruct (s_pc (b_sweeper b)) eqn:Hpc; try done. destruct (sc_wb sc); [|done]. simplify_eq.
    destruct (fault_write_back _ _ _ _ _ Hpc Ht Hinv) as (acc' & Hp' & Hi). apply (Hskip acc' []); try done.
    unfold sweep_back. by rewrite Ht.
Qed.
(** A failure that is tolerated touches nothing the clients see. *)
Record same_front (b b' : SpanBuffer) : Prop := {
  sf_accepted : b_accepted b' = b_accepted b;
  sf_interest : b_interest b' = b_interest b;
  sf_now : b_now b' = b_now b;
  sf_closed : b_closed b' = b_closed b;
  sf_wakes : b_wakes b' = b_wakes b;
  sf_queue : b_writeCh b' = b_writeCh b;
  sf_events : all_events b' = all_events b;
}.

Lemma fault_front l b b' :
  match l with IoOk _ => False | _ => True end → tolerated l b = true → io_exec l b = Some b' → same_front b b'.
Proof.
  intros Hl Ht He. destruct l as [l| |io| | |]; cbn [io_exec] in He; try done.
  - destruct (w_pc _); try done. destruct (_ || must_wait _ _); by simplify_eq.
  - destruct (w_pc _); try done. destruct (_ || must_wait _ _); by simplify_eq.
  - unfold sweep_unreadable in He. destruct (s_pc _) eqn:Hpc; simplify_eq. split; try done.
    unfold all_events. simpl. by rewrite Hpc.
  - destruct (s_pc _) eqn:Hpc; try done. destruct (sc_wb sc); [|done]. simplify_eq. simpl in Ht. rewrite Hpc in Ht.
    unfold sweep_back. rewrite Ht. split; try done. unfold all_events. simpl. by rewrite Hpc, app_nil_r.
Qed.

(** Where the accepted requests are. *)
Lemma fault_placed outs lost skipped b :
  FaultInv outs lost skipped b →
  ∃ pending, b_accepted b ≡ₚ pending ++ outs.*1 ++ lost ++ skipped ∧ all_events b = outs.*2 ∧ Forall outcome_ok outs ∧
    (b_closed b = false → lost = []) ∧ w_pc (b_writer b) ≠ WPanic ∧
    (b_writeCh b = [] → inflight (b_writer b) = [] → w_stageN (b_writer b) = 0 → b_used b = 0 → pending = []).
Proof.
  intros (acc & Hp & Hinv). destruct (placed outs lost (set_accepted acc b) Hinv) as (pending & Hw & Hq).
  exists pending. destruct Hinv as (us & cur & rs & Hinv). split; [|split; [|split; [|split; [|split]]]].
  - simpl in Hw. by rewrite Hp, Hw, <- !app_assoc.
  - apply (inv_events _ _ _ _ _ _ Hinv).
  - apply (inv_outs _ _ _ _ _ _ Hinv).
  - apply (inv_lost _ _ _ _ _ _ Hinv).
  - pose proof (inv_writer _ _ _ _ _ _ Hinv) as [_ Hwr]. intros Hpc. simpl in Hwr. by rewrite Hpc in Hwr.
  - exact Hq.
Qed.

Lemma io_accepted l b b' : tolerated l b = true → io_exec l b = Some b' → ∃ new, b_accepted b' = b_accepted b ++ new.
Proof.
  intros Ht He. destruct l as [l'| |io| | |] eqn:El; [apply accepted_mono; by exists l'|..];
    (exists []; rewrite app_nil_r; apply (sf_accepted b b'), (fault_front l); rewrite ?El; done).
Qed.

Lemma io_run_accepted ls b b' :
  io_run ls b = Some b' → tolerated_run ls b = true → ∃ new, b_accepted b' = b_accepted b ++ new.
Proof.
  revert b. induction ls as [|l ls IH]; intros b Hr Ht; cbn [io_run tolerated_run] in *.
  { simplify_eq. exists []. by rewrite app_nil_r. }
  apply andb_true_iff in Ht as [Ht1 Ht2]. destruct (io_exec l b) as [b1|] eqn:He; [|done].
  destruct (io_accepted _ _ _ Ht1 He) as [n1 E1], (IH _ Hr Ht2) as [n2 E2].
  exists (n1 ++ n2). by rewrite E2, E1, app_assoc.
Qed.

Lemma fault_run ls outs lost skipped b b' :
  io_run ls b = Some b' → tolerated_run ls b = true → Forall valid_req (b_accepted b') → FaultInv outs lost skipped b →
  ∃ outs' lost' gone, FaultInv outs' lost' (skipped ++ gone) b' ∧ (Forall (λ l, loses l = false) ls → gone = []).
Proof.
  revert outs lost skipped b. induction ls as [|l ls IH]; intros outs lost skipped b Hr Ht Hv Hinv; cbn [io_run tolerated_run] in *.
  { simplify_eq. exists outs, lost, []. by rewrite app_nil_r. }
  apply andb_true_iff in Ht as [Ht1 Ht2]. destruct (io_exec l b) as [b1|] eqn:He; [|done]. cbn [mbind option_bind] in Hr.
  assert (Forall valid_req (b_accepted b1)) as Hv1.
  { destruct (io_run_accepted _ _ _ Hr Ht2) as [n E]. rewrite E in Hv. by apply Forall_app in Hv as [? _]. }
  assert (Forall valid_req (b_accepted b)) as Hv0.
  { destruct (io_accepted _ _ _ Ht1 He) as [n E]. rewrite E in Hv1. by apply Forall_app in Hv1 as [? _]. }
  destruct (fault_step _ _ _ _ _ _ Ht1 He Hv0 Hinv) as (o1 & l1 & g1 & Hi1 & Hg1).
  destruct (IH _ _ _ _ Hr Ht2 Hv Hi1) as (o2 & l2 & g2 & Hi2 & Hg2).
  exists o2, l2, (g1 ++ g2). split; [by rewrite app_assoc|]. intros [Hl Hls]%Forall_cons. by rewrite Hg1, Hg2.
Qed.

(** *** The states *)

Lemma fault_ctl l b b' :
  match l with IoOk _ => False | _ => True end → tolerated l b = true → io_exec l b = Some b' → ctl b → ctl b'.
Proof.
  intros Hl Ht He [H1 H2 H3 H4 H5 H6].
  destruct l as [l| |io| | |]; cbn [io_exec tolerated] in He, Ht; try done.
  - destruct (w_pc (b_writer b)) as [|[]| | | |] eqn:Hpc; try done. destruct (_ || must_wait _ _); simplify_eq.
    split; simpl; try done; rewrite ?Hpc in *; intros ?; naive_solver.
  - destruct (w_pc (b_writer b)) as [| |req| | |] eqn:Hpc; try done. destruct (_ || must_wait _ _); simplify_eq.
    unfold commit, large_commit. rewrite (proj1 (negb_true_iff _) Ht).
    split; simpl; try done; rewrite ?Hpc in *; intros ?; naive_solver.
  - unfold sweep_unreadable in He. destruct (s_pc (b_sweeper b)) eqn:Hpc; simplify_eq. by split.
  - destruct (s_pc (b_sweeper b)) eqn:Hpc; try done. destruct (sc_wb sc); simplify_eq. unfold sweep_back. rewrite Ht. by split.
Qed.

Section permitted.
Context `{FileFaults}.

Lemma permitted_tolerated l b :
  permitted l b = true → match l with IoOk _ => False | _ => True end ∧ tolerated l b = true ∧ (may_lose = false → loses l = false).
Proof.
  unfold permitted. destruct l; [done|..]; (intros [? Hm]%andb_true_iff; split; [done|]; split; [done|]);
    intros E; rewrite E, orb_false_r in Hm; by apply negb_true_iff.
Qed.

Lemma permitted_front l b b' : permitted l b = true → io_exec l b = Some b' → same_front b b'.
Proof. intros (Hl & Ht & _)%permitted_tolerated He. by eapply fault_front. Qed.

Lemma io_step_ctl b b' : io_step b b' → ctl b → ctl b'.
Proof.
  intros [Hst|(l & (Hl & Ht & _)%permitted_tolerated & He)] Hc; [by eapply ctl_step|by eapply fault_ctl].
Qed.

Lemma io_steps_ctl b b' : rtc io_step b b' → ctl b → ctl b'.
Proof. induction 1 as [|b b1 b' Hst _ IH]; [done|]. intros Hc. by eapply IH, io_step_ctl. Qed.

Lemma io_reachable_ctl b : io_reachable b → ctl b.
Proof.
  induction 1 as [file now Hf|b b' _ IH Hst]; [by apply reachable_ctl, reach_init|by eapply io_step_ctl].
Qed.

Lemma reachable_io b : reachable b → io_reachable b.
Proof.
  induction 1 as [file now Hf|b b' _ IH Hst]; [by apply io_init|]. eapply io_next; [done|by left].
Qed.

Lemma run_io_steps ls b b' : run ls b = Some b' → rtc io_step b b'.
Proof.
  revert b. induction ls as [|l ls IH]; intros b Hr; cbn [run] in Hr; [simplify_eq; apply rtc_refl|].
  destruct (exec l b) as [b1|] eqn:He; [|done]. eapply rtc_l; [left; by exists l|by apply IH].
Qed.

Lemma io_steps_reachable b b' : rtc io_step b b' → io_reachable b → io_reachable b'.
Proof. induction 1 as [|b b1 b' Hst _ IH]; [done|]. intros Hb. apply IH. by eapply io_next. Qed.

Lemma io_step_accepted b b' : io_step b b' → ∃ new, b_accepted b' = b_accepted b ++ new.
Proof.
  intros [Hst|(l & (_ & Ht & _)%permitted_tolerated & He)]; [by apply accepted_mono|by eapply io_accepted].
Qed.

Lemma io_reachable_inv b :
  io_reachable b → Forall valid_req (b_accepted b) →
  ∃ outs lost skipped, FaultInv outs lost skipped b ∧ (may_lose = false → skipped = []).
Proof.
  induction 1 as [file now Hf|b b' Hr IH Hst]; intros Hv.
  { exists [], [], []. split; [|done]. exists []. split; [done|by apply inv_init]. }
  destruct (io_step_accepted _ _ Hst) as [new Hn]. rewrite Hn in Hv. apply Forall_app in Hv as [Hv _].
  destruct (IH Hv) as (outs & lost & skipped & Hi & Hs).
  assert (∃ l, tolerated l b = true ∧ io_exec l b = Some b' ∧ (may_lose = false → loses l = false)) as (l & Ht & He & Hl).
  { destruct Hst as [[l He]|(l & (_ & Ht & Hl)%permitted_tolerated & He)]; [by exists (IoOk l)|by exists l]. }
  destruct (fault_step _ _ _ _ _ _ Ht He Hv Hi) as (outs' & lost' & gone & Hi' & Hg).
  exists outs', lost', (skipped ++ gone). split; [done|]. intros Hm. by rewrite (Hs Hm), (Hg (Hl Hm)).
Qed.

Lemma io_conserved b :
  io_reachable b → Forall valid_req (b_accepted b) →
  ∃ pending outs lost skipped,
    b_accepted b ≡ₚ pending ++ outs.*1 ++ lost ++ skipped ∧ all_events b = outs.*2 ∧ Forall outcome_ok outs ∧
    (b_closed b = false → lost = []) ∧ (may_lose = false → skipped = []) ∧
    (b_writeCh b = [] → inflight (b_writer b) = [] → w_stageN (b_writer b) = 0 → b_used b = 0 → pending = []).
Proof.
  intros Hr Hv. destruct (io_reachable_inv _ Hr Hv) as (outs & lost & skipped & Hi & Hs).
  destruct (fault_placed _ _ _ _ Hi) as (pending & H1 & H2 & H3 & H4 & _ & H6). by exists pending, outs, lost, skipped.
Qed.
End permitted.

(** C12: the failures of the file that the buffer gets over. Flushes by the ticker
    may fail, and first pages of large records, reads of pages of small records,
    and write backs of pages that are done with: it remains true that each
    accepted request is pending, had one callback, the right one, was dropped
    after [Close], or was on a page skipped or in a large record given up; none is
    of the last kind if only flushes and write backs failed. The writer does not
    panic, and nothing is pending when all is quiet. *)
Theorem faults_tolerated file now ls b :
  len file = maxBytes → io_run ls (init_buffer file now) = Some b → tolerated_run ls (init_buffer file now) = true →
  Forall valid_req (b_accepted b) →
  ∃ pending outs lost skipped,
    b_accepted b ≡ₚ pending ++ outs.*1 ++ lost ++ skipped ∧ all_events b = outs.*2 ∧ Forall outcome_ok outs ∧
    (b_closed b = false → lost = []) ∧ (Forall (λ l, loses l = false) ls → skipped = []) ∧
    w_pc (b_writer b) ≠ WPanic ∧
    (b_writeCh b = [] → inflight (b_writer b) = [] → w_stageN (b_writer b) = 0 → b_used b = 0 → pending = []).
Proof.
  intros Hfile Hr Ht Hv.
  assert (FaultInv [] [] [] (init_buffer file now)) as H0 by (exists []; split; [done|by apply inv_init]).
  destruct (fault_run _ _ _ _ _ _ Hr Ht Hv H0) as (outs & lost & skipped & Hinv & Hs).
  destruct (fault_placed _ _ _ _ Hinv) as (pending & H1 & H2 & H3 & H4 & H5 & H6). by exists pending, outs, lost, skipped.
Qed.
End faults.

(** ** A run with every failure that is tolerated

    The flush of [r1]'s page is tried twice, [r3] is given up, the page of [r1]
    cannot be read, and the page of [r2] is not written back. *)
Abbreviation fine := (fmap (M:=list) IoOk).

Definition demo_faults : list io_label :=
  fine [LWrite r1; LRecv; LTick] ++ [IoFlush] ++ fine [LTick; LCommit; LWake; LWrite r3; LRecv]
    ++ [IoLarge (λ _, false)] ++ fine [LSweep] ++ [IoRead]
    ++ fine [LSweep; LWrite r2; LRecv; LTick; LCommit; LWake; LTime 20; LSweep; LSweep; LSweep; LSweep]
    ++ [IoWriteBack] ++ fine [LSweep].

Definition io_after (ls : list io_label) : SpanBuffer := default start (io_run ls start).

Lemma faults_tolerated_witness :
  b_accepted (io_after demo_faults) = [r1; r3; r2] ∧ all_events (io_after demo_faults) = [EEvict 18] ∧
  ∃ outs lost skipped, [r1; r3; r2] ≡ₚ outs.*1 ++ lost ++ skipped ∧ outs.*2 = [EEvict 18] ∧ lost = [].
Proof.
  assert (b_accepted (io_after demo_faults) = [r1; r3; r2]) as Ea by (vm_compute; reflexivity).
  assert (all_events (io_after demo_faults) = [EEvict 18]) as Ee by (vm_compute; reflexivity).
  split; [exact Ea|]. split; [exact Ee|].
  destruct (faults_tolerated (zeroes 320) 0 demo_faults (io_after demo_faults)) as (pend & outs & lost & skipped & H).
  - reflexivity.
  - vm_compute. reflexivity.
  - vm_compute. reflexivity.
  - rewrite Ea. valid_tac.
  - destruct H as (Hp & Hev & _ & Hl & _ & _ & Hq). rewrite Ea in Hp. rewrite Ee in Hev.
    rewrite Hq in Hp by (vm_compute; reflexivity). exists outs, lost, skipped.
    split; [exact Hp|]. split; [exact (eq_sym Hev)|]. apply Hl. vm_compute. reflexivity.
Defined.

(** ** What is not tolerated

    The write back of a page that stays fails: its decided record is delivered
    again by the next pass. *)
Example write_back_redelivers :
  let ls := fine [LWrite r1; LWrite r2; LRecv; LRecv; LTick; LCommit; LWake; LTime 5; LAddInterest (tid x0a);
                  LSweep; LSweep; LSweep; LSweep; LSweep]
    ++ [IoWriteBack] ++ fine [LWakeSend; LSweepWakeup; LSweep; LSweep; LSweep; LSweep] in
  b_accepted (io_after ls) = [r1; r2] ∧
  all_events (io_after ls) = [EMatch (tid x0a) (data r1); EMatch (tid x0a) (data r1)].
Proof. vm_compute. split; reflexivity. Qed.

(** The read of the second page of a large record fails: it is delivered with
    zeroes for what was not read. *)
Example unread_chunk_delivered :
  let ls := fine [LWrite r3; LRecv; LCommit; LWake; LTime 5; LAddInterest (tid x0c); LSweep; LSweep] ++ [IoChunks [1]] in
  all_events (io_after ls) = [EMatch (tid x0c) (replicate 36 x64 ++ zeroes 34)] ∧ data r3 = replicate 70 x64.
Proof. vm_compute. split; reflexivity. Qed.

(** The flush that makes room for a record fails: the writer panics. *)
Example failing_flush_panics :
  let big := WriteReq (tid x0d) (replicate 30 x65) 1 in
  let ls := fine [LWrite big; LWrite big; LRecv; LRecv] ++ [IoFlush] in
  w_pc (b_writer (io_after ls)) = WPanic.
Proof. vm_compute. reflexivity. Qed.
