(* ===== verification/PData.v ===== *)
(** * Trace data

    The trace data the processor handles ([ptrace.Traces] of the collector's
    pdata library). The library is not part of the repository: its types and
    accessors are fields of a class, and a slice of it ([ResourceSpansSlice] and
    so on) is a list. The concrete instance at the end is for examples. *)

From S2P Require Import Prelude Bytes.

Class PData := {
  Span : Type;
  SpanEvent : Type;
  Resource : Type;
  Scope : Type;
  Value : Type;
  span_eq_dec :: EqDecision Span;
  span_TraceID : Span → TraceID;
  span_StartTimestamp : Span → Z;               (* a pcommon.Timestamp, uint64 *)
  span_EndTimestamp : Span → Z;
  span_Status_Code : Span → Z;
  span_Flags : Span → Z;                        (* uint32 *)
  span_TraceState : Span → string;
  span_Events : Span → list SpanEvent;
  span_Attributes_Get : Span → string → option Value;
  resource_Attributes_Get : Resource → string → option Value;
  value_Bool : Value → bool;
  value_Int : Value → Z;                        (* int64 *)
  value_Str : Value → string;
  timestamp_AsTime : Z → Time;
}.

(** [AsTime] is [time.Unix(0, int64(ts))]; the status codes are those of the
    OTLP protocol. *)
Definition StatusCodeUnset : Z := 0.
Definition StatusCodeOk : Z := 1.
Definition StatusCodeError : Z := 2.

Class PDataOk (P : PData) : Prop := {
  asTime_nanos : ∀ ts, 0 <= ts <= max_i64 → timestamp_AsTime ts = ts;
  traceID_wf : ∀ s, wf_tid (span_TraceID s);
}.

Section data.
Context `{PData}.

Record ScopeSpans := MkScopeSpans {
  ss_Scope : Scope;
  ss_SchemaUrl : string;
  ss_Spans : list Span;
}.

Record ResourceSpans := MkResourceSpans {
  rs_Resource : Resource;
  rs_SchemaUrl : string;
  rs_ScopeSpans : list ScopeSpans;
}.

(** [ptrace.Traces]: its [ResourceSpans()]. *)
Definition Traces : Type := list ResourceSpans.

(** The spans of a trace in the order of the nested loops. *)
Definition rs_spans (rs : ResourceSpans) : list Span := mjoin (ss_Spans <$> rs_ScopeSpans rs).
Definition all_spans (td : Traces) : list Span := mjoin (rs_spans <$> td).

(** [td.SpanCount()] *)
Definition SpanCount (td : Traces) : Z := len (all_spans td).

(** The spans of [td] all belong to the trace [tid], and there is one in the
    first scope of the first resource. *)
Definition one_trace (tid : TraceID) (td : Traces) : Prop :=
  Forall (λ s, span_TraceID s = tid) (all_spans td) ∧
  match td with
  | rs :: _ => match rs_ScopeSpans rs with ss :: _ => ss_Spans ss ≠ [] | [] => False end
  | [] => False
  end.

Lemma one_trace_spans tid td : one_trace tid td → all_spans td ≠ [].
Proof.
  intros [_ Hne]. unfold all_spans, rs_spans. destruct td as [|[r u [|[s v [|x l]] sss]] td]; try done.
Qed.

Lemma all_spans_app td td' : all_spans (td ++ td') = all_spans td ++ all_spans td'.
Proof. unfold all_spans. by rewrite fmap_app, join_app. Qed.

Lemma all_spans_cons rs td : all_spans (rs :: td) = rs_spans rs ++ all_spans td.
Proof. done. Qed.
End data.

(** ** A concrete instance, for examples: spans with one attribute *)
Module Simple.
Record span := MkSpan {
  sp_tid : TraceID;
  sp_start : Z;
  sp_end : Z;
  sp_code : Z;
  sp_flags : Z;
  sp_attr : option (string * Z);
}.

#[export] Instance span_dec : EqDecision span.
Proof. solve_decision. Defined.

(** A [span] whose identifier has the right length. *)
Definition norm_tid (t : TraceID) : TraceID := take 16 (t ++ zero_tid).

Definition get (a : option (string * Z)) (k : string) : option (string + Z) :=
  match a with Some (k', v) => if String.eqb k k' then Some (inr v) else None | None => None end.

#[export] Instance pdata : PData | 100 := {
  Span := span;
  SpanEvent := unit;
  Resource := string;
  Scope := string;
  Value := string + Z;
  span_TraceID s := norm_tid (sp_tid s);
  span_StartTimestamp := sp_start;
  span_EndTimestamp := sp_end;
  span_Status_Code := sp_code;
  span_Flags := sp_flags;
  span_TraceState _ := String.EmptyString;
  span_Events _ := [];
  span_Attributes_Get s := get (sp_attr s);
  resource_Attributes_Get r k := if String.eqb k "name" then Some (inl r) else None;
  value_Bool v := match v with inr z => negb (z =? 0) | inl _ => false end;
  value_Int v := match v with inr z => z | inl _ => 0 end;
  value_Str v := match v with inl s => s | inr _ => String.EmptyString end;
  timestamp_AsTime t := t;
}.

#[export] Instance pdata_ok : PDataOk pdata.
Proof.
  split; [done|]. intros s. unfold wf_tid. simpl. unfold norm_tid.
  rewrite length_take, length_app. unfold zero_tid. rewrite length_replicate. lia.
Qed.
End Simple.
