(* ===== verification/Evaluator.v ===== *)
(** * The sampling policies

    internal/evaluator: the loops of util.go, the policies, the chain. What the
    policies take from libraries (regular expressions, groupcache's LRU cache,
    the parser of trace states, OTTL) are fields of the class [Libs]. The cache
    of a string policy is the only state; [Evaluate] returns the evaluator with
    its new caches. *)

From S2P Require Import Prelude Bytes PData.

Inductive Decision := NotSampled | Sampled | SampledLocal | Dropped.

#[global] Instance Decision_eq_dec : EqDecision Decision.
Proof. solve_decision. Defined.

(** OTTL for one kind of context, with condition sequences [Seq]: package
    ottlspan or ottlspanevent and their use of ottl and ottlfuncs. [None] is an
    error. *)
Record Ottl (ErrorMode Seq : Type) := {
  Factory : Type;
  Factory_Name : Factory → string;
  StandardConverters : gmap string Factory;
  Parser : Type;
  NewParser : gmap string Factory → option Parser;
  Condition : Type;
  ParseConditions : Parser → list string → option (list Condition);
  NewConditionSequence : list Condition → ErrorMode → Seq;
}.
Arguments Factory {_ _} _.
Arguments Factory_Name {_ _} _.
Arguments StandardConverters {_ _} _.
Arguments Parser {_ _} _.
Arguments NewParser {_ _} _.
Arguments Condition {_ _} _.
Arguments ParseConditions {_ _} _.
Arguments NewConditionSequence {_ _} _.

Class Libs `{PData} := {
  Regexp : Type;
  regexp_Compile : string → option Regexp;
  regexp_MatchString : Regexp → string → bool;
  (* groupcache/lru, with boolean values *)
  Cache : Type;
  lru_New : Z → Cache;
  lru_Get : Cache → string → option bool * Cache;
  lru_Add : Cache → string → bool → Cache;
  (* oteltrace.ParseTraceState, TraceState.Get *)
  TraceStateT : Type;
  ParseTraceState : string → option TraceStateT;
  TraceState_Get : TraceStateT → string → string;
  (* OTTL condition sequences for spans and span events *)
  ErrorMode : Type;
  SpanExpr : Type;
  SpanEventExpr : Type;
  ottlspan : Ottl ErrorMode SpanExpr;
  ottlspanevent : Ottl ErrorMode SpanEventExpr;
  NewIsRootSpanFactoryNew : Factory ottlspan;
  ottl_EvalSpan : SpanExpr → ResourceSpans → ScopeSpans → Span → option bool;   (* None: an error *)
  ottl_EvalSpanEvent : SpanEventExpr → ResourceSpans → ScopeSpans → Span → SpanEvent → option bool;
}.

(** What a cache may return for a key: after [lru_Add], the value added, and
    otherwise nothing it might not have returned before. *)
Class LibsOk `{PData} (L : Libs) := {
  lru_may : Cache → string → bool → Prop;
  lru_New_may : ∀ n k v, ¬ lru_may (lru_New n) k v;
  lru_Get_value : ∀ c k v, (lru_Get c k).1 = Some v → lru_may c k v;
  lru_Get_may : ∀ c k k' v, lru_may (lru_Get c k).2 k' v → lru_may c k' v;
  lru_Add_may : ∀ c k v k' v', lru_may (lru_Add c k v) k' v' → (k' = k ∧ v' = v) ∨ lru_may c k' v';
}.

Inductive evalError :=
| ErrNotDropped      (* not policy: sub-policy returned Dropped *)
| ErrNestedDrop      (* sub-policy returned Dropped *)
| ErrOTTL.           (* from ConditionSequence.Eval *)

(** ** The loops of util.go, for a condition with state [S] *)
Section loops.
Context `{PData} {S : Type}.

(** A loop that ends at the first element the condition holds for. *)
Fixpoint loop {A} (f : A → S → bool * S) (l : list A) (s : S) : bool * S :=
  match l with
  | [] => (false, s)
  | a :: l => let '(ok, s) := f a s in if ok then (true, s) else loop f l s
  end.

Definition hasSpanWithCondition (shouldSample : Span → S → bool * S) (td : Traces) (s : S) : Decision * S :=
  let '(ok, s) :=
    loop (λ rs, loop (λ ss, loop shouldSample (ss_Spans ss)) (rs_ScopeSpans rs)) td s in
  (if ok then Sampled else NotSampled, s).

Definition hasResourceOrSpanWithCondition (shouldSampleResource : Resource → S → bool * S)
    (shouldSampleSpan : Span → S → bool * S) (td : Traces) (s : S) : Decision * S :=
  let '(ok, s) :=
    loop (λ rs s,
      let '(ok, s) := shouldSampleResource (rs_Resource rs) s in
      if ok then (true, s)
      else loop (λ ss, loop shouldSampleSpan (ss_Spans ss)) (rs_ScopeSpans rs) s) td s in
  (if ok then Sampled else NotSampled, s).
End loops.

(** A condition without state. *)
Definition pure {A S} (f : A → bool) : A → S → bool * S := λ a s, (f a, s).

Section evaluator.
Context `{L : Libs}.

(** ** string_attribute.go *)

Definition defaultCacheSize : Z := 128.

Inductive matcher :=
| MExact (valuesMap : gset string)
| MRegexp (filterList : list Regexp) (cache : Cache).

Definition match_string (s : string) (m : matcher) : bool * matcher :=
  match m with
  | MExact values => (bool_decide (s ∈ values), m)
  | MRegexp filters cache =>
      let '(hit, cache) := lru_Get cache s in
      match hit with
      | Some v => (v, MRegexp filters cache)
      | None =>
          if existsb (λ r, regexp_MatchString r s) filters
          then (true, MRegexp filters (lru_Add cache s true))
          else (false, MRegexp filters (lru_Add cache s false))
      end
  end.

(** [compileFilters] *)
Fixpoint compileFilters (exprs : list string) : option (list Regexp) :=
  match exprs with
  | [] => Some []
  | e :: exprs => r ← regexp_Compile e; rs ← compileFilters exprs; Some (r :: rs)
  end.

Definition not_empty (s : string) : bool := negb (String.eqb s String.EmptyString).

(** [ok && saf.matcher(v.Str())], and for spans [v.Str() != ""] as well. *)
Definition string_condition (v : option Value) (m : matcher) : bool * matcher :=
  match v with Some v => match_string (value_Str v) m | None => (false, m) end.

Definition string_span_condition (v : option Value) (m : matcher) : bool * matcher :=
  match v with
  | Some v => if not_empty (value_Str v) then match_string (value_Str v) m else (false, m)
  | None => (false, m)
  end.

(** ** The policies *)
Inductive evaluator :=
| alwaysSample
| latency (thresholdMs upperThresholdMs : Z)
| statusCodeFilter (statusCodes : list Z)
| stringAttributeFilter (key : string) (m : matcher)
| numericAttributeFilter (key : string) (minValue maxValue : option Z)
| booleanAttributeFilter (key : string) (value : bool)
| probabilisticSampler (threshold hashSeed : Z)
| traceStateFilter (key : string) (valuesMap : gset string)
| traceFlags
| ottlConditionFilter (sampleSpanExpr : option SpanExpr) (sampleSpanEventExpr : option SpanEventExpr)
| andPolicy (subpolicies : list evaluator)
| notPolicy (subPolicyEvaluator : evaluator)
| dropPolicy (subpolicies : list evaluator).

(** *** latency.go *)

(** [d.Milliseconds()]: [int64(d) / 1e6], truncated. *)
Definition Milliseconds (d : Duration) : Z := Z.quot d 1000000.

(** The state is [minTime], [maxTime], both 0 at first. *)
Definition latency_condition (thresholdMs upperThresholdMs : Z) (span : Span) (s : Z * Z)
    : bool * (Z * Z) :=
  let '(minTime, maxTime) := s in
  let '(minTime, maxTime) :=
    if minTime =? 0 then (span_StartTimestamp span, span_EndTimestamp span)
    else (Z.min minTime (span_StartTimestamp span), Z.max maxTime (span_EndTimestamp span)) in
  let d := time_sub (timestamp_AsTime maxTime) (timestamp_AsTime minTime) in
  (if upperThresholdMs =? 0 then thresholdMs <=? Milliseconds d
   else (thresholdMs <? Milliseconds d) && (Milliseconds d <=? upperThresholdMs),
   (minTime, maxTime)).

(** *** probabilistic.go *)

Definition numHashBuckets : Z := 16384.

(** The FNV-1a hash of 32 bits ([hash/fnv]): offset basis and prime. *)
Definition fnv_offset32 : Z := 2166136261.
Definition fnv_prime32 : Z := 16777619.
Definition fnv_write (h : Z) (b : bytes) : Z :=
  foldl (λ h c, u32 (Z.lxor h (Z_of_byte c) * fnv_prime32)) h b.

(** [binary.LittleEndian.PutUint32] *)
Definition le_put32 (z : Z) : bytes := rev (be_put 4 z).

Definition hashTraceID (seed : Z) (b : bytes) : Z :=
  Z.land (fnv_write (fnv_write fnv_offset32 (le_put32 seed)) b) (numHashBuckets - 1).

Definition probabilistic_decision (threshold hashSeed : Z) (td : Traces) : Decision :=
  match td with
  | [] => NotSampled
  | rs :: _ =>
      match rs_ScopeSpans rs with
      | [] => NotSampled
      | ss :: _ =>
          match ss_Spans ss with
          | [] => NotSampled
          | span :: _ =>
              if hashTraceID hashSeed (span_TraceID span) <? threshold then SampledLocal else NotSampled
          end
      end
  end.

(** *** numeric_attribute.go, boolean_attribute.go, status_code.go, trace_flags.go, trace_state.go *)

Definition in_range (minValue maxValue : option Z) (v : Z) : bool :=
  (default min_i64 minValue <=? v) && (v <=? default max_i64 maxValue).

Definition numeric_condition (minValue maxValue : option Z) (v : option Value) : bool :=
  match v with Some v => in_range minValue maxValue (value_Int v) | None => false end.

Definition boolean_condition (value : bool) (v : option Value) : bool :=
  match v with Some v => Bool.eqb (value_Bool v) value | None => false end.

Definition status_condition (codes : list Z) (span : Span) : bool :=
  existsb (λ c, span_Status_Code span =? c) codes.

(** [byte(span.Flags()) & byte(oteltrace.FlagsSampled)], the flag being 1. *)
Definition flags_condition (span : Span) : bool :=
  negb (Z.land (u8 (span_Flags span)) 1 =? 0).

Definition traceState_condition (key : string) (values : gset string) (span : Span) : bool :=
  match ParseTraceState (span_TraceState span) with
  | Some ts => bool_decide (TraceState_Get ts key ∈ values)
  | None => false
  end.

(** *** ottl.go *)

Inductive ottlResult := OGo | OMatch | OError.

Fixpoint ottl_loop {A} (f : A → ottlResult) (l : list A) : ottlResult :=
  match l with
  | [] => OGo
  | a :: l => match f a with OGo => ottl_loop f l | r => r end
  end.

Definition ottl_result (r : option bool) : ottlResult :=
  match r with None => OError | Some true => OMatch | Some false => OGo end.

Definition ottl_span (se : option SpanExpr) (ee : option SpanEventExpr) (rs : ResourceSpans)
    (ss : ScopeSpans) (span : Span) : ottlResult :=
  match match se with Some e => ottl_result (ottl_EvalSpan e rs ss span) | None => OGo end with
  | OGo =>
      match ee with
      | Some e => ottl_loop (λ ev, ottl_result (ottl_EvalSpanEvent e rs ss span ev)) (span_Events span)
      | None => OGo
      end
  | r => r
  end.

Definition ottl_decision (se : option SpanExpr) (ee : option SpanEventExpr) (td : Traces)
    : Decision * option evalError :=
  match ottl_loop (λ rs, ottl_loop (λ ss, ottl_loop (ottl_span se ee rs ss) (ss_Spans ss))
                           (rs_ScopeSpans rs)) td with
  | OGo => (NotSampled, None)
  | OMatch => (Sampled, None)
  | OError => (NotSampled, Some ErrOTTL)
  end.

(** ** Evaluate: the decision and the error, and the evaluator afterwards *)
Definition result : Type := Decision * option evalError.

Section subs.
Variable Evaluate : evaluator → result * evaluator.

(** [allSubsMatch]: ends at the first sub-policy that fails, does not sample,
    or drops. *)
Fixpoint allSubsMatch (subs : list evaluator) : (bool * option evalError) * list evaluator :=
  match subs with
  | [] => ((true, None), [])
  | sub :: subs =>
      let '((d, err), sub) := Evaluate sub in
      match err with
      | Some _ => ((false, err), sub :: subs)
      | None =>
          match d with
          | NotSampled => ((false, None), sub :: subs)
          | Dropped => ((false, Some ErrNestedDrop), sub :: subs)
          | Sampled | SampledLocal =>
              let '(r, subs) := allSubsMatch subs in (r, sub :: subs)
          end
      end
  end.

(** [Chain.Evaluate] *)
Fixpoint chain_loop (c : list evaluator) : result * list evaluator :=
  match c with
  | [] => ((NotSampled, None), [])
  | e :: c =>
      let '((d, err), e) := Evaluate e in
      match err with
      | Some _ => ((NotSampled, err), e :: c)
      | None =>
          if decide (d = NotSampled) then let '(r, c) := chain_loop c in (r, e :: c)
          else ((d, None), e :: c)
      end
  end.
End subs.

Definition and_result (r : bool * option evalError) : result :=
  let '(ok, err) := r in
  if negb ok || bool_decide (is_Some err) then (NotSampled, err) else (Sampled, None).

Definition drop_result (r : bool * option evalError) : result :=
  let '(ok, err) := r in
  if negb ok || bool_decide (is_Some err) then (NotSampled, err) else (Dropped, None).

Definition not_result (r : result) : result :=
  let '(d, err) := r in
  match err with
  | Some _ => (NotSampled, err)
  | None =>
      match d with
      | Sampled | SampledLocal => (NotSampled, None)
      | NotSampled => (Sampled, None)
      | Dropped => (NotSampled, Some ErrNotDropped)
      end
  end.

Fixpoint Evaluate (t : Traces) (e : evaluator) {struct e} : result * evaluator :=
  match e with
  | alwaysSample => ((SampledLocal, None), e)
  | latency lo hi => (((hasSpanWithCondition (latency_condition lo hi) t (0, 0)).1, None), e)
  | statusCodeFilter codes =>
      (((hasSpanWithCondition (pure (status_condition codes)) t tt).1, None), e)
  | stringAttributeFilter key m =>
      let '(d, m) := hasResourceOrSpanWithCondition
        (λ r, string_condition (resource_Attributes_Get r key))
        (λ s, string_span_condition (span_Attributes_Get s key)) t m in
      ((d, None), stringAttributeFilter key m)
  | numericAttributeFilter key minValue maxValue =>
      (((hasResourceOrSpanWithCondition
        (pure (λ r, numeric_condition minValue maxValue (resource_Attributes_Get r key)))
        (pure (λ s, numeric_condition minValue maxValue (span_Attributes_Get s key))) t tt).1, None), e)
  | booleanAttributeFilter key value =>
      (((hasResourceOrSpanWithCondition
        (pure (λ r, boolean_condition value (resource_Attributes_Get r key)))
        (pure (λ s, boolean_condition value (span_Attributes_Get s key))) t tt).1, None), e)
  | probabilisticSampler threshold seed => ((probabilistic_decision threshold seed t, None), e)
  | traceStateFilter key values =>
      (((hasSpanWithCondition (pure (traceState_condition key values)) t tt).1, None), e)
  | traceFlags => (((hasSpanWithCondition (pure flags_condition) t tt).1, None), e)
  | ottlConditionFilter se ee => (ottl_decision se ee t, e)
  | andPolicy subs =>
      let '(r, subs) := allSubsMatch (Evaluate t) subs in (and_result r, andPolicy subs)
  | notPolicy sub =>
      let '(r, sub) := Evaluate t sub in (not_result r, notPolicy sub)
  | dropPolicy subs =>
      let '(r, subs) := allSubsMatch (Evaluate t) subs in (drop_result r, dropPolicy subs)
  end.

Definition Chain : Type := list evaluator.
Definition Chain_Evaluate (t : Traces) (c : Chain) : result * Chain := chain_loop (Evaluate t) c.

(** ** What the policies mean

    The same without loops and without caches: a span condition holds for some
    span of the trace, the latency for some prefix of its spans, an OTTL filter is
    decided by the first condition, in the order of the trace, that holds or
    fails, a combination by the first of its parts that does not agree, a chain by
    its first part that decides. The decision on the hash of the identifier and
    the table of [not] have neither loop nor cache: they are the code's. *)
Definition some_span (p : Span → bool) (t : Traces) : Decision :=
  if existsb p (all_spans t) then Sampled else NotSampled.

Definition some_resource_or_span (pr : Resource → bool) (ps : Span → bool) (t : Traces) : Decision :=
  if existsb (λ rs, pr (rs_Resource rs) || existsb ps (rs_spans rs)) t then Sampled else NotSampled.

Definition match_spec (s : string) (m : matcher) : bool :=
  match m with
  | MExact values => bool_decide (s ∈ values)
  | MRegexp filters _ => existsb (λ r, regexp_MatchString r s) filters
  end.

Definition string_spec (m : matcher) (v : option Value) : bool :=
  match v with Some v => match_spec (value_Str v) m | None => false end.

Definition string_span_spec (m : matcher) (v : option Value) : bool :=
  match v with Some v => not_empty (value_Str v) && match_spec (value_Str v) m | None => false end.

(** From the earliest start to the latest end of some spans, in order; a start
    at the epoch is taken for none, and the range begins anew after it. *)
Definition time_range (l : list Span) : Z * Z :=
  foldl (λ r s,
    if r.1 =? 0 then (span_StartTimestamp s, span_EndTimestamp s)
    else (Z.min r.1 (span_StartTimestamp s), Z.max r.2 (span_EndTimestamp s))) (0, 0) l.

Definition latency_ms (l : list Span) : Z :=
  Milliseconds (time_sub (timestamp_AsTime (time_range l).2) (timestamp_AsTime (time_range l).1)).

(** The thresholds: from [lo] on, or above [lo] up to [hi]. *)
Definition within (lo hi : Z) (ms : Z) : bool :=
  if hi =? 0 then lo <=? ms else (lo <? ms) && (ms <=? hi).

(** The non-empty prefixes of a list. *)
Definition prefixes {A} (l : list A) : list (list A) := (λ n, take n l) <$> seq 1 (length l).

Definition latency_spec (lo hi : Z) (t : Traces) : bool :=
  existsb (λ pre, within lo hi (latency_ms pre)) (prefixes (all_spans t)).

(** What the conditions answer for one span: for the span, then for its events. *)
Definition ottl_answers (se : option SpanExpr) (ee : option SpanEventExpr) (rs : ResourceSpans)
    (ss : ScopeSpans) (span : Span) : list (option bool) :=
  option_list ((λ e, ottl_EvalSpan e rs ss span) <$> se) ++
  match ee with
  | Some e => (λ ev, ottl_EvalSpanEvent e rs ss span ev) <$> span_Events span
  | None => []
  end.

Definition ottl_all_answers (se : option SpanExpr) (ee : option SpanEventExpr) (t : Traces)
    : list (option bool) :=
  mjoin ((λ rs, mjoin ((λ ss, mjoin (ottl_answers se ee rs ss <$> ss_Spans ss)) <$> rs_ScopeSpans rs))
    <$> t).

Definition ottl_spec (se : option SpanExpr) (ee : option SpanEventExpr) (t : Traces) : result :=
  match find (λ r, negb (bool_decide (r = Some false))) (ottl_all_answers se ee t) with
  | None => (NotSampled, None)
  | Some (Some _) => (Sampled, None)
  | Some None => (NotSampled, Some ErrOTTL)
  end.

(** A sub-policy agrees if it samples. *)
Definition agrees (r : result) : bool :=
  match r with (Sampled, None) | (SampledLocal, None) => true | _ => false end.

Definition subs_spec (yes : Decision) (rs : list result) : result :=
  match find (λ r, negb (agrees r)) rs with
  | None => (yes, None)
  | Some (_, Some err) => (NotSampled, Some err)
  | Some (Dropped, None) => (NotSampled, Some ErrNestedDrop)
  | Some (_, None) => (NotSampled, None)
  end.

Fixpoint eval_spec (t : Traces) (e : evaluator) {struct e} : result :=
  match e with
  | alwaysSample => (SampledLocal, None)
  | latency lo hi => (if latency_spec lo hi t then Sampled else NotSampled, None)
  | statusCodeFilter codes => (some_span (status_condition codes) t, None)
  | stringAttributeFilter key m =>
      (some_resource_or_span (λ r, string_spec m (resource_Attributes_Get r key))
         (λ s, string_span_spec m (span_Attributes_Get s key)) t, None)
  | numericAttributeFilter key lo hi =>
      (some_resource_or_span (λ r, numeric_condition lo hi (resource_Attributes_Get r key))
         (λ s, numeric_condition lo hi (span_Attributes_Get s key)) t, None)
  | booleanAttributeFilter key v =>
      (some_resource_or_span (λ r, boolean_condition v (resource_Attributes_Get r key))
         (λ s, boolean_condition v (span_Attributes_Get s key)) t, None)
  | probabilisticSampler threshold seed => (probabilistic_decision threshold seed t, None)
  | traceStateFilter key values => (some_span (traceState_condition key values) t, None)
  | traceFlags => (some_span flags_condition t, None)
  | ottlConditionFilter se ee => ottl_spec se ee t
  | andPolicy subs => subs_spec Sampled (eval_spec t <$> subs)
  | notPolicy sub => not_result (eval_spec t sub)
  | dropPolicy subs => subs_spec Dropped (eval_spec t <$> subs)
  end.

Definition decides (r : result) : bool :=
  match r with (NotSampled, None) => false | _ => true end.

Definition chain_spec (t : Traces) (c : Chain) : result :=
  match find decides (eval_spec t <$> c) with
  | None => (NotSampled, None)
  | Some (_, Some err) => (NotSampled, Some err)
  | Some (d, None) => (d, None)
  end.
End evaluator.
