(* ===== verification/EvalDemo.v ===== *)
(** * Concrete libraries for the examples

    An instance of [Libs]: a least-recently-used cache as groupcache's,
    expressions that match prefixes, trace states that are their own value,
    and one OTTL condition. With it, a batch of spans of two traces. *)

From S2P Require Import Prelude Bytes PData Evaluator.

(** ** A cache: the bound and the entries, the last used first *)
Module Lru.
Record cache := MkCache { maxEntries : Z; ll : list (string * bool) }.

Definition contents (c : cache) : gmap string bool := list_to_map (ll c).

Definition remove (k : string) (l : list (string * bool)) : list (string * bool) :=
  filter (λ e, e.1 ≠ k) l.

Definition get (c : cache) (k : string) : option bool * cache :=
  match contents c !! k with
  | Some v => (Some v, MkCache (maxEntries c) ((k, v) :: remove k (ll c)))
  | None => (None, c)
  end.

Definition add (c : cache) (k : string) (v : bool) : cache :=
  let l := (k, v) :: remove k (ll c) in
  MkCache (maxEntries c)
    (if negb (maxEntries c =? 0) && (maxEntries c <? len l) then removelast l else l).

Lemma remove_map k l : (list_to_map (remove k l) : gmap string bool) = delete k (list_to_map l).
Proof.
  induction l as [|[k' v] l IH]; simpl; [by rewrite delete_empty|]. unfold remove in *. rewrite filter_cons.
  simpl. case_decide as Hk; simpl.
  - rewrite IH, delete_insert_ne by done. done.
  - subst k'. by rewrite delete_insert_eq.
Qed.

Lemma front_map k v l :
  (list_to_map ((k, v) :: remove k l) : gmap string bool) = <[k:=v]> (list_to_map l).
Proof. simpl. by rewrite remove_map, insert_delete_eq. Qed.

Lemma removelast_map (l : list (string * bool)) :
  (list_to_map (removelast l) : gmap string bool) ⊆ list_to_map l.
Proof.
  induction l as [|[k v] l IH]; [done|]. destruct l as [|e l]; [apply map_empty_subseteq|].
  change (removelast ((k, v) :: e :: l)) with ((k, v) :: removelast (e :: l)).
  rewrite !list_to_map_cons. by apply insert_mono.
Qed.

Lemma add_contents c k v : contents (add c k v) ⊆ <[k:=v]> (contents c).
Proof.
  unfold contents, add. cbn [ll]. rewrite <- front_map. generalize ((k, v) :: remove k (ll c)). intros l.
  destruct (negb _ && _); [apply removelast_map|done].
Qed.
End Lru.

(** ** The libraries *)
#[export] Instance libs : Libs (H := Simple.pdata) | 100 := {
  Regexp := string;
  regexp_Compile e := if String.eqb e "(" then None else Some e;
  regexp_MatchString := String.prefix;
  Cache := Lru.cache;
  lru_New n := Lru.MkCache n [];
  lru_Get := Lru.get;
  lru_Add := Lru.add;
  TraceStateT := string;
  ParseTraceState s := Some s;
  TraceState_Get ts _ := ts;
  ErrorMode := unit;
  SpanExpr := unit;
  SpanEventExpr := unit;
  ottlspan := {| Factory_Name f := f; StandardConverters := {["Len"%string := "Len"%string]};
    NewParser := Some; ParseConditions fs l :=
      if decide (l = ["IsRootSpan() and status.code == 2"%string] ∧ is_Some (fs !! "IsRootSpan"%string))
      then Some [tt] else None;
    NewConditionSequence _ _ := tt |};
  ottlspanevent := {| Factory := unit; Factory_Name _ := String.EmptyString; StandardConverters := ∅;
    NewParser _ := Some tt; Condition := unit; ParseConditions _ _ := None;
    NewConditionSequence _ _ := tt |};
  NewIsRootSpanFactoryNew := "IsRootSpan"%string;
  ottl_EvalSpan _ _ _ s := Some (span_Status_Code s =? 2);
  ottl_EvalSpanEvent _ _ _ _ _ := None;
}.

#[export] Instance libs_ok : LibsOk libs.
Proof.
  refine (@Build_LibsOk _ libs (λ c k v, Lru.contents c !! k = Some v) _ _ _ _); simpl; try done.
  - intros c k v. unfold Lru.get. by destruct (Lru.contents c !! k).
  - intros c k k' v. unfold Lru.get. destruct (Lru.contents c !! k) as [w|] eqn:E; [|done].
    unfold Lru.contents at 1. simpl Lru.ll. rewrite Lru.front_map. by rewrite insert_id.
  - intros c k v k' v' Hk. eapply lookup_weaken in Hk; [|apply Lru.add_contents].
    apply lookup_insert_Some in Hk as [[-> ->]|[_ Hk]]; auto.
Qed.

(** ** A batch: two traces, one of them in two resources *)
Definition tid_a : TraceID := x0a :: replicate 15 x01.
Definition tid_b : TraceID := x0b :: replicate 15 x01.

(** Start and end in milliseconds. *)
Definition span_at (tid : TraceID) (t0 t1 code : Z) : Simple.span :=
  Simple.MkSpan tid (t0 * 1000000) (t1 * 1000000) code 0 (Some ("size"%string, t0)).

Definition a1 : Simple.span := span_at tid_a 100 110 0.
Definition a2 : Simple.span := span_at tid_a 105 190 2.
Definition b1 : Simple.span := span_at tid_b 101 102 0.

Definition scope (l : list Simple.span) : ScopeSpans :=
  MkScopeSpans (H := Simple.pdata) "lib"%string String.EmptyString l.
Definition resource (n : string) (l : list (list Simple.span)) : ResourceSpans :=
  MkResourceSpans (H := Simple.pdata) n String.EmptyString (scope <$> l).

Definition batch : Traces := [resource "front" [[a1; b1]]; resource "back" [[]; [a2]]].
Definition part_a : Traces := [resource "front" [[a1]]; resource "back" [[a2]]].
Definition part_b : Traces := [resource "front" [[b1]]].

(** ** Marshalling, of these two parts *)
#[local] Instance scope_dec : EqDecision (ScopeSpans (H := Simple.pdata)).
Proof. solve_decision. Defined.
#[local] Instance resource_dec : EqDecision (ResourceSpans (H := Simple.pdata)).
Proof. solve_decision. Defined.

Definition marshal (t : Traces) : option bytes :=
  if decide (t = part_a) then Some [x61] else if decide (t = part_b) then Some [x62] else None.

Definition unmarshal (d : bytes) : option Traces :=
  if decide (d = [x61]) then Some part_a else if decide (d = [x62]) then Some part_b else None.

Lemma unmarshal_marshal t d : marshal t = Some d → unmarshal d = Some t.
Proof. unfold marshal. repeat case_decide; intros; simplify_eq; done. Qed.
