(* ===== verification/EvalProps.v ===== *)
(** * The policies: what is proved of them

    [Evaluate] computes the meaning of the policies whatever was evaluated
    before, i.e. the caches are transparent; the combinations; and what the
    latency policy makes of the order of the spans. *)

From S2P Require Import Prelude Bytes PData Evaluator EvalDemo.

Lemma existsb_ext {A} (f g : A → bool) l : (∀ a, f a = g a) → existsb f l = existsb g l.
Proof. intros Hfg. induction l as [|a l IH]; simpl; [done|]. by rewrite Hfg, IH. Qed.

Section loops.
Context `{PData}.

Lemma loop_app {A S} (f : A → S → bool * S) l l' s :
  loop f (l ++ l') s = (let '(ok, s) := loop f l s in if ok then (true, s) else loop f l' s).
Proof.
  revert s. induction l as [|a l IH]; intros s; simpl; [done|].
  destruct (f a s) as [[] s']; [done|]. apply IH.
Qed.

Lemma loop_nested {A B S} (f : B → S → bool * S) (g : A → list B) (l : list A) s :
  loop (λ a, loop f (g a)) l s = loop f (mjoin (g <$> l)) s.
Proof.
  revert s. induction l as [|a l IH]; intros s; [done|]. simpl. rewrite loop_app.
  destruct (loop f (g a) s) as [[] s']; [done|]. apply IH.
Qed.

Lemma loop_ext {A S} (f g : A → S → bool * S) l s :
  (∀ a s, f a s = g a s) → loop f l s = loop g l s.
Proof.
  intros Hfg. revert s. induction l as [|a l IH]; intros s; simpl; [done|].
  rewrite Hfg. destruct (g a s) as [[] s']; [done|]. apply IH.
Qed.

Lemma loop_pure {A S} (f : A → bool) l (s : S) : (loop (pure f) l s).1 = existsb f l.
Proof.
  induction l as [|a l IH]; simpl; [done|]. destruct (f a); simpl; [done|]. apply IH.
Qed.

(** The nested loops visit the spans of the trace in order. *)
Lemma loop_spans {S} (f : Span → S → bool * S) (td : Traces) s :
  loop (λ rs, loop (λ ss, loop f (ss_Spans ss)) (rs_ScopeSpans rs)) td s = loop f (all_spans td) s.
Proof.
  unfold all_spans. rewrite <- loop_nested. apply loop_ext. intros rs s'.
  unfold rs_spans. by rewrite loop_nested.
Qed.

Lemma hasSpan_pure (f : Span → bool) td :
  (hasSpanWithCondition (pure f) td tt).1 = some_span f td.
Proof.
  unfold hasSpanWithCondition, some_span. rewrite loop_spans.
  pose proof (loop_pure f (all_spans td) tt) as Hl.
  destruct (loop _ _ _) as [ok s]. simpl in *. by rewrite Hl.
Qed.

(** A condition with state that keeps an invariant and then answers [f]. *)
Definition answers {A S} (I : S → Prop) (c : A → S → bool * S) (f : A → bool) : Prop :=
  ∀ a s, I s → (c a s).1 = f a ∧ I (c a s).2.

Lemma loop_answers {A S} (I : S → Prop) (c : A → S → bool * S) f l s :
  answers I c f → I s → (loop c l s).1 = existsb f l ∧ I (loop c l s).2.
Proof.
  intros Hc. revert s. induction l as [|a l IH]; intros s Hs; simpl; [done|].
  destruct (Hc a s Hs) as [Hf Hi]. destruct (c a s) as [b s']. simpl in *. rewrite <- Hf.
  destruct b; simpl; [done|]. by apply IH.
Qed.

Lemma hasResourceOrSpan_answers {S} (I : S → Prop) cr cs fr fs td s :
  answers I cr fr → answers I cs fs → I s →
  (hasResourceOrSpanWithCondition cr cs td s).1 = some_resource_or_span fr fs td ∧
  I (hasResourceOrSpanWithCondition cr cs td s).2.
Proof.
  intros Hr Hs Hi. unfold hasResourceOrSpanWithCondition, some_resource_or_span.
  match goal with |- context [loop ?f td s] => set (body := f) end.
  assert (answers I body (λ rs, fr (rs_Resource rs) || existsb fs (rs_spans rs))) as Hb.
  { intros rs s' Hi'. subst body. simpl. destruct (Hr (rs_Resource rs) s' Hi') as [Hf Hi2].
    destruct (cr (rs_Resource rs) s') as [b s2]. simpl in *. rewrite <- Hf. destruct b; [done|].
    simpl. rewrite loop_nested. fold (rs_spans rs). by apply loop_answers. }
  destruct (loop_answers I body _ td s Hb Hi) as [Hl Hi'].
  destruct (loop body td s) as [ok s']. simpl in *. by rewrite Hl.
Qed.

Lemma hasResourceOrSpan_pure fr fs td :
  (hasResourceOrSpanWithCondition (pure fr) (pure fs) td tt).1 = some_resource_or_span fr fs td.
Proof. by apply (hasResourceOrSpan_answers (λ _, True)). Qed.
End loops.

Section evaluate.
Context `{L : Libs} {HL : LibsOk L}.

(** ** Caches *)

(** What a cache may return is what the expressions say. *)
Definition matcher_ok (m : matcher) : Prop :=
  match m with
  | MExact _ => True
  | MRegexp filters c =>
      ∀ s v, lru_may c s v → v = existsb (λ r, regexp_MatchString r s) filters
  end.

(** Matchers with the same values or expressions. *)
Definition same_matcher (m m' : matcher) : Prop :=
  match m, m' with
  | MExact v, MExact v' => v = v'
  | MRegexp f _, MRegexp f' _ => f = f'
  | _, _ => False
  end.

Lemma same_match_spec m m' s : same_matcher m m' → match_spec s m' = match_spec s m.
Proof. destruct m, m'; simpl; intros; by subst. Qed.

Lemma match_string_ok s m :
  matcher_ok m →
  (match_string s m).1 = match_spec s m ∧ matcher_ok (match_string s m).2 ∧
  same_matcher m (match_string s m).2.
Proof.
  destruct m as [values|filters c]; [done|]. intros Hm. simpl.
  pose proof (lru_Get_value c s) as Hv. pose proof (lru_Get_may c s) as Hsub.
  destruct (lru_Get c s) as [hit c']. simpl in *.
  assert (matcher_ok (MRegexp filters c')) as Hm' by (intros s' v Hs'; by apply Hm, Hsub).
  assert (∀ v, v = existsb (λ r, regexp_MatchString r s) filters →
    matcher_ok (MRegexp filters (lru_Add c' s v))) as Hadd.
  { intros v Ev s' v' [[-> ->]|Hs']%lru_Add_may; [done|]. by apply Hm'. }
  destruct hit as [v|].
  - simpl. split; [|done]. apply Hm. by apply Hv.
  - destruct (existsb (λ r, regexp_MatchString r s) filters) eqn:Ex; simpl; (split; [done|]);
      (split; [|done]); by apply Hadd.
Qed.

(** ** Evaluators *)

Fixpoint evaluator_ok (e : evaluator) : Prop :=
  match e with
  | stringAttributeFilter _ m => matcher_ok m
  | andPolicy subs | dropPolicy subs => foldr and True (evaluator_ok <$> subs)
  | notPolicy sub => evaluator_ok sub
  | _ => True
  end.

Lemma evaluator_ind' (P : evaluator → Prop) :
  (∀ e, match e with andPolicy _ | dropPolicy _ | notPolicy _ => False | _ => True end → P e) →
  (∀ subs, Forall P subs → P (andPolicy subs)) →
  (∀ sub, P sub → P (notPolicy sub)) →
  (∀ subs, Forall P subs → P (dropPolicy subs)) → ∀ e, P e.
Proof.
  intros Hb Ha Hn Hd. fix IH 1. intros e.
  assert (∀ l, Forall P l) as Hl.
  { fix IHl 1. intros [|a l]; [constructor|]. constructor; [apply IH|apply IHl]. }
  destruct e; try (by apply Hb); [by apply Ha|by apply Hn|by apply Hd].
Qed.

Lemma ok_Forall l : foldr and True (evaluator_ok <$> l) ↔ Forall evaluator_ok l.
Proof.
  induction l as [|e l IH]; simpl; [done|]. rewrite Forall_cons. by rewrite IH.
Qed.

(** What one evaluation promises. *)
Definition evaluates (t : Traces) (e : evaluator) : Prop :=
  evaluator_ok e →
  (Evaluate t e).1 = eval_spec t e ∧ evaluator_ok (Evaluate t e).2 ∧
  ∀ t', eval_spec t' (Evaluate t e).2 = eval_spec t' e.

Lemma allSubsMatch_spec t subs :
  Forall (evaluates t) subs → Forall evaluator_ok subs →
  let '((ok, err), subs') := allSubsMatch (Evaluate t) subs in
  (∀ yes, subs_spec yes (eval_spec t <$> subs) =
     if negb ok || bool_decide (is_Some err) then (NotSampled, err) else (yes, None)) ∧
  Forall evaluator_ok subs' ∧ ∀ t', eval_spec t' <$> subs' = eval_spec t' <$> subs.
Proof.
  intros He. induction He as [|e subs He Hsubs IH]; intros Hok; [done|].
  apply Forall_cons in Hok as [Hoke Hok]. specialize (IH Hok).
  destruct (He Hoke) as (Hr & Hok' & Hsame). simpl. rewrite <- Hr.
  destruct (Evaluate t e) as [[d err] e'] eqn:Ee. simpl in *.
  assert (∀ t', eval_spec t' <$> e' :: subs = eval_spec t' <$> e :: subs) as Hcons.
  { intros t'. simpl. by rewrite Hsame. }
  assert (Forall evaluator_ok (e' :: subs)) as Hoks by (by constructor).
  destruct err as [err|].
  { split; [|done]. intros yes. unfold subs_spec. simpl. by destruct d. }
  destruct d; try (split; [|done]; intros yes; by unfold subs_spec).
  all: destruct (allSubsMatch _ subs) as [[ok err] subs']; destruct IH as (IH1 & IH2 & IH3);
    (split; [|split; [by constructor|intros t'; simpl; by rewrite Hsame, IH3]]);
    intros yes; rewrite <- IH1; unfold subs_spec; simpl; done.
Qed.

Lemma string_answers key t m :
  matcher_ok m →
  let r := hasResourceOrSpanWithCondition
    (λ r, string_condition (resource_Attributes_Get r key))
    (λ s, string_span_condition (span_Attributes_Get s key)) t m in
  r.1 = some_resource_or_span (λ r, string_spec m (resource_Attributes_Get r key))
          (λ s, string_span_spec m (span_Attributes_Get s key)) t ∧
  matcher_ok r.2 ∧ same_matcher m r.2.
Proof.
  intros Hm r. subst r.
  apply (hasResourceOrSpan_answers (λ m', matcher_ok m' ∧ same_matcher m m')).
  - intros a m' [Hm' Hs]. unfold string_condition, string_spec.
    destruct (resource_Attributes_Get a key) as [v|]; [|done].
    destruct (match_string_ok (value_Str v) m' Hm') as (-> & Hok & Hs').
    split; [by apply same_match_spec|]. split; [done|]. destruct m, m', (match_string _ _).2; simpl in *; by subst.
  - intros a m' [Hm' Hs]. unfold string_span_condition, string_span_spec.
    destruct (span_Attributes_Get a key) as [v|]; [|done].
    destruct (not_empty (value_Str v)); [|done].
    destruct (match_string_ok (value_Str v) m' Hm') as (-> & Hok & Hs').
    split; [by apply same_match_spec|]. split; [done|]. destruct m, m', (match_string _ _).2; simpl in *; by subst.
  - split; [done|]. by destruct m.
Qed.

(** *** Latency *)

(** The prefixes of [l] that are not empty, after [pre]. *)
Fixpoint prefixes_from {A} (pre l : list A) : list (list A) :=
  match l with [] => [] | a :: l => (pre ++ [a]) :: prefixes_from (pre ++ [a]) l end.

Lemma prefixes_from_eq {A} (pre l : list A) : prefixes_from pre l = (λ n, pre ++ take n l) <$> seq 1 (length l).
Proof.
  revert pre. induction l as [|a l IH]; intros pre; [done|]. simpl. f_equal.
  rewrite IH, <- (fmap_S_seq 1), <- list_fmap_compose. apply list_fmap_ext. intros i n _. simpl.
  by rewrite <- app_assoc.
Qed.

Lemma prefixes_from_nil {A} (l : list A) : prefixes l = prefixes_from [] l.
Proof. by rewrite prefixes_from_eq. Qed.

Lemma time_range_snoc l s :
  time_range (l ++ [s]) =
    if (time_range l).1 =? 0 then (span_StartTimestamp s, span_EndTimestamp s)
    else (Z.min (time_range l).1 (span_StartTimestamp s), Z.max (time_range l).2 (span_EndTimestamp s)).
Proof. unfold time_range. by rewrite foldl_app. Qed.

(** The loop keeps the range of the spans before, and tests that of the prefix. *)
Lemma latency_loop lo hi pre l :
  (loop (latency_condition lo hi) l (time_range pre)).1 =
  existsb (λ p, within lo hi (latency_ms p)) (prefixes_from pre l).
Proof.
  revert pre. induction l as [|s l IH]; intros pre; [done|]. cbn [loop prefixes_from existsb].
  assert (latency_condition lo hi s (time_range pre) =
    (within lo hi (latency_ms (pre ++ [s])), time_range (pre ++ [s]))) as ->.
  { unfold latency_condition, latency_ms, within. rewrite time_range_snoc.
    destruct (time_range pre) as [mn mx]. simpl. by destruct (mn =? 0). }
  destruct (within _ _ _); [done|]. apply IH.
Qed.

(** *** OTTL *)

(** What a sequence of answers comes to. *)
Definition ottl_first (l : list (option bool)) : ottlResult :=
  match find (λ r, negb (bool_decide (r = Some false))) l with
  | None => OGo
  | Some (Some _) => OMatch
  | Some None => OError
  end.

Lemma ottl_first_app l k : ottl_first (l ++ k) = match ottl_first l with OGo => ottl_first k | r => r end.
Proof.
  unfold ottl_first. induction l as [|r l IH]; [done|]. simpl.
  by destruct r as [[]|]; simpl; [|apply IH|].
Qed.

Lemma ottl_loop_first {A} (f : A → ottlResult) (g : A → list (option bool)) l :
  (∀ a, f a = ottl_first (g a)) → ottl_loop f l = ottl_first (mjoin (g <$> l)).
Proof.
  intros Hfg. induction l as [|a l IH]; [done|].
  change (mjoin (g <$> a :: l)) with (g a ++ mjoin (g <$> l)). cbn [ottl_loop].
  by rewrite ottl_first_app, <- IH, Hfg.
Qed.

Lemma ottl_decision_spec se ee t : ottl_decision se ee t = ottl_spec se ee t.
Proof.
  unfold ottl_decision, ottl_spec.
  assert (ottl_loop (λ rs, ottl_loop (λ ss, ottl_loop (ottl_span se ee rs ss) (ss_Spans ss)) (rs_ScopeSpans rs)) t
    = ottl_first (ottl_all_answers se ee t)) as ->.
  { apply ottl_loop_first. intros rs. apply ottl_loop_first. intros ss. apply ottl_loop_first. intros span.
    unfold ottl_answers, ottl_span. rewrite ottl_first_app.
    assert (match se with Some e => ottl_result (ottl_EvalSpan e rs ss span) | None => OGo end =
      ottl_first (option_list ((λ e, ottl_EvalSpan e rs ss span) <$> se))) as ->.
    { destruct se as [e|]; [|done]. by destruct (ottl_EvalSpan e rs ss span) as [[]|] eqn:E; simpl; rewrite E. }
    destruct (ottl_first _); try done. destruct ee as [e|]; [|done].
    induction (span_Events span) as [|ev evs IH]; [done|]. simpl. unfold ottl_first in *. simpl.
    by destruct (ottl_EvalSpanEvent e rs ss span ev) as [[]|]. }
  unfold ottl_first. by destruct (find _ _) as [[]|].
Qed.

Lemma Evaluate_spec t e : evaluates t e.
Proof.
  induction e as [e Hbase|subs IH|sub IH|subs IH] using evaluator_ind'; intros Hok.
  - destruct e as [|lo hi|codes|key m|key lo hi|key v|th seed|key vs| |se ee|subs|sub|subs]; try done; simpl;
      try (split; [by rewrite ?hasSpan_pure, ?hasResourceOrSpan_pure|done]).
    + split; [|done]. unfold hasSpanWithCondition. rewrite loop_spans.
      pose proof (latency_loop lo hi [] (all_spans t)) as Hl. simpl in Hl. unfold latency_spec.
      rewrite prefixes_from_nil, <- Hl. by destruct (loop _ _ _).
    + destruct (string_answers key t m Hok) as (Hd & Hm & Hs).
      destruct (hasResourceOrSpanWithCondition _ _ t m) as [d m']. simpl in *. subst d.
      split; [done|]. split; [done|]. intros t'. f_equal.
      unfold some_resource_or_span, string_spec, string_span_spec.
      assert (∀ s, match_spec s m' = match_spec s m) as Em by (intros s; by apply same_match_spec).
      match goal with |- (if ?a then _ else _) = (if ?b then _ else _) => assert (a = b) as ->; [|done] end.
      apply existsb_ext. intros rs. f_equal; [by destruct (resource_Attributes_Get _ key) as [v|]; [rewrite Em|]|].
      apply existsb_ext. intros a. by destruct (span_Attributes_Get a key) as [v|]; [rewrite Em|].
    + split; [apply ottl_decision_spec|done].
  - simpl in *. rewrite ok_Forall in Hok. pose proof (allSubsMatch_spec t subs IH Hok) as Hs.
    destruct (allSubsMatch _ subs) as [[ok err] subs']. destruct Hs as (H1 & H2 & H3). simpl.
    split; [by rewrite H1|]. split; [by apply ok_Forall|]. intros t'. by rewrite H3.
  - simpl in *. destruct (IH Hok) as (H1 & H2 & H3). destruct (Evaluate t sub) as [r sub'].
    simpl in *. subst r. split; [done|]. split; [done|]. intros t'. by rewrite H3.
  - simpl in *. rewrite ok_Forall in Hok. pose proof (allSubsMatch_spec t subs IH Hok) as Hs.
    destruct (allSubsMatch _ subs) as [[ok err] subs']. destruct Hs as (H1 & H2 & H3). simpl.
    split; [by rewrite H1|]. split; [by apply ok_Forall|]. intros t'. by rewrite H3.
Qed.

Lemma chain_loop_spec t c :
  Forall evaluator_ok c →
  (chain_loop (Evaluate t) c).1 = chain_spec t c ∧ Forall evaluator_ok (chain_loop (Evaluate t) c).2 ∧
  ∀ t', eval_spec t' <$> (chain_loop (Evaluate t) c).2 = eval_spec t' <$> c.
Proof.
  induction c as [|e c IH]; intros Hok; [done|]. apply Forall_cons in Hok as [Hoke Hok].
  destruct (IH Hok) as (IH1 & IH2 & IH3). destruct (Evaluate_spec t e Hoke) as (Hr & Hok' & Hsame).
  unfold chain_spec in *. simpl. rewrite <- Hr. destruct (Evaluate t e) as [[d err] e'].
  simpl in *. assert (Forall evaluator_ok (e' :: c)) as Hoks by (by constructor).
  assert (∀ t', eval_spec t' <$> e' :: c = eval_spec t' <$> e :: c) as Hcons
    by (intros t'; simpl; by rewrite Hsame).
  destruct err as [err|]; [by destruct d|].
  case_decide as Hd; [subst d|by destruct d].
  destruct (chain_loop _ c) as [r c']. simpl in *. split; [done|]. split; [by constructor|].
  intros t'. by rewrite Hsame, IH3.
Qed.

(** C5: the chain computes the meaning of its policies: the first policy that
    fails or does not answer [NotSampled] decides, combinations are decided by
    their first sub-policy that does not sample, and conditions hold if some
    resource or span of the trace satisfies them. The caches of the string
    policies, filled by any traces evaluated before, make no difference, now or
    later. *)
Theorem Chain_Evaluate_spec t c :
  Forall evaluator_ok c →
  (Chain_Evaluate t c).1 = chain_spec t c ∧
  Forall evaluator_ok (Chain_Evaluate t c).2 ∧
  ∀ t', chain_spec t' (Chain_Evaluate t c).2 = chain_spec t' c.
Proof.
  intros Hok. destruct (chain_loop_spec t c Hok) as (H1 & H2 & H3).
  split; [done|]. split; [done|]. intros t'. unfold chain_spec, Chain_Evaluate. by rewrite H3.
Qed.

(** The combinations. [and] samples if all sub-policies do and [drop] drops
    then; [not] inverts; and neither ever answers [SampledLocal], so that the
    coordinator is always told. A sub-policy that drops is an error unless an
    earlier one has decided. *)
Theorem combinations_spec t subs sub :
  (eval_spec t (andPolicy subs) = (Sampled, None) ↔ Forall (λ e, agrees (eval_spec t e) = true) subs) ∧
  (eval_spec t (dropPolicy subs) = (Dropped, None) ↔ Forall (λ e, agrees (eval_spec t e) = true) subs) ∧
  (eval_spec t (notPolicy sub) = (Sampled, None) ↔ eval_spec t sub = (NotSampled, None)) ∧
  (eval_spec t (notPolicy sub) = (NotSampled, None) ↔ agrees (eval_spec t sub) = true) ∧
  (∀ pre e post, subs = pre ++ e :: post → Forall (λ e, agrees (eval_spec t e) = true) pre →
     eval_spec t e = (Dropped, None) →
     eval_spec t (andPolicy subs) = (NotSampled, Some ErrNestedDrop)) ∧
  (eval_spec t (andPolicy subs)).1 ∈ [Sampled; NotSampled] ∧
  (eval_spec t (dropPolicy subs)).1 ∈ [Dropped; NotSampled] ∧
  (eval_spec t (notPolicy sub)).1 ∈ [Sampled; NotSampled].
Proof.
  assert (∀ yes, yes ≠ NotSampled →
    subs_spec yes (eval_spec t <$> subs) = (yes, None) ↔ Forall (λ e, agrees (eval_spec t e) = true) subs) as Hall.
  { intros yes Hy. unfold subs_spec. induction subs as [|e subs IH]; simpl; [done|].
    rewrite Forall_cons. destruct (agrees (eval_spec t e)) eqn:Ha; simpl; [by rewrite IH; intuition|].
    split; [|by intros []]. destruct (eval_spec t e) as [[] [err|]]; intros [=]; by subst. }
  split; [by apply Hall|]. split; [by apply Hall|]. simpl.
  split; [destruct (eval_spec t sub) as [[] [err|]]; naive_solver|].
  split; [destruct (eval_spec t sub) as [[] [err|]]; naive_solver|].
  assert (∀ yes, (subs_spec yes (eval_spec t <$> subs)).1 ∈ [yes; NotSampled]) as Hin.
  { intros yes. unfold subs_spec. destruct (find _ _) as [[[] [err|]]|]; simpl; set_solver. }
  split; [|split; [apply Hin|split; [apply Hin|destruct (eval_spec t sub) as [[] [err|]]; simpl; set_solver]]].
  intros pre e post -> Hpre He. clear Hall Hin. unfold subs_spec.
  induction Hpre as [|x pre Hx Hpre IH]; simpl; [by rewrite He|]. by rewrite Hx.
Qed.
End evaluate.

(** ** Latency *)
Section latency.
Context `{L : Libs} {HP : PDataOk _}.

Definition min_start (l : list Span) : Z :=
  match l with [] => 0 | s :: l => foldl (λ m x, Z.min m (span_StartTimestamp x)) (span_StartTimestamp s) l end.
Definition max_end (l : list Span) : Z :=
  match l with [] => 0 | s :: l => foldl (λ m x, Z.max m (span_EndTimestamp x)) (span_EndTimestamp s) l end.

(** From the first start to the last end. *)
Definition trace_duration (l : list Span) : Duration := time_sub (max_end l) (min_start l).

(** Timestamps a clock shows: after the epoch, and before the year 2262. *)
Definition clock_span (s : Span) : Prop :=
  0 < span_StartTimestamp s <= max_i64 ∧ 0 <= span_EndTimestamp s <= max_i64.

Lemma min_start_snoc l s : l ≠ [] → min_start (l ++ [s]) = Z.min (min_start l) (span_StartTimestamp s).
Proof. destruct l as [|a l]; [done|]. intros _. simpl. by rewrite foldl_app. Qed.

Lemma max_end_snoc l s : l ≠ [] → max_end (l ++ [s]) = Z.max (max_end l) (span_EndTimestamp s).
Proof. destruct l as [|a l]; [done|]. intros _. simpl. by rewrite foldl_app. Qed.

Lemma bounds l :
  l ≠ [] → Forall clock_span l → 0 < min_start l <= max_i64 ∧ 0 <= max_end l <= max_i64.
Proof.
  induction l as [|s l IH] using rev_ind; [done|]. intros _ Hl. apply Forall_app in Hl as [Hl Hs].
  apply Forall_singleton in Hs as [Hs1 Hs2]. destruct (decide (l = [])) as [->|Hne]; [done|].
  rewrite min_start_snoc, max_end_snoc by done. destruct (IH Hne Hl). lia.
Qed.

(** With such timestamps the range is that of all the spans. *)
Lemma time_range_clock l : Forall clock_span l → time_range l = (min_start l, max_end l).
Proof.
  induction l as [|s l IH] using rev_ind; [done|]. intros [Hl Hs]%Forall_app.
  rewrite time_range_snoc, (IH Hl). destruct (decide (l = [])) as [->|Hne]; [done|].
  destruct (bounds l Hne Hl). rewrite min_start_snoc, max_end_snoc by done. simpl.
  by destruct (Z.eqb_spec (min_start l) 0); [lia|].
Qed.

Lemma latency_ms_clock l : Forall clock_span l → latency_ms l = Milliseconds (trace_duration l).
Proof.
  intros Hl. unfold latency_ms, trace_duration. rewrite (time_range_clock _ Hl). simpl.
  destruct (decide (l = [])) as [->|Hne]; [simpl; by rewrite !asTime_nanos by (unfold max_i64; lia)|].
  destruct (bounds l Hne Hl). by rewrite !asTime_nanos by lia.
Qed.

Lemma prefixes_elem {A} (l p : list A) : p ∈ prefixes l ↔ p ≠ [] ∧ ∃ post, l = p ++ post.
Proof.
  unfold prefixes. rewrite list_elem_of_fmap. split.
  - intros (n & -> & [Hn1 Hn2]%elem_of_seq). split; [|exists (drop n l); by rewrite take_drop].
    destruct l; [simpl in *; lia|]. by destruct n; [lia|].
  - intros (Hne & post & ->). exists (length p). rewrite take_app_length. split; [done|].
    apply elem_of_seq. rewrite length_app. destruct p; [done|]. simpl. lia.
Qed.

Lemma latency_spec_clock lo hi t :
  Forall clock_span (all_spans t) →
  latency_spec lo hi t = true ↔
  ∃ pre post, pre ≠ [] ∧ all_spans t = pre ++ post ∧
    within lo hi (Milliseconds (trace_duration pre)) = true.
Proof.
  intros Hall. unfold latency_spec. rewrite existsb_exists. split.
  - intros (p & [Hne [post Heq]]%list_elem_of_In%prefixes_elem & Hw). exists p, post.
    rewrite Heq in Hall. apply Forall_app in Hall as [Hp _]. by rewrite <- latency_ms_clock.
  - intros (p & post & Hne & Heq & Hw). exists p. split; [apply list_elem_of_In, prefixes_elem; eauto|].
    rewrite Heq in Hall. apply Forall_app in Hall as [Hp _]. by rewrite latency_ms_clock.
Qed.

(** The latency policy tests every prefix of the trace's spans: it samples
    if the time from the first start to the last end of some prefix is within
    the thresholds. *)
Theorem latency_prefixes lo hi t :
  Forall clock_span (all_spans t) →
  eval_spec t (latency lo hi) = (Sampled, None) ↔
  ∃ pre post, pre ≠ [] ∧ all_spans t = pre ++ post ∧
    within lo hi (Milliseconds (trace_duration pre)) = true.
Proof.
  intros Hall. rewrite <- (latency_spec_clock lo hi t Hall). simpl. by destruct (latency_spec lo hi t).
Qed.

Lemma duration_prefix pre post :
  pre ≠ [] → Forall clock_span (pre ++ post) → trace_duration pre <= trace_duration (pre ++ post).
Proof.
  intros Hne. induction post as [|s post IH] using rev_ind; [by rewrite app_nil_r|].
  rewrite app_assoc. intros Hall. pose proof Hall as [Hall' _]%Forall_app.
  specialize (IH Hall'). etransitivity; [exact IH|].
  assert (pre ++ post ≠ []) as Hne' by (by destruct pre).
  unfold trace_duration. rewrite min_start_snoc, max_end_snoc by done. unfold time_sub. lia.
Qed.

Lemma Milliseconds_mono d d' : d <= d' → Milliseconds d <= Milliseconds d'.
Proof. intros Hd. unfold Milliseconds. apply Z.quot_le_mono; lia. Qed.

(** Without an upper threshold the order of the spans does not matter: the
    latency policy samples exactly if the trace has spans and lasts, from its
    first start to its last end, at least the threshold. *)
Theorem latency_whole_trace lo t :
  Forall clock_span (all_spans t) →
  eval_spec t (latency lo 0) = (Sampled, None) ↔
  all_spans t ≠ [] ∧ lo <= Milliseconds (trace_duration (all_spans t)).
Proof.
  intros Hall. pose proof (latency_spec_clock lo 0 t Hall) as Hl.
  assert (eval_spec t (latency lo 0) = (Sampled, None) ↔ latency_spec lo 0 t = true) as ->
    by (simpl; by destruct (latency_spec lo 0 t)).
  rewrite Hl. simpl. unfold within. simpl. split.
  - intros (pre & post & Hne & Heq & Hin%Z.leb_le). rewrite Heq in *. split; [by destruct pre|].
    pose proof (Milliseconds_mono _ _ (duration_prefix _ _ Hne Hall)). lia.
  - intros [Hne Hlo]. exists (all_spans t), []. rewrite app_nil_r. split; [done|]. split; [done|].
    by apply Z.leb_le.
Qed.
End latency.


(** ** Instances *)

(** A latency policy, and one that needs the cache. *)
Definition demo_chain : Chain (L := EvalDemo.libs) :=
  [latency 200 0; notPolicy (latency 50 100);
   andPolicy [statusCodeFilter [2]; stringAttributeFilter "name"%string
                (MRegexp (["fro"%string] : list (Regexp (Libs := EvalDemo.libs))) (lru_New 2))]].

Lemma Chain_Evaluate_spec_witness :
  Forall evaluator_ok demo_chain ∧
  (Chain_Evaluate EvalDemo.part_b demo_chain).1 = chain_spec EvalDemo.part_b demo_chain ∧
  Forall evaluator_ok (Chain_Evaluate EvalDemo.part_b demo_chain).2 ∧
  ∀ t', chain_spec t' (Chain_Evaluate EvalDemo.part_b demo_chain).2 = chain_spec t' demo_chain.
Proof.
  assert (Forall evaluator_ok demo_chain) as Hok.
  { unfold demo_chain. repeat constructor. by intros s v Hs%lru_New_may. }
  split; [exact Hok|]. exact (Chain_Evaluate_spec EvalDemo.part_b demo_chain Hok).
Defined.

Lemma demo_clock : Forall clock_span (all_spans EvalDemo.part_a).
Proof. unfold clock_span. repeat constructor; vm_compute; congruence. Qed.

Lemma latency_prefixes_witness :
  eval_spec (L := EvalDemo.libs) EvalDemo.part_a (latency 50 100) = (Sampled, None) ∧
  ∃ pre post, pre ≠ [] ∧ all_spans EvalDemo.part_a = pre ++ post ∧
    within 50 100 (Milliseconds (trace_duration pre)) = true.
Proof.
  assert (eval_spec (L := EvalDemo.libs) EvalDemo.part_a (latency 50 100) = (Sampled, None)) as He
    by (vm_compute; reflexivity).
  split; [exact He|]. exact (proj1 (latency_prefixes (HP := Simple.pdata_ok) 50 100 EvalDemo.part_a demo_clock) He).
Defined.

Lemma latency_whole_trace_witness :
  eval_spec (L := EvalDemo.libs) EvalDemo.part_a (latency 90 0) = (Sampled, None) ∧
  eval_spec (L := EvalDemo.libs) EvalDemo.part_a (latency 91 0) ≠ (Sampled, None).
Proof.
  split.
  - apply (latency_whole_trace (HP := Simple.pdata_ok) 90 EvalDemo.part_a demo_clock). vm_compute. split; congruence.
  - intros He. apply (latency_whole_trace (HP := Simple.pdata_ok) 91 EvalDemo.part_a demo_clock) in He as [_ He].
    apply He. vm_compute. reflexivity.
Defined.
