(* ===== verification/Registry.v ===== *)
(** * Building the policies from their configuration

    internal/evaluator: config.go, registry.go and the constructors. A
    [float64] is a [spec_float] of the Standard Library's IEEE 754 model; the
    conversion of one outside its range to [uint32], which Go leaves to the
    implementation, is a parameter. *)

From S2P Require Import Prelude Bytes PData Evaluator.
From Stdlib Require Import Floats.SpecFloat.

(** ** Configuration *)
Section config.
Context `{L : Libs}.

(** [PolicyType] is a string. *)
Definition AlwaysSample : string := "always_sample".
Definition Latency : string := "latency".
Definition NumericAttribute : string := "numeric_attribute".
Definition Probabilistic : string := "probabilistic".
Definition StatusCode : string := "status_code".
Definition StringAttribute : string := "string_attribute".
Definition RateLimiting : string := "rate_limiting".
Definition And : string := "and".
Definition Not : string := "not".
Definition Drop : string := "drop".
Definition SpanCount_ : string := "span_count".
Definition TraceState : string := "trace_state".
Definition BooleanAttribute : string := "boolean_attribute".
Definition OTTLCondition : string := "ottl_condition".
Definition BytesLimiting : string := "bytes_limiting".
Definition TraceFlags : string := "trace_flags".
Definition Composite : string := "composite".

Record LatencyCfg := MkLatencyCfg { ThresholdMs : Z; UpperThresholdMs : Z }.
Record NumericAttributeCfg := MkNumericAttributeCfg { na_Key : string; MinValue : Z; MaxValue : Z }.
Record ProbabilisticCfg := MkProbabilisticCfg { HashSeed : Z; SamplingPercentage : spec_float }.
Record StatusCodeCfg := MkStatusCodeCfg { StatusCodes : list string }.
Record StringAttributeCfg := MkStringAttributeCfg {
  sa_Key : string; sa_Values : list string; EnabledRegexMatching : bool; CacheMaxSize : Z }.
Record RateLimitingCfg := MkRateLimitingCfg { SpansPerSecond : Z }.
Record BytesLimitingCfg := MkBytesLimitingCfg { BytesPerSecond : Z; BurstCapacity : Z }.
Record SpanCountCfg := MkSpanCountCfg { MinSpans : Z; MaxSpans : Z }.
Record BooleanAttributeCfg := MkBooleanAttributeCfg { ba_Key : string; ba_Value : bool }.
Record TraceStateCfg := MkTraceStateCfg { ts_Key : string; ts_Values : list string }.
Record OTTLConditionCfg := MkOTTLConditionCfg {
  oc_ErrorMode : ErrorMode; SpanConditions : list string; SpanEventConditions : list string }.

Record SharedPolicyCfg := MkSharedPolicyCfg {
  Name : string;
  Type_ : string;
  cfg_Latency : LatencyCfg;
  cfg_NumericAttribute : NumericAttributeCfg;
  cfg_Probabilistic : ProbabilisticCfg;
  cfg_StatusCode : StatusCodeCfg;
  cfg_StringAttribute : StringAttributeCfg;
  cfg_RateLimiting : RateLimitingCfg;
  cfg_BytesLimiting : BytesLimitingCfg;
  cfg_SpanCount : SpanCountCfg;
  cfg_TraceState : TraceStateCfg;
  cfg_BooleanAttribute : BooleanAttributeCfg;
  cfg_OTTLCondition : OTTLConditionCfg;
}.

(** [AndCfg], [NotCfg] and [DropCfg] hold shared configurations. *)
Record PolicyCfg := MkPolicyCfg {
  shared : SharedPolicyCfg;
  AndSubPolicyCfg : list SharedPolicyCfg;
  NotSubPolicyCfg : SharedPolicyCfg;
  DropSubPolicyCfg : list SharedPolicyCfg;
}.

Inductive buildError :=
| ErrPolicy (name : string) (err : buildError)
| ErrAndSub (i : nat) (err : buildError)
| ErrNotSub (err : buildError)
| ErrDropSub (i : nat) (err : buildError)
| ErrUnsupported (type : string)
| ErrUnknown (type : string)
| ErrNoStatusCode
| ErrStatusCode (s : string)
| ErrRegexp
| ErrNoCondition
| ErrCondition.
End config.

Section build.
Context `{L : Libs}.
Variable uint32_out_of_range : spec_float → Z.

(** ** float64 *)

(** [percentageScaleFactor = numHashBuckets / 100.0], the exact 163.84 as the
    nearest [float64]. *)
Definition percentageScaleFactor : spec_float := S754_finite false 5764607523034235 (-45).

(** The integer part. *)
Definition truncate (f : spec_float) : option Z :=
  match f with
  | S754_zero _ => Some 0
  | S754_finite s m e =>
      let n := if 0 <=? e then Z.pos m * 2 ^ e else Z.pos m / 2 ^ (- e) in
      Some (if s then - n else n)
  | S754_infinity _ | S754_nan => None
  end.

Definition uint32_of_float (f : spec_float) : Z :=
  match truncate f with
  | Some n => if (0 <=? n) && (n <? 2 ^ 32) then n else uint32_out_of_range f
  | None => uint32_out_of_range f
  end.

Definition threshold_of (samplingPercentage : spec_float) : Z :=
  uint32_of_float (SFmul 53 1024 samplingPercentage percentageScaleFactor).

(** ** The constructors *)

Definition NewProbabilisticSampler (hashSeed : Z) (samplingPercentage : spec_float) : evaluator :=
  probabilisticSampler (threshold_of samplingPercentage) hashSeed.

Fixpoint status_codes (l : list string) : buildError + list Z :=
  match l with
  | [] => inr []
  | s :: l =>
      let code := if String.eqb s "OK" then Some StatusCodeOk
                  else if String.eqb s "ERROR" then Some StatusCodeError
                  else if String.eqb s "UNSET" then Some StatusCodeUnset
                  else None in
      match code with
      | None => inl (ErrStatusCode s)
      | Some c => match status_codes l with inl err => inl err | inr cs => inr (c :: cs) end
      end
  end.

Definition NewStatusCodeFilter (statusCodeStrings : list string) : buildError + evaluator :=
  match statusCodeStrings with
  | [] => inl ErrNoStatusCode
  | _ => match status_codes statusCodeStrings with
         | inl err => inl err
         | inr codes => inr (statusCodeFilter codes)
         end
  end.

Definition NewStringAttributeFilter (key : string) (values : list string) (regexMatchEnabled : bool)
    (evictSize : Z) : buildError + evaluator :=
  if regexMatchEnabled then
    let evictSize := if evictSize <=? 0 then defaultCacheSize else evictSize in
    match compileFilters values with
    | None => inl ErrRegexp
    | Some filterList => inr (stringAttributeFilter key (MRegexp filterList (lru_New evictSize)))
    end
  else
    inr (stringAttributeFilter key (MExact (list_to_set (filter (λ v, not_empty v = true) values)))).

(** [v != "" && len(key)+len(v) < 256] *)
Definition traceState_value (key v : string) : bool :=
  not_empty v && (Z.of_nat (String.length key) + Z.of_nat (String.length v) <? 256).

Definition NewTraceStateFilter (key : string) (values : list string) : evaluator :=
  traceStateFilter key (list_to_set (filter (λ v, traceState_value key v = true) values)).

(** [newBoolExprForSpan]: the standard functions and [IsRootSpan]. *)
Definition newBoolExprForSpan (conditions : list string) (errMode : ErrorMode) : option SpanExpr :=
  let funcs := StandardConverters ottlspan in
  let isRoot := NewIsRootSpanFactoryNew in
  let funcs := <[Factory_Name ottlspan isRoot := isRoot]> funcs in
  parser ← NewParser ottlspan funcs;
  conds ← ParseConditions ottlspan parser conditions;
  Some (NewConditionSequence ottlspan conds errMode).

(** [newBoolExprForSpanEvent]: the standard functions only. *)
Definition newBoolExprForSpanEvent (conditions : list string) (errMode : ErrorMode)
    : option SpanEventExpr :=
  let funcs := StandardConverters ottlspanevent in
  parser ← NewParser ottlspanevent funcs;
  conds ← ParseConditions ottlspanevent parser conditions;
  Some (NewConditionSequence ottlspanevent conds errMode).

Definition NewOTTLConditionFilter (spanConditions spanEventConditions : list string) (errMode : ErrorMode)
    : buildError + evaluator :=
  match spanConditions, spanEventConditions with
  | [], [] => inl ErrNoCondition
  | _, _ =>
      match (match spanConditions with
             | [] => Some None
             | _ => Some <$> newBoolExprForSpan spanConditions errMode
             end) with
      | None => inl ErrCondition
      | Some se =>
          match (match spanEventConditions with
                 | [] => Some None
                 | _ => Some <$> newBoolExprForSpanEvent spanEventConditions errMode
                 end) with
          | None => inl ErrCondition
          | Some ee => inr (ottlConditionFilter se ee)
          end
      end
  end.

(** A pointer to the value, nil for 0. *)
Definition set_if_nonzero (v : Z) : option Z := if v =? 0 then None else Some v.

(** ** registry.go *)

Definition buildShared (cfg : SharedPolicyCfg) : buildError + evaluator :=
  let ty := Type_ cfg in
  if String.eqb ty AlwaysSample then inr alwaysSample
  else if String.eqb ty Latency then
    inr (latency (ThresholdMs (cfg_Latency cfg)) (UpperThresholdMs (cfg_Latency cfg)))
  else if String.eqb ty StatusCode then NewStatusCodeFilter (StatusCodes (cfg_StatusCode cfg))
  else if String.eqb ty StringAttribute then
    let c := cfg_StringAttribute cfg in
    NewStringAttributeFilter (sa_Key c) (sa_Values c) (EnabledRegexMatching c) (CacheMaxSize c)
  else if String.eqb ty NumericAttribute then
    let c := cfg_NumericAttribute cfg in
    inr (numericAttributeFilter (na_Key c) (set_if_nonzero (MinValue c)) (set_if_nonzero (MaxValue c)))
  else if String.eqb ty BooleanAttribute then
    let c := cfg_BooleanAttribute cfg in inr (booleanAttributeFilter (ba_Key c) (ba_Value c))
  else if String.eqb ty Probabilistic then
    let c := cfg_Probabilistic cfg in inr (NewProbabilisticSampler (HashSeed c) (SamplingPercentage c))
  else if String.eqb ty TraceState then
    inr (NewTraceStateFilter (ts_Key (cfg_TraceState cfg)) (ts_Values (cfg_TraceState cfg)))
  else if String.eqb ty TraceFlags then inr traceFlags
  else if String.eqb ty OTTLCondition then
    let c := cfg_OTTLCondition cfg in
    NewOTTLConditionFilter (SpanConditions c) (SpanEventConditions c) (oc_ErrorMode c)
  else if existsb (String.eqb ty) [SpanCount_; RateLimiting; BytesLimiting; Composite] then
    inl (ErrUnsupported ty)
  else inl (ErrUnknown ty).

(** Builds a list of policies up to the first error, which [wrap] annotates
    with the position. *)
Fixpoint build_all {A} (build : A → buildError + evaluator) (wrap : nat → A → buildError → buildError)
    (i : nat) (l : list A) : buildError + list evaluator :=
  match l with
  | [] => inr []
  | a :: l =>
      match build a with
      | inl err => inl (wrap i a err)
      | inr ev => match build_all build wrap (S i) l with
                  | inl err => inl err
                  | inr evs => inr (ev :: evs)
                  end
      end
  end.

Definition buildAndPolicy (subs : list SharedPolicyCfg) : buildError + evaluator :=
  match build_all buildShared (λ i _, ErrAndSub i) 0 subs with
  | inl err => inl err
  | inr evs => inr (andPolicy evs)
  end.

Definition buildNotPolicy (sub : SharedPolicyCfg) : buildError + evaluator :=
  match buildShared sub with
  | inl err => inl (ErrNotSub err)
  | inr ev => inr (notPolicy ev)
  end.

Definition buildDropPolicy (subs : list SharedPolicyCfg) : buildError + evaluator :=
  match build_all buildShared (λ i _, ErrDropSub i) 0 subs with
  | inl err => inl err
  | inr evs => inr (dropPolicy evs)
  end.

Definition buildPolicy (cfg : PolicyCfg) : buildError + evaluator :=
  let ty := Type_ (shared cfg) in
  if String.eqb ty And then buildAndPolicy (AndSubPolicyCfg cfg)
  else if String.eqb ty Not then buildNotPolicy (NotSubPolicyCfg cfg)
  else if String.eqb ty Drop then buildDropPolicy (DropSubPolicyCfg cfg)
  else buildShared (shared cfg).

Definition Build (policies : list PolicyCfg) : buildError + Chain :=
  build_all buildPolicy (λ _ cfg, ErrPolicy (Name (shared cfg))) 0 policies.
End build.
