(* ===== verification/RegistryProps.v ===== *)
(** * Building the policies: what is proved

    Building stops at the first bad policy; the chains it builds never nest drop
    policies, whatever the configuration; sampling percentages and the bounds of
    the numeric policy mean what the numbers say, with the exception of 0. *)

From S2P Require Import Prelude Bytes PData Evaluator EvalDemo EvalProps Registry.
From Stdlib Require Import Floats.SpecFloat.

Section props.
Context `{L : Libs} {HL : LibsOk L}.
Variable uint32_out_of_range : spec_float → Z.

Abbreviation buildShared := (buildShared uint32_out_of_range).
Abbreviation buildPolicy := (buildPolicy uint32_out_of_range).
Abbreviation Build := (Build uint32_out_of_range).

Lemma build_all_ok {A} (build : A → buildError + evaluator) wrap i l evs :
  build_all build wrap i l = inr evs ↔ Forall2 (λ a e, build a = inr e) l evs.
Proof.
  revert i evs. induction l as [|a l IH]; intros i evs; simpl.
  - split; [intros [= <-]; apply List.Forall2_nil|intros Hf; by inversion Hf].
  - destruct (build a) as [err|ev] eqn:Ha.
    { split; [done|]. intros Hf. inversion Hf; subst. congruence. }
    destruct (build_all build wrap (S i) l) as [err|evs'] eqn:Hl.
    + split; [done|]. intros Hf. inversion Hf as [|? e ? es H1 H2]; subst.
      apply (IH (S i)) in H2. congruence.
    + split.
      * intros [= <-]. constructor; [done|]. by apply (IH (S i)).
      * intros Hf. inversion Hf as [|? e ? es H1 H2]; subst. apply (IH (S i)) in H2. congruence.
Qed.

Lemma build_all_error {A} (build : A → buildError + evaluator) wrap i l err :
  build_all build wrap i l = inl err ↔
  ∃ pre a post e evs, l = pre ++ a :: post ∧ Forall2 (λ a e, build a = inr e) pre evs ∧
    build a = inl e ∧ err = wrap (i + length pre)%nat a e.
Proof.
  revert i. induction l as [|a l IH]; intros i; simpl.
  { split; [done|]. intros (pre & a & post & e & evs & Hl & _). by destruct pre. }
  destruct (build a) as [e|ev] eqn:Ha.
  - split.
    + intros [= <-]. exists [], a, l, e, []. simpl. rewrite Nat.add_0_r.
      split; [done|]. split; [apply List.Forall2_nil|done].
    + intros (pre & a' & post & e' & evs & Hl & Hpre & He & ->).
      destruct pre as [|b pre]; simpl in Hl; injection Hl as <- ->.
      * simpl. rewrite Nat.add_0_r. congruence.
      * inversion Hpre; subst. congruence.
  - transitivity (build_all build wrap (S i) l = inl err).
    { destruct (build_all build wrap (S i) l); split; congruence. }
    rewrite IH. split.
    + intros (pre & a' & post & e' & evs & -> & Hpre & He & ->).
      exists (a :: pre), a', post, e', (ev :: evs). split; [done|]. split; [by constructor|].
      split; [done|]. simpl. f_equal. lia.
    + intros (pre & a' & post & e' & evs & Hl & Hpre & He & ->).
      destruct pre as [|b pre]; simplify_eq/=; [congruence|]. inversion Hpre; subst.
      exists pre, a', post, e', l'. split; [done|]. split; [done|]. split; [done|]. f_equal. lia.
Qed.

(** [Build] builds every policy, in order, or returns the error of the
    first one it cannot build, with that policy's name. *)
Theorem Build_spec policies :
  (∀ c, Build policies = inr c ↔ Forall2 (λ p e, buildPolicy p = inr e) policies c) ∧
  (∀ err, Build policies = inl err ↔
     ∃ pre p post e c, policies = pre ++ p :: post ∧
       Forall2 (λ p e, buildPolicy p = inr e) pre c ∧ buildPolicy p = inl e ∧
       err = ErrPolicy (Name (shared p)) e).
Proof.
  split; intros x; [apply build_all_ok|]. unfold Registry.Build. rewrite build_all_error.
  naive_solver.
Qed.

(** ** The chains [Build] returns *)

(** A policy that is not a combination. *)
Definition basic (e : evaluator) : bool :=
  match e with andPolicy _ | notPolicy _ | dropPolicy _ => false | _ => true end.

Lemma buildShared_basic cfg e : buildShared cfg = inr e → basic e = true ∧ evaluator_ok e.
Proof.
  unfold Registry.buildShared. intros Hb.
  repeat match type of Hb with
  | (if ?c then _ else _) = _ => destruct c
  end; try (by simplify_eq).
  - unfold NewStatusCodeFilter in Hb. repeat case_match; by simplify_eq.
  - unfold NewStringAttributeFilter in Hb. repeat case_match; simplify_eq; split; try done.
    all: simpl; by intros s v Hs%lru_New_may.
  - unfold NewOTTLConditionFilter in Hb. repeat case_match; by simplify_eq.
Qed.

(** A basic policy never drops, and fails only if an OTTL condition fails. *)
Lemma basic_result t e :
  basic e = true → (eval_spec t e).1 ≠ Dropped ∧ (eval_spec t e).2 ∈ [None; Some ErrOTTL].
Proof.
  assert (∀ d : Decision, d ≠ Dropped →
    (d, @None evalError).1 ≠ Dropped ∧ (d, @None evalError).2 ∈ [None; Some ErrOTTL]) as Hd
    by (intros d Hd; split; [done|set_solver]).
  destruct e; try done; intros _; simpl; unfold some_span, some_resource_or_span, probabilistic_decision;
    try (apply Hd; repeat case_match; done).
  unfold ottl_spec. destruct (find _ _) as [[]|]; simpl; (split; [done|set_solver]).
Qed.

Lemma shared_subs subs evs :
  Forall2 (λ a e, buildShared a = inr e) subs evs → Forall (λ e, basic e = true ∧ evaluator_ok e) evs.
Proof.
  induction 1 as [|a e subs evs Ha _ IH]; constructor; [by eapply buildShared_basic|done].
Qed.

Lemma subs_result t yes evs :
  Forall (λ e, basic e = true ∧ evaluator_ok e) evs →
  (subs_spec yes (eval_spec t <$> evs)).2 ∈ [None; Some ErrOTTL].
Proof.
  intros Hevs. unfold subs_spec. destruct (find _ _) as [r|] eqn:Hf; [|set_solver].
  apply find_some in Hf as [Hin _]. apply list_elem_of_In, list_elem_of_fmap in Hin as (e & -> & He).
  rewrite Forall_forall in Hevs. destruct (Hevs e He) as [Hb _].
  pose proof (basic_result t e Hb) as [Hd Herr].
  destruct (eval_spec t e) as [d [err|]]; simpl in *; destruct d; try done; set_solver.
Qed.

Lemma buildPolicy_result p e t :
  buildPolicy p = inr e → evaluator_ok e ∧ (eval_spec t e).2 ∈ [None; Some ErrOTTL].
Proof.
  unfold Registry.buildPolicy, buildAndPolicy, buildNotPolicy, buildDropPolicy. intros Hb.
  destruct (String.eqb _ And); [|destruct (String.eqb _ Not); [|destruct (String.eqb _ Drop)]].
  - destruct (build_all _ _ _ _) as [|evs] eqn:Ha; simplify_eq. apply build_all_ok, shared_subs in Ha.
    split; [|by apply subs_result]. simpl. apply ok_Forall. eapply Forall_impl; [done|]. by intros ? [].
  - destruct (buildShared _) as [|ev] eqn:Ha; simplify_eq. apply buildShared_basic in Ha as [Hbs Hok].
    split; [done|]. pose proof (basic_result t ev Hbs) as [Hd Herr]. simpl.
    destruct (eval_spec t ev) as [d [err|]]; simpl in *; [done|]. destruct d; simpl; try done; set_solver.
  - destruct (build_all _ _ _ _) as [|evs] eqn:Ha; simplify_eq. apply build_all_ok, shared_subs in Ha.
    split; [|by apply subs_result]. simpl. apply ok_Forall. eapply Forall_impl; [done|]. by intros ? [].
  - apply buildShared_basic in Hb as [Hbs Hok]. split; [done|]. by apply basic_result.
Qed.

Lemma Build_ok policies c : Build policies = inr c → Forall evaluator_ok c ∧ length c = length policies.
Proof.
  intros Hb. apply build_all_ok in Hb. split; [|symmetry; by eapply Forall2_length].
  induction Hb as [|p e ps es Hp _ IH]; constructor; [|done].
  by destruct (buildPolicy_result p e [] Hp).
Qed.

(** C40: the chains [Build] returns start with caches that are right, and their
    evaluation never fails but for an OTTL condition that fails to evaluate: the
    errors for nested drop policies cannot occur. *)
Theorem built_chain policies c t :
  Build policies = inr c →
  Forall evaluator_ok c ∧
  (chain_spec t c).2 ∈ [None; Some ErrOTTL].
Proof.
  intros Hb. apply build_all_ok in Hb.
  assert (Forall (λ e, evaluator_ok e ∧ (eval_spec t e).2 ∈ [None; Some ErrOTTL]) c) as Hc.
  { induction Hb as [|p e ps es Hp _ IH]; constructor; [by eapply buildPolicy_result|done]. }
  split; [eapply Forall_impl; [done|]; by intros ? []|].
  unfold chain_spec. destruct (find _ _) as [r|] eqn:Hf; [|set_solver].
  apply find_some in Hf as [Hin _]. apply list_elem_of_In, list_elem_of_fmap in Hin as (e & -> & He).
  rewrite Forall_forall in Hc. destruct (Hc e He) as [_ Herr].
  destruct (eval_spec t e) as [d [err|]]; [done|]. simpl. set_solver.
Qed.

(** The numeric policy that is built matches the values between its bounds,
    both included, where a bound of 0 is no bound at all. *)
Theorem numeric_bounds cfg e v :
  Type_ cfg = NumericAttribute → buildShared cfg = inr e → is_i64 v →
  let lo := MinValue (cfg_NumericAttribute cfg) in
  let hi := MaxValue (cfg_NumericAttribute cfg) in
  ∃ minValue maxValue,
    e = numericAttributeFilter (na_Key (cfg_NumericAttribute cfg)) minValue maxValue ∧
    (in_range minValue maxValue v = true ↔ (lo = 0 ∨ lo <= v) ∧ (hi = 0 ∨ v <= hi)).
Proof.
  intros Hty Hb Hv lo hi. unfold Registry.buildShared in Hb. rewrite Hty in Hb.
  change (String.eqb NumericAttribute AlwaysSample) with false in Hb.
  change (String.eqb NumericAttribute Latency) with false in Hb.
  change (String.eqb NumericAttribute StatusCode) with false in Hb.
  change (String.eqb NumericAttribute StringAttribute) with false in Hb.
  change (String.eqb NumericAttribute NumericAttribute) with true in Hb.
  cbv iota in Hb. simplify_eq. eexists _, _. split; [done|]. fold lo hi.
  unfold in_range, set_if_nonzero, is_i64 in *. rewrite andb_true_iff.
  destruct (Z.eqb_spec lo 0), (Z.eqb_spec hi 0); simpl; rewrite !Z.leb_le; lia.
Qed.

(** Sub-policies are basic policies: the types that need the complete trace
    are rejected as unsupported, and everything else that is not one of the ten
    basic types, the combinations included, as unknown. *)
Theorem buildShared_types cfg :
  let ty := Type_ cfg in
  (∀ e, buildShared cfg = inr e →
     ty ∈ [AlwaysSample; Latency; StatusCode; StringAttribute; NumericAttribute; BooleanAttribute;
           Probabilistic; TraceState; TraceFlags; OTTLCondition]) ∧
  (ty ∈ [SpanCount_; RateLimiting; BytesLimiting; Composite] → buildShared cfg = inl (ErrUnsupported ty)) ∧
  (ty ∈ [And; Not; Drop] → buildShared cfg = inl (ErrUnknown ty)).
Proof.
  intros ty. split; [|split].
  - intros e. unfold Registry.buildShared. fold ty.
    repeat match goal with
    | |- (if String.eqb ty ?k then _ else _) = _ → _ =>
        destruct (String.eqb_spec ty k) as [->|_]; [intros _; set_solver|]
    end.
    by destruct (existsb _ _).
  - unfold Registry.buildShared. fold ty. rewrite !elem_of_cons, elem_of_nil.
    by intros [-> | [-> | [-> | [-> | []]]]].
  - unfold Registry.buildShared. fold ty. rewrite !elem_of_cons, elem_of_nil.
    by intros [-> | [-> | [-> | []]]].
Qed.

(** ** Probabilistic sampling *)

Definition float_of_Z (z : Z) : spec_float := binary_normalize 53 1024 z 0 false.

Lemma percentage_table :
  forallb (λ p, threshold_of uint32_out_of_range (float_of_Z p) =? p * 16384 / 100)
    (Z.of_nat <$> seq 0 101) = true.
Proof. reflexivity. Qed.

Lemma hashTraceID_range seed b : 0 <= hashTraceID seed b < numHashBuckets.
Proof.
  unfold hashTraceID, numHashBuckets. change (16384 - 1) with (Z.ones 14).
  rewrite Z.land_ones by lia. apply Z.mod_pos_bound. lia.
Qed.

Lemma probabilistic_one_trace threshold seed tid td :
  one_trace tid td →
  probabilistic_decision threshold seed td =
    if hashTraceID seed tid <? threshold then SampledLocal else NotSampled.
Proof.
  intros [Hall Hne]. unfold probabilistic_decision. destruct td as [|rs td]; [done|].
  rewrite all_spans_cons in Hall. unfold rs_spans in Hall.
  destruct (rs_ScopeSpans rs) as [|ss sss]; [done|]. simpl in Hall.
  destruct (ss_Spans ss) as [|s sp]; [done|]. simpl in Hall.
  apply Forall_cons in Hall as [-> _]. done.
Qed.

(** C39: the probabilistic policy decides by the trace identifier alone, so that
    all collectors with the same seed and percentage agree, whatever part of the
    trace each sees; a trace that is sampled at one percentage is sampled at
    every larger one; [p] percent are [p * 16384 / 100] of the 16384 hash
    buckets, so that all traces are sampled at 100 and none at 0. *)
Theorem probabilistic_spec p p' seed tid td td' :
  0 <= p <= p' → p' <= 100 → one_trace tid td → one_trace tid td' →
  let eval q t := eval_spec t (NewProbabilisticSampler uint32_out_of_range seed (float_of_Z q)) in
  eval p td = (if hashTraceID seed tid <? p * 16384 / 100 then SampledLocal else NotSampled, None) ∧
  eval p td' = eval p td ∧
  (eval p td = (SampledLocal, None) → eval p' td' = (SampledLocal, None)) ∧
  (p = 100 → eval p td = (SampledLocal, None)) ∧
  (p = 0 → eval p td = (NotSampled, None)).
Proof.
  intros Hp Hp' Htd Htd' eval.
  assert (∀ q, 0 <= q <= 100 → threshold_of uint32_out_of_range (float_of_Z q) = q * 16384 / 100) as Hth.
  { intros q Hq. pose proof percentage_table as Ht. rewrite forallb_forall in Ht.
    apply Z.eqb_eq, Ht, list_elem_of_In, list_elem_of_fmap. exists (Z.to_nat q).
    split; [lia|]. apply elem_of_seq. lia. }
  subst eval. simpl. rewrite !Hth by lia.
  rewrite !(probabilistic_one_trace _ _ tid) by done.
  pose proof (hashTraceID_range seed tid) as Hr. unfold numHashBuckets in Hr.
  split; [done|]. split; [done|].
  assert (p * 16384 / 100 <= p' * 16384 / 100) by (apply Z.div_le_mono; lia).
  split; [|split].
  - destruct (Z.ltb_spec (hashTraceID seed tid) (p * 16384 / 100)); [|done].
    destruct (Z.ltb_spec (hashTraceID seed tid) (p' * 16384 / 100)); [done|lia].
  - intros ->. change (100 * 16384 / 100) with 16384.
    destruct (Z.ltb_spec (hashTraceID seed tid) 16384); [done|lia].
  - intros ->. change (0 * 16384 / 100) with 0.
    destruct (Z.ltb_spec (hashTraceID seed tid) 0); [lia|done].
Qed.
End props.

(** ** Instances *)

Definition no_float : spec_float := S754_zero false.

Definition demo_shared (name type : string) : SharedPolicyCfg (L := EvalDemo.libs) :=
  MkSharedPolicyCfg name type (MkLatencyCfg 100 0) (MkNumericAttributeCfg "size"%string 0 10)
    (MkProbabilisticCfg 7 (float_of_Z 25)) (MkStatusCodeCfg ["ERROR"%string])
    (MkStringAttributeCfg "name"%string ["fro"%string] true 0) (MkRateLimitingCfg 0)
    (MkBytesLimitingCfg 0 0) (MkSpanCountCfg 0 0) (MkTraceStateCfg "k"%string [])
    (MkBooleanAttributeCfg "b"%string true) (MkOTTLConditionCfg (tt : ErrorMode (Libs := EvalDemo.libs)) [] []).

Definition demo_policies : list (PolicyCfg (L := EvalDemo.libs)) :=
  [MkPolicyCfg (demo_shared "errors" And) [demo_shared "1" StatusCode; demo_shared "2" StringAttribute]
     (demo_shared String.EmptyString String.EmptyString) [];
   MkPolicyCfg (demo_shared "fast" Not) [] (demo_shared "3" Latency) [];
   MkPolicyCfg (demo_shared "some" Probabilistic) [] (demo_shared String.EmptyString String.EmptyString) []].

Definition demo_built : Chain (L := EvalDemo.libs) :=
  [andPolicy [statusCodeFilter [2];
     stringAttributeFilter "name"%string
       (MRegexp (["fro"%string] : list (Regexp (Libs := EvalDemo.libs))) (lru_New defaultCacheSize))];
   notPolicy (latency 100 0); probabilisticSampler 4096 7].

Lemma built_chain_witness :
  Build (λ _, 0) demo_policies = inr demo_built ∧ Forall evaluator_ok demo_built ∧
  (chain_spec EvalDemo.batch demo_built).2 ∈ [None; Some ErrOTTL].
Proof.
  assert (Build (λ _, 0) demo_policies = inr demo_built) as Hb by reflexivity.
  split; [exact Hb|]. exact (built_chain (λ _, 0) demo_policies demo_built EvalDemo.batch Hb).
Defined.

Lemma numeric_bounds_witness :
  ∃ e, buildShared (λ _, 0) (demo_shared "sizes" NumericAttribute) = inr e ∧
  ∃ minValue maxValue, e = numericAttributeFilter "size"%string minValue maxValue ∧
    (in_range minValue maxValue (-5) = true ↔ (0 = 0 ∨ 0 <= -5) ∧ (10 = 0 ∨ -5 <= 10)).
Proof.
  eexists. split; [reflexivity|].
  apply (numeric_bounds (λ _, 0) (demo_shared "sizes" NumericAttribute) _ (-5)); [reflexivity|reflexivity|].
  unfold is_i64, min_i64, max_i64. lia.
Defined.

Lemma probabilistic_spec_witness :
  0 <= 25 <= 50 ∧ one_trace EvalDemo.tid_a EvalDemo.part_a ∧
  let eval q t := eval_spec (L := EvalDemo.libs) t (NewProbabilisticSampler (λ _, 0) 7 (float_of_Z q)) in
  let first := [EvalDemo.resource "front" [[EvalDemo.a1]]] in
  eval 25 first = eval 25 EvalDemo.part_a.
Proof.
  assert (one_trace EvalDemo.tid_a EvalDemo.part_a) as H1.
  { split; [repeat constructor; reflexivity|discriminate]. }
  assert (one_trace EvalDemo.tid_a [EvalDemo.resource "front" [[EvalDemo.a1]]]) as H2.
  { split; [repeat constructor; reflexivity|discriminate]. }
  split; [lia|]. split; [exact H1|].
  assert (0 <= 25 <= 50) as Hp by lia. assert (50 <= 100) as Hp' by lia.
  destruct (probabilistic_spec (L := EvalDemo.libs) (λ _, 0) 25 50 7 _ _ _ Hp Hp' H1 H2) as (_ & H & _).
  exact H.
Defined.
