(* ===== verification/Split.v ===== *)
(** * Grouping the spans of a batch by trace

    [groupByTrace] (split.go). Its three maps hold handles of growing slices:
    [out] the traces, [rsMap] and [ssMap] the [ResourceSpans] and [ScopeSpans]
    of a trace made for those of the input. A handle is the position of the
    element in the slices of its trace, which are in [out] only. *)

From S2P Require Import Prelude Bytes PData Evaluator EvalDemo.

Section split.
Context `{PData}.

Record groups := MkGroups {
  g_out : gmap TraceID (list ResourceSpans);
  g_rsMap : gmap (TraceID * nat) nat;               (* rsKey *)
  g_ssMap : gmap (TraceID * nat * nat) (nat * nat); (* ssKey *)
}.

Definition add_scope (ss : ScopeSpans) (rs : ResourceSpans) : ResourceSpans :=
  MkResourceSpans (rs_Resource rs) (rs_SchemaUrl rs)
    (rs_ScopeSpans rs ++ [MkScopeSpans (ss_Scope ss) (ss_SchemaUrl ss) []]).

Definition add_span (span : Span) (ss : ScopeSpans) : ScopeSpans :=
  MkScopeSpans (ss_Scope ss) (ss_SchemaUrl ss) (ss_Spans ss ++ [span]).

Definition alter_scopes (f : list ScopeSpans → list ScopeSpans) (rs : ResourceSpans) : ResourceSpans :=
  MkResourceSpans (rs_Resource rs) (rs_SchemaUrl rs) (f (rs_ScopeSpans rs)).

(** [outSS], found or made. *)
Definition scope_for (rsIdx ssIdx : nat) (rs : ResourceSpans) (ss : ScopeSpans) (tid : TraceID)
    (g : groups) : groups * (nat * nat) :=
  match g_ssMap g !! (tid, rsIdx, ssIdx) with
  | Some outSS => (g, outSS)
  | None =>
      let t := default [] (g_out g !! tid) in
      let '(t, rsMap, outRS) :=
        match g_rsMap g !! (tid, rsIdx) with
        | Some outRS => (t, g_rsMap g, outRS)
        | None =>
            (t ++ [MkResourceSpans (rs_Resource rs) (rs_SchemaUrl rs) []],
             <[(tid, rsIdx) := length t]> (g_rsMap g), length t)
        end in
      let outSS := (outRS, length (default [] (rs_ScopeSpans <$> t !! outRS))) in
      (MkGroups (<[tid := alter (add_scope ss) outRS t]> (g_out g)) rsMap
         (<[(tid, rsIdx, ssIdx) := outSS]> (g_ssMap g)),
       outSS)
  end.

(** The body of the innermost loop. *)
Definition group_span (rsIdx ssIdx : nat) (rs : ResourceSpans) (ss : ScopeSpans) (g : groups) (span : Span)
    : groups :=
  let tid := span_TraceID span in
  let '(g, (outRS, outSS)) := scope_for rsIdx ssIdx rs ss tid g in
  MkGroups
    (alter (λ t, alter (alter_scopes (λ l, alter (add_span span) outSS l)) outRS t) tid (g_out g))
    (g_rsMap g) (g_ssMap g).

(** [for i, x := range l] *)
Fixpoint range {A T} (f : nat → T → A → T) (i : nat) (l : list A) (s : T) : T :=
  match l with
  | [] => s
  | a :: l => range f (S i) l (f i s a)
  end.

Definition groupByTrace (td : Traces) : gmap TraceID (list ResourceSpans) :=
  g_out (range (λ rsIdx g rs,
    range (λ ssIdx g ss,
      foldl (group_span rsIdx ssIdx rs ss) g (ss_Spans ss))
      0 (rs_ScopeSpans rs) g)
    0 td (MkGroups ∅ ∅ ∅)).

(** ** What it computes: the part of the batch that belongs to a trace *)

Definition restrict_ss (tid : TraceID) (ss : ScopeSpans) : option ScopeSpans :=
  match filter (λ s, span_TraceID s = tid) (ss_Spans ss) with
  | [] => None
  | spans => Some (MkScopeSpans (ss_Scope ss) (ss_SchemaUrl ss) spans)
  end.

Definition restrict_rs (tid : TraceID) (rs : ResourceSpans) : option ResourceSpans :=
  match omap (restrict_ss tid) (rs_ScopeSpans rs) with
  | [] => None
  | sss => Some (MkResourceSpans (rs_Resource rs) (rs_SchemaUrl rs) sss)
  end.

Definition restrict (tid : TraceID) (td : Traces) : Traces := omap (restrict_rs tid) td.

Definition nonempty {A} (l : list A) : option (list A) := match l with [] => None | _ => Some l end.

(** ** The loop invariant *)

(** The scope [ss] and the resource [rs] with other contents. *)
Definition scope_of (ss : ScopeSpans) (l : list Span) : ScopeSpans :=
  MkScopeSpans (ss_Scope ss) (ss_SchemaUrl ss) l.
Definition res_of (rs : ResourceSpans) (l : list ScopeSpans) : ResourceSpans :=
  MkResourceSpans (rs_Resource rs) (rs_SchemaUrl rs) l.

(** The state after the resources [pre], and of the next one [rs] the scopes
    [spre] and of the next one [ss] the spans [sp], for one trace. *)
Record grouped_at (pre : Traces) (rs : ResourceSpans) (spre : list ScopeSpans) (ss : ScopeSpans)
    (sp : list Span) (g : groups) (tid : TraceID) : Prop := {
  ga_out : g_out g !! tid = nonempty (restrict tid (pre ++ [res_of rs (spre ++ [scope_of ss sp])]));
  ga_rs : g_rsMap g !! (tid, length pre) =
            match omap (restrict_ss tid) (spre ++ [scope_of ss sp]) with
            | [] => None
            | _ => Some (length (restrict tid pre))
            end;
  ga_ss : g_ssMap g !! (tid, length pre, length spre) =
            match filter (λ s, span_TraceID s = tid) sp with
            | [] => None
            | _ => Some (length (restrict tid pre), length (omap (restrict_ss tid) spre))
            end;
  ga_rs_new : ∀ i, (length pre < i)%nat → g_rsMap g !! (tid, i) = None;
  ga_ss_new : ∀ i j, (length pre < i)%nat ∨ i = length pre ∧ (length spre < j)%nat →
                g_ssMap g !! (tid, i, j) = None;
}.

Lemma alter_last {A} (f : A → A) l x : alter f (length l) (l ++ [x]) = l ++ [f x].
Proof.
  induction l as [|a l IH]; simpl; [done|]. f_equal. exact IH.
Qed.

Lemma lookup_last {A} (l : list A) x : (l ++ [x]) !! length l = Some x.
Proof. by rewrite lookup_app_r, Nat.sub_diag. Qed.

Lemma restrict_app tid td td' : restrict tid (td ++ td') = restrict tid td ++ restrict tid td'.
Proof. unfold restrict. apply omap_app. Qed.

(** A trace's state is not touched by the spans of other traces. *)
Lemma group_span_other i j rs ss g s tid :
  span_TraceID s ≠ tid →
  let g' := group_span i j rs ss g s in
  g_out g' !! tid = g_out g !! tid ∧ (∀ i', g_rsMap g' !! (tid, i') = g_rsMap g !! (tid, i')) ∧
  (∀ i' j', g_ssMap g' !! (tid, i', j') = g_ssMap g !! (tid, i', j')).
Proof.
  intros Hne g'. subst g'. unfold group_span, scope_for.
  destruct (g_ssMap g !! _) as [[ri si]|]; [|destruct (g_rsMap g !! _) as [ri|]]; simpl.
  - by rewrite lookup_alter_ne.
  - rewrite lookup_alter_ne, lookup_insert_ne by done. split; [done|]. split; [done|].
    intros i' j'. rewrite lookup_insert_ne; [done|congruence].
  - rewrite lookup_alter_ne, lookup_insert_ne by done. split; [done|].
    split; intros; rewrite lookup_insert_ne; (done || congruence).
Qed.


(** The last step of [group_span], at the end of the trace's slices. *)
Lemma append_span R rs K ss l s :
  alter (alter_scopes (λ sss, alter (add_span s) (length K) sss)) (length R)
    (R ++ [res_of rs (K ++ [scope_of ss l])]) = R ++ [res_of rs (K ++ [scope_of ss (l ++ [s])])].
Proof. rewrite alter_last. unfold alter_scopes. simpl. by rewrite alter_last. Qed.

Lemma append_scope R rs K ss :
  alter (add_scope ss) (length R) (R ++ [res_of rs K]) = R ++ [res_of rs (K ++ [scope_of ss []])].
Proof. by rewrite alter_last. Qed.

Lemma restrict_scope tid ss l :
  restrict_ss tid (scope_of ss l) =
    match filter (λ s, span_TraceID s = tid) l with [] => None | l => Some (scope_of ss l) end.
Proof. done. Qed.

Lemma restrict_res tid rs l :
  restrict_rs tid (res_of rs l) =
    match omap (restrict_ss tid) l with [] => None | l => Some (res_of rs l) end.
Proof. done. Qed.

Lemma filter_tid_snoc (tid : TraceID) (sp : list Span) s :
  filter (λ s, span_TraceID s = tid) (sp ++ [s]) =
    filter (λ s, span_TraceID s = tid) sp ++ (if decide (span_TraceID s = tid) then [s] else []).
Proof. rewrite filter_app, filter_cons. by case_decide. Qed.

(** The three places a span of the trace can go to. *)
Lemma group_span_same pre rs spre ss sp s g :
  let tid := span_TraceID s in
  let R := restrict tid pre in
  let K := omap (restrict_ss tid) spre in
  let l := filter (λ s, span_TraceID s = tid) sp in
  let g' := group_span (length pre) (length spre) rs ss g s in
  grouped_at pre rs spre ss sp g tid →
  g_out g' !! tid = Some (R ++ [res_of rs (K ++ [scope_of ss (l ++ [s])])]) ∧
  (∀ i, g_rsMap g' !! (tid, i) = if decide (i = length pre) then Some (length R) else g_rsMap g !! (tid, i)) ∧
  (∀ i j, g_ssMap g' !! (tid, i, j) =
     if decide ((i, j) = (length pre, length spre)) then Some (length R, length K) else g_ssMap g !! (tid, i, j)).
Proof.
  intros tid R K l g' [Hout Hrs Hss _ _]. subst g'. unfold group_span, scope_for.
  assert (omap (restrict_ss tid) (spre ++ [scope_of ss sp]) =
    K ++ match l with [] => [] | _ => [scope_of ss l] end) as EK.
  { rewrite omap_app. fold K. f_equal. simpl. rewrite restrict_scope. fold l. by destruct l. }
  rewrite restrict_app in Hout. simpl in Hout. rewrite restrict_res, EK in Hout.
  rewrite EK in Hrs. fold l in Hss. fold R K in Hout, Hrs, Hss. fold tid.
  destruct l as [|x l0] eqn:El; rewrite Hss.
  - rewrite app_nil_r in Hout, Hrs. destruct K as [|k K0] eqn:EKK; rewrite Hrs; simpl in Hout.
    + (* a new resource *)
      rewrite app_nil_r in Hout. rewrite Hout.
      assert (default [] (nonempty R) = R) as -> by (by destruct R). simpl.
      rewrite lookup_last. simpl. split; [|split].
      * rewrite lookup_alter_eq, lookup_insert_eq. simpl. f_equal.
        fold (res_of rs []). rewrite (append_scope R rs [] ss). apply (append_span R rs [] ss []).
      * intros i. rewrite lookup_insert. case_decide as Hi; case_decide as Hi'; simplify_eq; done.
      * intros i j. rewrite lookup_insert. case_decide as Hi; case_decide as Hi'; simplify_eq; done.
    + (* a new scope *)
      rewrite Hout. assert (nonempty (R ++ [res_of rs (k :: K0)]) = Some (R ++ [res_of rs (k :: K0)])) as ->
        by (by destruct R). simpl. rewrite lookup_last. simpl. split; [|split].
      * rewrite lookup_alter_eq, lookup_insert_eq. simpl. f_equal.
        rewrite (append_scope R rs (k :: K0) ss). apply (append_span R rs (k :: K0) ss []).
      * intros i. by case_decide as Hi; subst.
      * intros i j. rewrite lookup_insert. case_decide as Hi; case_decide as Hi'; simplify_eq; done.
  - (* the current scope *)
    assert (match K ++ [scope_of ss (x :: l0)] with [] => None | l => Some (res_of rs l) end =
      Some (res_of rs (K ++ [scope_of ss (x :: l0)]))) as E by (by destruct K).
    rewrite E in Hout. clear E. simpl. split; [|split].
    + rewrite lookup_alter_eq, Hout.
      assert (nonempty (R ++ [res_of rs (K ++ [scope_of ss (x :: l0)])]) =
        Some (R ++ [res_of rs (K ++ [scope_of ss (x :: l0)])])) as -> by (by destruct R).
      simpl. f_equal. apply (append_span R rs K ss (x :: l0)).
    + intros i. case_decide as Hi; [|done]. subst i. rewrite Hrs. by destruct K.
    + intros i j. case_decide as Hi; [|done]. by simplify_eq.
Qed.

(** One more span of the current scope. *)
Lemma grouped_span pre rs spre ss sp s g tid :
  grouped_at pre rs spre ss sp g tid →
  grouped_at pre rs spre ss (sp ++ [s]) (group_span (length pre) (length spre) rs ss g s) tid.
Proof.
  intros Hg. pose proof Hg as [Hout Hrs Hss Hrsn Hssn].
  assert (restrict_ss tid (scope_of ss (sp ++ [s])) =
    match filter (λ s, span_TraceID s = tid) sp ++ (if decide (span_TraceID s = tid) then [s] else [])
    with [] => None | l => Some (scope_of ss l) end) as Er
    by (by rewrite restrict_scope, filter_tid_snoc).
  destruct (decide (span_TraceID s = tid)) as [Ht|Ht].
  - subst tid. destruct (group_span_same pre rs spre ss sp s g Hg) as (E1 & E2 & E3).
    set (l := filter _ sp) in *.
    assert (restrict_ss (span_TraceID s) (scope_of ss (sp ++ [s])) = Some (scope_of ss (l ++ [s]))) as Er'
      by (rewrite Er; by destruct l).
    set (K := omap (restrict_ss (span_TraceID s)) spre) in *.
    assert (omap (restrict_ss (span_TraceID s)) (spre ++ [scope_of ss (sp ++ [s])]) = K ++ [scope_of ss (l ++ [s])])
      as EK by (rewrite omap_app; simpl; by rewrite Er').
    constructor.
    + rewrite E1, restrict_app. simpl. rewrite (restrict_res _ rs), EK.
      by destruct K, (restrict (span_TraceID s) pre).
    + rewrite E2, decide_True, EK by done. by destruct K.
    + rewrite E3, decide_True by done. rewrite filter_tid_snoc, decide_True by done. fold l. by destruct l.
    + intros i Hi. rewrite E2, decide_False by lia. by apply Hrsn.
    + intros i j Hij. rewrite E3, decide_False by (intros [= -> ->]; lia). by apply Hssn.
  - destruct (group_span_other (length pre) (length spre) rs ss g s tid Ht) as (E1 & E2 & E3).
    rewrite app_nil_r in Er. change (match filter _ sp with [] => _ | _ => _ end)
      with (restrict_ss tid (scope_of ss sp)) in Er.
    constructor.
    + rewrite E1, Hout, !restrict_app. simpl. rewrite !(restrict_res _ rs), !omap_app. simpl. by rewrite Er.
    + rewrite E2, Hrs, !omap_app. simpl. by rewrite Er.
    + rewrite E3, Hss, filter_tid_snoc, decide_False, app_nil_r by done. done.
    + intros i Hi. rewrite E2. by apply Hrsn.
    + intros i j Hij. rewrite E3. by apply Hssn.
Qed.

(** Between two scopes of a resource, and between two resources. *)
Record before_scope (pre : Traces) (rs : ResourceSpans) (spre : list ScopeSpans) (g : groups)
    (tid : TraceID) : Prop := {
  bs_out : g_out g !! tid = nonempty (restrict tid (pre ++ [res_of rs spre]));
  bs_rs : g_rsMap g !! (tid, length pre) =
            match omap (restrict_ss tid) spre with [] => None | _ => Some (length (restrict tid pre)) end;
  bs_rs_new : ∀ i, (length pre < i)%nat → g_rsMap g !! (tid, i) = None;
  bs_ss_new : ∀ i j, (length pre < i)%nat ∨ i = length pre ∧ (length spre <= j)%nat →
                g_ssMap g !! (tid, i, j) = None;
}.

Record before_resource (pre : Traces) (g : groups) (tid : TraceID) : Prop := {
  br_out : g_out g !! tid = nonempty (restrict tid pre);
  br_rs_new : ∀ i, (length pre <= i)%nat → g_rsMap g !! (tid, i) = None;
  br_ss_new : ∀ i j, (length pre <= i)%nat → g_ssMap g !! (tid, i, j) = None;
}.

Lemma scope_starts pre rs spre ss g tid :
  before_scope pre rs spre g tid → grouped_at pre rs spre ss [] g tid.
Proof.
  intros [Hout Hrs Hrsn Hssn]. assert (restrict_ss tid (scope_of ss []) = None) as Er by done.
  constructor.
  - rewrite Hout, !restrict_app. simpl. rewrite !restrict_res, omap_app. simpl. by rewrite ?Er, app_nil_r.
  - rewrite Hrs, omap_app. simpl. by rewrite ?Er, app_nil_r.
  - apply Hssn. lia.
  - done.
  - intros i j Hij. apply Hssn. lia.
Qed.

Lemma scope_of_id ss : scope_of ss (ss_Spans ss) = ss.
Proof. by destruct ss. Qed.

Lemma scope_ends pre rs spre ss g tid :
  grouped_at pre rs spre ss (ss_Spans ss) g tid → before_scope pre rs (spre ++ [ss]) g tid.
Proof.
  intros [Hout Hrs _ Hrsn Hssn]. rewrite scope_of_id in *. constructor; try done.
  intros i j Hij. apply Hssn. rewrite length_app in Hij. simpl in Hij. lia.
Qed.

Lemma grouped_spans pre rs spre ss sp l g tid :
  grouped_at pre rs spre ss sp g tid →
  grouped_at pre rs spre ss (sp ++ l) (foldl (group_span (length pre) (length spre) rs ss) g l) tid.
Proof.
  revert sp g. induction l as [|s l IH]; intros sp g Hg; simpl; [by rewrite app_nil_r|].
  rewrite (cons_middle s sp l), app_assoc. by apply IH, grouped_span.
Qed.

Lemma grouped_scopes pre rs spre l g tid :
  before_scope pre rs spre g tid →
  before_scope pre rs (spre ++ l)
    (range (λ ssIdx g ss, foldl (group_span (length pre) ssIdx rs ss) g (ss_Spans ss)) (length spre) l g) tid.
Proof.
  revert spre g. induction l as [|ss l IH]; intros spre g Hg; simpl; [by rewrite app_nil_r|].
  rewrite (cons_middle ss spre l), app_assoc.
  specialize (IH (spre ++ [ss])). rewrite length_app in IH. simpl in IH. rewrite Nat.add_1_r in IH.
  apply IH, scope_ends. by apply (grouped_spans pre rs spre ss []), scope_starts.
Qed.

Lemma resource_starts pre rs g tid : before_resource pre g tid → before_scope pre rs [] g tid.
Proof.
  intros [Hout Hrsn Hssn]. constructor; simpl.
  - rewrite Hout, restrict_app. simpl. by rewrite app_nil_r.
  - apply Hrsn. lia.
  - intros i Hi. apply Hrsn. lia.
  - intros i j Hij. apply Hssn. lia.
Qed.

Lemma resource_ends pre rs g tid :
  before_scope pre rs (rs_ScopeSpans rs) g tid → before_resource (pre ++ [rs]) g tid.
Proof.
  intros [Hout Hrs Hrsn Hssn].
  assert (res_of rs (rs_ScopeSpans rs) = rs) as E by (by destruct rs). rewrite E in Hout.
  constructor; rewrite ?length_app; simpl; try done; intros; [apply Hrsn|apply Hssn]; lia.
Qed.

Lemma grouped_resources pre l g tid :
  before_resource pre g tid →
  before_resource (pre ++ l)
    (range (λ rsIdx g rs,
      range (λ ssIdx g ss, foldl (group_span rsIdx ssIdx rs ss) g (ss_Spans ss)) 0 (rs_ScopeSpans rs) g)
      (length pre) l g) tid.
Proof.
  revert pre g. induction l as [|rs l IH]; intros pre g Hg; simpl; [by rewrite app_nil_r|].
  rewrite (cons_middle rs pre l), app_assoc.
  specialize (IH (pre ++ [rs])). rewrite length_app in IH. simpl in IH. rewrite Nat.add_1_r in IH.
  apply IH, resource_ends. by apply (grouped_scopes pre rs []), resource_starts.
Qed.

Lemma groupByTrace_lookup td tid : groupByTrace td !! tid = nonempty (restrict tid td).
Proof.
  unfold groupByTrace. apply (grouped_resources [] td (MkGroups ∅ ∅ ∅) tid).
  constructor; simpl; intros; by rewrite lookup_empty.
Qed.

(** ** Consequences *)

Lemma restrict_spans tid td : all_spans (restrict tid td) = filter (λ s, span_TraceID s = tid) (all_spans td).
Proof.
  assert (∀ l, mjoin (ss_Spans <$> omap (restrict_ss tid) l) =
    filter (λ s, span_TraceID s = tid) (mjoin (ss_Spans <$> l))) as Hss.
  { induction l as [|ss l IH]; [done|].
    change (mjoin (ss_Spans <$> ss :: l)) with (ss_Spans ss ++ mjoin (ss_Spans <$> l)).
    rewrite filter_app, <- IH. simpl. unfold restrict_ss at 1. by destruct (filter _ (ss_Spans ss)). }
  induction td as [|rs td IH]; [done|]. rewrite all_spans_cons, filter_app, <- IH.
  unfold rs_spans at 1. rewrite <- Hss. unfold restrict. simpl. unfold restrict_rs at 1.
  by destruct (omap (restrict_ss tid) (rs_ScopeSpans rs)).
Qed.

Lemma restrict_nil tid td :
  restrict tid td = [] ↔ filter (λ s, span_TraceID s = tid) (all_spans td) = [].
Proof.
  rewrite <- restrict_spans. split; [by intros ->|]. intros Hn.
  destruct (restrict tid td) as [|rs l] eqn:Hr; [done|]. exfalso.
  assert (rs ∈ restrict tid td) as Hin by (rewrite Hr; set_solver).
  unfold restrict in Hin. apply list_elem_of_omap in Hin as (rs0 & _ & Hrs).
  rewrite all_spans_cons in Hn. apply app_eq_nil in Hn as [Hn _]. unfold restrict_rs in Hrs.
  destruct (omap (restrict_ss tid) (rs_ScopeSpans rs0)) as [|ss sss] eqn:Ho; [done|]. simplify_eq.
  assert (ss ∈ omap (restrict_ss tid) (rs_ScopeSpans rs0)) as Hss by (rewrite Ho; set_solver).
  apply list_elem_of_omap in Hss as (ss0 & _ & Hss). unfold restrict_ss in Hss.
  destruct (filter _ (ss_Spans ss0)) as [|s l']; [done|]. by simplify_eq.
Qed.

Lemma nonempty_some {A} (l k : list A) : nonempty l = Some k ↔ l = k ∧ k ≠ [].
Proof. destruct l; simpl; naive_solver. Qed.

Lemma restrict_one_trace tid td : restrict tid td ≠ [] → one_trace tid (restrict tid td).
Proof.
  intros Hne. split.
  - rewrite restrict_spans. apply Forall_forall. by intros s [Hs _]%list_elem_of_filter.
  - destruct (restrict tid td) as [|rs l] eqn:Hr; [done|].
    assert (rs ∈ restrict tid td) as Hin by (rewrite Hr; set_solver).
    unfold restrict in Hin. apply list_elem_of_omap in Hin as (rs0 & _ & Hrs). unfold restrict_rs in Hrs.
    destruct (omap (restrict_ss tid) (rs_ScopeSpans rs0)) as [|ss sss] eqn:Ho; [done|]. simplify_eq/=.
    assert (ss ∈ omap (restrict_ss tid) (rs_ScopeSpans rs0)) as Hss by (rewrite Ho; set_solver).
    apply list_elem_of_omap in Hss as (ss0 & _ & Hss). unfold restrict_ss in Hss.
    destruct (filter _ (ss_Spans ss0)) as [|s l']; [done|]. by simplify_eq/=.
Qed.

(** An entry of the map. *)
Lemma group_entry td tid t :
  groupByTrace td !! tid = Some t → t = restrict tid td ∧ one_trace tid t.
Proof.
  rewrite groupByTrace_lookup. intros [<- Hne]%nonempty_some. split; [done|]. by apply restrict_one_trace.
Qed.

(** Lists split by key. *)
Lemma split_by_key {A K} `{EqDecision K} (f : A → K) (ks : list K) (l : list A) :
  NoDup ks → (∀ x, x ∈ l → f x ∈ ks) → mjoin ((λ k, filter (λ x, f x = k) l) <$> ks) ≡ₚ l.
Proof.
  revert l. induction ks as [|k ks IH]; intros l Hnd Hin.
  { destruct l as [|x l]; [done|]. exfalso. destruct (not_elem_of_nil (f x)). apply Hin. set_solver. }
  apply NoDup_cons in Hnd as [Hk Hnd]. simpl.
  etransitivity; [|apply (filter_app_complement (λ x, f x = k) l)]. f_equiv.
  rewrite <- (IH (filter (λ x, ¬ f x = k) l) Hnd).
  - apply Permutation_refl'. f_equal. apply list_fmap_ext. intros i k' Hk'. symmetry.
    rewrite list_filter_filter. apply list_filter_iff. intros x. split; [by intros []|].
    intros <-. split; [done|]. intros E. apply Hk. rewrite <- E. by eapply list_elem_of_lookup_2.
  - intros x [Hx Hxl]%list_elem_of_filter. apply Hin in Hxl as [|]%elem_of_cons; done.
Qed.

Lemma group_keys td entries s :
  entries ≡ₚ map_to_list (groupByTrace td) → s ∈ all_spans td → span_TraceID s ∈ entries.*1.
Proof.
  intros He Hs. rewrite He. apply list_elem_of_fmap.
  destruct (restrict (span_TraceID s) td) as [|rs l] eqn:Hr.
  - apply restrict_nil in Hr. exfalso. eapply (not_elem_of_nil s). rewrite <- Hr.
    by apply list_elem_of_filter.
  - exists (span_TraceID s, rs :: l). split; [done|]. apply elem_of_map_to_list.
    by rewrite groupByTrace_lookup, Hr.
Qed.

Lemma entries_nodup td entries :
  entries ≡ₚ map_to_list (groupByTrace td) → NoDup entries.*1.
Proof. intros ->. apply NoDup_fst_map_to_list. Qed.

Lemma entries_group td entries tid t :
  entries ≡ₚ map_to_list (groupByTrace td) → (tid, t) ∈ entries → groupByTrace td !! tid = Some t.
Proof. intros -> Hin. by apply elem_of_map_to_list. Qed.

Lemma entries_spans td entries :
  entries ≡ₚ map_to_list (groupByTrace td) → mjoin ((λ e, all_spans e.2) <$> entries) ≡ₚ all_spans td.
Proof.
  intros He. rewrite <- (split_by_key span_TraceID entries.*1 (all_spans td)).
  - apply Permutation_refl'. f_equal. rewrite <- list_fmap_compose. apply list_fmap_ext.
    intros i [tid t] Hi. apply list_elem_of_lookup_2, (entries_group td) in Hi; [|done].
    apply group_entry in Hi as [-> _]. apply restrict_spans.
  - by eapply entries_nodup.
  - intros s Hs. by eapply group_keys.
Qed.

(** C6: [groupByTrace] computes, for every trace of the batch and for no other,
    what is left of the batch without the spans of other traces: the resources
    and scopes that have spans of the trace, with their attributes and schema
    URLs, and these spans, all in the order of the batch. *)
Theorem groupByTrace_spec td tid :
  groupByTrace td !! tid = nonempty (restrict tid td) ∧
  all_spans (default [] (groupByTrace td !! tid)) = filter (λ s, span_TraceID s = tid) (all_spans td).
Proof.
  rewrite groupByTrace_lookup. split; [done|]. rewrite <- restrict_spans. by destruct (restrict tid td).
Qed.

(** In whatever order the map is iterated, its entries partition the spans
    of the batch: every trace has one entry, every entry has the spans of its
    own trace and at least one, and no span is lost or duplicated. *)
Theorem groupByTrace_partition td entries :
  entries ≡ₚ map_to_list (groupByTrace td) →
  NoDup entries.*1 ∧ Forall (λ e, one_trace e.1 e.2) entries ∧
  mjoin ((λ e, all_spans e.2) <$> entries) ≡ₚ all_spans td.
Proof.
  intros He. split; [by eapply entries_nodup|]. split; [|by eapply entries_spans].
  apply Forall_forall. intros [tid t] Hin. apply (entries_group td) in Hin; [|done]. by apply group_entry in Hin as [_ ?].
Qed.
End split.

(** The entries of the demonstration's batch, in an order. *)
Definition demo_entries : list (TraceID * Traces) :=
  [(EvalDemo.tid_b, EvalDemo.part_b); (EvalDemo.tid_a, EvalDemo.part_a)].

Lemma demo_entries_ok : demo_entries ≡ₚ map_to_list (groupByTrace EvalDemo.batch).
Proof. vm_compute. first [reflexivity|apply Permutation_swap]. Qed.

Lemma groupByTrace_partition_witness :
  demo_entries ≡ₚ map_to_list (groupByTrace EvalDemo.batch) ∧
  NoDup demo_entries.*1 ∧ Forall (λ e, one_trace e.1 e.2) demo_entries ∧
  mjoin ((λ e, all_spans e.2) <$> demo_entries) ≡ₚ all_spans EvalDemo.batch.
Proof.
  split; [exact demo_entries_ok|]. exact (groupByTrace_partition EvalDemo.batch demo_entries demo_entries_ok).
Defined.
