(* ===== verification/Processor.v ===== *)
(** * The processor

    [processTraces], [onMatch], [onDecision], [newProcessor] and its caller
    (processor.go, config.go, factory.go). The buffer is an interface: the class [BufferOps] of
    its operations and the class [BufferLaws] of what the processor may rely on,
    which [SpanBuffer] implements. The iteration order of Go's maps is an
    argument: any permutation of the map's entries. *)

From S2P Require Import Prelude Bytes Format Interest SpanBuffer BufferInv BufferSpec.
From S2P Require Import PData Evaluator EvalProps Registry Split.
From Stdlib Require Import Floats.SpecFloat.

(** ** The buffer as the processor sees it *)
Class BufferOps (B : Type) := {
  buf_HasInterest : TraceID → B → bool;
  buf_AddInterest : TraceID → B → B;
  buf_Write : TraceID → bytes → Time → B → bool * B;
}.

Class BufferLaws (B : Type) `{!BufferOps B} := {
  buf_ok : B → Prop;
  buf_AddInterest_ok : ∀ tid b, buf_ok b → buf_ok (buf_AddInterest tid b);
  buf_Write_ok : ∀ tid d now b, buf_ok b → buf_ok (buf_Write tid d now b).2;
  buf_Has_Add : ∀ tid b, buf_ok b → buf_HasInterest tid (buf_AddInterest tid b) = true;
  buf_Has_Add_other : ∀ tid tid' b, buf_ok b → tid ≠ tid' →
    buf_HasInterest tid (buf_AddInterest tid' b) = buf_HasInterest tid b;
  buf_Has_Write : ∀ tid tid' d now b, buf_ok b →
    buf_HasInterest tid (buf_Write tid' d now b).2 = buf_HasInterest tid b;
}.

(** What happened to the spans of one trace in a batch. *)
Inductive action :=
| Forwarded (notified : bool)   (* appended to the output; coord.Notify called *)
| Buffered (accepted : bool)    (* handed to Write, which returned nil or ErrFull *)
| MarshalFailed.

Section processor.
Context `{L : Libs} {B : Type} `{!BufferOps B}.

(** [ptrace.ProtoMarshaler], [ptrace.ProtoUnmarshaler] *)
Variable MarshalTraces : Traces → option bytes.
Variable UnmarshalTraces : bytes → option Traces.

(** [p_coord] is whether [Start] was called; the last field is the history of
    the calls of [coord.Notify]. *)
Record processor := MkProcessor {
  p_buf : B;
  p_eval : Chain;
  p_coord : bool;
  p_notified : list TraceID;
}.

Definition add_interest (tid : TraceID) (p : processor) : processor :=
  MkProcessor (buf_AddInterest tid (p_buf p)) (p_eval p) (p_coord p) (p_notified p).

Definition notify (tid : TraceID) (p : processor) : processor :=
  if p_coord p then MkProcessor (p_buf p) (p_eval p) (p_coord p) (p_notified p ++ [tid]) else p.

(** The end of the body of [processTraces]: the spans go to the buffer. *)
Definition buffer_trace (now : Time) (tid : TraceID) (spans : Traces) (p : processor) : action * processor :=
  match MarshalTraces spans with
  | None => (MarshalFailed, p)
  | Some data =>
      let '(ok, buf) := buf_Write tid data now (p_buf p) in
      (Buffered ok, MkProcessor buf (p_eval p) (p_coord p) (p_notified p))
  end.

(** The body of the loop of [processTraces]. The error of [Evaluate] is logged. *)
Definition process_trace (now : Time) (tid : TraceID) (spans : Traces) (p : processor) : action * processor :=
  if buf_HasInterest tid (p_buf p) then (Forwarded false, p)
  else
    let '((d, _), eval) := Chain_Evaluate spans (p_eval p) in
    let p := MkProcessor (p_buf p) eval (p_coord p) (p_notified p) in
    match d with
    | Sampled => (Forwarded (p_coord p), notify tid (add_interest tid p))
    | SampledLocal => (Forwarded false, add_interest tid p)
    | NotSampled | Dropped => buffer_trace now tid spans p
    end.

(** The loop, over the entries in the order the map yields them; with the
    actions taken. *)
Fixpoint process_loop (now : Time) (l : list (TraceID * Traces)) (p : processor) (out : Traces)
    : list action * processor * Traces :=
  match l with
  | [] => ([], p, out)
  | (tid, spans) :: l =>
      let '(a, p) := process_trace now tid spans p in
      let out := match a with Forwarded _ => out ++ spans | _ => out end in
      let '(acts, p, out) := process_loop now l p out in
      (a :: acts, p, out)
  end.

Inductive processError := ErrSkipProcessingData.

(** [entries] is [groupByTrace td] in iteration order. *)
Definition processTraces (now : Time) (entries : list (TraceID * Traces)) (p : processor)
    : Traces * option processError * processor * list action :=
  let '(acts, p, out) := process_loop now entries p [] in
  (out, if SpanCount out =? 0 then Some ErrSkipProcessingData else None, p, acts).

(** What [onMatch] hands to the next consumer; an error is logged. *)
Definition onMatch (data : bytes) : option Traces := UnmarshalTraces data.

Definition onDecision (tid : TraceID) (p : processor) : processor := add_interest tid p.
End processor.

(** ** newProcessor *)
Section new.
Context `{L : Libs}.
Variable uint32_out_of_range : spec_float → Z.

(** [configgrpc.ClientConfig], its zero value and its [Validate]. *)
Context {ClientConfig : Type}.
Variable noClientConfig : ClientConfig.
Context {validateError : Type}.
Variable ClientConfig_Validate : ClientConfig → option validateError.

Record Config := MkConfig {
  BufferFile : string;
  MaxBufferBytes : Z;
  DecisionWaitTime : Duration;
  CoordinatorGRPC : ClientConfig;
  Policies : list PolicyCfg;
}.

(** [Config.Validate] *)
Definition Validate (c : Config) : option validateError := ClientConfig_Validate (CoordinatorGRPC c).

(** [createDefaultConfig] *)
Definition createDefaultConfig : Config := MkConfig String.EmptyString 0 (30 * second) noClientConfig [].

Inductive newProcessorError :=
| ErrTelemetry
| ErrBuffer (err : newError)
| ErrPolicies (err : buildError).

(** [telemetry] is whether [NewTelemetryBuilder] succeeds. When the policies
    are bad the buffer is closed. [CoordinatorGRPC] is only kept, for [Start] to
    hand it to the client of Link.v. *)
Definition newProcessor (telemetry : bool) (page : Z) (env : newEnv) (cfg : Config) (now : Time)
    : newProcessorError + (BufCfg * processor (B := SpanBuffer)) :=
  if negb telemetry then inl ErrTelemetry
  else match New page env (MaxBufferBytes cfg) (DecisionWaitTime cfg) now with
       | inl err => inl (ErrBuffer err)
       | inr (bcfg, buf) =>
           match Build uint32_out_of_range (Policies cfg) with
           | inl err => inl (ErrPolicies err)
           | inr chain => inr (bcfg, MkProcessor buf chain false [])
           end
       end.

(** [createTracesProcessor] of factory.go. [helper] is whether
    [processorhelper.NewTraces] succeeds, which calls [processTraces], [Start] and
    [Shutdown] then; [inl None] is its error. *)
Definition createTracesProcessor (helper telemetry : bool) (page : Z) (env : newEnv) (cfg : Config) (now : Time)
    : option newProcessorError + (BufCfg * processor (B := SpanBuffer)) :=
  match newProcessor telemetry page env cfg now with
  | inl err => inl (Some err)
  | inr p => if helper then inr p else inl None
  end.
End new.

(** ** The span buffer implements the interface *)
Section instance.
Context {cfg : BufCfg} {Hok : BufCfgOk cfg}.

#[export] Instance span_buffer_ops : BufferOps SpanBuffer := {
  buf_HasInterest tid b := HasInterest decisionWait tid (b_now b) (b_interest b);
  buf_AddInterest tid b :=
    set_wakeup true (set_interest (Interest.AddInterest decisionWait tid (b_now b) (b_interest b)) b);
  buf_Write tid data now b := Write (WriteReq tid data now) b;
}.

(** [AddInterest] is two transitions: the critical section and the wakeup. *)
Lemma buf_AddInterest_exec tid b :
  run [LAddInterest tid; LWakeSend] b = Some (buf_AddInterest tid b).
Proof. by destruct b. Qed.

Lemma buf_Write_exec tid data now b :
  b_closed b = false → exec (LWrite (WriteReq tid data now)) b = Some (buf_Write tid data now b).2.
Proof. intros Hc. cbn [exec]. by rewrite Hc. Qed.

Lemma write_interest req b :
  b_interest (Write req b).2 = b_interest b ∧ b_now (Write req b).2 = b_now b ∧ b_closed (Write req b).2 = b_closed b.
Proof. unfold Write. repeat case_match; done. Qed.

Lemma HasInterest_add tid b : ctl b → buf_HasInterest tid (buf_AddInterest tid b) = true.
Proof.
  intros Hctl. simpl. destruct (ctl_interest _ Hctl) as [Hwf _].
  rewrite HasInterest_abs, AddInterest_abs by done. unfold spec_add. rewrite lookup_insert_eq.
  pose proof cfg_wait. apply Z.ltb_lt. unfold time_sub, min_i64, max_i64 in *. lia.
Qed.

#[export] Program Instance span_buffer_laws (H2 : 2 * decisionWait <= max_i64) : BufferLaws SpanBuffer := {
  buf_ok b := ctl b ∧ b_closed b = false;
}.
Next Obligation.
  intros _ tid b [Hctl Hc]. split; [|done].
  eapply (ctl_run [LAddInterest tid; LWakeSend]); [|apply buf_AddInterest_exec]. done.
Qed.
Next Obligation.
  intros _ tid d now b [Hctl Hc]. destruct (write_interest (WriteReq tid d now) b) as (_ & _ & Ec).
  split; [|by etrans]. eapply ctl_step; [|done]. eexists. by apply buf_Write_exec.
Qed.
Next Obligation. intros _ tid b [Hctl _]. by apply HasInterest_add. Qed.
Next Obligation.
  intros H2 tid tid' b [Hctl _] Hne. simpl. destruct (ctl_interest _ Hctl) as [Hwf Hb].
  rewrite !HasInterest_abs, AddInterest_abs by done. unfold spec_add, spec_prune.
  rewrite lookup_insert_ne, map_lookup_filter by done.
  destruct (Interest.abs (b_interest b) !! tid) as [t|]; [|done]. simpl.
  pose proof cfg_wait. destruct (decide (live_at decisionWait (b_now b) t)) as [Hl|Hl].
  - by rewrite option_guard_True.
  - rewrite option_guard_False by done. symmetry. apply Z.ltb_ge. unfold live_at in Hl.
    rewrite i64_small in Hl by (unfold is_i64, min_i64; lia). lia.
Qed.
Next Obligation.
  intros _ tid tid' d now b [Hctl _]. simpl.
  destruct (write_interest (WriteReq tid' d now) b) as (-> & -> & _). done.
Qed.
End instance.
