(* ===== verification/ProcessorProps.v ===== *)
(** * The processor: what is proved

    One call of [processTraces], in any iteration order of the batch's map,
    against any buffer that keeps the laws of [BufferLaws]: no span is lost or
    duplicated, each trace is treated by its own verdict, and once a trace is
    sampled it stays so. With the span buffer, what the iteration order decides:
    which records a nearly full queue refuses, but not which traces are forwarded. *)

From S2P Require Import Prelude Bytes PData Evaluator EvalDemo EvalProps Registry Split Processor.
From S2P Require Import Format Interest SpanBuffer BufferSpec Demo.

Section props.
Context `{L : Libs} {HL : LibsOk L} {B : Type} `{!BufferOps B, !BufferLaws B}.
Variable MarshalTraces : Traces → option bytes.

Abbreviation entry := (TraceID * Traces)%type.
Abbreviation process_trace := (process_trace MarshalTraces).
Abbreviation process_loop := (process_loop MarshalTraces).
Abbreviation processTraces := (processTraces MarshalTraces).

Definition forwarded (a : action) : bool := match a with Forwarded _ => true | _ => false end.

(** The entries whose action satisfies [f]. *)
Definition select (f : action → bool) (acts : list action) (entries : list entry) : list entry :=
  (filter (λ ae, f ae.1 = true) (zip acts entries)).*2.

Lemma select_cons f a e acts entries :
  select f (a :: acts) (e :: entries) = (if f a then [e] else []) ++ select f acts entries.
Proof. unfold select. simpl. rewrite filter_cons. simpl. by destruct (f a). Qed.

Lemma process_loop_cons now tid t l p out :
  process_loop now ((tid, t) :: l) p out =
    let '(a, p1) := process_trace now tid t p in
    let '(acts, p2, out) := process_loop now l p1 (if forwarded a then out ++ t else out) in
    (a :: acts, p2, out).
Proof. simpl. destruct (process_trace now tid t p) as [[]]; done. Qed.

(** ** Where the spans go *)

Lemma process_loop_out now l p out :
  let '(acts, _, out') := process_loop now l p out in
  length acts = length l ∧ out' = out ++ mjoin (select forwarded acts l).*2.
Proof.
  revert p out. induction l as [|[tid t] l IH]; intros p out; [simpl; by rewrite app_nil_r|].
  rewrite process_loop_cons. destruct (process_trace now tid t p) as [a p1].
  pose proof (IH p1 (if forwarded a then out ++ t else out)) as IHl.
  destruct (process_loop now l p1 _) as [[acts p2] out']. destruct IHl as [Hlen ->].
  rewrite select_cons. simpl. split; [by rewrite Hlen|]. destruct (forwarded a); [|done].
  by rewrite <- app_assoc.
Qed.

Lemma spans_of (entries : list entry) : all_spans (mjoin entries.*2) = mjoin ((λ e, all_spans e.2) <$> entries).
Proof.
  induction entries as [|[tid t] l IH]; [done|].
  change (all_spans (t ++ mjoin l.*2) = all_spans t ++ mjoin ((λ e, all_spans e.2) <$> l)).
  by rewrite all_spans_app, IH.
Qed.

Lemma select_split f acts (entries : list entry) :
  length acts = length entries →
  entries ≡ₚ select f acts entries ++ select (negb ∘ f) acts entries.
Proof.
  revert acts. induction entries as [|e l IH]; intros [|a acts] Hlen; simplify_eq/=; [done|].
  rewrite !select_cons. unfold compose at 1. rewrite (IH acts) at 1 by done.
  destruct (f a); simpl; [done|]. apply Permutation_middle.
Qed.

Lemma select_sub f acts (entries : list entry) e : e ∈ select f acts entries → e ∈ entries.
Proof.
  unfold select. intros ((a & e') & -> & [_ Hin]%list_elem_of_filter)%list_elem_of_fmap.
  by apply elem_of_zip_r in Hin.
Qed.

(** C4: conservation. Whatever the policies answer, whatever the state of the
    buffer and of the caches, and in whatever order the map of traces is
    iterated, every span of the batch is either in the output or in a trace
    that was kept for the buffer, once; a trace is never split; and the skip
    error is returned exactly if no trace is forwarded. *)
Theorem processTraces_conservation td entries now p :
  entries ≡ₚ map_to_list (groupByTrace td) →
  let '(out, err, _, acts) := processTraces now entries p in
  let kept := select (negb ∘ forwarded) acts entries in
  length acts = length entries ∧
  out = mjoin (select forwarded acts entries).*2 ∧
  all_spans td ≡ₚ all_spans out ++ mjoin ((λ e, all_spans e.2) <$> kept) ∧
  (err = Some ErrSkipProcessingData ↔ Forall (λ a, forwarded a = false) acts).
Proof.
  intros He. unfold Processor.processTraces. pose proof (process_loop_out now entries p []) as Hl.
  destruct (process_loop now entries p []) as [[acts p'] out]. destruct Hl as [Hlen ->].
  rewrite app_nil_l. split; [done|]. split; [done|].
  rewrite spans_of. split.
  { rewrite <- (entries_spans td entries He). rewrite (select_split forwarded acts entries Hlen) at 1.
    by rewrite fmap_app, join_app. }
  unfold SpanCount. rewrite spans_of.
  assert (Forall (λ e, all_spans e.2 ≠ []) entries) as Hne.
  { apply Forall_forall. intros [tid t] Hin. apply (entries_group td) in Hin as [_ Ht]%group_entry; [|done].
    by apply one_trace_spans in Ht. }
  clear He p' p. revert acts Hlen. induction Hne as [|e l Hne _ IH]; intros [|a acts] Hlen; simplify_eq/=.
  { split; [constructor|done]. }
  rewrite select_cons, Forall_cons, <- (IH acts) by done. destruct (forwarded a); simpl; [|naive_solver].
  split; [|by intros []].
  match goal with |- context [len (?l1 ++ ?l2) =? 0] =>
    destruct (Z.eqb_spec (len (l1 ++ l2)) 0) as [H0|]; [|by intros] end.
  intros _. exfalso. rewrite length_app in H0. destruct (all_spans e.2); simpl in H0; [done|lia].
Qed.
(** ** What each trace gets *)

Inductive verdict := VForward | VSample | VLocal | VBuffer.
#[global] Instance verdict_eq_dec : EqDecision verdict.
Proof. solve_decision. Defined.

(** The verdict about an entry in the state [p], by the meaning of the policies. *)
Definition trace_verdict (p : processor) (e : entry) : verdict :=
  if buf_HasInterest e.1 (p_buf p) then VForward
  else match (chain_spec e.2 (p_eval p)).1 with
       | Sampled => VSample
       | SampledLocal => VLocal
       | NotSampled | Dropped => VBuffer
       end.

Definition acts_on (coord : bool) (v : verdict) (a : action) : Prop :=
  match v, a with
  | VForward, Forwarded n | VLocal, Forwarded n => n = false
  | VSample, Forwarded n => n = coord
  | VBuffer, Buffered _ | VBuffer, MarshalFailed => True
  | _, _ => False
  end.

Definition decided_by (v : verdict) : bool := match v with VSample | VLocal => true | _ => false end.

Record p_ok (p : processor) : Prop := {
  po_buf : buf_ok (p_buf p);
  po_eval : Forall evaluator_ok (p_eval p);
}.

(** How a state may differ from an earlier one: the traces in [tids] were
    decided in between. *)
Record later (tids : list TraceID) (p p' : processor) : Prop := {
  la_ok : p_ok p';
  la_coord : p_coord p' = p_coord p;
  la_eval : ∀ t, chain_spec t (p_eval p') = chain_spec t (p_eval p);
  la_interest : ∀ tid, buf_HasInterest tid (p_buf p') =
                         bool_decide (tid ∈ tids) || buf_HasInterest tid (p_buf p);
}.

Lemma later_refl p : p_ok p → later [] p p.
Proof. by split. Qed.

Lemma later_trans tids tids' p p' p'' : later tids p p' → later tids' p' p'' → later (tids ++ tids') p p''.
Proof.
  intros [H1 H2 H3 H4] [H1' H2' H3' H4']. split; [done|congruence|intros t; by rewrite H3', H3|].
  intros tid. rewrite H4', H4. repeat case_bool_decide; set_solver.
Qed.

Lemma add_interest_later tid p : p_ok p → later [tid] p (add_interest tid p).
Proof.
  intros [Hb He]. split; simpl; [split; [by apply buf_AddInterest_ok|done]|done|done|].
  intros tid'. case_bool_decide as Ht.
  - apply list_elem_of_singleton in Ht as ->. by apply buf_Has_Add.
  - apply buf_Has_Add_other; [done|set_solver].
Qed.

Lemma notify_later tids tid p p' : later tids p p' → later tids p (notify tid p').
Proof.
  intros [[Hb He] H2 H3 H4]. unfold notify. destruct (p_coord p') eqn:E; split; simpl; try done; try congruence.
Qed.

(** After [Evaluate]. *)
Lemma evaluated_later p t :
  p_ok p → later [] p (MkProcessor (p_buf p) (Chain_Evaluate t (p_eval p)).2 (p_coord p) (p_notified p)).
Proof.
  intros [Hb He]. pose proof (chain_loop_spec t (p_eval p) He) as (_ & H2 & H3).
  split; simpl; [by split|done| |done]. intros t'. unfold chain_spec, Chain_Evaluate. by rewrite H3.
Qed.

Lemma process_trace_spec now tid t p :
  p_ok p →
  let '(a, p') := process_trace now tid t p in
  let v := trace_verdict p (tid, t) in
  acts_on (p_coord p) v a ∧ later (if decided_by v then [tid] else []) p p' ∧
  p_notified p' = p_notified p ++ (if p_coord p && bool_decide (v = VSample) then [tid] else []).
Proof.
  intros Hp. unfold Processor.process_trace, trace_verdict. simpl.
  destruct (buf_HasInterest tid (p_buf p)) eqn:Hi.
  { rewrite bool_decide_eq_false_2, andb_false_r, app_nil_r by done. split; [done|]. split; [by apply later_refl|done]. }
  pose proof (evaluated_later p t Hp) as Hl. pose proof (chain_loop_spec t (p_eval p) (po_eval _ Hp)) as (Hd & _).
  fold (Chain_Evaluate t (p_eval p)) in Hd. rewrite <- Hd. clear Hd.
  destruct (Chain_Evaluate t (p_eval p)) as [[d err] ev]. cbn [fst snd] in *.
  set (p1 := MkProcessor (p_buf p) ev (p_coord p) (p_notified p)) in *.
  assert (later [tid] p (add_interest tid p1)) as Ha
    by (apply (later_trans [] [tid] p p1); [done|apply add_interest_later, Hl]).
  assert (let '(a, p') := buffer_trace MarshalTraces now tid t p1 in
    acts_on (p_coord p) VBuffer a ∧ later [] p p' ∧ p_notified p' = p_notified p ++ []) as Hb.
  { unfold buffer_trace. rewrite app_nil_r. destruct (MarshalTraces t) as [data|]; [|done].
    pose proof (buf_Write_ok tid data now (p_buf p) (po_buf _ Hp)) as Hw.
    pose proof (λ tid', buf_Has_Write tid' tid data now (p_buf p) (po_buf _ Hp)) as Hh.
    change (p_buf p1) with (p_buf p). destruct (buf_Write tid data now (p_buf p)) as [ok buf]. split; [done|].
    split; [|done]. destruct Hl as [[H1 H2] H3 H4 H5]. split; simpl in *; [by split|done|done|].
    intros tid'. by rewrite Hh. }
  destruct d; cbn [decided_by].
  - rewrite bool_decide_eq_false_2, andb_false_r by done. exact Hb.
  - rewrite bool_decide_eq_true_2, andb_true_r by done. split; [done|]. split; [by apply notify_later|].
    unfold notify. simpl. destruct (p_coord p); [done|]. by rewrite app_nil_r.
  - rewrite bool_decide_eq_false_2, andb_false_r, app_nil_r by done. done.
  - rewrite bool_decide_eq_false_2, andb_false_r by done. exact Hb.
Qed.

(** Another trace's verdict does not change. *)
Lemma verdict_later tids p p' e : later tids p p' → e.1 ∉ tids → trace_verdict p' e = trace_verdict p e.
Proof.
  intros Hl Hne. unfold trace_verdict. rewrite (la_interest _ _ _ Hl), (la_eval _ _ _ Hl).
  by rewrite bool_decide_eq_false_2.
Qed.

Definition decided (p : processor) (entries : list entry) : list TraceID :=
  (filter (λ e, decided_by (trace_verdict p e) = true) entries).*1.

Definition told (p : processor) (entries : list entry) : list TraceID :=
  if p_coord p then (filter (λ e, trace_verdict p e = VSample) entries).*1 else [].

Lemma process_loop_spec now l p out :
  NoDup l.*1 → p_ok p →
  let '(acts, p', _) := process_loop now l p out in
  Forall2 (λ e a, acts_on (p_coord p) (trace_verdict p e) a) l acts ∧
  later (decided p l) p p' ∧ p_notified p' = p_notified p ++ told p l.
Proof.
  revert p out. induction l as [|[tid t] l IH]; intros p out Hnd Hp.
  { simpl. split; [by apply List.Forall2_nil|]. split; [by apply later_refl|]. unfold told.
    destruct (p_coord p); by rewrite app_nil_r. }
  simpl in Hnd. apply NoDup_cons in Hnd as [Htid Hnd]. rewrite process_loop_cons.
  pose proof (process_trace_spec now tid t p Hp) as Ht.
  destruct (process_trace now tid t p) as [a p1]. destruct Ht as (Ha & Hl & Hn).
  pose proof (IH p1 (if forwarded a then out ++ t else out) Hnd (la_ok _ _ _ Hl)) as IHl.
  destruct (process_loop now l p1 _) as [[acts p2] out']. destruct IHl as (Hacts & Hl2 & Hn2).
  assert (∀ e, e ∈ l → trace_verdict p1 e = trace_verdict p e) as Hsame.
  { intros e He. eapply verdict_later; [done|]. destruct (decided_by _); [|set_solver].
    rewrite list_elem_of_singleton. intros <-. apply Htid, list_elem_of_fmap. by exists e. }
  rewrite (la_coord _ _ _ Hl) in Hacts. split; [|split].
  - constructor; [done|]. eapply Forall2_impl_l; [|exact Hacts]. intros e a' He. simpl. by rewrite Hsame.
  - unfold decided in *. rewrite filter_cons.
    rewrite (filter_ext_in _ (λ e, decided_by (trace_verdict p e) = true)) in Hl2
      by (intros e He; simpl; by rewrite Hsame).
    pose proof (later_trans _ _ _ _ _ Hl Hl2) as H12. by destruct (decided_by (trace_verdict p (tid, t))).
  - unfold told in *. rewrite Hn2, Hn, <- app_assoc, (la_coord _ _ _ Hl). f_equal.
    destruct (p_coord p); [|done]. rewrite filter_cons.
    rewrite (filter_ext_in _ (λ e, trace_verdict p e = VSample)) by (intros e He; simpl; by rewrite Hsame).
    by repeat case_decide; case_bool_decide.
Qed.
(** C13: every trace of a batch is treated by its own verdict, that of its spans
    and of the state before the batch: it is forwarded if its decision is still
    known or the policies sample it, and goes to the buffer otherwise, also if
    they drop it. The traces that are sampled, and no others, become known to
    the buffer; of these the coordinator is told about those that are not only
    of local interest. The policies mean the same afterwards. *)
Theorem batch_verdicts td entries now p :
  entries ≡ₚ map_to_list (groupByTrace td) → p_ok p →
  let '(_, _, p', acts) := processTraces now entries p in
  Forall2 (λ e a, acts_on (p_coord p) (trace_verdict p e) a) entries acts ∧
  later (decided p entries) p p' ∧ p_notified p' = p_notified p ++ told p entries.
Proof.
  intros He Hp. unfold Processor.processTraces.
  pose proof (process_loop_spec now entries p [] (entries_nodup _ _ He) Hp) as Hl.
  by destruct (process_loop now entries p []) as [[acts p'] out].
Qed.

(** *** The order of iteration *)

Definition goes_out (v : verdict) : bool := match v with VBuffer => false | _ => true end.

Lemma acts_on_forwarded c v a : acts_on c v a → forwarded a = goes_out v.
Proof. by destruct v, a. Qed.

Lemma select_verdicts p acts (entries : list entry) :
  Forall2 (λ e a, acts_on (p_coord p) (trace_verdict p e) a) entries acts →
  select forwarded acts entries = filter (λ e, goes_out (trace_verdict p e) = true) entries.
Proof.
  induction 1 as [|e a l acts Ha _ IH]; [done|]. rewrite select_cons, filter_cons, IH.
  rewrite (acts_on_forwarded _ _ _ Ha). by destruct (goes_out _).
Qed.

(** What one call does, by the verdicts. *)
Lemma processTraces_spec entries now p :
  NoDup entries.*1 → p_ok p →
  let '(out, err, p', _) := processTraces now entries p in
  out = mjoin (filter (λ e, goes_out (trace_verdict p e) = true) entries).*2 ∧
  err = (if SpanCount out =? 0 then Some ErrSkipProcessingData else None) ∧
  later (decided p entries) p p' ∧ p_notified p' = p_notified p ++ told p entries.
Proof.
  intros Hnd Hp. unfold Processor.processTraces.
  pose proof (process_loop_spec now entries p [] Hnd Hp) as Hl.
  pose proof (process_loop_out now entries p []) as Ho.
  destruct (process_loop now entries p []) as [[acts p'] out]. destruct Hl as (Ha & Hl & Hn).
  destruct Ho as [_ ->]. split; [by rewrite (select_verdicts p)|done].
Qed.

Lemma spans_perm (l k : Traces) : l ≡ₚ k → all_spans l ≡ₚ all_spans k.
Proof. unfold all_spans. by intros ->. Qed.

(** ** Several calls *)

(** The calls of the pipeline and of the coordinator's client. *)
Inductive call :=
| CBatch (now : Time) (entries : list entry)
| CDecision (tid : TraceID).

Definition do_call (p : processor) (c : call) : processor :=
  match c with
  | CBatch now entries => let '(_, _, p', _) := processTraces now entries p in p'
  | CDecision tid => onDecision tid p
  end.

Definition call_ok (c : call) : Prop :=
  match c with CBatch _ entries => ∃ td, entries ≡ₚ map_to_list (groupByTrace td) | CDecision _ => True end.

Definition call_decides (p : processor) (c : call) : list TraceID :=
  match c with CBatch _ entries => decided p entries | CDecision tid => [tid] end.

Lemma do_call_later p c : p_ok p → call_ok c → later (call_decides p c) p (do_call p c).
Proof.
  intros Hp Hc. destruct c as [now entries|tid]; simpl; [|by apply add_interest_later].
  destruct Hc as [td He]. pose proof (processTraces_spec entries now p (entries_nodup _ _ He) Hp) as Hs.
  destruct (processTraces now entries p) as [[[out err] q] acts]. apply Hs.
Qed.

Lemma do_calls_later p cs : p_ok p → Forall call_ok cs → ∃ tids, later tids p (foldl do_call p cs).
Proof.
  intros Hp Hcs. revert p Hp. induction Hcs as [|c cs Hc _ IH]; intros p Hp.
  { exists []. by apply later_refl. }
  pose proof (do_call_later p c Hp Hc) as Hl. destruct (IH (do_call p c) (la_ok _ _ _ Hl)) as [tids Hl'].
  eexists. by eapply later_trans.
Qed.

(** Once a trace is decided, by a policy here or by the coordinator, its
    later spans are forwarded whatever batches and decisions came in between,
    without evaluating a policy, telling the coordinator again or touching the
    buffer. The laws of the buffer are those of one moment; [decision_lasts] of
    the system says how long its answer lasts. *)
Theorem decided_trace_forwarded before c after tid t now p :
  p_ok p → Forall call_ok (before ++ c :: after) →
  tid ∈ call_decides (foldl do_call p before) c →
  let p' := foldl do_call p (before ++ c :: after) in
  process_trace now tid t p' = (Forwarded false, p').
Proof.
  intros Hp [Hb [Hc Ha]%Forall_cons]%Forall_app Htid. rewrite foldl_app. simpl.
  destruct (do_calls_later p before Hp Hb) as [t1 H1]. pose proof (do_call_later _ c (la_ok _ _ _ H1) Hc) as H2.
  destruct (do_calls_later _ after (la_ok _ _ _ H2) Ha) as [t3 H3].
  unfold Processor.process_trace. rewrite (la_interest _ _ _ H3), (la_interest _ _ _ H2).
  rewrite (bool_decide_eq_true_2 (tid ∈ call_decides _ c)) by done. by rewrite orb_true_r.
Qed.
End props.

(** ** The order of iteration, and the span buffer *)
Section order.
Context `{L : Libs} {HL : LibsOk L} {cfg : BufCfg} {Hok : BufCfgOk cfg}.
Hypothesis H2 : 2 * decisionWait <= max_i64.
Variable MarshalTraces : Traces → option bytes.

Abbreviation entry := (TraceID * Traces)%type.
#[local] Instance laws : BufferLaws SpanBuffer := span_buffer_laws H2.

(** A record [Write] refuses whatever is in the queue. *)
Definition too_large (r : writeReq) : bool :=
  (pageSize <? recSize r) && (maxBytes <? numChunks (len (data r)) * pageSize).

(** The queue's free slots, and what is taken of the records written one after
    the other. *)
Definition room (b : SpanBuffer) : nat := Z.to_nat (pageCount - len (b_writeCh b)).
Definition taken (b : SpanBuffer) (ws : list writeReq) : list writeReq :=
  take (room b) (filter (λ r, too_large r = false) ws).

(** The records the processor writes, for the entries that are buffered. *)
Definition attempt (now : Time) (e : entry) : list writeReq :=
  match MarshalTraces e.2 with Some d => [WriteReq e.1 d now] | None => [] end.
Definition attempts (now : Time) (p : processor) (entries : list entry) : list writeReq :=
  mjoin (attempt now <$> filter (λ e, trace_verdict p e = VBuffer) entries).

(** The buffer after the traces [tids] were decided and [ws] written. *)
Definition buffer_then (tids : list TraceID) (ws : list writeReq) (b : SpanBuffer) : SpanBuffer :=
  set_writeCh (b_writeCh b ++ taken b ws) (set_accepted (b_accepted b ++ taken b ws)
    (set_interest (foldl (λ s tid, Interest.AddInterest decisionWait tid (b_now b) s) (b_interest b) tids)
      (set_wakeup (match tids with [] => b_wakeup b | _ => true end) b))).

Lemma buffer_then_nil b : buffer_then [] [] b = b.
Proof.
  unfold buffer_then, taken. rewrite filter_nil, take_nil, !app_nil_r. by destruct b.
Qed.

Lemma buffer_then_decided tid tids ws b :
  buffer_then tids ws (buf_AddInterest tid b) = buffer_then (tid :: tids) ws b.
Proof. destruct b. unfold buffer_then. simpl. by destruct tids. Qed.

Lemma taken_cons r b ws :
  taken b (r :: ws) =
    if (Write r b).1 then r :: taken (Write r b).2 ws else taken b ws.
Proof.
  unfold taken, Write. fold (too_large r). rewrite filter_cons. destruct (too_large r); [done|].
  rewrite decide_True by done. unfold room. destruct (Z.ltb_spec (len (b_writeCh b)) pageCount) as [Hr|Hr]; simpl.
  - rewrite length_app. simpl. replace (Z.to_nat (pageCount - len (b_writeCh b)))
      with (S (Z.to_nat (pageCount - Z.of_nat (length (b_writeCh b) + 1)))) by lia. done.
  - by replace (Z.to_nat (pageCount - len (b_writeCh b))) with 0%nat by lia.
Qed.

Lemma buffer_then_write tids r ws b :
  buffer_then tids ws (Write r b).2 = buffer_then tids (r :: ws) b.
Proof.
  pose proof (taken_cons r b ws) as Ht. unfold Write in *. fold (too_large r) in *.
  destruct (too_large r); simpl in *; [unfold buffer_then; by rewrite Ht|].
  destruct (len (b_writeCh b) <? pageCount); simpl in *; [|unfold buffer_then; by rewrite Ht].
  unfold buffer_then. rewrite Ht. simpl. rewrite <- !app_assoc. by destruct b.
Qed.

Lemma buffer_then_writes tids rs ws b :
  buffer_then tids ws (foldl (λ b r, (Write r b).2) b rs) = buffer_then tids (rs ++ ws) b.
Proof.
  revert b. induction rs as [|r rs IH]; intros b; [done|]. cbn [foldl app]. by rewrite IH, buffer_then_write.
Qed.

(** What one entry does to the buffer. *)
Lemma process_trace_buffer now tid t p :
  p_ok p →
  p_buf (process_trace MarshalTraces now tid t p).2 =
    match trace_verdict p (tid, t) with
    | VForward => p_buf p
    | VSample | VLocal => buf_AddInterest tid (p_buf p)
    | VBuffer => foldl (λ b r, (Write r b).2) (p_buf p) (attempt now (tid, t))
    end.
Proof.
  intros Hp. unfold process_trace, trace_verdict. cbn [fst snd].
  destruct (buf_HasInterest tid (p_buf p)); [done|].
  pose proof (chain_loop_spec t (p_eval p) (po_eval _ Hp)) as (Hd & _).
  fold (Chain_Evaluate t (p_eval p)) in Hd. rewrite <- Hd. clear Hd.
  destruct (Chain_Evaluate t (p_eval p)) as [[d err] ev]. cbn [fst snd].
  assert (∀ a p', buffer_trace MarshalTraces now tid t (MkProcessor (p_buf p) ev (p_coord p) (p_notified p)) = (a, p') →
    p_buf p' = foldl (λ b r, (Write r b).2) (p_buf p) (attempt now (tid, t))) as Hb.
  { unfold buffer_trace, attempt. cbn [fst snd]. intros a p' E. destruct (MarshalTraces t) as [d'|]; [|by simplify_eq].
    simpl in *. destruct (Write _ _) as [ok b]. by simplify_eq. }
  destruct d; try (unfold notify; simpl; by destruct (p_coord p)).
  - destruct (buffer_trace _ _ _ _ _) as [a p'] eqn:E. by apply (Hb a).
  - destruct (buffer_trace _ _ _ _ _) as [a p'] eqn:E. by apply (Hb a).
Qed.

(** What the whole loop does to it. *)
Lemma process_loop_buffer now l p out :
  NoDup l.*1 → p_ok p →
  p_buf (process_loop MarshalTraces now l p out).1.2 = buffer_then (decided p l) (attempts now p l) (p_buf p).
Proof.
  revert p out. induction l as [|[tid t] l IH]; intros p out Hnd Hp; [symmetry; apply buffer_then_nil|].
  simpl in Hnd. apply NoDup_cons in Hnd as [Htid Hnd]. rewrite process_loop_cons.
  pose proof (process_trace_spec MarshalTraces now tid t p Hp) as Ht.
  pose proof (process_trace_buffer now tid t p Hp) as Hbuf.
  destruct (process_trace MarshalTraces now tid t p) as [a p1]. destruct Ht as (_ & Hl & _). simpl in Hbuf.
  specialize (IH p1 (if forwarded a then out ++ t else out) Hnd (la_ok _ _ _ Hl)).
  destruct (process_loop MarshalTraces now l p1 _) as [[acts p2] out']. simpl in *. rewrite IH.
  assert (∀ e, e ∈ l → trace_verdict p1 e = trace_verdict p e) as Hsame.
  { intros e He. eapply verdict_later; [done|]. destruct (decided_by _); [|set_solver].
    rewrite list_elem_of_singleton. intros <-. apply Htid, list_elem_of_fmap. by exists e. }
  unfold decided, attempts. rewrite !filter_cons, Hbuf.
  rewrite (filter_ext_in _ (λ e, decided_by (trace_verdict p e) = true)) by (intros e He; simpl; by rewrite Hsame).
  rewrite (filter_ext_in (λ e, trace_verdict p1 e = VBuffer) (λ e, trace_verdict p e = VBuffer))
    by (intros e He; simpl; by rewrite Hsame).
  destruct (trace_verdict p (tid, t)); simpl; try done; try apply buffer_then_decided.
  apply buffer_then_writes.
Qed.

(** Decisions at one moment commute: the last is at that moment, the others
    are still there. *)
Lemma foldl_spec_add now tids m tid :
  foldl (λ m tid, Interest.spec_add decisionWait tid now m) m tids !! tid =
    if decide (tids = []) then m !! tid
    else if decide (tid ∈ tids) then Some now else Interest.spec_prune decisionWait now m !! tid.
Proof.
  assert (live_at decisionWait now now) as Hnow.
  { unfold live_at, time_sub. pose proof cfg_wait. rewrite i64_small by (unfold is_i64, min_i64; lia).
    unfold min_i64, max_i64 in *. lia. }
  assert (∀ m tid tid', Interest.spec_prune decisionWait now (Interest.spec_add decisionWait tid now m) !! tid' =
    Interest.spec_add decisionWait tid now m !! tid') as Hpr.
  { intros m' t t'. unfold Interest.spec_add, Interest.spec_prune. rewrite map_lookup_filter.
    destruct (decide (t' = t)) as [->|Hne].
    - rewrite lookup_insert_eq. simpl. by rewrite option_guard_True.
    - rewrite lookup_insert_ne by done. rewrite map_lookup_filter.
      destruct (m' !! t') as [x|]; [|done]. simpl. by case_guard; simpl; [rewrite option_guard_True|]. }
  revert m. induction tids as [|t tids IH]; intros m; [done|]. cbn [foldl]. rewrite IH. clear IH.
  rewrite (decide_False (P := t :: tids = [])) by done.
  destruct (decide (tids = [])) as [->|Hne].
  - unfold Interest.spec_add. destruct (decide (tid = t)) as [->|Hne].
    + rewrite lookup_insert_eq, decide_True by set_solver. done.
    + rewrite lookup_insert_ne, decide_False by set_solver. done.
  - rewrite Hpr. unfold Interest.spec_add.
    destruct (decide (tid ∈ tids)); [by rewrite decide_True by set_solver|].
    destruct (decide (tid = t)) as [->|Hnt].
    + rewrite lookup_insert_eq, decide_True by set_solver. done.
    + rewrite lookup_insert_ne, decide_False by set_solver. done.
Qed.

Lemma foldl_AddInterest now tids s :
  wf s → before_now now s →
  Interest.abs (foldl (λ s tid, Interest.AddInterest decisionWait tid now s) s tids) =
  foldl (λ m tid, Interest.spec_add decisionWait tid now m) (Interest.abs s) tids.
Proof.
  revert s. induction tids as [|t tids IH]; intros s Hwf Hb; [done|]. simpl.
  rewrite IH, AddInterest_abs by first [done|apply AddInterest_wf; done|apply AddInterest_before; done]. done.
Qed.

Lemma interest_order now tids tids' s :
  wf s → before_now now s → tids ≡ₚ tids' →
  Interest.abs (foldl (λ s tid, Interest.AddInterest decisionWait tid now s) s tids) =
  Interest.abs (foldl (λ s tid, Interest.AddInterest decisionWait tid now s) s tids').
Proof.
  intros Hwf Hb Hp. rewrite !foldl_AddInterest by done. apply map_eq. intros tid. rewrite !foldl_spec_add.
  assert (tids = [] ↔ tids' = []) as Hnil.
  { split; intros ->; [by apply Permutation_nil_r|by apply Permutation_nil_r]. }
  rewrite (decide_ext (tids = []) (tids' = [])) by done.
  by rewrite (decide_ext (tid ∈ tids) (tid ∈ tids')) by (by rewrite Hp).
Qed.

(** C25: what the iteration order of Go's maps, which is random, decides and
    what it does not. Any two orders give outputs with the same resources, the
    same error, policies that mean the same, a buffer that knows the same traces
    from the same moments and a coordinator that was told about the same traces.
    The same records are written to the buffer, in the order of the iteration;
    the queue takes those that fit the file while it has room, so as many of them
    with any order, and the same ones if it has room for all. If it has not, the
    order decides which are refused. Nothing else of the buffer differs. *)
Theorem iteration_order td entries entries' now p :
  entries ≡ₚ map_to_list (groupByTrace td) → entries' ≡ₚ map_to_list (groupByTrace td) → p_ok p →
  let '(out, err, q, _) := processTraces MarshalTraces now entries p in
  let '(out', err', q', _) := processTraces MarshalTraces now entries' p in
  let b := p_buf q in
  let b' := p_buf q' in
  let ws := attempts now p entries in
  let ws' := attempts now p entries' in
  out ≡ₚ out' ∧ err = err' ∧ p_notified q ≡ₚ p_notified q' ∧
  (∀ t, chain_spec t (p_eval q) = chain_spec t (p_eval q')) ∧
  Interest.abs (b_interest b) = Interest.abs (b_interest b') ∧
  ws ≡ₚ ws' ∧
  b_writeCh b = b_writeCh (p_buf p) ++ taken (p_buf p) ws ∧
  b_writeCh b' = b_writeCh (p_buf p) ++ taken (p_buf p) ws' ∧
  length (b_writeCh b) = length (b_writeCh b') ∧
  ((length ws <= room (p_buf p))%nat → b_writeCh b ≡ₚ b_writeCh b' ∧ b_accepted b ≡ₚ b_accepted b') ∧
  b' = set_writeCh (b_writeCh b') (set_accepted (b_accepted b') (set_interest (b_interest b') b)).
Proof.
  intros He He' Hp. pose proof (entries_nodup _ _ He) as Hnd. pose proof (entries_nodup _ _ He') as Hnd'.
  pose proof (processTraces_spec MarshalTraces entries now p Hnd Hp) as H1.
  pose proof (processTraces_spec MarshalTraces entries' now p Hnd' Hp) as H1'.
  pose proof (process_loop_buffer now entries p [] Hnd Hp) as Hb.
  pose proof (process_loop_buffer now entries' p [] Hnd' Hp) as Hb'.
  unfold processTraces in *.
  destruct (process_loop MarshalTraces now entries p []) as [[acts q] out].
  destruct (process_loop MarshalTraces now entries' p []) as [[acts' q'] out'].
  destruct H1 as (Eo & _ & Hl & Hn). destruct H1' as (Eo' & _ & Hl' & Hn'). simpl in Hb, Hb'.
  assert (entries ≡ₚ entries') as Hee by (by rewrite He, He').
  assert (out ≡ₚ out') as Hout by (by rewrite Eo, Eo', Hee).
  assert (attempts now p entries ≡ₚ attempts now p entries') as Hws by (unfold attempts; by rewrite Hee).
  assert (decided p entries ≡ₚ decided p entries') as Hdec by (unfold decided; by rewrite Hee).
  destruct (po_buf _ Hp) as [Hctl _]. destruct (ctl_interest _ Hctl) as [Hwf Hbn].
  cbv zeta. rewrite Hb, Hb'. split; [done|]. split; [unfold SpanCount; by rewrite (spans_perm _ _ Hout)|].
  split; [rewrite Hn, Hn'; unfold told; by destruct (p_coord p); rewrite ?Hee|].
  split; [intros t; by rewrite (la_eval _ _ _ Hl), (la_eval _ _ _ Hl')|].
  split; [by apply interest_order|]. split; [done|]. split; [done|]. split; [done|].
  assert (filter (λ r, too_large r = false) (attempts now p entries) ≡ₚ
    filter (λ r, too_large r = false) (attempts now p entries')) as Hf by (by rewrite Hws).
  split; [|split].
  - simpl. unfold taken. rewrite !length_app, !length_take. by rewrite Hf.
  - intros Hroom.
    assert (∀ k, (length k <= room (p_buf p))%nat → taken (p_buf p) k = filter (λ r, too_large r = false) k) as Htk.
    { intros k Hk. unfold taken. apply take_ge. etransitivity; [apply length_filter|done]. }
    simpl. rewrite (Htk (attempts now p entries)), (Htk (attempts now p entries')) by (by rewrite <- ?Hws).
    by rewrite Hf.
  - unfold buffer_then. simpl.
    apply Permutation_length in Hdec.
    by destruct (decided p entries), (decided p entries').
Qed.
End order.

(** ** Instances: the span buffer, with the demonstration's configuration *)

Definition demo_chain : Chain (L := EvalDemo.libs) := [statusCodeFilter [2]; numericAttributeFilter "size"%string (Some 200) None].

Definition demo_processor : processor (L := EvalDemo.libs) (B := SpanBuffer) :=
  MkProcessor Demo.start demo_chain true [].

Lemma demo_window : 2 * decisionWait (BufCfg := Demo.cfg) <= max_i64.
Proof. vm_compute. discriminate. Qed.

Definition demo_laws : BufferLaws SpanBuffer := span_buffer_laws (cfg := Demo.cfg) demo_window.

Lemma demo_processor_ok : p_ok (BufferLaws0 := demo_laws) demo_processor.
Proof.
  split; [|repeat constructor]. split; [|done].
  apply reachable_ctl, reach_init, Demo.start_file.
Qed.

Lemma processTraces_conservation_witness :
  demo_entries ≡ₚ map_to_list (groupByTrace EvalDemo.batch) ∧
  let '(out, err, _, acts) := processTraces EvalDemo.marshal 7 demo_entries demo_processor in
  let kept := select (negb ∘ forwarded) acts demo_entries in
  length acts = 2%nat ∧ out = mjoin (select forwarded acts demo_entries).*2 ∧
  all_spans EvalDemo.batch ≡ₚ all_spans out ++ mjoin ((λ e, all_spans e.2) <$> kept) ∧
  (err = Some ErrSkipProcessingData ↔ Forall (λ a, forwarded a = false) acts).
Proof.
  split; [exact demo_entries_ok|].
  exact (processTraces_conservation EvalDemo.marshal EvalDemo.batch demo_entries 7 demo_processor demo_entries_ok).
Defined.

(** The trace with the error is sampled, the other one buffered. *)
Lemma batch_verdicts_witness :
  (processTraces EvalDemo.marshal 7 demo_entries demo_processor).2 = [Buffered true; Forwarded true] ∧
  let '(_, _, p', acts) := processTraces EvalDemo.marshal 7 demo_entries demo_processor in
  Forall2 (λ e a, acts_on true (trace_verdict demo_processor e) a) demo_entries acts ∧
  later (BufferLaws0 := demo_laws) (decided demo_processor demo_entries) demo_processor p' ∧
  p_notified p' = p_notified demo_processor ++ told demo_processor demo_entries.
Proof.
  split; [reflexivity|].
  exact (batch_verdicts (BufferLaws0 := demo_laws) EvalDemo.marshal EvalDemo.batch demo_entries 7 demo_processor
    demo_entries_ok demo_processor_ok).
Defined.

Lemma iteration_order_witness :
  let '(out, err, q, _) := processTraces EvalDemo.marshal 7 demo_entries demo_processor in
  let '(out', err', q', _) := processTraces EvalDemo.marshal 7 (rev demo_entries) demo_processor in
  out ≡ₚ out' ∧ err = err' ∧ length (b_writeCh (p_buf q)) = 1%nat ∧ b_writeCh (p_buf q) ≡ₚ b_writeCh (p_buf q') ∧
  Interest.abs (b_interest (p_buf q)) = Interest.abs (b_interest (p_buf q')).
Proof.
  assert (rev demo_entries ≡ₚ map_to_list (groupByTrace EvalDemo.batch)) as Hr
    by (rewrite <- demo_entries_ok; apply Permutation_swap).
  pose proof (iteration_order (cfg := Demo.cfg) demo_window EvalDemo.marshal EvalDemo.batch
    demo_entries (rev demo_entries) 7 demo_processor demo_entries_ok Hr demo_processor_ok) as H.
  assert (length (b_writeCh (p_buf (processTraces EvalDemo.marshal 7 demo_entries demo_processor).1.2)) = 1%nat) as H1
    by (vm_compute; reflexivity).
  assert ((length (attempts EvalDemo.marshal 7 demo_processor demo_entries)
    <= room (p_buf demo_processor))%nat) as Hroom by (apply Nat.leb_le; vm_compute; reflexivity).
  destruct (processTraces EvalDemo.marshal 7 demo_entries demo_processor) as [[[out err] q] acts].
  destruct (processTraces EvalDemo.marshal 7 (rev demo_entries) demo_processor) as [[[out' err'] q'] acts'].
  destruct H as (Ho & Hee & _ & _ & Hi & _ & _ & _ & _ & Hw & _). simpl in H1.
  destruct (Hw Hroom) as [Hq _]. exact (conj Ho (conj Hee (conj H1 (conj Hq Hi)))).
Defined.

Lemma decided_trace_forwarded_witness :
  let p' := foldl (do_call EvalDemo.marshal) demo_processor [CBatch 7 demo_entries; CDecision EvalDemo.tid_b] in
  process_trace EvalDemo.marshal 8 EvalDemo.tid_a EvalDemo.part_b p' = (Forwarded false, p').
Proof.
  assert (Forall call_ok ([] ++ CBatch 7 demo_entries :: [CDecision EvalDemo.tid_b])) as Hcs.
  { repeat constructor. exists EvalDemo.batch. exact demo_entries_ok. }
  assert (EvalDemo.tid_a ∈ call_decides demo_processor (CBatch 7 demo_entries)) as Hin.
  { change (EvalDemo.tid_a ∈ [EvalDemo.tid_a]). by constructor. }
  exact (decided_trace_forwarded (BufferLaws0 := demo_laws) EvalDemo.marshal [] (CBatch 7 demo_entries)
    [CDecision EvalDemo.tid_b] EvalDemo.tid_a EvalDemo.part_b 8 demo_processor demo_processor_ok Hcs Hin).
Defined.
