(* ===== verification/System.v ===== *)
(** * The processor and its buffer together

    Concurrent calls of [processTraces], decisions from the coordinator, the
    buffer's goroutines and clock, and the failures of the file that the buffer
    gets over ([permitted] of BufferFaults.v), interleaved. A call takes a
    transition for each access to what it shares with the others: the look at the
    interest set, the evaluation of the policies, the insertion into the interest
    set, the send on [wakeup], the notification and the write. SystemProps.v has
    the theorems; [uninterrupted] relates this to [processTraces] of Processor.v. *)

From S2P Require Import Prelude Bytes Format Interest InterestProps Writer Sweeper SpanBuffer BufferInv BufferSpec BufferLive BufferFaults.
From S2P Require Import PData Evaluator EvalProps Split Processor.

Section system.
Context {cfg : BufCfg} {Hok : BufCfgOk cfg} {F : FileFaults} `{L : Libs}.
Variable MarshalTraces : Traces → option bytes.

Abbreviation entry := (TraceID * Traces)%type.
Abbreviation proc := (processor (B := SpanBuffer)).

(** ** A call of processTraces *)

(** Where it is in the body of the loop, and with which entry of the map. *)
Inductive call_pc :=
| CLoop                                (* the head of the loop: HasInterest is next *)
| CEval (e : entry)                    (* Evaluate *)
| CAdd (local : bool) (e : entry)      (* AddInterest, up to the unlock *)
| CWake (local : bool) (e : entry)     (* its send on wakeup *)
| CNotify (e : entry)                  (* coord.Notify *)
| CWrite (e : entry) (data : bytes).   (* Write *)

(** [c_todo] is what the loop has not come to, [c_out] the variable [out]. *)
Record call := MkCall { c_now : Time; c_todo : list entry; c_out : Traces; c_pc : call_pc }.

(** What becomes of an entry that is not forwarded: the buffer took it, or not. *)
Abbreviation outcome := (option (bool * entry)).

Definition with_pbuf (b : SpanBuffer) (p : proc) : proc :=
  MkProcessor b (p_eval p) (p_coord p) (p_notified p).

(** The next transition of a call, [None] if it is to return. *)
Definition call_step (c : call) (p : proc) : option (call * proc * outcome) :=
  let go out pc := MkCall (c_now c) (c_todo c) out pc in
  match c_pc c with
  | CLoop =>
      match c_todo c with
      | [] => None
      | e :: todo =>
          if buf_HasInterest e.1 (p_buf p) then Some (MkCall (c_now c) todo (c_out c ++ e.2) CLoop, p, None)
          else Some (MkCall (c_now c) todo (c_out c) (CEval e), p, None)
      end
  | CEval e =>
      let '((d, _), eval) := Chain_Evaluate e.2 (p_eval p) in
      let p := MkProcessor (p_buf p) eval (p_coord p) (p_notified p) in
      match d with
      | Sampled => Some (go (c_out c ++ e.2) (CAdd false e), p, None)
      | SampledLocal => Some (go (c_out c ++ e.2) (CAdd true e), p, None)
      | NotSampled | Dropped =>
          match MarshalTraces e.2 with
          | None => Some (go (c_out c) CLoop, p, Some (false, e))
          | Some data => Some (go (c_out c) (CWrite e data), p, None)
          end
      end
  | CAdd local e =>
      b ← exec (LAddInterest e.1) (p_buf p); Some (go (c_out c) (CWake local e), with_pbuf b p, None)
  | CWake local e =>
      b ← exec LWakeSend (p_buf p); Some (go (c_out c) (if local then CLoop else CNotify e), with_pbuf b p, None)
  | CNotify e => Some (go (c_out c) CLoop, notify e.1 p, None)
  | CWrite e data =>
      let '(ok, b) := buf_Write e.1 data (c_now c) (p_buf p) in
      Some (go (c_out c) CLoop, with_pbuf b p, Some (ok, e))
  end.

(** ** The system *)

(** [y_received], [y_forwarded], [y_buffered] and [y_refused] are histories: the
    batches, the outputs of the calls that have returned, the traces [Write]
    accepted and those that could not be marshalled or written. *)
Record system := MkSystem {
  y_proc : proc;
  y_calls : list call;
  y_received : list Traces;
  y_forwarded : Traces;
  y_buffered : list entry;
  y_refused : list entry;
}.

Definition y_buf (y : system) : SpanBuffer := p_buf (y_proc y).

Definition with_buf (b : SpanBuffer) (y : system) : system :=
  MkSystem (with_pbuf b (y_proc y))
    (y_calls y) (y_received y) (y_forwarded y) (y_buffered y) (y_refused y).

Definition record_outcome (o : outcome) (p : proc) (calls : list call) (y : system) : system :=
  MkSystem p calls (y_received y) (y_forwarded y)
    (y_buffered y ++ match o with Some (true, e) => [e] | _ => [] end)
    (y_refused y ++ match o with Some (false, e) => [e] | _ => [] end).

Definition wakes (c : call) : bool := match c_pc c with CWake _ _ => true | _ => false end.

(** The buffer's transitions that are not those of a call; the sends on [wakeup]
    that are left to it are those of decisions. [Shutdown] closes the buffer when
    no call is under way. *)
Definition buffer_label (calls : list call) (b : SpanBuffer) (l : label) : Prop :=
  match l with
  | LWrite _ | LAddInterest _ => False
  | LWakeSend => (length (filter (λ c, wakes c = true) calls) < b_wakes b)%nat
  | LClose => calls = []
  | _ => True
  end.

#[export] Instance buffer_label_dec calls b l : base.Decision (buffer_label calls b l).
Proof. destruct l; simpl; apply _. Defined.

Inductive sys_step : system → system → Prop :=
| sys_start y :   (* Start *)
    sys_step y (MkSystem (MkProcessor (y_buf y) (p_eval (y_proc y)) true (p_notified (y_proc y)))
                  (y_calls y) (y_received y) (y_forwarded y) (y_buffered y) (y_refused y))
| sys_begin td entries y :
    b_closed (y_buf y) = false → entries ≡ₚ map_to_list (groupByTrace td) →
    sys_step y (MkSystem (y_proc y) (MkCall (b_now (y_buf y)) entries [] CLoop :: y_calls y)
                  (y_received y ++ [td]) (y_forwarded y) (y_buffered y) (y_refused y))
| sys_call cs c cs' c' p o y :
    y_calls y = cs ++ c :: cs' → call_step c (y_proc y) = Some (c', p, o) →
    sys_step y (record_outcome o p (cs ++ c' :: cs') y)
| sys_return cs now out cs' y :
    y_calls y = cs ++ MkCall now [] out CLoop :: cs' →
    sys_step y (MkSystem (y_proc y) (cs ++ cs') (y_received y) (y_forwarded y ++ out) (y_buffered y) (y_refused y))
| sys_decision tid b y :   (* onDecision, up to its send on wakeup *)
    exec (LAddInterest tid) (y_buf y) = Some b → sys_step y (with_buf b y)
| sys_buffer l b y :
    buffer_label (y_calls y) (y_buf y) l → exec l (y_buf y) = Some b → sys_step y (with_buf b y)
| sys_fault l b y :   (* the file fails *)
    permitted l (y_buf y) = true → io_exec l (y_buf y) = Some b → sys_step y (with_buf b y).

Definition init_system (file : bytes) (now : Time) (chain : Chain) : system :=
  MkSystem (MkProcessor (init_buffer file now) chain false []) [] [] [] [] [].

Inductive sys_reachable : system → Prop :=
| sys_init file now chain : len file = maxBytes → sys_reachable (init_system file now chain)
| sys_next y y' : sys_reachable y → sys_step y y' → sys_reachable y'.

Lemma sys_rtc_reachable y y' : sys_reachable y → rtc sys_step y y' → sys_reachable y'.
Proof. intros Hy. induction 1 as [|y y1 y' Hst _ IH]; [done|]. apply IH. by eapply sys_next. Qed.

(** ** An executable scheduler *)

Inductive sys_label :=
| YStart
| YBegin (td : Traces) (entries : list entry)
| YCall (i : nat) | YReturn (i : nat)   (* the [i]-th call under way *)
| YDecision (tid : TraceID)
| YBuffer (l : label)
| YFault (l : io_label).

(** [sys_step] as a function of a label; that the entries of a call are those of
    its batch is checked by [label_ok]. *)
Definition sys_exec (l : sys_label) (y : system) : option system :=
  match l with
  | YStart =>
      Some (MkSystem (MkProcessor (y_buf y) (p_eval (y_proc y)) true (p_notified (y_proc y)))
              (y_calls y) (y_received y) (y_forwarded y) (y_buffered y) (y_refused y))
  | YBegin td entries =>
      if b_closed (y_buf y) then None
      else Some (MkSystem (y_proc y) (MkCall (b_now (y_buf y)) entries [] CLoop :: y_calls y)
                  (y_received y ++ [td]) (y_forwarded y) (y_buffered y) (y_refused y))
  | YCall i =>
      c ← y_calls y !! i;
      '(c', p, o) ← call_step c (y_proc y);
      Some (record_outcome o p (take i (y_calls y) ++ c' :: drop (S i) (y_calls y)) y)
  | YReturn i =>
      match y_calls y !! i with
      | Some (MkCall _ [] out CLoop) =>
          Some (MkSystem (y_proc y) (take i (y_calls y) ++ drop (S i) (y_calls y))
                  (y_received y) (y_forwarded y ++ out) (y_buffered y) (y_refused y))
      | _ => None
      end
  | YDecision tid => b ← exec (LAddInterest tid) (y_buf y); Some (with_buf b y)
  | YBuffer l =>
      if decide (buffer_label (y_calls y) (y_buf y) l) then b ← exec l (y_buf y); Some (with_buf b y) else None
  | YFault l => if permitted l (y_buf y) then b ← io_exec l (y_buf y); Some (with_buf b y) else None
  end.

Definition label_ok (l : sys_label) : Prop :=
  match l with YBegin td entries => entries ≡ₚ map_to_list (groupByTrace td) | _ => True end.

Lemma sys_exec_step l y y' : label_ok l → sys_exec l y = Some y' → sys_step y y'.
Proof.
  intros Hl He. destruct l as [|td entries|i|i|tid|l|l]; cbn [sys_exec] in He.
  - simplify_eq. apply sys_start.
  - destruct (b_closed (y_buf y)) eqn:Hc; simplify_eq. by apply sys_begin.
  - destruct (y_calls y !! i) as [c|] eqn:Hi; [|done]. cbn [mbind option_bind] in He.
    destruct (call_step c (y_proc y)) as [[[c' p] o]|] eqn:Hc; [|done]. simplify_eq/=.
    eapply sys_call; [|exact Hc]. symmetry. by apply take_drop_middle.
  - destruct (y_calls y !! i) as [[now [|] out []]|] eqn:Hi; simplify_eq. apply (sys_return _ now).
    symmetry. by apply take_drop_middle.
  - simplify_eq/=. by apply (sys_decision tid).
  - case_decide; [|done]. destruct (exec l (y_buf y)) as [b|] eqn:Hb; [|done]. simplify_eq/=. by eapply sys_buffer.
  - destruct (permitted l (y_buf y)) eqn:Hp; [|done]. destruct (io_exec l (y_buf y)) as [b|] eqn:Hb; [|done].
    simplify_eq/=. by eapply sys_fault.
Qed.

Fixpoint sys_run (ls : list sys_label) (y : system) : option system :=
  match ls with [] => Some y | l :: ls => y' ← sys_exec l y; sys_run ls y' end.

Lemma sys_run_steps ls y y' : Forall label_ok ls → sys_run ls y = Some y' → rtc sys_step y y'.
Proof.
  intros Hls. revert y. induction Hls as [|l ls Hl _ IH]; intros y Hr; simpl in Hr; [simplify_eq; apply rtc_refl|].
  destruct (sys_exec l y) as [y1|] eqn:He; [|done]. eapply rtc_l; [by eapply sys_exec_step|]. by apply IH.
Qed.

Lemma sys_run_app l1 l2 y : sys_run (l1 ++ l2) y = (y' ← sys_run l1 y; sys_run l2 y').
Proof. revert y. induction l1 as [|l l1 IH]; intros y; [done|]. simpl. destruct (sys_exec l y); simpl; [apply IH|done]. Qed.

(** ** One transition of a call, for the buffer *)

Lemma call_step_run c p c' p' o :
  b_closed (p_buf p) = false → call_step c p = Some (c', p', o) →
  (∃ ls, run ls (p_buf p) = Some (p_buf p')) ∧ b_closed (p_buf p') = false ∧ c_now c' = c_now c ∧
  b_accepted (p_buf p') = b_accepted (p_buf p) ++
    match o, c_pc c with Some (true, e), CWrite _ d => [WriteReq e.1 d (c_now c)] | _, _ => [] end.
Proof.
  intros Hc Hs. unfold call_step in Hs.
  assert (∀ p0 : proc, p_buf p0 = p_buf p → (∃ ls, run ls (p_buf p) = Some (p_buf p0)) ∧ b_closed (p_buf p0) = false)
    as Hsame by (intros p0 ->; split; [by exists []|done]).
  assert (∀ l b, exec l (p_buf p) = Some b → b_closed b = false →
    (∃ ls, run ls (p_buf p) = Some (p_buf (with_pbuf b p))) ∧ b_closed (p_buf (with_pbuf b p)) = false) as Hone
    by (intros l b Hb Hcl; split; [exists [l]; simpl; by rewrite Hb|done]).
  assert (∀ P Q R S : Prop, P ∧ Q → R → S → P ∧ Q ∧ R ∧ S) as Hand by tauto.
  destruct (c_pc c) as [|e|local e|local e|e|e d] eqn:Hpc.
  - destruct (c_todo c) as [|e l]; [done|]. destruct (buf_HasInterest e.1 (p_buf p)); simplify_eq;
      apply Hand; auto; by rewrite app_nil_r.
  - destruct (Chain_Evaluate e.2 (p_eval p)) as [[d err] ev].
    destruct d; repeat case_match; simplify_eq; (apply Hand; [by apply Hsame|done|]); by rewrite app_nil_r.
  - simplify_eq/=. apply Hand; [exact (Hone (LAddInterest e.1) _ eq_refl Hc)|done|by rewrite app_nil_r].
  - destruct (exec LWakeSend (p_buf p)) as [b|] eqn:Hb; [|done]. cbn [mbind option_bind] in Hs. simplify_eq.
    assert (b_closed b = false ∧ b_accepted b = b_accepted (p_buf p)) as [? Ea]
      by (cbn [exec] in Hb; repeat case_match; by simplify_eq/=).
    apply Hand; [by apply (Hone LWakeSend)|done|by rewrite app_nil_r].
  - simplify_eq. unfold notify. destruct (p_coord p); (apply Hand; [by apply Hsame|done|by rewrite app_nil_r]).
  - destruct (buf_Write e.1 d (c_now c) (p_buf p)) as [ok b] eqn:Hw. simplify_eq.
    pose proof (buf_Write_exec e.1 d (c_now c) _ Hc) as Hx. rewrite Hw in Hx.
    destruct (write_interest (WriteReq e.1 d (c_now c)) (p_buf p)) as (_ & _ & Ec).
    change (Write (WriteReq e.1 d (c_now c)) (p_buf p)) with (buf_Write e.1 d (c_now c) (p_buf p)) in Ec. rewrite Hw in Ec.
    apply Hand; [by apply (Hone _ _ Hx); rewrite Ec|done|]. simpl in Hw. unfold Write in Hw.
    destruct ok; repeat case_match; simplify_eq/=; by rewrite ?app_nil_r.
Qed.

(** ** The invariant *)

(** The entries a call still has, the one it is about included unless it is in
    [c_out]. *)
Definition c_entries (c : call) : list entry :=
  match c_pc c with CEval e | CWrite e _ => e :: c_todo c | _ => c_todo c end.

Definition todo (y : system) : list entry := mjoin (c_entries <$> y_calls y).

(** The outputs of the calls under way. *)
Definition outs (y : system) : Traces := mjoin (c_out <$> y_calls y).

Definition espans (l : list entry) : list Span := mjoin ((λ e, all_spans e.2) <$> l).

(** The request written for an entry. *)
Definition written (e : entry) (r : writeReq) : Prop :=
  traceID r = e.1 ∧ MarshalTraces e.2 = Some (data r).

Definition call_ok (c : call) : Prop :=
  match c_pc c with CWrite e d => MarshalTraces e.2 = Some d | _ => True end.

Record sys_inv (y : system) : Prop := {
  si_buf : io_reachable (y_buf y);
  si_open : y_calls y ≠ [] → b_closed (y_buf y) = false;
  si_calls : Forall call_ok (y_calls y);
  si_wakes : (length (filter (λ c, wakes c = true) (y_calls y)) <= b_wakes (y_buf y))%nat;
  si_spans : mjoin (all_spans <$> y_received y) ≡ₚ
    all_spans (y_forwarded y) ++ all_spans (outs y) ++ espans (todo y) ++ espans (y_buffered y) ++ espans (y_refused y);
  si_from : ∀ e, e ∈ todo y ++ y_buffered y → ∃ td, td ∈ y_received y ∧ groupByTrace td !! e.1 = Some e.2;
  si_written : Forall2 written (y_buffered y) (b_accepted (y_buf y));
}.

Lemma espans_app l k : espans (l ++ k) = espans l ++ espans k.
Proof. unfold espans. by rewrite fmap_app, join_app. Qed.

Lemma espans_one e : espans [e] = all_spans e.2.
Proof. unfold espans. simpl. by rewrite app_nil_r. Qed.

Lemma espans_cons e l : espans (e :: l) = all_spans e.2 ++ espans l.
Proof. done. Qed.

Lemma join_calls {A} (f : call → list A) cs c cs' :
  mjoin (f <$> cs ++ c :: cs') = mjoin (f <$> cs) ++ f c ++ mjoin (f <$> cs').
Proof. by rewrite fmap_app, join_app. Qed.

Lemma outs_calls cs c cs' :
  mjoin (c_out <$> cs ++ c :: cs') = mjoin (c_out <$> cs) ++ c_out c ++ mjoin (c_out <$> cs').
Proof. exact (join_calls (A := ResourceSpans) c_out cs c cs'). Qed.

Lemma outs_app cs cs' : mjoin (c_out <$> cs ++ cs') = mjoin (c_out <$> cs) ++ mjoin (c_out <$> cs').
Proof. rewrite fmap_app. exact (join_app (A := ResourceSpans) (c_out <$> cs) (c_out <$> cs')). Qed.

(** What a transition does to the spans and the entries of its call. *)
Lemma call_step_entries c p c' p' o :
  call_step c p = Some (c', p', o) → call_ok c →
  call_ok c' ∧
  all_spans (c_out c) ++ espans (c_entries c) ≡ₚ
    all_spans (c_out c') ++ espans (c_entries c') ++ match o with Some (_, e) => all_spans e.2 | None => [] end ∧
  (∀ e, e ∈ c_entries c' → e ∈ c_entries c) ∧
  match o with
  | Some (true, e) => ∃ d, c_pc c = CWrite e d ∧ MarshalTraces e.2 = Some d ∧ e ∈ c_entries c
  | _ => True
  end.
Proof.
  intros Hs Hm. unfold call_step in Hs. unfold call_ok in Hm. destruct c as [now l out pc]. cbn [c_pc c_todo c_out c_now] in *.
  destruct pc as [|e|local e|local e|e|e d].
  - destruct l as [|e l]; [done|]. destruct (buf_HasInterest e.1 (p_buf p)); simplify_eq; unfold c_entries; simpl;
      (split; [done|]; split; [|by split; [set_solver|]]); rewrite ?espans_cons, ?all_spans_app; solve_Permutation.
  - destruct (Chain_Evaluate e.2 (p_eval p)) as [[d err] ev].
    destruct d; repeat case_match; simplify_eq; unfold c_entries; simpl;
      (split; [done|]; split; [|by split; [set_solver|]]); rewrite ?espans_cons, ?all_spans_app; solve_Permutation.
  - simplify_eq/=. split; [done|]. split; [by rewrite app_nil_r|]. by split.
  - destruct (exec LWakeSend (p_buf p)); simplify_eq/=. split; [by destruct local|].
    split; [destruct local; by rewrite app_nil_r|]. split; [by destruct local|done].
  - simplify_eq/=. split; [done|]. split; [by rewrite app_nil_r|]. by split.
  - destruct (buf_Write e.1 d now (p_buf p)) as [ok b]. simplify_eq. unfold c_entries; simpl. split; [done|].
    rewrite espans_cons. split; [solve_Permutation|]. split; [set_solver|]. destruct ok; [|done]. exists d. set_solver.
Qed.

Lemma call_step_wakes c p c' p' o :
  call_step c p = Some (c', p', o) →
  (b_wakes (p_buf p') + (if wakes c then 1 else 0) = b_wakes (p_buf p) + if wakes c' then 1 else 0)%nat.
Proof.
  intros Hs. unfold call_step in Hs. unfold wakes. destruct (c_pc c) as [|e|local e|local e|e|e d].
  - destruct (c_todo c); [done|]. destruct (buf_HasInterest _ _); by simplify_eq.
  - destruct (Chain_Evaluate e.2 (p_eval p)) as [[[] err] ev]; repeat case_match; by simplify_eq/=.
  - simplify_eq/=. lia.
  - cbn [exec] in Hs. destruct (b_wakes (p_buf p)) as [|n] eqn:Hw; [done|]. simplify_eq/=. destruct local; simpl; lia.
  - simplify_eq. unfold notify. by destruct (p_coord p).
  - simpl in Hs. destruct (Write (WriteReq e.1 d (c_now c)) (p_buf p)) as [ok b] eqn:Hw. simplify_eq. simpl.
    unfold Write in Hw. repeat case_match; by simplify_eq/=.
Qed.

Lemma wakes_app cs c cs' :
  length (filter (λ c, wakes c = true) (cs ++ c :: cs')) =
    (length (filter (λ c, wakes c = true) (cs ++ cs')) + if wakes c then 1 else 0)%nat.
Proof. rewrite !filter_app, !length_app, filter_cons. destruct (wakes c); simpl; lia. Qed.

Lemma sweep_wakes b b' : sweep b = Some b' → b_wakes b' = b_wakes b.
Proof. unfold sweep, sweep_back. intros He. repeat (case_match; simplify_eq/=; try done). Qed.

(** A step of the buffer that no client takes part in. *)
Lemma buffer_label_accepted calls l b b' :
  buffer_label calls b l → exec l b = Some b' →
  b_accepted b' = b_accepted b ∧ (calls ≠ [] → b_closed b' = b_closed b) ∧
  (length (filter (λ c, wakes c = true) calls) <= b_wakes b → length (filter (λ c, wakes c = true) calls) <= b_wakes b')%nat.
Proof.
  intros Hl He.
  assert (b_wakes b' = b_wakes b ∨ l = LWakeSend ∧ b_wakes b = S (b_wakes b')) as Hw.
  { destruct l; try done; cbn [exec] in He; try (left; repeat (case_match; try done); by simplify_eq/=).
    - right. destruct (b_wakes b) eqn:E; [done|]. simplify_eq/=. auto.
    - left. by apply sweep_wakes in He. }
  assert ((length (filter (λ c, wakes c = true) calls) <= b_wakes b → length (filter (λ c, wakes c = true) calls) <= b_wakes b')%nat)
    as Hle by (destruct Hw as [->|[-> Hw]]; [done|]; simpl in Hl; lia).
  destruct (decide_internal l) as [Hi|Hi].
  - destruct (internal_frame _ _ _ Hi He) as (Ea & _ & _ & Ec). by split.
  - destruct l; try done; try (by exfalso; apply Hi); cbn [exec] in He; repeat case_match; simplify_eq/=; by split.
Qed.

Lemma sys_inv_call cs c cs' c' p o y :
  y_calls y = cs ++ c :: cs' → call_step c (y_proc y) = Some (c', p, o) →
  sys_inv y → sys_inv (record_outcome o p (cs ++ c' :: cs') y).
Proof.
  intros Hcs Hst [Hb Ho Hc Hwk Hs Hf Hw]. assert (b_closed (y_buf y) = false) as Hcl by (apply Ho; rewrite Hcs; by destruct cs).
  rewrite Hcs in Hc. apply Forall_app in Hc as [Hc1 [Hc0 Hc2]%Forall_cons].
  destruct (call_step_run _ _ _ _ _ Hcl Hst) as ([ls Hls] & Hcl' & _ & Hacc).
  destruct (call_step_entries _ _ _ _ _ Hst Hc0) as (Hc0' & Hsp & Hsub & Hout).
  pose proof (call_step_wakes _ _ _ _ _ Hst) as Hk.
  unfold todo, outs in *. rewrite Hcs in Hs, Hf, Hwk. rewrite join_calls in Hf. rewrite wakes_app in Hwk.
  rewrite outs_calls, join_calls, !all_spans_app, !espans_app in Hs.
  assert (∀ e, e ∈ c_entries c → ∃ td, td ∈ y_received y ∧ groupByTrace td !! e.1 = Some e.2) as Hfc
    by (intros e He; apply Hf; set_solver).
  split; simpl.
  - exact (io_steps_reachable _ _ (run_io_steps _ _ _ Hls) Hb).
  - done.
  - apply Forall_app. by split; [|constructor].
  - rewrite wakes_app. unfold y_buf in *. simpl. lia.
  - unfold todo, outs. simpl. rewrite outs_calls, join_calls, !all_spans_app, !espans_app, Hs.
    destruct o as [[[] e]|]; rewrite ?espans_one; revert Hsp;
      generalize (all_spans (c_out c)) (espans (c_entries c)) (all_spans (c_out c')) (espans (c_entries c'));
      intros l1 l2 l3 l4 Hsp; change (espans []) with (@nil Span); rewrite ?app_nil_r in *;
      (transitivity ((l1 ++ l2) ++ all_spans (y_forwarded y) ++ all_spans (mjoin (c_out <$> cs)) ++ all_spans (mjoin (c_out <$> cs')) ++
        espans (mjoin (c_entries <$> cs)) ++ espans (mjoin (c_entries <$> cs')) ++ espans (y_buffered y) ++ espans (y_refused y));
       [solve_Permutation|rewrite Hsp; solve_Permutation]).
  - unfold todo. simpl. rewrite join_calls. intros e He. destruct o as [[[] e0]|]; apply Hf; set_solver.
  - unfold y_buf in *. simpl. rewrite Hacc. destruct o as [[[] e]|]; rewrite ?app_nil_r; try done.
    destruct Hout as (d & -> & Hm & _). apply Forall2_app; [done|]. by repeat constructor.
Qed.

Lemma sys_inv_step y y' : sys_step y y' → sys_inv y → sys_inv y'.
Proof.
  intros Hst Hi.
  destruct Hst as [y|td entries y Hop He|cs c cs' c' p o y Hcs Hc|cs now out cs' y Hcs|tid b y Hb|l b y Hl He|l b y Hl He];
    [by destruct Hi| |by eapply sys_inv_call| | | |]; destruct Hi as [Hb' Ho Hc Hwk Hs Hf Hw].
  - split; unfold y_buf, todo, outs in *; simpl; try done.
    + by constructor.
    + rewrite fmap_app, join_app, Hs. simpl. rewrite app_nil_r, espans_app.
      rewrite <- (entries_spans td entries He). fold (espans entries). unfold c_entries at 1; simpl. solve_Permutation.
    + intros e. rewrite <- app_assoc, elem_of_app. intros [Hin|Hin].
      * exists td. split; [set_solver|]. apply (entries_group td entries); [done|]. by destruct e.
      * destruct (Hf e Hin) as (td' & ? & ?). exists td'. set_solver.
  - rewrite Hcs in Hc, Hwk. rewrite wakes_app in Hwk. apply Forall_app in Hc as [Hc1 [_ Hc2]%Forall_cons].
    unfold todo, outs in *. rewrite Hcs, join_calls in Hf. rewrite Hcs, outs_calls, join_calls in Hs.
    assert (y_calls y ≠ []) as Hne by (rewrite Hcs; by destruct cs).
    split; simpl; try done.
    + intros _. by apply Ho.
    + by apply Forall_app.
    + unfold y_buf in *. simpl. lia.
    + unfold todo, outs. simpl. rewrite outs_app, fmap_app, join_app, !espans_app. rewrite !all_spans_app, !espans_app in *. rewrite Hs.
      unfold c_entries at 2; simpl. solve_Permutation.
    + unfold todo. simpl. rewrite fmap_app, join_app. intros e He. apply Hf. set_solver.
  - split; try done; unfold y_buf in *; simpl.
    + eapply io_next; [done|]. left. by exists (LAddInterest tid).
    + intros Hne. apply Ho in Hne. simplify_eq/=. done.
    + simplify_eq/=. lia.
    + simplify_eq/=. done.
  - destruct (buffer_label_accepted _ _ _ _ Hl He) as (Ea & Ec & Ewk). split; try done; unfold y_buf in *; simpl.
    + eapply io_next; [done|]. left. by exists l.
    + intros Hne. rewrite Ec by done. by apply Ho.
    + by apply Ewk.
    + by rewrite Ea.
  - destruct (permitted_front _ _ _ Hl He). split; try done; unfold y_buf in *; simpl.
    + eapply io_next; [done|]. right. by exists l.
    + intros Hne. rewrite sf_closed. by apply Ho.
    + by rewrite sf_wakes.
    + by rewrite sf_accepted.
Qed.

Lemma sys_reachable_inv y : sys_reachable y → sys_inv y.
Proof.
  induction 1 as [file now chain Hf|y y' _ IH Hst]; [|by eapply sys_inv_step].
  split; simpl; first [done|by apply io_init|by apply List.Forall2_nil|by apply Forall_nil|intros e; set_solver].
Qed.

(** ** How long a decision lasts *)

Lemma sys_step_buf y y' : sys_inv y → sys_step y y' → rtc io_step (y_buf y) (y_buf y').
Proof.
  intros Hi Hst.
  destruct Hst as [y|td entries y Hop He|cs c cs' c' p o y Hcs Hc|cs now out cs' y Hcs|tid b y Hb|l b y Hl He|l b y Hl He];
    try apply rtc_refl.
  - assert (b_closed (y_buf y) = false) as Hcl by (apply (si_open _ Hi); rewrite Hcs; by destruct cs).
    destruct (call_step_run _ _ _ _ _ Hcl Hc) as ([ls Hls] & _). by eapply run_io_steps.
  - apply rtc_once. left. by exists (LAddInterest tid).
  - apply rtc_once. left. by exists l.
  - apply rtc_once. right. by exists l.
Qed.

Lemma sys_rtc_buf y y' : sys_inv y → rtc sys_step y y' → rtc io_step (y_buf y) (y_buf y').
Proof.
  intros Hi Hst. induction Hst as [y|y y1 y' Hst _ IH]; [apply rtc_refl|].
  etransitivity; [by apply sys_step_buf|]. apply IH. by eapply sys_inv_step.
Qed.

(** The buffer knows a decision about the trace made at [t0] or later. *)
Definition knows (tid : TraceID) (t0 : Time) (b : SpanBuffer) : Prop :=
  ∃ t, Interest.abs (b_interest b) !! tid = Some t ∧ t0 <= t.

Lemma interest_frame l b b' :
  exec l b = Some b' → b_interest b' = b_interest b ∨ ∃ tid, l = LAddInterest tid.
Proof.
  intros He. destruct (decide_internal l) as [Hi|Hi]; [left; by apply (internal_frame _ _ _ Hi He)|].
  destruct l as [req|tid| | | | | | | | | | | | | | | |]; try (by exfalso; apply Hi); [|right; by eexists|..]; left;
    cbn [exec] in He; repeat case_match; simplify_eq/=; try done.
  by destruct (write_interest req b) as (-> & _).
Qed.

Lemma knows_step tid t0 b b' :
  2 * decisionWait <= max_i64 → io_step b b' → ctl b → t0 <= b_now b → b_now b - t0 < decisionWait →
  knows tid t0 b → knows tid t0 b'.
Proof.
  intros H2 [[l He]|(l & Hl & He)] Hctl Hle Hlt (t & Ht & Hge); pose proof cfg_wait;
    [|exists t; by rewrite (sf_interest _ _ (permitted_front _ _ _ Hl He))].
  destruct (interest_frame l b b' He) as [Ei|[tid' ->]]; [exists t; by rewrite Ei|].
  cbn [exec] in He. simplify_eq. destruct (ctl_interest _ Hctl) as [Hwf _]. unfold knows. simpl.
  rewrite AddInterest_abs by done. unfold spec_add, spec_prune. rewrite lookup_insert, map_lookup_filter, Ht.
  case_decide as Hd; [by eexists|]. simpl. rewrite option_guard_True; [by eexists|].
  simpl. unfold live_at. rewrite i64_small by (unfold is_i64, min_i64, max_i64 in *; lia).
  apply time_sub_lt; unfold is_i64, min_i64, max_i64 in *; lia.
Qed.

Lemma io_step_now b b' : io_step b b' → b_now b <= b_now b'.
Proof. intros [Hst|(l & Hl & He)]; [by apply now_mono|]. by rewrite (sf_now _ _ (permitted_front _ _ _ Hl He)). Qed.

Lemma io_steps_now b b' : rtc io_step b b' → b_now b <= b_now b'.
Proof. induction 1 as [|b b1 b' Hst%io_step_now _ IH]; lia. Qed.

Lemma knows_steps tid t0 b b' :
  2 * decisionWait <= max_i64 → rtc io_step b b' → ctl b → t0 <= b_now b → b_now b' - t0 < decisionWait →
  knows tid t0 b → knows tid t0 b'.
Proof.
  intros H2 Hr. induction Hr as [|b b1 b' Hst Hr IH]; [done|]. intros Hctl Hle Hlt Hk.
  pose proof (io_step_now _ _ Hst). pose proof (io_steps_now _ _ Hr).
  apply IH; [by eapply io_step_ctl|lia|lia|]. eapply knows_step; try done. lia.
Qed.

Lemma knows_has tid t0 b : ctl b → knows tid t0 b → b_now b - t0 < decisionWait → buf_HasInterest tid b = true.
Proof.
  intros Hctl (u & Hu & Hge) Hlt. pose proof cfg_wait. simpl. rewrite HasInterest_abs, Hu. apply Z.ltb_lt.
  apply time_sub_lt; unfold is_i64, min_i64, max_i64 in *; lia.
Qed.
End system.
