(* ===== verification/SystemProps.v ===== *)
(** * The processor and its buffer together: what is proved

    Over the reachable states of System.v: the spans of the batches are followed
    from the call to the next consumer; a decision lasts; every call returns; a
    call that is left alone does what [processTraces] of Processor.v does; and
    what [newProcessor] makes. *)

From S2P Require Import Prelude Bytes Format Interest InterestProps Writer Sweeper SpanBuffer BufferInv BufferSpec BufferLive BufferFaults.
From S2P Require Import PData Evaluator EvalDemo EvalProps Registry RegistryProps Split Processor ProcessorProps Demo PageProps System.
From Stdlib Require Import Floats.SpecFloat.

Section props.
Context {cfg : BufCfg} {Hok : BufCfgOk cfg} {F : FileFaults} `{L : Libs}.
Variable MarshalTraces : Traces → option bytes.

Abbreviation entry := (TraceID * Traces)%type.
Abbreviation call_step := (call_step MarshalTraces).
Abbreviation sys_step := (sys_step MarshalTraces).
Abbreviation sys_reachable := (sys_reachable MarshalTraces).
Abbreviation sys_run := (sys_run MarshalTraces).
Abbreviation sys_inv := (sys_inv MarshalTraces).

(** ** A call that is not interrupted *)

(** The transitions of a call by itself, with what becomes of its entries. *)
Fixpoint call_run (n : nat) (c : call) (p : processor) : call * processor * list (bool * entry) :=
  match n with
  | O => (c, p, [])
  | S n =>
      match call_step c p with
      | None => (c, p, [])
      | Some (c, p, o) => let '(c, p, os) := call_run n c p in (c, p, option_list o ++ os)
      end
  end.

(** The same of the actions of [processTraces]. *)
Definition action_outcome (a : action) (e : entry) : option (bool * entry) :=
  match a with Forwarded _ => None | Buffered ok => Some (ok, e) | MarshalFailed => Some (false, e) end.

Fixpoint outcomes (acts : list action) (entries : list entry) : list (bool * entry) :=
  match acts, entries with
  | a :: acts, e :: entries => option_list (action_outcome a e) ++ outcomes acts entries
  | _, _ => []
  end.

Lemma call_run_step n c p c' p' o :
  call_step c p = Some (c', p', o) →
  call_run (S n) c p = (let '(c, p, os) := call_run n c' p' in (c, p, option_list o ++ os)).
Proof. intros Hs. cbn [call_run]. by rewrite Hs. Qed.

Lemma call_run_quiet n c p c' p' :
  call_step c p = Some (c', p', None) → call_run (S n) c p = call_run n c' p'.
Proof. intros Hs. rewrite (call_run_step _ _ _ _ _ _ Hs). by destruct (call_run n c' p') as [[]]. Qed.

Lemma call_run_app m n c p c' p' os :
  call_run m c p = (c', p', os) →
  call_run (m + n) c p = (let '(c, p, os') := call_run n c' p' in (c, p, os ++ os')).
Proof.
  revert c p os. induction m as [|m IH]; intros c p os Hr; cbn [call_run Nat.add] in *.
  { simplify_eq. by destruct (call_run n c' p') as [[]]. }
  destruct (call_step c p) as [[[c1 p1] o]|] eqn:Hs.
  - destruct (call_run m c1 p1) as [[c2 p2] os2] eqn:Hr1. simplify_eq. rewrite (IH _ _ _ Hr1).
    destruct (call_run n c' p') as [[]]. by rewrite app_assoc.
  - simplify_eq. destruct n; cbn [call_run]; by rewrite ?Hs.
Qed.

Lemma run_check n now e l out p :
  call_run (S n) (MkCall now (e :: l) out CLoop) p =
    if buf_HasInterest e.1 (p_buf p) then call_run n (MkCall now l (out ++ e.2) CLoop) p
    else call_run n (MkCall now l out (CEval e)) p.
Proof.
  destruct (buf_HasInterest e.1 (p_buf p)) eqn:Hh; apply call_run_quiet; unfold System.call_step; cbn [c_pc c_todo]; by rewrite Hh.
Qed.

Lemma run_eval n now e l out p d err ev :
  Chain_Evaluate e.2 (p_eval p) = ((d, err), ev) →
  let p1 := MkProcessor (p_buf p) ev (p_coord p) (p_notified p) in
  call_run (S n) (MkCall now l out (CEval e)) p =
    match d with
    | Sampled => call_run n (MkCall now l (out ++ e.2) (CAdd false e)) p1
    | SampledLocal => call_run n (MkCall now l (out ++ e.2) (CAdd true e)) p1
    | NotSampled | Dropped =>
        match MarshalTraces e.2 with
        | Some data => call_run n (MkCall now l out (CWrite e data)) p1
        | None => let '(c, p, os) := call_run n (MkCall now l out CLoop) p1 in (c, p, (false, e) :: os)
        end
    end.
Proof.
  intros He p1. cbn [call_run]. unfold System.call_step at 1. cbn [c_pc]. rewrite He.
  destruct d, (MarshalTraces e.2); simpl; by destruct (call_run n _ _) as [[]].
Qed.

Lemma run_add n now e l out local p :
  call_run (S (S n)) (MkCall now l out (CAdd local e)) p =
    call_run n (MkCall now l out (if local then CLoop else CNotify e)) (add_interest e.1 p).
Proof.
  destruct p as [[] pe pco pno]. cbn [call_run]. unfold System.call_step. cbn.
  by destruct (call_run n _ _) as [[]].
Qed.

(** One entry takes five transitions at most. *)
Lemma trace_uninterrupted now e l out p :
  let '(a, p') := process_trace MarshalTraces now e.1 e.2 p in
  ∃ n, (n <= 5)%nat ∧
    call_run n (MkCall now (e :: l) out CLoop) p =
      (MkCall now l (if forwarded a then out ++ e.2 else out) CLoop, p', option_list (action_outcome a e)).
Proof.
  unfold process_trace, buffer_trace. destruct (buf_HasInterest e.1 (p_buf p)) eqn:Hh.
  { exists 1%nat. split; [lia|]. by rewrite run_check, Hh. }
  destruct (Chain_Evaluate e.2 (p_eval p)) as [[d err] ev] eqn:He.
  pose proof (λ n out, run_eval n now e l out p d err ev He) as Hev. cbv zeta in Hev.
  destruct d; cbn [p_buf p_eval p_coord p_notified].
  2: { exists 5%nat. split; [lia|]. by rewrite run_check, Hh, Hev, run_add. }
  2: { exists 4%nat. split; [lia|]. by rewrite run_check, Hh, Hev, run_add. }
  all: destruct (MarshalTraces e.2) as [data|]; [|exists 2%nat; split; [lia|]; by rewrite run_check, Hh, Hev].
  all: destruct (buf_Write e.1 data now (p_buf p)) as [ok b] eqn:Hw; exists 3%nat; (split; [lia|]).
  all: rewrite run_check, Hh, Hev; cbn [call_run]; unfold System.call_step; cbn [c_pc c_now p_buf]; by rewrite Hw.
Qed.

Lemma call_run_done n now out p : call_run n (MkCall now [] out CLoop) p = (MkCall now [] out CLoop, p, []).
Proof. by destruct n. Qed.

(** The two models of [processTraces] agree: a call of System.v that nothing
    interrupts is the function of Processor.v. From the same state,
    the transitions of a call, taken one after the other, end with the output, the
    state and the treatment of every trace that [processTraces] gives; five for
    each trace are enough. *)
Theorem uninterrupted now entries p n :
  (5 * length entries <= n)%nat →
  let '(out, _, p', acts) := processTraces MarshalTraces now entries p in
  call_run n (MkCall now entries [] CLoop) p = (MkCall now [] out CLoop, p', outcomes acts entries).
Proof.
  intros Hn. unfold processTraces.
  assert (∀ out, let '(acts, p', out') := process_loop MarshalTraces now entries p out in
    call_run n (MkCall now entries out CLoop) p = (MkCall now [] out' CLoop, p', outcomes acts entries)) as Hloop.
  { revert p n Hn. induction entries as [|[tid t] l IH]; intros p n Hn out; [apply call_run_done|].
    rewrite process_loop_cons. pose proof (trace_uninterrupted now (tid, t) l out p) as Ht. cbn [fst snd] in Ht.
    destruct (process_trace MarshalTraces now tid t p) as [a p1]. destruct Ht as (m & Hm & Hr). cbn [length] in Hn.
    specialize (IH p1 (n - m)%nat ltac:(lia) (if forwarded a then out ++ t else out)).
    destruct (process_loop MarshalTraces now l p1 _) as [[acts p2] out2].
    replace n with (m + (n - m))%nat by lia. rewrite (call_run_app _ _ _ _ _ _ _ Hr), IH. done. }
  specialize (Hloop []). by destruct (process_loop MarshalTraces now entries p []) as [[acts p'] out].
Qed.

(** ** Every call returns *)

Definition call_measure (c : call) : nat :=
  5 * length (c_todo c) +
  match c_pc c with CLoop => 0 | CEval _ => 4 | CAdd _ _ => 3 | CWake _ _ => 2 | CNotify _ => 1 | CWrite _ _ => 1 end.

Lemma call_step_measure c p c' p' o : call_step c p = Some (c', p', o) → (call_measure c' < call_measure c)%nat.
Proof.
  unfold System.call_step, call_measure. intros Hs. destruct c as [now l out pc]. cbn [c_pc c_todo c_now c_out] in *.
  destruct pc as [|e|local e|local e|e|e d].
  - destruct l as [|e l]; [done|]. destruct (buf_HasInterest e.1 (p_buf p)); simplify_eq/=; lia.
  - destruct (Chain_Evaluate e.2 (p_eval p)) as [[[] err] ev]; repeat case_match; simplify_eq/=; lia.
  - simplify_eq/=. lia.
  - destruct (exec LWakeSend (p_buf p)); simplify_eq/=. destruct local; lia.
  - simplify_eq/=. lia.
  - destruct (buf_Write e.1 d now (p_buf p)). simplify_eq/=. lia.
Qed.

(** A call in a system that can be reached is never stuck. *)
Lemma call_progress y i c :
  sys_inv y → y_calls y !! i = Some c → is_Some (call_step c (y_proc y)) ∨ ∃ now out, c = MkCall now [] out CLoop.
Proof.
  intros Hi Hc. unfold System.call_step. destruct c as [now l out pc]. cbn [c_pc c_todo c_now c_out].
  destruct pc as [|e|local e|local e|e|e d].
  - destruct l as [|e l]; [right; eauto|left]. destruct (buf_HasInterest e.1 (p_buf (y_proc y))); eauto.
  - left. destruct (Chain_Evaluate e.2 (p_eval (y_proc y))) as [[[] err] ev]; repeat case_match; eauto.
  - left. simpl. eauto.
  - left. pose proof (si_wakes _ _ Hi) as Hw. rewrite <- (take_drop_middle _ _ _ Hc), wakes_app in Hw. simpl in Hw.
    unfold y_buf in Hw. cbn [exec]. destruct (b_wakes (p_buf (y_proc y))) as [|n]; [lia|]. simpl. eauto.
  - left. eauto.
  - left. destruct (buf_Write e.1 d now (p_buf (y_proc y))). eauto.
Qed.

(** C24: every call returns. Whatever state the processor is in, a call under way
    needs at most five transitions for each trace it has left, none of which
    waits for another call, for the buffer's goroutines or for the coordinator. *)
Theorem call_returns y i c :
  sys_reachable y → y_calls y !! i = Some c →
  ∃ n y', (n <= call_measure c)%nat ∧ sys_run (replicate n (YCall i) ++ [YReturn i]) y = Some y' ∧
    y_calls y' = delete i (y_calls y).
Proof.
  intros Hy. remember (call_measure c) as m eqn:Hm. revert y c Hy Hm.
  induction (lt_wf m) as [m _ IH]. intros y c Hy Hm Hc. pose proof (sys_reachable_inv _ _ Hy) as Hi.
  pose proof (lookup_lt_Some _ _ _ Hc) as Hlt.
  destruct (call_progress y i c Hi Hc) as [[[[c' p] o] Hst]|(now & out & ->)].
  - set (y1 := record_outcome o p (take i (y_calls y) ++ c' :: drop (S i) (y_calls y)) y).
    assert (sys_exec MarshalTraces (YCall i) y = Some y1) as He
      by (cbn [sys_exec]; rewrite Hc; cbn [mbind option_bind]; by rewrite Hst).
    assert (sys_reachable y1) as Hy1 by (eapply sys_next; [done|by eapply (sys_exec_step _ (YCall i))]).
    assert (length (take i (y_calls y)) = i) as Hlen by (rewrite length_take; lia).
    destruct (IH (call_measure c')) with (y := y1) (c := c') as (n & y' & Hn & Hrun & Hcs);
      [subst m; by eapply call_step_measure|done|done| |].
    { unfold y1. simpl. rewrite lookup_app_r, Hlen, Nat.sub_diag by lia. done. }
    exists (S n), y'. pose proof (call_step_measure _ _ _ _ _ Hst). split; [lia|]. split.
    { cbn [replicate app System.sys_run]. by rewrite He. }
    rewrite Hcs, (delete_take_drop (y_calls y)). unfold y1. cbn [y_calls record_outcome].
    transitivity (delete (length (take i (y_calls y))) (take i (y_calls y) ++ c' :: drop (S i) (y_calls y)));
      [by rewrite Hlen|apply delete_middle].
  - exists 0%nat. eexists. split; [lia|]. cbn [replicate app System.sys_run sys_exec]. rewrite Hc. split; [done|].
    simpl. by rewrite delete_take_drop.
Qed.

(** C10: a decision lasts. For [decisionWait] after the buffer was told about a
    trace, by whatever path, every call that comes to spans of the trace forwards
    them at once, without evaluating a policy, whatever the other calls, the
    coordinator and the buffer's goroutines do in the meantime. *)
Theorem decision_lasts y y' tid b now t todo out :
  2 * decisionWait <= max_i64 → sys_reachable y → io_reachable b → exec (LAddInterest tid) b = Some (y_buf y) →
  rtc sys_step y y' → b_now (y_buf y') - b_now (y_buf y) < decisionWait →
  call_step (MkCall now ((tid, t) :: todo) out CLoop) (y_proc y') = Some (MkCall now todo (out ++ t) CLoop, y_proc y', None) ∧
  process_trace MarshalTraces now tid t (y_proc y') = (Forwarded false, y_proc y').
Proof.
  intros H2 Hy Hctl%io_reachable_ctl Hb Hst Hlt. pose proof (sys_reachable_inv _ y Hy) as Hi.
  pose proof (sys_rtc_buf _ y y' Hi Hst) as Hrun.
  assert (knows tid (b_now (y_buf y)) (y_buf y)) as Hk.
  { injection Hb as <-. exists (b_now b). simpl. destruct (ctl_interest _ Hctl) as [Hwf _].
    rewrite AddInterest_abs by done. unfold spec_add. by rewrite lookup_insert_eq. }
  pose proof (io_reachable_ctl _ (si_buf _ _ Hi)) as Hc.
  pose proof (knows_steps _ _ _ _ H2 Hrun Hc (Z.le_refl _) Hlt Hk) as Hk'.
  assert (buf_HasInterest tid (p_buf (y_proc y')) = true) as Hhas by (apply (knows_has _ _ _ (io_steps_ctl _ _ Hrun Hc) Hk' Hlt)).
  unfold System.call_step, process_trace. cbn [c_pc c_todo fst snd]. by rewrite Hhas.
Qed.

(** ** The theorems *)

Variable UnmarshalTraces : bytes → option Traces.

(** What the next consumer got from the buffer. *)
Definition delivered (y : system) : list Traces :=
  omap (λ ev, match ev with EMatch _ d => onMatch UnmarshalTraces d | EEvict _ => None end)
    (all_events (y_buf y)).

(** The library's marshaller and unmarshaller are inverse. *)
Hypothesis unmarshal_marshal : ∀ t d, MarshalTraces t = Some d → UnmarshalTraces d = Some t.

(** The spans in a request. *)
Definition payload (r : writeReq) : list Span :=
  match UnmarshalTraces (data r) with Some t => all_spans t | None => [] end.
Definition rspans (l : list writeReq) : list Span := mjoin (payload <$> l).

Lemma rspans_app l k : rspans (l ++ k) = rspans l ++ rspans k.
Proof. unfold rspans. by rewrite fmap_app, join_app. Qed.

Lemma rspans_perm l k : l ≡ₚ k → rspans l ≡ₚ rspans k.
Proof. unfold rspans. by intros ->. Qed.

Lemma rspans_written es rs : Forall2 (written MarshalTraces) es rs → rspans rs = espans es.
Proof.
  induction 1 as [|e r es rs [_ Hm] _ IH]; [done|].
  change (payload r ++ rspans rs = all_spans e.2 ++ espans es). rewrite IH. f_equal.
  unfold payload. by rewrite (unmarshal_marshal _ _ Hm).
Qed.

Definition is_match (ev : event) : bool := match ev with EMatch _ _ => true | EEvict _ => false end.

(** The deliveries among the callbacks. *)
Lemma delivered_spans (outs : list (writeReq * event)) :
  Forall outcome_ok outs → (∀ o, o ∈ outs → is_Some (UnmarshalTraces (data o.1))) →
  mjoin (all_spans <$> omap (λ ev, match ev with EMatch _ d => UnmarshalTraces d | EEvict _ => None end) outs.*2) =
    rspans (filter (λ o, is_match o.2 = true) outs).*1.
Proof.
  intros Houts Hun. induction Houts as [|[r ev] outs Ho _ IH]; [done|]. rewrite filter_cons.
  assert (∀ o, o ∈ outs → is_Some (UnmarshalTraces (data o.1))) as Hun' by (intros; apply Hun; set_solver).
  destruct ev as [tid d|age]; simpl; [|by apply IH]. destruct Ho as [_ Hd]. simpl in Hd. subst d.
  destruct (Hun (r, EMatch tid (data r))) as [t Ht]; [set_solver|]. simpl in Ht. rewrite Ht. simpl.
  unfold rspans at 1. simpl. unfold payload at 1. rewrite Ht. f_equal. by apply IH.
Qed.

Lemma accepted_unmarshals y r :
  sys_inv y → r ∈ b_accepted (y_buf y) →
  ∃ td, td ∈ y_received y ∧ UnmarshalTraces (data r) = Some (restrict (traceID r) td) ∧
    one_trace (traceID r) (restrict (traceID r) td).
Proof.
  intros [_ _ _ _ _ Hf Hw] Hr. apply list_elem_of_lookup in Hr as [i Hi].
  destruct (Forall2_lookup_r _ _ _ _ _ Hw Hi) as (e & He & Hid & Hm).
  apply list_elem_of_lookup_2 in He. destruct (Hf e) as (td & Htd & Hg); [set_solver|].
  apply group_entry in Hg as [Hg Hone]. rewrite <- Hid in Hg, Hone. exists td.
  rewrite <- Hg. split; [done|]. split; [by apply unmarshal_marshal|done].
Qed.

(** C2: from end to end. Whatever batches, decisions, interleavings and failures of
    the file there were, every span received is in exactly one place: it was
    forwarded at once, it was delivered from the buffer later, it is in the output
    of a call under way or in a trace such a call has left, it was refused (the
    buffer was full), or its request is pending, was evicted, was dropped after the
    shutdown, or was skipped because the file failed, which cannot be unless
    failures that lose requests are allowed. So no span reaches the next consumer
    twice, and none is lost but by refusal, eviction, shutdown or such a failure. *)
Theorem spans_accounted y :
  sys_reachable y → Forall valid_req (b_accepted (y_buf y)) →
  ∃ pending evicted lost skipped,
    mjoin (all_spans <$> y_received y) ≡ₚ
      all_spans (y_forwarded y) ++ mjoin (all_spans <$> delivered y) ++ all_spans (outs y) ++
      espans (todo y) ++ espans (y_refused y) ++ rspans pending ++ rspans evicted ++ rspans lost ++ rspans skipped ∧
    length evicted = length (filter (λ ev, is_match ev = false) (all_events (y_buf y))) ∧
    (b_closed (y_buf y) = false → lost = []) ∧ (may_lose = false → skipped = []) ∧
    (b_writeCh (y_buf y) = [] → inflight (b_writer (y_buf y)) = [] →
     w_stageN (b_writer (y_buf y)) = 0 → b_used (y_buf y) = 0 → pending = []).
Proof.
  intros Hy Hv. pose proof (sys_reachable_inv _ y Hy) as Hi.
  destruct (io_conserved _ (si_buf _ _ Hi) Hv) as (pending & outs & lost & skipped & Hacc & Hev & Ho & Hl & Hs & Hq).
  exists pending, (filter (λ o, ¬ is_match o.2 = true) outs).*1, lost, skipped.
  split; [|split; [|done]].
  - unfold delivered. rewrite Hev. unfold onMatch. rewrite delivered_spans; [|done|].
    + rewrite (si_spans _ _ Hi), <- (rspans_written _ _ (si_written _ _ Hi)), (rspans_perm _ _ Hacc), !rspans_app.
      rewrite (rspans_perm outs.*1 ((filter (λ o, is_match o.2 = true) outs).*1 ++
                 (filter (λ o, ¬ is_match o.2 = true) outs).*1)).
      * rewrite rspans_app. solve_Permutation.
      * rewrite <- fmap_app. by rewrite filter_app_complement.
    + intros o Hin. destruct (accepted_unmarshals y o.1 Hi) as (td & _ & -> & _); [|by eexists].
      rewrite Hacc. apply elem_of_app. right. apply elem_of_app. left. apply list_elem_of_fmap. by exists o.
  - rewrite Hev, length_fmap. clear. induction outs as [|[r ev] outs IH]; [done|].
    rewrite fmap_cons, !filter_cons. by destruct ev; simpl; rewrite IH.
Qed.

(** C7: what is delivered is whole and true: every delivery is of one trace and
    hands on all that some batch had of it, in the batch's structure. *)
Theorem delivered_whole y tid d :
  sys_reachable y → Forall valid_req (b_accepted (y_buf y)) → EMatch tid d ∈ all_events (y_buf y) →
  ∃ td, td ∈ y_received y ∧ onMatch UnmarshalTraces d = Some (restrict tid td) ∧
    one_trace tid (restrict tid td).
Proof.
  intros Hy Hv Hin. pose proof (sys_reachable_inv _ y Hy) as Hi.
  destruct (io_conserved _ (si_buf _ _ Hi) Hv) as (pending & outs & lost & skipped & Hacc & Hev & Ho & _).
  rewrite Hev in Hin. apply list_elem_of_fmap in Hin as ([r ev] & Heq & Hin). simpl in Heq. subst ev.
  rewrite Forall_forall in Ho. destruct (Ho _ Hin) as [-> ->]. apply accepted_unmarshals; [done|].
  rewrite Hacc. apply elem_of_app. right. apply elem_of_app. left. apply list_elem_of_fmap.
  eexists. split; [|exact Hin]. done.
Qed.

(** ** Two calls at once *)

Definition evaluating (c : call) : bool := match c_pc c with CEval _ => true | _ => false end.

(** Nothing keeps two calls from being in [Evaluate] at the same time,
    whatever the policies are. The cache that [NewStringAttributeFilter] makes
    for regular expressions is shared by all calls, and its [Get] and [Add]
    change it without synchronisation. *)
Theorem evaluations_overlap (file : bytes) (now : Time) (chain : Chain) (td td' : Traces) :
  len file = maxBytes → all_spans td ≠ [] → all_spans td' ≠ [] →
  ∃ y c c', sys_reachable y ∧ p_eval (y_proc y) = chain ∧ y_calls y = [c; c'] ∧
    evaluating c = true ∧ evaluating c' = true.
Proof.
  intros Hf Hne Hne'.
  assert (∀ td, all_spans td ≠ [] → ∃ e l, map_to_list (groupByTrace td) = e :: l) as Hentry.
  { intros t Ht. pose proof (entries_spans t (map_to_list (groupByTrace t)) (Permutation_refl _)) as Hp.
    destruct (map_to_list (groupByTrace t)) as [|e l]; [|eauto]. simpl in Hp. by apply Permutation_nil in Hp. }
  destruct (Hentry td Hne) as (e & l & El). destruct (Hentry td' Hne') as (e' & l' & El').
  set (b := init_buffer file now). set (p := MkProcessor b chain false []).
  exists (MkSystem p [MkCall now l [] (CEval e); MkCall now l' [] (CEval e')] [td'; td] [] [] []), (MkCall now l [] (CEval e)),
    (MkCall now l' [] (CEval e')). split; [|done].
  eapply (sys_rtc_reachable _ (init_system file now chain)); [by apply sys_init|].
  eapply (sys_run_steps _ [YBegin td' (e' :: l'); YBegin td (e :: l); YCall 0; YCall 1]); [|reflexivity].
  apply Forall_cons. split; [unfold label_ok; apply reflexive_eq; exact (eq_sym El')|]. apply Forall_cons. split; [unfold label_ok; apply reflexive_eq; exact (eq_sym El)|]. by repeat constructor.
Qed.
End props.

(** The first trace of the batch is buffered, the second one sampled; then the
    coordinator decides about the first. *)
Definition demo_chain : Chain (L := EvalDemo.libs) := [statusCodeFilter [2]].

Definition demo_begin : list (sys_label (H := Simple.pdata)) :=
  YBegin EvalDemo.batch Split.demo_entries :: replicate 8 (YCall 0) ++ [YReturn 0; YDecision EvalDemo.tid_b].

(** The record is staged, flushed at the second attempt and found by the sweeper,
    which cannot write the page back. *)
Definition demo_deliver : list (sys_label (H := Simple.pdata)) :=
  (YBuffer <$> [LWakeSend; LTime 3; LRecv; LTick]) ++ [YFault IoFlush] ++
  (YBuffer <$> [LTick; LCommit; LWake; LSweep; LSweep; LSweep; LSweep]) ++ [YFault IoWriteBack].

#[export] Instance any_failure : FileFaults | 100 := {| may_lose := true |}.

Definition demo_start : system := init_system (L := EvalDemo.libs) (zeroes 320) 0 demo_chain.
Definition demo_after (ls : list (sys_label (H := Simple.pdata))) : system :=
  default demo_start (System.sys_run EvalDemo.marshal ls demo_start).

Lemma demo_label_ok : Forall label_ok (demo_begin ++ demo_deliver).
Proof. constructor; [exact Split.demo_entries_ok|]. repeat constructor. Qed.

(** The schedule runs to its end. *)
Definition runs (ls : list (sys_label (H := Simple.pdata))) : bool :=
  match System.sys_run EvalDemo.marshal ls demo_start with Some _ => true | None => false end.

Lemma demo_steps l1 l2 :
  runs (l1 ++ l2) = true → Forall label_ok l2 →
  rtc (System.sys_step EvalDemo.marshal) (demo_after l1) (demo_after (l1 ++ l2)).
Proof.
  unfold runs, demo_after. rewrite sys_run_app. intros Hr Hl. destruct (System.sys_run EvalDemo.marshal l1 demo_start) as [y1|]; [|done].
  simpl in *. eapply sys_run_steps; [exact Hl|]. by destruct (System.sys_run EvalDemo.marshal l2 y1).
Qed.

Lemma demo_sys_reachable : System.sys_reachable EvalDemo.marshal (demo_after (demo_begin ++ demo_deliver)).
Proof.
  eapply sys_rtc_reachable; [apply sys_init, Demo.start_file|].
  apply (demo_steps []); [vm_compute; reflexivity|exact demo_label_ok].
Qed.

Lemma demo_sys_valid : Forall valid_req (b_accepted (y_buf (demo_after (demo_begin ++ demo_deliver)))).
Proof. valid_tac. Qed.

Lemma spans_accounted_witness :
  let y := demo_after (demo_begin ++ demo_deliver) in
  len (all_events (y_buf y)) = 1 ∧
  ∃ pending evicted lost skipped,
    mjoin (all_spans <$> y_received y) ≡ₚ
      all_spans (y_forwarded y) ++ mjoin (all_spans <$> delivered EvalDemo.unmarshal y) ++ all_spans (outs y) ++
      espans (todo y) ++ espans (y_refused y) ++ rspans EvalDemo.unmarshal pending ++
      rspans EvalDemo.unmarshal evicted ++ rspans EvalDemo.unmarshal lost ++ rspans EvalDemo.unmarshal skipped ∧
    length evicted = length (filter (λ ev, is_match ev = false) (all_events (y_buf y))) ∧
    (b_closed (y_buf y) = false → lost = []) ∧ (may_lose = false → skipped = []) ∧
    (b_writeCh (y_buf y) = [] → inflight (b_writer (y_buf y)) = [] →
     w_stageN (b_writer (y_buf y)) = 0 → b_used (y_buf y) = 0 → pending = []).
Proof.
  split; [vm_compute; reflexivity|].
  exact (spans_accounted EvalDemo.marshal EvalDemo.unmarshal EvalDemo.unmarshal_marshal _ demo_sys_reachable demo_sys_valid).
Defined.

Lemma delivered_whole_witness :
  let y := demo_after (demo_begin ++ demo_deliver) in
  EMatch EvalDemo.tid_b [x62] ∈ all_events (y_buf y) ∧
  ∃ td, td ∈ y_received y ∧ onMatch EvalDemo.unmarshal [x62] = Some (restrict EvalDemo.tid_b td) ∧
    one_trace EvalDemo.tid_b (restrict EvalDemo.tid_b td).
Proof.
  assert (EMatch EvalDemo.tid_b [x62] ∈ all_events (y_buf (demo_after (demo_begin ++ demo_deliver)))) as Hin
    by (vm_compute; constructor).
  split; [exact Hin|].
  exact (delivered_whole EvalDemo.marshal EvalDemo.unmarshal EvalDemo.unmarshal_marshal _ _ _
    demo_sys_reachable demo_sys_valid Hin).
Defined.

(** The decision at 0; the deliveries take until 3. *)
Lemma decision_lasts_witness :
  let y' := demo_after (demo_begin ++ demo_deliver) in
  process_trace EvalDemo.marshal 5 EvalDemo.tid_b EvalDemo.part_a (y_proc y') = (Forwarded false, y_proc y').
Proof.
  assert (∀ n, Forall label_ok (take n demo_begin)) as Hlab.
  { intros n. apply Forall_take. constructor; [exact Split.demo_entries_ok|]. repeat constructor. }
  assert (System.sys_reachable EvalDemo.marshal demo_start) as Hr by apply sys_init, Demo.start_file.
  assert (∀ n, runs (take n demo_begin) = true → System.sys_reachable EvalDemo.marshal (demo_after (take n demo_begin))) as Hrn.
  { intros n Hn. eapply sys_rtc_reachable; [exact Hr|]. apply (demo_steps [] (take n demo_begin)); [exact Hn|apply Hlab]. }
  pose proof (Hrn 11%nat ltac:(vm_compute; reflexivity)) as Hy. change (take 11 demo_begin) with demo_begin in Hy.
  pose proof (Hrn 10%nat ltac:(vm_compute; reflexivity)) as Hy10.
  pose proof (si_buf EvalDemo.marshal _ (sys_reachable_inv EvalDemo.marshal _ Hy10)) as Hb.
  assert (exec (LAddInterest EvalDemo.tid_b) (y_buf (demo_after (take 10 demo_begin))) = Some (y_buf (demo_after demo_begin))) as He
    by (vm_compute; reflexivity).
  assert (rtc (System.sys_step EvalDemo.marshal) (demo_after demo_begin) (demo_after (demo_begin ++ demo_deliver))) as Hst
    by (apply demo_steps; [vm_compute; reflexivity|repeat constructor]).
  assert (b_now (y_buf (demo_after (demo_begin ++ demo_deliver))) - b_now (y_buf (demo_after demo_begin)) < decisionWait) as Hlt
    by (vm_compute; reflexivity).
  assert (2 * decisionWait <= max_i64) as H2 by (vm_compute; discriminate).
  exact (proj2 (decision_lasts EvalDemo.marshal _ _ EvalDemo.tid_b _ 5 EvalDemo.part_a [] [] H2 Hy Hb He Hst Hlt)).
Defined.

Lemma uninterrupted_witness :
  let '(out, _, p', acts) := processTraces EvalDemo.marshal 0 Split.demo_entries (y_proc demo_start) in
  call_run EvalDemo.marshal 10 (MkCall 0 Split.demo_entries [] CLoop) (y_proc demo_start) =
    (MkCall 0 [] out CLoop, p', outcomes acts Split.demo_entries).
Proof. exact (uninterrupted EvalDemo.marshal 0 Split.demo_entries (y_proc demo_start) 10 ltac:(simpl; lia)). Defined.

(** The call after three of its transitions. *)
Lemma call_returns_witness :
  let y := demo_after (take 4 demo_begin) in
  ∃ c n y', y_calls y = [c] ∧ (n <= call_measure c)%nat ∧
    System.sys_run EvalDemo.marshal (replicate n (YCall 0) ++ [YReturn 0]) y = Some y' ∧ y_calls y' = [].
Proof.
  cbv zeta. set (y := demo_after (take 4 demo_begin)).
  assert (System.sys_reachable EvalDemo.marshal y) as Hr.
  { eapply sys_rtc_reachable; [apply sys_init, Demo.start_file|].
    apply (demo_steps [] (take 4 demo_begin)); [vm_compute; reflexivity|].
    apply Forall_take. constructor; [exact Split.demo_entries_ok|]. repeat constructor. }
  assert (length (y_calls y) = 1%nat) as Hlen by (vm_compute; reflexivity).
  destruct (y_calls y) as [|c [|]] eqn:Hc; try discriminate Hlen.
  destruct (call_returns EvalDemo.marshal y 0 c Hr (f_equal (.!! 0%nat) Hc)) as (n & y' & Hn & Hrun & Hcs).
  exists c, n, y'. exact (conj eq_refl (conj Hn (conj Hrun (eq_trans Hcs (f_equal (delete 0%nat) Hc))))).
Defined.

Lemma evaluations_overlap_witness :
  ∃ y c c', System.sys_reachable EvalDemo.marshal y ∧ p_eval (y_proc y) = demo_chain ∧ y_calls y = [c; c'] ∧
    evaluating c = true ∧ evaluating c' = true.
Proof.
  apply (evaluations_overlap EvalDemo.marshal (zeroes 320) 0 demo_chain EvalDemo.batch EvalDemo.batch Demo.start_file);
    discriminate.
Defined.

(** ** newProcessor *)
Section new.
Context `{L : Libs} {HL : LibsOk L}.
Variable uint32_out_of_range : spec_float → Z.
Context {ClientConfig : Type}.
Variable noClientConfig : ClientConfig.

(** [newProcessor] succeeds exactly if the buffer can be made and the
    policies can be built, in this order. The processor it returns has the
    policies of the configuration, in order, with caches that are right, a
    buffer to which all theorems about the buffer apply, and no coordinator
    before [Start]. The default configuration is refused: it has no room for
    the buffer. *)
Theorem newProcessor_spec page env (c : Config (ClientConfig := ClientConfig)) now :
  hdrSize < page → 0 <= MaxBufferBytes c → 3 * MaxBufferBytes c <= max_i64 → DecisionWaitTime c <= max_i64 →
  (∀ content n, env_truncate env = Some content → 0 <= n → len (content n) = n) →
  let made := newProcessor uint32_out_of_range true page env c now in
  (∀ err, made = inl (ErrBuffer err) ↔ New page env (MaxBufferBytes c) (DecisionWaitTime c) now = inl err) ∧
  (∀ err, made = inl (ErrPolicies err) →
     Build uint32_out_of_range (Policies c) = inl err ∧
     ∃ b, New page env (MaxBufferBytes c) (DecisionWaitTime c) now = inr b) ∧
  (∀ bcfg p, made = inr (bcfg, p) →
     Build uint32_out_of_range (Policies c) = inr (p_eval p) ∧
     length (p_eval p) = length (Policies c) ∧ Forall evaluator_ok (p_eval p) ∧
     BufCfgOk bcfg ∧ @decisionWait bcfg = DecisionWaitTime c ∧ @reachable bcfg (p_buf p) ∧
     b_accepted (p_buf p) = [] ∧ p_coord p = false) ∧
  newProcessor uint32_out_of_range true page env (createDefaultConfig noClientConfig) now = inl (ErrBuffer (ErrMaxBytes 0)).
Proof.
  intros Hp H0 Hmax Hdw Hcontent made. subst made. unfold newProcessor. simpl negb. cbv iota.
  split; [|split; [|split]].
  - intros err. destruct (New _ _ _ _ _) as [err'|[bcfg b]]; [naive_solver|].
    destruct (Build _ _); naive_solver.
  - intros err. destruct (New _ _ _ _ _) as [err'|[bcfg b]]; [done|].
    destruct (Build _ _) eqn:Hb; [|done]. intros [= ->]. split; [done|]. by eexists.
  - intros bcfg p. destruct (New _ _ _ _ _) as [err'|[bcfg' b]] eqn:Hn; [done|].
    destruct (Build _ _) as [|chain] eqn:Hb; [done|]. intros [= -> <-]. simpl.
    destruct (New_ok _ _ _ _ _ _ _ Hp H0 Hmax Hdw Hcontent Hn) as (H1 & _ & H3 & _ & H5).
    destruct (Build_ok _ _ _ Hb) as [Hev Hlen].
    split; [done|]. split; [done|]. split; [done|]. split; [done|]. split; [done|]. split; [done|].
    split; [|done]. unfold New in Hn. repeat case_match; by simplify_eq.
  - unfold New, hdrSize in *. simpl. rewrite Z.quot_0_l by lia.
    destruct (Z.ltb_spec (0 * page) (2 * page)); [done|lia].
Qed.
End new.

Definition demo_config : Config (L := EvalDemo.libs) (ClientConfig := unit) := MkConfig "buffer"%string 330 10 tt demo_policies.

Lemma newProcessor_spec_witness :
  ∃ bcfg p, newProcessor (λ _, 0) true 64 demo_env demo_config 0 = inr (bcfg, p) ∧
    Build (λ _, 0) (Policies demo_config) = inr (p_eval p) ∧ length (p_eval p) = 3%nat ∧
    BufCfgOk bcfg ∧ @reachable bcfg (p_buf p).
Proof.
  destruct (newProcessor_spec (λ _, 0) tt 64 demo_env demo_config 0) as (_ & _ & H & _);
    [done|done|done|done|intros content n [= <-] Hn; rewrite length_zeroes; lia|].
  eexists _, _. split; [reflexivity|]. destruct (H _ _ eq_refl) as (H1 & H2 & _ & H4 & _ & H6 & _).
  split; [exact H1|]. split; [exact H2|]. split; [exact H4|exact H6].
Defined.
