(* ===== verification/Server.v ===== *)
(** * The coordinator's server

    coordinator/server/server.go: the map of connected streams, [Broadcast],
    the sender goroutine of every stream with its batches, and the life of a
    [Connect] call, as a labelled transition system. A stream entry is a heap
    cell: the map holds its index. The byte counters are left out. *)

From S2P Require Import Prelude Bytes.

Definition maxBatchSize : Z := 256.
Definition entry_cap : Z := 256.   (* cap(entry.ch) *)

(** Where the sender goroutine of a stream is. *)
Inductive sender :=
| SSelect                     (* the select at the head of the loop *)
| SDrain (ids : list bytes)   (* the select of the drain loop; the timer runs *)
| SSend (ids : list bytes)    (* about to call stream.Send *)
| SReturned.

(** A stream: its channel, its sender, and the state of its [Connect] call.
    The last four fields are histories: what was put into the channel, the
    batches given to [stream.Send], and, when the sender returned, the ids it
    had taken and those it had left in the channel. *)
Record stream := MkStream {
  e_id : string;
  e_ch : list bytes;
  e_pc : sender;
  e_removed : bool;   (* the deferred function has deleted the id *)
  e_done : bool;      (* done is closed *)
  e_queued : list bytes;
  e_sent : list (list bytes);
  e_held : list bytes;
  e_left : list bytes;
}.

(** [s_missed] and [s_notified] are histories: how often a stream's channel was
    full, and the calls of [onNotify]. *)
Record Server := MkServer {
  s_streams : gmap string nat;
  s_entries : list stream;
  s_droppedSends : Z;
  s_sendErrors : Z;
  s_missed : Z;
  s_notified : list bytes;
}.

(** [New] *)
Definition new_server : Server := MkServer ∅ [] 0 0 0 [].

Definition new_stream (id : string) : stream := MkStream id [] SSelect false false [] [] [] [].

Definition set_entries (l : list stream) (s : Server) : Server :=
  MkServer (s_streams s) l (s_droppedSends s) (s_sendErrors s) (s_missed s) (s_notified s).

Definition set_sender (pc : sender) (e : stream) : stream :=
  MkStream (e_id e) (e_ch e) pc (e_removed e) (e_done e) (e_queued e) (e_sent e) (e_held e) (e_left e).

(** *** Broadcast *)

Definition push (traceID : bytes) (e : stream) : stream :=
  MkStream (e_id e) (e_ch e ++ [traceID]) (e_pc e) (e_removed e) (e_done e) (e_queued e ++ [traceID])
    (e_sent e) (e_held e) (e_left e).

Definition has_room (e : stream) : bool := len (e_ch e) <? entry_cap.

(** The body of the loop: the [select] with its default. *)
Definition offer (traceID : bytes) (s : Server) (i : nat) : Server :=
  match s_entries s !! i with
  | Some e =>
      if has_room e then set_entries (<[i := push traceID e]> (s_entries s)) s
      else MkServer (s_streams s) (s_entries s) (s_droppedSends s + 1) (s_sendErrors s) (s_missed s + 1)
             (s_notified s)
  | None => s
  end.

(** [order] is the map in iteration order. *)
Definition Broadcast (traceID : bytes) (order : list nat) (s : Server) : Server :=
  foldl (offer traceID) s order.

(** *** The sender *)

(** The test of the drain loop. *)
Definition drain (ids : list bytes) : sender := if len ids <? maxBatchSize then SDrain ids else SSend ids.

(** Receives from the channel, in either [select]. *)
Definition take_id (e : stream) : option stream :=
  match e_ch e with
  | [] => None
  | tid :: ch =>
      match match e_pc e with
            | SSelect => Some (drain [tid])
            | SDrain ids => Some (drain (ids ++ [tid]))
            | _ => None
            end with
      | None => None
      | Some pc => Some (MkStream (e_id e) ch pc (e_removed e) (e_done e) (e_queued e) (e_sent e) (e_held e) (e_left e))
      end
  end.

Definition timer_fires (e : stream) : option stream :=
  match e_pc e with SDrain ids => Some (set_sender (SSend ids) e) | _ => None end.

Definition send_batch (e : stream) : option stream :=
  match e_pc e with
  | SSend ids =>
      Some (MkStream (e_id e) (e_ch e) SSelect (e_removed e) (e_done e) (e_queued e) (e_sent e ++ [ids]) (e_held e) (e_left e))
  | _ => None
  end.

(** Sees [done]: what is left in the channel is counted and the goroutine
    returns. *)
Definition stop (e : stream) : option stream :=
  if e_done e then
    match match e_pc e with SSelect => Some [] | SDrain ids => Some ids | _ => None end with
    | Some held =>
        Some (MkStream (e_id e) (e_ch e) SReturned (e_removed e) true (e_queued e) (e_sent e) held (e_ch e))
    | None => None
    end
  else None.

(** *** The transitions *)
Inductive server_label :=
| VConnect (id : string)         (* Connect up to the start of the sender *)
| VRecv (i : nat) (notify : option bytes)   (* stream.Recv returns a message *)
| VRemove (i : nat)              (* Recv fails: the deferred function deletes the id *)
| VDone (i : nat)                (* and closes done *)
| VBroadcast (traceID : bytes) (order : list nat)
| VTake (i : nat) | VTimer (i : nat)
| VSend (i : nat) (ok : bool)
| VStop (i : nat).

Definition with_entry (i : nat) (f : stream → option stream) (s : Server) : option Server :=
  e ← s_entries s !! i; e' ← f e; Some (set_entries (<[i := e']> (s_entries s)) s).

Definition add_dropped (n : Z) (s : Server) : Server :=
  MkServer (s_streams s) (s_entries s) (s_droppedSends s + n) (s_sendErrors s) (s_missed s) (s_notified s).

(** The transition of a label, [None] where it is not enabled. *)
Definition server_exec (l : server_label) (s : Server) : option Server :=
  match l with
  | VConnect id =>
      Some (MkServer (<[id := length (s_entries s)]> (s_streams s)) (s_entries s ++ [new_stream id])
              (s_droppedSends s) (s_sendErrors s) (s_missed s) (s_notified s))
  | VRecv i notify =>
      e ← s_entries s !! i;
      if e_removed e then None
      else Some (match notify with
                 | Some tid => MkServer (s_streams s) (s_entries s) (s_droppedSends s) (s_sendErrors s) (s_missed s)
                                 (s_notified s ++ [tid])
                 | None => s
                 end)
  | VRemove i =>
      e ← s_entries s !! i;
      if e_removed e then None
      else
        let e' := MkStream (e_id e) (e_ch e) (e_pc e) true (e_done e) (e_queued e) (e_sent e) (e_held e) (e_left e) in
        Some (MkServer (delete (e_id e) (s_streams s)) (<[i := e']> (s_entries s))
                (s_droppedSends s) (s_sendErrors s) (s_missed s) (s_notified s))
  | VDone i =>
      with_entry i (λ e,
        if e_removed e && negb (e_done e) then
          Some (MkStream (e_id e) (e_ch e) (e_pc e) (e_removed e) true (e_queued e) (e_sent e) (e_held e) (e_left e))
        else None) s
  | VBroadcast traceID order =>
      if decide (order ≡ₚ (map_to_list (s_streams s)).*2) then Some (Broadcast traceID order s) else None
  | VTake i => with_entry i take_id s
  | VTimer i => with_entry i timer_fires s
  | VSend i ok =>
      s' ← with_entry i send_batch s;
      Some (if ok then s'
            else MkServer (s_streams s') (s_entries s') (s_droppedSends s') (s_sendErrors s' + 1) (s_missed s') (s_notified s'))
  | VStop i =>
      e ← s_entries s !! i; s' ← with_entry i stop s; Some (add_dropped (len (e_ch e)) s')
  end.

Inductive server_reachable : Server → Prop :=
| server_new : server_reachable new_server
| server_step l s s' : server_reachable s → server_exec l s = Some s' → server_reachable s'.

Fixpoint server_run (ls : list server_label) (s : Server) : option Server :=
  match ls with [] => Some s | l :: ls => s' ← server_exec l s; server_run ls s' end.

Lemma server_run_reachable ls s s' : server_run ls s = Some s' → server_reachable s → server_reachable s'.
Proof.
  revert s. induction ls as [|l ls IH]; intros s Hr Hs; simpl in Hr; [by simplify_eq|].
  destruct (server_exec l s) as [s1|] eqn:He; [|done]. apply (IH s1 Hr). by eapply server_step.
Qed.

(** ** Invariant *)

(** The ids the sender has taken and not given to [stream.Send]. *)
Definition taken (pc : sender) : list bytes :=
  match pc with SDrain ids | SSend ids => ids | SSelect | SReturned => [] end.

Record stream_ok (e : stream) : Prop := {
  so_fifo : e_queued e = mjoin (e_sent e) ++ (e_held e ++ taken (e_pc e)) ++ e_ch e;
  so_cap : len (e_ch e) <= entry_cap;
  so_batches : Forall (λ b, 0 < len b <= maxBatchSize) (e_sent e);
  so_taken : match e_pc e with
             | SDrain ids => 0 < len ids < maxBatchSize
             | SSend ids => 0 < len ids <= maxBatchSize
             | _ => True
             end;
  so_returned : match e_pc e with
                | SReturned => e_done e = true ∧ e_left e = e_ch e
                | _ => e_held e = [] ∧ e_left e = []
                end;
  so_held : len (e_held e) < maxBatchSize;
  so_done : e_done e = true → e_removed e = true;
}.

Definition total_left (l : list stream) : Z := foldr (λ e n, len (e_left e) + n) 0 l.

Record server_ok (s : Server) : Prop := {
  vo_streams : ∀ id i, s_streams s !! id = Some i →
                 ∃ e, s_entries s !! i = Some e ∧ e_id e = id ∧ e_removed e = false;
  vo_entries : Forall stream_ok (s_entries s);
  vo_dropped : s_droppedSends s = s_missed s + total_left (s_entries s);
}.

Lemma total_left_app l k : total_left (l ++ k) = total_left l + total_left k.
Proof. unfold total_left. induction l as [|e l IH]; simpl; [done|]. rewrite IH. lia. Qed.

Lemma total_left_insert l i e e' :
  l !! i = Some e → total_left (<[i := e']> l) = total_left l - len (e_left e) + len (e_left e').
Proof.
  revert i. induction l as [|x l IH]; intros [|i] Hi; simplify_eq/=; [lia|]. rewrite (IH i) by done. lia.
Qed.

(** A step of one stream that keeps its identity. *)
Lemma entry_step s i e e' n :
  server_ok s → s_entries s !! i = Some e → stream_ok e' → e_id e' = e_id e → e_removed e' = e_removed e →
  len (e_left e') = len (e_left e) + n →
  server_ok (add_dropped n (set_entries (<[i := e']> (s_entries s)) s)).
Proof.
  intros [Hs He Hd] Hi Hok Hid Hrem Hn. split; simpl.
  - intros id j Hj. destruct (Hs id j Hj) as (x & Hx & Hxid & Hxr). destruct (decide (i = j)) as [<-|Hne].
    + simplify_eq. exists e'. rewrite list_lookup_insert_eq by (by eapply lookup_lt_Some). split; [done|]. by rewrite Hid, Hrem.
    + exists x. by rewrite list_lookup_insert_ne.
  - by apply Forall_insert.
  - rewrite (total_left_insert _ _ _ _ Hi). lia.
Qed.

Lemma add_dropped_0 s : add_dropped 0 s = s.
Proof. destruct s. unfold add_dropped. simpl. f_equal. lia. Qed.

(** *** The streams' own steps *)

Definition keeps (f : stream → option stream) : Prop :=
  ∀ e e', stream_ok e → f e = Some e' →
    stream_ok e' ∧ e_id e' = e_id e ∧ e_removed e' = e_removed e ∧ e_left e' = e_left e.

Lemma drain_spec ids : taken (drain ids) = ids ∧
  (0 < len ids <= maxBatchSize → match drain ids with
                                 | SDrain l => 0 < len l < maxBatchSize
                                 | SSend l => 0 < len l <= maxBatchSize
                                 | _ => False end).
Proof. unfold drain. destruct (Z.ltb_spec (len ids) maxBatchSize); simpl; split; [done|lia|done|lia]. Qed.

Lemma keeps_take : keeps take_id.
Proof.
  intros e e' [Hf Hc Hb Ht Hr Hhd Hd]. unfold take_id.
  destruct (e_ch e) as [|tid ch] eqn:Hch; [done|]. simpl in Hc.
  assert (∀ ids, taken (e_pc e) = ids → 0 <= len ids < maxBatchSize → e_held e = [] → e_left e = [] →
    stream_ok (MkStream (e_id e) ch (drain (ids ++ [tid])) (e_removed e) (e_done e) (e_queued e) (e_sent e) (e_held e) (e_left e))) as Hgo.
  { intros ids Hids Hlen Hh Hl. destruct (drain_spec (ids ++ [tid])) as [Etk Hlim].
    assert (0 < len (ids ++ [tid]) <= maxBatchSize) as Hlen' by (rewrite length_app; simpl; lia). specialize (Hlim Hlen').
    split; simpl; try done.
    - rewrite Etk, Hf, Hids. by rewrite <- !app_assoc.
    - lia.
    - by destruct (drain _).
    - by destruct (drain _). }
  destruct (e_pc e) as [|ids| |] eqn:Hpc; try done; intros [= <-]; simpl in *; destruct Hr as [Hh Hl].
  - split; [|done]. by apply (Hgo []).
  - split; [|done]. apply (Hgo ids); [done|lia|done|done].
Qed.

Lemma keeps_timer : keeps timer_fires.
Proof.
  intros e e' [Hf Hc Hb Ht Hr Hhd Hd]. unfold timer_fires. destruct (e_pc e) eqn:Hpc; try done. intros [= <-].
  split; [|done]. split; simpl in *; try done. lia.
Qed.

Lemma keeps_send : keeps send_batch.
Proof.
  intros e e' [Hf Hc Hb Ht Hr Hhd Hd]. unfold send_batch. destruct (e_pc e) eqn:Hpc; try done. intros [= <-].
  split; [|done]. simpl in *. destruct Hr as [Hh Hl]. split; simpl; try done.
  - rewrite join_app, Hf, Hh. simpl. by rewrite app_nil_r, <- app_assoc.
  - apply Forall_app. split; [done|]. by apply Forall_singleton.
Qed.

Lemma stop_ok e e' :
  stream_ok e → stop e = Some e' →
  stream_ok e' ∧ e_id e' = e_id e ∧ e_removed e' = e_removed e ∧ len (e_left e') = len (e_left e) + len (e_ch e).
Proof.
  intros [Hf Hc Hb Ht Hr Hhd Hd]. unfold stop. destruct (e_done e) eqn:Hdn; [|done].
  destruct (e_pc e) eqn:Hpc; try done; intros [= <-]; simpl in *; destruct Hr as [Hh Hl];
    (split; [|rewrite Hl; simpl; done]); split; simpl; try done; try (unfold maxBatchSize in *; simpl in *; lia); rewrite Hf, Hh; by rewrite ?app_nil_r.
Qed.

Lemma with_entry_ok i f s s' : keeps f → server_ok s → with_entry i f s = Some s' → server_ok s'.
Proof.
  intros Hk Hs. unfold with_entry. destruct (s_entries s !! i) as [e|] eqn:Hi; [|done]. simpl.
  destruct (f e) as [e'|] eqn:Hf; [|done]. intros [= <-].
  assert (stream_ok e) as He by (eapply Forall_lookup_1; [apply Hs|done]).
  destruct (Hk e e' He Hf) as (H1 & H2 & H3 & H4).
  pose proof (entry_step s i e e' 0 Hs Hi H1 H2 H3 ltac:(rewrite H4; lia)) as H. by rewrite add_dropped_0 in H.
Qed.

(** *** Broadcast *)

Lemma push_ok tid e : stream_ok e → has_room e = true → e_removed e = false → stream_ok (push tid e).
Proof.
  intros [Hf Hc Hb Ht Hr Hhd Hd] Hroom%Z.ltb_lt Hrem. unfold entry_cap in *. split; simpl; try done.
  - by rewrite Hf, <- !app_assoc.
  - rewrite length_app. simpl. unfold entry_cap. lia.
  - destruct (e_pc e); try done. destruct Hr as [Hdn _]. rewrite Hd in Hrem; done.
Qed.

Lemma offer_ok tid i s : (∃ id, s_streams s !! id = Some i) → server_ok s → server_ok (offer tid s i).
Proof.
  intros [id Hid] Hs. destruct (vo_streams _ Hs _ _ Hid) as (e & He & _ & Hrem). unfold offer. rewrite He.
  destruct (has_room e) eqn:Hroom.
  - pose proof (entry_step s i e (push tid e) 0 Hs He) as H. rewrite add_dropped_0 in H.
    apply H; [|done|done|simpl; lia]. apply push_ok; [|done|done]. eapply Forall_lookup_1; [apply Hs|done].
  - destruct Hs as [H1 H2 H3]. split; simpl; [done|done|lia].
Qed.

Lemma offer_streams tid i s : s_streams (offer tid s i) = s_streams s.
Proof. unfold offer. repeat case_match; done. Qed.

Lemma Broadcast_ok tid order s :
  (∀ i, i ∈ order → ∃ id, s_streams s !! id = Some i) → server_ok s → server_ok (Broadcast tid order s).
Proof.
  unfold Broadcast. revert s. induction order as [|i order IH]; intros s Hin Hs; [done|]. simpl. apply IH.
  - intros j Hj. rewrite offer_streams. apply Hin. by right.
  - apply offer_ok; [apply Hin; by left|done].
Qed.

Lemma order_streams s order i :
  order ≡ₚ (map_to_list (s_streams s)).*2 → i ∈ order → ∃ id, s_streams s !! id = Some i.
Proof.
  intros -> ([id j] & -> & Hin)%list_elem_of_fmap. exists id. by apply elem_of_map_to_list.
Qed.

(** *** All transitions *)

Lemma server_exec_ok l s s' : server_exec l s = Some s' → server_ok s → server_ok s'.
Proof.
  intros He Hs. destruct l as [id|i notify|i|i|tid order|i|i|i ok|i]; cbn [server_exec] in He.
  - simplify_eq. destruct Hs as [H1 H2 H3]. split; simpl.
    + intros id' i. rewrite lookup_insert. case_decide as Hid.
      * intros [= <-]. subst id'. exists (new_stream id). by rewrite lookup_app_r, Nat.sub_diag.
      * intros Hi. destruct (H1 id' i Hi) as (e & Hl & ? & ?). exists e. split; [|done]. by apply lookup_app_l_Some.
    + apply Forall_app. split; [done|]. by repeat constructor.
    + rewrite total_left_app. simpl. lia.
  - destruct (s_entries s !! i) as [e|]; [|done]. simpl in He. destruct (e_removed e); [done|]. simplify_eq.
    destruct notify; [|done]. by destruct Hs.
  - destruct (s_entries s !! i) as [e|] eqn:Hi; [|done]. simpl in He. destruct (e_removed e) eqn:Hrem; [done|].
    simplify_eq. destruct Hs as [H1 H2 H3]. split; simpl.
    + intros id j [Hne Hj]%lookup_delete_Some. destruct (H1 id j Hj) as (x & Hx & Hxid & Hxr).
      exists x. split; [|done]. rewrite list_lookup_insert_ne; [done|]. intros <-. congruence.
    + apply Forall_insert; [done|]. destruct (proj1 (Forall_lookup _ _) H2 _ _ Hi). by split.
    + rewrite (total_left_insert _ _ _ _ Hi). simpl. lia.
  - eapply with_entry_ok; [|exact Hs|exact He]. intros e e' [Hf Hc Hb Ht Hr Hhd Hd].
    destruct (e_removed e) eqn:Hrem; [|done]. destruct (e_done e) eqn:Hdn; [done|]. intros [= <-].
    split; [|done]. split; simpl; try done. destruct (e_pc e); try done. by destruct Hr.
  - case_decide as Ho; [|done]. simplify_eq. apply Broadcast_ok; [|done]. intros j. by apply order_streams.
  - eapply with_entry_ok; [apply keeps_take|done|done].
  - eapply with_entry_ok; [apply keeps_timer|done|done].
  - destruct (with_entry i send_batch s) as [s1|] eqn:Hw; [|done]. simpl in He. simplify_eq.
    apply (with_entry_ok i send_batch) in Hw; [|apply keeps_send|done]. destruct ok; [done|]. destruct Hw; by split.
  - unfold with_entry in He. destruct (s_entries s !! i) as [e|] eqn:Hi; [|done]. simpl in He.
    destruct (stop e) as [e'|] eqn:Hst; [|done]. simpl in He. simplify_eq.
    assert (stream_ok e) as Heok by (eapply Forall_lookup_1; [apply Hs|done]).
    destruct (stop_ok e e' Heok Hst) as (H1 & H2 & H3 & H4). by apply (entry_step s i e e').
Qed.

Lemma server_reachable_ok s : server_reachable s → server_ok s.
Proof. induction 1 as [|l s s' _ IH He]; [by split|]. by eapply server_exec_ok. Qed.

(** ** The theorems *)

Definition registered (s : Server) (i : nat) : bool := bool_decide (i ∈ (map_to_list (s_streams s)).*2).

Lemma registered_nodup s : server_ok s → NoDup (map_to_list (s_streams s)).*2.
Proof.
  intros Hs. apply NoDup_fmap_2_strong; [|apply NoDup_map_to_list].
  intros [id i] [id' i'] Hi Hi' Heq. simpl in Heq. subst i'.
  apply elem_of_map_to_list in Hi, Hi'. destruct (vo_streams _ Hs _ _ Hi) as (e & He & <- & _).
  destruct (vo_streams _ Hs _ _ Hi') as (e' & He' & <- & _). by simplify_eq.
Qed.

Lemma Broadcast_entries tid order s :
  NoDup order →
  let s' := Broadcast tid order s in
  (∀ i, s_entries s' !! i =
     (λ e, if bool_decide (i ∈ order) && has_room e then push tid e else e) <$> s_entries s !! i) ∧
  s_streams s' = s_streams s ∧ s_sendErrors s' = s_sendErrors s ∧ s_notified s' = s_notified s.
Proof.
  unfold Broadcast. revert s. induction order as [|j order IH]; intros s Hnd; simpl.
  { split; [|done]. intros i. by destruct (s_entries s !! i). }
  apply NoDup_cons in Hnd as [Hj Hnd]. destruct (IH (offer tid s j) Hnd) as (He & Hs & Hse & Hn).
  rewrite Hs, Hse, Hn. split; [|unfold offer; by repeat case_match]. intros i. rewrite He. unfold offer.
  destruct (s_entries s !! j) as [e|] eqn:Hje.
  - destruct (decide (i = j)) as [->|Hne].
    + rewrite (bool_decide_eq_false_2 (j ∈ order)), bool_decide_eq_true_2 by (try set_solver). rewrite Hje. simpl.
      destruct (has_room e); simpl; [by rewrite list_lookup_insert_eq by (by eapply lookup_lt_Some)|by rewrite Hje].
    + rewrite (bool_decide_ext (i ∈ j :: order) (i ∈ order)) by set_solver.
      destruct (has_room e); simpl; [by rewrite list_lookup_insert_ne|done].
  - destruct (decide (i = j)) as [->|Hne]; [by rewrite Hje|].
    by rewrite (bool_decide_ext (i ∈ j :: order) (i ∈ order)) by set_solver.
Qed.

(** The streams of the order that have no room. *)
Definition full (s : Server) (i : nat) : bool :=
  match s_entries s !! i with Some e => negb (has_room e) | None => false end.
Definition without_room (s : Server) (order : list nat) : list nat := filter (λ i, full s i = true) order.

Lemma Broadcast_dropped tid order s :
  NoDup order → s_droppedSends (Broadcast tid order s) = s_droppedSends s + len (without_room s order).
Proof.
  unfold Broadcast. revert s. induction order as [|j order IH]; intros s Hnd; simpl; [lia|].
  apply NoDup_cons in Hnd as [Hj Hnd]. rewrite (IH _ Hnd).
  assert (without_room (offer tid s j) order = without_room s order) as ->.
  { unfold without_room. apply filter_ext_in. intros i Hi. unfold full, offer.
    destruct (s_entries s !! j) as [e|]; [|done]. destruct (has_room e); [|done]. simpl.
    rewrite list_lookup_insert_ne; [done|]. by intros ->. }
  unfold without_room at 2. rewrite filter_cons. fold (without_room s order). unfold full, offer.
  destruct (s_entries s !! j) as [e|]; [destruct (has_room e)|]; simpl; repeat case_decide; simpl; try done; lia.
Qed.

(** *** One stream can always go on *)

(** Runs of one sender, by itself. *)
Definition own_label (i : nat) (l : server_label) : bool :=
  match l with VTake j | VTimer j | VSend j true => bool_decide (i = j) | _ => false end.

(** What a sender with [ids] in its batch does to [ch]. *)
Lemma sender_run i s e :
  server_ok s → s_entries s !! i = Some e → e_pc e ≠ SReturned →
  ∃ ls s' e', Forall (λ l, own_label i l = true) ls ∧ server_run ls s = Some s' ∧ server_ok s' ∧
    s_entries s' !! i = Some e' ∧ e_ch e' = [] ∧ e_pc e' = SSelect ∧ e_queued e' = e_queued e.
Proof.
  remember (3 * length (e_ch e) + match e_pc e with SSelect => 0 | SDrain _ => 2 | _ => 1 end)%nat as n eqn:Hn.
  assert (3 * length (e_ch e) + match e_pc e with SSelect => 0 | SDrain _ => 2 | _ => 1 end <= n)%nat as Hle by lia.
  clear Hn. revert s e Hle. induction n as [|n IH]; intros s e Hle Hs Hi Hpc.
  { exists [], s, e. destruct (e_ch e) eqn:Hch; [|simpl in *; lia]. by destruct (e_pc e); simpl in *; try lia. }
  assert (∀ l f e1, server_exec l s = with_entry i f s → own_label i l = true → f e = Some e1 → keeps f →
    e_pc e1 ≠ SReturned → e_queued e1 = e_queued e →
    (3 * length (e_ch e1) + match e_pc e1 with SSelect => 0 | SDrain _ => 2 | _ => 1 end <= n)%nat →
    ∃ ls s' e', Forall (λ l, own_label i l = true) ls ∧ server_run ls s = Some s' ∧ server_ok s' ∧
      s_entries s' !! i = Some e' ∧ e_ch e' = [] ∧ e_pc e' = SSelect ∧ e_queued e' = e_queued e) as Hstep.
  { intros l f e1 Hl Hown Hf Hk Hpc1 Hq1 Hm.
    assert (server_exec l s = Some (set_entries (<[i := e1]> (s_entries s)) s)) as He.
    { rewrite Hl. unfold with_entry. rewrite Hi. simpl. by rewrite Hf. }
    destruct (IH (set_entries (<[i := e1]> (s_entries s)) s) e1) as (ls & s' & e' & H1 & H2 & H3 & H4 & H5 & H6 & H7).
    - done.
    - eapply with_entry_ok; [exact Hk|exact Hs|]. rewrite <- He. by symmetry.
    - simpl. by rewrite list_lookup_insert_eq by (by eapply lookup_lt_Some).
    - done.
    - exists (l :: ls), s', e'. split; [by constructor|]. split; [cbn [server_run]; by rewrite He|].
      split; [done|]. split; [done|]. split; [done|]. split; [done|]. by rewrite H7. }
  assert (stream_ok e) as Heok by (eapply Forall_lookup_1; [apply Hs|done]).
  pose proof (so_taken _ Heok) as Ht.
  destruct (e_pc e) as [|ids|ids|] eqn:Hp; [| | |done].
  - destruct (e_ch e) as [|tid ch] eqn:Hch; [by exists [], s, e|].
    eapply (Hstep (VTake i) take_id); [done|by apply bool_decide_eq_true_2|unfold take_id; by rewrite Hch, Hp|apply keeps_take| | |]; simpl; [done|done|].
    simpl in Hle. unfold drain. simpl. lia.
  - eapply (Hstep (VTimer i) timer_fires); [done|by apply bool_decide_eq_true_2|unfold timer_fires; by rewrite Hp|apply keeps_timer| | |]; simpl; [done|done|lia].
  - eapply (Hstep (VSend i true) send_batch); [|by apply bool_decide_eq_true_2|unfold send_batch; by rewrite Hp|apply keeps_send| | |]; simpl; [|done|done|lia].
    unfold with_entry. rewrite Hi. simpl. unfold send_batch. by rewrite Hp.
Qed.

(** C15: [Broadcast] offers the id to every connected stream and to no other:
    whatever the iteration order of the map, each stream that has room gets it
    at the end of its queue, and each one that has not is counted. Nothing
    blocks, and nothing else changes. *)
Theorem Broadcast_spec tid order s :
  server_reachable s → order ≡ₚ (map_to_list (s_streams s)).*2 →
  let s' := Broadcast tid order s in
  (∀ i, s_entries s' !! i =
     (λ e, if registered s i && has_room e then push tid e else e) <$> s_entries s !! i) ∧
  s_droppedSends s' = s_droppedSends s + len (without_room s order) ∧
  s_streams s' = s_streams s ∧ s_sendErrors s' = s_sendErrors s ∧ s_notified s' = s_notified s.
Proof.
  intros Hs Ho s'. apply server_reachable_ok in Hs.
  assert (NoDup order) as Hnd by (rewrite Ho; by apply registered_nodup).
  destruct (Broadcast_entries tid order s Hnd) as (He & Hr). split; [|split; [by apply Broadcast_dropped|done]].
  intros i. subst s'. rewrite He. unfold registered.
  by rewrite (bool_decide_ext (i ∈ order) (i ∈ (map_to_list (s_streams s)).*2)) by (by rewrite Ho).
Qed.

(** C16: every stream is a queue. What was broadcast to it while it had room is,
    in order and once each, what was sent in batches, what the sender has taken,
    and what waits in the channel. A batch has at least one id and at most
    [maxBatchSize], the channel at most its capacity; and a stream whose
    [Connect] call ends is no longer registered. *)
Theorem stream_fifo s i e :
  server_reachable s → s_entries s !! i = Some e →
  e_queued e = mjoin (e_sent e) ++ e_held e ++ taken (e_pc e) ++ e_ch e ∧
  Forall (λ b, 0 < len b <= maxBatchSize) (e_sent e) ∧
  len (taken (e_pc e)) <= maxBatchSize ∧ len (e_ch e) <= entry_cap ∧
  (e_removed e = true → registered s i = false).
Proof.
  intros Hs Hi. apply server_reachable_ok in Hs.
  assert (stream_ok e) as [Hf Hc Hb Ht Hr Hhd Hd] by (eapply Forall_lookup_1; [apply Hs|done]).
  split; [by rewrite Hf, <- app_assoc|]. split; [done|].
  split; [destruct (e_pc e); simpl; unfold maxBatchSize in *; lia|]. split; [done|]. intros Hrem.
  apply bool_decide_eq_false_2. intros Hin. destruct (order_streams s _ i (Permutation_refl _) Hin) as [id Hid].
  destruct (vo_streams _ Hs _ _ Hid) as (e' & He' & _ & Hrem'). congruence.
Qed.

(** C33: the accounting of losses. The counter of dropped sends is the number of
    times a channel was full plus what the senders that have returned left in
    their channels. What a sender had taken into an unfinished batch when it saw
    its stream end is lost as well, up to [maxBatchSize - 1] ids, and not
    counted. *)
Theorem drops_counted s :
  server_reachable s →
  s_droppedSends s = s_missed s + total_left (s_entries s) ∧
  ∀ i e, s_entries s !! i = Some e → e_pc e = SReturned →
    e_queued e = mjoin (e_sent e) ++ e_held e ++ e_left e ∧ len (e_held e) < maxBatchSize.
Proof.
  intros Hs%server_reachable_ok. split; [apply Hs|]. intros i e Hi Hpc.
  assert (stream_ok e) as [Hf Hc Hb Ht Hr Hhd Hd] by (eapply Forall_lookup_1; [apply Hs|done]).
  rewrite Hpc in Hf, Hr. destruct Hr as [_ ->]. split; [|done]. rewrite Hf. simpl. by rewrite app_nil_r.
Qed.

(** A sender is never stuck. From any state in which it has not returned it
    can, by its own steps, send everything that was put into its channel. *)
Theorem sender_drains s i e :
  server_reachable s → s_entries s !! i = Some e → e_pc e ≠ SReturned →
  ∃ ls s' e', Forall (λ l, own_label i l = true) ls ∧ server_run ls s = Some s' ∧
    s_entries s' !! i = Some e' ∧ mjoin (e_sent e') = e_queued e ∧ e_pc e' = SSelect ∧ e_ch e' = [].
Proof.
  intros Hs%server_reachable_ok Hi Hpc.
  destruct (sender_run i s e Hs Hi Hpc) as (ls & s' & e' & H1 & H2 & H3 & H4 & H5 & H6 & H7).
  exists ls, s', e'. split; [done|]. split; [done|]. split; [done|]. split; [|done].
  assert (stream_ok e') as [Hf Hc Hb Ht Hr Hhd Hd] by (eapply Forall_lookup_1; [apply H3|done]).
  rewrite H6 in Hr. destruct Hr as [Hh _]. by rewrite <- H7, Hf, H5, H6, Hh, !app_nil_r.
Qed.

(** *** Two streams, of which one disconnects with an id in its batch *)
Definition demo_tid (n : byte) : bytes := n :: replicate 15 x01.

Definition demo_labels : list server_label :=
  [VConnect "a"; VConnect "b"; VRecv 0 (Some (demo_tid x0a)); VBroadcast (demo_tid x0a) [0%nat; 1%nat];
   VTake 0; VTake 1; VBroadcast (demo_tid x0b) [1%nat; 0%nat]; VTake 0; VTimer 0; VSend 0 true;
   VRemove 1; VDone 1; VStop 1].

Definition demo_server (ls : list server_label) : Server := default new_server (server_run ls new_server).

Lemma demo_server_reachable ls : is_Some (server_run ls new_server) → server_reachable (demo_server ls).
Proof.
  intros [s Hs]. apply (server_run_reachable ls new_server); [unfold demo_server; by rewrite Hs|constructor].
Qed.

Lemma Broadcast_spec_witness :
  let s := demo_server (take 2 demo_labels) in
  let s' := Broadcast (demo_tid x0a) [1%nat; 0%nat] s in
  (∀ i, s_entries s' !! i =
     (λ e, if registered s i && has_room e then push (demo_tid x0a) e else e) <$> s_entries s !! i) ∧
  s_droppedSends s' = s_droppedSends s + len (without_room s [1%nat; 0%nat]) ∧
  s_streams s' = s_streams s ∧ s_sendErrors s' = s_sendErrors s ∧ s_notified s' = s_notified s.
Proof.
  apply (Broadcast_spec (demo_tid x0a) [1%nat; 0%nat] (demo_server (take 2 demo_labels))).
  - apply demo_server_reachable. vm_compute. by eexists.
  - vm_compute. first [reflexivity|apply Permutation_swap].
Defined.

Lemma demo_run_ok : server_reachable (demo_server demo_labels).
Proof. apply demo_server_reachable. vm_compute. by eexists. Qed.

Lemma stream_fifo_witness :
  ∃ e, s_entries (demo_server demo_labels) !! 0%nat = Some e ∧ e_sent e = [[demo_tid x0a; demo_tid x0b]] ∧
    e_queued e = mjoin (e_sent e) ++ e_held e ++ taken (e_pc e) ++ e_ch e.
Proof.
  eexists. split; [vm_compute; reflexivity|]. split; [vm_compute; reflexivity|].
  exact (proj1 (stream_fifo (demo_server demo_labels) 0 _ demo_run_ok ltac:(vm_compute; reflexivity))).
Defined.

(** One id is counted, the other is not. *)
Lemma drops_counted_witness :
  s_droppedSends (demo_server demo_labels) = 1 ∧
  ∃ e, s_entries (demo_server demo_labels) !! 1%nat = Some e ∧ len (e_queued e) = 2 ∧ e_sent e = [] ∧
    e_queued e = mjoin (e_sent e) ++ e_held e ++ e_left e.
Proof.
  split; [vm_compute; reflexivity|]. eexists. split; [vm_compute; reflexivity|].
  split; [vm_compute; reflexivity|]. split; [vm_compute; reflexivity|].
  destruct (drops_counted (demo_server demo_labels) demo_run_ok) as [_ H].
  exact (proj1 (H 1%nat _ ltac:(vm_compute; reflexivity) eq_refl)).
Defined.

Lemma sender_drains_witness :
  ∃ ls s' e', Forall (λ l, own_label 1 l = true) ls ∧ server_run ls (demo_server (take 8 demo_labels)) = Some s' ∧
    s_entries s' !! 1%nat = Some e' ∧ mjoin (e_sent e') = [demo_tid x0a; demo_tid x0b].
Proof.
  assert (server_reachable (demo_server (take 8 demo_labels))) as Hr
    by (apply demo_server_reachable; vm_compute; by eexists).
  assert (∃ e, s_entries (demo_server (take 8 demo_labels)) !! 1%nat = Some e ∧ e_pc e ≠ SReturned ∧
    e_queued e = [demo_tid x0a; demo_tid x0b]) as (e & He & Hpc & Hq)
    by (eexists; split; [vm_compute; reflexivity|by split]).
  destruct (sender_drains _ 1 e Hr He Hpc) as (ls & s' & e' & H1 & H2 & H3 & H4 & _).
  exists ls, s', e'. rewrite <- Hq. by split.
Defined.
