(* ===== verification/Streams.v ===== *)
(** * What the transitions of the server add to its streams

    Lemmas for the models that have a server among other components: what each
    transition of Server.v adds to the histories of each stream. *)

From S2P Require Import Prelude Bytes Server.

Lemma sublist_join {A} (l k : list (list A)) : l `sublist_of` k → mjoin l `sublist_of` mjoin k.
Proof.
  induction 1 as [|x l k _ IH|x l k _ IH]; simpl; [done| |].
  - by apply sublist_app.
  - by apply sublist_inserts_l.
Qed.

(** The identifiers a transition offers to the streams. *)
Definition label_ids (sl : server_label) : list bytes :=
  match sl with VBroadcast tid _ => [tid] | _ => [] end.

(** What a transition adds to stream [j]. *)
Definition grows (sl : server_label) (j : nat) (e e' : stream) : Prop :=
  e_sent e' = e_sent e ++ (match sl with VSend i _ => if decide (i = j) then [taken (e_pc e)] else [] | _ => [] end)
  ∧ ∃ q, e_queued e' = e_queued e ++ q ∧ q `sublist_of` label_ids sl.

Lemma grows_same sl j e e' :
  (∀ b, sl ≠ VSend j b) → e_sent e' = e_sent e → e_queued e' = e_queued e → grows sl j e e'.
Proof.
  unfold grows. intros Hne -> ->. split.
  - destruct sl as [| | | | | | |i b|]; try (by rewrite app_nil_r). rewrite decide_False by naive_solver. by rewrite app_nil_r.
  - exists []. split; [by rewrite app_nil_r|apply sublist_nil_l].
Qed.

(** A step that changes stream [i] only. *)
Lemma grows_insert sl s l i x x' j e e' :
  l = <[i := x']> (s_entries s) → s_entries s !! i = Some x → s_entries s !! j = Some e → l !! j = Some e' →
  (i ≠ j → ∀ b, sl ≠ VSend j b) → grows sl i x x' → grows sl j e e'.
Proof.
  intros -> Hi Hj Hj' Hne Hg. apply list_lookup_insert_Some in Hj' as [(-> & -> & _)|[Hij Hj']]; [congruence|].
  simplify_eq. apply grows_same; auto.
Qed.

Lemma with_entry_inv i f s s' :
  with_entry i f s = Some s' →
  ∃ x x', s_entries s !! i = Some x ∧ f x = Some x' ∧ s' = set_entries (<[i := x']> (s_entries s)) s.
Proof.
  unfold with_entry. destruct (s_entries s !! i) as [x|]; [|done]. cbn [mbind option_bind].
  destruct (f x) as [x'|] eqn:E; [|done]. intros [= <-]. by exists x, x'.
Qed.

Lemma offer_length tid s i : length (s_entries (offer tid s i)) = length (s_entries s).
Proof. unfold offer. repeat case_match; simpl; by rewrite ?length_insert. Qed.

Lemma Broadcast_length tid order s : length (s_entries (Broadcast tid order s)) = length (s_entries s).
Proof.
  unfold Broadcast. revert s. induction order as [|i order IH]; intros s; [done|]. simpl. by rewrite IH, offer_length.
Qed.

Lemma order_nodup s order : server_ok s → order ≡ₚ (map_to_list (s_streams s)).*2 → NoDup order.
Proof. intros Hs ->. by apply registered_nodup. Qed.

Lemma step_grows sl s s' j e e' :
  server_ok s → server_exec sl s = Some s' → s_entries s !! j = Some e → s_entries s' !! j = Some e' → grows sl j e e'.
Proof.
  intros Hs He Hj Hj'. destruct sl as [id|i notify|i|i|tid order|i|i|i ok|i]; cbn [server_exec] in He.
  - simplify_eq/=. rewrite lookup_app_l in Hj' by (by eapply lookup_lt_Some). simplify_eq. by apply grows_same.
  - exec_inv He. destruct notify; simplify_eq/=; by apply grows_same.
  - exec_inv He. eapply (grows_insert _ s _ i); [reflexivity|eassumption|exact Hj|exact Hj'|done|by apply grows_same].
  - apply with_entry_inv in He as (x & x' & Hx & Hf & ->). eapply (grows_insert _ s _ i); [reflexivity|exact Hx|exact Hj|exact Hj'|done|].
    repeat case_match; simplify_eq. by apply grows_same.
  - case_decide as Ho; [|done]. simplify_eq. pose proof (order_nodup _ _ Hs Ho) as Hnd.
    rewrite (proj1 (Broadcast_entries tid order s Hnd) j), Hj in Hj'. simpl in Hj'. simplify_eq.
    destruct (bool_decide (j ∈ order) && has_room e); (split; simpl; [by rewrite app_nil_r|]);
      [by exists [tid]|exists []; rewrite app_nil_r; split; [done|apply sublist_nil_l]].
  - apply with_entry_inv in He as (x & x' & Hx & Hf & ->). eapply (grows_insert _ s _ i); [reflexivity|exact Hx|exact Hj|exact Hj'|done|].
    unfold take_id in Hf. repeat case_match; simplify_eq; by apply grows_same.
  - apply with_entry_inv in He as (x & x' & Hx & Hf & ->). eapply (grows_insert _ s _ i); [reflexivity|exact Hx|exact Hj|exact Hj'|done|].
    unfold timer_fires in Hf. repeat case_match; simplify_eq; by apply grows_same.
  - destruct (with_entry i send_batch s) as [s1|] eqn:Hw; [|done]. cbn [mbind option_bind] in He.
    apply with_entry_inv in Hw as (x & x' & Hx & Hf & ->).
    eapply (grows_insert _ s (s_entries s') i x x' j); [by destruct ok; simplify_eq|exact Hx|exact Hj|exact Hj'|naive_solver|].
    unfold send_batch in Hf. destruct (e_pc x) eqn:Hpc; simplify_eq. split; simpl.
    + by rewrite decide_True, Hpc.
    + exists []. split; [by rewrite app_nil_r|apply sublist_nil_l].
  - destruct (s_entries s !! i) as [x|] eqn:Hx; [|done]. cbn [mbind option_bind] in He.
    destruct (with_entry i stop s) as [s1|] eqn:Hw; [|done]. cbn [mbind option_bind] in He. simplify_eq.
    apply with_entry_inv in Hw as (y & y' & Hy & Hf & ->). eapply (grows_insert _ s _ i); [reflexivity|exact Hy|exact Hj|exact Hj'|done|].
    unfold stop in Hf. repeat case_match; simplify_eq; by apply grows_same.
Qed.

Lemma server_length sl s s' :
  server_exec sl s = Some s' →
  length (s_entries s') = (length (s_entries s) + match sl with VConnect _ => 1 | _ => 0 end)%nat.
Proof.
  intros He. destruct sl as [id|i notify|i|i|tid order|i|i|i ok|i]; cbn [server_exec] in He; rewrite ?Nat.add_0_r.
  - simplify_eq/=. by rewrite length_app.
  - exec_inv He. destruct notify; by simplify_eq/=.
  - exec_inv He. simpl. by rewrite length_insert.
  - apply with_entry_inv in He as (x & x' & _ & _ & ->). simpl. by rewrite length_insert.
  - case_decide; [|done]. simplify_eq. apply Broadcast_length.
  - apply with_entry_inv in He as (x & x' & _ & _ & ->). simpl. by rewrite length_insert.
  - apply with_entry_inv in He as (x & x' & _ & _ & ->). simpl. by rewrite length_insert.
  - destruct (with_entry i send_batch s) as [s1|] eqn:Hw; [|done]. cbn [mbind option_bind] in He.
    apply with_entry_inv in Hw as (x & x' & _ & _ & ->). destruct ok; simplify_eq/=; by rewrite length_insert.
  - exec_inv He. apply with_entry_inv in E0 as (x & x' & _ & _ & ->). simpl. by rewrite length_insert.
Qed.

Lemma entry_before sl s s' j e' :
  server_ok s → server_exec sl s = Some s' → s_entries s' !! j = Some e' →
  (∃ e, s_entries s !! j = Some e ∧ grows sl j e e') ∨
  (∃ id, sl = VConnect id ∧ j = length (s_entries s) ∧ e' = new_stream id).
Proof.
  intros Hs He Hj'. destruct (s_entries s !! j) as [e|] eqn:Hj.
  { left. exists e. split; [done|]. by eapply step_grows. }
  right. apply lookup_ge_None in Hj. pose proof (lookup_lt_Some _ _ _ Hj') as Hlt.
  rewrite (server_length _ _ _ He) in Hlt. destruct sl; try lia. exists id.
  cbn [server_exec] in He. simplify_eq/=. assert (j = length (s_entries s)) as -> by lia.
  rewrite lookup_app_r, Nat.sub_diag in Hj' by lia. by simplify_eq/=.
Qed.


(** A stream that has ended stays so. *)
Lemma done_insert (l : list stream) i x x' j e e' :
  l !! i = Some x → l !! j = Some e → <[i := x']> l !! j = Some e' → e_done e = true →
  (e_done x = true → e_done x' = true) → e_done e' = true.
Proof. intros Hi Hj [(<- & <- & _)|[_ Hj']]%list_lookup_insert_Some He Hx; simplify_eq; auto. Qed.

Lemma step_done sl s s' j e e' :
  server_ok s → server_exec sl s = Some s' → s_entries s !! j = Some e → s_entries s' !! j = Some e' →
  e_done e = true → e_done e' = true.
Proof.
  intros Hs He Hj Hj' Hd. destruct sl as [id|i notify|i|i|tid order|i|i|i ok|i]; cbn [server_exec] in He.
  - simplify_eq/=. rewrite lookup_app_l in Hj' by (by eapply lookup_lt_Some). by simplify_eq.
  - exec_inv He. destruct notify; by simplify_eq/=.
  - exec_inv He. eapply done_insert; [exact E|exact Hj|exact Hj'|exact Hd|done].
  - apply with_entry_inv in He as (x & x' & Hx & Hf & ->). eapply done_insert; [exact Hx|exact Hj|exact Hj'|exact Hd|].
    repeat case_match; simplify_eq; simpl; auto.
  - case_decide as Ho; [|done]. simplify_eq. pose proof (order_nodup _ _ Hs Ho) as Hnd.
    rewrite (proj1 (Broadcast_entries tid order s Hnd) j), Hj in Hj'. simpl in Hj'. simplify_eq. by case_match.
  - apply with_entry_inv in He as (x & x' & Hx & Hf & ->). eapply done_insert; [exact Hx|exact Hj|exact Hj'|exact Hd|].
    unfold take_id in Hf. repeat case_match; simplify_eq; simpl; auto.
  - apply with_entry_inv in He as (x & x' & Hx & Hf & ->). eapply done_insert; [exact Hx|exact Hj|exact Hj'|exact Hd|].
    unfold timer_fires in Hf. repeat case_match; simplify_eq; simpl; auto.
  - destruct (with_entry i send_batch s) as [s1|] eqn:Hw; [|done]. cbn [mbind option_bind] in He.
    apply with_entry_inv in Hw as (x & x' & Hx & Hf & ->).
    eapply (done_insert (s_entries s) i x x'); [exact Hx|exact Hj|by destruct ok; simplify_eq|exact Hd|].
    unfold send_batch in Hf. repeat case_match; simplify_eq; simpl; auto.
  - destruct (s_entries s !! i) as [x|] eqn:Hx; [|done]. cbn [mbind option_bind] in He.
    destruct (with_entry i stop s) as [s1|] eqn:Hw; [|done]. cbn [mbind option_bind] in He. simplify_eq.
    apply with_entry_inv in Hw as (y & y' & Hy & Hf & ->). eapply done_insert; [exact Hy|exact Hj|exact Hj'|exact Hd|].
    unfold stop in Hf. repeat case_match; simplify_eq; simpl; auto.
Qed.
