(* ===== verification/PubSub.v ===== *)
(** * The coordinator's backends for deduplication

    coordinator/memory/pubsub.go and coordinator/redis/pubsub.go, from [New] to
    [Close], and the closure main.go passes to the server. What they store keys in (go-cache, a
    Redis server) is a parameter, with the documented behaviour of adding a key
    that is not there and lives for a time as a class of laws. A Go string is
    its bytes. *)

From S2P Require Import Prelude Bytes.
From Stdlib Require Strings.String.

(** ** The store *)

(** The answers of Redis to [SET key 1 NX PX ttl]: the status string, [redis.Nil],
    or another error. go-cache's [Add] answers [ROk] for a nil error. *)
Inductive setResult := ROk | ROther | RNil | RErr.

#[global] Instance setResult_eq_dec : EqDecision setResult.
Proof. solve_decision. Defined.

Class KeyStore := {
  Store : Type;
  store_SetNX : bytes → Duration → Time → Store → setResult * Store;
  (* whether the store holds the key at a time *)
  store_live : bytes → Time → Store → bool;
}.

(** Documented: the key is added if and only if it is not there, it stays for
    its time to live and no longer, and other keys are not touched. A store may
    fail ([RErr]), without adding. *)
Class KeyStoreOk (K : KeyStore) := {
  store_present : ∀ k ttl now s, store_live k now s = true →
    (store_SetNX k ttl now s).1 ∈ [RNil; RErr];
  store_absent : ∀ k ttl now s, store_live k now s = false →
    (store_SetNX k ttl now s).1 ∈ [ROk; RErr];
  store_added : ∀ k ttl now s t, (store_SetNX k ttl now s).1 = ROk → now <= t < now + ttl →
    store_live k t (store_SetNX k ttl now s).2 = true;
  store_expired : ∀ k ttl now s t, (store_SetNX k ttl now s).1 = ROk → now + ttl < t →
    store_live k t (store_SetNX k ttl now s).2 = false;
  store_other : ∀ k k' ttl now s t, now <= t → k ≠ k' ∨ (store_SetNX k ttl now s).1 ≠ ROk →
    store_live k' t (store_SetNX k ttl now s).2 = store_live k' t s;
}.

(** ** Hexadecimal: fmt's [%x] for bytes, hex.EncodeToString *)

Definition hex_digit (n : Z) : byte := byte_of_Z (if n <? 10 then 48 + n else 87 + n).

Definition hex_byte (b : byte) : bytes := [hex_digit (Z_of_byte b / 16); hex_digit (Z_of_byte b mod 16)].

Fixpoint hex_encode (l : bytes) : bytes :=
  match l with [] => [] | b :: l => hex_byte b ++ hex_encode l end.

(** What a reader of the text makes of it. *)
Definition unhex_digit (c : byte) : option Z :=
  let z := Z_of_byte c in
  if (48 <=? z) && (z <=? 57) then Some (z - 48)
  else if (97 <=? z) && (z <=? 102) then Some (z - 87)
  else None.

Fixpoint hex_decode (l : bytes) : option bytes :=
  match l with
  | [] => Some []
  | [_] => None
  | h :: l :: rest =>
      hi ← unhex_digit h; lo ← unhex_digit l; bs ← hex_decode rest; Some (byte_of_Z (16 * hi + lo) :: bs)
  end.

Lemma hex_decode_byte b rest :
  hex_decode (hex_byte b ++ rest) = (bs ← hex_decode rest; Some (b :: bs)).
Proof. by destruct b. Qed.

Lemma hex_decode_encode l : hex_decode (hex_encode l) = Some l.
Proof.
  induction l as [|b l IH]; [done|]. cbn [hex_encode]. rewrite hex_decode_byte, IH. done.
Qed.

#[export] Instance hex_encode_inj : Inj (=) (=) hex_encode.
Proof. intros l k E. apply (inj Some). by rewrite <- (hex_decode_encode l), E, hex_decode_encode. Qed.

(** ** redis *)

Section pubsub.
Context `{K : KeyStore}.

(** [decidedKeyFmt] *)
Definition decidedKeyPrefix : bytes := String.list_byte_of_string "retrosampling:decided:".
Definition decidedKey (traceID : bytes) : bytes := decidedKeyPrefix ++ hex_encode traceID.

Lemma decidedKey_inj t t' : decidedKey t = decidedKey t' → t = t'.
Proof. unfold decidedKey. intros E. apply (inj (decidedKeyPrefix ++.)) in E. by apply (inj hex_encode) in E. Qed.

Inductive publishError := ErrSet | ErrPublish.

(** [Publish] of redis: whether the id is new, the error, what is published on
    the channel, and the store afterwards. [published] is whether the PUBLISH
    command succeeds. *)
Definition redis_Publish (ttl : Duration) (published : bool) (now : Time) (traceID : bytes) (s : Store)
    : bool * option publishError * list bytes * Store :=
  let '(r, s) := store_SetNX (decidedKey traceID) ttl now s in
  match r with
  | RNil => (false, None, [], s)
  | RErr => (false, Some ErrSet, [], s)
  | ROther => (false, None, [], s)
  | ROk => if published then (true, None, [traceID], s) else (true, Some ErrPublish, [], s)
  end.

(** [receive]: the messages of the subscription, nil ones included, and the
    calls of the handler. *)
Definition receive (msgs : list (option bytes)) : list bytes := omap id msgs.

(** *** The life of the backend

    The clients are pointers: without a replica both are the same. [r_closes]
    are the calls of [Close] of a client, and [r_got] and [r_handled], histories,
    the messages the goroutine [receive] took and the calls of its handler. *)
Record redisPubSub := MkRedis {
  r_writeClient : nat;
  r_readClient : nat;
  r_closes : list nat;
  r_cancelled : bool;
  r_receiving : bool;
  r_got : list (option bytes);
  r_handled : list bytes;
}.

(** [New], with a replica or without. *)
Definition new_redis (replica : bool) : redisPubSub :=
  MkRedis 0%nat (if replica then 1%nat else 0%nat) [] false true [] [].

(** [Close]: the clients that fail to close are joined to the error. *)
Definition redis_Close (fails : nat → bool) (r : redisPubSub) : list nat * redisPubSub :=
  let closed := r_writeClient r :: if decide (r_readClient r = r_writeClient r) then [] else [r_readClient r] in
  (filter (λ c, fails c = true) closed,
   MkRedis (r_writeClient r) (r_readClient r) (r_closes r ++ closed) true (r_receiving r) (r_got r) (r_handled r)).

Inductive redis_label :=
| RMessage (msg : option bytes)      (* from the subscription's channel; nil when that is closed *)
| RDone                              (* ctx.Done *)
| RClose (fails : nat → bool).

Definition redis_exec (l : redis_label) (r : redisPubSub) : option redisPubSub :=
  match l with
  | RMessage msg =>
      if r_receiving r then
        Some (MkRedis (r_writeClient r) (r_readClient r) (r_closes r) (r_cancelled r) true (r_got r ++ [msg])
                (r_handled r ++ match msg with Some payload => [payload] | None => [] end))
      else None
  | RDone =>
      if r_receiving r && r_cancelled r then
        Some (MkRedis (r_writeClient r) (r_readClient r) (r_closes r) true false (r_got r) (r_handled r))
      else None
  | RClose fails => Some (redis_Close fails r).2
  end.

Fixpoint redis_run (ls : list redis_label) (r : redisPubSub) : option redisPubSub :=
  match ls with [] => Some r | l :: ls => r' ← redis_exec l r; redis_run ls r' end.

(** ** memory *)

(** [Close] of memory. *)
Definition memory_Close {E} : option E := None.

(** [Publish] of memory: whether the id is new, and the calls of the handler. *)
Definition memory_Publish (ttl : Duration) (now : Time) (traceID : bytes) (s : Store)
    : bool * option publishError * list bytes * Store :=
  let '(r, s) := store_SetNX traceID ttl now s in
  match r with
  | ROk => (true, None, [traceID], s)
  | _ => (false, None, [], s)
  end.

(** ** The closure of main: [onNotify] *)

Record notifyState := MkNotify {
  n_store : Store;
  n_interestingTraces : Z;
  n_out : list bytes;   (* what went to the handler, or to the Redis channel *)
}.

(** [done] is [ctx.Err() != nil]. *)
Definition onNotify (done : bool)
    (Publish : Time → bytes → Store → bool * option publishError * list bytes * Store)
    (now : Time) (traceID : bytes) (n : notifyState) : notifyState :=
  if done then n
  else
    let '(novel, err, out, s) := Publish now traceID (n_store n) in
    MkNotify s (n_interestingTraces n + match err with Some _ => 0 | None => if novel then 1 else 0 end)
      (n_out n ++ out).

(** ** What deduplication means

    A backend is a [Publish] function with a key for each identifier. *)
Definition backend := Time → bytes → Store → bool * option publishError * list bytes * Store.

Definition out_of (r : bool * option publishError * list bytes * Store) : list bytes := r.1.2.
Definition store_of (r : bool * option publishError * list bytes * Store) : Store := r.2.

(** The runs of a backend over the notifications that arrive: for each, when
    and for which trace, and whether the handler was called. *)
Fixpoint publish_all (P : backend) (l : list (Time * bytes)) (s : Store) : list bool :=
  match l with
  | [] => []
  | (now, tid) :: l => bool_decide (out_of (P now tid s) ≠ []) :: publish_all P l (store_of (P now tid s))
  end.

(** For each notification, whether the backend found the trace to be new. *)
Fixpoint found_all (P : backend) (l : list (Time * bytes)) (s : Store) : list bool :=
  match l with
  | [] => []
  | (now, tid) :: l => (P now tid s).1.1.1 :: found_all P l (store_of (P now tid s))
  end.

(** The two backends; [published] says which PUBLISH commands succeed. *)
Inductive kind := Memory | Redis.
Definition key_of (k : kind) : bytes → bytes := match k with Memory => id | Redis => decidedKey end.
Definition backend_of (k : kind) (ttl : Duration) (published : Time → bytes → bool) : backend :=
  match k with
  | Memory => memory_Publish ttl
  | Redis => λ now tid, redis_Publish ttl (published now tid) now tid
  end.

(** Whether an id found to be new goes out. *)
Definition goes_out (k : kind) (published : Time → bytes → bool) (now : Time) (tid : bytes) : bool :=
  match k with Memory => true | Redis => published now tid end.

Lemma key_of_inj k t t' : key_of k t = key_of k t' → t = t'.
Proof. destruct k; [done|]. apply decidedKey_inj. Qed.

Lemma backend_spec k ttl published now tid s :
  let r := store_SetNX (key_of k tid) ttl now s in
  store_of (backend_of k ttl published now tid s) = r.2 ∧
  (backend_of k ttl published now tid s).1.1.1 = bool_decide (r.1 = ROk) ∧
  bool_decide (out_of (backend_of k ttl published now tid s) ≠ []) =
    bool_decide (r.1 = ROk) && goes_out k published now tid.
Proof.
  destruct k; simpl; unfold memory_Publish, redis_Publish, store_of, out_of, id;
    destruct (store_SetNX _ _ _ _) as [[] s']; try done; by destruct (published now tid).
Qed.
(** Either backend publishes the id it is given, or nothing. *)
Lemma backend_own k ttl published now tid s : out_of (backend_of k ttl published now tid s) ⊆+ [tid].
Proof.
  destruct k; simpl; unfold memory_Publish, redis_Publish, out_of;
    destruct (store_SetNX _ _ _ _) as [[] s']; try destruct (published now tid); simpl; try done;
    apply submseteq_nil_l.
Qed.
End pubsub.

(** ** The theorem *)
Section dedup.
Context `{K : KeyStore} {HK : KeyStoreOk K}.
Variable kd : kind.
Variable ttl : Duration.
Variable published : Time → bytes → bool.
Hypothesis Httl : 0 < ttl.

Abbreviation P := (backend_of kd ttl published).
Abbreviation key := (key_of kd).

Lemma publish_all_cons now tid l s :
  publish_all P ((now, tid) :: l) s =
    (bool_decide ((store_SetNX (key tid) ttl now s).1 = ROk) && goes_out kd published now tid) ::
    publish_all P l (store_SetNX (key tid) ttl now s).2.
Proof. simpl. by destruct (backend_spec kd ttl published now tid s) as (-> & _ & ->). Qed.

Lemma found_all_cons now tid l s :
  found_all P ((now, tid) :: l) s =
    bool_decide ((store_SetNX (key tid) ttl now s).1 = ROk) ::
    found_all P l (store_SetNX (key tid) ttl now s).2.
Proof. simpl. by destruct (backend_spec kd ttl published now tid s) as (-> & -> & _). Qed.

(** What is handed on was found to be new. *)
Lemma published_found l s j : publish_all P l s !! j = Some true → found_all P l s !! j = Some true.
Proof.
  revert s j. induction l as [|[now tid] l IH]; intros s j; [done|].
  rewrite publish_all_cons, found_all_cons. destruct j as [|j]; simpl; [|apply IH].
  by intros [= [-> _]%andb_true_iff].
Qed.

(** While a key lives, its trace is not found to be new. *)
Lemma silent l s cur until tid j now :
  StronglySorted Z.le (cur :: l.*1) → (∀ t, cur <= t < until → store_live (key tid) t s = true) →
  l !! j = Some (now, tid) → now < until → found_all P l s !! j = Some false.
Proof.
  revert s cur j. induction l as [|[now' tid'] l IH]; intros s cur j Hs Hlive Hj Hu; [done|].
  rewrite found_all_cons. apply StronglySorted_cons in Hs as [Hall Hs]. simpl in Hs, Hall.
  apply Forall_cons in Hall as [Hcur Hall].
  assert (now' < until → tid' = tid → (store_SetNX (key tid') ttl now' s).1 ≠ ROk) as Hpres.
  { intros Hlt ->. pose proof (store_present (key tid) ttl now' s (Hlive now' ltac:(lia))) as Hp.
    intros E. rewrite E in Hp. set_solver. }
  destruct j as [|j]; simpl in *; simplify_eq.
  { f_equal. apply bool_decide_eq_false_2. by apply Hpres. }
  eapply (IH _ now'); [done| |done|done]. intros t Ht. rewrite <- (Hlive t) by lia.
  apply store_other; [lia|]. destruct (decide (tid' = tid)) as [E|E]; [right; apply Hpres; [lia|done]|left].
  intros E'. by apply E, (key_of_inj kd).
Qed.

(** A key that has expired at a time stays so, unless it is set again. *)
Lemma absent l s tid j now :
  (∀ k t now' s, (store_SetNX k t now' s).1 ≠ RErr) → (∀ now tid, goes_out kd published now tid = true) →
  StronglySorted Z.le l.*1 → store_live (key tid) now s = false → l !! j = Some (now, tid) →
  (∀ i ti, (i < j)%nat → l !! i = Some (ti, tid) → publish_all P l s !! i = Some true → ti + ttl < now) →
  publish_all P l s !! j = Some true.
Proof.
  intros Herr Hpub. revert s j. induction l as [|[now' tid'] l IH]; intros s j Hs Hlive Hj Hold; [done|].
  rewrite publish_all_cons in *. rewrite Hpub, andb_true_r in *. simpl in Hs. apply StronglySorted_cons in Hs as [Hall Hs].
  destruct j as [|j]; simpl in *; simplify_eq.
  { f_equal. apply bool_decide_eq_true_2. pose proof (store_absent (key tid) ttl now s Hlive) as Ha.
    pose proof (Herr (key tid) ttl now s). set_solver. }
  assert (now' <= now) as Hle.
  { rewrite Forall_forall in Hall. apply Hall, list_elem_of_fmap. exists (now, tid).
    split; [done|]. by eapply list_elem_of_lookup_2. }
  apply IH; [done| |done|].
  - destruct (decide (key tid' = key tid ∧ (store_SetNX (key tid') ttl now' s).1 = ROk)) as [[E Ea]|E].
    + apply key_of_inj in E as ->. apply (store_expired (key tid) ttl now' s now Ea).
      apply (Hold 0%nat now'); [lia|done|]. simpl. by rewrite bool_decide_eq_true_2.
    + rewrite store_other; [done|lia|]. destruct (decide (key tid' = key tid)); [right|by left]. intros Ea. by apply E.
  - intros i ti Hi Hti Ho. apply (Hold (S i) ti); [lia|done|]. done.
Qed.

(** C17: deduplication. With either backend, over notifications that arrive in
    the order of time, whatever the store and the PUBLISH commands answer: once a
    trace was found to be new it is not found to be new again, and the handler is
    not called for it again, within the time to live (not even if its PUBLISH
    failed); and, as long as neither the store nor a PUBLISH fails, a trace is
    handled unless it was already handled within its time to live. *)
Theorem publish_dedup l s :
  StronglySorted Z.le l.*1 → (∀ k t, store_live k t s = false) →
  (∀ i j ti tj tid, (i < j)%nat → l !! i = Some (ti, tid) → l !! j = Some (tj, tid) →
     found_all P l s !! i = Some true → found_all P l s !! j = Some true → ti + ttl <= tj) ∧
  (∀ j, publish_all P l s !! j = Some true → found_all P l s !! j = Some true) ∧
  ((∀ k t now s, (store_SetNX k t now s).1 ≠ RErr) → (kd = Redis → ∀ now tid, published now tid = true) →
   ∀ j tj tid, l !! j = Some (tj, tid) →
     (∀ i ti, (i < j)%nat → l !! i = Some (ti, tid) → publish_all P l s !! i = Some true → ti + ttl < tj) →
     publish_all P l s !! j = Some true).
Proof.
  intros Hs Hempty. split; [|split; [by apply published_found|]].
  2:{ intros Herr Hpub j tj tid. apply absent; [done| |done|done].
      intros now tid'. unfold goes_out. destruct kd; [done|]. by apply Hpub. }
  clear Hempty. revert s. induction l as [|[now tid'] l IH]; intros s i j ti tj tid Hij Hi Hj Hoi Hoj; [done|].
  rewrite found_all_cons in Hoi, Hoj. simpl in Hs. pose proof Hs as [Hall Hs']%StronglySorted_cons.
  destruct i as [|i], j as [|j]; try lia; simpl in Hi, Hj, Hoi, Hoj.
  - simplify_eq. apply Z.nlt_ge. intros Hlt.
    apply bool_decide_eq_true in Hoi.
    rewrite (silent l _ ti (ti + ttl) tid j tj) in Hoj; [done|done| |done|done].
    intros t Ht. by apply store_added.
  - eapply (IH Hs' _ i j); try done. lia.
Qed.
End dedup.

(** The text of an identifier, in keys and logs, determines it: two lower
    case hexadecimal digits per byte, from which the bytes can be read back, so
    that different traces never share a Redis key. *)
Theorem hex_roundtrip :
  (∀ l, hex_decode (hex_encode l) = Some l ∧ len (hex_encode l) = 2 * len l) ∧
  ∀ t t', decidedKey t = decidedKey t' → t = t'.
Proof.
  split; [|apply decidedKey_inj]. intros l. split; [apply hex_decode_encode|].
  induction l as [|b l IH]; [done|]. cbn [hex_encode]. rewrite length_app. simpl in *. lia.
Qed.

(** ** The life of the Redis backend *)

Definition is_close (l : redis_label) : bool := match l with RClose _ => true | _ => false end.

Lemma redis_run_inv ls replica r :
  redis_run ls (new_redis replica) = Some r →
  r_handled r = receive (r_got r) ∧
  r_writeClient r = 0%nat ∧ r_readClient r = (if replica then 1%nat else 0%nat) ∧
  r_closes r = concat (replicate (length (filter (λ l, is_close l = true) ls))
                         (if replica then [0%nat; 1%nat] else [0%nat])) ∧
  r_cancelled r = existsb is_close ls ∧ (r_receiving r = false → r_cancelled r = true).
Proof.
  revert r. induction ls as [|l ls IH] using rev_ind; intros r Hr; [by simplify_eq/=; destruct replica|].
  assert (∃ r0, redis_run ls (new_redis replica) = Some r0 ∧ redis_exec l r0 = Some r) as (r0 & H0 & Hl).
  { clear IH. revert Hr. generalize (new_redis replica). induction ls as [|l' ls IHls]; intros r1; simpl.
    - destruct (redis_exec l r1) eqn:E; [|done]. intros [= <-]. by exists r1.
    - destruct (redis_exec l' r1); [apply IHls|done]. }
  destruct (IH _ H0) as (H1 & H2 & H3 & H4 & H5 & H6). clear IH Hr.
  rewrite filter_app, length_app, replicate_add, concat_app, existsb_app.
  destruct l as [msg| |fails]; cbn [redis_exec] in Hl.
  - destruct (r_receiving r0); [|done]. simplify_eq/=. rewrite app_nil_r, orb_false_r.
    unfold receive in *. rewrite omap_app, H1. by destruct msg.
  - destruct (r_receiving r0), (r_cancelled r0); simplify_eq/=. by rewrite app_nil_r, <- H5.
  - simplify_eq/=. rewrite H2, H3, H4, orb_true_r. by destruct replica.
Qed.

(** The subscription hands on the payloads it gets, in order, and skips nil
    messages. [Close] closes each client once, one if both are the same; it does
    not stop the goroutine at once, which can return from then on and not
    before, and hands on nothing afterwards. *)
Theorem redis_lifecycle ls replica r :
  redis_run ls (new_redis replica) = Some r →
  r_handled r = receive (r_got r) ∧
  (length (filter (λ l, is_close l = true) ls) = 1%nat → r_closes r = if replica then [0%nat; 1%nat] else [0%nat]) ∧
  (r_receiving r = true → is_Some (redis_exec RDone r) ↔ existsb is_close ls = true) ∧
  (r_receiving r = false → existsb is_close ls = true ∧ ∀ msg, redis_exec (RMessage msg) r = None).
Proof.
  intros (H1 & _ & _ & H4 & H5 & H6)%redis_run_inv. split; [done|]. split; [|split].
  - intros E. rewrite H4, E. by destruct replica.
  - intros Hr. cbn [redis_exec]. rewrite Hr, <- H5. destruct (r_cancelled r); simpl; split; try done; by intros [].
  - intros Hr. split; [rewrite <- H5; by apply H6|]. intros msg. cbn [redis_exec]. by rewrite Hr.
Qed.

Lemma redis_lifecycle_witness :
  ∃ r, redis_run [RMessage (Some [x0a]); RClose (λ _, false); RMessage None; RDone] (new_redis true) = Some r ∧
    r_handled r = [[x0a]] ∧ r_closes r = [0%nat; 1%nat] ∧ ∀ msg, redis_exec (RMessage msg) r = None.
Proof.
  eexists. split; [vm_compute; reflexivity|].
  match goal with |- context [redis_exec _ ?r] => set (r0 := r) end.
  assert (redis_run [RMessage (Some [x0a]); RClose (λ _, false); RMessage None; RDone] (new_redis true) = Some r0)
    as Hr by (vm_compute; reflexivity).
  destruct (redis_lifecycle _ _ _ Hr) as (H1 & H2 & _ & H4).
  split; [exact H1|]. split; [exact (H2 eq_refl)|]. exact (proj2 (H4 eq_refl)).
Defined.

(** ** A concrete store, for examples: keys with their expiry *)
Module Simple.
#[export] Instance store : KeyStore | 100 := {
  Store := gmap bytes Time;
  store_SetNX k ttl now s :=
    if (match s !! k with Some e => now <? e | None => false end) then (RNil, s)
    else (ROk, <[k := now + ttl]> s);
  store_live k t s := match s !! k with Some e => t <? e | None => false end;
}.

#[export] Instance store_ok : KeyStoreOk store.
Proof.
  split; simpl.
  - intros k ttl now s ->. set_solver.
  - intros k ttl now s ->. set_solver.
  - intros k ttl now s t. destruct (match s !! k with Some e => now <? e | None => false end); [done|]. simpl.
    intros _ Ht. rewrite lookup_insert_eq. apply Z.ltb_lt. lia.
  - intros k ttl now s t. destruct (match s !! k with Some e => now <? e | None => false end); [done|]. simpl.
    intros _ Ht. rewrite lookup_insert_eq. apply Z.ltb_ge. lia.
  - intros k k' ttl now s t Ht. destruct (match s !! k with Some e => now <? e | None => false end); simpl; [done|].
    intros [Hne|]; [by rewrite lookup_insert_ne|done].
Qed.
End Simple.

Definition demo_notifications : list (Time * bytes) := [(1, [x0a]); (2, [x0b]); (4, [x0a]); (7, [x0a])].

(** Redis, with the first PUBLISH failing. *)
Lemma publish_dedup_witness :
  let published now (_ : bytes) := negb (now =? 1) in
  publish_all (K := Simple.store) (backend_of (K := Simple.store) Redis 5 published) demo_notifications ∅
    = [false; true; false; true] ∧
  1 + 5 <= 7.
Proof.
  assert (StronglySorted Z.le demo_notifications.*1) as Hs
    by (simpl; repeat match goal with |- StronglySorted _ _ => constructor | |- Forall _ _ => constructor | _ => lia end).
  assert (∀ k t, store_live (KeyStore := Simple.store) k t ∅ = false) as He by (intros; reflexivity).
  split; [vm_compute; reflexivity|].
  apply (proj1 (publish_dedup (HK := Simple.store_ok) Redis 5 (λ now _, negb (now =? 1)) eq_refl
    demo_notifications ∅ Hs He) 0%nat 3%nat 1 7 [x0a]);
    [lia|reflexivity|reflexivity|vm_compute; reflexivity|vm_compute; reflexivity].
Defined.
