(* ===== verification/Dedup.v ===== *)
(** * Deduplication over time

    The closure of main.go around a backend of PubSub.v, with a store that is
    used again and again: the memory of one coordinator, or a Redis that several
    share. [dd_log] is a history of what was found to be new: when, for how long
    and which identifier. *)

From S2P Require Import Prelude Bytes PubSub.

Section dedup.
Context `{K : KeyStore}.

Record dedup := MkDedup { dd_store : Store; dd_log : list (Time * Duration * bytes) }.

(** The identifiers in the log. *)
Definition logged (dd : dedup) : list bytes := (dd_log dd).*2.

Definition publisher (kd : kind) (ttl : Duration) (published : bool) : backend :=
  match kd with Memory => memory_Publish ttl | Redis => redis_Publish ttl published end.

(** One notification: what goes to the handler or to the channel, by how much the
    counter of interesting traces grows, and the store afterwards. *)
Definition dedup_notify (kd : kind) (ttl : Duration) (stopping published : bool) (now : Time) (tid : bytes)
    (dd : dedup) : list bytes * Z * dedup :=
  let P := publisher kd ttl published in
  let n := onNotify stopping P now tid (MkNotify (dd_store dd) 0 []) in
  let '(novel, _, _, _) := P now tid (dd_store dd) in
  (n_out n, n_interestingTraces n,
   MkDedup (n_store n) (dd_log dd ++ if negb stopping && novel then [(now, ttl, tid)] else [])).

(** What it does, case by case. *)
Lemma dedup_notify_cases kd ttl stopping published now tid dd :
  let r := store_SetNX (key_of kd tid) ttl now (dd_store dd) in
  dedup_notify kd ttl stopping published now tid dd =
    if stopping then ([], 0, MkDedup (dd_store dd) (dd_log dd ++ []))
    else if decide (r.1 = ROk) then
      match kd, published with
      | Redis, false => ([], 0, MkDedup r.2 (dd_log dd ++ [(now, ttl, tid)]))
      | _, _ => ([tid], 1, MkDedup r.2 (dd_log dd ++ [(now, ttl, tid)]))
      end
    else ([], 0, MkDedup r.2 (dd_log dd ++ [])).
Proof.
  unfold dedup_notify, onNotify. destruct kd; simpl; unfold memory_Publish, redis_Publish, id;
    destruct (store_SetNX _ _ _ _) as [[] s]; destruct stopping, published; done.
Qed.

(** What is handed on is what the log gets; all of it, with the memory. *)
Lemma dedup_notify_logged kd ttl stopping published now tid dd :
  let '(out, _, dd') := dedup_notify kd ttl stopping published now tid dd in
  ∃ l, logged dd' = logged dd ++ l ∧ out `sublist_of` l ∧ l `sublist_of` [tid] ∧ (kd = Memory → out = l).
Proof.
  rewrite dedup_notify_cases. unfold logged.
  destruct stopping; [|case_decide; [destruct kd, published|]]; simpl; rewrite fmap_app; eexists;
    (split; [done|]); split_and!; try done; repeat constructor.
Qed.
End dedup.

(** ** The invariant *)
Section invariant.
Context `{K : KeyStore} {HK : KeyStoreOk K}.
Variable kd : kind.

(** Two entries of a log for the same identifier are a time to live apart. *)
Definition apart (l : list (Time * Duration * bytes)) : Prop :=
  ∀ i j ti tj di dj tid, (i < j)%nat → l !! i = Some (ti, di, tid) → l !! j = Some (tj, dj, tid) → ti + di <= tj.

Record dedup_ok (now : Time) (dd : dedup) : Prop := {
  dk_live : ∀ t d tid u, (t, d, tid) ∈ dd_log dd → now <= u < t + d → store_live (key_of kd tid) u (dd_store dd) = true;
  dk_past : ∀ t d tid, (t, d, tid) ∈ dd_log dd → t <= now;
  dk_apart : apart (dd_log dd);
}.

Lemma dedup_ok_new now s : dedup_ok now (MkDedup s []).
Proof. split; simpl; [set_solver..|]. intros i j ti tj di dj tid _ Hi. done. Qed.

Lemma dedup_ok_later now now' dd : now <= now' → dedup_ok now dd → dedup_ok now' dd.
Proof.
  intros Hle [Hl Hp Ha]. split; [|intros t d tid Hin; specialize (Hp _ _ _ Hin); lia|done].
  intros t d tid u Hin Hu. apply (Hl t d); [done|lia].
Qed.

Lemma apart_snoc l t d tid :
  apart l → (∀ t' d', (t', d', tid) ∈ l → t' + d' <= t) → apart (l ++ [(t, d, tid)]).
Proof.
  intros Ha Hold i j ti tj di dj tid' Hij Hi Hj.
  apply lookup_app_Some in Hj as [Hj|[Hge Hj]].
  - rewrite lookup_app_l in Hi by (apply lookup_lt_Some in Hj; lia). by eapply (Ha i j).
  - apply list_lookup_singleton_Some in Hj as [Hj [= <- <- <-]]. rewrite lookup_app_l in Hi by lia.
    apply (Hold ti di). by eapply list_elem_of_lookup_2.
Qed.

Lemma dedup_notify_ok ttl stopping published now tid dd :
  dedup_ok now dd → dedup_ok now (dedup_notify kd ttl stopping published now tid dd).2.
Proof.
  intros [Hl Hp Ha]. pose proof (dedup_notify_cases kd ttl stopping published now tid dd) as E. cbv zeta in E.
  set (r := store_SetNX (key_of kd tid) ttl now (dd_store dd)) in E.
  assert (dedup_ok now (MkDedup (dd_store dd) (dd_log dd ++ []))) as Hsame by (rewrite app_nil_r; by destruct dd).
  destruct stopping; [by rewrite E|]. destruct (decide (r.1 = ROk)) as [Hr|Hr].
  - assert ((dedup_notify kd ttl false published now tid dd).2 = MkDedup r.2 (dd_log dd ++ [(now, ttl, tid)])) as ->
      by (rewrite E; by destruct kd, published).
    assert (∀ t d, (t, d, tid) ∈ dd_log dd → t + d <= now) as Hold.
    { intros t d Hin. apply Z.nlt_ge. intros Hlt.
      pose proof (store_present _ ttl now _ (Hl t d tid now Hin ltac:(lia))) as Hpres. fold r in Hpres. rewrite Hr in Hpres. set_solver. }
    split; simpl.
    + intros t d tid' u [Hin|[= -> -> ->]%list_elem_of_singleton]%elem_of_app Hu; [|by apply store_added].
      destruct (decide (tid' = tid)) as [->|Hne]; [specialize (Hold _ _ Hin); lia|].
      unfold r. rewrite store_other; [by apply (Hl t d)|lia|left]. intros Hk. by apply (key_of_inj kd) in Hk.
    + intros t d tid' [Hin|[= -> -> ->]%list_elem_of_singleton]%elem_of_app; [by eapply Hp|done].
    + by apply apart_snoc.
  - rewrite E. simpl. rewrite app_nil_r. split; simpl; [|done|done]. intros t d tid' u Hin Hu. unfold r.
    rewrite store_other; [by apply (Hl t d)|specialize (Hp _ _ _ Hin); lia|by right].
Qed.
End invariant.

(** ** How often an identifier is found to be new *)

Definition times_of (tid : bytes) (l : list bytes) : Z := len (filter (λ t, t = tid) l).

Lemma times_of_cons tid t l : times_of tid (t :: l) = (if decide (t = tid) then 1 else 0) + times_of tid l.
Proof. unfold times_of. rewrite filter_cons. case_decide; simpl; lia. Qed.

Lemma times_of_le tid l k : l ⊆+ k → times_of tid l <= times_of tid k.
Proof. induction 1; rewrite ?times_of_cons in *; try case_decide; lia. Qed.

Lemma times_of_pos tid l : times_of tid l ≠ 0 → tid ∈ l.
Proof.
  unfold times_of. intros Hne. destruct (filter (λ t, t = tid) l) as [|x k] eqn:Hf; [done|].
  assert (x ∈ filter (λ t, t = tid) l) as Hx by (rewrite Hf; by left). by apply list_elem_of_filter in Hx as [-> ?].
Qed.

(** With times to live of [d] at least, at most once in [d]. *)
Lemma apart_rate tid d t0 now l :
  apart l → t0 <= now → (∀ t e, (t, e, tid) ∈ l → t0 <= t <= now ∧ d <= e) →
  (times_of tid l.*2 - 1) * d <= Z.max 0 (now - t0) ∨ times_of tid l.*2 = 0.
Proof.
  revert t0. induction l as [|[[t e] tid'] l IH]; intros t0 Ha Ht Hl; [by right|].
  assert (apart l) as Ha' by (intros i j ti tj di dj u Hij; apply (Ha (S i) (S j)); lia).
  rewrite fmap_cons, times_of_cons. simpl. case_decide as Etid; [|rewrite Z.add_0_l; apply IH; set_solver]. subst tid'.
  left. destruct (Hl t e) as [Ht0 He]; [by left|].
  destruct (decide (times_of tid l.*2 = 0)) as [->|Hne]; [lia|].
  assert (∀ t' d', (t', d', tid) ∈ l → t + e <= t') as Hlater.
  { intros t' d' [j Hj]%list_elem_of_lookup. by apply (Ha 0%nat (S j) t t' e d' tid); [lia| |]. }
  assert (t + e <= now) as Hnow.
  { apply times_of_pos, list_elem_of_fmap in Hne as ([[t' e'] u] & -> & Hin). specialize (Hlater _ _ Hin).
    destruct (Hl t' e'); [by right|]. lia. }
  destruct (IH (t + e) Ha' Hnow) as [IH1|IH1]; [|lia|lia].
  intros t' e' Hin. split; [split; [by eapply Hlater|]|]; apply (Hl t' e'); by right.
Qed.
