(* ===== verification/Link.v ===== *)
(** * The links to a coordinator

    processor/retroactivesampling/internal/coordinator/client.go and
    coordinator/proxy/pubsub.go: a bounded queue of notifications, a goroutine
    that connects, sends and reconnects with a growing delay, and one per
    connection that receives. Both programs have this shape; what differs is a
    class with an instance for each. gRPC is the environment: whether dialling,
    sending and receiving succeed is part of a transition's label. *)

From S2P Require Import Prelude Bytes.

(** cap(sendCh): 256 in client.go, [sendBufSize] in the proxy *)
Definition sendBufSize : Z := 256.

Class LinkPolicy := {
  next_backoff : Duration → Duration;
  (* the ids of a batch that are handed to the handler *)
  accepts : bytes → bool;
  (* what connect or send return when the receiver has failed and the link is
     closed too: the proxy's send looks at p.ctx, client.go's connect may not *)
  cancel_first : bool;
}.

(** Where the goroutine [run] is; in [KOpen] it is in the [select] of connect or
    send. The receiver of the connection runs or not, and has failed or not. *)
Inductive link_pc :=
| KTop | KDial
| KOpen (receiving failed : bool)
| KSleep | KReturned.

(** [k_old] counts the receivers of former connections that still run. The last
    five fields are histories: the ids put into the queue and how many were
    dropped, the ids taken from it with the outcome of Send, the handler's
    calls, and the delays slept. *)
Record link := MkLink {
  k_ch : list bytes;
  k_pc : link_pc;
  k_backoff : Duration;
  k_cancelled : bool;
  k_old : nat;
  k_queued : list bytes;
  k_missed : Z;
  k_taken : list (bytes * bool);
  k_handled : list bytes;
  k_sleeps : list Duration;
}.

(** [New] *)
Definition new_link : link := MkLink [] KTop second false 0 [] 0 [] [] [].

(** [Notify], [Publish]: the [select] with its default. *)
Definition Notify (traceID : bytes) (k : link) : link :=
  if len (k_ch k) <? sendBufSize then
    MkLink (k_ch k ++ [traceID]) (k_pc k) (k_backoff k) (k_cancelled k) (k_old k) (k_queued k ++ [traceID])
      (k_missed k) (k_taken k) (k_handled k) (k_sleeps k)
  else
    MkLink (k_ch k) (k_pc k) (k_backoff k) (k_cancelled k) (k_old k) (k_queued k) (k_missed k + 1) (k_taken k)
      (k_handled k) (k_sleeps k).

(** The proxy's [Publish]: never novel, never an error. *)
Definition proxy_Publish (traceID : bytes) (k : link) : (bool * option unit) * link :=
  ((false, None), Notify traceID k).

Definition go_link (pc : link_pc) (k : link) : link :=
  MkLink (k_ch k) pc (k_backoff k) (k_cancelled k) (k_old k) (k_queued k) (k_missed k) (k_taken k) (k_handled k)
    (k_sleeps k).

(** Leaving a connection: a receiver that runs is left behind. *)
Definition leave (k : link) : link :=
  MkLink (k_ch k) (k_pc k) (k_backoff k) (k_cancelled k)
    (match k_pc k with KOpen true _ => S (k_old k) | _ => k_old k end)
    (k_queued k) (k_missed k) (k_taken k) (k_handled k) (k_sleeps k).

(** [connect] returned an error, or [send] did: the delay begins. *)
Definition lost (k : link) : link :=
  MkLink (k_ch k) KSleep (k_backoff k) (k_cancelled k) (k_old k) (k_queued k) (k_missed k) (k_taken k) (k_handled k)
    (k_sleeps k ++ [k_backoff k]).

(** They returned nil. *)
Definition closed_cleanly (k : link) : link :=
  MkLink (k_ch k) KTop second (k_cancelled k) (k_old k) (k_queued k) (k_missed k) (k_taken k) (k_handled k) (k_sleeps k).

Definition handle_ids (ids : list bytes) (k : link) : link :=
  MkLink (k_ch k) (k_pc k) (k_backoff k) (k_cancelled k) (k_old k) (k_queued k) (k_missed k) (k_taken k)
    (k_handled k ++ ids) (k_sleeps k).

(** Taking an id from the queue and sending it. *)
Definition send_id (ok : bool) (k : link) : option link :=
  match k_ch k with
  | [] => None
  | tid :: ch =>
      Some (MkLink ch (k_pc k) (k_backoff k) (k_cancelled k) (k_old k) (k_queued k) (k_missed k)
              (k_taken k ++ [(tid, ok)]) (k_handled k) (k_sleeps k))
  end.

(** [Close] of the client, without the wait for [run] to return: [cancel]. *)
Definition cancel (k : link) : link :=
  MkLink (k_ch k) (k_pc k) (k_backoff k) true (k_old k) (k_queued k) (k_missed k) (k_taken k) (k_handled k)
    (k_sleeps k).

(** The proxy's [Close]: the error is that of closing the connection. *)
Definition proxy_Close {E} (conn_Close : option E) (k : link) : option E * link := (conn_Close, cancel k).

Inductive link_label :=
| KNotify (traceID : bytes)
| KClose                    (* Close *)
| KLoop                     (* the test at the head of run *)
| KDialed (ok : bool)
| KSend (ok : bool)
| KRecv (ids : list bytes)  (* the receiver gets a batch *)
| KRecvFail                 (* and an error *)
| KOldRecv (ids : list bytes) | KOldEnd   (* a receiver of a former connection *)
| KSeeFail | KSeeCancel     (* the select of connect or send *)
| KWake | KSleepCancel.     (* the select of run *)

Section link.
Context `{L : LinkPolicy}.

(** The body of the receiver's loop. *)
Definition recv_batch (ids : list bytes) : list bytes := filter (λ tid, accepts tid = true) ids.

Definition wake (k : link) : link :=
  MkLink (k_ch k) KTop (next_backoff (k_backoff k)) (k_cancelled k) (k_old k) (k_queued k) (k_missed k) (k_taken k)
    (k_handled k) (k_sleeps k).

(** The transition of a label, [None] where it is not enabled. *)
Definition link_exec (l : link_label) (k : link) : option link :=
  match l with
  | KNotify traceID => Some (Notify traceID k)
  | KClose => Some (cancel k)
  | KLoop =>
      match k_pc k with
      | KTop => Some (go_link (if k_cancelled k then KReturned else KDial) k)
      | _ => None
      end
  | KDialed ok =>
      match k_pc k with
      | KDial => Some (if ok then go_link (KOpen true false) k else lost k)
      | _ => None
      end
  | KSend ok =>
      match k_pc k with
      | KOpen _ _ => k' ← send_id ok k; Some (if ok then k' else lost (leave k'))
      | _ => None
      end
  | KRecv ids =>
      match k_pc k with
      | KOpen true _ => Some (handle_ids (recv_batch ids) k)
      | _ => None
      end
  | KRecvFail =>
      match k_pc k with
      | KOpen true _ => Some (go_link (KOpen false true) k)
      | _ => None
      end
  | KOldRecv ids =>
      match k_old k with
      | O => None
      | S _ => Some (handle_ids (recv_batch ids) k)
      end
  | KOldEnd =>
      match k_old k with
      | O => None
      | S n => Some (MkLink (k_ch k) (k_pc k) (k_backoff k) (k_cancelled k) n (k_queued k) (k_missed k) (k_taken k)
                       (k_handled k) (k_sleeps k))
      end
  | KSeeFail =>
      match k_pc k with
      | KOpen _ true =>
          Some (if cancel_first && k_cancelled k then closed_cleanly (leave k) else lost (leave k))
      | _ => None
      end
  | KSeeCancel =>
      match k_pc k with
      | KOpen _ _ => if k_cancelled k then Some (closed_cleanly (leave k)) else None
      | _ => None
      end
  | KWake => match k_pc k with KSleep => Some (wake k) | _ => None end
  | KSleepCancel =>
      match k_pc k with
      | KSleep => if k_cancelled k then Some (go_link KReturned k) else None
      | _ => None
      end
  end.

Inductive link_reachable : link → Prop :=
| link_new : link_reachable new_link
| link_step l k k' : link_reachable k → link_exec l k = Some k' → link_reachable k'.

Fixpoint link_run (ls : list link_label) (k : link) : option link :=
  match ls with [] => Some k | l :: ls => k' ← link_exec l k; link_run ls k' end.

Lemma link_run_reachable ls k k' : link_run ls k = Some k' → link_reachable k → link_reachable k'.
Proof.
  revert k. induction ls as [|l ls IH]; intros k Hr Hk; simpl in Hr; [by simplify_eq|].
  destruct (link_exec l k) as [k1|] eqn:He; [|done]. apply (IH k1 Hr). by eapply link_step.
Qed.

(** ** Invariant *)

(** The delay after [n] failures. *)
Definition nth_backoff (n : nat) : Duration := Nat.iter n next_backoff second.

Definition failures (l : list (bytes * bool)) : list (bytes * bool) := filter (λ p, p.2 = false) l.

Record link_ok (k : link) : Prop := {
  lk_queue : k_queued k = (k_taken k).*1 ++ k_ch k;
  lk_cap : len (k_ch k) <= sendBufSize;
  lk_sleeps : k_sleeps k = nth_backoff <$> seq 0 (length (k_sleeps k));
  (* the delay grows until the link is closed *)
  lk_backoff :
    match k_pc k with
    | KSleep => ∃ n, length (k_sleeps k) = S n ∧ k_backoff k = nth_backoff n
    | KTop | KReturned => k_cancelled k = true ∨ k_backoff k = nth_backoff (length (k_sleeps k))
    | _ => k_backoff k = nth_backoff (length (k_sleeps k))
    end;
  lk_failures : (length (failures (k_taken k)) <= length (k_sleeps k))%nat;
  lk_handled : Forall (λ tid, accepts tid = true) (k_handled k);
}.

Lemma sleeps_snoc l d :
  l = nth_backoff <$> seq 0 (length l) → d = nth_backoff (length l) →
  l ++ [d] = nth_backoff <$> seq 0 (length (l ++ [d])).
Proof.
  intros Hl ->. rewrite length_app. simpl. rewrite seq_app, fmap_app, <- Hl. done.
Qed.

(** Losing a connection, from where the delay is the current one. *)
Lemma lost_ok k :
  link_ok k → k_backoff k = nth_backoff (length (k_sleeps k)) → link_ok (lost k).
Proof.
  intros [Hq Hc Hs Hb Hf Hh] Hbk. split; simpl; try done.
  - by apply sleeps_snoc.
  - exists (length (k_sleeps k)). rewrite length_app. simpl. split; [lia|done].
  - rewrite length_app. simpl. lia.
Qed.

Lemma recv_accepted ids : Forall (λ tid, accepts tid = true) (recv_batch ids).
Proof. apply Forall_forall. intros tid Hin. by apply list_elem_of_filter in Hin as [? _]. Qed.

Lemma failures_snoc l tid ok : failures (l ++ [(tid, ok)]) = failures l ++ (if ok then [] else [(tid, ok)]).
Proof. unfold failures. rewrite filter_app, filter_cons. by destruct ok. Qed.

(** Steps that touch neither the queue nor the delays. *)
Lemma same_ok k k' :
  link_ok k → k_ch k' = k_ch k → k_queued k' = k_queued k → k_taken k' = k_taken k → k_sleeps k' = k_sleeps k →
  Forall (λ tid, accepts tid = true) (k_handled k') →
  match k_pc k' with
  | KSleep => ∃ n, length (k_sleeps k) = S n ∧ k_backoff k' = nth_backoff n
  | KTop | KReturned => k_cancelled k' = true ∨ k_backoff k' = nth_backoff (length (k_sleeps k))
  | _ => k_backoff k' = nth_backoff (length (k_sleeps k))
  end → link_ok k'.
Proof. intros [Hq Hc Hs Hb Hf Hh] E1 E2 E3 E4 Hh' Hb'. split; rewrite ?E1, ?E2, ?E3, ?E4; done. Qed.

Lemma link_exec_ok l k k' : link_exec l k = Some k' → link_ok k → link_ok k'.
Proof.
  intros He Hk. pose proof (lk_backoff _ Hk) as Hb. pose proof (lk_handled _ Hk) as Hh.
  destruct l; cbn [link_exec] in He.
  - simplify_eq. unfold Notify. destruct (Z.ltb_spec (len (k_ch k)) sendBufSize); [|by apply (same_ok k)].
    destruct Hk as [Hq Hc Hs Hb' Hf Hh']. split; simpl; try done; [by rewrite Hq, app_assoc|].
    rewrite length_app. simpl. lia.
  - simplify_eq. apply (same_ok k); try done. simpl. destruct (k_pc k); try done; by left.
  - destruct (k_pc k) eqn:Hpc; try done. simplify_eq. apply (same_ok k); try done. simpl.
    destruct (k_cancelled k); [by left|]. by destruct Hb.
  - destruct (k_pc k) eqn:Hpc; try done. simplify_eq. destruct ok; [by apply (same_ok k)|by apply lost_ok].
  - destruct (k_pc k) as [| |receiving failed| |] eqn:Hpc; try done. unfold send_id in He.
    destruct (k_ch k) as [|tid ch] eqn:Hch; [done|]. simpl in He. simplify_eq.
    destruct Hk as [Hq Hc Hs Hb' Hf Hh']. rewrite Hch in Hq, Hc. simpl in Hc.
    assert (k_queued k = (k_taken k ++ [(tid, ok)]).*1 ++ ch) as Hq' by (by rewrite fmap_app, Hq, <- app_assoc).
    destruct ok.
    + split; simpl; rewrite ?Hpc; try done; [lia|]. by rewrite failures_snoc, app_nil_r.
    + split; simpl; try done; [lia|by apply sleeps_snoc| |].
      { exists (length (k_sleeps k)). rewrite length_app. simpl. split; [lia|done]. }
      rewrite failures_snoc, !length_app. simpl. lia.
  - destruct (k_pc k) as [| |[] failed| |] eqn:Hpc; try done. simplify_eq. apply (same_ok k); try done; simpl.
    + apply Forall_app. split; [done|apply recv_accepted].
    + by rewrite Hpc.
  - destruct (k_pc k) as [| |[] failed| |] eqn:Hpc; try done. simplify_eq. by apply (same_ok k).
  - destruct (k_old k); simplify_eq. apply (same_ok k); try done; simpl.
    apply Forall_app. split; [done|apply recv_accepted].
  - destruct (k_old k); simplify_eq. by apply (same_ok k).
  - destruct (k_pc k) as [| |receiving []| |] eqn:Hpc; try done. simplify_eq.
    assert (link_ok (leave k)) as Hl by (apply (same_ok k); try done; simpl; by rewrite Hpc).
    destruct (cancel_first && k_cancelled k) eqn:Hcc; [|by apply lost_ok].
    apply andb_true_iff in Hcc as [_ Hcc]. apply (same_ok (leave k)); try done. by left.
  - destruct (k_pc k) as [| |receiving failed| |] eqn:Hpc; try done. destruct (k_cancelled k) eqn:Hcc; [|done].
    simplify_eq. apply (same_ok k); try done. simpl. by left.
  - destruct (k_pc k) eqn:Hpc; try done. simplify_eq. apply (same_ok k); try done. simpl. right.
    destruct Hb as (n & -> & ->). done.
  - destruct (k_pc k) eqn:Hpc; try done. destruct (k_cancelled k) eqn:Hcc; [|done]. simplify_eq.
    apply (same_ok k); try done. simpl. by left.
Qed.

Lemma link_reachable_ok k : link_reachable k → link_ok k.
Proof. induction 1 as [|l k k' _ IH He]; [split; try done; by right|]. by eapply link_exec_ok. Qed.

(** ** What a transition adds to the histories *)

(** The identifiers a transition hands to the handler. *)
Definition handed (kl : link_label) : list bytes :=
  match kl with KRecv ids | KOldRecv ids => recv_batch ids | _ => [] end.

Lemma link_grows kl k k' :
  link_exec kl k = Some k' →
  (∃ q, k_queued k' = k_queued k ++ q)
  ∧ k_handled k' = k_handled k ++ handed kl.
Proof.
  intros He.
  assert (∀ k0, (∃ q, k_queued k0 = k_queued k ++ q) ∧ k_handled k0 = k_handled k →
    (∃ q, k_queued k0 = k_queued k ++ q) ∧ k_handled k0 = k_handled k ++ []) as Hr
    by (intros k0 [Hq ->]; by rewrite app_nil_r).
  assert (∃ q, k_queued k = k_queued k ++ q) as Hnil by (exists []; by rewrite app_nil_r).
  unfold handed. destruct kl; cbn [link_exec] in He; exec_inv He; try apply Hr; try (split; [exact Hnil|done]).
  - unfold Notify. case_match; simpl; (split; [|done]); [by eexists|exact Hnil].
  - case_match; by split.
  - unfold send_id in E0. repeat case_match; simplify_eq; by split.
  - case_match; by split.
Qed.

Lemma link_queued kl k k' :
  link_exec kl k = Some k' →
  k_handled k `prefix_of` k_handled k' ∧ ∀ u, u ∈ k_queued k' → u ∈ k_queued k ∨ kl = KNotify u.
Proof.
  intros He. destruct (link_grows _ _ _ He) as [_ Hh]. split; [rewrite Hh; by eexists|].
  destruct kl; cbn [link_exec] in He; unfold Notify, send_id in He; exec_inv He; repeat case_match; simplify_eq/=;
    try (by auto). intros u. rewrite elem_of_app, list_elem_of_singleton. intros [?| ->]; auto.
Qed.

End link.

(** ** The two programs *)

(** client.go *)
Definition client_next_backoff (backoff : Duration) : Duration :=
  if backoff <? 30 * second then backoff * 2 else backoff.
Definition client_accepts (traceID : bytes) : bool := len traceID =? 16.

Definition client_policy : LinkPolicy := {|
  next_backoff := client_next_backoff;
  accepts := client_accepts;
  cancel_first := false;
|}.

(** proxy/pubsub.go *)
Definition maxBackoff : Duration := 30 * second.
Definition proxy_next_backoff (backoff : Duration) : Duration := Z.min (backoff * 2) maxBackoff.

Definition proxy_policy : LinkPolicy := {|
  next_backoff := proxy_next_backoff;
  accepts _ := true;
  cancel_first := true;
|}.

Lemma client_nth_backoff n : nth_backoff (L := client_policy) n = second * Z.min (2 ^ Z.of_nat n) 32.
Proof.
  induction n as [|n IH]; [done|].
  change (nth_backoff (L := client_policy) (S n)) with (client_next_backoff (nth_backoff (L := client_policy) n)). rewrite IH.
  unfold client_next_backoff, second. rewrite Nat2Z.inj_succ, Z.pow_succ_r by lia.
  assert (n = 0 ∨ n = 1 ∨ n = 2 ∨ n = 3 ∨ n = 4 ∨ 5 <= n)%nat as Hn by lia.
  destruct Hn as [->|[->|[->|[->|[->|Hn]]]]]; try done.
  assert (2 ^ 5 <= 2 ^ Z.of_nat n) by (apply Z.pow_le_mono_r; lia).
  destruct (Z.ltb_spec (1000000000 * Z.min (2 ^ Z.of_nat n) 32) (30 * 1000000000)); lia.
Qed.

Lemma proxy_nth_backoff n : nth_backoff (L := proxy_policy) n = second * Z.min (2 ^ Z.of_nat n) 30.
Proof.
  induction n as [|n IH]; [done|].
  change (nth_backoff (L := proxy_policy) (S n)) with (proxy_next_backoff (nth_backoff (L := proxy_policy) n)). rewrite IH.
  unfold proxy_next_backoff, maxBackoff, second. rewrite Nat2Z.inj_succ, Z.pow_succ_r by lia. lia.
Qed.

Lemma sleeps_nth `{L : LinkPolicy} k i d : link_ok k → k_sleeps k !! i = Some d → d = nth_backoff i.
Proof.
  intros Hk Hi. pose proof (lookup_lt_Some _ _ _ Hi) as Hlt. rewrite (lk_sleeps _ Hk) in Hi.
  rewrite list_lookup_fmap in Hi. rewrite lookup_seq_lt in Hi by done. by simplify_eq/=.
Qed.

(** The reconnection delays. The client's start at one second and double up
    to 32 seconds, the proxy's up to 30. The delay depends on the number of
    connections lost so far and on nothing else: however long the connections
    lasted in between, it never starts again from one second before the link is
    closed. *)
Theorem reconnect_delays k i d :
  (link_reachable (L := client_policy) k → k_sleeps k !! i = Some d → d = second * Z.min (2 ^ Z.of_nat i) 32) ∧
  (link_reachable (L := proxy_policy) k → k_sleeps k !! i = Some d → d = second * Z.min (2 ^ Z.of_nat i) 30).
Proof.
  split; intros Hk%link_reachable_ok Hi.
  - rewrite <- client_nth_backoff. by eapply sleeps_nth.
  - rewrite <- proxy_nth_backoff. by eapply sleeps_nth.
Qed.

Section props.
Context `{L : LinkPolicy}.


(** The steps that do not need the other side: a dial that fails at once, since
    the context is cancelled, and the cancellations. *)
Definition closing_label (l : link_label) : bool :=
  match l with KLoop | KDialed false | KSeeCancel | KSleepCancel => true | _ => false end.

(** [Close] ends the link. Wherever the goroutine is when the context is
    cancelled, it can return within two more steps, none of which sleeps out a
    delay or needs the other side. *)
Theorem link_closes k :
  link_reachable k → k_cancelled k = true →
  ∃ ls k', (length ls <= 2)%nat ∧ Forall (λ l, closing_label l = true) ls ∧ link_run ls k = Some k' ∧
    k_pc k' = KReturned ∧ k_queued k' = k_queued k ∧ k_taken k' = k_taken k.
Proof.
  intros _ Hc. destruct (k_pc k) as [| |receiving failed| |] eqn:Hpc.
  - exists [KLoop]. simpl. rewrite Hpc. eexists. split; [lia|]. split; [by repeat constructor|]. split; [done|].
    simpl. by rewrite Hc.
  - exists [KDialed false; KSleepCancel]. simpl. rewrite Hpc. simpl. rewrite Hc.
    eexists. split; [lia|]. split; [by repeat constructor|]. by split.
  - exists [KSeeCancel; KLoop]. simpl. rewrite Hpc, Hc. simpl. rewrite Hc.
    eexists. split; [lia|]. split; [by repeat constructor|]. by split.
  - exists [KSleepCancel]. simpl. rewrite Hpc, Hc.
    eexists. split; [lia|]. split; [by repeat constructor|]. by split.
  - exists [], k. split; [simpl; lia|]. by repeat constructor.
Qed.
End props.

(** ** A client that loses two connections, the second while sending *)
Definition demo_link_labels : list link_label :=
  [KNotify [x0a]; KNotify [x0b]; KLoop; KDialed true; KSend true; KRecv [replicate 16 x0c; [x01]]; KRecvFail;
   KSeeFail; KWake; KLoop; KDialed true; KNotify [x0d]; KSend false; KWake; KLoop; KDialed false; KClose].

Definition demo_link : link := default new_link (link_run (L := client_policy) demo_link_labels new_link).

Lemma demo_link_reachable : link_reachable (L := client_policy) demo_link.
Proof.
  apply (link_run_reachable (L := client_policy) demo_link_labels new_link); [vm_compute; reflexivity|constructor].
Qed.

Lemma reconnect_delays_witness :
  k_sleeps demo_link !! 2%nat = Some (4 * second) ∧ 4 * second = second * Z.min (2 ^ Z.of_nat 2) 32.
Proof.
  split; [vm_compute; reflexivity|].
  apply (proj1 (reconnect_delays demo_link 2 (4 * second)) demo_link_reachable). vm_compute. reflexivity.
Defined.


Lemma link_closes_witness :
  k_cancelled demo_link = true ∧
  ∃ ls k', (length ls <= 2)%nat ∧ Forall (λ l, closing_label l = true) ls ∧
    link_run (L := client_policy) ls demo_link = Some k' ∧ k_pc k' = KReturned.
Proof.
  assert (k_cancelled demo_link = true) as Hc by (vm_compute; reflexivity). split; [exact Hc|].
  destruct (link_closes (L := client_policy) demo_link demo_link_reachable Hc) as (ls & k' & H1 & H2 & H3 & H4 & _).
  by exists ls, k'.
Defined.
