(* ===== verification/CoordConfig.v ===== *)
(** * The coordinator's configuration and startup

    coordinator/config.go, proxy/config.go, redis/config.go, server/tls.go and
    the checks and the dispatch of main.go. Files, certificates, YAML and the
    environment are parameters. *)

From S2P Require Import Prelude Bytes.
From Stdlib Require Strings.String Strings.Ascii.

Definition empty (s : string) : bool := String.eqb s String.EmptyString.

(** ** proxy/config.go *)

Record TLSConfig := MkTLSConfig {
  CAFile : string;
  CertFile : string;
  KeyFile : string;
  ServerNameOverride : string;
  InsecureSkipVerify : bool;
}.

Record KeepAliveConfig := MkKeepAliveConfig {
  ka_Time : Duration;
  ka_Timeout : Duration;
  PermitWithoutStream : bool;
}.

(** [Headers] is the map in iteration order. *)
Record ClientConfig := MkClientConfig {
  Endpoint : string;
  TLS : option TLSConfig;
  Headers : list (string * string);
  Compression : string;
  KeepAlive : option KeepAliveConfig;
}.

Inductive configError :=
| ErrNoEndpoint | ErrNoCertFile | ErrNoKeyFile
| ErrCompression (c : string)
| ErrHeaderEmpty | ErrHeaderReserved (k : string) | ErrHeaderCharacter (k : string)
| ErrKeepAlive
| ErrReadCA | ErrNoPEM | ErrKeyPair | ErrNewClient.

(** The characters a header name may have. *)
Definition header_char (c : Ascii.ascii) : bool :=
  let n := Z.of_N (Ascii.N_of_ascii c) in
  ((97 <=? n) && (n <=? 122)) || ((48 <=? n) && (n <=? 57)) || (n =? 45) || (n =? 95) || (n =? 46).

Fixpoint header_chars (s : string) : bool :=
  match s with
  | String.EmptyString => true
  | String.String c s => header_char c && header_chars s
  end.

Definition validateHeaderKey (k : string) : option configError :=
  if empty k then Some ErrHeaderEmpty
  else if String.prefix "grpc-" k then Some (ErrHeaderReserved k)
  else if header_chars k then None
  else Some (ErrHeaderCharacter k).

Fixpoint validateHeaders (l : list (string * string)) : option configError :=
  match l with
  | [] => None
  | (k, _) :: l => match validateHeaderKey k with Some err => Some err | None => validateHeaders l end
  end.

Definition validateTLS (c : option TLSConfig) : option configError :=
  match c with
  | None => None
  | Some t =>
      if Bool.eqb (empty (CertFile t)) (empty (KeyFile t)) then None
      else if empty (CertFile t) then Some ErrNoCertFile else Some ErrNoKeyFile
  end.

Definition keepAlive_bad (c : option KeepAliveConfig) : bool :=
  match c with
  | None => false
  | Some k => (0 <? ka_Time k) && (0 <? ka_Timeout k) && (ka_Time k <=? ka_Timeout k)
  end.

Definition Validate (c : ClientConfig) : option configError :=
  if empty (Endpoint c) then Some ErrNoEndpoint
  else match validateTLS (TLS c) with
       | Some err => Some err
       | None =>
           if negb (empty (Compression c)) && negb (String.eqb (Compression c) "gzip") then
             Some (ErrCompression (Compression c))
           else match validateHeaders (Headers c) with
                | Some err => Some err
                | None => if keepAlive_bad (KeepAlive c) then Some ErrKeepAlive else None
                end
       end.

(** ** The files of server/tls.go, redis/config.go and config.go *)

Record ServerTLS := MkServerTLS { s_CertFile : string; s_KeyFile : string; ClientCAFile : string }.

Record RedisTLS := MkRedisTLS {
  Enabled : bool; r_InsecureSkipVerify : bool; r_CAFile : string; r_CertFile : string; r_KeyFile : string }.

Record RedisEndpoint := MkRedis {
  Transport : string; r_Endpoint : string; ClientName : string; Username : string; Password : string;
  DB : Z; MaxRetries : Z; DialTimeout : Duration; ReadTimeout : Duration; WriteTimeout : Duration;
  r_TLS : RedisTLS }.

Record SingleConfig := MkSingle { sc_DecidedKeyTTL : Duration }.
Record RedisConfig := MkRedisConfig {
  rc_DecidedKeyTTL : Duration; RedisPrimary : RedisEndpoint; RedisReplicas : list RedisEndpoint }.

Record ModeConfig := MkMode {
  Single : option SingleConfig; Redis_ : option RedisConfig; Proxy : option ClientConfig }.

Record Config := MkConfig {
  GRPCListen : string;
  MetricsListen : string;
  ShutdownTimeout : Duration;
  s_TLS : option ServerTLS;
  Mode : ModeConfig;
}.

(** ** What the host provides

    Certificates ([x509.NewCertPool], [pool.AppendCertsFromPEM],
    [tls.LoadX509KeyPair]), files ([os.ReadFile]), the environment
    ([os.ExpandEnv]) and YAML ([yaml.Unmarshal] into a [Config]). *)
Class Host := {
  Pool : Type;
  Cert : Type;
  empty_pool : Pool;
  ReadFile : string → option bytes;
  AppendCertsFromPEM : bytes → option Pool;
  LoadX509KeyPair : string → string → option Cert;
  ExpandEnv : bytes → bytes;
  Unmarshal : bytes → option Config;
}.

Section credentials.
Context `{Host}.

(** [tls.ClientAuthType], of which [NoClientCert] is the zero value. *)
Inductive clientAuth := NoClientCert | RequireAndVerifyClientCert.

Record tlsCfg := MkTls {
  t_MinVersion12 : bool;
  t_InsecureSkipVerify : bool;
  t_ServerName : string;
  t_RootCAs : option Pool;
  t_Certificates : list Cert;
  t_ClientCAs : option Pool;
  t_ClientAuth : clientAuth;
}.

Inductive credentials := Insecure | NewTLS (c : tlsCfg).

Definition load_pool (file : string) : configError + option Pool :=
  if empty file then inr None
  else match ReadFile file with
       | None => inl ErrReadCA
       | Some pem => match AppendCertsFromPEM pem with
                     | None => inl ErrNoPEM
                     | Some pool => inr (Some pool)
                     end
       end.

Definition transportCredentials (c : ClientConfig) : configError + credentials :=
  match TLS c with
  | None => inr Insecure
  | Some t =>
      match load_pool (CAFile t) with
      | inl err => inl err
      | inr pool =>
          if empty (CertFile t) then
            inr (NewTLS (MkTls true (InsecureSkipVerify t) (ServerNameOverride t) pool [] None NoClientCert))
          else match LoadX509KeyPair (CertFile t) (KeyFile t) with
               | None => inl ErrKeyPair
               | Some cert =>
                   inr (NewTLS (MkTls true (InsecureSkipVerify t) (ServerNameOverride t) pool [cert] None NoClientCert))
               end
      end
  end.

Inductive dialOption :=
| WithTransportCredentials (c : credentials)
| UseGzip
| WithKeepaliveParams (k : KeepAliveConfig).

Definition dialOptions (c : ClientConfig) : configError + list dialOption :=
  match transportCredentials c with
  | inl err => inl err
  | inr creds =>
      inr (WithTransportCredentials creds :: (if String.eqb (Compression c) "gzip" then [UseGzip] else [])
           ++ match KeepAlive c with Some k => [WithKeepaliveParams k] | None => [] end)
  end.

(** [New] of proxy/pubsub.go up to the client it makes; [connects] is whether
    [grpc.NewClient] succeeds for the endpoint and the options. *)
Definition proxy_New (connects : bool) (c : ClientConfig) : configError + list dialOption :=
  match Validate c with
  | Some err => inl err
  | None =>
      match dialOptions c with
      | inl err => inl err
      | inr opts => if connects then inr opts else inl ErrNewClient
      end
  end.

(** [headersToMD]: the metadata of the streams. [md.Set] makes the key lower case
    and replaces what was there; the keys of a configuration that passes
    [Validate] are ASCII. *)
Definition lower_char (c : Ascii.ascii) : Ascii.ascii :=
  let n := Ascii.nat_of_ascii c in
  if (65 <=? n)%nat && (n <=? 90)%nat then Ascii.ascii_of_nat (n + 32) else c.

Fixpoint to_lower (s : string) : string :=
  match s with
  | String.EmptyString => String.EmptyString
  | String.String c s => String.String (lower_char c) (to_lower s)
  end.

Definition headersToMD (h : list (string * string)) : option (gmap string (list string)) :=
  match h with
  | [] => None
  | _ => Some (foldl (λ md kv, <[to_lower kv.1 := [kv.2]]> md) ∅ h)
  end.

(** ** server/tls.go *)

(** [None] for no credentials: plain gRPC. *)
Definition Credentials (c : option ServerTLS) : configError + option credentials :=
  match c with
  | None => inr None
  | Some t =>
      if empty (s_CertFile t) then inl ErrNoCertFile
      else if empty (s_KeyFile t) then inl ErrNoKeyFile
      else match LoadX509KeyPair (s_CertFile t) (s_KeyFile t) with
           | None => inl ErrKeyPair
           | Some cert =>
               match load_pool (ClientCAFile t) with
               | inl err => inl err
               | inr pool =>
                   let auth := if empty (ClientCAFile t) then NoClientCert else RequireAndVerifyClientCert in
                   inr (Some (NewTLS (MkTls true false String.EmptyString None [cert] pool auth)))
               end
           end
  end.

(** ** redis/config.go *)

(** [redis.Options]: the settings as they are, and a TLS configuration. *)
Record redisOptions := MkOptions { o_settings : RedisEndpoint; o_TLS : option tlsCfg }.

(** A CA file without certificates is not an error here: [AppendCertsFromPEM]'s
    result is ignored; the pool is then [empty_pool]. *)
Definition options (c : RedisEndpoint) : configError + redisOptions :=
  let t := r_TLS c in
  if Enabled t then
    match (if empty (r_CAFile t) then inr None
           else match ReadFile (r_CAFile t) with
                | None => inl ErrReadCA
                | Some pem => inr (Some (default empty_pool (AppendCertsFromPEM pem)))
                end) with
    | inl err => inl err
    | inr pool =>
        if empty (r_CertFile t) && empty (r_KeyFile t) then
          inr (MkOptions c (Some (MkTls false (r_InsecureSkipVerify t) String.EmptyString pool [] None NoClientCert)))
        else match LoadX509KeyPair (r_CertFile t) (r_KeyFile t) with
             | None => inl ErrKeyPair
             | Some cert =>
                 inr (MkOptions c (Some (MkTls false (r_InsecureSkipVerify t) String.EmptyString pool [cert] None NoClientCert)))
             end
    end
  else inr (MkOptions c None).

(** ** config.go *)

Inductive mode := MSingle (c : SingleConfig) | MRedis (c : RedisConfig) | MProxy (c : ClientConfig).

(** [active]: the error has the number of modes configured. *)
Definition active (m : ModeConfig) : Z + mode :=
  let '(n, r) := match Single m with Some c => (1, Some (MSingle c)) | None => (0, None) end in
  let '(n, r) := match Redis_ m with Some c => (n + 1, Some (MRedis c)) | None => (n, r) end in
  let '(n, r) := match Proxy m with Some c => (n + 1, Some (MProxy c)) | None => (n, r) end in
  match r with
  | Some r => if n =? 1 then inr r else inl n
  | None => inl n
  end.

Inductive fatalError :=
| FatalRead | FatalYAML | FatalProxyConfig (err : configError)
| FatalListen | FatalMode (n : Z) | FatalTTL | FatalRedisEndpoint | FatalRedis (err : configError)
| FatalProxy (err : configError) | FatalTLS (err : configError).

Definition loadConfig (path : string) : fatalError + Config :=
  match ReadFile path with
  | None => inl FatalRead
  | Some data =>
      match Unmarshal (ExpandEnv data) with
      | None => inl FatalYAML
      | Some cfg =>
          match Proxy (Mode cfg) with
          | Some p => match Validate p with Some err => inl (FatalProxyConfig err) | None => inr cfg end
          | None => inr cfg
          end
      end
  end.

(** ** main.go, up to [srv.Start]: the backend it makes *)
Inductive backend :=
| BMemory (ttl : Duration)
| BRedis (write : redisOptions) (read : option redisOptions) (ttl : Duration)
| BProxy (opts : list dialOption).

(** [New] of memory/pubsub.go: a cache, and no goroutine. *)
Definition memory_New (ttl : Duration) : backend := BMemory ttl.

(** [New] of redis/pubsub.go; a client for reading is made for a replica only. *)
Definition redis_New (writeCfg : RedisEndpoint) (readCfg : option RedisEndpoint) (ttl : Duration) : configError + backend :=
  match options writeCfg with
  | inl err => inl err
  | inr write =>
      match readCfg with
      | None => inr (BRedis write None ttl)
      | Some replica =>
          match options replica with
          | inl err => inl err
          | inr read => inr (BRedis write (Some read) ttl)
          end
      end
  end.

(** The replica to read from: none if none is configured. [rand.Intn] of their
    number is [pick], modulo that number. *)
Definition replica (pick : nat) (c : RedisConfig) : option RedisEndpoint :=
  RedisReplicas c !! (pick mod length (RedisReplicas c))%nat.

Definition make_backend (pick : nat) (connects : bool) (m : mode) : fatalError + backend :=
  match m with
  | MSingle c => if sc_DecidedKeyTTL c =? 0 then inl FatalTTL else inr (memory_New (sc_DecidedKeyTTL c))
  | MRedis c =>
      if rc_DecidedKeyTTL c =? 0 then inl FatalTTL
      else if empty (r_Endpoint (RedisPrimary c)) then inl FatalRedisEndpoint
      else match redis_New (RedisPrimary c) (replica pick c) (rc_DecidedKeyTTL c) with
           | inl err => inl (FatalRedis err)
           | inr b => inr b
           end
  | MProxy c => match proxy_New connects c with inl err => inl (FatalProxy err) | inr opts => inr (BProxy opts) end
  end.

Definition startup (path : string) (pick : nat) (connects : bool) : fatalError + (backend * option credentials) :=
  match loadConfig path with
  | inl err => inl err
  | inr cfg =>
      if empty (GRPCListen cfg) then inl FatalListen
      else match active (Mode cfg) with
           | inl n => inl (FatalMode n)
           | inr m =>
               match make_backend pick connects m with
               | inl err => inl err
               | inr b => match Credentials (s_TLS cfg) with
                          | inl err => inl (FatalTLS err)
                          | inr creds => inr (b, creds)
                          end
               end
           end
  end.
End credentials.
