(* ===== verification/CoordConfigProps.v ===== *)
(** * What the coordinator accepts as a configuration

    The declarative meaning of the checks of CoordConfig.v: the valid proxy
    client configurations, the mode that is active, and the configurations with
    which the coordinator starts. *)

From S2P Require Import Prelude Bytes CoordConfig.
From Stdlib Require Strings.String Strings.Ascii.

(** ** The specification *)

Definition header_alphabet : list Ascii.ascii :=
  String.list_ascii_of_string "abcdefghijklmnopqrstuvwxyz0123456789-_.".

Record valid_header (k : string) : Prop := {
  vh_nonempty : k ≠ String.EmptyString;
  vh_not_reserved : ¬ ∃ rest, k = String.append "grpc-" rest;
  vh_chars : Forall (.∈ header_alphabet) (String.list_ascii_of_string k);
}.

Record valid_client (c : ClientConfig) : Prop := {
  vc_endpoint : Endpoint c ≠ String.EmptyString;
  vc_tls : ∀ t, TLS c = Some t → CertFile t = String.EmptyString ↔ KeyFile t = String.EmptyString;
  vc_compression : Compression c ∈ [String.EmptyString; "gzip"%string];
  vc_headers : ∀ k v, (k, v) ∈ Headers c → valid_header k;
  vc_keepalive : ∀ k, KeepAlive c = Some k → 0 < ka_Time k → 0 < ka_Timeout k → ka_Timeout k < ka_Time k;
}.

(** The modes a configuration has, in the order of the fields. *)
Definition modes (m : ModeConfig) : list mode :=
  (MSingle <$> option_list (Single m)) ++ (MRedis <$> option_list (Redis_ m)) ++ (MProxy <$> option_list (Proxy m)).

(** ** Header names *)

Lemma empty_spec s : empty s = true ↔ s = String.EmptyString.
Proof. apply String.eqb_eq. Qed.

Lemma empty_false s : empty s = false ↔ s ≠ String.EmptyString.
Proof. apply String.eqb_neq. Qed.

Lemma header_char_spec c : header_char c = true ↔ c ∈ header_alphabet.
Proof.
  rewrite <- (bool_decide_eq_true (c ∈ header_alphabet)).
  destruct c as [[] [] [] [] [] [] [] []]; vm_compute; tauto.
Qed.

Lemma header_chars_spec s : header_chars s = true ↔ Forall (.∈ header_alphabet) (String.list_ascii_of_string s).
Proof.
  induction s as [|c s IH]; simpl; [by split|].
  by rewrite andb_true_iff, header_char_spec, IH, Forall_cons.
Qed.

Lemma prefix_spec p s : String.prefix p s = true ↔ ∃ rest, s = String.append p rest.
Proof.
  revert s; induction p as [|a p IH]; intros s; simpl.
  { split; [by exists s|by destruct s]. }
  destruct s as [|b s]; [by split; [|intros []]|].
  simpl. destruct (Ascii.ascii_dec a b) as [->|Hab].
  - rewrite IH. split; intros [r Hr]; exists r; [by rewrite Hr|by injection Hr].
  - split; [done|intros [r Hr]; by injection Hr].
Qed.

Lemma validateHeaderKey_spec k : validateHeaderKey k = None ↔ valid_header k.
Proof.
  unfold validateHeaderKey. destruct (empty k) eqn:He.
  { apply empty_spec in He. split; [done|by intros []]. }
  apply empty_false in He. destruct (String.prefix "grpc-" k) eqn:Hp.
  { apply prefix_spec in Hp. split; [done|by intros []]. }
  destruct (header_chars k) eqn:Hc; (split; [intros Hx|intros [Hx1 Hx2 Hx3%header_chars_spec]]); try congruence.
  constructor; [done| |by apply header_chars_spec].
  intros Hx'%prefix_spec. congruence.
Qed.

Lemma validateHeaders_spec l : validateHeaders l = None ↔ ∀ k v, (k, v) ∈ l → valid_header k.
Proof.
  induction l as [|[k v] l IH]; simpl; [by split; [inversion 2|]|].
  destruct (validateHeaderKey k) eqn:Hk.
  - split; [done|]. intros Hx. assert (validateHeaderKey k = None) by (eapply validateHeaderKey_spec, Hx; left). congruence.
  - apply validateHeaderKey_spec in Hk. rewrite IH. split; intros Hx k' v' Hin.
    + apply elem_of_cons in Hin as [Hin|Hin]; [by simplify_eq|by eapply Hx].
    + eapply Hx; by right.
Qed.

Lemma validateTLS_spec o :
  validateTLS o = None ↔ ∀ t, o = Some t → CertFile t = String.EmptyString ↔ KeyFile t = String.EmptyString.
Proof.
  destruct o as [t|]; simpl; [|by split].
  destruct (empty (CertFile t)) eqn:H1, (empty (KeyFile t)) eqn:H2; simpl;
    rewrite ?empty_spec, ?empty_false in *; (split; [intros Hx t' [= <-]; tauto || done|intros Hx; specialize (Hx t eq_refl); tauto || done]).
Qed.

Lemma keepAlive_spec o :
  keepAlive_bad o = false ↔ ∀ k, o = Some k → 0 < ka_Time k → 0 < ka_Timeout k → ka_Timeout k < ka_Time k.
Proof.
  destruct o as [k|]; simpl; [|by split].
  split.
  - intros Hx k' [= <-]. lia.
  - intros Hx. specialize (Hx k eq_refl). lia.
Qed.

(** A proxy client configuration passes [Validate] exactly if it has an
    endpoint, sets both or neither of the certificate and the key, compresses
    with gzip or not at all, has only header names that gRPC accepts (not empty,
    without the reserved prefix, in the lower-case alphabet), and has a keepalive
    timeout below the keepalive time when both are set. *)
Theorem Validate_spec c : Validate c = None ↔ valid_client c.
Proof.
  unfold Validate. destruct (empty (Endpoint c)) eqn:He.
  { apply empty_spec in He. split; [done|by intros []]. }
  apply empty_false in He. destruct (validateTLS (TLS c)) eqn:Ht.
  { split; [done|]. intros [_ Hx%validateTLS_spec _ _ _]. congruence. }
  destruct (negb (empty (Compression c)) && negb (String.eqb (Compression c) "gzip")) eqn:Hz.
  { split; [done|]. intros [_ _ Hx _ _].
    apply andb_true_iff in Hz as [Hz1%negb_true_iff%empty_false Hz2%negb_true_iff%String.eqb_neq].
    set_solver. }
  destruct (validateHeaders (Headers c)) eqn:Hh.
  { split; [done|]. intros [_ _ _ Hx%validateHeaders_spec _]. congruence. }
  destruct (keepAlive_bad (KeepAlive c)) eqn:Hk.
  { split; [done|]. intros [_ _ _ _ Hx%keepAlive_spec]. congruence. }
  split; [intros _|done].
  constructor; [done|by apply validateTLS_spec| |by apply validateHeaders_spec|by apply keepAlive_spec].
  apply andb_false_iff in Hz as [Hz%negb_false_iff%empty_spec|Hz%negb_false_iff%String.eqb_eq]; set_solver.
Qed.

(** ** The active mode *)

Lemma active_spec m : active m = match modes m with [x] => inr x | l => inl (Z.of_nat (length l)) end.
Proof. by destruct m as [[] [] []]. Qed.

(** ** Startup *)

Section startup.
Context `{Host}.

(** The backend of the one mode that is configured. *)
Definition backend_for (pick : nat) (connects : bool) (m : ModeConfig) (b : backend) : Prop :=
  match b with
  | BMemory ttl => modes m = [MSingle (MkSingle ttl)] ∧ ttl ≠ 0
  | BRedis write read ttl =>
      ∃ c, modes m = [MRedis c] ∧ ttl = rc_DecidedKeyTTL c ∧ ttl ≠ 0
           ∧ r_Endpoint (RedisPrimary c) ≠ String.EmptyString ∧ options (RedisPrimary c) = inr write
           ∧ if decide (RedisReplicas c = []) then read = None
             else ∃ e o, RedisReplicas c !! (pick mod length (RedisReplicas c))%nat = Some e
                         ∧ read = Some o ∧ options e = inr o
  | BProxy opts => ∃ c, modes m = [MProxy c] ∧ valid_client c ∧ dialOptions c = inr opts ∧ connects = true
  end.

(** TLS for the processors: none if it is not configured, and with a client CA
    the server's certificate and the pool the clients must be verified with. *)
Definition creds_for (o : option ServerTLS) (creds : option credentials) : Prop :=
  match o with
  | None => creds = None
  | Some t =>
      s_CertFile t ≠ String.EmptyString ∧ s_KeyFile t ≠ String.EmptyString
      ∧ ∃ cert pool auth, LoadX509KeyPair (s_CertFile t) (s_KeyFile t) = Some cert
          ∧ creds = Some (NewTLS (MkTls true false String.EmptyString None [cert] pool auth))
          ∧ if decide (ClientCAFile t = String.EmptyString) then pool = None ∧ auth = NoClientCert
            else ∃ pem p, ReadFile (ClientCAFile t) = Some pem ∧ AppendCertsFromPEM pem = Some p ∧ pool = Some p
                 ∧ auth = RequireAndVerifyClientCert
  end.

Record starts_with (pick : nat) (connects : bool) (path : string) (b : backend) (creds : option credentials)
    (data : bytes) (cfg : Config) : Prop := {
  sw_read : ReadFile path = Some data;
  sw_yaml : Unmarshal (ExpandEnv data) = Some cfg;
  sw_proxy : ∀ c, Proxy (Mode cfg) = Some c → valid_client c;
  sw_listen : GRPCListen cfg ≠ String.EmptyString;
  sw_backend : backend_for pick connects (Mode cfg) b;
  sw_creds : creds_for (s_TLS cfg) creds;
}.

Lemma load_pool_spec f pool :
  load_pool f = inr pool ↔
  if decide (f = String.EmptyString) then pool = None
  else ∃ pem p, ReadFile f = Some pem ∧ AppendCertsFromPEM pem = Some p ∧ pool = Some p.
Proof.
  unfold load_pool. case_decide as Hf.
  { rewrite (proj2 (empty_spec f) Hf). naive_solver. }
  rewrite (proj2 (empty_false f) Hf).
  destruct (ReadFile f) as [pem|] eqn:Hr; [|naive_solver].
  destruct (AppendCertsFromPEM pem) as [p|] eqn:Ha; naive_solver.
Qed.

Lemma Credentials_spec o creds : Credentials o = inr creds ↔ creds_for o creds.
Proof.
  destruct o as [t|]; simpl; [|naive_solver].
  destruct (empty (s_CertFile t)) eqn:H1; [apply empty_spec in H1; naive_solver|apply empty_false in H1].
  destruct (empty (s_KeyFile t)) eqn:H2; [apply empty_spec in H2; naive_solver|apply empty_false in H2].
  destruct (LoadX509KeyPair (s_CertFile t) (s_KeyFile t)) as [cert|]; [|naive_solver].
  pose proof (load_pool_spec (ClientCAFile t)) as Hp.
  destruct (load_pool (ClientCAFile t)) as [err|pool]; case_decide as Hf;
    rewrite ?(proj2 (empty_spec _) Hf), ?(proj2 (empty_false _) Hf);
    split; [done| |done| |intros [= <-]| |intros [= <-]|].
  - intros (_ & _ & cert' & p & auth & _ & _ & -> & _). by specialize (proj2 (Hp None) eq_refl).
  - intros (_ & _ & cert' & p & auth & _ & _ & pem & p' & Hr & Ha & -> & _).
    by specialize (proj2 (Hp (Some p')) (ex_intro _ pem (ex_intro _ p' (conj Hr (conj Ha eq_refl))))).
  - pose proof (proj1 (Hp pool) eq_refl) as ->. naive_solver.
  - intros (_ & _ & cert' & p & auth & [= <-] & -> & -> & ->). by rewrite (proj1 (Hp pool) eq_refl).
  - destruct (proj1 (Hp pool) eq_refl) as (pem & p & Hr & Ha & ->). naive_solver.
  - intros (_ & _ & cert' & p & auth & [= <-] & -> & pem & p' & Hr & Ha & -> & ->).
    destruct (proj1 (Hp pool) eq_refl) as (pem' & p & Hr' & Ha' & ->). congruence.
Qed.

Lemma replica_spec pick c :
  if decide (RedisReplicas c = []) then replica pick c = None
  else ∃ e, replica pick c = Some e ∧ RedisReplicas c !! (pick mod length (RedisReplicas c))%nat = Some e.
Proof.
  unfold replica. case_decide as Hl; [by rewrite Hl|].
  destruct (lookup_lt_is_Some_2 (RedisReplicas c) (pick mod length (RedisReplicas c))%nat) as [e He]; [|by exists e].
  apply Nat.mod_upper_bound. by destruct (RedisReplicas c).
Qed.

Lemma proxy_New_spec connects c opts :
  proxy_New connects c = inr opts ↔ valid_client c ∧ dialOptions c = inr opts ∧ connects = true.
Proof.
  unfold proxy_New. destruct (Validate c) as [err|] eqn:Hv.
  { split; [done|]. intros [Hx%Validate_spec _]. congruence. }
  apply Validate_spec in Hv. destruct (dialOptions c); [naive_solver|]. destruct connects; naive_solver.
Qed.

Lemma to_lower_id k : header_chars k = true → to_lower k = k.
Proof.
  induction k as [|c k IH]; simpl; [done|]. intros [Hc Hk]%andb_true_iff. rewrite IH by done. f_equal.
  unfold lower_char, header_char in *.
  assert (Z.of_N (Ascii.N_of_ascii c) = Z.of_nat (Ascii.nat_of_ascii c)) as En by (unfold Ascii.nat_of_ascii; by rewrite N_nat_Z).
  rewrite En in Hc. generalize dependent (Ascii.nat_of_ascii c). intros n Hc _.
  destruct (Nat.leb_spec 65 n), (Nat.leb_spec n 90); try done. simpl. exfalso.
  repeat (apply orb_true_iff in Hc as [Hc|Hc]); repeat (apply andb_true_iff in Hc as [? Hc]); lia.
Qed.

Lemma headers_fold (l : list (string * string)) (m : gmap string (list string)) :
  (∀ k v, (k, v) ∈ l → valid_header k) → NoDup l.*1 →
  foldl (λ md kv, <[to_lower kv.1 := [kv.2]]> md) m l = list_to_map (prod_map id (λ v, [v]) <$> l) ∪ m.
Proof.
  revert m. induction l as [|[k v] l IH]; intros m Hh Hnd; simpl; [by rewrite (left_id_L ∅ (∪))|].
  rewrite fmap_cons in Hnd. apply NoDup_cons in Hnd as [Hk Hnd].
  destruct (Hh k v) as [_ _ Hc%header_chars_spec]; [by left|]. rewrite to_lower_id by done.
  rewrite IH by (try done; intros; eapply Hh; by right). rewrite <- insert_union_l. symmetry. apply insert_union_r.
  apply not_elem_of_list_to_map_1. intros Hin. apply Hk. by rewrite <- list_fmap_compose in Hin.
Qed.

(** The keys of a valid client configuration are in lower case already, so that
    the streams carry its headers as they are, whatever the order of the map. *)
Theorem headersToMD_spec c :
  valid_client c → NoDup (Headers c).*1 →
  headersToMD (Headers c) = match Headers c with [] => None | l => Some (list_to_map (prod_map id (λ v, [v]) <$> l)) end.
Proof.
  intros [_ _ _ Hh _] Hnd. unfold headersToMD. destruct (Headers c) as [|x l]; [done|].
  f_equal. rewrite headers_fold by done. by rewrite (right_id_L ∅ (∪)).
Qed.

(** The two ends of a case of [make_backend_spec]: an error, and the backend. *)
Ltac backend_cases :=
  repeat match goal with
         | H : ∃ _, _ |- _ => destruct H
         | H : _ ∧ _ |- _ => destruct H
         end; simplify_eq; repeat case_match; simplify_eq.
Ltac no_backend := split; [done|]; intros; exfalso; repeat (backend_cases; try congruence); done.
Ltac the_backend :=
  split; intros;
  [simplify_eq; eexists; split_and?; try done; case_match; simplify_eq; eauto
  |repeat (backend_cases; try congruence); done].

Lemma make_backend_spec pick connects m x b :
  modes m = [x] → make_backend pick connects x = inr b ↔ backend_for pick connects m b.
Proof.
  intros Hm. destruct x as [[ttl]|c|c]; simpl; unfold memory_New, redis_New.
  - destruct b; simpl; rewrite Hm; destruct (Z.eqb_spec ttl 0) as [E|E]; first [no_backend|the_backend].
  - destruct (Z.eqb_spec (rc_DecidedKeyTTL c) 0) as [E|E]; [destruct b; simpl; rewrite Hm; no_backend|].
    destruct (empty (r_Endpoint (RedisPrimary c))) eqn:He; [apply empty_spec in He|apply empty_false in He];
      [destruct b; simpl; rewrite Hm; no_backend|].
    destruct (options (RedisPrimary c)) as [err|w] eqn:Hw; [destruct b; simpl; rewrite Hm; no_backend|].
    pose proof (replica_spec pick c) as Hp. case_decide as Hl.
    + rewrite Hp. destruct b; simpl; rewrite Hm; first [no_backend|the_backend].
    + destruct Hp as (e & -> & Hp).
      destruct (options e) as [err|r] eqn:Hr; destruct b; simpl; rewrite Hm; first [no_backend|the_backend].
  - destruct (proxy_New connects c) as [err|opts] eqn:Hp.
    + split; [done|]. destruct b as [| |opts]; simpl; rewrite Hm; try naive_solver.
      intros (c' & [= <-] & Hx%proxy_New_spec). congruence.
    + apply proxy_New_spec in Hp. destruct b as [| |opts']; simpl; rewrite Hm; [no_backend|no_backend|].
      split; [intros [= <-]; by exists c|backend_cases; intros; backend_cases; congruence].
Qed.

Lemma backend_for_mode pick connects m b : backend_for pick connects m b → ∃ x, modes m = [x].
Proof. destruct b; simpl; naive_solver. Qed.

Lemma loadConfig_spec path cfg :
  loadConfig path = inr cfg ↔
  ∃ data, ReadFile path = Some data ∧ Unmarshal (ExpandEnv data) = Some cfg
          ∧ ∀ c, Proxy (Mode cfg) = Some c → valid_client c.
Proof.
  unfold loadConfig. destruct (ReadFile path) as [data|]; [|naive_solver].
  destruct (Unmarshal (ExpandEnv data)) as [cfg'|] eqn:Hu; [|naive_solver].
  setoid_rewrite <- Validate_spec. destruct (Proxy (Mode cfg')) as [p|] eqn:Hp; [|naive_solver].
  destruct (Validate p) eqn:Hv; naive_solver.
Qed.

(** C34: The coordinator starts exactly if its configuration can be read and
    parsed, names an address to listen on, has exactly one mode, and that mode is
    complete: a time to live for single and distributed, a Redis endpoint and
    usable TLS files for distributed, a valid client configuration for proxy. It
    then runs the backend of that mode, and serves with TLS exactly if TLS is
    configured, verifying clients exactly if a client CA is. *)
Theorem startup_spec path pick connects b creds :
  startup path pick connects = inr (b, creds) ↔
  ∃ data cfg, starts_with pick connects path b creds data cfg.
Proof.
  unfold startup. split.
  - destruct (loadConfig path) as [err|cfg] eqn:Hl; [done|].
    apply loadConfig_spec in Hl as (data & Hr & Hu & Hv).
    destruct (empty (GRPCListen cfg)) eqn:Hg; [done|]. apply empty_false in Hg.
    rewrite active_spec. destruct (modes (Mode cfg)) as [|x []] eqn:Hm; [done| |done].
    destruct (make_backend pick connects x) as [err|b'] eqn:Hb; [done|].
    apply (make_backend_spec _ _ _ _ _ Hm) in Hb.
    destruct (Credentials (s_TLS cfg)) as [err|creds'] eqn:Hc; [done|]. apply Credentials_spec in Hc.
    intros [= <- <-]. by exists data, cfg.
  - intros (data & cfg & [Hr Hu Hv Hg Hb Hc]).
    rewrite (proj2 (loadConfig_spec path cfg)) by eauto.
    rewrite (proj2 (empty_false _) Hg), active_spec.
    destruct (backend_for_mode _ _ _ _ Hb) as [x Hm]. rewrite Hm.
    rewrite (proj2 (make_backend_spec _ _ _ _ _ Hm) Hb), (proj2 (Credentials_spec _ _) Hc). done.
Qed.
End startup.
