(* ===== verification/Serve.v ===== *)
(** * The life of a coordinator's process

    [Start] of coordinator/server/server.go and the end of main.go: the server
    accepts streams until SIGTERM, gives them the shutdown timeout to end, and
    closes them then. gRPC's server is a library: as documented, [GracefulStop]
    accepts no more streams and blocks until all have ended, [Stop] cancels them,
    and [Serve] returns nil after either, and an error if accepting fails. A call of
    main.go's closure [onNotify], made by the goroutine that receives from a stream,
    has a transition for its test of the context, one for the key it adds and one
    for what it publishes, so that a signal may fall in between. *)

From S2P Require Import Prelude Bytes PubSub Server Streams.
From Stdlib Require Strings.String.

(** The name of a stream, from eight random bytes. *)
Definition randomID (b : bytes) : string := String.string_of_list_byte (hex_encode b).

Lemma randomID_inj b b' : randomID b = randomID b' → b = b'.
Proof.
  unfold randomID. intros E. apply (inj hex_encode). apply (f_equal String.list_byte_of_string) in E.
  by rewrite !String.list_byte_of_string_of_list_byte in E.
Qed.

(** Where the process is: in [Serve], waiting for a signal; waiting for
    [GracefulStop] or its deadline; having called [Stop]; behind [Start]; gone. *)
Inductive phase :=
| PServe
| PGraceful (deadline : Time)
| PForced
| PReturned (failed : bool)
| PExited (code : Z).

Section serve.
Context `{K : KeyStore}.
Variable P : backend.                  (* [ps.Publish] *)
Variable shutdownTimeout : Duration.

(** A call of [onNotify] under way: the identifier, after the test of [ctx.Err()];
    what [Publish] made of it, after its access to the store (whether it is new, the
    error its PUBLISH will get, what will go to the handler or to the channel). *)
Inductive notifyCall :=
| NChecked (tid : bytes)
| NSet (novel : bool) (err : option publishError) (out : list bytes).

(** [pr_calls] are the calls of [onNotify] under way, one per stream at most: the
    goroutine that receives from the stream makes it. [pr_signalled] is
    [ctx.Err() != nil]; [pr_since] is a history: when [GracefulStop] was called. *)
Record process := MkProcess {
  pr_server : Server;
  pr_notify : notifyState;
  pr_calls : gmap nat notifyCall;
  pr_phase : phase;
  pr_signalled : bool;
  pr_now : Time;
  pr_since : Time;
}.

(** [listens] is whether [net.Listen] succeeds. *)
Definition new_process (listens : bool) (s : Store) (now : Time) : process :=
  MkProcess new_server (MkNotify s 0 []) ∅ (if listens then PServe else PReturned true) false now now.

Definition stop_timeout : Duration := if shutdownTimeout =? 0 then 10 * second else shutdownTimeout.

Definition set_phase (ph : phase) (p : process) : process :=
  MkProcess (pr_server p) (pr_notify p) (pr_calls p) ph (pr_signalled p) (pr_now p) (pr_since p).

Inductive serve_label :=
| SConnect (b : bytes)                (* a stream begins; the random bytes *)
| SNotify (i : nat) (tid : bytes)     (* a notification arrives, and ctx.Err() is tested *)
| SSet (i : nat)                      (* Publish adds the key: cache.Add, SET *)
| SPublish (i : nat)                  (* and calls the handler, or PUBLISH; the counter *)
| SServer (l : server_label)          (* another step of the server *)
| SSignal                             (* SIGINT or SIGTERM *)
| SAcceptFails
| SGraceful                           (* the goroutine sees the signal *)
| SDrained                            (* GracefulStop returns *)
| STimeout                            (* the select sees the deadline: Stop *)
| SReturn                             (* Serve returns after Stop *)
| SExit                               (* ps.Close and the end of main, or fatal *)
| SClock (t : Time).

Definition all_ended (s : Server) : bool := forallb e_done (s_entries s).

Definition server_free (l : server_label) : bool := match l with VConnect _ | VRecv _ (Some _) => false | _ => true end.

(** The goroutine that receives from a stream is not in [onNotify] when it takes
    its next step. *)
Definition receiver_free (calls : gmap nat notifyCall) (l : server_label) : bool :=
  match l with
  | VRecv i _ | VRemove i | VDone i => bool_decide (calls !! i = None)
  | _ => true
  end.

(** The counter grows if the id is new and there was no error. *)
Definition counted (novel : bool) (err : option publishError) : Z :=
  match err with Some _ => 0 | None => if novel then 1 else 0 end.

Definition serve_exec (l : serve_label) (p : process) : option process :=
  match pr_phase p with
  | PExited _ => None
  | ph =>
      match l with
      | SConnect b =>
          match ph with
          | PServe =>
              if len b =? 8 then
                s ← server_exec (VConnect (randomID b)) (pr_server p);
                Some (MkProcess s (pr_notify p) (pr_calls p) ph (pr_signalled p) (pr_now p) (pr_since p))
              else None
          | _ => None
          end
      | SNotify i tid =>
          match ph with
          | PServe | PGraceful _ =>
              if receiver_free (pr_calls p) (VRecv i (Some tid)) then
                s ← server_exec (VRecv i (Some tid)) (pr_server p);
                let calls := if pr_signalled p then pr_calls p else <[i := NChecked tid]> (pr_calls p) in
                Some (MkProcess s (pr_notify p) calls ph (pr_signalled p) (pr_now p) (pr_since p))
              else None
          | _ => None
          end
      | SSet i =>
          match pr_calls p !! i with
          | Some (NChecked tid) =>
              let n := pr_notify p in
              let '(novel, err, out, s) := P (pr_now p) tid (n_store n) in
              Some (MkProcess (pr_server p) (MkNotify s (n_interestingTraces n) (n_out n))
                      (<[i := NSet novel err out]> (pr_calls p)) ph (pr_signalled p) (pr_now p) (pr_since p))
          | _ => None
          end
      | SPublish i =>
          match pr_calls p !! i with
          | Some (NSet novel err out) =>
              let n := pr_notify p in
              Some (MkProcess (pr_server p)
                      (MkNotify (n_store n) (n_interestingTraces n + counted novel err) (n_out n ++ out))
                      (delete i (pr_calls p)) ph (pr_signalled p) (pr_now p) (pr_since p))
          | _ => None
          end
      | SServer l =>
          if server_free l && receiver_free (pr_calls p) l then
            s ← server_exec l (pr_server p);
            Some (MkProcess s (pr_notify p) (pr_calls p) ph (pr_signalled p) (pr_now p) (pr_since p))
          else None
      | SSignal => Some (MkProcess (pr_server p) (pr_notify p) (pr_calls p) ph true (pr_now p) (pr_since p))
      | SAcceptFails => match ph with PServe => Some (set_phase (PReturned true) p) | _ => None end
      | SGraceful =>
          match ph with
          | PServe =>
              if pr_signalled p then
                Some (MkProcess (pr_server p) (pr_notify p) (pr_calls p) (PGraceful (pr_now p + stop_timeout)) true
                        (pr_now p) (pr_now p))
              else None
          | _ => None
          end
      | SDrained =>
          match ph with
          | PGraceful _ => if all_ended (pr_server p) then Some (set_phase (PReturned false) p) else None
          | _ => None
          end
      | STimeout =>
          match ph with
          | PGraceful deadline => if deadline <=? pr_now p then Some (set_phase PForced p) else None
          | _ => None
          end
      | SReturn => match ph with PForced => Some (set_phase (PReturned false) p) | _ => None end
      | SExit => match ph with PReturned failed => Some (set_phase (PExited (if failed then 1 else 0)) p) | _ => None end
      | SClock t =>
          if pr_now p <=? t
          then Some (MkProcess (pr_server p) (pr_notify p) (pr_calls p) ph (pr_signalled p) t (pr_since p)) else None
      end
  end.

Inductive serve_reachable : process → Prop :=
| serve_new listens s now : serve_reachable (new_process listens s now)
| serve_step l p p' : serve_reachable p → serve_exec l p = Some p' → serve_reachable p'.

Fixpoint serve_run (ls : list serve_label) (p : process) : option process :=
  match ls with [] => Some p | l :: ls => p' ← serve_exec l p; serve_run ls p' end.

Lemma serve_run_reachable ls p p' : serve_run ls p = Some p' → serve_reachable p → serve_reachable p'.
Proof.
  revert p. induction ls as [|l ls IH]; intros p Hr Hp; simpl in Hr; [by simplify_eq|].
  destruct (serve_exec l p) as [p1|] eqn:He; [|done]. apply (IH p1 Hr). by eapply serve_step.
Qed.

(** ** The invariant *)

(** The shutdown was asked for, and the streams have ended or the time is over. *)
Definition shut_down (p : process) : Prop :=
  pr_signalled p = true ∧ (all_ended (pr_server p) = true ∨ pr_since p + stop_timeout <= pr_now p).

Record process_ok (p : process) : Prop := {
  po_server : server_reachable (pr_server p);
  po_phase : match pr_phase p with
             | PServe => True
             | PGraceful deadline => pr_signalled p = true ∧ deadline = pr_since p + stop_timeout
             | PForced => pr_signalled p = true ∧ pr_since p + stop_timeout <= pr_now p
             | PReturned failed => failed = false → shut_down p
             | PExited code => code = 0 → shut_down p
             end;
}.

(** Streams that have ended stay so, and there are no new ones. *)
Lemma ended_step l s s' :
  server_reachable s → server_exec l s = Some s' → (∀ id, l ≠ VConnect id) → all_ended s = true → all_ended s' = true.
Proof.
  unfold all_ended. intros Hs%server_reachable_ok He Hl Hall%Is_true_eq_left%forallb_True.
  apply Is_true_eq_true, forallb_True, Forall_lookup. intros j e' Hj'.
  destruct (lookup_lt_is_Some_2 (s_entries s) j) as [e Hj].
  { apply lookup_lt_Some in Hj'. rewrite (server_length _ _ _ He) in Hj'. destruct l; try lia. by destruct (Hl id). }
  apply Is_true_eq_left. eapply step_done; [done|exact He|exact Hj|exact Hj'|].
  rewrite Forall_lookup in Hall. by apply Is_true_eq_true, (Hall j).
Qed.

Lemma shut_down_server l p s n c :
  server_reachable (pr_server p) → server_exec l (pr_server p) = Some s → (∀ id, l ≠ VConnect id) → shut_down p →
  shut_down (MkProcess s n c (pr_phase p) (pr_signalled p) (pr_now p) (pr_since p)).
Proof. intros Hs He Hl [? [Hall|?]]; (split; [done|]); [left; by eapply ended_step|by right]. Qed.

Lemma serve_exec_ok l p p' : serve_exec l p = Some p' → process_ok p → process_ok p'.
Proof.
  intros He [Hs Hp]. unfold serve_exec in He.
  assert (∀ sl s, server_exec sl (pr_server p) = Some s → server_reachable s) as Hstep by (intros; by eapply server_step).
  assert (∀ sl s n c, server_free sl = true → server_exec sl (pr_server p) = Some s → shut_down p →
    shut_down (MkProcess s n c (pr_phase p) (pr_signalled p) (pr_now p) (pr_since p))) as Hdown
    by (intros sl s n c Hf Hsl; eapply shut_down_server; [done|exact Hsl|]; intros x ->; done).
  assert (∀ n c ph, shut_down p → shut_down (MkProcess (pr_server p) n c ph (pr_signalled p) (pr_now p) (pr_since p)))
    as Hcall by done.
  destruct (pr_phase p) as [|deadline| |failed|code] eqn:Hph; [| | | |done];
    destruct l as [b|i tid|i|i|sl| | | | | | | |t]; try done; exec_inv He;
    repeat match goal with H : _ && _ = true |- _ => apply andb_true_iff in H as [? ?] end;
    split; simpl; rewrite ?Hph; eauto.
  - done.
  - by destruct Hp.
  - destruct Hp. intros _. split; [done|by left].
  - destruct Hp as [? ->]. split; [done|lia].
  - by destruct Hp.
  - destruct Hp. intros _. split; [done|by right].
  - destruct Hp. split; [done|lia].
  - intros Hf. destruct (Hp Hf) as [? ?]. by split.
  - intros Hf. by destruct failed; [|destruct (Hp eq_refl); split].
  - intros Hf. destruct (Hp Hf) as [? [?|?]]; (split; [done|]); [by left|right; simpl; lia].
Qed.

Lemma serve_reachable_ok p : serve_reachable p → process_ok p.
Proof.
  induction 1 as [listens s now|l p p' _ IH He]; [|by eapply serve_exec_ok].
  split; [constructor|]. by destruct listens.
Qed.

(** ** The theorems *)

(** A call that nothing interrupts is the closure of main.go. *)
Lemma call_onNotify i tid p p' :
  pr_signalled p = false → serve_run [SNotify i tid; SSet i; SPublish i] p = Some p' →
  pr_notify p' = onNotify false P (pr_now p) tid (pr_notify p) ∧ pr_calls p' = pr_calls p.
Proof.
  intros Hs Hr. cbn [serve_run] in Hr. destruct (serve_exec (SNotify i tid) p) as [p1|] eqn:E1; [|done].
  assert (pr_calls p !! i = None ∧ pr_calls p1 = <[i := NChecked tid]> (pr_calls p) ∧ pr_notify p1 = pr_notify p ∧
    pr_now p1 = pr_now p ∧ pr_phase p1 = pr_phase p ∧ ∀ code, pr_phase p ≠ PExited code) as (Hi & Ec & En & Et & Eph & Hx).
  { unfold serve_exec in E1. rewrite Hs in E1. destruct (pr_phase p) eqn:Hph; try done; exec_inv E1;
      match goal with H : receiver_free _ _ = true |- _ => apply bool_decide_eq_true in H end; by rewrite ?Hph. }
  cbn [mbind option_bind] in Hr. destruct (serve_exec (SSet i) p1) as [p2|] eqn:E2; [|done].
  cbn [mbind option_bind] in Hr. unfold serve_exec in E2. rewrite Ec, lookup_insert_eq, En, Et, Eph in E2.
  unfold onNotify. destruct (P _ _ _) as [[[novel err] out] s].
  destruct (serve_exec (SPublish i) p2) as [p3|] eqn:E3; [|done]. simplify_eq/=.
  destruct (pr_phase p) as [| | | |code]; try (by destruct (Hx code)); simplify_eq;
    unfold serve_exec in E3; simpl in E3; rewrite lookup_insert_eq in E3; simplify_eq/=;
    (split; [done|]); by rewrite insert_insert_eq, delete_insert_id.
Qed.

(** The identifiers of the calls under way: to be published still. *)
Definition call_ids (c : notifyCall) : list bytes :=
  match c with NChecked tid => [tid] | NSet _ _ out => out end.
Definition ids_of (m : gmap nat notifyCall) : list bytes := mjoin (call_ids <$> (map_to_list m).*2).
Definition under_way (p : process) : list bytes := ids_of (pr_calls p).

Lemma ids_of_insert m i c : ids_of (<[i := c]> m) ≡ₚ call_ids c ++ ids_of (delete i m).
Proof.
  unfold ids_of. rewrite <- insert_delete_eq, map_to_list_insert by apply lookup_delete_eq. done.
Qed.

Lemma ids_of_lookup m i c : m !! i = Some c → ids_of m ≡ₚ call_ids c ++ ids_of (delete i m).
Proof. intros Hi. rewrite <- (insert_id m i c Hi) at 1. apply ids_of_insert. Qed.

Hypothesis P_own : ∀ now tid s, out_of (P now tid s) ⊆+ [tid].

(** From the signal on nothing but the calls under way is published. *)
Lemma serve_signalled l p p' :
  serve_exec l p = Some p' → pr_signalled p = true →
  pr_signalled p' = true ∧ ∃ k, n_out (pr_notify p') = n_out (pr_notify p) ++ k ∧
    k ++ under_way p' ⊆+ under_way p.
Proof.
  intros He Hs. unfold serve_exec in He. rewrite Hs in He. unfold under_way.
  destruct (pr_phase p) as [|deadline| |failed|code] eqn:Hph; [| | | |done];
    destruct l as [b|i tid|i|i|sl| | | | | | | |t]; try done;
    lazymatch type of He with
    | context [P] =>
        destruct (pr_calls p !! i) as [[tid|]|] eqn:Hi; try done;
        pose proof (P_own (pr_now p) tid (n_store (pr_notify p))) as Ho; unfold out_of in Ho;
        destruct (P _ _ _) as [[[novel err] out] s]; simplify_eq; simpl;
        (split; [done|]); exists []; (split; [by rewrite app_nil_r|]);
        rewrite ids_of_insert, (ids_of_lookup _ _ _ Hi); simpl;
        by apply (submseteq_skips_r _ out [tid])
    | context [delete i _] =>
        destruct (pr_calls p !! i) as [[|novel err out]|] eqn:Hi; try done; simplify_eq; simpl;
        (split; [done|]); exists out; (split; [done|]); by rewrite (ids_of_lookup _ _ _ Hi)
    | _ => exec_inv He; (split; [done|]); exists []; (split; [by rewrite app_nil_r|done])
    end.
Qed.

Lemma serve_run_signalled ls p p' :
  serve_run ls p = Some p' → pr_signalled p = true →
  ∃ k, n_out (pr_notify p') = n_out (pr_notify p) ++ k ∧ k ++ under_way p' ⊆+ under_way p.
Proof.
  revert p. induction ls as [|l ls IH]; intros p Hr Hs; simpl in Hr.
  { simplify_eq. exists []. by rewrite app_nil_r. }
  destruct (serve_exec l p) as [p1|] eqn:He; [|done].
  destruct (serve_signalled _ _ _ He Hs) as (Hs1 & k1 & E1 & H1). destruct (IH p1 Hr Hs1) as (k2 & E2 & H2).
  exists (k1 ++ k2). rewrite E2, E1, <- !app_assoc. split; [done|]. etransitivity; [|exact H1].
  by apply submseteq_skips_l.
Qed.

(** C29: the shutdown is graceful as far as it can be. When the process has ended
    well, it was signalled, and either all streams have ended or the shutdown
    timeout is over: a client that keeps its stream open, as processors and proxies
    do, makes the shutdown last for the whole timeout. From the signal on the
    process publishes only what it had tested [ctx.Err()] for before: every id
    published is that of a call under way at the signal, once, and with none under
    way nothing is published any more. *)
Theorem shutdown_graceful p :
  serve_reachable p →
  (pr_phase p = PExited 0 → pr_signalled p = true ∧
     (all_ended (pr_server p) = true ∨ pr_since p + stop_timeout <= pr_now p)) ∧
  ∀ ls p', serve_run ls p = Some p' → pr_signalled p = true →
    ∃ k, n_out (pr_notify p') = n_out (pr_notify p) ++ k ∧ k ++ under_way p' ⊆+ under_way p.
Proof.
  intros [_ Hp]%serve_reachable_ok. split; [intros Hph; rewrite Hph in Hp; by apply Hp|].
  intros ls p'. apply serve_run_signalled.
Qed.

(** The labels of the process itself, and of its clock. *)
Definition stopping_label (l : serve_label) : bool :=
  match l with SGraceful | STimeout | SReturn | SExit | SClock _ => true | _ => false end.

Lemma run_forced p :
  pr_phase p = PForced → ∃ p', serve_run [SReturn; SExit] p = Some p' ∧ pr_phase p' = PExited 0 ∧ pr_now p' = pr_now p.
Proof. intros Hph. eexists. simpl. unfold serve_exec. rewrite Hph. simpl. split; [reflexivity|done]. Qed.

Lemma run_graceful p deadline :
  pr_phase p = PGraceful deadline →
  ∃ ls p', Forall (λ l, stopping_label l = true) ls ∧ serve_run ls p = Some p' ∧ pr_phase p' = PExited 0 ∧
    pr_now p' <= Z.max (pr_now p) deadline.
Proof.
  intros Hph. set (t := Z.max (pr_now p) deadline).
  set (p1 := MkProcess (pr_server p) (pr_notify p) (pr_calls p) (PGraceful deadline) (pr_signalled p) t (pr_since p)).
  destruct (run_forced (set_phase PForced p1) eq_refl) as (p' & Hr & Hx & Hn).
  exists [SClock t; STimeout; SReturn; SExit], p'. split; [by repeat constructor|].
  assert (serve_exec (SClock t) p = Some p1) as E1.
  { unfold serve_exec. rewrite Hph. by rewrite (proj2 (Z.leb_le (pr_now p) t)) by lia. }
  assert (serve_exec STimeout p1 = Some (set_phase PForced p1)) as E2.
  { unfold serve_exec. simpl. by rewrite (proj2 (Z.leb_le deadline t)) by lia. }
  cbn [serve_run]. rewrite E1. cbn [mbind option_bind]. rewrite E2. cbn [mbind option_bind serve_run] in *.
  split; [exact Hr|]. split; [done|]. rewrite Hn. simpl. lia.
Qed.

(** C28: the shutdown is bounded. Once the process is signalled it ends, without the
    help of any stream, before the shutdown timeout (10 seconds if it is not set)
    has passed since [GracefulStop] was called or, if it is still to be called,
    from now. *)
Theorem shutdown_bounded p :
  serve_reachable p → pr_signalled p = true → (∀ code, pr_phase p ≠ PExited code) →
  ∃ ls p' code, Forall (λ l, stopping_label l = true) ls ∧ serve_run ls p = Some p' ∧ pr_phase p' = PExited code ∧
    pr_now p' <= Z.max (pr_now p) ((match pr_phase p with PServe => pr_now p | _ => pr_since p end) + stop_timeout).
Proof.
  intros [_ Hp]%serve_reachable_ok Hsig Hne. destruct (pr_phase p) as [|deadline| |failed|code] eqn:Hph.
  - destruct (run_graceful (MkProcess (pr_server p) (pr_notify p) (pr_calls p) (PGraceful (pr_now p + stop_timeout)) true (pr_now p) (pr_now p))
      (pr_now p + stop_timeout) eq_refl) as (ls & p' & Hls & Hr & Hx & Hn).
    exists (SGraceful :: ls), p', 0. split; [by constructor|]. split; [|done]. cbn [serve_run]. unfold serve_exec. by rewrite Hph, Hsig.
  - destruct Hp as [_ ->]. destruct (run_graceful p _ Hph) as (ls & p' & Hls & Hr & Hx & Hn). by exists ls, p', 0.
  - destruct (run_forced p Hph) as (p' & Hr & Hx & Hn). exists [SReturn; SExit], p', 0.
    split; [by repeat constructor|]. split; [done|]. split; [done|]. lia.
  - exists [SExit]. eexists _, _. split; [by repeat constructor|]. simpl. unfold serve_exec. rewrite Hph. simpl.
    split; [done|]. split; [done|]. simpl. lia.
  - by destruct (Hne code).
Qed.
End serve.

(** ** A stream that its client keeps open *)

#[local] Existing Instance Simple.store.

Definition demo_serving : list serve_label :=
  [SConnect (replicate 8 x01); SNotify 0 (demo_tid x0a); SSet 0; SSignal].

Definition demo_stops : list serve_label :=
  [SPublish 0; SNotify 0 (demo_tid x0b); SGraceful; SClock (10 * second); STimeout; SReturn; SServer (VRemove 0);
   SServer (VDone 0); SExit].

Definition demo_P : backend := memory_Publish 10.
Definition demo_run (ls : list serve_label) : option process := serve_run demo_P 0 ls (new_process true ∅ 0).
Definition demo_process (ls : list serve_label) : process := default (new_process true ∅ 0) (demo_run ls).

Lemma demo_process_run ls : (if demo_run ls then true else false) = true → demo_run ls = Some (demo_process ls).
Proof. unfold demo_process. by destruct (demo_run ls). Qed.

Lemma demo_serve_reachable ls : (if demo_run ls then true else false) = true → serve_reachable demo_P 0 (demo_process ls).
Proof. intros Hr. eapply serve_run_reachable; [by apply demo_process_run|constructor]. Qed.

Lemma demo_P_own now tid s : out_of (demo_P now tid s) ⊆+ [tid].
Proof. apply (backend_own Memory 10 (λ _ _, true)). Qed.

(** The call that the signal finds under way publishes, the notification that
    arrives after the signal is ignored. *)
Lemma shutdown_graceful_witness :
  let p := demo_process demo_serving in
  let p' := demo_process (demo_serving ++ demo_stops) in
  pr_phase p' = PExited 0 ∧ pr_signalled p' = true ∧
  (all_ended (pr_server p') = true ∨ pr_since p' + 10 * second <= pr_now p') ∧
  under_way p = [demo_tid x0a] ∧ n_out (pr_notify p) = [] ∧ n_out (pr_notify p') = [demo_tid x0a] ∧
  ∃ k, n_out (pr_notify p') = n_out (pr_notify p) ++ k ∧ k ++ under_way p' ⊆+ under_way p.
Proof.
  set (p := demo_process demo_serving). set (p' := demo_process (demo_serving ++ demo_stops)). cbv zeta.
  assert (serve_reachable demo_P 0 p) as Hr by (apply demo_serve_reachable; vm_compute; reflexivity).
  assert (serve_reachable demo_P 0 p') as Hr' by (apply demo_serve_reachable; vm_compute; reflexivity).
  assert (serve_run demo_P 0 demo_stops p = Some p') as Hrun by (vm_compute; reflexivity).
  assert (pr_phase p' = PExited 0) as Hp by (vm_compute; reflexivity).
  assert (pr_signalled p = true) as Hs by (vm_compute; reflexivity).
  assert (under_way p = [demo_tid x0a] ∧ n_out (pr_notify p) = [] ∧ n_out (pr_notify p') = [demo_tid x0a]) as (H1 & H2 & H3)
    by (split; [|split]; vm_compute; reflexivity).
  destruct (proj1 (shutdown_graceful demo_P 0 demo_P_own p' Hr') Hp) as [Hsig Hend].
  exact (conj Hp (conj Hsig (conj Hend (conj H1 (conj H2 (conj H3
    (proj2 (shutdown_graceful demo_P 0 demo_P_own p Hr) demo_stops p' Hrun Hs))))))).
Defined.

Lemma shutdown_bounded_witness :
  let p := demo_process demo_serving in
  ∃ ls p' code, Forall (λ l, stopping_label l = true) ls ∧ serve_run demo_P 0 ls p = Some p' ∧
    pr_phase p' = PExited code ∧ pr_now p' <= 10 * second.
Proof.
  set (p := demo_process demo_serving). cbv zeta.
  assert (serve_reachable demo_P 0 p) as Hr by (apply demo_serve_reachable; vm_compute; reflexivity).
  assert (pr_phase p = PServe) as Hp by (vm_compute; reflexivity).
  assert (pr_signalled p = true) as Hs by (vm_compute; reflexivity).
  assert (pr_now p = 0) as Hn by (vm_compute; reflexivity).
  destruct (shutdown_bounded demo_P 0 p Hr Hs) as (ls & p' & code & H1 & H2 & H3 & H4).
  { intros code. rewrite Hp. discriminate. }
  rewrite Hp, Hn in H4. exists ls, p', code. exact (conj H1 (conj H2 (conj H3 H4))).
Defined.
