(* ===== verification/Tracegen.v ===== *)
(** * The trace generator

    cmd/tracegen/main.go: it emits traces of [svcCount] spans, one in a hundred
    with an error, listens to what the pipeline under test forwards, and counts
    the spans that come back and how complete the error traces are. Times are in
    seconds. Floating point counters are integers here, as they count. *)

From stdpp Require Import functions pretty.
From S2P Require Import Prelude Bytes Interest.

(** ** Trace identifiers

    [traceID] and its layout: a [uint32] (little-endian), a byte, a bool, and
    two bytes of padding, at the start of the 16 bytes. *)
Record traceID := MkTraceID { ti_id : Z; ti_code : Z; ti_isErr : bool }.

Definition put_traceID (t : traceID) : TraceID :=
  rev (PutUint32 (ti_id t)) ++ [byte_of_Z (ti_code t); byte_of_Z (if ti_isErr t then 1 else 0)] ++ zeroes 10.

(** The slice's bytes seen through a pointer to a [traceID] of 8 bytes: [None] if
    that reads outside the slice. *)
Definition view_traceID (b : bytes) : option traceID :=
  match b with
  | b0 :: b1 :: b2 :: b3 :: c :: e :: _ :: _ :: _ =>
      Some (MkTraceID (Uint32 [b3; b2; b1; b0]) (Z_of_byte c) (negb (Z_of_byte e =? 0)))
  | _ => None
  end.

(** ** Spans *)

(** The parts of an OTLP span that are set and checked. The value of an
    attribute is [None] if it is not an integer. *)
Record span := MkSpan {
  sp_traceID : bytes;
  sp_name : string;
  sp_attributes : list (string * option Z);
  sp_error : bool;
}.

(** [fmt.Sprintf("svc%d.handle", seq)] *)
Definition span_name (seq : Z) : string := String.append "svc" (String.append (pretty seq) ".handle").

Definition GetIntValue (v : option Z) : Z := default 0 v.

(** The loop over the attributes: the last [my.seq] counts. *)
Definition span_seq (attrs : list (string * option Z)) : Z :=
  foldl (λ seq a, if String.eqb a.1 "my.seq" then GetIntValue a.2 else seq) (-1) attrs.

(** ** The state *)

Record traceSlot := MkSlot { sl_id : Z; sl_age : Z; sl_spans : Z; sl_errSvc : Z }.

Inductive verdict := Foreign | NonError | Corrupted | Dup | Late | Valid.
Inductive completeness := Full | Partial | NoSpans.

#[global] Instance verdict_eq_dec : EqDecision verdict.
Proof. solve_decision. Defined.
#[global] Instance completeness_eq_dec : EqDecision completeness.
Proof. solve_decision. Defined.

(** [traces] and [tracesQ] share the elements of the list, pointers to slots
    that [Export] updates in place. *)
Record gen := MkGen {
  g_traces : gmap Z loc;
  g_tracesQ : list loc;           (* front first *)
  g_slots : gmap loc traceSlot;   (* the values of the elements *)
  g_next : loc;
  g_counter : Z;                  (* TraceIDGen.counter *)
  g_SpansGot : verdict → Z;
  g_TracesGot : completeness → Z;
  g_TracesSent : bool → Z;
}.

Definition new_gen : gen := MkGen ∅ [] ∅ 0%nat 0 (λ _, 0) (λ _, 0) (λ _, 0).

Definition set_slot (el : loc) (sl : traceSlot) (g : gen) : gen :=
  MkGen (g_traces g) (g_tracesQ g) (<[el := sl]> (g_slots g)) (g_next g) (g_counter g) (g_SpansGot g)
    (g_TracesGot g) (g_TracesSent g).

Section tracegen.
Variable svcCount : Z.   (* -services *)
Variable waitTime : Z.   (* -wait *)
Variable code : Z.       (* of this session *)

(** ** Receiving

    The body of the loop of [Export] for one span: the counter it goes to. The
    part under the lock is atomic. *)
Definition mark_span (seq : Z) (gotErr : bool) (id : Z) (g : gen) : verdict * gen :=
  let mask := Z.shiftl 1 seq in
  match el ← g_traces g !! id; sl ← g_slots g !! el; Some (el, sl) with
  | None => (Late, g)
  | Some (el, sl) =>
      if negb (Z.land (sl_spans sl) mask =? 0) then (Dup, g)
      else if negb (Bool.eqb (sl_errSvc sl =? seq) gotErr) then (Corrupted, g)
      else (Valid, set_slot el (MkSlot (sl_id sl) (sl_age sl) (Z.lor (sl_spans sl) mask) (sl_errSvc sl)) g)
  end.

Definition check_span (s : span) (g : gen) : option (verdict * gen) :=
  match view_traceID (sp_traceID s) with
  | None => None
  | Some trace =>
      if negb (ti_code trace =? code) then Some (Foreign, g)
      else if negb (ti_isErr trace) then Some (NonError, g)
      else
        let seq := span_seq (sp_attributes s) in
        if (seq <? 0) || (svcCount <=? seq) then Some (Corrupted, g)
        else if negb (String.eqb (sp_name s) (span_name seq)) then Some (Corrupted, g)
        else Some (mark_span seq (sp_error s) (ti_id trace) g)
  end.

(** The spans of a request in the order of the loops, with the local counters. *)
Fixpoint check_spans (l : list span) (n : verdict → Z) (g : gen) : option ((verdict → Z) * gen) :=
  match l with
  | [] => Some (n, g)
  | s :: l =>
      match check_span s g with
      | None => None
      | Some (v, g) => check_spans l (<[v := n v + 1]> n) g
      end
  end.

(** [Export] of a request with no other goroutine in between: resource spans,
    scope spans, spans. *)
Definition Export (req : list (list (list span))) (g : gen) : option gen :=
  match check_spans (concat (concat req)) (λ _, 0) g with
  | None => None
  | Some (n, g) =>
      Some (MkGen (g_traces g) (g_tracesQ g) (g_slots g) (g_next g) (g_counter g)
              (λ v, g_SpansGot g v + n v) (g_TracesGot g) (g_TracesSent g))
  end.

(** ** Emitting *)

(** [NewIDs]: the identifier of a new trace. *)
Definition NewIDs (isErr : bool) (g : gen) : traceID * gen :=
  let c := u32 (g_counter g + 1) in
  (MkTraceID c code isErr,
   MkGen (g_traces g) (g_tracesQ g) (g_slots g) (g_next g) c (g_SpansGot g) (g_TracesGot g) (g_TracesSent g)).

(** [NewSpanID]: random numbers until the 8 bytes are valid, which the library
    [trace] says. The machine stores the least significant byte first or last. *)
Definition native_PutUint64 (little : bool) (z : Z) : bytes := if little then rev (PutUint64 z) else PutUint64 z.

Fixpoint NewSpanID (IsValid : bytes → bool) (little : bool) (rand : list Z) : option bytes :=
  match rand with
  | [] => None
  | z :: rand =>
      let sid := native_PutUint64 little z in
      if IsValid sid then Some sid else NewSpanID IsValid little rand
  end.

(** [emit] up to the start of the root span. *)
Definition emit_start (isErr : bool) (g : gen) : traceID * gen :=
  NewIDs isErr (MkGen (g_traces g) (g_tracesQ g) (g_slots g) (g_next g) (g_counter g) (g_SpansGot g)
                  (g_TracesGot g) (<[isErr := g_TracesSent g isErr + 1]> (g_TracesSent g))).

(** The part of [emit] under the lock, for an error trace. *)
Definition emit_register (now : Z) (t : traceID) (errSvc : Z) (g : gen) : gen :=
  if ti_isErr t then
    let el := g_next g in
    MkGen (<[ti_id t := el]> (g_traces g)) (el :: g_tracesQ g) (<[el := MkSlot (ti_id t) now 0 errSvc]> (g_slots g))
      (S el) (g_counter g) (g_SpansGot g) (g_TracesGot g) (g_TracesSent g)
  else g.

Definition emit_span (t : traceID) (errSvc : Z) (i : Z) : span :=
  MkSpan (put_traceID t) (span_name i) [("my.seq"%string, Some i)] (ti_isErr t && (errSvc =? i)).

(** The spans in the order they end: the root last. *)
Definition emit_spans (t : traceID) (errSvc : Z) : list span :=
  (emit_span t errSvc <$> seqZ 1 (svcCount - 1)) ++ [emit_span t errSvc 0].

(** ** Sweeping *)

(** [bits.OnesCount64] *)
Definition OnesCount64 (x : Z) : Z := len (filter (λ k, Z.testbit x k = true) (seqZ 0 64)).

Definition classify (n : Z) : completeness :=
  if n =? svcCount then Full else if n =? 0 then NoSpans else Partial.

(** [delete(traces, s.id); tracesQ.Remove(e)] *)
Definition sweep_one (el : loc) (sl : traceSlot) (g : gen) : gen :=
  MkGen (delete (sl_id sl) (g_traces g)) (filter (.≠ el) (g_tracesQ g)) (delete el (g_slots g)) (g_next g)
    (g_counter g) (g_SpansGot g) (g_TracesGot g) (g_TracesSent g).

(** The loop, with the traces it removes, oldest first: the local counters
    [full], [part] and [none] are how many there are of a kind. *)
Fixpoint sweep_loop (fuel : nat) (now : Z) (g : gen) : list (Z * completeness) * gen :=
  match fuel with
  | O => ([], g)
  | S fuel =>
      match last (g_tracesQ g) with
      | None => ([], g)
      | Some el =>
          match g_slots g !! el with
          | None => ([], g)
          | Some sl =>
              if now - sl_age sl <? waitTime then ([], g)
              else let '(r, g) := sweep_loop fuel now (sweep_one el sl g) in
                   ((sl_id sl, classify (OnesCount64 (sl_spans sl))) :: r, g)
          end
      end
  end.

Definition count_of (c : completeness) (r : list (Z * completeness)) : Z := len (filter (λ x, x.2 = c) r).

(** [sweep]. Every round but the last removes an element of the queue. *)
Definition sweep (now : Z) (g : gen) : list (Z * completeness) * gen :=
  let '(r, g) := sweep_loop (S (length (g_tracesQ g))) now g in
  (r, MkGen (g_traces g) (g_tracesQ g) (g_slots g) (g_next g) (g_counter g) (g_SpansGot g)
        (λ c, g_TracesGot g c + count_of c r) (g_TracesSent g)).
End tracegen.

(** ** Bytes on the wire

    [counter]: either counter may be nil. *)
Inductive rpcStats := OutPayload (WireLength : Z) | InPayload (WireLength : Z) | OtherStats.

Record counter := MkCounter { c_in : option Z; c_out : option Z }.

Definition HandleRPC (s : rpcStats) (c : counter) : counter :=
  match s with
  | OutPayload n => MkCounter (c_in c) ((λ x, x + n) <$> c_out c)
  | InPayload n => MkCounter ((λ x, x + n) <$> c_in c) (c_out c)
  | OtherStats => c
  end.

(** ** [setup]: the exporters and the resources the tracers get

    [exporter] and [resource] are whether [otlptracegrpc.New] and
    [resource.New] succeed; a failure ends the process. Service [i] sends to the
    destinations in turn. *)
Record tracer := MkTracer { tr_endpoint : string; tr_service : string }.

Definition setup (exporter resource : string → bool) (dst : list string) (n : nat) : option (list tracer) :=
  mapM (λ i, endpoint ← dst !! (i mod length dst)%nat;
             let service := String.append "service-" (pretty i) in
             if exporter endpoint && resource service then Some (MkTracer endpoint service) else None)
       (seq 0 n).

(** ** The program: what happens in which order

    An [emit] goroutine starts its root span and takes an identifier
    ([GStart]); it registers the trace and from then on its spans end and are
    exported ([GRegister], of the [i]th that has not yet); any span may arrive
    ([GSpan]); the ticker sweeps ([GSweep]). *)
Inductive gen_label :=
| GStart (isErr : bool) (errSvc : Z)
| GRegister (i : nat) (now : Z)
| GSpan (s : span)
| GSweep (now : Z).

Record emitted := MkEmitted { em_traceID : traceID; em_errSvc : Z }.

(** [w_pending]: the traces between the two steps of [emit]. The last fields
    are histories: the traces past them, the spans received, and the traces
    swept. *)
Record world := MkWorld {
  w_gen : gen;
  w_pending : list emitted;
  w_emitted : list emitted;
  w_received : list (verdict * (Z * Z));   (* with the trace and the sequence number *)
  w_swept : list (Z * completeness);
}.

Definition new_world : world := MkWorld new_gen [] [] [] [].

Section world.
Variable svcCount waitTime code : Z.

Definition span_key (s : span) : Z * Z :=
  (default 0 (ti_id <$> view_traceID (sp_traceID s)), span_seq (sp_attributes s)).

Definition gen_exec (l : gen_label) (w : world) : option world :=
  match l with
  | GStart isErr errSvc =>
      if (0 <=? errSvc) && (errSvc <? svcCount) then
        let '(t, g) := emit_start code isErr (w_gen w) in
        Some (MkWorld g (w_pending w ++ [MkEmitted t errSvc]) (w_emitted w) (w_received w) (w_swept w))
      else None
  | GRegister i now =>
      e ← w_pending w !! i;
      Some (MkWorld (emit_register now (em_traceID e) (em_errSvc e) (w_gen w))
              (delete i (w_pending w)) (w_emitted w ++ [e]) (w_received w) (w_swept w))
  | GSpan s =>
      '(v, g) ← check_span svcCount code s (w_gen w);
      Some (MkWorld g (w_pending w) (w_emitted w) (w_received w ++ [(v, span_key s)]) (w_swept w))
  | GSweep now =>
      let '(r, g) := sweep svcCount waitTime now (w_gen w) in
      Some (MkWorld g (w_pending w) (w_emitted w) (w_received w) (w_swept w ++ r))
  end.

Fixpoint gen_run (ls : list gen_label) (w : world) : option world :=
  match ls with [] => Some w | l :: ls => w ← gen_exec l w; gen_run ls w end.
End world.
