(* ===== verification/TracegenProps.v ===== *)
(** * What the trace generator's verdicts mean

    The identifiers it stamps on traces come back, its own spans are never
    taken for corrupted ones, and the completeness a sweep reports is decided by
    the spans counted as expected. *)

From stdpp Require Import functions pretty.
From S2P Require Import Prelude Bytes Interest Tracegen.

(** ** Trace identifiers *)

Lemma view_put t : 0 <= ti_id t < 2 ^ 32 → 0 <= ti_code t < 256 → view_traceID (put_traceID t) = Some t.
Proof.
  destruct t as [id code e]. simpl. intros Hid Hcode. pose proof (Uint32_put id) as Hu.
  rewrite wrapU_small in Hu by done.
  unfold put_traceID, PutUint32 in *. cbn [be_put] in *. simpl. unfold view_traceID. simpl.
  rewrite Hu, Z_of_byte_of_Z, Z.mod_small by done. by destruct e.
Qed.

(** An identifier written into a trace id by [NewIDs] is read back by
    [Export]: the 32-bit number, the session's code and the error flag. *)
Theorem traceID_roundtrip id code isErr :
  0 <= id < 2 ^ 32 → 0 <= code < 256 →
  view_traceID (put_traceID (MkTraceID id code isErr)) = Some (MkTraceID id code isErr).
Proof.
  intros Hid Hcode. by apply view_put.
Qed.

Lemma traceID_roundtrip_witness :
  (0 <= 70000 < 2 ^ 32 ∧ 0 <= 200 < 256) ∧
  view_traceID (put_traceID (MkTraceID 70000 200 true)) = Some (MkTraceID 70000 200 true).
Proof. split; [lia|]. apply traceID_roundtrip; lia. Defined.

(** ** Span identifiers *)

Lemma zero_bytes l : forallb (λ b, Z_of_byte b =? 0) l = true → be_get l = 0.
Proof.
  unfold be_get. induction l as [|b l IH]; [done|]. cbn [forallb be_get_acc].
  intros [Hb%Z.eqb_eq Hl]%andb_true_iff. rewrite Hb. by apply IH.
Qed.

(** Documented: a span identifier is valid if it does not consist of zeros only. *)
Definition not_zeros (sid : bytes) : bool := negb (forallb (λ b, Z_of_byte b =? 0) sid).

Lemma not_zeros_native little z : 0 <= z < 2 ^ 64 → not_zeros (native_PutUint64 little z) = negb (z =? 0).
Proof.
  intros Hz. unfold not_zeros, native_PutUint64. f_equal.
  assert (∀ l, forallb (λ b, Z_of_byte b =? 0) (rev l) = forallb (λ b, Z_of_byte b =? 0) l) as Hrev.
  { intros l. apply eq_iff_eq_true. rewrite !forallb_forall. by setoid_rewrite <- in_rev. }
  assert (forallb (λ b, Z_of_byte b =? 0) (PutUint64 z) = (z =? 0)) as Hp.
  { destruct (Z.eqb_spec z 0) as [->|Hne]; [done|]. destruct (forallb _ _) eqn:E; [|done].
    apply zero_bytes in E. unfold PutUint64 in E. rewrite be_get_put in E. unfold wrapU in E.
    change (8 * Z.of_nat 8) with 64 in E. rewrite Z.mod_small in E by done. done. }
  destruct little; [by rewrite Hrev|done].
Qed.

(** [NewSpanID] ends with the first random number that is not 0, and with an
    identifier of 8 bytes that is valid, on machines of either byte order. *)
Theorem NewSpanID_spec IsValid little rand :
  (∀ sid, IsValid sid = not_zeros sid) →
  Forall (λ z, 0 <= z < 2 ^ 64) rand →
  NewSpanID IsValid little rand = native_PutUint64 little <$> find (λ z, negb (z =? 0)) rand ∧
  ∀ sid, NewSpanID IsValid little rand = Some sid → IsValid sid = true ∧ len sid = 8.
Proof.
  intros Hv Hr. assert (NewSpanID IsValid little rand = native_PutUint64 little <$> find (λ z, negb (z =? 0)) rand) as E.
  { induction Hr as [|z rand Hz _ IH]; [done|]. cbn [NewSpanID find].
    rewrite Hv, not_zeros_native by done. by destruct (negb (z =? 0)). }
  split; [done|]. intros sid. rewrite E. destruct (find _ rand) as [z|] eqn:Hf; [|done]. intros [= <-].
  apply find_some in Hf as [Hin Hz]. rewrite Forall_forall in Hr. apply list_elem_of_In, Hr in Hin.
  split; [by rewrite Hv, not_zeros_native|]. unfold native_PutUint64.
  destruct little; rewrite ?length_rev, length_PutUint64; done.
Qed.

Lemma NewSpanID_spec_witness :
  NewSpanID not_zeros true [0; 258; 7] = native_PutUint64 true <$> find (λ z, negb (z =? 0)) [0; 258; 7].
Proof. apply (NewSpanID_spec not_zeros true [0; 258; 7]); [done|]. repeat constructor; lia. Defined.

(** ** Masks *)

Lemma testbit_mask x s k : 0 <= s → 0 <= k → Z.testbit (Z.lor x (Z.shiftl 1 s)) k = Z.testbit x k || (k =? s).
Proof.
  intros Hs Hk. rewrite Z.lor_spec, Z.shiftl_1_l, Z.pow2_bits_eqb by done. by rewrite (Z.eqb_sym s k).
Qed.

Lemma mask_clear x s : 0 <= s → Z.land x (Z.shiftl 1 s) = 0 ↔ Z.testbit x s = false.
Proof.
  intros Hs. rewrite Z.shiftl_1_l. split.
  - intros E. pose proof (f_equal (λ y, Z.testbit y s) E) as Hb. simpl in Hb.
    rewrite Z.land_spec, Z.pow2_bits_true, Z.bits_0, andb_true_r in Hb by done. done.
  - intros E. apply Z.bits_inj'. intros k Hk. rewrite Z.land_spec, Z.pow2_bits_eqb, Z.bits_0 by done.
    destruct (Z.eqb_spec s k) as [->|]; [by rewrite E|apply andb_false_r].
Qed.

(** The population count of a mask is the number of the bits it is made of. *)
Lemma OnesCount64_spec x l :
  NoDup l → (∀ k, k ∈ l → 0 <= k < 64) → (∀ k, 0 <= k < 64 → Z.testbit x k = true ↔ k ∈ l) →
  OnesCount64 x = len l.
Proof.
  intros Hnd Hr Hx. unfold OnesCount64. f_equal. apply Permutation_length.
  apply NoDup_Permutation; [apply NoDup_filter, NoDup_seqZ|done|].
  intros k. rewrite list_elem_of_filter, elem_of_seqZ. split.
  - intros [Hb Hk]. apply Hx; [lia|done].
  - intros Hk. pose proof (Hr k Hk). split; [by apply Hx|lia].
Qed.

(** ** The invariant *)

(** The sequence numbers of a trace that were counted as expected. *)
Definition valid_seqs (id : Z) (l : list (verdict * (Z * Z))) : list Z :=
  omap (λ x, if decide (x.1 = Valid ∧ x.2.1 = id) then Some x.2.2 else None) l.

Section world.
Variable svcCount waitTime code : Z.
Hypothesis Hcount : 0 < svcCount <= 64.
Hypothesis Hcode : 0 <= code < 256.

Abbreviation id_of e := (ti_id (em_traceID e)).
Abbreviation is_err e := (ti_isErr (em_traceID e)).
Abbreviation traces w := (g_traces (w_gen w)).
Abbreviation slots w := (g_slots (w_gen w)).

Record world_ok (w : world) : Prop := {
  wo_counter : 0 <= g_counter (w_gen w) < 2 ^ 32;
  wo_ids : NoDup ((λ e, id_of e) <$> (w_pending w ++ w_emitted w));
  wo_range : ∀ e, e ∈ w_pending w ++ w_emitted w →
    0 < id_of e <= g_counter (w_gen w) ∧ ti_code (em_traceID e) = code ∧ 0 <= em_errSvc e < svcCount;
  wo_queue : ∀ el, el ∈ g_tracesQ (w_gen w) → ∃ sl, slots w !! el = Some sl ∧ traces w !! sl_id sl = Some el;
  wo_nodup : NoDup (g_tracesQ (w_gen w));
  wo_fresh : ∀ el, el ∈ g_tracesQ (w_gen w) → (el < g_next (w_gen w))%nat;
  wo_live : ∀ id el, traces w !! id = Some el → el ∈ g_tracesQ (w_gen w) ∧
    ∃ sl e, slots w !! el = Some sl ∧ sl_id sl = id ∧ e ∈ w_emitted w ∧ id_of e = id ∧ is_err e = true
            ∧ sl_errSvc sl = em_errSvc e
            ∧ ∀ k, 0 <= k → Z.testbit (sl_spans sl) k = true ↔ k ∈ valid_seqs id (w_received w);
  wo_seqs : ∀ id, NoDup (valid_seqs id (w_received w)) ∧ ∀ k, k ∈ valid_seqs id (w_received w) → 0 <= k < svcCount;
  wo_known : ∀ id, valid_seqs id (w_received w) ≠ [] → is_Some (traces w !! id) ∨ id ∈ (w_swept w).*1;
  wo_swept : ∀ id c, (id, c) ∈ w_swept w →
    c = classify svcCount (len (valid_seqs id (w_received w))) ∧ traces w !! id = None
    ∧ ∃ e, e ∈ w_emitted w ∧ id_of e = id ∧ is_err e = true;
  wo_once : NoDup (w_swept w).*1;
  wo_emitted : ∀ e, e ∈ w_emitted w → is_err e = true → is_Some (traces w !! id_of e) ∨ id_of e ∈ (w_swept w).*1;
}.

Lemma new_world_ok : world_ok new_world.
Proof. split; simpl; try (lia || apply NoDup_nil_2 || set_solver). intros id. split; [apply NoDup_nil_2|set_solver]. Qed.

Lemma start_ok isErr errSvc w w' :
  world_ok w → g_counter (w_gen w) + 1 < 2 ^ 32 →
  gen_exec svcCount waitTime code (GStart isErr errSvc) w = Some w' → world_ok w'.
Proof.
  intros Hok Hlt He. simpl in He. case_match eqn:Hr; [|done]. simplify_eq.
  assert (u32 (g_counter (w_gen w) + 1) = g_counter (w_gen w) + 1) as Hu
    by (apply wrapU_small; pose proof (wo_counter _ Hok); lia).
  destruct Hok. split; simpl; rewrite ?Hu; try done; try lia.
  - rewrite <- app_assoc, fmap_app in *. simpl.
    apply NoDup_app in wo_ids0 as (H1 & H2 & H3).
    assert (∀ e, e ∈ w_pending w ++ w_emitted w → id_of e ≠ g_counter (w_gen w) + 1) as Hne
      by (intros e Hin; apply wo_range0 in Hin; lia).
    apply NoDup_app. split; [done|]. split.
    + intros x Hx [->|Hx']%elem_of_cons; [|by eapply H2].
      apply list_elem_of_fmap in Hx as (e & E & Hin). eapply (Hne e); [set_solver|done].
    + constructor; [|done]. intros (e & E & Hin)%list_elem_of_fmap. eapply (Hne e); [set_solver|done].
  - intros e Hin. rewrite <- app_assoc in Hin. apply elem_of_app in Hin as [Hin|Hin].
    { destruct (wo_range0 e); [set_solver|]. lia. }
    apply elem_of_cons in Hin as [->|Hin]; [simpl; rewrite ?Hu; split_and!; lia|].
    destruct (wo_range0 e); [set_solver|]. lia.
Qed.

Lemma emitted_inj w e e' :
  world_ok w → e ∈ w_pending w ++ w_emitted w → e' ∈ w_pending w ++ w_emitted w → id_of e = id_of e' → e = e'.
Proof.
  intros Hok H1 H2 E. apply list_elem_of_lookup in H1 as [i Hi], H2 as [j Hj].
  assert (i = j) as ->; [|congruence].
  eapply (NoDup_lookup _ _ _ _ (wo_ids _ Hok)); rewrite list_lookup_fmap; [by rewrite Hi|by rewrite Hj, E].
Qed.

(** A trace that is not past its registration has left nothing behind. *)
Lemma pending_unknown w e :
  world_ok w → e ∈ w_pending w →
  traces w !! id_of e = None ∧ id_of e ∉ (w_swept w).*1 ∧ valid_seqs (id_of e) (w_received w) = [].
Proof.
  intros Hok Hin.
  assert (∀ e', e' ∈ w_emitted w → id_of e' ≠ id_of e) as Hne.
  { intros e' Hin' E. pose proof (wo_ids _ Hok) as Hnd. rewrite fmap_app in Hnd.
    apply NoDup_app in Hnd as (_ & Hnd & _). apply (Hnd (id_of e)).
    - apply list_elem_of_fmap; by exists e.
    - apply list_elem_of_fmap; by exists e'. }
  assert (traces w !! id_of e = None) as Ht.
  { apply eq_None_not_Some. intros [el Hel]. destruct (wo_live _ Hok _ _ Hel) as (_ & sl & e' & H'). naive_solver. }
  assert (id_of e ∉ (w_swept w).*1) as Hs.
  { intros ((id & c) & E & Hx)%list_elem_of_fmap. simpl in E. subst id.
    destruct (wo_swept _ Hok _ _ Hx) as (_ & _ & e' & He' & E' & _). by eapply Hne. }
  split_and!; [done..|].
  destruct (valid_seqs (id_of e) (w_received w)) as [|k l] eqn:E; [done|].
  exfalso. destruct (wo_known _ Hok (id_of e)) as [[el Hel]|Hx]; [by rewrite E|congruence|done].
Qed.

Lemma register_ok i now w w' :
  world_ok w → gen_exec svcCount waitTime code (GRegister i now) w = Some w' → world_ok w'.
Proof.
  intros Hok He. cbn [gen_exec] in He. destruct (w_pending w !! i) as [e|] eqn:Hi; [|done]. simplify_eq/=.
  assert (delete i (w_pending w) ++ w_emitted w ++ [e] ≡ₚ w_pending w ++ w_emitted w) as HP.
  { trans ((e :: delete i (w_pending w)) ++ w_emitted w).
    - rewrite app_assoc. apply (Permutation_app_comm _ [e]).
    - apply Permutation_app_tail. symmetry. by apply delete_Permutation. }
  assert (e ∈ w_pending w) as Hin by (by eapply list_elem_of_lookup_2).
  destruct (pending_unknown _ _ Hok Hin) as (Ht & Hs & Hv).
  assert (∀ el, el ∈ g_tracesQ (w_gen w) → el ≠ g_next (w_gen w)) as Hnext
    by (intros el Hel; apply (wo_fresh _ Hok) in Hel; lia).
  destruct Hok. split; simpl; unfold emit_register; destruct (is_err e) eqn:Herr; simpl; try done;
    try (rewrite ?HP; done).
  - intros e' Hin'. apply wo_range0. by rewrite <- HP.
  - intros e' Hin'. apply wo_range0. by rewrite <- HP.
  - intros el [->|Hel]%elem_of_cons.
    { eexists. rewrite lookup_insert_eq. split; [done|]. simpl. by rewrite lookup_insert_eq. }
    destruct (wo_queue0 el Hel) as (sl & E1 & E2). exists sl. rewrite !lookup_insert_ne; [done| |].
    + intros E. rewrite <- E in E2. congruence.
    + by apply not_eq_sym, Hnext.
  - constructor; [|done]. intros Hx. by apply Hnext in Hx.
  - intros el [->|Hel]%elem_of_cons; [lia|]. apply wo_fresh0 in Hel. lia.
  - intros id el. rewrite lookup_insert. case_decide as Hid.
    + intros [= <-]. subst id. split; [by left|]. eexists _, e. rewrite lookup_insert_eq.
      split_and!; [done|done|set_solver|done|done|done|].
      intros k Hk. simpl. rewrite Hv, Z.bits_0. set_solver.
    + intros Hel. destruct (wo_live0 _ _ Hel) as (Hq & sl & e' & H'). split; [by right|].
      exists sl, e'. rewrite lookup_insert_ne by (by apply not_eq_sym, Hnext). set_solver.
  - intros id el Hel. destruct (wo_live0 _ _ Hel) as (Hq & sl & e' & H'). split; [done|]. exists sl, e'. set_solver.
  - intros id Hid. destruct (wo_known0 id Hid) as [Hx|Hx]; [left|by right].
    rewrite lookup_insert. case_decide; [by eexists|done].
  - intros id c Hx. destruct (wo_swept0 _ _ Hx) as (E & Hn & e' & H'). split; [done|]. split; [|exists e'; set_solver].
    rewrite lookup_insert_ne; [done|]. intros <-. apply Hs. apply list_elem_of_fmap. by exists (id_of e, c).
  - intros id c Hx. destruct (wo_swept0 _ _ Hx) as (E & Hn & e' & H'). split; [done|]. split; [done|exists e'; set_solver].
  - intros e' [Hin'|Hin'%list_elem_of_singleton]%elem_of_app He'; [|subst e'].
    + destruct (wo_emitted0 e' Hin' He') as [Hx|Hx]; [left|by right]. rewrite lookup_insert. case_decide; [by eexists|done].
    + left. rewrite lookup_insert_eq. by eexists.
  - intros e' [Hin'|Hin'%list_elem_of_singleton]%elem_of_app He'; [by apply wo_emitted0|congruence].
Qed.

(** *** Receiving *)

Lemma mark_spec seq gotErr id w :
  world_ok w → 0 <= seq →
  let '(v, g) := mark_span seq gotErr id (w_gen w) in
  match v with
  | Late => traces w !! id = None ∧ g = w_gen w
  | Dup => is_Some (traces w !! id) ∧ seq ∈ valid_seqs id (w_received w) ∧ g = w_gen w
  | Corrupted =>
      (∃ e, e ∈ w_emitted w ∧ is_err e = true ∧ id_of e = id ∧ gotErr = negb (em_errSvc e =? seq)) ∧ g = w_gen w
  | Valid =>
      seq ∉ valid_seqs id (w_received w) ∧
      ∃ el sl, traces w !! id = Some el ∧ slots w !! el = Some sl
        ∧ g = set_slot el (MkSlot (sl_id sl) (sl_age sl) (Z.lor (sl_spans sl) (Z.shiftl 1 seq)) (sl_errSvc sl)) (w_gen w)
  | _ => False
  end.
Proof.
  intros Hok Hseq. unfold mark_span. destruct (traces w !! id) as [el|] eqn:Ht; simpl; [|done].
  destruct (wo_live _ Hok _ _ Ht) as (Hq & sl & e & Hsl & Hid & Hin & He & Herr & Hes & Hbits).
  rewrite Hsl. simpl. destruct (Z.eqb_spec (Z.land (sl_spans sl) (Z.shiftl 1 seq)) 0) as [E|E]; simpl.
  - apply mask_clear in E; [|done].
    assert (seq ∉ valid_seqs id (w_received w)) as Hn by (intros Hx%Hbits; [congruence|done]).
    rewrite Hes. destruct (Bool.eqb (em_errSvc e =? seq) gotErr) eqn:Hb; simpl.
    + split; [done|]. exists el, sl. by rewrite Hes.
    + split; [|done]. exists e. split_and!; [done..|]. by destruct (em_errSvc e =? seq), gotErr.
  - split_and!; [by eexists| |done]. apply Hbits; [done|]. apply not_false_is_true. by intros Hx%mask_clear.
Qed.

Lemma valid_seqs_app id l v k :
  valid_seqs id (l ++ [(v, k)]) = valid_seqs id l ++ (if decide (v = Valid ∧ k.1 = id) then [k.2] else []).
Proof. unfold valid_seqs. rewrite omap_app. simpl. by case_decide. Qed.

Lemma valid_seqs_not id l v k : v ≠ Valid → valid_seqs id (l ++ [(v, k)]) = valid_seqs id l.
Proof. intros Hv. rewrite valid_seqs_app, decide_False by tauto. apply app_nil_r. Qed.

(** A verdict other than [Valid] changes nothing. *)
Lemma received_ok v k w :
  v ≠ Valid → world_ok w →
  world_ok (MkWorld (w_gen w) (w_pending w) (w_emitted w) (w_received w ++ [(v, k)]) (w_swept w)).
Proof.
  intros Hv []. split; simpl; try done.
  - intros id el Hel. destruct (wo_live0 id el Hel) as (Hq & sl & e & H'). split; [done|]. exists sl, e.
    by setoid_rewrite (valid_seqs_not id _ _ _ Hv).
  - intros id. rewrite valid_seqs_not by done. apply wo_seqs0.
  - intros id. rewrite valid_seqs_not by done. apply wo_known0.
  - intros id c. rewrite valid_seqs_not by done. apply wo_swept0.
Qed.

Lemma marked_ok w id seq el sl :
  world_ok w → 0 <= seq < svcCount → traces w !! id = Some el → slots w !! el = Some sl →
  seq ∉ valid_seqs id (w_received w) →
  world_ok (MkWorld
    (set_slot el (MkSlot (sl_id sl) (sl_age sl) (Z.lor (sl_spans sl) (Z.shiftl 1 seq)) (sl_errSvc sl)) (w_gen w))
    (w_pending w) (w_emitted w) (w_received w ++ [(Valid, (id, seq))]) (w_swept w)).
Proof.
  intros Hok Hseq Ht Hsl Hn.
  destruct (wo_live _ Hok _ _ Ht) as (Hq & sl' & e & Hsl' & Hid & _). simplify_eq. clear e.
  assert (∀ id', traces w !! id' = Some el → id' = sl_id sl) as Hinj.
  { intros id' Hx. destruct (wo_live _ Hok _ _ Hx) as (_ & sl'' & _ & E & <- & _). congruence. }
  destruct Hok. split; simpl; try done.
  - intros x Hx. rewrite lookup_insert. case_decide as E; [subst x; by eexists|by apply wo_queue0].
  - intros id el' Hel. destruct (wo_live0 id el' Hel) as (Hq' & sl' & e & E & Hid & Hin & He & Herr & Hes & Hb).
    split; [done|]. rewrite lookup_insert, valid_seqs_app. simpl. case_decide as Ex.
    + subst el'. simplify_eq. eexists _, e. rewrite decide_True by done. split_and!; [done..|].
      intros k Hk. simpl. rewrite testbit_mask, orb_true_iff, Hb, Z.eqb_eq by lia. set_solver.
    + exists sl', e. rewrite decide_False; [by rewrite app_nil_r|]. intros [_ <-]. congruence.
  - intros id. rewrite valid_seqs_app. simpl. destruct (wo_seqs0 id) as [Hnd Hr]. case_decide as E; [|by rewrite app_nil_r].
    destruct E as [_ <-]. split.
    + apply NoDup_app. split_and!; [done| |apply NoDup_singleton]. set_solver.
    + intros k [Hk|Hk%list_elem_of_singleton]%elem_of_app; [by apply Hr|by subst k].
  - intros id. rewrite valid_seqs_app. simpl. case_decide as E; [|rewrite app_nil_r; apply wo_known0].
    destruct E as [_ <-]. intros _. left. by eexists.
  - intros id c Hx. destruct (wo_swept0 id c Hx) as (E & Hnone & H'). rewrite valid_seqs_app. simpl.
    rewrite decide_False; [by rewrite app_nil_r|]. intros [_ <-]. congruence.
Qed.

Lemma check_key s g v g' :
  check_span svcCount code s g = Some (v, g') →
  v = Foreign ∧ g' = g ∨ v = NonError ∧ g' = g ∨ v = Corrupted ∧ g' = g ∨
  0 <= (span_key s).2 < svcCount ∧ (v, g') = mark_span (span_key s).2 (sp_error s) (span_key s).1 g.
Proof.
  unfold check_span, span_key. destruct (view_traceID (sp_traceID s)) as [t|]; [|done]. simpl.
  repeat case_match; intros [= E]; simplify_eq; try tauto; try naive_solver.
  right; right; right. rewrite E. split; [lia|done].
Qed.

Lemma span_ok s w w' : world_ok w → gen_exec svcCount waitTime code (GSpan s) w = Some w' → world_ok w'.
Proof.
  intros Hok He. cbn [gen_exec] in He. destruct (check_span svcCount code s (w_gen w)) as [[v g]|] eqn:Hc; [|done].
  simplify_eq/=. apply check_key in Hc as [[-> ->]|[[-> ->]|[[-> ->]|[Hseq Hm]]]]; [by apply received_ok..|].
  pose proof (mark_spec (span_key s).2 (sp_error s) (span_key s).1 w Hok) as Hs.
  rewrite <- Hm in Hs. specialize (Hs ltac:(lia)).
  destruct v; try done.
  - destruct Hs as [_ ->]. by apply received_ok.
  - destruct Hs as (_ & _ & ->). by apply received_ok.
  - destruct Hs as [_ ->]. by apply received_ok.
  - destruct Hs as (Hn & el & sl & Ht & Hsl & ->). destruct (span_key s) as [id seq]. by apply marked_ok.
Qed.

(** *** Sweeping *)

Abbreviation sweep_gen w g r := (MkWorld g (w_pending w) (w_emitted w) (w_received w) (w_swept w ++ r)).

Lemma sweep_one_ok w el sl :
  world_ok w → last (g_tracesQ (w_gen w)) = Some el → slots w !! el = Some sl →
  world_ok (sweep_gen w (sweep_one el sl (w_gen w)) [(sl_id sl, classify svcCount (OnesCount64 (sl_spans sl)))]).
Proof.
  intros Hok Hlast Hsl.
  assert (el ∈ g_tracesQ (w_gen w)) as Hq.
  { apply last_Some in Hlast as [l ->]. set_solver. }
  destruct (wo_queue _ Hok _ Hq) as (sl' & E & Ht). simplify_eq.
  destruct (wo_live _ Hok _ _ Ht) as (_ & sl' & e & E & _ & Hin & He & Herr & Hes & Hb). simplify_eq.
  assert (OnesCount64 (sl_spans sl) = len (valid_seqs (sl_id sl) (w_received w))) as Hpop.
  { destruct (wo_seqs _ Hok (sl_id sl)) as [Hnd Hr]. apply OnesCount64_spec; [done| |].
    - intros k Hk%Hr. lia.
    - intros k Hk. apply Hb. lia. }
  assert (sl_id sl ∉ (w_swept w).*1) as Hns.
  { intros ((id & c) & E & Hx)%list_elem_of_fmap. simpl in E. subst id.
    destruct (wo_swept _ Hok _ _ Hx) as (_ & Hx' & _). congruence. }
  rewrite Hpop. destruct Hok. split; simpl; try done.
  - intros x [Hne Hx]%list_elem_of_filter. destruct (wo_queue0 x Hx) as (sl' & E1 & E2).
    exists sl'. rewrite !lookup_delete_ne; [done| |by apply not_eq_sym]. intros E. congruence.
  - by apply NoDup_filter.
  - intros x [_ Hx]%list_elem_of_filter. by apply wo_fresh0.
  - intros id x. rewrite lookup_delete. case_decide as Hid; [done|]. intros Hx.
    destruct (wo_live0 id x Hx) as (Hq' & sl' & e' & E & Hid' & H').
    assert (x ≠ el) as Hne by (intros ->; congruence).
    split; [by apply list_elem_of_filter|]. exists sl', e'. by rewrite lookup_delete_ne by (by apply not_eq_sym).
  - intros id Hid. rewrite fmap_app, elem_of_app. simpl.
    destruct (decide (sl_id sl = id)) as [->|Hne]; [right; set_solver|].
    rewrite lookup_delete_ne by done. destruct (wo_known0 id Hid); tauto.
  - intros id c [Hx|Hx%list_elem_of_singleton]%elem_of_app.
    + destruct (wo_swept0 id c Hx) as (E1 & E2 & E3). split_and!; [done| |done].
      rewrite lookup_delete. by case_decide.
    + simplify_eq. split_and!; [done|by rewrite lookup_delete_eq|]. by exists e.
  - rewrite fmap_app. simpl. apply NoDup_app. split_and!; [done|set_solver|apply NoDup_singleton].
  - intros e' Hin' He'. rewrite fmap_app, elem_of_app. simpl.
    destruct (decide (sl_id sl = id_of e')) as [->|Hne]; [right; set_solver|].
    rewrite lookup_delete_ne by done. destruct (wo_emitted0 e' Hin' He'); tauto.
Qed.

Lemma sweep_loop_ok fuel now w :
  world_ok w →
  let '(r, g) := sweep_loop svcCount waitTime fuel now (w_gen w) in
  world_ok (sweep_gen w g r) ∧ g_counter g = g_counter (w_gen w).
Proof.
  revert w. induction fuel as [|fuel IH]; intros w Hok; simpl.
  { rewrite app_nil_r. by destruct w. }
  destruct (last (g_tracesQ (w_gen w))) as [el|] eqn:Hl; [|rewrite app_nil_r; by destruct w].
  destruct (slots w !! el) as [sl|] eqn:Hsl; [|rewrite app_nil_r; by destruct w].
  destruct (now - sl_age sl <? waitTime); [rewrite app_nil_r; by destruct w|].
  pose proof (IH _ (sweep_one_ok _ _ _ Hok Hl Hsl)) as H'. simpl in H'.
  destruct (sweep_loop _ _ fuel now _) as [r g]. simpl in H'. rewrite <- app_assoc in H'. done.
Qed.

Lemma sweep_ok now w w' :
  world_ok w → gen_exec svcCount waitTime code (GSweep now) w = Some w' →
  world_ok w' ∧ g_counter (w_gen w') = g_counter (w_gen w).
Proof.
  intros Hok He. cbn [gen_exec] in He. unfold sweep in He.
  pose proof (sweep_loop_ok (S (length (g_tracesQ (w_gen w)))) now w Hok) as H'.
  destruct (sweep_loop _ _ _ _ _) as [r g]. destruct H' as [H' Hc]. simplify_eq/=. split; [|done].
  destruct H'. by split.
Qed.

(** *** Runs *)

Lemma gen_exec_ok l w w' :
  world_ok w → g_counter (w_gen w) + 1 < 2 ^ 32 → gen_exec svcCount waitTime code l w = Some w' →
  world_ok w' ∧ g_counter (w_gen w') <= g_counter (w_gen w) + 1.
Proof.
  intros Hok Hlt He. destruct l as [isErr errSvc|i now|s|now].
  - split; [by eapply start_ok|]. simpl in He. case_match; [|done]. simplify_eq/=.
    rewrite wrapU_small; [lia|]. pose proof (wo_counter _ Hok). lia.
  - split; [by eapply register_ok|]. cbn [gen_exec] in He. destruct (w_pending w !! i); [|done]. simplify_eq/=.
    unfold emit_register. case_match; simpl; lia.
  - split; [by eapply span_ok|]. cbn [gen_exec] in He.
    destruct (check_span svcCount code s (w_gen w)) as [[v g]|] eqn:Hc; [|done]. simplify_eq/=.
    apply check_key in Hc as [[_ ->]|[[_ ->]|[[_ ->]|[_ Hm]]]]; [lia..|].
    unfold mark_span in Hm. repeat case_match; simplify_eq/=; lia.
  - apply sweep_ok in He as [H' E]; [|done]. split; [done|lia].
Qed.

Lemma gen_run_ok ls w w' :
  world_ok w → g_counter (w_gen w) + len ls < 2 ^ 32 → gen_run svcCount waitTime code ls w = Some w' → world_ok w'.
Proof.
  revert w. induction ls as [|l ls IH]; intros w Hok Hlt He; simpl in *; [by simplify_eq|].
  destruct (gen_exec svcCount waitTime code l w) as [w1|] eqn:E; [|done].
  apply gen_exec_ok in E as [Hok1 Hc1]; [|done|lia]. eapply IH; [done| |done]. lia.
Qed.

Lemma gen_reachable_ok ls w :
  len ls < 2 ^ 32 → gen_run svcCount waitTime code ls new_world = Some w → world_ok w.
Proof. intros Hl. apply gen_run_ok; [apply new_world_ok|]. simpl. lia. Qed.

(** *** Genuine spans *)

Lemma span_seq_emit t errSvc i : span_seq (sp_attributes (emit_span t errSvc i)) = i.
Proof. done. Qed.

Lemma check_emitted t errSvc i g :
  0 <= ti_id t < 2 ^ 32 → ti_code t = code → 0 <= i < svcCount →
  check_span svcCount code (emit_span t errSvc i) g =
    Some (if ti_isErr t then mark_span i (errSvc =? i) (ti_id t) g else (NonError, g)).
Proof.
  intros Hid Hc Hi. unfold check_span.
  replace (view_traceID (sp_traceID (emit_span t errSvc i))) with (Some t)
    by (symmetry; apply view_put; [done|by rewrite Hc]).
  rewrite span_seq_emit, Hc, Z.eqb_refl. cbn [negb].
  destruct (ti_isErr t) eqn:He; cbn [negb]; [|done].
  replace (i <? 0) with false by lia. replace (svcCount <=? i) with false by lia. cbn [orb].
  unfold emit_span. cbn [sp_name sp_error]. rewrite String.eqb_refl, He. done.
Qed.

Lemma elem_emit_spans t errSvc s :
  s ∈ emit_spans svcCount t errSvc ↔ ∃ i, 0 <= i < svcCount ∧ s = emit_span t errSvc i.
Proof.
  unfold emit_spans. rewrite elem_of_app, list_elem_of_fmap, list_elem_of_singleton. split.
  - intros [(i & -> & Hi%elem_of_seqZ)| ->]; [exists i|exists 0]; (split; [lia|done]).
  - intros (i & Hi & ->). destruct (decide (i = 0)) as [->|]; [by right|].
    left. exists i. split; [done|]. apply elem_of_seqZ. lia.
Qed.

Lemma elem_valid_seqs id k l : k ∈ valid_seqs id l ↔ (Valid, (id, k)) ∈ l.
Proof.
  unfold valid_seqs. rewrite list_elem_of_omap. split.
  - intros ([v [id' k']] & Hin & E). simpl in E. case_decide as Hd; [|done]. destruct Hd. by simplify_eq/=.
  - intros Hin. exists (Valid, (id, k)). split; [done|]. simpl. by rewrite decide_True.
Qed.
End world.

(** The verdict on a span the generator sent itself. *)
Definition own_verdict (e : emitted) (i : Z) (w : world) : verdict :=
  if ti_isErr (em_traceID e) then
    if decide (ti_id (em_traceID e) ∈ (w_swept w).*1) then Late
    else if decide ((Valid, (ti_id (em_traceID e), i)) ∈ w_received w) then Dup else Valid
  else NonError.

(** C18: The listener judges the generator's own spans by what really happened to
    them. In every state of a session of fewer than [2^32] steps, for every trace
    that is past its registration and every service [i], the span sent for it is
    counted as non-error if the trace is not an error trace, as late if the trace
    has been swept, as a duplicate if it has been counted as expected already,
    and as expected otherwise; never as foreign or corrupted. *)
Theorem own_span_verdict svcCount waitTime code ls w e i :
  0 < svcCount <= 64 → 0 <= code < 256 → len ls < 2 ^ 32 →
  gen_run svcCount waitTime code ls new_world = Some w →
  e ∈ w_emitted w → 0 <= i < svcCount →
  fst <$> check_span svcCount code (emit_span (em_traceID e) (em_errSvc e) i) (w_gen w) = Some (own_verdict e i w).
Proof.
  intros Hcount Hcode Hl Hrun Hin Hi.
  assert (world_ok svcCount code w) as Hok by (by eapply gen_reachable_ok).
  destruct (wo_range _ _ _ Hok e) as (Hid & Hc & _); [set_solver|]. pose proof (wo_counter _ _ _ Hok).
  rewrite (check_emitted svcCount code Hcode) by (done || lia).
  unfold own_verdict. destruct (ti_isErr (em_traceID e)) eqn:He; [|done]. simpl. f_equal.
  pose proof (mark_spec svcCount code i (em_errSvc e =? i) (ti_id (em_traceID e)) w Hok) as Hm.
  destruct (mark_span _ _ _ _) as [v g]. specialize (Hm ltac:(lia)). simpl.
  assert (ti_id (em_traceID e) ∈ (w_swept w).*1 ↔ g_traces (w_gen w) !! ti_id (em_traceID e) = None) as Hsw.
  { split.
    - intros ((id & c) & E & Hx)%list_elem_of_fmap. simpl in E. subst id. by destruct (wo_swept _ _ _ Hok _ _ Hx) as (_ & ? & _).
    - intros Hn. destruct (wo_emitted _ _ _ Hok e Hin He) as [[? Hx]|Hx]; [congruence|done]. }
  destruct v; try done.
  - destruct Hm as [(e' & Hin' & _ & E & Hb) _].
    rewrite (emitted_inj _ _ w e' e Hok) in Hb by (done || set_solver). by destruct (em_errSvc e =? i).
  - destruct Hm as (Hs & Hv%elem_valid_seqs & _).
    rewrite decide_False by (rewrite Hsw; by apply not_eq_None_Some). by rewrite decide_True.
  - destruct Hm as (Hs & _). by rewrite decide_True by (by apply Hsw).
  - destruct Hm as (Hv & el & sl & Ht & _). rewrite elem_valid_seqs in Hv.
    rewrite !decide_False; [done|done|]. rewrite Hsw. congruence.
Qed.

(** C19: What a sweep reports of a trace is decided by the spans that were counted
    as expected before. In every session of fewer than [2^32] steps a span is
    counted as expected at most once and only with one of the sequence numbers
    sent, every trace is reported at most once, and its report is full exactly if
    every span was counted, none exactly if no span was, and partial otherwise;
    this does not depend on what else arrived. *)
Theorem completeness_reported svcCount waitTime code ls w :
  0 < svcCount <= 64 → 0 <= code < 256 → len ls < 2 ^ 32 →
  gen_run svcCount waitTime code ls new_world = Some w →
  NoDup (w_swept w).*1 ∧
  (∀ id, NoDup (valid_seqs id (w_received w))) ∧
  (∀ id k, (Valid, (id, k)) ∈ w_received w → 0 <= k < svcCount) ∧
  ∀ id c, (id, c) ∈ w_swept w →
    (c = Full ↔ ∀ k, 0 <= k < svcCount → (Valid, (id, k)) ∈ w_received w) ∧
    (c = NoSpans ↔ ∀ k, (Valid, (id, k)) ∉ w_received w).
Proof.
  intros Hcount Hcode Hl Hrun. assert (world_ok svcCount code w) as Hok by (by eapply gen_reachable_ok).
  split; [apply (wo_once _ _ _ Hok)|]. split; [intros id; apply (wo_seqs _ _ _ Hok)|].
  split; [intros id k Hk; apply (wo_seqs _ _ _ Hok id); by apply elem_valid_seqs|].
  intros id c Hx. destruct (wo_swept _ _ _ Hok _ _ Hx) as (Ec & _).
  destruct (wo_seqs _ _ _ Hok id) as [Hnd Hr]. setoid_rewrite <- elem_valid_seqs.
  revert Ec Hnd Hr. generalize (valid_seqs id (w_received w)). intros l -> Hnd Hr.
  assert (len l = svcCount ↔ ∀ k, 0 <= k < svcCount → k ∈ l) as Hfull.
  { assert (l ⊆+ seqZ 0 svcCount) as Hsub.
    { apply NoDup_submseteq; [done|]. intros k Hk%Hr. apply elem_of_seqZ. lia. }
    split.
    - intros E k Hk. assert (l ≡ₚ seqZ 0 svcCount) as ->; [|apply elem_of_seqZ; lia].
      apply submseteq_length_Permutation; [done|]. rewrite length_seqZ. lia.
    - intros Hall. assert (l ≡ₚ seqZ 0 svcCount) as HP; [|apply Permutation_length in HP; rewrite length_seqZ in HP; lia].
      apply NoDup_Permutation; [done|apply NoDup_seqZ|]. intros k. rewrite elem_of_seqZ. split; [intros ?%Hr; lia|].
      intros. apply Hall. lia. }
  assert (len l = 0 ↔ ∀ k, k ∉ l) as Hnone.
  { split; [by destruct l; [set_solver|]|]. destruct l as [|k l]; [done|]. intros Hall. destruct (Hall k). set_solver. }
  rewrite <- Hfull, <- Hnone. unfold classify.
  destruct (Z.eqb_spec (len l) svcCount), (Z.eqb_spec (len l) 0); split; split; (done || lia).
Qed.

(** ** What a sweep removes *)

Section sweeping.
Variable svcCount waitTime : Z.

Definition age_of (g : gen) (el : loc) : Z := default 0 (sl_age <$> g_slots g !! el).
Definition expired (now : Z) (g : gen) (el : loc) : Prop := waitTime <= now - age_of g el.
#[export] Instance expired_dec now g el : Decision (expired now g el) := decide (waitTime <= now - age_of g el).
Definition report_of (g : gen) (el : loc) : Z * completeness :=
  match g_slots g !! el with
  | Some sl => (sl_id sl, classify svcCount (OnesCount64 (sl_spans sl)))
  | None => (0, NoSpans)
  end.

(** The elements of the queue have slots, the newest is at the front. *)
Record queue_ok (g : gen) : Prop := {
  qo_nodup : NoDup (g_tracesQ g);
  qo_slots : ∀ el, el ∈ g_tracesQ g → is_Some (g_slots g !! el);
  qo_sorted : StronglySorted (λ a b, age_of g b <= age_of g a) (g_tracesQ g);
}.

Lemma last_sorted {A} (R : relation A) l x : StronglySorted R (l ++ [x]) → ∀ y, y ∈ l → R y x.
Proof. intros HS%StronglySorted_app y Hy. destruct HS as (HR & _). apply HR; [done|set_solver]. Qed.

Lemma sweep_one_queue g el sl l :
  queue_ok g → g_tracesQ g = l ++ [el] → g_slots g !! el = Some sl →
  queue_ok (sweep_one el sl g) ∧ g_tracesQ (sweep_one el sl g) = l
  ∧ ∀ x, x ∈ l → g_slots (sweep_one el sl g) !! x = g_slots g !! x.
Proof.
  intros [Hnd Hsl HS] Hq Hel. rewrite Hq in *.
  assert (filter (.≠ el) (l ++ [el]) = l) as Hf by (by apply filter_ne_last).
  apply NoDup_app in Hnd as (Hl & Hne & _).
  assert (∀ x, x ∈ l → g_slots (sweep_one el sl g) !! x = g_slots g !! x) as Hx.
  { intros x Hx. simpl. rewrite lookup_delete_ne; [done|]. intros <-. eapply Hne; [done|set_solver]. }
  split_and!; [split; simpl; rewrite Hq, Hf|simpl; by rewrite Hq|done].
  - done.
  - intros x Hin. pose proof (Hx x Hin) as E. simpl in E. rewrite E. apply Hsl. set_solver.
  - apply StronglySorted_app in HS as (_ & HS & _).
    eapply StronglySorted_impl_in, HS. intros x y Hinx Hiny. unfold age_of. by rewrite !Hx.
Qed.

Lemma sweep_loop_spec fuel now g :
  queue_ok g → (length (g_tracesQ g) < fuel)%nat →
  let '(r, g') := sweep_loop svcCount waitTime fuel now g in
  g_tracesQ g' = filter (λ el, ¬ expired now g el) (g_tracesQ g)
  ∧ r = report_of g <$> reverse (filter (expired now g) (g_tracesQ g))
  ∧ g_TracesGot g' = g_TracesGot g.
Proof.
  revert g. induction fuel as [|fuel IH]; intros g Hok Hf; [lia|]. cbn [sweep_loop].
  destruct (last (g_tracesQ g)) as [el|] eqn:Hl; [|apply last_None in Hl; by rewrite Hl].
  apply last_Some in Hl as [l Hq].
  assert (el ∈ g_tracesQ g) as Hin by (rewrite Hq; set_solver).
  destruct (qo_slots _ Hok el Hin) as [sl Hsl]. rewrite Hsl.
  assert (age_of g el = sl_age sl) as Hage by (unfold age_of; by rewrite Hsl).
  destruct (Z.ltb_spec (now - sl_age sl) waitTime) as [Hlt|Hge].
  - assert (∀ x, x ∈ g_tracesQ g → ¬ expired now g x) as Hall.
    { intros x Hx He. unfold expired in He. pose proof (qo_sorted _ Hok) as HS. rewrite Hq in Hx, HS.
      apply elem_of_app in Hx as [Hx|Hx%list_elem_of_singleton]; [|subst x; lia].
      pose proof (last_sorted _ _ _ HS x Hx). simpl in *. lia. }
    rewrite filter_all by done. split_and!; [done| |done].
    assert (filter (expired now g) (g_tracesQ g) = []) as ->; [|done].
    apply elem_of_nil_inv. intros x [He Hx]%list_elem_of_filter. by apply (Hall x).
  - destruct (sweep_one_queue g el sl l Hok Hq Hsl) as (Hok' & Hq' & Hsame).
    pose proof (IH (sweep_one el sl g) Hok') as H'. rewrite Hq' in H'.
    specialize (H' ltac:(rewrite Hq, length_app in Hf; simpl in Hf; lia)).
    destruct (sweep_loop _ _ fuel now _) as [r g']. destruct H' as (E1 & E2 & E3).
    assert (∀ x, x ∈ l → expired now (sweep_one el sl g) x ↔ expired now g x) as Hexp
      by (intros x Hx; unfold expired, age_of; by rewrite (Hsame x Hx)).
    assert (expired now g el) as Hel by (unfold expired; lia).
    rewrite Hq, !filter_app, filter_cons_False, (filter_cons_True (expired now g)) by tauto. simpl.
    rewrite app_nil_r, reverse_app. split_and!.
    + rewrite E1. apply filter_ext_in. intros x Hx. by rewrite (Hexp x Hx).
    + rewrite E2. simpl. f_equal; [unfold report_of; by rewrite Hsl|].
      rewrite (filter_ext_in (expired now (sweep_one el sl g)) (expired now g)) by done.
      apply list_fmap_ext. intros _ x Hx%list_elem_of_lookup_2. unfold report_of. rewrite Hsame; [done|].
      apply elem_of_reverse, list_elem_of_filter in Hx. tauto.
    + done.
Qed.
End sweeping.

(** A sweep ends and removes exactly the traces that have waited for the whole
    waiting time, oldest first; it reports each of them, full, partial or none by
    the number of its spans, and adds the reports to the counters. *)
Theorem sweep_spec svcCount waitTime now g :
  queue_ok g →
  let '(r, g') := sweep svcCount waitTime now g in
  g_tracesQ g' = filter (λ el, ¬ expired waitTime now g el) (g_tracesQ g)
  ∧ r = report_of svcCount g <$> reverse (filter (expired waitTime now g) (g_tracesQ g))
  ∧ ∀ c, g_TracesGot g' c = g_TracesGot g c + count_of c r.
Proof.
  intros Hok. unfold sweep. pose proof (sweep_loop_spec svcCount waitTime (S (length (g_tracesQ g))) now g Hok) as H'.
  destruct (sweep_loop _ _ _ _ _) as [r g']. destruct H' as (E1 & E2 & E3); [lia|]. simpl.
  split_and!; [done..|]. intros c. by rewrite E3.
Qed.

(** ** A session *)

Definition demo_traceID : traceID := MkTraceID 1 7 true.
Definition demo_session : list gen_label :=
  [GStart true 1; GStart false 0; GRegister 0 100; GRegister 0 100;
   GSpan (emit_span demo_traceID 1 1); GSpan (emit_span demo_traceID 1 1); GSpan (emit_span demo_traceID 1 0);
   GSpan (emit_span (MkTraceID 2 7 false) 0 0);
   GSpan (MkSpan (put_traceID demo_traceID) (span_name 1) [("my.seq"%string, Some 2)] false);
   GSweep 119; GSweep 120; GSpan (emit_span demo_traceID 1 0)].

Definition demo_world : world := default new_world (gen_run 2 20 7 demo_session new_world).

Example demo_verdicts :
  (w_received demo_world, w_swept demo_world, g_TracesGot (w_gen demo_world) Full) =
  ([(Valid, (1, 1)); (Dup, (1, 1)); (Valid, (1, 0)); (NonError, (2, 0)); (Corrupted, (1, 2)); (Late, (1, 0))],
   [(1, Full)], 1).
Proof. vm_compute. reflexivity. Qed.

Lemma own_span_verdict_witness :
  gen_run 2 20 7 demo_session new_world = Some demo_world ∧
  fst <$> check_span 2 7 (emit_span demo_traceID 1 1) (w_gen demo_world) = Some Late.
Proof.
  assert (gen_run 2 20 7 demo_session new_world = Some demo_world) as Hrun by (vm_compute; reflexivity).
  split; [done|].
  refine (eq_trans (own_span_verdict 2 20 7 demo_session demo_world (MkEmitted demo_traceID 1) 1 _ _ _ Hrun _ _) _);
    [lia|lia|vm_compute; reflexivity| |lia|vm_compute; reflexivity].
  vm_compute. left.
Defined.

Lemma completeness_reported_witness :
  gen_run 2 20 7 demo_session new_world = Some demo_world ∧ (1, Full) ∈ w_swept demo_world ∧
  ∀ k, 0 <= k < 2 → (Valid, (1, k)) ∈ w_received demo_world.
Proof.
  assert (gen_run 2 20 7 demo_session new_world = Some demo_world) as Hrun by (vm_compute; reflexivity).
  assert ((1, Full) ∈ w_swept demo_world) as Hs by (vm_compute; left).
  split; [done|]. split; [done|].
  destruct (completeness_reported 2 20 7 demo_session demo_world) as (_ & _ & _ & H);
    [lia|lia|vm_compute; reflexivity|done|].
  by apply (H 1 Full).
Defined.

(** Two traces of two spans, of which one is due. *)
Definition demo_queue : gen :=
  MkGen (<[1 := 0%nat]> (<[2 := 1%nat]> ∅)) [1%nat; 0%nat]
    (<[0%nat := MkSlot 1 100 1 0]> (<[1%nat := MkSlot 2 110 3 0]> ∅)) 2%nat 2 (λ _, 0) (λ _, 0) (λ _, 0).

Lemma sweep_spec_witness :
  queue_ok demo_queue ∧ g_tracesQ (sweep 2 20 125 demo_queue).2 = [1%nat] ∧ (sweep 2 20 125 demo_queue).1 = [(1, Partial)].
Proof.
  assert (queue_ok demo_queue) as Hok.
  { split.
    - vm_compute. repeat constructor; set_solver.
    - intros el Hel. assert (el = 1%nat ∨ el = 0%nat) as [->| ->] by set_solver; by eexists.
    - apply (bool_decide_unpack _). vm_compute. exact I. }
  split; [done|]. pose proof (sweep_spec 2 20 125 demo_queue Hok) as H.
  destruct (sweep 2 20 125 demo_queue) as [r g']. destruct H as (E1 & E2 & _). simpl.
  split; [rewrite E1|rewrite E2]; vm_compute; reflexivity.
Defined.
