(* ===== verification/TracegenMain.v ===== *)
(** * The trace generator's main

    [main] of cmd/tracegen/main.go: the warm-up, the ticker that starts the
    goroutines of [emit], the sweeper, the wait behind [done] and the last sweep,
    around the steps of Tracegen.v. Times are nanoseconds here; [Unix] makes
    seconds of them. A [float64] is a [spec_float]. Metrics, logging, the
    exporters and what [setup] fails of are left out. *)

From Stdlib Require Import Floats.SpecFloat.
From S2P Require Import Prelude Bytes Tracegen.

(** ** The pace *)

Definition float_of_int (z : Z) : spec_float := binary_normalize 53 1024 z 0 false.

(** [math.Ceil] *)
Definition ceil (f : spec_float) : spec_float :=
  match f with
  | S754_finite s m e =>
      if 0 <=? e then f
      else
        let q := Z.shiftr (Zpos m) (- e) in
        let exact := Z.shiftl q (- e) =? Zpos m in
        if s then binary_normalize 53 1024 (- q) 0 true
        else binary_normalize 53 1024 (if exact then q else q + 1) 0 false
  | _ => f
  end.

(** [int(f)] and [time.Duration(f)]: toward zero. What is out of range, infinite
    or not a number gives a value that depends on the processor. *)
Definition truncate (f : spec_float) : option Z :=
  match f with
  | S754_zero _ => Some 0
  | S754_finite s m e => let a := Z.shiftl (Zpos m) e in Some (if s then - a else a)
  | _ => None
  end.

Section pace.
Variable int_out_of_range : spec_float → Z.

Definition int_of_float (f : spec_float) : Z :=
  match truncate f with
  | Some z => if (min_i64 <=? z) && (z <=? max_i64) then z else int_out_of_range f
  | None => int_out_of_range f
  end.

Definition timerHz : spec_float := float_of_int 1000.

Definition batchSize (rate : spec_float) : Z := int_of_float (ceil (SFdiv 53 1024 rate timerHz)).

Definition tickInterval (rate : spec_float) : Duration :=
  int_of_float (SFmul 53 1024 (SFdiv 53 1024 (float_of_int second) rate) (float_of_int (batchSize rate))).
End pace.

(** ** The session *)

(** Where [main] is: warming up; in the loop of the ticker; in the wait behind
    [done]; between the last sweep and the gathering of the metrics; returned, with
    the counters of [tracegen_traces_received_total] it printed; panicked. *)
Inductive main_pc :=
| MWarmup
| MLoop
| MWait (since : Time)
| MGather
| MEnd (report : option (completeness → Z))
| MPanic.

(** [m_start] is when [main] began to warm up; [m_interrupted] is the context of
    the first [NotifyContext], [m_quit] that of the second; [m_listening] holds
    until the listener's [GracefulStop], [m_exports] are the calls of [Export]
    under way. The ticker has been received from last when it had fired [m_fired]
    times since [m_ticker]. [m_spawned] are the goroutines of [emit] that have
    not begun, [m_ticks] is a history: how often the ticker was received from. *)
Record session := MkSession {
  m_pc : main_pc;
  m_world : world;
  m_now : Time;
  m_start : Time;
  m_interrupted : bool;
  m_quit : bool;
  m_listening : bool;
  m_exports : nat;
  m_sweeping : bool;
  m_ticker : Time;
  m_fired : Z;
  m_spawned : Z;
  m_ticks : Z;
}.

Definition Unix (t : Time) : Z := t / second.

(** [time.Duration(n)*time.Second] *)
Definition seconds (n : Z) : Duration := i64 (n * second).

Section main.
Variable svcCount waitTime code : Z.        (* -services, -wait, and the code of this session *)
Variable warmupTime runTime : Z.            (* -warmup, -run *)
Variable rate : spec_float.                 (* -rate *)
Variable int_out_of_range : spec_float → Z.

Abbreviation batch := (batchSize int_out_of_range rate).
Abbreviation interval := (tickInterval int_out_of_range rate).

Definition new_session (now : Time) : session :=
  MkSession MWarmup new_world now now false false true 0 false now 0 0 0.

(** [ctx.Err() != nil] before [done]. *)
Definition ctx_done (m : session) : bool :=
  m_interrupted m || ((0 <? runTime) && (m_start m + seconds (i64 (warmupTime + runTime)) <=? m_now m)).

(** How often the ticker has fired. Its channel holds one tick; the others are
    dropped. *)
Definition fired (m : session) : Z := (m_now m - m_ticker m) / interval.

Definition go (pc : main_pc) (m : session) : session :=
  MkSession pc (m_world m) (m_now m) (m_start m) (m_interrupted m) (m_quit m) (m_listening m) (m_exports m)
    (m_sweeping m) (m_ticker m) (m_fired m) (m_spawned m) (m_ticks m).

Definition with_world (w : world) (spawned : Z) (m : session) : session :=
  MkSession (m_pc m) w (m_now m) (m_start m) (m_interrupted m) (m_quit m) (m_listening m) (m_exports m)
    (m_sweeping m) (m_ticker m) (m_fired m) spawned (m_ticks m).

Definition with_listener (listening : bool) (exports : nat) (m : session) : session :=
  MkSession (m_pc m) (m_world m) (m_now m) (m_start m) (m_interrupted m) (m_quit m) listening exports
    (m_sweeping m) (m_ticker m) (m_fired m) (m_spawned m) (m_ticks m).

Inductive main_label :=
| TClock (t : Time)
| TInterrupt                       (* Ctrl-C *)
| TWarm                            (* the warm-up is over: setup, the sweeper, NewTicker *)
| TTick                            (* a tick: batchSize goroutines, none if it is negative *)
| TLoopEnd                         (* ctx.Done: goto done *)
| TReturn                          (* ctx.Done while warming up, or the second ctx's while waiting *)
| TReport                          (* the wait is over: the last sweep *)
| TGather                          (* the metrics are gathered and printed *)
| TEmit (isErr : bool) (errSvc : Z)   (* a goroutine of emit takes an identifier *)
| TRegister (i : nat)              (* and registers its trace *)
| TSweep | TSweepStop              (* the sweeper goroutine *)
| TListenStop                      (* the listener's goroutine sees ctx.Done *)
| TExport | TSpan (s : span) | TExportEnd.

Abbreviation gen_step l m spawned := (w ← gen_exec svcCount waitTime code l (m_world m); Some (with_world w spawned m)).

Definition stopped (pc : main_pc) : bool := match pc with MEnd _ | MPanic => true | _ => false end.

Definition main_exec (l : main_label) (m : session) : option session :=
  let pc := m_pc m in
  if stopped pc then None
  else
    match l with
    | TClock t =>
        if m_now m <=? t then
          Some (MkSession pc (m_world m) t (m_start m) (m_interrupted m) (m_quit m) (m_listening m) (m_exports m)
                  (m_sweeping m) (m_ticker m) (m_fired m) (m_spawned m) (m_ticks m))
        else None
    | TInterrupt =>
        Some (MkSession pc (m_world m) (m_now m) (m_start m) true
                (match pc with MWait _ | MGather => true | _ => m_quit m end) (m_listening m) (m_exports m)
                (m_sweeping m) (m_ticker m) (m_fired m) (m_spawned m) (m_ticks m))
    | TWarm =>
        match pc with
        | MWarmup =>
            if m_start m + seconds warmupTime <=? m_now m then
              Some (if (svcCount <? 0) || (interval <=? 0) then go MPanic m
                    else MkSession MLoop (m_world m) (m_now m) (m_start m) (m_interrupted m) (m_quit m) (m_listening m)
                           (m_exports m) true (m_now m) 0 (m_spawned m) (m_ticks m))
            else None
        | _ => None
        end
    | TTick =>
        match pc with
        | MLoop =>
            if m_fired m <? fired m then
              Some (MkSession pc (m_world m) (m_now m) (m_start m) (m_interrupted m) (m_quit m) (m_listening m)
                      (m_exports m) (m_sweeping m) (m_ticker m) (fired m) (m_spawned m + Z.max 0 batch) (m_ticks m + 1))
            else None
        | _ => None
        end
    | TLoopEnd => match pc with MLoop => if ctx_done m then Some (go (MWait (m_now m)) m) else None | _ => None end
    | TReturn =>
        match pc with
        | MWarmup => if ctx_done m then Some (go (MEnd None) m) else None
        | MWait _ => if m_quit m then Some (go (MEnd None) m) else None
        | _ => None
        end
    | TReport =>
        match pc with
        | MWait since =>
            if since + seconds waitTime <=? m_now m then
              m' ← gen_step (GSweep (Unix (m_now m))) m (m_spawned m); Some (go MGather m')
            else None
        | _ => None
        end
    | TGather =>
        match pc with
        | MGather => Some (go (MEnd (Some (g_TracesGot (w_gen (m_world m))))) m)
        | _ => None
        end
    | TEmit isErr errSvc =>
        if 0 <? m_spawned m then
          if svcCount <=? 0 then Some (go MPanic m) else gen_step (GStart isErr errSvc) m (m_spawned m - 1)
        else None
    | TRegister i => gen_step (GRegister i (Unix (m_now m))) m (m_spawned m)
    | TSweep => if m_sweeping m then gen_step (GSweep (Unix (m_now m))) m (m_spawned m) else None
    | TSweepStop =>
        if m_sweeping m && ctx_done m then
          Some (MkSession pc (m_world m) (m_now m) (m_start m) (m_interrupted m) (m_quit m) (m_listening m) (m_exports m)
                  false (m_ticker m) (m_fired m) (m_spawned m) (m_ticks m))
        else None
    | TListenStop => if m_interrupted m then Some (with_listener false (m_exports m) m) else None
    | TExport => if m_listening m then Some (with_listener true (S (m_exports m)) m) else None
    | TSpan s => match m_exports m with O => None | S _ => gen_step (GSpan s) m (m_spawned m) end
    | TExportEnd => match m_exports m with O => None | S n => Some (with_listener (m_listening m) n m) end
    end.

Fixpoint main_run (ls : list main_label) (m : session) : option session :=
  match ls with [] => Some m | l :: ls => m' ← main_exec l m; main_run ls m' end.

(** The start, unless [log.Fatal] ends the process. *)
Definition main_begin (now : Time) : option session := if 64 <? svcCount then None else Some (new_session now).

Inductive main_reachable : session → Prop :=
| main_new now m : main_begin now = Some m → main_reachable m
| main_step l m m' : main_reachable m → main_exec l m = Some m' → main_reachable m'.

Lemma main_run_reachable ls m m' : main_run ls m = Some m' → main_reachable m → main_reachable m'.
Proof.
  revert m. induction ls as [|l ls IH]; intros m Hr Hm; simpl in Hr; [by simplify_eq|].
  destruct (main_exec l m) as [m1|] eqn:He; [|done]. apply (IH m1 Hr). by eapply main_step.
Qed.
End main.
