(* ===== verification/TracegenMainProps.v ===== *)
(** * The trace generator's main: what is proved

    The pace of the ticker, the bound on what is emitted, what the final report
    covers, and what an interrupt does to the wait for spans. *)

From Stdlib Require Import Floats.SpecFloat.
From stdpp Require Import functions.
From S2P Require Import Prelude Bytes Interest Tracegen TracegenProps TracegenMain.

(** ** The pace *)

Definition pace_ok (int_out_of_range : spec_float → Z) (r : Z) : bool :=
  let n := batchSize int_out_of_range (float_of_int r) in
  let i := tickInterval int_out_of_range (float_of_int r) in
  (n =? (r + 999) / 1000) && (1 <=? i) && (Z.abs (i * r - n * second) <=? r).

Lemma pace_table f : forallb (pace_ok f) (seqZ 1 2000) = true.
Proof. vm_compute. reflexivity. Qed.

Lemma pace_spec f r :
  1 <= r <= 2000 →
  let n := batchSize f (float_of_int r) in
  let i := tickInterval f (float_of_int r) in
  n = (r + 999) / 1000 ∧ 0 < i ∧ Z.abs (i * r - n * second) <= r.
Proof.
  intros Hr n i. pose proof (pace_table f) as Ht. rewrite forallb_forall in Ht.
  assert (pace_ok f r = true) as Hp by (apply Ht, list_elem_of_In, elem_of_seqZ; lia).
  unfold pace_ok in Hp. fold n i in Hp. clearbody n i. lia.
Qed.

(** ** The steps of the generator, for its queue *)
Section queue.
Variable svcCount waitTime code : Z.

Record gen_ok (now : Z) (g : gen) : Prop := {
  go_queue : queue_ok g;
  go_fresh : ∀ el, el ∈ g_tracesQ g → (el < g_next g)%nat;
  go_ages : ∀ el, el ∈ g_tracesQ g → age_of g el <= now;
}.

Lemma gen_ok_later now now' g : now <= now' → gen_ok now g → gen_ok now' g.
Proof. intros Hle [H1 H2 H3]. split; [done|done|]. intros el Hel. specialize (H3 el Hel). lia. Qed.

(** The same queue with the same ages. *)
Lemma gen_ok_same now g g' :
  g_tracesQ g' = g_tracesQ g → g_next g' = g_next g →
  (∀ el, el ∈ g_tracesQ g → is_Some (g_slots g' !! el) ∧ age_of g' el = age_of g el) → gen_ok now g → gen_ok now g'.
Proof.
  intros Eq En Hs [[Hnd Hsl HS] Hf Ha]. split; [split|..]; rewrite ?Eq, ?En; try done.
  - intros el Hel. by apply Hs.
  - eapply StronglySorted_impl_in, HS. intros x y Hx Hy. simpl. by rewrite (proj2 (Hs x Hx)), (proj2 (Hs y Hy)).
  - intros el Hel. rewrite (proj2 (Hs el Hel)). by apply Ha.
Qed.

Lemma register_queue now t errSvc g : gen_ok now g → gen_ok now (emit_register now t errSvc g).
Proof.
  intros Hok. unfold emit_register. destruct (ti_isErr t); [|done]. destruct Hok as [[Hnd Hsl HS] Hf Ha].
  set (el := g_next g). set (g' := MkGen _ _ _ _ _ _ _ _).
  assert (el ∉ g_tracesQ g) as Hn by (intros Hin%Hf; unfold el in *; lia).
  assert (age_of g' el = now) as Eel by (unfold age_of; simpl; by rewrite lookup_insert_eq).
  assert (∀ x, x ∈ g_tracesQ g → age_of g' x = age_of g x) as Eold.
  { intros x Hx. unfold age_of. simpl. rewrite lookup_insert_ne; [done|]. by intros ->. }
  split; [split|..].
  - simpl. by apply NoDup_cons.
  - intros x [->|Hx]%elem_of_cons; simpl; [rewrite lookup_insert_eq; by eexists|].
    rewrite lookup_insert_ne by (by intros ->). by apply Hsl.
  - simpl. constructor.
    + eapply StronglySorted_impl_in, HS. intros x y Hx Hy. simpl. by rewrite !Eold.
    + apply Forall_forall. intros x Hx. rewrite Eel, Eold by done. by apply Ha.
  - intros x [->|Hx%Hf]%elem_of_cons; simpl; lia.
  - intros x [->|Hx]%elem_of_cons; [by rewrite Eel|]. rewrite Eold by done. by apply Ha.
Qed.

Lemma mark_span_queue now seq gotErr id g : gen_ok now g → gen_ok now (mark_span seq gotErr id g).2.
Proof.
  intros Hok. unfold mark_span. destruct (g_traces g !! id) as [el|]; [|done]. cbn [mbind option_bind].
  destruct (g_slots g !! el) as [sl|] eqn:Hsl; [|done]. cbn [mbind option_bind]. repeat case_match; try done. simpl.
  apply (gen_ok_same now g); [done|done| |done]. intros x Hx. unfold age_of. simpl.
  destruct (decide (x = el)) as [->|Hne]; [by rewrite lookup_insert_eq, Hsl|].
  rewrite lookup_insert_ne by (by apply not_eq_sym). split; [by apply Hok|done].
Qed.

Lemma check_span_queue now s g v g' : check_span svcCount code s g = Some (v, g') → gen_ok now g → gen_ok now g'.
Proof.
  intros Hc Hok. unfold check_span in Hc. repeat (case_match; try done); simplify_eq; try done.
  match goal with H : mark_span ?a ?b ?c g = _ |- _ => pose proof (mark_span_queue now a b c g Hok) as H'; by rewrite H in H' end.
Qed.

(** The slots of what a sweep leaves. *)
Lemma sweep_loop_slots fuel now g :
  queue_ok g →
  let '(r, g') := sweep_loop svcCount waitTime fuel now g in
  g_next g' = g_next g ∧ g_TracesSent g' = g_TracesSent g ∧ g_counter g' = g_counter g
  ∧ ∀ x, x ∈ g_tracesQ g' → x ∈ g_tracesQ g ∧ g_slots g' !! x = g_slots g !! x.
Proof.
  revert g. induction fuel as [|fuel IH]; intros g Hok; [done|]. cbn [sweep_loop].
  destruct (last (g_tracesQ g)) as [el|] eqn:Hl; [|done]. apply last_Some in Hl as [l Hq].
  destruct (g_slots g !! el) as [sl|] eqn:Hsl; [|done]. destruct (_ <? _); [done|].
  destruct (sweep_one_queue g el sl l Hok Hq Hsl) as (Hok' & Hq' & Hsame).
  pose proof (IH (sweep_one el sl g) Hok') as H'. destruct (sweep_loop _ _ fuel _ _) as [r g'].
  destruct H' as (E1 & E2 & E3 & E4). split_and!; [done..|]. intros x Hx.
  destruct (E4 x Hx) as [Hin E]. rewrite Hq' in Hin. rewrite E, Hsame by done. split; [|done]. rewrite Hq. set_solver.
Qed.

Lemma gen_ok_sub now g g' :
  (∃ P : loc → Prop, ∃ d : ∀ x, Decision (P x), g_tracesQ g' = filter P (g_tracesQ g)) → g_next g' = g_next g →
  (∀ x, x ∈ g_tracesQ g' → x ∈ g_tracesQ g ∧ g_slots g' !! x = g_slots g !! x) → gen_ok now g → gen_ok now g'.
Proof.
  intros (P & d & Eq) En Hs [[Hnd Hsl HS] Hf Ha].
  assert (∀ x, x ∈ g_tracesQ g' → age_of g' x = age_of g x) as Hage.
  { intros x Hx. unfold age_of. by rewrite (proj2 (Hs x Hx)). }
  split; [split|..].
  - rewrite Eq. by apply NoDup_filter.
  - intros x Hx. rewrite (proj2 (Hs x Hx)). by apply Hsl, Hs.
  - assert (StronglySorted (λ a b, age_of g b <= age_of g a) (g_tracesQ g')) as HS'
      by (rewrite Eq; by apply StronglySorted_filter).
    eapply StronglySorted_impl_in, HS'. intros x y Hx Hy. simpl. by rewrite !Hage.
  - intros x Hx. rewrite En. by apply Hf, Hs.
  - intros x Hx. rewrite Hage by done. by apply Ha, Hs.
Qed.

Lemma sweep_queue now now' g : gen_ok now g → gen_ok now (sweep svcCount waitTime now' g).2.
Proof.
  intros Hok. unfold sweep.
  pose proof (sweep_loop_slots (S (length (g_tracesQ g))) now' g (go_queue _ _ Hok)) as H1.
  pose proof (sweep_loop_spec svcCount waitTime (S (length (g_tracesQ g))) now' g (go_queue _ _ Hok) ltac:(lia)) as H2.
  destruct (sweep_loop _ _ _ _ _) as [r g']. destruct H1 as (E1 & _ & _ & E4), H2 as (E5 & _ & _). simpl.
  apply (gen_ok_sub now g); [|done|done|done]. by eexists _, _.
Qed.
End queue.

(** ** The steps, for the queue and the counters *)
Section steps.
Variable svcCount waitTime code : Z.

Abbreviation sent w := (g_TracesSent (w_gen w) true + g_TracesSent (w_gen w) false).
Abbreviation step := (gen_exec svcCount waitTime code).

(** The error traces past their registration. *)
Definition errors (w : world) : list emitted := filter (λ e, ti_isErr (em_traceID e) = true) (w_emitted w).

Record books (now : Z) (w : world) : Prop := {
  bk_gen : gen_ok now (w_gen w);
  bk_counts : ∀ c, g_TracesGot (w_gen w) c = count_of c (w_swept w);
  bk_all : len (w_swept w) + len (g_tracesQ (w_gen w)) = len (errors w);
}.

Lemma books_later now now' w : now <= now' → books now w → books now' w.
Proof. intros Hle [H1 H2 H3]. split; [by apply (gen_ok_later now)|done|done]. Qed.

Lemma count_of_app c r r' : count_of c (r ++ r') = count_of c r + count_of c r'.
Proof. unfold count_of. rewrite filter_app, length_app. lia. Qed.

Lemma count_of_total r : count_of Full r + count_of Partial r + count_of NoSpans r = len r.
Proof.
  unfold count_of. induction r as [|[k []] r IH]; [done|..];
    rewrite !filter_cons; simpl; repeat (rewrite ?decide_True by done; rewrite ?decide_False by done); simpl; lia.
Qed.

Lemma filter_split {A} (P : A → Prop) `{!∀ x, Decision (P x)} (l : list A) :
  len (filter P l) + len (filter (λ x, ¬ P x) l) = len l.
Proof.
  induction l as [|x l IH]; [done|]. rewrite !filter_cons. destruct (decide (P x)).
  - rewrite decide_False by tauto. simpl. lia.
  - rewrite decide_True by tauto. simpl. lia.
Qed.

Lemma start_books now isErr errSvc w w' :
  step (GStart isErr errSvc) w = Some w' → books now w →
  books now w' ∧ sent w' = sent w + 1 ∧ w_received w' = w_received w.
Proof.
  intros He [H1 H2 H3]. cbn [gen_exec] in He. destruct (_ && _); [|done]. simplify_eq/=. split; [|split; [|done]].
  - split; [by apply (gen_ok_same now (w_gen w)); [..|intros el Hel; split; [by apply H1|]|]|done|done].
  - destruct isErr; rewrite fn_lookup_insert, fn_lookup_insert_ne by done; lia.
Qed.

Lemma register_books now i w w' :
  step (GRegister i now) w = Some w' → books now w → books now w' ∧ sent w' = sent w ∧ w_received w' = w_received w.
Proof.
  intros He [H1 H2 H3]. cbn [gen_exec] in He. destruct (w_pending w !! i) as [e|]; [|done]. simplify_eq/=.
  split; [|split; [by unfold emit_register; case_match|done]]. split; simpl.
  - by apply register_queue.
  - by unfold emit_register; case_match.
  - unfold errors, emit_register in *. simpl. rewrite filter_app, filter_cons, filter_nil, length_app.
    case_decide as E; [rewrite E; simpl; lia|]. apply not_true_is_false in E. rewrite E. simpl. lia.
Qed.

Lemma span_books now s w w' : step (GSpan s) w = Some w' → books now w → books now w' ∧ sent w' = sent w.
Proof.
  intros He [H1 H2 H3]. cbn [gen_exec] in He. destruct (check_span _ _ s _) as [[v g]|] eqn:Hc; [|done]. simplify_eq/=.
  pose proof (check_span_queue svcCount code now _ _ _ _ Hc H1) as Hok.
  assert (g_TracesGot g = g_TracesGot (w_gen w) ∧ g_tracesQ g = g_tracesQ (w_gen w) ∧ g_TracesSent g = g_TracesSent (w_gen w))
    as (E1 & E2 & E3).
  { clear Hok. unfold check_span, mark_span in Hc. repeat (case_match; simplify_eq/=; try done). }
  split; [|by rewrite E3]. split; simpl; [done|by rewrite E1|by rewrite E2].
Qed.

Lemma sweep_books now now' w w' :
  step (GSweep now') w = Some w' → books now w →
  books now w' ∧ sent w' = sent w ∧ w_received w' = w_received w ∧ errors w' = errors w
  ∧ g_tracesQ (w_gen w') = filter (λ el, ¬ expired waitTime now' (w_gen w) el) (g_tracesQ (w_gen w))
  ∧ ∀ el, el ∈ g_tracesQ (w_gen w') → age_of (w_gen w') el = age_of (w_gen w) el.
Proof.
  intros He [H1 H2 H3]. cbn [gen_exec] in He. set (g := w_gen w) in *.
  pose proof (sweep_queue svcCount waitTime now now' g H1) as Hok. unfold sweep in *.
  pose proof (sweep_loop_slots svcCount waitTime (S (length (g_tracesQ g))) now' g (go_queue _ _ H1)) as Hs.
  pose proof (sweep_loop_spec svcCount waitTime (S (length (g_tracesQ g))) now' g (go_queue _ _ H1) ltac:(lia)) as Hq.
  destruct (sweep_loop _ _ _ _ _) as [r g']. destruct Hs as (_ & E2 & _ & E4), Hq as (E5 & E6 & E7). simplify_eq/=.
  split_and!; [split; simpl|by rewrite E2|done|done|done|].
  - done.
  - intros c. by rewrite count_of_app, E7, H2.
  - pose proof (filter_split (expired waitTime now' g) (g_tracesQ g)) as Hf.
    rewrite length_app, E5, length_fmap, length_reverse. unfold errors in *. simpl. lia.
  - intros el Hel. unfold age_of. simpl. by rewrite (proj2 (E4 el Hel)).
Qed.

(** What is in the queue was there, as old, or has been registered since. *)
Definition queue_since (w w' : world) : Prop :=
  (g_next (w_gen w) <= g_next (w_gen w'))%nat ∧
  ∀ el, el ∈ g_tracesQ (w_gen w') →
    el ∈ g_tracesQ (w_gen w) ∧ age_of (w_gen w') el = age_of (w_gen w) el ∨ (g_next (w_gen w) <= el)%nat.

Lemma queue_since_refl w : queue_since w w.
Proof. split; [done|]. intros el Hel. by left. Qed.

Lemma queue_since_trans w w1 w2 : queue_since w w1 → queue_since w1 w2 → queue_since w w2.
Proof.
  intros [Hn H] [Hn1 H1]. split; [lia|]. intros el [[Hel E1]|Hel]%H1; [|right; lia].
  destruct (H el Hel) as [[Hin E]|]; [left; split; [done|congruence]|by right].
Qed.

Lemma mark_span_same seq gotErr id g :
  let g' := (mark_span seq gotErr id g).2 in
  g_tracesQ g' = g_tracesQ g ∧ g_next g' = g_next g ∧ ∀ el, age_of g' el = age_of g el.
Proof.
  unfold mark_span. destruct (g_traces g !! id) as [el|]; [|done]. cbn [mbind option_bind].
  destruct (g_slots g !! el) as [sl|] eqn:Hsl; [|done]. cbn [mbind option_bind]. repeat case_match; try done. simpl.
  split; [done|]. split; [done|]. intros x. unfold age_of. simpl.
  destruct (decide (x = el)) as [->|Hne]; [by rewrite lookup_insert_eq, Hsl|].
  by rewrite lookup_insert_ne by (by apply not_eq_sym).
Qed.

Lemma queue_step now l w w' : step l w = Some w' → books now w → queue_since w w'.
Proof.
  intros He Hb. destruct l as [isErr errSvc|i now'|s|now']; cbn [gen_exec] in He.
  - destruct (_ && _); [|done]. simplify_eq/=. split; simpl; [lia|]. intros el Hel. by left.
  - destruct (w_pending w !! i) as [e|]; [|done]. simplify_eq/=. unfold emit_register.
    destruct (ti_isErr _); [|split; simpl; [lia|]; intros el Hel; by left].
    split; simpl; [lia|]. intros el [->|Hel]%elem_of_cons; [by right|].
    left. split; [done|]. unfold age_of. simpl. rewrite lookup_insert_ne; [done|].
    intros <-. pose proof (go_fresh _ _ (bk_gen _ _ Hb) _ Hel). lia.
  - destruct (check_span _ _ s _) as [[v g]|] eqn:Hc; [|done]. simplify_eq/=.
    assert (g = w_gen w ∨ ∃ a b c, g = (mark_span a b c (w_gen w)).2) as [->|(a & b & c & ->)].
    { unfold check_span in Hc. repeat (case_match; try done); simplify_eq; try (by left); right;
        match goal with H : mark_span ?a ?b ?c _ = _ |- _ => exists a, b, c; by rewrite H end. }
    + split; simpl; [lia|]. intros el Hel. by left.
    + destruct (mark_span_same a b c (w_gen w)) as (E1 & E2 & E3). split; simpl; [by rewrite E2|].
      rewrite E1. intros el Hel. left. by rewrite E3.
  - pose proof (sweep_books now now' w w') as Hs. cbn [gen_exec] in Hs. destruct (Hs He Hb) as (_ & _ & _ & _ & Eq & Ea).
    assert (g_next (w_gen w') = g_next (w_gen w)) as En.
    { unfold sweep in He. pose proof (sweep_loop_slots svcCount waitTime (S (length (g_tracesQ (w_gen w)))) now' (w_gen w)
        (go_queue _ _ (bk_gen _ _ Hb))) as Hl. destruct (sweep_loop _ _ _ _ _) as [r g']. destruct Hl as [Hl _]. by simplify_eq/=. }
    split; [by rewrite En|]. intros el Hel. left. split; [|by apply Ea]. rewrite Eq in Hel. by apply list_elem_of_filter in Hel as [_ ?].
Qed.
End steps.

(** ** The session *)
Section session.
Variable svcCount waitTime code : Z.
Variable warmupTime runTime : Z.
Variable rate : spec_float.
Variable int_out_of_range : spec_float → Z.

Abbreviation batch := (batchSize int_out_of_range rate).
Abbreviation interval := (tickInterval int_out_of_range rate).
Abbreviation texec := (main_exec svcCount waitTime code warmupTime runTime rate int_out_of_range).
Abbreviation reachable := (main_reachable svcCount waitTime code warmupTime runTime rate int_out_of_range).
Abbreviation sent m := (g_TracesSent (w_gen (m_world m)) true + g_TracesSent (w_gen (m_world m)) false).

Record session_ok (m : session) : Prop := {
  so_books : books (Unix (m_now m)) (m_world m);
  so_spawned : 0 <= sent m ∧ 0 <= m_spawned m;
  so_sent : sent m + m_spawned m = Z.max 0 batch * m_ticks m;
  so_ticks : 0 <= m_ticks m <= m_fired m;
  so_ticker : m_ticker m <= m_now m;
  so_fired : m_fired m * interval <= m_now m - m_ticker m;
  so_warm : m_pc m = MWarmup → m_ticks m = 0;
  so_interval : m_pc m = MLoop → 0 < interval;
  so_listen : m_interrupted m = false → m_listening m = true;
}.

Lemma new_session_ok now : session_ok (new_session now).
Proof.
  split; simpl; try (lia || done). split; simpl; [|done|done]. split; [split|..]; simpl; try set_solver.
  - apply NoDup_nil_2.
  - constructor.
Qed.

Lemma Unix_mono t t' : t <= t' → Unix t <= Unix t'.
Proof. intros Hle. apply Z.div_le_mono; [done|lia]. Qed.

(** A step of the generator's world, among those that leave the books right. *)
Lemma world_ok m w spawned k :
  session_ok m → books (Unix (m_now m)) w → 0 <= k → 0 <= m_spawned m - k →
  g_TracesSent (w_gen w) true + g_TracesSent (w_gen w) false = sent m + k →
  spawned = m_spawned m - k → session_ok (with_world w spawned m).
Proof. intros [] Hb Hk Hs Hsent ->. split; simpl; try done; lia. Qed.

Lemma go_ok pc m : session_ok m → pc ≠ MWarmup → pc ≠ MLoop → session_ok (go pc m).
Proof. intros [] H1 H2. by split. Qed.

Lemma listener_ok listening exports m :
  session_ok m → (m_interrupted m = false → listening = true) → session_ok (with_listener listening exports m).
Proof. intros [] Hl. by split. Qed.

Lemma ticker_ok m :
  session_ok m → m_pc m = MLoop → m_fired m < fired rate int_out_of_range m →
  session_ok (MkSession MLoop (m_world m) (m_now m) (m_start m) (m_interrupted m) (m_quit m) (m_listening m)
    (m_exports m) (m_sweeping m) (m_ticker m) (fired rate int_out_of_range m) (m_spawned m + Z.max 0 batch) (m_ticks m + 1)).
Proof.
  intros [] Hpc Hf. specialize (so_interval0 Hpc). split; simpl; try (done || lia).
  unfold fired. rewrite Z.mul_comm. by apply Z.mul_div_le.
Qed.

Lemma session_clock_ok t m :
  m_now m <= t → session_ok m →
  session_ok (MkSession (m_pc m) (m_world m) t (m_start m) (m_interrupted m) (m_quit m) (m_listening m) (m_exports m)
    (m_sweeping m) (m_ticker m) (m_fired m) (m_spawned m) (m_ticks m)).
Proof.
  intros Ht []. split; simpl; try (done || lia). eapply books_later; [|done]. by apply Unix_mono.
Qed.

Lemma warm_ok m :
  m_pc m = MWarmup → session_ok m →
  session_ok (if (svcCount <? 0) || (interval <=? 0) then go MPanic m
              else MkSession MLoop (m_world m) (m_now m) (m_start m) (m_interrupted m) (m_quit m) (m_listening m)
                     (m_exports m) true (m_now m) 0 (m_spawned m) (m_ticks m)).
Proof.
  intros Hpc Hok. destruct (svcCount <? 0); simpl; [by apply go_ok|].
  destruct (Z.leb_spec interval 0); [by apply go_ok|]. destruct Hok. specialize (so_warm0 Hpc). split; simpl; done || lia.
Qed.

(** The steps of the world. *)
Lemma emit_ok isErr errSvc m m' :
  (w ← gen_exec svcCount waitTime code (GStart isErr errSvc) (m_world m); Some (with_world w (m_spawned m - 1) m)) = Some m' →
  0 < m_spawned m → session_ok m → session_ok m'.
Proof.
  intros He Hpos Hok. destruct (gen_exec _ _ _ _ _) as [w|] eqn:Hg; [|done]. cbn [mbind option_bind] in He. simplify_eq.
  destruct (start_books _ _ _ _ _ _ _ _ Hg (so_books _ Hok)) as (Hb & Hs & _). by apply (world_ok m w _ 1); [..|lia| |].
Qed.

Lemma quiet_ok l w m :
  gen_exec svcCount waitTime code l (m_world m) = Some w →
  match l with GStart _ _ => False | GRegister _ now | GSweep now => now = Unix (m_now m) | GSpan _ => True end →
  session_ok m → session_ok (with_world w (m_spawned m) m).
Proof.
  intros Hg Hl Hok. pose proof (so_spawned _ Hok).
  assert (books (Unix (m_now m)) w ∧ g_TracesSent (w_gen w) true + g_TracesSent (w_gen w) false = sent m) as (Hb & Hs).
  { destruct l; [done|subst now| |subst now].
    - destruct (register_books _ _ _ _ _ _ _ Hg (so_books _ Hok)) as (? & ? & _). done.
    - exact (span_books _ _ _ _ _ _ _ Hg (so_books _ Hok)).
    - destruct (sweep_books _ _ _ _ _ _ _ Hg (so_books _ Hok)) as (? & ? & _). done. }
  apply (world_ok m w _ 0); [done|done|lia..].
Qed.

Lemma exec_ok l m m' : texec l m = Some m' → session_ok m → session_ok m'.
Proof.
  intros He Hok. unfold main_exec in He. cbv zeta in He. destruct (stopped (m_pc m)) eqn:Hst; [done|].
  destruct l; try (exec_inv He; by eapply quiet_ok).
  - exec_inv He. apply session_clock_ok; [lia|done].
  - exec_inv He. destruct Hok. by split.
  - exec_inv He. by apply warm_ok.
  - exec_inv He. apply Z.ltb_lt in E0. by apply ticker_ok.
  - exec_inv He. by apply go_ok.
  - exec_inv He; by apply go_ok.
  - exec_inv He. apply go_ok; [|done..]. exec_inv E1. by eapply quiet_ok.
  - exec_inv He. by apply go_ok.
  - destruct (Z.ltb_spec 0 (m_spawned m)); [|done]. destruct (_ <=? _); [simplify_eq; by apply go_ok|]. by eapply emit_ok.
  - exec_inv He. by destruct Hok; split.
  - exec_inv He. apply listener_ok; [done|]. congruence.
  - exec_inv He. by apply listener_ok.
  - exec_inv He. by apply listener_ok; [|apply Hok].
Qed.

Lemma reachable_ok m : reachable m → session_ok m.
Proof.
  induction 1 as [now m Hb|l m m' _ IH He]; [|by eapply exec_ok].
  unfold main_begin in Hb. case_match; simplify_eq. apply new_session_ok.
Qed.

(** After the ticker has fired for a time, that many traces at most. *)
Lemma sent_bound m : session_ok m → sent m * interval <= Z.max 0 batch * (m_now m - m_ticker m).
Proof.
  intros []. destruct (Z.le_gt_cases interval 0) as [Hi|Hi]; [nia|].
  trans (Z.max 0 batch * m_ticks m * interval); [apply Z.mul_le_mono_nonneg_r; lia|].
  rewrite <- Z.mul_assoc. apply Z.mul_le_mono_nonneg_l; [lia|].
  trans (m_fired m * interval); [apply Z.mul_le_mono_nonneg_r; lia|done].
Qed.

(** *** The queue, over a run *)

Lemma session_queue l m m' : texec l m = Some m' → session_ok m → queue_since (m_world m) (m_world m').
Proof.
  intros He Hok. pose proof (so_books _ Hok) as Hb. unfold main_exec in He. cbv zeta in He.
  destruct (stopped (m_pc m)); [done|].
  assert (∀ gl w sp, gen_exec svcCount waitTime code gl (m_world m) = Some w →
    queue_since (m_world m) (m_world (with_world w sp m))) as Hw by (intros; by eapply queue_step).
  destruct l; try (exec_inv He; by apply queue_since_refl); try (exec_inv He; by eapply Hw).
  - exec_inv He. by destruct (_ || _); apply queue_since_refl.
  - exec_inv He. exec_inv E1. by eapply (Hw _ _ (m_spawned m)).
  - destruct (0 <? m_spawned m); [|done]. destruct (svcCount <=? 0); [simplify_eq; apply queue_since_refl|].
    exec_inv He. by eapply Hw.
Qed.

Lemma session_run_queue ls m m' :
  main_run svcCount waitTime code warmupTime runTime rate int_out_of_range ls m = Some m' → session_ok m →
  session_ok m' ∧ queue_since (m_world m) (m_world m').
Proof.
  revert m. induction ls as [|l ls IH]; intros m Hr Hok; cbn [main_run] in Hr.
  { simplify_eq. split; [done|apply queue_since_refl]. }
  destruct (texec l m) as [m1|] eqn:He; [|done]. cbn [mbind option_bind] in Hr.
  destruct (IH _ Hr (exec_ok _ _ _ He Hok)) as [Hok' Hq]. split; [done|].
  eapply queue_since_trans; [by eapply session_queue|done].
Qed.

(** *** An interrupt *)

Lemma quiet_received l w w' :
  gen_exec svcCount waitTime code l w = Some w' → match l with GSpan _ => False | _ => True end →
  w_received w' = w_received w.
Proof. intros Hg Hl. destruct l; try done; cbn [gen_exec] in Hg; exec_inv Hg; done. Qed.

(** A step of a session that does not listen any more. *)
Lemma deaf_step l m m' :
  texec l m = Some m' → m_listening m = false →
  m_listening m' = false ∧ l ≠ TExport ∧ (m_exports m' <= m_exports m)%nat ∧
  (m_exports m = 0%nat → w_received (m_world m') = w_received (m_world m)).
Proof.
  intros He Hl. unfold main_exec in He. cbv zeta in He. rewrite Hl in He. destruct (stopped (m_pc m)); [done|].
  assert (∀ gl w sp, gen_exec svcCount waitTime code gl (m_world m) = Some w →
    match gl with GSpan _ => m_exports m ≠ 0%nat | _ => True end →
    m_exports m = 0%nat → w_received (m_world (with_world w sp m)) = w_received (m_world m)) as Hw.
  { intros gl w sp Hg Hx H0. apply quiet_received in Hg; [done|]. by destruct gl. }
  destruct l; try done;
    try (exec_inv He; match goal with H : gen_exec _ _ _ _ _ = Some _ |- _ => pose proof (Hw _ _ (m_spawned m) H) end;
         by split_and!; [..|auto]);
    try (exec_inv He; simpl; split_and!; done || lia).
  - exec_inv He. by destruct (_ || _).
  - exec_inv He. exec_inv E1. pose proof (Hw _ _ (m_spawned m) E2 I). by split_and!.
  - destruct (0 <? m_spawned m); [|done]. destruct (svcCount <=? 0); [by simplify_eq|]. exec_inv He.
    pose proof (Hw _ _ (m_spawned m - 1) E I). by split_and!.
Qed.

Lemma deaf_run ls m m' :
  main_run svcCount waitTime code warmupTime runTime rate int_out_of_range ls m = Some m' → m_listening m = false →
  m_listening m' = false ∧ TExport ∉ ls ∧ (m_exports m' <= m_exports m)%nat ∧
  (m_exports m = 0%nat → w_received (m_world m') = w_received (m_world m)).
Proof.
  revert m. induction ls as [|l ls IH]; intros m Hr Hd; cbn [main_run] in Hr.
  { simplify_eq. split; [done|]. split; [apply not_elem_of_nil|done]. }
  destruct (texec l m) as [m1|] eqn:He; [|done]. cbn [mbind option_bind] in Hr.
  destruct (deaf_step _ _ _ He Hd) as (Hd1 & Hl & Hx & Hrec). destruct (IH _ Hr Hd1) as (Hd2 & Hls & Hx2 & Hrec2).
  split; [done|]. split; [by apply not_elem_of_cons|]. split; [lia|]. intros H0. rewrite Hrec2, Hrec by lia. done.
Qed.
End session.

(** ** The theorems *)

(** C30: the final report. Once the waiting time is over the last sweep can be made,
    and leaves nothing in the queue that was registered in the second the wait
    began in or before. Whatever the other goroutines do then, the sweeper and
    the listener among them, the report can be made; it counts each kind of the
    traces the sweeps took, and with the traces left in the queue these are all
    the error traces the session registered. What is left was registered in a
    later second than the one the wait began in, or after the last sweep. *)
Theorem report_complete svcCount waitTime code warmupTime runTime rate f m since :
  main_reachable svcCount waitTime code warmupTime runTime rate f m →
  m_pc m = MWait since → 0 <= waitTime → waitTime * second < 2 ^ 63 → since + waitTime * second <= m_now m →
  let exec := main_exec svcCount waitTime code warmupTime runTime rate f in
  ∃ m1, exec TReport m = Some m1 ∧ m_pc m1 = MGather ∧ errors (m_world m1) = errors (m_world m)
    ∧ (∀ el, el ∈ g_tracesQ (w_gen (m_world m1)) → Unix since < age_of (w_gen (m_world m1)) el)
    ∧ ∀ ls m2, main_run svcCount waitTime code warmupTime runTime rate f ls m1 = Some m2 → m_pc m2 = MGather →
      ∃ m' report,
        exec TGather m2 = Some m' ∧ m_pc m' = MEnd (Some report)
        ∧ (∀ c, report c = count_of c (w_swept (m_world m')))
        ∧ report Full + report Partial + report NoSpans + len (g_tracesQ (w_gen (m_world m'))) = len (errors (m_world m'))
        ∧ ∀ el, el ∈ g_tracesQ (w_gen (m_world m')) →
            Unix since < age_of (w_gen (m_world m')) el ∨ (g_next (w_gen (m_world m1)) <= el)%nat.
Proof.
  intros Hr Hpc Hw0 Hw Hnow exec. pose proof (reachable_ok _ _ _ _ _ _ _ _ Hr) as Hok. pose proof (so_books _ _ _ Hok) as Hb.
  assert (seconds waitTime = waitTime * second) as Es by (unfold seconds; apply i64_small; unfold is_i64, min_i64, max_i64, second in *; lia).
  destruct (gen_exec svcCount waitTime code (GSweep (Unix (m_now m))) (m_world m)) as [w|] eqn:Hg;
    [|by cbn [gen_exec] in Hg; destruct (sweep _ _ _ _)].
  destruct (sweep_books _ _ _ _ _ _ _ Hg Hb) as (_ & _ & _ & Ee & Eq & Eage).
  assert (exec TReport m = Some (go MGather (with_world w (m_spawned m) m))) as He1.
  { unfold exec, main_exec. cbv zeta. rewrite Hpc. cbn [stopped]. rewrite Es.
    by rewrite (proj2 (Z.leb_le _ _) Hnow), Hg. }
  eexists. split; [exact He1|]. split; [done|]. split; [exact Ee|].
  assert (∀ el, el ∈ g_tracesQ (w_gen w) → Unix since < age_of (w_gen w) el) as Hage.
  { intros el Hel. rewrite Eage by done. rewrite Eq in Hel. apply list_elem_of_filter in Hel as [Hx Hel].
    unfold expired in Hx. assert (Unix since + waitTime <= Unix (m_now m)); [|lia].
    unfold Unix. rewrite <- Z.div_add by done. by apply Z.div_le_mono. }
  split; [exact Hage|]. intros ls m2 Hrun Hpc2.
  destruct (session_run_queue _ _ _ _ _ _ _ _ _ _ Hrun (exec_ok _ _ _ _ _ _ _ _ _ _ He1 Hok)) as [Hok2 [_ Hq]].
  destruct (so_books _ _ _ Hok2) as [_ Hc Ha].
  eexists _, _. unfold exec, main_exec. cbv zeta. rewrite Hpc2. cbn [stopped]. split; [reflexivity|]. split; [reflexivity|].
  split; [exact Hc|]. split; [rewrite !Hc, count_of_total; exact Ha|].
  intros el [[Hel E]|Hel]%Hq; [|by right]. left. simpl in *. rewrite E. by apply Hage.
Qed.

(** C31: the traces are sent at the pace that is asked for. For every whole [-rate]
    up to 2000 per second the floating point arithmetic gives batches of
    [rate / 1000], rounded up, at an interval that, times the rate, is off by
    [rate] nanoseconds at most; and never have more traces been sent than one
    batch for each interval since the ticker was made. *)
Theorem pace_kept svcCount waitTime code warmupTime runTime r f m :
  1 <= r <= 2000 →
  main_reachable svcCount waitTime code warmupTime runTime (float_of_int r) f m →
  let n := batchSize f (float_of_int r) in
  let i := tickInterval f (float_of_int r) in
  let sent := g_TracesSent (w_gen (m_world m)) true + g_TracesSent (w_gen (m_world m)) false in
  n = (r + 999) / 1000 ∧ 0 < i ∧ Z.abs (i * r - n * second) <= r ∧ sent * i <= n * (m_now m - m_ticker m).
Proof.
  intros Hr Hm n i sent. pose proof (pace_spec f r Hr) as (En & Hi & Hd).
  pose proof (sent_bound _ _ _ (reachable_ok _ _ _ _ _ _ _ _ Hm)) as Hs. fold n i in En, Hi, Hd, Hs.
  rewrite Z.max_r in Hs by (rewrite En; apply Z.div_pos; lia). done.
Qed.

(** C32: an interrupt ends the reception of spans, also for the wait that is to
    collect those in flight. While nothing interrupts the session it listens,
    whatever the run time. From an interrupt on the listener's goroutine can stop
    the server, in every state before the end of [main]. Once it has, whatever
    happens, the wait behind [done] included, no call of [Export] begins: spans
    are received by the calls that were under way then and by no others, and with
    none under way no span is received any more. *)
Theorem interrupt_stops_listener svcCount waitTime code warmupTime runTime rate f m :
  main_reachable svcCount waitTime code warmupTime runTime rate f m →
  (m_interrupted m = false → m_listening m = true)
  ∧ (m_interrupted m = true → stopped (m_pc m) = false →
     ∃ m1, main_exec svcCount waitTime code warmupTime runTime rate f TListenStop m = Some m1 ∧ m_listening m1 = false)
  ∧ (m_listening m = false → ∀ ls m', main_run svcCount waitTime code warmupTime runTime rate f ls m = Some m' →
     m_listening m' = false ∧ TExport ∉ ls ∧ (m_exports m' <= m_exports m)%nat
     ∧ (m_exports m = 0%nat → w_received (m_world m') = w_received (m_world m))).
Proof.
  intros Hr. split; [apply (so_listen _ _ _ (reachable_ok _ _ _ _ _ _ _ _ Hr))|]. split.
  - intros Hi Hst. unfold main_exec. cbv zeta. rewrite Hst, Hi. by eexists.
  - intros Hl ls m' Hrun. by eapply deaf_run.
Qed.

(** ** A session

    Two services, 1500 traces per second, a warm-up of a second, a run of two, a
    wait of one. Two ticks; three goroutines take identifiers, two of error
    traces; one of those is complete when it is swept, the other has no spans. *)
Definition demo_rate : spec_float := float_of_int 1500.
Definition demo_err : traceID := MkTraceID 1 7 true.

Definition demo_loop : list main_label :=
  [TClock second; TWarm; TClock (second + 1333333); TTick; TEmit true 1; TRegister 0; TEmit false 0; TRegister 0;
   TClock (second + 2700000); TTick; TEmit true 0].

Definition demo_wait : list main_label :=
  [TExport; TSpan (emit_span demo_err 1 1); TSpan (emit_span demo_err 1 0); TExportEnd; TRegister 0;
   TClock (3 * second); TLoopEnd; TSweepStop; TClock (4 * second)].

Abbreviation demo_run := (main_run 2 1 7 1 1 demo_rate (λ _, 0)).
Definition demo_looping : session := default (new_session 0) (demo_run demo_loop (new_session 0)).
Definition demo_waiting : session := default (new_session 0) (demo_run demo_wait demo_looping).

Lemma demo_looping_reachable : main_reachable 2 1 7 1 1 demo_rate (λ _, 0) demo_looping.
Proof.
  apply (main_run_reachable 2 1 7 1 1 demo_rate (λ _, 0) demo_loop (new_session 0)); [vm_compute; reflexivity|].
  by eapply main_new.
Qed.

Lemma demo_waiting_reachable : main_reachable 2 1 7 1 1 demo_rate (λ _, 0) demo_waiting.
Proof.
  apply (main_run_reachable 2 1 7 1 1 demo_rate (λ _, 0) demo_wait demo_looping); [vm_compute; reflexivity|].
  exact demo_looping_reachable.
Qed.

(** After the last sweep the sweeper is stopped, then the report is gathered. *)
Definition demo_gathering : session := default (new_session 0) (demo_run [TReport] demo_waiting).

Lemma report_complete_witness :
  ∃ m' report,
    main_exec 2 1 7 1 1 demo_rate (λ _, 0) TGather demo_gathering = Some m' ∧ m_pc m' = MEnd (Some report)
    ∧ report Full = 1 ∧ report NoSpans = 1 ∧ report Partial = 0.
Proof.
  assert (main_exec 2 1 7 1 1 demo_rate (λ _, 0) TReport demo_waiting = Some demo_gathering) as Hg by (vm_compute; reflexivity).
  assert (m_pc demo_gathering = MGather) as Hpc by (vm_compute; reflexivity).
  destruct (report_complete 2 1 7 1 1 demo_rate (λ _, 0) demo_waiting (3 * second) demo_waiting_reachable)
    as (m1 & He & _ & _ & _ & H); [vm_compute; reflexivity|lia|vm_compute; reflexivity|vm_compute; discriminate|].
  cbv zeta in He. pose proof (Some_inj _ _ (eq_trans (eq_sym He) Hg)) as E.
  destruct (H [] demo_gathering (f_equal Some E) Hpc) as (m' & report & Hx & Hp & Hc & _).
  exists m', report. split; [exact Hx|]. split; [exact Hp|].
  assert (w_swept (m_world m') = [(1, Full); (3, NoSpans)]) as Es.
  { assert (option_map (λ m, w_swept (m_world m)) (main_exec 2 1 7 1 1 demo_rate (λ _, 0) TGather demo_gathering)
                     = Some [(1, Full); (3, NoSpans)]) as Es by (vm_compute; reflexivity).
    pose proof (eq_trans (eq_sym (f_equal (option_map (λ m, w_swept (m_world m))) Hx)) Es) as Es'.
    cbn [option_map] in Es'. by injection Es'. }
  rewrite !Hc, Es. vm_compute. exact (conj eq_refl (conj eq_refl eq_refl)).
Defined.

Lemma pace_kept_witness :
  (g_TracesSent (w_gen (m_world demo_looping)) true, m_now demo_looping - m_ticker demo_looping) = (2, 2700000) ∧
  batchSize (λ _, 0) demo_rate = 2 ∧ (2 + 1) * tickInterval (λ _, 0) demo_rate <= 2 * 2700000.
Proof.
  split; [vm_compute; reflexivity|].
  destruct (pace_kept 2 1 7 1 1 1500 (λ _, 0) demo_looping) as (H1 & _ & _ & H4); [lia|exact demo_looping_reachable|].
  split; [exact H1|]. vm_compute in H4. vm_compute. exact H4.
Defined.

Lemma interrupt_stops_listener_witness :
  ∃ m1, demo_run [TInterrupt; TListenStop; TLoopEnd] demo_looping = Some m1 ∧
    ∀ ls m', demo_run ls m1 = Some m' → TExport ∉ ls ∧ w_received (m_world m') = [].
Proof.
  set (m1 := default (new_session 0) (demo_run [TInterrupt; TListenStop; TLoopEnd] demo_looping)).
  assert (demo_run [TInterrupt; TListenStop; TLoopEnd] demo_looping = Some m1) as Hr by (vm_compute; reflexivity).
  assert (m_listening m1 = false) as Hl by (vm_compute; reflexivity).
  assert (m_exports m1 = 0%nat) as Hx by (vm_compute; reflexivity).
  assert (w_received (m_world m1) = []) as Hw by (vm_compute; reflexivity).
  exists m1. split; [exact Hr|]. intros ls m' Hls.
  destruct (interrupt_stops_listener 2 1 7 1 1 demo_rate (λ _, 0) m1) as (_ & _ & H);
    [exact (main_run_reachable 2 1 7 1 1 demo_rate (λ _, 0) _ demo_looping m1 Hr demo_looping_reachable)|].
  destruct (H Hl ls m' Hls) as (_ & H1 & _ & H2). exact (conj H1 (eq_trans (H2 Hx) Hw)).
Defined.
