(* ===== verification/Network.v ===== *)
(** * Processors and coordinators

    A whole deployment: the links of the processors (Link.v with the policy of
    client.go), and coordinators, each with its server (Server.v) and its backend
    (PubSub.v, Dedup.v): the memory of its own, a Redis it shares with others, or,
    in proxy mode, a link to another coordinator (Link.v with the policy of
    proxy/pubsub.go), whose client it is as a processor would be. A gRPC stream
    is two queues of messages in flight; a step of the network is a step of one
    component, or of the two at the ends of a message. *)

From S2P Require Import Prelude Bytes PubSub Server Streams Link Dedup.

(** ** The shape of a deployment *)

(** What coordinator [main] runs: single, distributed or proxy mode. *)
Inductive role :=
| Single (ttl : Duration)
| Distributed (ttl : Duration)
| Upstream (parent : nat).

(** Who connects to a coordinator. *)
Inductive client := Proc (c : nat) | Prox (d : nat).

#[export] Instance client_eq_dec : EqDecision client.
Proof. solve_decision. Defined.
#[export] Instance client_countable : Countable client.
Proof.
  refine (inj_countable' (λ x, match x with Proc c => inl c | Prox d => inr d end)
    (λ s, match s with inl c => Proc c | inr d => Prox d end) _).
  by intros [].
Defined.

(** The configuration files: the mode of each coordinator, and the coordinator
    each processor connects to. Nothing keeps proxies from forming a circle. *)
Class Deployment := { role_of : nat → role; coordinator_of : nat → nat }.

Definition parent `{D : Deployment} (x : client) : option nat :=
  match x with
  | Proc c => Some (coordinator_of c)
  | Prox d => match role_of d with Upstream p => Some p | _ => None end
  end.

Definition policy_of (x : client) : LinkPolicy := match x with Proc _ => client_policy | Prox _ => proxy_policy end.

(** A stream between a client and a coordinator, with what is on its way;
    [cn_got] is a history: the batches the client has received. *)
Record conn := MkConn {
  cn_client : client;
  cn_up : list bytes;
  cn_down : list (list bytes);
  cn_got : list (list bytes);
}.

Section network.
Context `{D : Deployment} `{K : KeyStore}.

(** A coordinator. [co_conns] goes with the entries of the server. [co_stopping]
    is [ctx.Err() != nil], [co_interesting] the counter of interesting traces.
    What depends on the mode: the go-cache with what was added; the messages of the Redis
    channel that [receive] has not taken; the link. [co_pending] are the calls of
    the handler that have begun, by [Publish] or by the receivers of the link,
    and that have not reached the streams. [co_done] is a history: the
    identifiers broadcast. *)
Record coord := MkCoord {
  co_server : Server;
  co_conns : list conn;
  co_stopping : bool;
  co_interesting : Z;
  co_memory : dedup;
  co_inbox : list bytes;
  co_up : link;
  co_pending : list bytes;
  co_done : list bytes;
}.

(** [n_current] is the last connection of a client, a position in [co_conns] of
    its coordinator. All clocks agree. *)
Record network := MkNet {
  n_links : list link;
  n_coords : list coord;
  n_current : gmap client nat;
  n_redis : dedup;
  n_now : Time;
}.

Definition new_coord (s : Store) : coord := MkCoord new_server [] false 0 (MkDedup s []) [] new_link [] [].

(** [s] is what Redis holds; a memory is [stores]' element. *)
Definition new_network (processors : nat) (stores : list Store) (s : Store) (t : Time) : network :=
  MkNet (replicate processors new_link) (new_coord <$> stores) ∅ (MkDedup s []) t.

(** ** Changing a part *)

Definition set_coord (d : nat) (c : coord) (n : network) : network :=
  MkNet (n_links n) (<[d := c]> (n_coords n)) (n_current n) (n_redis n) (n_now n).

Definition with_streams (s : Server) (cs : list conn) (c : coord) : coord :=
  MkCoord s cs (co_stopping c) (co_interesting c) (co_memory c) (co_inbox c) (co_up c) (co_pending c) (co_done c).

Definition with_link (k : link) (ids : list bytes) (c : coord) : coord :=
  MkCoord (co_server c) (co_conns c) (co_stopping c) (co_interesting c) (co_memory c) (co_inbox c) k
    (co_pending c ++ ids) (co_done c).

Definition with_inbox (out : list bytes) (c : coord) : coord :=
  MkCoord (co_server c) (co_conns c) (co_stopping c) (co_interesting c) (co_memory c) (co_inbox c ++ out) (co_up c)
    (co_pending c) (co_done c).

Definition count_interesting (m : Z) (c : coord) : coord :=
  MkCoord (co_server c) (co_conns c) (co_stopping c) (co_interesting c + m) (co_memory c) (co_inbox c) (co_up c)
    (co_pending c) (co_done c).

(** The handler runs to its end: [Broadcast] to the streams. *)
Definition with_broadcast (tid : bytes) (order : list nat) (pending inbox : list bytes) (c : coord) : option coord :=
  s' ← server_exec (VBroadcast tid order) (co_server c);
  Some (MkCoord s' (co_conns c) (co_stopping c) (co_interesting c) (co_memory c) inbox (co_up c) pending
          (co_done c ++ [tid])).

(** The link of a client; the link of a coordinator is there in proxy mode. *)
Definition get_link (x : client) (n : network) : option link :=
  match x with
  | Proc c => n_links n !! c
  | Prox d => match role_of d with Upstream _ => co_up <$> n_coords n !! d | _ => None end
  end.

(** [ids] are the identifiers its receiver hands to the handler: [onDecision] of
    a processor, whose calls are not a matter of the network, or [Broadcast]. *)
Definition set_link (x : client) (k : link) (ids : list bytes) (n : network) : network :=
  match x with
  | Proc c => MkNet (<[c := k]> (n_links n)) (n_coords n) (n_current n) (n_redis n) (n_now n)
  | Prox d => match n_coords n !! d with Some c => set_coord d (with_link k ids c) n | None => n end
  end.

(** ** Publish, as [onNotify] calls it *)

Definition is_distributed (r : role) : bool := match r with Distributed _ => true | _ => false end.

(** [published] is whether Redis takes the PUBLISH; a message on the channel goes
    to all that subscribe. *)
Definition publish (d : nat) (published : bool) (tid : bytes) (n : network) : option network :=
  c ← n_coords n !! d;
  match role_of d with
  | Single ttl =>
      let '(out, m, dd) := dedup_notify Memory ttl (co_stopping c) published (n_now n) tid (co_memory c) in
      Some (set_coord d (MkCoord (co_server c) (co_conns c) (co_stopping c) (co_interesting c + m) dd (co_inbox c)
                           (co_up c) (co_pending c ++ out) (co_done c)) n)
  | Distributed ttl =>
      let '(out, m, dd) := dedup_notify Redis ttl (co_stopping c) published (n_now n) tid (n_redis n) in
      let cs := <[d := count_interesting m c]> (n_coords n) in
      Some (MkNet (n_links n) (imap (λ i c, if is_distributed (role_of i) then with_inbox out c else c) cs)
              (n_current n) dd (n_now n))
  | Upstream _ =>
      Some (if co_stopping c then n else set_coord d (with_link (proxy_Publish tid (co_up c)).2 [] c) n)
  end.

(** ** The transitions *)

Inductive net_label :=
| NLink (x : client) (l : link_label)     (* a client's own step; a processor's decisions included *)
| NServer (d : nat) (l : server_label)    (* a step of a server's own *)
| NConnect (x : client) (id : string)     (* dialling succeeds, the server starts the stream *)
| NSend (x : client)                      (* a notification leaves the client *)
| NNotify (d j : nat) (published : bool)  (* it arrives: [onNotify] *)
| NReceive (d : nat) (order : list nat)   (* [receive] takes a message of Redis *)
| NLose (d i : nat)                       (* a message of Redis is lost *)
| NBroadcast (d i : nat) (order : list nat)
| NBatch (d j : nat)                      (* a batch leaves the server *)
| NDeliver (d j : nat)                    (* it arrives *)
| NSignal (d : nat)                       (* SIGTERM *)
| NClock (t : Time).

(** The steps that exchange no message. *)
Definition link_internal (x : client) (l : link_label) : bool :=
  match l with
  | KDialed true | KSend true | KRecv _ | KOldRecv _ => false
  | KNotify _ => match x with Proc _ => true | Prox _ => false end
  | _ => true
  end.
Definition server_internal (l : server_label) : bool :=
  match l with VRecv _ None | VRemove _ | VDone _ | VTake _ | VTimer _ | VSend _ false | VStop _ => true | _ => false end.

Definition exec_link (x : client) (l : link_label) (n : network) : option link :=
  k ← get_link x n; link_exec (L := policy_of x) l k.

(** Whether connection [j] is the one the client's goroutine is in. *)
Definition is_current (j : nat) (x : client) (n : network) : bool :=
  bool_decide (n_current n !! x = Some j) &&
  match get_link x n with Some k => match k_pc k with KOpen _ _ => true | _ => false end | None => false end.

Definition net_exec (l : net_label) (n : network) : option network :=
  match l with
  | NLink x l =>
      if link_internal x l then k' ← exec_link x l n; Some (set_link x k' [] n) else None
  | NServer d l =>
      if server_internal l then
        c ← n_coords n !! d; s' ← server_exec l (co_server c);
        Some (set_coord d (with_streams s' (co_conns c) c) n)
      else None
  | NConnect x id =>
      d ← parent x; c ← n_coords n !! d; k' ← exec_link x (KDialed true) n; s' ← server_exec (VConnect id) (co_server c);
      let n' := set_link x k' [] (set_coord d (with_streams s' (co_conns c ++ [MkConn x [] [] []]) c) n) in
      Some (MkNet (n_links n') (n_coords n') (<[x := length (co_conns c)]> (n_current n')) (n_redis n') (n_now n'))
  | NSend x =>
      d ← parent x; c ← n_coords n !! d; k ← get_link x n; tid ← head (k_ch k); k' ← exec_link x (KSend true) n;
      j ← n_current n !! x; cn ← co_conns c !! j;
      Some (set_link x k' []
              (set_coord d (with_streams (co_server c)
                 (<[j := MkConn (cn_client cn) (cn_up cn ++ [tid]) (cn_down cn) (cn_got cn)]> (co_conns c)) c) n))
  | NNotify d j published =>
      c ← n_coords n !! d; cn ← co_conns c !! j;
      match cn_up cn with
      | [] => None
      | tid :: up =>
          s' ← server_exec (VRecv j (Some tid)) (co_server c);
          publish d published tid
            (set_coord d (with_streams s' (<[j := MkConn (cn_client cn) up (cn_down cn) (cn_got cn)]> (co_conns c)) c) n)
      end
  | NReceive d order =>
      c ← n_coords n !! d;
      match co_inbox c with
      | [] => None
      | tid :: inbox => c' ← with_broadcast tid order (co_pending c) inbox c; Some (set_coord d c' n)
      end
  | NLose d i =>
      c ← n_coords n !! d;
      Some (set_coord d (MkCoord (co_server c) (co_conns c) (co_stopping c) (co_interesting c) (co_memory c)
                           (delete i (co_inbox c)) (co_up c) (co_pending c) (co_done c)) n)
  | NBroadcast d i order =>
      c ← n_coords n !! d; tid ← co_pending c !! i;
      c' ← with_broadcast tid order (delete i (co_pending c)) (co_inbox c) c; Some (set_coord d c' n)
  | NBatch d j =>
      c ← n_coords n !! d; e ← s_entries (co_server c) !! j; cn ← co_conns c !! j;
      match e_pc e with
      | SSend ids =>
          s' ← server_exec (VSend j true) (co_server c);
          Some (set_coord d (with_streams s'
                  (<[j := MkConn (cn_client cn) (cn_up cn) (cn_down cn ++ [ids]) (cn_got cn)]> (co_conns c)) c) n)
      | _ => None
      end
  | NDeliver d j =>
      c ← n_coords n !! d; cn ← co_conns c !! j;
      match cn_down cn with
      | [] => None
      | b :: down =>
          let x := cn_client cn in
          k' ← exec_link x (if is_current j x n then KRecv b else KOldRecv b) n;
          Some (set_link x k' (recv_batch (L := policy_of x) b)
                  (set_coord d (with_streams (co_server c) (<[j := MkConn x (cn_up cn) down (cn_got cn ++ [b])]> (co_conns c)) c) n))
      end
  | NSignal d =>
      c ← n_coords n !! d;
      Some (set_coord d (MkCoord (co_server c) (co_conns c) true (co_interesting c) (co_memory c)
                           (co_inbox c) (co_up c) (co_pending c) (co_done c)) n)
  | NClock t =>
      if n_now n <=? t then Some (MkNet (n_links n) (n_coords n) (n_current n) (n_redis n) t) else None
  end.

Inductive net_reachable : network → Prop :=
| net_new p ss s t : net_reachable (new_network p ss s t)
| net_step l n n' : net_reachable n → net_exec l n = Some n' → net_reachable n'.

Fixpoint net_run (ls : list net_label) (n : network) : option network :=
  match ls with [] => Some n | l :: ls => n' ← net_exec l n; net_run ls n' end.

Lemma net_run_reachable ls n n' : net_run ls n = Some n' → net_reachable n → net_reachable n'.
Proof.
  revert n. induction ls as [|l ls IH]; intros n Hr Hn; simpl in Hr; [by simplify_eq|].
  destruct (net_exec l n) as [n1|] eqn:He; [|done]. apply (IH n1 Hr). by eapply net_step.
Qed.

Lemma net_run_cons l ls n n' : net_exec l n = Some n' → net_run (l :: ls) n = net_run ls n'.
Proof. intros He. simpl. by rewrite He. Qed.

Lemma net_run_app ls ls' n n' : net_run ls n = Some n' → net_run (ls ++ ls') n = net_run ls' n'.
Proof.
  revert n. induction ls as [|l ls IH]; intros n Hr; simpl in *; [by simplify_eq|].
  destruct (net_exec l n) as [n1|]; [|done]. by apply IH.
Qed.
End network.
