(* ===== verification/NetworkInv.v ===== *)
(** * The invariant of the network

    For every reachable state of Network.v: its servers and links are in
    reachable states of their own, every identifier anywhere in it was notified
    by a processor, streams lose nothing but what is accounted for, and what a
    coordinator has broadcast comes from its backend. *)

From S2P Require Import Prelude Bytes PubSub Server Streams Link Dedup Network.

Section network.
Context `{D : Deployment} `{K : KeyStore}.

(** Some processor decided on the trace and notified its coordinator. *)
Definition notified (n : network) (tid : bytes) : Prop := ∃ c k, n_links n !! c = Some k ∧ tid ∈ k_queued k.

(** ** One coordinator *)

(** The identifiers at a coordinator. *)
Definition co_ids (c : coord) : list bytes :=
  mjoin (cn_up <$> co_conns c) ++ co_pending c ++ co_inbox c ++ co_done c ++ k_queued (co_up c).

(** [redis] is what was published on the channel. *)
Definition source_ok (redis : list bytes) (r : role) (c : coord) : Prop :=
  match r with
  | Single _ => co_inbox c = [] ∧ co_done c ++ co_pending c ≡ₚ logged (co_memory c)
  | Distributed _ => co_pending c = [] ∧ co_done c ++ co_inbox c `sublist_of` redis
  | Upstream _ => co_inbox c = [] ∧ co_done c ++ co_pending c ≡ₚ k_handled (co_up c)
  end.

Definition sent_ok (s : Server) (cs : list conn) : Prop :=
  ∀ j cn e, cs !! j = Some cn → s_entries s !! j = Some e → cn_got cn ++ cn_down cn `sublist_of` e_sent e.

Record coord_ok (N : bytes → Prop) (redis : list bytes) (r : role) (c : coord) : Prop := {
  ck_server : server_reachable (co_server c);
  ck_link : link_reachable (L := proxy_policy) (co_up c);
  ck_length : length (co_conns c) = length (s_entries (co_server c));
  ck_sent : sent_ok (co_server c) (co_conns c);
  ck_queued : ∀ j e, s_entries (co_server c) !! j = Some e → e_queued e `sublist_of` co_done c;
  ck_ids : ∀ tid, tid ∈ co_ids c → N tid;
  ck_source : source_ok redis r c;
}.

Lemma coord_ok_mono N N' redis redis' r c :
  (∀ tid, N tid → N' tid) → redis `sublist_of` redis' → coord_ok N redis r c → coord_ok N' redis' r c.
Proof.
  intros HN HR [H1 H2 H3 H4 H5 H6 H7]. split; auto. destruct r; simpl in *; [done| |done].
  destruct H7 as [? ?]. split; [done|by etrans].
Qed.

Lemma coord_ok_new N redis r s : coord_ok N redis r (new_coord s).
Proof.
  split; simpl; try done; try constructor; try (unfold co_ids; simpl; set_solver).
  destruct r; simpl; [done|split; [done|apply sublist_nil_l]|done].
Qed.

Section coord.
Context {N : bytes → Prop} {redis : list bytes} {r : role} {c : coord}.
Hypothesis Hc : coord_ok N redis r c.

Lemma ck_server_ok : server_ok (co_server c).
Proof. apply server_reachable_ok, Hc. Qed.

(** What is on its way to a client was broadcast. *)
Lemma ck_down j cn tid : co_conns c !! j = Some cn → tid ∈ mjoin (cn_got cn ++ cn_down cn) → tid ∈ co_done c.
Proof.
  intros Hj Hin. destruct (lookup_lt_is_Some_2 (s_entries (co_server c)) j) as [e He].
  { rewrite <- (ck_length _ _ _ _ Hc). by eapply lookup_lt_Some. }
  assert (stream_ok e) as Hse by (eapply Forall_lookup_1; [apply (vo_entries _ ck_server_ok)|done]).
  eapply elem_of_sublist; [|by eapply (ck_queued _ _ _ _ Hc)]. rewrite (so_fifo _ Hse), elem_of_app. left.
  eapply elem_of_sublist; [exact Hin|]. apply sublist_join. by eapply (ck_sent _ _ _ _ Hc).
Qed.

(** A transition of the server, together with changes of the connections and of
    what waits. *)
Lemma coord_ok_server sl s' cs pending inbox :
  server_exec sl (co_server c) = Some s' → length cs = length (s_entries s') → sent_ok s' cs →
  (∀ tid, tid ∈ mjoin (cn_up <$> cs) ++ pending ++ inbox → N tid) → (∀ tid, tid ∈ label_ids sl → N tid) →
  source_ok redis r (MkCoord s' cs (co_stopping c) (co_interesting c) (co_memory c) inbox (co_up c) pending
                       (co_done c ++ label_ids sl)) →
  coord_ok N redis r (MkCoord s' cs (co_stopping c) (co_interesting c) (co_memory c) inbox (co_up c) pending
                        (co_done c ++ label_ids sl)).
Proof.
  intros He Hlen Hsent Hids Hnew Hsrc. split; simpl; try done.
  - eapply server_step; [apply Hc|done].
  - apply Hc.
  - intros j e' Hj. destruct (entry_before _ _ _ _ _ ck_server_ok He Hj) as [(e & He0 & _ & q & -> & Hq)|(id & -> & _ & ->)].
    + apply sublist_app; [by eapply (ck_queued _ _ _ _ Hc)|done].
    + simpl. apply sublist_nil_l.
  - intros tid. pose proof (ck_ids _ _ _ _ Hc tid) as Hold. unfold co_ids in *. simpl. specialize (Hids tid).
    specialize (Hnew tid). rewrite !elem_of_app in *. tauto.
Qed.

(** The same where nothing is broadcast. *)
Lemma coord_ok_quiet sl s' cs :
  server_exec sl (co_server c) = Some s' → label_ids sl = [] → length cs = length (s_entries s') → sent_ok s' cs →
  (∀ tid, tid ∈ mjoin (cn_up <$> cs) → N tid) → coord_ok N redis r (with_streams s' cs c).
Proof.
  intros He Hl Hlen Hsent Hids. pose proof (coord_ok_server sl s' cs (co_pending c) (co_inbox c) He Hlen Hsent) as H.
  rewrite Hl, app_nil_r in H. apply H; [|set_solver|].
  - intros tid. pose proof (ck_ids _ _ _ _ Hc tid) as Hold. unfold co_ids in Hold. specialize (Hids tid).
    rewrite !elem_of_app in *. tauto.
  - pose proof (ck_source _ _ _ _ Hc) as Hs. by destruct r.
Qed.

(** Only the connections change. *)
Lemma coord_ok_conns cs :
  length cs = length (co_conns c) → sent_ok (co_server c) cs → (∀ tid, tid ∈ mjoin (cn_up <$> cs) → N tid) →
  coord_ok N redis r (with_streams (co_server c) cs c).
Proof.
  intros Hlen Hsent Hids. destruct Hc as [H1 H2 H3 H4 H5 H6 H7]. split; simpl; try done; [by rewrite Hlen|].
  intros tid. specialize (H6 tid). specialize (Hids tid). unfold co_ids in *. simpl. rewrite !elem_of_app in *. tauto.
Qed.

Lemma coord_ok_broadcast tid order pending inbox c' :
  with_broadcast tid order pending inbox c = Some c' → N tid → (∀ t, t ∈ pending ++ inbox → N t) →
  source_ok redis r (MkCoord (co_server c') (co_conns c) (co_stopping c) (co_interesting c) (co_memory c) inbox (co_up c)
                       pending (co_done c ++ [tid])) → coord_ok N redis r c'.
Proof.
  unfold with_broadcast. destruct (server_exec (VBroadcast tid order) (co_server c)) as [s'|] eqn:He; [|done].
  cbn [mbind option_bind]. intros [= <-] Hn Hids Hsrc. simpl in Hsrc.
  apply (coord_ok_server (VBroadcast tid order)); try done.
  - rewrite (server_length _ _ _ He), Nat.add_0_r. apply Hc.
  - intros j cn e' Hj He'. destruct (entry_before _ _ _ _ _ ck_server_ok He He') as [(e & He0 & Es & _)|(id & ? & _)]; [|done].
    rewrite Es, app_nil_r. by eapply (ck_sent _ _ _ _ Hc).
  - intros t. pose proof (ck_ids _ _ _ _ Hc t) as Hold. unfold co_ids in Hold. specialize (Hids t).
    rewrite !elem_of_app in *. tauto.
  - simpl. set_solver.
Qed.

(** A transition of the link that hands [ids] to the handler. *)
Lemma coord_ok_link kl k' :
  link_exec (L := proxy_policy) kl (co_up c) = Some k' → (∀ tid, kl ≠ KNotify tid) →
  (∃ p, r = Upstream p) → (∀ tid, tid ∈ handed (L := proxy_policy) kl → N tid) →
  coord_ok N redis r (with_link k' (handed (L := proxy_policy) kl) c).
Proof.
  intros He Hk [p ->] Hids. destruct Hc as [H1 H2 H3 H4 H5 H6 H7]. split; simpl; try done.
  - by eapply link_step.
  - intros tid. specialize (H6 tid). specialize (Hids tid).
    destruct (link_queued (L := proxy_policy) _ _ _ He) as [_ Hq]. specialize (Hq tid). unfold co_ids in *. simpl.
    rewrite !elem_of_app in *. naive_solver.
  - destruct (link_grows (L := proxy_policy) _ _ _ He) as [_ ->]. simpl in H7. destruct H7 as [? H7]. split; [done|]. by rewrite app_assoc, H7.
Qed.
End coord.

(** *** The connections *)

Lemma sent_ok_server sl s s' cs :
  server_ok s → server_exec sl s = Some s' → length cs = length (s_entries s) → sent_ok s cs → sent_ok s' cs.
Proof.
  intros Hs He Hlen Hok j cn e' Hj He'.
  destruct (entry_before _ _ _ _ _ Hs He He') as [(e & He0 & Es & _)|(id & _ & -> & _)].
  - rewrite Es. etrans; [by eapply Hok|]. by apply sublist_inserts_r.
  - apply lookup_lt_Some in Hj. lia.
Qed.

Lemma sent_ok_insert s cs j cn cn' :
  sent_ok s cs → cs !! j = Some cn → cn_got cn' ++ cn_down cn' = cn_got cn ++ cn_down cn → sent_ok s (<[j := cn']> cs).
Proof.
  intros Hok Hj E i x e Hi He. apply list_lookup_insert_Some in Hi as [(<- & <- & _)|[_ Hi]]; [rewrite E|]; by eapply Hok.
Qed.

Lemma up_insert cs j cn cn' tid :
  cs !! j = Some cn → tid ∈ mjoin (cn_up <$> <[j := cn']> cs) → tid ∈ cn_up cn' ∨ tid ∈ mjoin (cn_up <$> cs).
Proof.
  intros Hj (l & Hin & (x & -> & Hx)%list_elem_of_fmap)%list_elem_of_join.
  apply list_elem_of_lookup in Hx as [i Hi]. apply list_lookup_insert_Some in Hi as [(_ & <- & _)|[_ Hi]]; [by left|right].
  apply list_elem_of_join. exists (cn_up x). split; [done|]. apply list_elem_of_fmap. exists x. split; [done|]. by eapply list_elem_of_lookup_2.
Qed.

Lemma up_elem cs j cn tid : cs !! j = Some cn → tid ∈ cn_up cn → tid ∈ mjoin (cn_up <$> cs).
Proof.
  intros Hj Hin. apply list_elem_of_join. exists (cn_up cn). split; [done|]. apply list_elem_of_fmap. exists cn.
  split; [done|]. by eapply list_elem_of_lookup_2.
Qed.

(** ** The network *)

Record net_ok (n : network) : Prop := {
  no_coords : ∀ d c, n_coords n !! d = Some c → coord_ok (notified n) (logged (n_redis n)) (role_of d) c;
  no_links : ∀ c k, n_links n !! c = Some k →
    link_reachable (L := client_policy) k ∧ ∀ tid, tid ∈ k_handled k → notified n tid;
}.

Lemma net_ok_coord n d c : net_ok n → coord_ok (notified n) (logged (n_redis n)) (role_of d) c → net_ok (set_coord d c n).
Proof.
  intros [Hcs Hls] Hc. split; [|exact Hls].
  intros i x [(<- & <- & _)|[_ Hx]]%list_lookup_insert_Some; [exact Hc|by apply Hcs].
Qed.

Lemma get_link_coord x n d c c' :
  n_coords n !! d = Some c → co_up c' = co_up c → get_link x (set_coord d c' n) = get_link x n.
Proof.
  intros Hc E. destruct x as [i|i]; [done|]. simpl. destruct (role_of i); [done..|].
  destruct (decide (d = i)) as [<-|Hne]; [|by rewrite list_lookup_insert_ne].
  rewrite list_lookup_insert_eq, Hc by (by eapply lookup_lt_Some). simpl. by rewrite E.
Qed.

(** *** A step of a link *)

Lemma exec_link_inv x l n k' :
  exec_link x l n = Some k' → ∃ k, get_link x n = Some k ∧ link_exec (L := policy_of x) l k = Some k'.
Proof. unfold exec_link. destruct (get_link x n) as [k|]; [|done]. intros He. by exists k. Qed.

Lemma notified_link x k k' ids kl n tid :
  get_link x n = Some k → link_exec (L := policy_of x) kl k = Some k' →
  notified n tid → notified (set_link x k' ids n) tid.
Proof.
  intros Hk He (c & k0 & Hk0 & Hin). destruct x as [i|i]; simpl in *; [|by destruct (n_coords n !! i); exists c, k0].
  destruct (decide (i = c)) as [<-|Hne].
  - simplify_eq. exists i, k'. simpl. rewrite list_lookup_insert_eq by (by eapply lookup_lt_Some). split; [done|].
    destruct (link_grows (L := client_policy) _ _ _ He) as [[q ->] _]. set_solver.
  - exists c, k0. simpl. by rewrite list_lookup_insert_ne.
Qed.

Lemma set_link_redis x k ids n : n_redis (set_link x k ids n) = n_redis n.
Proof. destruct x; simpl; [done|]. by case_match. Qed.

Lemma net_ok_link x kl k k' n :
  net_ok n → get_link x n = Some k → link_exec (L := policy_of x) kl k = Some k' →
  (∀ tid d, kl = KNotify tid → x ≠ Prox d) → (∀ tid, tid ∈ handed (L := policy_of x) kl → notified n tid) →
  net_ok (set_link x k' (handed (L := policy_of x) kl) n).
Proof.
  intros Hok Hk He Hkn Hids. pose proof (notified_link x k k' (handed (L := policy_of x) kl) kl n) as Hm.
  destruct x as [i|i]; simpl in Hk, He, Hids.
  - split; simpl in *.
    + intros d c Hc. apply (coord_ok_mono (notified n) _ (logged (n_redis n))); [by eauto|done|]. by apply Hok.
    + intros c k0 [(<- & <- & _)|[_ Hk0]]%list_lookup_insert_Some; destruct (no_links _ Hok _ _ Hk) as [Hr Hh].
      * split; [by eapply link_step|]. destruct (link_grows (L := client_policy) _ _ _ He) as [_ ->].
        intros tid [?|?]%elem_of_app; by eauto.
      * destruct (no_links _ Hok _ _ Hk0) as [? Hh0]. split; [done|]. by eauto.
  - destruct (role_of i) as [| |p] eqn:Hr; [done..|]. simpl. destruct (n_coords n !! i) as [c|] eqn:Hc; [|done].
    simpl in Hk. simplify_eq. apply net_ok_coord; [done|]. rewrite Hr.
    pose proof (no_coords _ Hok _ _ Hc) as Hco. rewrite Hr in Hco. eapply coord_ok_link; try done; [|by eexists].
    intros tid ->. by apply (Hkn tid i).
Qed.

(** *** Publish *)

Lemma publish_ok d published tid n n' :
  net_ok n → notified n tid → publish d published tid n = Some n' → net_ok n' ∧ n_links n' = n_links n.
Proof.
  intros Hok Hn. unfold publish. destruct (n_coords n !! d) as [c|] eqn:Hc; [|done]. cbn [mbind option_bind].
  pose proof (no_coords _ Hok _ _ Hc) as Hco. destruct (role_of d) as [ttl|ttl|p] eqn:Hr.
  - pose proof (dedup_notify_logged Memory ttl (co_stopping c) published (n_now n) tid (co_memory c)) as Hl.
    destruct (dedup_notify Memory _ _ _ _ _ _) as [[out m] dd]. destruct Hl as (l & El & _ & Htid & Eo).
    intros [= <-]. split; [|done]. apply net_ok_coord; [done|]. rewrite Hr, (Eo eq_refl).
    destruct Hco as [H1 H2 H3 H4 H5 H6 H7]. split; simpl; try done.
    + intros t. specialize (H6 t). assert (t ∈ l → t ∈ [tid]) as Ht by (intros Hin; by eapply elem_of_sublist). unfold co_ids in *. simpl.
      rewrite !elem_of_app, list_elem_of_singleton in *. naive_solver.
    + simpl in H7. destruct H7 as [? H7]. split; [done|]. by rewrite El, app_assoc, H7.
  - pose proof (dedup_notify_logged Redis ttl (co_stopping c) published (n_now n) tid (n_redis n)) as Hl.
    destruct (dedup_notify Redis _ _ _ _ _ _) as [[out m] dd]. destruct Hl as (l & El & Hout & Htid & _).
    intros [= <-]. split; [|done]. split; [|apply Hok]. intros i x Hx. simpl in Hx. rewrite list_lookup_imap in Hx.
    destruct (<[d := count_interesting m c]> (n_coords n) !! i) as [y|] eqn:Hy; [|done]. simpl in Hx. simplify_eq.
    assert (coord_ok (notified n) (logged (n_redis n)) (role_of i) y) as [H1 H2 H3 H4 H5 H6 H7].
    { apply list_lookup_insert_Some in Hy as [(<- & <- & _)|[_ Hy]]; [|by apply Hok]. rewrite Hr. by destruct Hco; split. }
    change (logged (n_redis (MkNet _ _ _ dd _))) with (logged dd). change (notified (MkNet (n_links n) _ _ _ _)) with (notified n).
    rewrite El. destruct (is_distributed (role_of i)) eqn:Hd.
    + destruct (role_of i); [done| |done]. destruct H7 as [Hp Hs]. split; simpl; try done.
      * intros t. specialize (H6 t). assert (t ∈ out → t ∈ [tid]) as Ht by (intros Hin; eapply elem_of_sublist; [exact Hin|by etrans]). unfold co_ids in *. simpl.
        rewrite !elem_of_app, list_elem_of_singleton in *. naive_solver.
      * split; [done|]. rewrite app_assoc. by apply sublist_app.
    + apply (coord_ok_mono (notified n) _ (logged (n_redis n))); [done|by apply sublist_inserts_r|by split].
  - intros [= <-]. destruct (co_stopping c); [done|]. split; [|done]. apply net_ok_coord; [done|]. rewrite Hr.
    assert (link_exec (L := proxy_policy) (KNotify tid) (co_up c) = Some (Notify tid (co_up c))) as He by done.
    destruct (link_queued (L := proxy_policy) _ _ _ He) as [_ Hq]. destruct (link_grows (L := proxy_policy) _ _ _ He) as [_ Hh].
    destruct Hco as [H1 H2 H3 H4 H5 H6 H7]. split; simpl; try done.
    + by eapply link_step.
    + intros t. specialize (H6 t). specialize (Hq t). unfold co_ids in *. simpl. rewrite app_nil_r.
      rewrite !elem_of_app in *. naive_solver.
    + simpl in H7, Hh. destruct H7 as [? H7]. split; [done|]. by rewrite app_nil_r, H7, Hh, app_nil_r.
Qed.

(** *** The transitions, label by label *)
Section steps.
Variables n n' : network.
Hypothesis Hok : net_ok n.

Lemma link_label_ok x kl : net_exec (NLink x kl) n = Some n' → net_ok n'.
Proof.
  cbn [net_exec]. destruct (link_internal x kl) eqn:Hi; [|done]. destruct (exec_link x kl n) as [k'|] eqn:He; [|done].
  cbn [mbind option_bind]. intros [= <-]. apply exec_link_inv in He as (k & Hk & He).
  assert (handed (L := policy_of x) kl = []) as Hh by (by destruct kl). rewrite <- Hh.
  eapply net_ok_link; [done|exact Hk|exact He| |by rewrite Hh; set_solver]. intros tid d -> ->. done.
Qed.

Lemma server_label_ok d sl : net_exec (NServer d sl) n = Some n' → net_ok n'.
Proof.
  cbn [net_exec]. intros He. exec_inv He. rename E0 into Hc. pose proof (no_coords _ Hok _ _ Hc) as Hco.
  apply net_ok_coord; [done|]. eapply (coord_ok_quiet Hco); [exact E1|by destruct sl| | |].
  - rewrite (ck_length _ _ _ _ Hco), (server_length _ _ _ E1). destruct sl; done || lia.
  - eapply sent_ok_server; [by eapply ck_server_ok|exact E1|apply Hco|apply Hco].
  - intros tid Hin. apply (ck_ids _ _ _ _ Hco). unfold co_ids. set_solver.
Qed.

(** What a link sends was notified. *)
Lemma head_notified x k tid : get_link x n = Some k → head (k_ch k) = Some tid → notified n tid.
Proof.
  intros Hk Ht. assert (link_reachable (L := policy_of x) k → tid ∈ k_queued k) as Hin.
  { intros Hr%link_reachable_ok. rewrite (lk_queue _ Hr). destruct (k_ch k); simplify_eq/=. set_solver. }
  destruct x as [i|i]; simpl in *.
  - exists i, k. split; [done|]. apply Hin. by eapply no_links.
  - destruct (role_of i); try done. destruct (n_coords n !! i) as [c|] eqn:Hc; simplify_eq/=.
    pose proof (no_coords _ Hok _ _ Hc) as Hco. apply (ck_ids _ _ _ _ Hco). unfold co_ids.
    specialize (Hin (ck_link _ _ _ _ Hco)). set_solver.
Qed.

(** A step that changes a coordinator, and then the link of a client. *)
Lemma coord_then_link d c c' x kl k' :
  n_coords n !! d = Some c → co_up c' = co_up c → coord_ok (notified n) (logged (n_redis n)) (role_of d) c' →
  exec_link x kl n = Some k' → (∀ tid i, kl = KNotify tid → x ≠ Prox i) →
  (∀ tid, tid ∈ handed (L := policy_of x) kl → notified n tid) →
  net_ok (set_link x k' (handed (L := policy_of x) kl) (set_coord d c' n)).
Proof.
  intros Hc Eup Hc' (k & Hk & He)%exec_link_inv Hkl Hids. rewrite <- (get_link_coord x n d c c') in Hk by done.
  eapply net_ok_link; [by apply net_ok_coord|exact Hk|exact He|done|exact Hids].
Qed.

Lemma connect_ok x id : net_exec (NConnect x id) n = Some n' → net_ok n'.
Proof.
  cbn [net_exec]. intros He. exec_inv He. rename E0 into Hc, n0 into d.
  pose proof (no_coords _ Hok _ _ Hc) as Hco.
  edestruct (coord_then_link d c (with_streams s (co_conns c ++ [MkConn x [] [] []]) c) x (KDialed true))
    as [H1 H2]; [done|done| |exact E1|done|set_solver|by split].
  eapply (coord_ok_quiet Hco); [exact E2|done| | |].
  - by rewrite length_app, (ck_length _ _ _ _ Hco), (server_length _ _ _ E2).
  - intros j cn e' Hj He'. apply lookup_app_Some in Hj as [Hj|[_ Hj]].
    + eapply sent_ok_server; [by eapply ck_server_ok|exact E2|apply Hco|apply Hco|done|done].
    + apply list_lookup_singleton_Some in Hj as [_ <-]. apply sublist_nil_l.
  - intros tid. rewrite fmap_app, join_app. simpl. rewrite app_nil_r. intros Hin.
    apply (ck_ids _ _ _ _ Hco). unfold co_ids. set_solver.
Qed.

Lemma send_ok x : net_exec (NSend x) n = Some n' → net_ok n'.
Proof.
  cbn [net_exec]. intros He. exec_inv He. rename E0 into Hc, n0 into d, E1 into Hk, E2 into Ht, E5 into Hj.
  pose proof (no_coords _ Hok _ _ Hc) as Hco.
  eapply (coord_then_link d c _ x (KSend true)); [done|done| |exact E3|done|simpl; set_solver].
  eapply (coord_ok_conns Hco); [by rewrite length_insert|eapply sent_ok_insert; [apply Hco|exact Hj|done]|].
  intros tid [Hin|Hin]%(up_insert _ _ _ _ _ Hj); [|apply (ck_ids _ _ _ _ Hco); unfold co_ids; set_solver].
  simpl in Hin. apply elem_of_app in Hin as [Hin|Hin%list_elem_of_singleton]; [|subst; by eapply head_notified].
  apply (ck_ids _ _ _ _ Hco). unfold co_ids. pose proof (up_elem _ _ _ _ Hj Hin). set_solver.
Qed.

Lemma notify_ok d j published : net_exec (NNotify d j published) n = Some n' → net_ok n'.
Proof.
  cbn [net_exec]. intros He. exec_inv He. rename E into Hc, E0 into Hj, E1 into Hup.
  pose proof (no_coords _ Hok _ _ Hc) as Hco. refine (proj1 (publish_ok _ _ _ _ _ _ _ He)).
  - apply net_ok_coord; [done|]. eapply (coord_ok_quiet Hco); [exact E2|done| | |].
    + rewrite length_insert, (ck_length _ _ _ _ Hco), (server_length _ _ _ E2). lia.
    + eapply sent_ok_insert; [|exact Hj|done]. eapply sent_ok_server; [by eapply ck_server_ok|exact E2|apply Hco|apply Hco].
    + intros tid [Hin|Hin]%(up_insert _ _ _ _ _ Hj); apply (ck_ids _ _ _ _ Hco); unfold co_ids; [|set_solver].
      assert (tid ∈ cn_up c0) as Hin' by (rewrite Hup; by right). pose proof (up_elem _ _ _ _ Hj Hin'). set_solver.
  - assert (l ∈ cn_up c0) as Hin by (rewrite Hup; by left). apply (ck_ids _ _ _ _ Hco). unfold co_ids.
    pose proof (up_elem _ _ _ _ Hj Hin). set_solver.
Qed.

Lemma receive_ok d order : net_exec (NReceive d order) n = Some n' → net_ok n'.
Proof.
  cbn [net_exec]. intros He. exec_inv He. rename E into Hc, E0 into Hi, E1 into Hb.
  pose proof (no_coords _ Hok _ _ Hc) as Hco.
  assert (∀ tid, tid ∈ l :: l0 → notified n tid) as Hin
    by (intros tid Hin; apply (ck_ids _ _ _ _ Hco); unfold co_ids; rewrite Hi; set_solver).
  apply net_ok_coord; [done|]. eapply (coord_ok_broadcast Hco); [exact Hb|set_solver| |].
  - intros tid [Hp|Hp]%elem_of_app; [apply (ck_ids _ _ _ _ Hco); unfold co_ids; set_solver|set_solver].
  - pose proof (ck_source _ _ _ _ Hco) as Hs. destruct (role_of d); simpl in *; destruct Hs as [Hs Hs']; [congruence| |congruence].
    rewrite Hi in Hs'. by rewrite <- app_assoc.
Qed.

Lemma lose_ok d i : net_exec (NLose d i) n = Some n' → net_ok n'.
Proof.
  cbn [net_exec]. intros He. exec_inv He. rename E into Hc. destruct (no_coords _ Hok _ _ Hc) as [H1 H2 H3 H4 H5 H6 H7].
  pose proof (sublist_delete (co_inbox c) i) as Hd. apply net_ok_coord; [done|]. split; simpl; try done.
  - intros tid. specialize (H6 tid). assert (tid ∈ delete i (co_inbox c) → tid ∈ co_inbox c) as Hs
      by (intros Hin; by eapply elem_of_sublist). unfold co_ids in *. simpl. rewrite !elem_of_app in *. tauto.
  - destruct (role_of d); simpl in *; destruct H7 as [E H7]; [by rewrite E| |by rewrite E]. split; [done|]. etrans; [|exact H7]. by apply sublist_app.
Qed.

Lemma broadcast_ok d i order : net_exec (NBroadcast d i order) n = Some n' → net_ok n'.
Proof.
  cbn [net_exec]. intros He. exec_inv He. rename E into Hc, E0 into Hi, E1 into Hb.
  pose proof (no_coords _ Hok _ _ Hc) as Hco. pose proof (delete_Permutation _ _ _ Hi) as Hd.
  assert (∀ tid, tid ∈ co_pending c → notified n tid) as Hin
    by (intros tid Hin; apply (ck_ids _ _ _ _ Hco); unfold co_ids; set_solver).
  apply net_ok_coord; [done|]. eapply (coord_ok_broadcast Hco); [exact Hb|by eapply Hin, list_elem_of_lookup_2| |].
  - intros tid [Hp|Hp]%elem_of_app; [apply Hin; rewrite Hd; by right|apply (ck_ids _ _ _ _ Hco); unfold co_ids; set_solver].
  - pose proof (ck_source _ _ _ _ Hco) as Hs. destruct (role_of d); simpl in *.
    + destruct Hs as [? Hs]. split; [done|]. rewrite <- app_assoc. simpl. by rewrite <- Hd.
    + destruct Hs as [Hs _]. by rewrite Hs in Hi.
    + destruct Hs as [? Hs]. split; [done|]. rewrite <- app_assoc. simpl. by rewrite <- Hd.
Qed.

Lemma batch_ok d j : net_exec (NBatch d j) n = Some n' → net_ok n'.
Proof.
  cbn [net_exec]. intros He. exec_inv He. rename E into Hc, E0 into Hej, E1 into Hj, E2 into Hpc.
  pose proof (no_coords _ Hok _ _ Hc) as Hco. apply net_ok_coord; [done|].
  eapply (coord_ok_quiet Hco); [exact E3|done| | |].
  - rewrite length_insert, (ck_length _ _ _ _ Hco), (server_length _ _ _ E3). lia.
  - intros j' cn e' Hj' He'.
    destruct (entry_before _ _ _ _ _ (ck_server_ok Hco) E3 He') as [(e & He & Es & _)|(id & ? & _)]; [|done]. rewrite Es.
    apply list_lookup_insert_Some in Hj' as [(<- & <- & _)|[Hne Hj']].
    + simplify_eq. rewrite decide_True, Hpc by done. simpl. rewrite app_assoc.
      apply sublist_app; [by eapply (ck_sent _ _ _ _ Hco)|done].
    + rewrite decide_False, app_nil_r by done. by eapply (ck_sent _ _ _ _ Hco).
  - intros tid [Hin|Hin]%(up_insert _ _ _ _ _ Hj); apply (ck_ids _ _ _ _ Hco); unfold co_ids; [|set_solver].
    pose proof (up_elem _ _ _ _ Hj Hin). set_solver.
Qed.

Lemma deliver_ok d j : net_exec (NDeliver d j) n = Some n' → net_ok n'.
Proof.
  cbn [net_exec]. intros He. exec_inv He. rename E into Hc, E0 into Hj, E1 into Hdn.
  pose proof (no_coords _ Hok _ _ Hc) as Hco. set (kl := if is_current _ _ _ then _ else _) in *.
  assert (handed (L := policy_of (cn_client c0)) kl = recv_batch (L := policy_of (cn_client c0)) l) as Eh
    by (unfold kl; by destruct (is_current _ _ _)).
  rewrite <- Eh. eapply (coord_then_link d c _ (cn_client c0) kl); [done|done| |exact E2| |].
  - eapply (coord_ok_conns Hco); [by rewrite length_insert|eapply sent_ok_insert; [apply Hco|exact Hj|]|].
    + simpl. by rewrite Hdn, <- app_assoc.
    + intros tid [Hin|Hin]%(up_insert _ _ _ _ _ Hj); apply (ck_ids _ _ _ _ Hco); unfold co_ids; [|set_solver].
      pose proof (up_elem _ _ _ _ Hj Hin). set_solver.
  - intros tid i. unfold kl. by destruct (is_current _ _ _).
  - rewrite Eh. intros tid [_ Hin]%list_elem_of_filter. apply (ck_ids _ _ _ _ Hco).
    assert (tid ∈ co_done c) as Hd; [|unfold co_ids; set_solver].
    apply (ck_down Hco j c0); [done|]. rewrite join_app, Hdn. simpl. set_solver.
Qed.

Lemma signal_ok d : net_exec (NSignal d) n = Some n' → net_ok n'.
Proof.
  cbn [net_exec]. intros He. exec_inv He. rename E into Hc. apply net_ok_coord; [done|].
  destruct (no_coords _ Hok _ _ Hc) as [H1 H2 H3 H4 H5 H6 H7]. by split.
Qed.

Lemma clock_ok t : net_exec (NClock t) n = Some n' → net_ok n'.
Proof. cbn [net_exec]. intros He. exec_inv He. destruct Hok. by split. Qed.
End steps.

Lemma net_exec_ok l n n' : net_exec l n = Some n' → net_ok n → net_ok n'.
Proof.
  intros He Hok.
  destruct l;
    [exact (link_label_ok n n' Hok _ _ He)
    |exact (server_label_ok n n' Hok _ _ He)
    |exact (connect_ok n n' Hok _ _ He)
    |exact (send_ok n n' Hok _ He)
    |exact (notify_ok n n' Hok _ _ _ He)
    |exact (receive_ok n n' Hok _ _ He)
    |exact (lose_ok n n' Hok _ _ He)
    |exact (broadcast_ok n n' Hok _ _ _ He)
    |exact (batch_ok n n' Hok _ _ He)
    |exact (deliver_ok n n' Hok _ _ He)
    |exact (signal_ok n n' Hok _ He)
    |exact (clock_ok n n' Hok _ He)].
Qed.

Lemma net_reachable_ok n : net_reachable n → net_ok n.
Proof.
  induction 1 as [p ss s t|l n n' _ IH He]; [|by eapply net_exec_ok]. split; simpl.
  - intros d c Hc. apply list_lookup_fmap_Some in Hc as (s' & -> & _). apply coord_ok_new.
  - intros c k [-> _]%lookup_replicate. split; [constructor|set_solver].
Qed.

(** ** The links of the processors *)

Lemma set_link_links x k ids n :
  n_links (set_link x k ids n) = match x with Proc c => <[c := k]> (n_links n) | Prox _ => n_links n end.
Proof. destruct x; simpl; [done|]. by destruct (n_coords n !! d). Qed.

Lemma publish_links d published tid n n' : publish d published tid n = Some n' → n_links n' = n_links n.
Proof.
  unfold publish. destruct (n_coords n !! d) as [c|]; [|done]. cbn [mbind option_bind].
  destruct (role_of d); [destruct (dedup_notify _ _ _ _ _ _) as [[out m] dd]..|destruct (co_stopping c)]; by intros [= <-].
Qed.

(** A transition changes one link of a processor at most. *)
Lemma net_exec_links l n n' :
  net_exec l n = Some n' →
  n_links n' = n_links n ∨
  ∃ c kl k k', n_links n !! c = Some k ∧ link_exec (L := client_policy) kl k = Some k' ∧
    n_links n' = <[c := k']> (n_links n) ∧ ∀ tid, kl = KNotify tid → l = NLink (Proc c) kl.
Proof.
  intros He.
  assert (∀ x kl k' ids n0, exec_link x kl n = Some k' → n_links n0 = n_links n →
    (∀ tid, kl = KNotify tid → ∀ c, x = Proc c → l = NLink (Proc c) kl) →
    n_links (set_link x k' ids n0) = n_links n ∨
    ∃ c kl k k1, n_links n !! c = Some k ∧ link_exec (L := client_policy) kl k = Some k1 ∧
      n_links (set_link x k' ids n0) = <[c := k1]> (n_links n) ∧ ∀ tid, kl = KNotify tid → l = NLink (Proc c) kl) as Hlink.
  { intros x kl k' ids n0 (k & Hk & Hx)%exec_link_inv E Hn. rewrite set_link_links, E. destruct x as [c|]; [right|by left].
    exists c, kl, k, k'. split; [exact Hk|]. split; [exact Hx|]. split; [done|]. intros tid Ht. by apply (Hn tid Ht). }
  destruct l; cbn [net_exec] in He; exec_inv He; try (left; done).
  - eapply Hlink; [eassumption|done|by intros tid _ c' ->].
  - eapply Hlink; [eassumption|done|done].
  - eapply Hlink; [eassumption|done|done].
  - left. by apply publish_links in He as ->.
  - eapply Hlink; [eassumption|done|]. intros tid. by destruct (is_current _ _ _).
Qed.

Lemma step_links l n n' c k' :
  net_exec l n = Some n' → n_links n' !! c = Some k' →
  n_links n !! c = Some k' ∨
  ∃ k kl, n_links n !! c = Some k ∧ link_exec (L := client_policy) kl k = Some k' ∧ ∀ tid, kl = KNotify tid → l = NLink (Proc c) kl.
Proof.
  intros He Hk'. destruct (net_exec_links _ _ _ He) as [E|(i & kl & k & k1 & Hk & Hl & E & Hn)]; rewrite E in Hk'; [by left|].
  apply list_lookup_insert_Some in Hk' as [(-> & -> & _)|[_ Hk']]; [right; by exists k, kl|by left].
Qed.

Lemma step_links_grow l n n' c k :
  net_exec l n = Some n' → n_links n !! c = Some k →
  ∃ k', n_links n' !! c = Some k' ∧ k_handled k `prefix_of` k_handled k' ∧ k_queued k `prefix_of` k_queued k'.
Proof.
  intros He Hk. destruct (net_exec_links _ _ _ He) as [E|(i & kl & k0 & k1 & Hk0 & Hl & E & Hn)]; rewrite E; [by exists k|].
  destruct (decide (i = c)) as [->|Hne]; [|exists k; by rewrite list_lookup_insert_ne].
  simplify_eq. exists k1. rewrite list_lookup_insert_eq by (by eapply lookup_lt_Some). split; [done|].
  destruct (link_grows (L := client_policy) _ _ _ Hl) as [[q ->] ->]. by split; eexists.
Qed.

(** What a run of the network does to a link: only notifications fill its queue. *)
Lemma links_run ls n n' c k' :
  net_run ls n = Some n' → n_links n' !! c = Some k' →
  ∃ k, n_links n !! c = Some k ∧ k_handled k `prefix_of` k_handled k' ∧
    ∀ u, u ∈ k_queued k' → u ∈ k_queued k ∨ NLink (Proc c) (KNotify u) ∈ ls.
Proof.
  revert n. induction ls as [|l ls IH]; intros n Hr Hk'; simpl in Hr; [simplify_eq; eauto|].
  destruct (net_exec l n) as [n1|] eqn:He; [|done]. destruct (IH n1 Hr Hk') as (k1 & Hk1 & Hh1 & Hq1).
  destruct (step_links _ _ _ _ _ He Hk1) as [Hk|(k & kl & Hk & Hl & Hint)].
  - exists k1. split; [done|]. split; [done|]. intros u [?|?]%Hq1; [by left|right]. by right.
  - exists k. destruct (link_queued (L := client_policy) _ _ _ Hl) as [Hh Hq]. split; [done|]. split; [by etrans|].
    intros u [[Hu|Hu]%Hq|?]%Hq1; [by left|right|right; by right]. rewrite (Hint u Hu), Hu. left.
Qed.

Lemma links_run_grow ls n n' c k :
  net_run ls n = Some n' → n_links n !! c = Some k →
  ∃ k', n_links n' !! c = Some k' ∧ k_handled k `prefix_of` k_handled k'.
Proof.
  revert n k. induction ls as [|l ls IH]; intros n k Hr Hk; simpl in Hr; [simplify_eq; by exists k|].
  destruct (net_exec l n) as [n1|] eqn:He; [|done].
  destruct (step_links_grow _ _ _ _ _ He Hk) as (k1 & Hk1 & Hp & _). destruct (IH n1 k1 Hr Hk1) as (k' & ? & ?).
  exists k'. split; [done|by etrans].
Qed.
End network.
