(* ===== verification/Routes.v ===== *)
(** * How a decision gets through a chain of coordinators

    A decision that waits at a coordinator can be carried to a processor by the
    steps of the streams on the way, one after the other, and by the handlers of
    the proxies between them. *)

From S2P Require Import Prelude Bytes PubSub Server Streams Link Dedup Network NetworkInv.

Section routes.
Context `{D : Deployment} `{K : KeyStore}.

(** ** One stream *)

(** The steps of the sender of stream [j] of coordinator [d], and its deliveries. *)
Definition stream_label (d j : nat) (l : net_label) : bool :=
  match l with
  | NServer i (VTake m) | NServer i (VTimer m) | NBatch i m | NDeliver i m => bool_decide (d = i ∧ j = m)
  | _ => false
  end.

(** What such steps leave as it was; the client [x] is handed [ids]. *)
Record hop (d : nat) (x : client) (ids : list bytes) (n n' : network) : Prop := {
  hop_current : n_current n' = n_current n;
  hop_links : ∀ y k, y ≠ x → get_link y n = Some k → get_link y n' = Some k;
  hop_link : ∀ k, get_link x n = Some k →
    ∃ k', get_link x n' = Some k' ∧ k_pc k' = k_pc k ∧ k_handled k' = k_handled k ++ ids;
  hop_coords : ∀ i c, i ≠ d → n_coords n !! i = Some c →
    ∃ c', n_coords n' !! i = Some c' ∧ co_server c' = co_server c ∧ co_conns c' = co_conns c ∧
      (x = Prox i → co_pending c' = co_pending c ++ ids);
}.

Lemma hop_trans d x ids1 ids2 n1 n2 n3 : hop d x ids1 n1 n2 → hop d x ids2 n2 n3 → hop d x (ids1 ++ ids2) n1 n3.
Proof.
  intros [C1 L1 K1 I1] [C2 L2 K2 I2]. split; [congruence|auto| |].
  - intros k (k2 & Hk2 & ? & E)%K1. destruct (K2 _ Hk2) as (k3 & ? & ? & E'). exists k3.
    split_and!; [done|congruence|]. by rewrite E', E, app_assoc.
  - intros i c Hi (c2 & Hc2 & ? & ? & P)%I1; [|done]. destruct (I2 _ _ Hi Hc2) as (c3 & ? & ? & ? & P').
    exists c3. split_and!; [done|congruence..|]. intros Hx. by rewrite P', P, app_assoc.
Qed.

Lemma hop_refl d x n : hop d x [] n n.
Proof.
  split; [done|done| |].
  - intros k Hk. exists k. by rewrite app_nil_r.
  - intros i c _ Hc. exists c. by rewrite app_nil_r.
Qed.

Lemma hop_coord d x n c c' : n_coords n !! d = Some c → co_up c' = co_up c → hop d x [] n (set_coord d c' n).
Proof.
  intros Hc E. split; [done| | |].
  - intros y k _ Hk. by rewrite (get_link_coord y n d c c').
  - intros k Hk. exists k. rewrite (get_link_coord x n d c c') by done. by rewrite app_nil_r.
  - intros i c0 Hi Hc0. exists c0. simpl. rewrite list_lookup_insert_ne by done. by rewrite app_nil_r.
Qed.

Lemma get_link_set x k k' ids n : get_link x n = Some k → get_link x (set_link x k' ids n) = Some k'.
Proof.
  destruct x as [i|i]; simpl; [intros Hk; by rewrite list_lookup_insert_eq by (by eapply lookup_lt_Some)|].
  destruct (role_of i) eqn:Hr; try done. destruct (n_coords n !! i) as [c|] eqn:Hc; [|done]. intros _. simpl.
  by rewrite list_lookup_insert_eq by (by eapply lookup_lt_Some).
Qed.

Lemma get_link_set_ne x y k' ids n : y ≠ x → get_link y (set_link x k' ids n) = get_link y n.
Proof.
  destruct x as [i|i], y as [m|m]; simpl; intros Hne.
  - rewrite list_lookup_insert_ne; [done|congruence].
  - done.
  - by destruct (n_coords n !! i).
  - destruct (n_coords n !! i); [|done]. simpl. rewrite list_lookup_insert_ne; [done|congruence].
Qed.

Lemma set_link_current x k ids n : n_current (set_link x k ids n) = n_current n.
Proof. destruct x; simpl; [done|]. by case_match. Qed.

Lemma hop_set_link d x k k' ids n :
  get_link x n = Some k → k_pc k' = k_pc k → k_handled k' = k_handled k ++ ids → hop d x ids n (set_link x k' ids n).
Proof.
  intros Hk Hpc Hh. split; [apply set_link_current| | |].
  - intros y k0 Hne Hk0. by rewrite get_link_set_ne.
  - intros k0 Hk0. simplify_eq. exists k'. by rewrite (get_link_set x k).
  - intros i c Hi Hc. destruct x as [m|m]; simpl; [by exists c|]. destruct (n_coords n !! m) as [c0|] eqn:Hm.
    + simpl. destruct (decide (m = i)) as [<-|Hne].
      * simplify_eq. exists (with_link k' ids c). by rewrite list_lookup_insert_eq by (by eapply lookup_lt_Some).
      * exists c. rewrite list_lookup_insert_ne by done. split_and!; [done..|congruence].
    + exists c. split_and!; [done..|]. intros [= ->]. congruence.
Qed.

(** *** The sender *)

Definition lift_label (d j : nat) (l : server_label) : net_label :=
  match l with VSend _ true => NBatch d j | _ => NServer d l end.

(** The coordinator after its sender has put [bs] on the way. *)
Definition after_sends (j : nat) (cn : conn) (bs : list (list bytes)) (s' : Server) (c : coord) : coord :=
  with_streams s' (<[j := MkConn (cn_client cn) (cn_up cn) (cn_down cn ++ bs) (cn_got cn)]> (co_conns c)) c.

Lemma lift_step d j l n c s1 cn e :
  own_label j l = true → n_coords n !! d = Some c → server_ok (co_server c) → server_exec l (co_server c) = Some s1 →
  co_conns c !! j = Some cn → s_entries (co_server c) !! j = Some e →
  ∃ bs, net_exec (lift_label d j l) n = Some (set_coord d (after_sends j cn bs s1 c) n) ∧
    ∃ e1, s_entries s1 !! j = Some e1 ∧ e_sent e1 = e_sent e ++ bs.
Proof.
  intros Hl Hc Hs He Hcn Hj.
  destruct (lookup_lt_is_Some_2 (s_entries s1) j) as [e1 He1].
  { rewrite (server_length _ _ _ He). apply lookup_lt_Some in Hj. lia. }
  destruct (step_grows _ _ _ _ _ _ Hs He Hj He1) as [Esent _].
  assert (∀ bs, lift_label d j l = NServer d l → server_internal l = true → bs = [] → e_sent e1 = e_sent e ++ bs →
    ∃ bs, net_exec (lift_label d j l) n = Some (set_coord d (after_sends j cn bs s1 c) n) ∧
      ∃ e1, s_entries s1 !! j = Some e1 ∧ e_sent e1 = e_sent e ++ bs) as Hquiet.
  { intros bs -> Hi -> Es. exists []. split; [|by exists e1]. cbn [net_exec]. rewrite Hi, Hc. cbn [mbind option_bind].
    rewrite He. cbn [mbind option_bind]. unfold after_sends. rewrite app_nil_r, list_insert_id; [done|]. by destruct cn. }
  destruct l as [| | | | |i|i|i []|]; try done; apply bool_decide_eq_true in Hl as <-; [by apply (Hquiet [])..|].
  clear Hquiet. pose proof He as He'. cbn [server_exec] in He'. unfold with_entry in He'. rewrite Hj in He'.
  cbn [mbind option_bind] in He'. unfold send_batch in He'.
  destruct (e_pc e) as [| |ids|] eqn:Hpc; [done|done| |done]. clear He'.
  exists [ids]. split.
  - cbn [lift_label net_exec]. rewrite Hc. cbn [mbind option_bind]. rewrite Hj, Hcn. cbn [mbind option_bind]. by rewrite Hpc, He.
  - exists e1. split; [done|]. by rewrite Esent, decide_True.
Qed.

Lemma after_sends_twice d j cn bs1 bs2 s1 s2 c n :
  set_coord d (after_sends j (MkConn (cn_client cn) (cn_up cn) (cn_down cn ++ bs1) (cn_got cn)) bs2 s2 (after_sends j cn bs1 s1 c))
    (set_coord d (after_sends j cn bs1 s1 c) n) = set_coord d (after_sends j cn (bs1 ++ bs2) s2 c) n.
Proof.
  unfold set_coord, after_sends, with_streams. simpl. by rewrite !list_insert_insert_eq, <- app_assoc.
Qed.

Lemma lift_own d j ls n c s' cn e :
  Forall (λ l, own_label j l = true) ls → n_coords n !! d = Some c → server_ok (co_server c) →
  server_run ls (co_server c) = Some s' → co_conns c !! j = Some cn → s_entries (co_server c) !! j = Some e →
  ∃ bs, net_run (lift_label d j <$> ls) n = Some (set_coord d (after_sends j cn bs s' c) n) ∧
    ∃ e', s_entries s' !! j = Some e' ∧ e_sent e' = e_sent e ++ bs.
Proof.
  intros Hown. revert n c cn e. induction Hown as [|l ls Hl _ IH]; intros n c cn e Hc Hs Hrun Hcn Hj; simpl in Hrun.
  { simplify_eq. exists []. unfold after_sends, set_coord. rewrite app_nil_r. split; [|exists e; by rewrite app_nil_r].
    rewrite (list_insert_id _ j) by (by destruct cn). rewrite list_insert_id by (by destruct c). by destruct n. }
  destruct (server_exec l (co_server c)) as [s1|] eqn:He; [|done]. cbn [mbind option_bind] in Hrun.
  destruct (lift_step d j l n c s1 cn e Hl Hc Hs He Hcn Hj) as (bs & Hn1 & e1 & He1 & Es1).
  destruct (IH (set_coord d (after_sends j cn bs s1 c) n) (after_sends j cn bs s1 c)
    (MkConn (cn_client cn) (cn_up cn) (cn_down cn ++ bs) (cn_got cn)) e1) as (bs' & Hn' & e' & He' & Es'); simpl.
  - by rewrite list_lookup_insert_eq by (by eapply lookup_lt_Some).
  - by eapply server_exec_ok.
  - done.
  - by rewrite list_lookup_insert_eq by (by eapply lookup_lt_Some).
  - done.
  - exists (bs ++ bs'). split.
    + etrans; [exact (net_run_cons _ (list_fmap _ _ (lift_label d j) ls) _ _ Hn1)|]. etrans; [exact Hn'|]. f_equal. apply after_sends_twice.
    + exists e'. split; [done|]. by rewrite Es', Es1, app_assoc.
Qed.

(** *** The deliveries *)

(** Everything that is on its way to a client that receives. *)
Lemma deliver_all d j n c cn k failed :
  n_coords n !! d = Some c → co_conns c !! j = Some cn → get_link (cn_client cn) n = Some k →
  k_pc k = KOpen true failed → n_current n !! cn_client cn = Some j →
  ∃ n', net_run (replicate (length (cn_down cn)) (NDeliver d j)) n = Some n' ∧
    hop d (cn_client cn) (recv_batch (L := policy_of (cn_client cn)) (mjoin (cn_down cn))) n n'.
Proof.
  remember (cn_down cn) as down eqn:Hd. revert n c cn k Hd.
  induction down as [|b down IH]; intros n c cn k Hd Hc Hcn Hk Hpc Hcur.
  { exists n. split; [done|]. apply hop_refl. }
  set (x := cn_client cn) in *. set (cn1 := MkConn x (cn_up cn) down (cn_got cn ++ [b])).
  set (c1 := with_streams (co_server c) (<[j := cn1]> (co_conns c)) c).
  set (ids := recv_batch (L := policy_of x) b). set (k1 := handle_ids ids k).
  set (n1 := set_link x k1 ids (set_coord d c1 n)).
  assert (get_link x (set_coord d c1 n) = Some k) as Hk0 by (by rewrite (get_link_coord x n d c c1)).
  assert (net_exec (NDeliver d j) n = Some n1) as He.
  { cbn [net_exec]. rewrite Hc. cbn [mbind option_bind]. rewrite Hcn. cbn [mbind option_bind]. rewrite <- Hd. fold x.
    unfold is_current, exec_link. rewrite bool_decide_true, Hk, Hpc by done. cbn [andb mbind option_bind link_exec].
    by rewrite Hpc. }
  assert (hop d x ids n n1) as Hhop.
  { apply (hop_trans d x [] ids n (set_coord d c1 n)); [by apply (hop_coord d x n c)|by apply (hop_set_link d x k)]. }
  assert (∃ c1', n_coords n1 !! d = Some c1' ∧ co_conns c1' !! j = Some cn1) as (c1' & Hc1 & Hcn1).
  { assert (n_coords (set_coord d c1 n) !! d = Some c1) as Hd1 by (simpl; by rewrite list_lookup_insert_eq by (by eapply lookup_lt_Some)).
    assert (co_conns c1 !! j = Some cn1) as Hj1 by (simpl; by rewrite list_lookup_insert_eq by (by eapply lookup_lt_Some)).
    unfold n1. destruct x as [m|m]; [by exists c1|]. cbn [set_link].
    destruct (decide (m = d)) as [->|Hne].
    - rewrite Hd1. exists (with_link k1 ids c1). simpl. by rewrite list_lookup_insert_eq by (rewrite length_insert; by eapply lookup_lt_Some).
    - exists c1. destruct (n_coords (set_coord d c1 n) !! m); [|done]. simpl. by rewrite list_lookup_insert_ne. }
  destruct (IH n1 c1' cn1 k1) as (n' & Hn' & Hhop'); [done|done|done|by apply (get_link_set x k)|done| |].
  { unfold n1. rewrite set_link_current. done. }
  exists n'. split; [exact (eq_trans (net_run_cons _ _ _ _ He) Hn')|].
  assert (recv_batch (L := policy_of x) (mjoin (b :: down)) = ids ++ recv_batch (L := policy_of x) (mjoin down)) as ->
    by (unfold ids, recv_batch; simpl; by rewrite filter_app).
  exact (hop_trans _ _ _ _ _ _ _ Hhop Hhop').
Qed.

(** ** One stream, from the channel to the client *)

(** A stream of a coordinator. *)
Abbreviation stream_id := (nat * nat)%type.

(** Its sender has not returned, and its client [x] is connected and receives. *)
Definition ready (n : network) (h : stream_id) (x : client) : Prop :=
  ∃ c cn e k failed, n_coords n !! h.1 = Some c ∧ co_conns c !! h.2 = Some cn ∧ cn_client cn = x ∧
    s_entries (co_server c) !! h.2 = Some e ∧ e_pc e ≠ SReturned ∧
    get_link x n = Some k ∧ k_pc k = KOpen true failed ∧ n_current n !! x = Some h.2.

(** An identifier is in its channel, or in the batch of its sender. *)
Definition waits (n : network) (h : stream_id) (tid : bytes) : Prop :=
  ∃ c e, n_coords n !! h.1 = Some c ∧ s_entries (co_server c) !! h.2 = Some e ∧ tid ∈ taken (e_pc e) ++ e_ch e.

(** What a sender that has emptied its channel has sent. *)
Lemma sent_all e e' bs :
  stream_ok e → stream_ok e' → e_pc e ≠ SReturned → e_ch e' = [] → e_pc e' = SSelect → e_queued e' = e_queued e →
  e_sent e' = e_sent e ++ bs → taken (e_pc e) ++ e_ch e = mjoin bs.
Proof.
  intros [F1 _ _ _ R1 _ _] [F2 _ _ _ R2 _ _] Hpc Hch Hpc' Hq Hs. rewrite Hpc' in R2.
  assert (e_held e = []) as Hh by (destruct (e_pc e); tauto).
  rewrite Hpc', Hch, (proj1 R2), Hs, join_app, Hq, F1, Hh in F2. simpl in F2. rewrite app_nil_r in F2. by simplify_list_eq.
Qed.

Lemma one_hop n h x tid :
  net_ok n → waits n h tid → ready n h x → accepts (LinkPolicy := policy_of x) tid = true →
  ∃ ls n' ids, Forall (λ l, stream_label h.1 h.2 l = true) ls ∧ net_run ls n = Some n' ∧ hop h.1 x ids n n' ∧ tid ∈ ids.
Proof.
  destruct h as [d j]. simpl. intros Hok (c & e & Hc & He & Hin) (c0 & cn & e0 & k & failed & Hc0 & Hcn & Hx & He0 & Hpc & Hk & Hopen & Hcur) Hacc.
  simpl in *. simplify_eq. set (x := cn_client cn) in *.
  pose proof (ck_server_ok (no_coords _ Hok _ _ Hc)) as Hs.
  destruct (sender_run j _ e Hs He Hpc) as (ls & s' & e' & Hown & Hrun & Hs' & He' & Hch & Hpc' & Hq).
  destruct (lift_own d j ls n c s' cn e Hown Hc Hs Hrun Hcn He) as (bs & Hn1 & e1 & He1 & Hsent). simplify_eq.
  assert (taken (e_pc e) ++ e_ch e = mjoin bs) as Hbs.
  { eapply (sent_all e e'); try done; [eapply Forall_lookup_1; [apply (vo_entries _ Hs)|done]|].
    eapply Forall_lookup_1; [apply (vo_entries _ Hs')|done]. }
  set (c1 := after_sends j cn bs s' c) in *. set (n1 := set_coord d c1 n) in *.
  destruct (deliver_all d j n1 c1 (MkConn x (cn_up cn) (cn_down cn ++ bs) (cn_got cn)) k failed) as (n2 & Hn2 & Hhop).
  { simpl. by rewrite list_lookup_insert_eq by (by eapply lookup_lt_Some). }
  { simpl. by rewrite list_lookup_insert_eq by (by eapply lookup_lt_Some). }
  { simpl. unfold n1. by rewrite (get_link_coord _ n d c c1). }
  { done. }
  { done. }
  simpl in Hhop, Hn2. exists ((lift_label d j <$> ls) ++ replicate (length (cn_down cn ++ bs)) (NDeliver d j)), n2.
  exists (recv_batch (L := policy_of x) (mjoin (cn_down cn ++ bs))). split_and!.
  - apply Forall_app. split; [|by apply Forall_replicate, bool_decide_eq_true_2]. apply Forall_fmap.
    eapply Forall_impl; [exact Hown|]. intros l Hl. destruct l as [| | | | | | |i []|]; try done; simpl in *;
      by apply bool_decide_eq_true in Hl as <-; apply bool_decide_eq_true_2.
  - exact (eq_trans (net_run_app _ _ _ _ Hn1) Hn2).
  - apply (hop_trans d x [] _ n n1); [by apply (hop_coord d x n c)|done].
  - apply list_elem_of_filter. split; [done|]. rewrite join_app, elem_of_app, <- Hbs. by right.
Qed.

(** ** The handler of a proxy *)

Lemma broadcast_pending n d c tid :
  net_ok n → n_coords n !! d = Some c → tid ∈ co_pending c →
  ∃ i order n' c', net_exec (NBroadcast d i order) n = Some n' ∧ n' = set_coord d c' n ∧ co_up c' = co_up c ∧
    co_conns c' = co_conns c ∧
    ∀ j e, s_entries (co_server c) !! j = Some e → registered (co_server c) j = true → has_room e = true →
      s_entries (co_server c') !! j = Some (push tid e).
Proof.
  intros Hok Hc [i Hi]%list_elem_of_lookup. pose proof (ck_server_ok (no_coords _ Hok _ _ Hc)) as Hs.
  set (order := (map_to_list (s_streams (co_server c))).*2).
  assert (server_exec (VBroadcast tid order) (co_server c) = Some (Broadcast tid order (co_server c))) as He
    by (cbn [server_exec]; by rewrite decide_True).
  exists i, order. eexists _, _. split; [|split; [reflexivity|]].
  - cbn [net_exec]. rewrite Hc. cbn [mbind option_bind]. rewrite Hi. cbn [mbind option_bind]. unfold with_broadcast.
    rewrite He. reflexivity.
  - split; [done|]. split; [done|]. intros j e Hj Hr Hroom. simpl.
    rewrite (proj1 (Broadcast_entries tid order (co_server c) (registered_nodup _ Hs)) j), Hj. simpl.
    unfold registered in Hr. fold order in Hr. by rewrite Hr, Hroom.
Qed.

(** ** Chains *)

(** The stream is registered and its channel has room. *)
Definition with_room (n : network) (h : stream_id) : Prop :=
  ∃ c e, n_coords n !! h.1 = Some c ∧ s_entries (co_server c) !! h.2 = Some e ∧
    registered (co_server c) h.2 = true ∧ has_room e = true.

(** Streams one after the other: the client of each is the coordinator of the
    next, in proxy mode, and the client of the last is processor [c]. *)
Fixpoint route (n : network) (h : stream_id) (rest : list stream_id) (c : nat) : Prop :=
  match rest with
  | [] => ready n h (Proc c)
  | h' :: rest => ready n h (Prox h'.1) ∧ with_room n h' ∧ route n h' rest c
  end.

(** The steps of the streams of a route and of the handlers of its proxies. *)
Definition route_label (hs : list stream_id) (l : net_label) : bool :=
  existsb (λ h, stream_label h.1 h.2 l || match l with NBroadcast d _ _ => d =? h.1 | _ => false end)%nat hs.

(** Streams of other coordinators, with other clients, are still ready after a hop. *)
Lemma ready_frame n n' h x :
  (∃ c c', n_coords n !! h.1 = Some c ∧ n_coords n' !! h.1 = Some c' ∧ co_server c' = co_server c ∧ co_conns c' = co_conns c) →
  (∀ k, get_link x n = Some k → get_link x n' = Some k) → n_current n' = n_current n → ready n h x → ready n' h x.
Proof.
  intros (c & c' & Hc & Hc' & Es & Ec) Hl Ecur (c0 & cn & e & k & failed & H1 & H2 & H3 & H4 & H5 & H6 & H7 & H8). simplify_eq.
  exists c', cn, e, k, failed. rewrite Es, Ec, Ecur. auto 10.
Qed.

Lemma route_mono n n' h rest c :
  (∀ g x, g ∈ h :: rest → x = Proc c ∨ (∃ g', g' ∈ rest ∧ x = Prox g'.1) → ready n g x → ready n' g x) →
  (∀ g, g ∈ rest → with_room n g → with_room n' g) → route n h rest c → route n' h rest c.
Proof.
  revert h. induction rest as [|h' rest IH]; intros h Hr Hw; simpl; [apply Hr; [by left|by left]|].
  intros (H1 & H2 & H3). split_and!.
  - apply Hr; [by left|right; exists h'; split; [by left|done]|done].
  - apply Hw; [by left|done].
  - apply IH; [|intros g Hg; apply Hw; by right|done]. intros g x Hg Hx. apply Hr; [by right|].
    destruct Hx as [?|(g' & ? & ?)]; [by left|right; exists g'; split; [by right|done]].
Qed.

Lemma net_run_ok ls n n' : net_run ls n = Some n' → net_ok n → net_ok n'.
Proof.
  revert n. induction ls as [|l ls IH]; intros n Hr Hn; simpl in Hr; [by simplify_eq|].
  destruct (net_exec l n) as [n1|] eqn:He; [|done]. apply (IH n1 Hr). by eapply net_exec_ok.
Qed.

(** From one stream of a route to the next. *)
Lemma next_hop n h h' rest c tid :
  net_ok n → NoDup (h :: h' :: rest).*1 → route n h (h' :: rest) c → waits n h tid →
  ∃ ls n', Forall (λ l, route_label (h :: h' :: rest) l = true) ls ∧ net_run ls n = Some n' ∧
    route n' h' rest c ∧ waits n' h' tid ∧ ∀ k, get_link (Proc c) n = Some k → get_link (Proc c) n' = Some k.
Proof.
  intros Hok Hnd (Hready & Hroom & Hroute) Hw.
  rewrite !fmap_cons, !NoDup_cons in Hnd. destruct Hnd as (Hh & Hh' & _).
  destruct (one_hop n h (Prox h'.1) tid Hok Hw Hready eq_refl) as (ls & n1 & ids & Hls & Hrun & [Hcur Hlinks _ Hcoords] & Htid).
  destruct Hroom as (c0 & e & Hc0 & He & Hreg & Hroom).
  destruct (Hcoords h'.1 c0) as (c1 & Hc1 & Es & Ec & Ep); [intros E; apply Hh; rewrite E; by left|done|].
  assert (tid ∈ co_pending c1) as Hpend by (rewrite (Ep eq_refl); set_solver).
  destruct (broadcast_pending n1 h'.1 c1 tid (net_run_ok _ _ _ Hrun Hok) Hc1 Hpend)
    as (i & order & n2 & c2 & Hb & En2 & Eup & Ecs & Hpush).
  rewrite Es in Hpush. specialize (Hpush h'.2 e He Hreg Hroom).
  assert (n_coords n2 !! h'.1 = Some c2) as Hc2
    by (rewrite En2; simpl; by rewrite list_lookup_insert_eq by (by eapply lookup_lt_Some)).
  assert (∀ y k, y ≠ Prox h'.1 → get_link y n = Some k → get_link y n2 = Some k) as Hl2.
  { intros y k Hne Hk. rewrite En2, (get_link_coord y n1 h'.1 c1 c2) by done. by apply Hlinks. }
  assert (∀ g c0, g ∈ rest → n_coords n !! g.1 = Some c0 →
    ∃ c', n_coords n2 !! g.1 = Some c' ∧ co_server c' = co_server c0 ∧ co_conns c' = co_conns c0) as Hother.
  { intros g x Hg Hx. destruct (Hcoords g.1 x) as (c' & Hc' & ? & ? & _);
      [intros E; apply Hh; rewrite <- E; right; apply list_elem_of_fmap; by exists g|done|].
    exists c'. rewrite En2. simpl. rewrite list_lookup_insert_ne; [done|]. intros E. apply Hh'. rewrite E.
    apply list_elem_of_fmap. by exists g. }
  exists (ls ++ [NBroadcast h'.1 i order]), n2. split_and!.
  - apply Forall_app. split.
    + eapply Forall_impl; [exact Hls|]. intros l Hl. simpl. by rewrite Hl.
    + constructor; [|constructor]. simpl. by rewrite Nat.eqb_refl, !orb_true_r.
  - rewrite (net_run_app _ _ _ _ Hrun). by rewrite (net_run_cons _ _ _ _ Hb).
  - apply (route_mono n); [| |done].
    + intros g x Hg Hx Hr. assert (x ≠ Prox h'.1) as Hne.
      { destruct Hx as [->|(g' & Hg' & ->)]; [done|]. intros [= E]. apply Hh'. rewrite <- E. apply list_elem_of_fmap. by exists g'. }
      apply elem_of_cons in Hg as [->|Hg].
      * destruct Hr as (c3 & cn & e0 & k & failed & H1 & H2 & H3 & H4 & H5 & H6 & H7 & H8). simplify_eq.
        exists c2, cn, (push tid e), k, failed. rewrite Ecs, Ec. simpl. rewrite Hcur. split_and!; try done. by apply Hl2.
      * pose proof Hr as (c3 & _ & _ & _ & _ & H1 & _). destruct (Hother g c3 Hg H1) as (c' & ? & ? & ?).
        apply (ready_frame n); [by exists c3, c'| |by rewrite En2|done]. intros k. by apply Hl2.
    + intros g Hg (c3 & e0 & H1 & H2 & H3 & H4). destruct (Hother g c3 Hg H1) as (c' & ? & Es' & _).
      exists c', e0. by rewrite Es'.
  - exists c2, (push tid e). split_and!; [done|done|]. simpl. set_solver.
  - intros k. by apply Hl2.
Qed.

Lemma route_link n h rest c : route n h rest c → ∃ k, n_links n !! c = Some k.
Proof.
  revert h. induction rest as [|h' rest IH]; intros h; simpl; [|intros (_ & _ & Hr); by eapply IH].
  intros (_ & _ & _ & k & _ & _ & _ & _ & _ & _ & Hk & _). by exists k.
Qed.

Lemma route_run rest n h c tid :
  net_ok n → NoDup (h :: rest).*1 → route n h rest c → waits n h tid → wf_tid tid →
  ∃ ls n' k k' q, Forall (λ l, route_label (h :: rest) l = true) ls ∧ net_run ls n = Some n' ∧
    n_links n !! c = Some k ∧ n_links n' !! c = Some k' ∧ k_handled k' = k_handled k ++ q ∧ tid ∈ q.
Proof.
  revert n h. induction rest as [|h' rest IH]; intros n h Hok Hnd Hroute Hw Hwf.
  - assert (accepts (LinkPolicy := policy_of (Proc c)) tid = true) as Hacc
      by (simpl; unfold client_accepts, wf_tid in *; lia).
    destruct (one_hop n h (Proc c) tid Hok Hw Hroute Hacc) as (ls & n' & ids & Hls & Hrun & Hhop & Hin).
    destruct Hroute as (_ & _ & _ & k & _ & _ & _ & _ & _ & _ & Hk & _).
    destruct (hop_link _ _ _ _ _ Hhop k Hk) as (k' & Hk' & _ & Hh). exists ls, n', k, k', ids. split; [|done].
    eapply Forall_impl; [exact Hls|]. intros l Hl. simpl. by rewrite Hl.
  - destruct (next_hop n h h' rest c tid Hok Hnd Hroute Hw) as (ls & n1 & Hls & Hrun & Hroute1 & Hw1 & Hk1).
    rewrite fmap_cons, NoDup_cons in Hnd.
    destruct (IH n1 h' (net_run_ok _ _ _ Hrun Hok) (proj2 Hnd) Hroute1 Hw1 Hwf) as (ls' & n' & k & k' & q & Hls' & Hrun' & Hk & Hrest).
    destruct (route_link _ _ _ _ Hroute) as [k0 Hk0]. pose proof (Hk1 k0 Hk0) as Hk01. simpl in Hk0, Hk01. simplify_eq.
    exists (ls ++ ls'), n', k, k', q. split_and!; [| |done|apply Hrest..].
    + apply Forall_app. split; [done|]. eapply Forall_impl; [exact Hls'|]. intros l Hl. simpl in *. by rewrite Hl, !orb_true_r.
    + by rewrite (net_run_app _ _ _ _ Hrun).
Qed.
End routes.
