(* ===== verification/NetworkProps.v ===== *)
(** * What reaches the clients of the coordinators

    The theorems about processors and coordinators together, over the reachable
    states of Network.v. *)

From S2P Require Import Prelude Bytes PubSub Server Streams Link Dedup Network NetworkInv Routes.

Section props.
Context `{D : Deployment} `{K : KeyStore}.

(** No keep decision is invented on the way. Every trace identifier that a
    processor is told to keep is a well-formed one that some processor decided
    on and notified its coordinator of. *)
Theorem no_decision_invented n c k tid :
  net_reachable n → n_links n !! c = Some k → tid ∈ k_handled k →
  wf_tid tid ∧ ∃ c' k', n_links n !! c' = Some k' ∧ tid ∈ k_queued k'.
Proof.
  intros Hr%net_reachable_ok Hk Hin. destruct (no_links _ Hr _ _ Hk) as [Hl Hn]. split; [|by apply Hn].
  pose proof (lk_handled _ (link_reachable_ok _ Hl)) as Hh. rewrite Forall_forall in Hh.
  apply Hh in Hin. cbn in Hin. unfold client_accepts in Hin. unfold wf_tid. lia.
Qed.

(** The batches received on a stream, as identifiers, against its queue. *)
Lemma got_queued n d c j cn :
  net_reachable n → n_coords n !! d = Some c → co_conns c !! j = Some cn →
  ∃ e, s_entries (co_server c) !! j = Some e ∧ mjoin (cn_got cn ++ cn_down cn) `sublist_of` mjoin (e_sent e) ∧
    e_queued e = mjoin (e_sent e) ++ e_held e ++ taken (e_pc e) ++ e_ch e ∧ e_queued e `sublist_of` co_done c.
Proof.
  intros Hr%net_reachable_ok Hc Hcn. pose proof (no_coords _ Hr _ _ Hc) as Hok.
  destruct (lookup_lt_is_Some_2 (s_entries (co_server c)) j) as [e He].
  { rewrite <- (ck_length _ _ _ _ Hok). by eapply lookup_lt_Some. }
  exists e. split; [done|]. split; [by eapply sublist_join, (ck_sent _ _ _ _ Hok)|].
  split; [|by eapply (ck_queued _ _ _ _ Hok)].
  assert (stream_ok e) as Hse by (eapply Forall_lookup_1; [apply (vo_entries _ (ck_server_ok Hok))|done]).
  by rewrite (so_fifo _ Hse), <- app_assoc.
Qed.

(** C26: A stream delivers in order and without repetition: what a client, be it
    a processor or a proxy, has received on a connection is a subsequence of what
    was broadcast to it while its channel had room, and what it has not received
    of that was lost in a failed send, is on its way, or is still at the server.
    What was broadcast to it is, in the same order, among what the coordinator
    broadcast. *)
Theorem delivered_in_order n d c j cn :
  net_reachable n → n_coords n !! d = Some c → co_conns c !! j = Some cn →
  ∃ e, s_entries (co_server c) !! j = Some e ∧
    mjoin (cn_got cn ++ cn_down cn) `sublist_of` mjoin (e_sent e) ∧
    e_queued e = mjoin (e_sent e) ++ e_held e ++ taken (e_pc e) ++ e_ch e ∧
    e_queued e `sublist_of` co_done c.
Proof. apply got_queued. Qed.

(** A decision that waits at a coordinator can arrive. Take a chain of streams
    whose senders have not returned and whose clients are connected and
    receiving, the last of them a processor, the others proxies that are the
    coordinators of the next stream: if there is room in the channels behind the
    first, then a trace identifier in the channel of the first stream, or in the
    batch of its sender, can be delivered to and handled by the processor, by
    steps of these streams and of the proxies' handlers alone. *)
Theorem decision_can_arrive n h rest c tid :
  net_reachable n → NoDup (h :: rest).*1 → route n h rest c → waits n h tid → wf_tid tid →
  ∃ ls n' k k' q, Forall (λ l, route_label (h :: rest) l = true) ls ∧ net_run ls n = Some n' ∧
    n_links n !! c = Some k ∧ n_links n' !! c = Some k' ∧ k_handled k' = k_handled k ++ q ∧ tid ∈ q.
Proof. intros Hr%net_reachable_ok. by apply route_run. Qed.
End props.

(** ** How often a stream carries a decision *)
Section rate.
Context `{D : Deployment} `{K : KeyStore} {HK : KeyStoreOk K}.

Record net_dedup (t0 : Time) (n : network) : Prop := {
  nd_now : t0 <= n_now n;
  nd_redis : dedup_ok Redis (n_now n) (n_redis n);
  nd_shared : ∀ t ttl tid, (t, ttl, tid) ∈ dd_log (n_redis n) → t0 <= t ∧ ∃ d, role_of d = Distributed ttl;
  nd_memory : ∀ d c, n_coords n !! d = Some c → dedup_ok Memory (n_now n) (co_memory c);
  nd_own : ∀ d c t ttl tid, n_coords n !! d = Some c → (t, ttl, tid) ∈ dd_log (co_memory c) →
    t0 <= t ∧ role_of d = Single ttl;
}.

(** The same clock and stores. *)
Definition same_stores (n n' : network) : Prop :=
  n_now n' = n_now n ∧ n_redis n' = n_redis n ∧
  ∀ d c', n_coords n' !! d = Some c' → ∃ c, n_coords n !! d = Some c ∧ co_memory c' = co_memory c.

Lemma same_stores_dedup t0 n n' : same_stores n n' → net_dedup t0 n → net_dedup t0 n'.
Proof.
  intros (En & Er & Hm) [H1 H2 H3 H4 H5]. split; rewrite ?En, ?Er; try done.
  - intros d c' (c & Hc & ->)%Hm. by eapply H4.
  - intros d c' t ttl tid (c & Hc & ->)%Hm. by eapply H5.
Qed.

Lemma same_stores_coord n d c c' : n_coords n !! d = Some c → co_memory c' = co_memory c → same_stores n (set_coord d c' n).
Proof.
  intros Hc E. split_and!; [done|done|].
  intros i x [(<- & <- & _)|[_ Hx]]%list_lookup_insert_Some; [by exists c|by exists x].
Qed.

Lemma same_stores_link n x k ids n0 : same_stores n n0 → same_stores n (set_link x k ids n0).
Proof.
  intros (E1 & E2 & H). destruct x as [i|i]; simpl; [done|]. destruct (n_coords n0 !! i) as [c|] eqn:Hc; [|done].
  split_and!; [done|done|]. destruct (H _ _ Hc) as (c0 & Hc0 & E0).
  intros m y [(<- & <- & _)|[_ Hy]]%list_lookup_insert_Some; [by exists c0|by apply H].
Qed.

Lemma with_broadcast_memory tid order p i c c' : with_broadcast tid order p i c = Some c' → co_memory c' = co_memory c.
Proof. unfold with_broadcast. destruct (server_exec _ _); [|done]. by intros [= <-]. Qed.

Lemma net_exec_stores l n n' :
  net_exec l n = Some n' →
  same_stores n n' ∨ (∃ t, l = NClock t) ∨
  ∃ d published tid n0, same_stores n n0 ∧ publish d published tid n0 = Some n'.
Proof.
  intros He. destruct l; cbn [net_exec] in He; exec_inv He; eauto 10;
    try (left; by eapply same_stores_coord); try (left; apply same_stores_link; by eapply same_stores_coord).
  - left. apply same_stores_link. split_and!; try done. intros i c Hc. by exists c.
  - right. right. eexists _, _, _, _. split; [|exact He]. by eapply same_stores_coord.
  - left. eapply same_stores_coord; [done|]. by eapply with_broadcast_memory.
  - left. eapply same_stores_coord; [done|]. by eapply with_broadcast_memory.
Qed.

(** The log of one notification more. *)
Lemma notify_log kd ttl stopping published now tid dd :
  ∃ l, dd_log (dedup_notify kd ttl stopping published now tid dd).2 = dd_log dd ++ l ∧ ∀ e, e ∈ l → e = (now, ttl, tid).
Proof.
  rewrite dedup_notify_cases. destruct stopping; [|case_decide; [destruct kd, published|]]; simpl; eexists;
    (split; [done|]); intros e He; by apply list_elem_of_singleton in He || set_solver.
Qed.

Lemma publish_dedup_ok t0 d published tid n n' : publish d published tid n = Some n' → net_dedup t0 n → net_dedup t0 n'.
Proof.
  unfold publish. destruct (n_coords n !! d) as [c|] eqn:Hc; [|done]. cbn [mbind option_bind].
  intros Hp Hn. destruct (id Hn) as [H1 H2 H3 H4 H5]. destruct (role_of d) as [ttl|ttl|p] eqn:Hr.
  - destruct (notify_log Memory ttl (co_stopping c) published (n_now n) tid (co_memory c)) as (l & El & Hl).
    pose proof (dedup_notify_ok Memory ttl (co_stopping c) published (n_now n) tid (co_memory c) (H4 _ _ Hc)) as Hd.
    destruct (dedup_notify Memory _ _ _ _ _ _) as [[out m] dd]. simpl in El, Hd. simplify_eq/=.
    split; simpl; try done.
    + intros i x [(<- & <- & _)|[_ Hx]]%list_lookup_insert_Some; [done|by eapply H4].
    + intros i x t e u [(<- & <- & _)|[_ Hx]]%list_lookup_insert_Some; simpl; [|by eapply H5].
      rewrite El, elem_of_app. intros [Hin|[= -> -> ->]%Hl]; [by eapply H5|done].
  - destruct (notify_log Redis ttl (co_stopping c) published (n_now n) tid (n_redis n)) as (l & El & Hl).
    pose proof (dedup_notify_ok Redis ttl (co_stopping c) published (n_now n) tid (n_redis n) H2) as Hd.
    destruct (dedup_notify Redis _ _ _ _ _ _) as [[out m] dd]. simpl in El, Hd. simplify_eq/=.
    assert (∀ i x, imap (λ i c, if is_distributed (role_of i) then with_inbox out c else c)
      (<[d := count_interesting m c]> (n_coords n)) !! i = Some x → ∃ y, n_coords n !! i = Some y ∧ co_memory x = co_memory y) as Hm.
    { intros i x. rewrite list_lookup_imap. destruct (<[d := count_interesting m c]> (n_coords n) !! i) as [y|] eqn:Hy; [|done].
      simpl. intros [= <-]. apply list_lookup_insert_Some in Hy as [(<- & <- & _)|[_ Hy]]; [exists c|exists y];
        (split; [done|]); by case_match. }
    split; simpl; try done.
    + intros t e u. rewrite El, elem_of_app. intros [Hin|[= -> -> ->]%Hl]; [by eapply H3|]. split; [done|by exists d].
    + intros i x (y & Hy & ->)%Hm. by eapply H4.
    + intros i x t e u (y & Hy & ->)%Hm. by eapply H5.
  - apply (same_stores_dedup t0 n); [|done]. destruct (co_stopping c); simplify_eq; [|by eapply same_stores_coord].
    split_and!; [done..|]. intros i y Hy. by exists y.
Qed.

Lemma net_exec_dedup t0 l n n' : net_exec l n = Some n' → net_dedup t0 n → net_dedup t0 n'.
Proof.
  intros He Hn. destruct (net_exec_stores _ _ _ He) as [Hs|[[t ->]|(d & published & tid & n0 & Hs & Hp)]].
  - by eapply same_stores_dedup.
  - cbn [net_exec] in He. destruct (Z.leb_spec (n_now n) t); simplify_eq. destruct Hn as [H1 H2 H3 H4 H5].
    split; simpl; eauto using dedup_ok_later. lia.
  - eapply publish_dedup_ok, same_stores_dedup; done.
Qed.

Lemma net_run_dedup p ss s t0 ls n : net_run ls (new_network p ss s t0) = Some n → net_dedup t0 n.
Proof.
  intros Hr. assert (net_dedup t0 (new_network p ss s t0)) as Hn.
  { split; simpl; [done|apply dedup_ok_new|set_solver| |].
    - intros d c (s' & -> & _)%list_lookup_fmap_Some. apply dedup_ok_new.
    - intros d c t ttl tid (s' & -> & _)%list_lookup_fmap_Some. simpl. set_solver. }
  revert Hr Hn. generalize (new_network p ss s t0). induction ls as [|l ls IH]; intros n0 Hr Hn; simpl in Hr; [by simplify_eq|].
  destruct (net_exec l n0) as [n1|] eqn:He; [|done]. eapply IH; [exact Hr|]. by eapply net_exec_dedup.
Qed.

(** C27: a stream carries a decision at most once in its time to live. Take a
    coordinator in single mode, or all those that share a Redis: if [ttl] is not
    more than their times to live, then whatever is notified, by how many
    processors, through how many proxies and however often, no stream carries
    the identifier of the same trace more than once at first and once more for
    every [ttl] that has passed since the deployment began. *)
Theorem deliveries_rate p ss s t0 ls n d c j cn tid ttl :
  net_run ls (new_network p ss s t0) = Some n → n_coords n !! d = Some c → co_conns c !! j = Some cn →
  match role_of d with Single ttl' => ttl <= ttl' | Distributed _ => ∀ i ttl', role_of i = Distributed ttl' → ttl <= ttl'
  | Upstream _ => False end → 0 <= ttl →
  (times_of tid (mjoin (cn_got cn ++ cn_down cn)) - 1) * ttl <= n_now n - t0.
Proof.
  intros Hr Hc Hcn Httl Hpos. pose proof (net_run_dedup _ _ _ _ _ _ Hr) as Hd.
  pose proof (net_run_reachable _ _ _ Hr (net_new p ss s t0)) as Hreach.
  destruct (got_queued _ _ _ _ _ Hreach Hc Hcn) as (e & _ & Hgot & Eq & Hdone).
  assert (mjoin (cn_got cn ++ cn_down cn) ⊆+ co_done c) as Hsub.
  { apply sublist_submseteq. etrans; [exact Hgot|]. etrans; [|exact Hdone]. rewrite Eq. by apply sublist_inserts_r. }
  assert (∀ l : list (Time * Duration * bytes), apart l → co_done c ⊆+ l.*2 →
    (∀ t d, (t, d, tid) ∈ l → t0 <= t <= n_now n ∧ ttl <= d) →
    (times_of tid (mjoin (cn_got cn ++ cn_down cn)) - 1) * ttl <= n_now n - t0) as Hrate.
  { intros l Ha Hl He. pose proof (times_of_le tid _ _ (transitivity Hsub Hl)) as Hle. pose proof (nd_now _ _ Hd).
    assert (0 <= times_of tid (mjoin (cn_got cn ++ cn_down cn))) by (unfold times_of; lia).
    destruct (apart_rate tid ttl t0 (n_now n) l Ha ltac:(done) He); nia. }
  pose proof (ck_source _ _ _ _ (no_coords _ (net_reachable_ok _ Hreach) _ _ Hc)) as Hsrc.
  destruct (role_of d) as [ttl'|ttl'|] eqn:Hrole; [| |done]; simpl in Hsrc; destruct Hsrc as [_ Hsrc].
  - apply (Hrate (dd_log (co_memory c))).
    + eapply dk_apart, Hd, Hc.
    + change ((dd_log (co_memory c)).*2) with (logged (co_memory c)). rewrite <- Hsrc. by apply submseteq_inserts_r.
    + intros t d' Hin. destruct (nd_own _ _ Hd _ _ _ _ _ Hc Hin) as [? Hr']. pose proof (dk_past _ _ _ (nd_memory _ _ Hd _ _ Hc) _ _ _ Hin).
      rewrite Hrole in Hr'. simplify_eq. lia.
  - apply (Hrate (dd_log (n_redis n))).
    + eapply dk_apart, Hd.
    + apply sublist_submseteq. etrans; [|exact Hsrc]. by apply sublist_inserts_r.
    + intros t d' Hin. destruct (nd_shared _ _ Hd _ _ _ Hin) as [? [i Hi]]. pose proof (dk_past _ _ _ (nd_redis _ _ Hd) _ _ _ Hin).
      specialize (Httl i d' Hi). lia.
Qed.
End rate.

(** ** A coordinator with a proxy, and a processor at each *)

Definition demo_deployment : Deployment := {|
  role_of d := match d with 0%nat => Single 10 | 1%nat => Upstream 0 | _ => Distributed 10 end;
  coordinator_of c := c;
|}.

#[local] Existing Instance demo_deployment.
#[local] Existing Instance Simple.store.

Definition demo_connects : list net_label :=
  [NLink (Prox 1) KLoop; NConnect (Prox 1) "p"; NLink (Proc 0) KLoop; NConnect (Proc 0) "a";
   NLink (Proc 1) KLoop; NConnect (Proc 1) "b"].

(** Processor 0 decides, and the coordinator's stream to the proxy has the
    identifier in its batch. *)
Definition demo_decides : list net_label :=
  [NLink (Proc 0) (KNotify (demo_tid x0a)); NSend (Proc 0); NNotify 0 1 true; NBroadcast 0 0 [1%nat; 0%nat];
   NServer 0 (VTake 0)].

Definition demo_arrives : list net_label :=
  [NServer 0 (VTimer 0); NBatch 0 0; NDeliver 0 0; NBroadcast 1 0 [0%nat]; NServer 1 (VTake 0); NServer 1 (VTimer 0);
   NBatch 1 0; NDeliver 1 0].

(** Later it is notified again, by the other processor. *)
Definition demo_again : list net_label :=
  [NClock 11; NLink (Proc 1) (KNotify (demo_tid x0a)); NSend (Proc 1); NNotify 1 0 true; NSend (Prox 1); NNotify 0 0 true;
   NBroadcast 0 0 [1%nat; 0%nat]; NServer 0 (VTake 0); NServer 0 (VTimer 0); NBatch 0 0; NDeliver 0 0].

Definition demo_start : network := new_network 2 [∅; ∅] ∅ 0.
Definition demo_net (ls : list net_label) : network := default demo_start (net_run ls demo_start).
Definition runs (ls : list net_label) : bool := match net_run ls demo_start with Some _ => true | None => false end.

Lemma demo_net_run ls : runs ls = true → net_run ls demo_start = Some (demo_net ls).
Proof. unfold runs, demo_net. by destruct (net_run ls demo_start). Qed.

Lemma demo_net_reachable ls : runs ls = true → net_reachable (demo_net ls).
Proof. intros Hr. apply (net_run_reachable ls demo_start); [by apply demo_net_run|constructor]. Qed.

Definition handled_at (n : network) (c : nat) : list bytes :=
  match n_links n !! c with Some k => k_handled k | None => [] end.

Definition got_at (n : network) (h : nat * nat) : list (list bytes) :=
  match n_coords n !! h.1 with
  | Some c => match co_conns c !! h.2 with Some cn => cn_got cn ++ cn_down cn | None => [] end
  | None => []
  end.

Lemma got_at_conn n h l :
  got_at n h = l → l ≠ [] →
  ∃ c cn, n_coords n !! h.1 = Some c ∧ co_conns c !! h.2 = Some cn ∧ cn_got cn ++ cn_down cn = l.
Proof.
  unfold got_at. destruct (n_coords n !! h.1) as [c|]; [|by intros <-].
  destruct (co_conns c !! h.2) as [cn|] eqn:Hcn; [|by intros <-]. intros Hl _. by exists c, cn.
Qed.

Lemma no_decision_invented_witness :
  let n := demo_net (demo_connects ++ demo_decides ++ demo_arrives) in
  handled_at n 1 = [demo_tid x0a] ∧ wf_tid (demo_tid x0a) ∧ ∃ c' k', n_links n !! c' = Some k' ∧ demo_tid x0a ∈ k_queued k'.
Proof.
  set (ls := demo_connects ++ demo_decides ++ demo_arrives). cbv zeta.
  assert (net_reachable (demo_net ls)) as Hr by (apply demo_net_reachable; vm_compute; reflexivity).
  assert (handled_at (demo_net ls) 1 = [demo_tid x0a]) as Hh by (vm_compute; reflexivity). pose proof Hh as Hh'.
  unfold handled_at in Hh'. destruct (n_links (demo_net ls) !! 1%nat) as [k|] eqn:Hk; [|discriminate].
  assert (demo_tid x0a ∈ k_handled k) as Hin by (rewrite Hh'; left).
  exact (conj Hh (no_decision_invented (demo_net ls) 1 k (demo_tid x0a) Hr Hk Hin)).
Defined.

Lemma delivered_in_order_witness :
  let n := demo_net (demo_connects ++ demo_decides ++ demo_arrives) in
  ∃ c cn e, n_coords n !! 1%nat = Some c ∧ co_conns c !! 0%nat = Some cn ∧ s_entries (co_server c) !! 0%nat = Some e ∧
    cn_got cn ++ cn_down cn = [[demo_tid x0a]] ∧ mjoin (cn_got cn ++ cn_down cn) `sublist_of` mjoin (e_sent e).
Proof.
  set (ls := demo_connects ++ demo_decides ++ demo_arrives). cbv zeta.
  assert (net_reachable (demo_net ls)) as Hr by (apply demo_net_reachable; vm_compute; reflexivity).
  assert (got_at (demo_net ls) (1, 0)%nat = [[demo_tid x0a]]) as Hg by (vm_compute; reflexivity).
  destruct (got_at_conn _ _ _ Hg ltac:(discriminate)) as (c & cn & Hc & Hcn & Hl). cbn [fst snd] in Hc, Hcn.
  destruct (delivered_in_order (demo_net ls) 1 c 0 cn Hr Hc Hcn) as (e & He & Hs & _).
  exists c, cn, e. exact (conj Hc (conj Hcn (conj He (conj Hl Hs)))).
Defined.

(** What the theorem asks of the two streams, in a form that can be computed. *)
Definition ready_b (n : network) (h : nat * nat) (x : client) : bool :=
  match n_coords n !! h.1 with
  | Some c =>
      match co_conns c !! h.2, s_entries (co_server c) !! h.2, get_link x n with
      | Some cn, Some e, Some k =>
          bool_decide (cn_client cn = x) && match e_pc e with SReturned => false | _ => true end &&
          match k_pc k with KOpen true _ => true | _ => false end && bool_decide (n_current n !! x = Some h.2)
      | _, _, _ => false
      end
  | None => false
  end.

Lemma ready_b_ready n h x : ready_b n h x = true → ready n h x.
Proof.
  unfold ready_b, ready. intros Hr.
  destruct (n_coords n !! h.1) as [c|] eqn:E1; [|discriminate]. destruct (co_conns c !! h.2) as [cn|] eqn:E2; [|discriminate].
  destruct (s_entries (co_server c) !! h.2) as [e|] eqn:E3; [|discriminate]. destruct (get_link x n) as [k|] eqn:E4; [|discriminate].
  apply andb_true_iff in Hr as [Hr Hc%bool_decide_eq_true]. apply andb_true_iff in Hr as [Hr Hk].
  apply andb_true_iff in Hr as [Hx%bool_decide_eq_true Hpc].
  destruct (k_pc k) as [| |[] failed| |] eqn:Ek; try discriminate. exists c, cn, e, k, failed.
  split_and!; try done. intros E. by rewrite E in Hpc.
Qed.

Definition with_room_b (n : network) (h : nat * nat) : bool :=
  match n_coords n !! h.1 with
  | Some c => match s_entries (co_server c) !! h.2 with
              | Some e => registered (co_server c) h.2 && has_room e | None => false end
  | None => false
  end.

Lemma with_room_b_room n h : with_room_b n h = true → with_room n h.
Proof.
  unfold with_room_b, with_room. destruct (n_coords n !! h.1) as [c|]; [|discriminate].
  destruct (s_entries (co_server c) !! h.2) as [e|] eqn:He; [|discriminate]. intros [H1 H2]%andb_true_iff. by exists c, e.
Qed.

Definition waits_b (n : network) (h : nat * nat) (tid : bytes) : bool :=
  match n_coords n !! h.1 with
  | Some c => match s_entries (co_server c) !! h.2 with
              | Some e => bool_decide (tid ∈ taken (e_pc e) ++ e_ch e) | None => false end
  | None => false
  end.

Lemma waits_b_waits n h tid : waits_b n h tid = true → waits n h tid.
Proof.
  unfold waits_b, waits. destruct (n_coords n !! h.1) as [c|]; [|discriminate].
  destruct (s_entries (co_server c) !! h.2) as [e|] eqn:He; [|discriminate]. intros H%bool_decide_eq_true. by exists c, e.
Qed.

Lemma decision_can_arrive_witness :
  let n := demo_net (demo_connects ++ demo_decides) in
  ∃ ls n' k k' q, Forall (λ l, route_label [(0, 0); (1, 0)]%nat l = true) ls ∧ net_run ls n = Some n' ∧
    n_links n !! 1%nat = Some k ∧ n_links n' !! 1%nat = Some k' ∧ k_handled k' = k_handled k ++ q ∧ demo_tid x0a ∈ q.
Proof.
  set (ls := demo_connects ++ demo_decides). cbv zeta.
  assert (net_reachable (demo_net ls)) as Hr by (apply demo_net_reachable; vm_compute; reflexivity).
  assert (ready (demo_net ls) (0, 0)%nat (Prox 1)) as H1 by (apply ready_b_ready; vm_compute; reflexivity).
  assert (ready (demo_net ls) (1, 0)%nat (Proc 1)) as H2 by (apply ready_b_ready; vm_compute; reflexivity).
  assert (with_room (demo_net ls) (1, 0)%nat) as H3 by (apply with_room_b_room; vm_compute; reflexivity).
  assert (waits (demo_net ls) (0, 0)%nat (demo_tid x0a)) as H4 by (apply waits_b_waits; vm_compute; reflexivity).
  assert (NoDup [0%nat; 1%nat]) as H5 by (apply (bool_decide_unpack (NoDup [0%nat; 1%nat])); vm_compute; exact I).
  exact (decision_can_arrive (demo_net ls) (0, 0)%nat [(1, 0)%nat] 1 (demo_tid x0a) Hr H5 (conj H1 (conj H3 H2)) H4 eq_refl).
Defined.

(** The second notification comes when the first has expired: the stream to the
    proxy carries the trace twice. *)
Lemma deliveries_rate_witness :
  let n := demo_net (demo_connects ++ demo_decides ++ demo_arrives ++ demo_again) in
  got_at n (0, 0)%nat = [[demo_tid x0a]; [demo_tid x0a]] ∧ (2 - 1) * 10 <= n_now n - 0.
Proof.
  set (ls := demo_connects ++ demo_decides ++ demo_arrives ++ demo_again). cbv zeta.
  assert (net_run ls demo_start = Some (demo_net ls)) as Hr by (apply demo_net_run; vm_compute; reflexivity).
  assert (got_at (demo_net ls) (0, 0)%nat = [[demo_tid x0a]; [demo_tid x0a]]) as Hg by (vm_compute; reflexivity).
  destruct (got_at_conn _ _ _ Hg ltac:(discriminate)) as (c & cn & Hc & Hcn & Hl). cbn [fst snd] in Hc, Hcn.
  pose proof (deliveries_rate (HK := Simple.store_ok) 2 [∅; ∅] ∅ 0 ls (demo_net ls) 0 c 0 cn (demo_tid x0a) 10
    Hr Hc Hcn (Z.le_refl 10) ltac:(lia)) as H. rewrite Hl in H. exact (conj Hg H).
Defined.
