(* ===== verification/Fleet.v ===== *)
(** * Processors with their policies, their buffers and their coordinators

    The whole of a deployment: processors as in System.v, whose calls of
    [coord.Notify] go into the links of the network of Network.v, and whose
    [onDecision] is called with the identifiers the links' receivers hand on. All
    processors have the same buffer configuration, each has its own policies,
    file and clock. *)

From S2P Require Import Prelude Bytes Format Interest InterestProps Writer Sweeper SpanBuffer BufferInv BufferSpec BufferFaults.
From S2P Require Import PData Evaluator EvalProps Split Processor System PubSub Server Link Dedup Network.

Section fleet.
Context {cfg : BufCfg} {Hok : BufCfgOk cfg} {F : FileFaults} `{L : Libs} {HL : LibsOk L} `{D : Deployment} `{K : KeyStore}.
Variable MarshalTraces : Traces → option bytes.

(** The link with the index of a processor is the one [Start] makes. [fl_heard]
    says, for each processor, which of the identifiers that its receivers accepted
    its [onDecision] was called with, by their positions in [k_handled]. A
    receiver of a former connection and that of the current one may run at the
    same time, so that the calls need not be in this order. *)
Record fleet := MkFleet {
  fl_procs : list system;
  fl_net : network;
  fl_heard : list (gset nat);
}.

Inductive fleet_label :=
| FProc (c : nat) (l : sys_label)   (* a step of a processor, with the notification it makes *)
| FHandle (c i : nat)               (* a receiver calls onDecision *)
| FNet (l : net_label).

(** A link runs once its processor has started; what it is given comes from the
    processor. *)
Definition net_allowed (procs : list system) (l : net_label) : bool :=
  match l with
  | NLink (Proc _) (KNotify _) => false
  | NLink (Proc c) KLoop => match procs !! c with Some y => p_coord (y_proc y) | None => false end
  | _ => true
  end.

(** The calls of [Notify] a step of a processor made. *)
Definition new_notified (y y' : system) : list TraceID :=
  drop (length (p_notified (y_proc y))) (p_notified (y_proc y')).

Definition fleet_exec (l : fleet_label) (f : fleet) : option fleet :=
  match l with
  | FProc c (YDecision _) => None
  | FProc c l =>
      y ← fl_procs f !! c;
      y' ← sys_exec MarshalTraces l y;
      n ← net_run ((λ tid, NLink (Proc c) (KNotify tid)) <$> new_notified y y') (fl_net f);
      Some (MkFleet (<[c := y']> (fl_procs f)) n (fl_heard f))
  | FHandle c i =>
      y ← fl_procs f !! c; k ← n_links (fl_net f) !! c; h ← fl_heard f !! c;
      tid ← k_handled k !! i;
      y' ← sys_exec MarshalTraces (YDecision tid) y;
      if decide (i ∈ h) then None
      else Some (MkFleet (<[c := y']> (fl_procs f)) (fl_net f) (<[c := {[i]} ∪ h]> (fl_heard f)))
  | FNet l =>
      if net_allowed (fl_procs f) l then
        n ← net_exec l (fl_net f); Some (MkFleet (fl_procs f) n (fl_heard f))
      else None
  end.

Definition fleet_label_ok (l : fleet_label) : Prop :=
  match l with FProc _ l => label_ok l | _ => True end.

Fixpoint fleet_run (ls : list fleet_label) (f : fleet) : option fleet :=
  match ls with [] => Some f | l :: ls => f' ← fleet_exec l f; fleet_run ls f' end.

(** What a processor starts with: the contents of its file, its clock and its
    policies. *)
Record setting := MkSetting { st_file : bytes; st_now : Time; st_chain : Chain }.

(** [stores] and [s] are what the coordinators' memories and Redis hold at first. *)
Definition new_fleet (l : list setting) (stores : list Store) (s : Store) (now : Time) : fleet :=
  MkFleet ((λ st, init_system (st_file st) (st_now st) (st_chain st)) <$> l)
    (new_network (length l) stores s now) (replicate (length l) ∅).

Definition setting_ok (st : setting) : Prop := len (st_file st) = maxBytes ∧ Forall evaluator_ok (st_chain st).

Inductive fleet_reachable : fleet → Prop :=
| fleet_new l stores s now : Forall setting_ok l → fleet_reachable (new_fleet l stores s now)
| fleet_step l f f' :
    fleet_reachable f → fleet_label_ok l → fleet_exec l f = Some f' → fleet_reachable f'.

Lemma fleet_run_reachable ls f f' :
  Forall fleet_label_ok ls → fleet_run ls f = Some f' → fleet_reachable f → fleet_reachable f'.
Proof.
  intros Hls. revert f. induction Hls as [|l ls Hl _ IH]; intros f Hr Hf; simpl in Hr; [by simplify_eq|].
  destruct (fleet_exec l f) as [f1|] eqn:He; [|done]. apply (IH f1 Hr). by eapply fleet_step.
Qed.

Lemma fleet_run_app l1 l2 f f' : fleet_run l1 f = Some f' → fleet_run (l1 ++ l2) f = fleet_run l2 f'.
Proof.
  revert f. induction l1 as [|l l1 IH]; intros f Hr; simpl in *; [by simplify_eq|].
  destruct (fleet_exec l f) as [f1|]; [|done]. by apply IH.
Qed.
End fleet.
