(* ===== verification/FleetProps.v ===== *)
(** * A deployment: what is proved

    From end to end: whatever a processor forwards or delivers is of a trace
    that the policies of some processor sampled, on spans that it received; and a
    decision can be carried from the coordinator into a processor's buffer. *)

From S2P Require Import Prelude Bytes Format Interest InterestProps Writer Sweeper SpanBuffer BufferInv BufferSpec BufferFaults.
From S2P Require Import PData Evaluator EvalDemo EvalProps Split Processor Demo PageProps System SystemProps.
From S2P Require Import PubSub Server Link Dedup Network NetworkInv Routes NetworkProps Fleet.

(** ** What the buffer knows, and delivers *)
Section buffer.
Context {cfg : BufCfg} {Hok : BufCfgOk cfg}.

Definition known (tid : TraceID) (b : SpanBuffer) : Prop := is_Some (Interest.abs (b_interest b) !! tid).

Lemma known_has tid now b : HasInterest decisionWait tid now (b_interest b) = true → known tid b.
Proof. rewrite HasInterest_abs. unfold known. by destruct (Interest.abs (b_interest b) !! tid). Qed.

Lemma known_for_span tid ins b : hasInterestForSpanRLocked decisionWait tid ins (b_interest b) = true → known tid b.
Proof. rewrite hasInterestForSpan_abs. unfold known. by destruct (Interest.abs (b_interest b) !! tid). Qed.

Lemma known_add tid u b : ctl b → known u (buf_AddInterest tid b) → u = tid ∨ known u b.
Proof.
  intros Hctl. destruct (ctl_interest _ Hctl) as [Hwf _]. unfold known. simpl. rewrite AddInterest_abs by done.
  unfold spec_add, spec_prune. rewrite lookup_insert, map_lookup_filter. intros [t Ht]. case_decide; [by left|right].
  destruct (Interest.abs (b_interest b) !! u); [by eexists|done].
Qed.

Lemma page_iter_match used press file rHead sc b sc' again tid d :
  page_iter (View (b_now b) (b_interest b)) used press file rHead sc = (sc', again) →
  EMatch tid d ∈ sc_events sc' → EMatch tid d ∈ sc_events sc ∨ known tid b.
Proof.
  unfold page_iter. simpl. intros He Hin.
  destruct (hasInterestForSpanRLocked _ _ _ _) eqn:Hi in He; [apply known_for_span in Hi|];
    repeat case_match; simplify_eq/=; auto; set_solver.
Qed.

(** A delivery is made only of a trace the buffer knows a decision about. *)
Lemma match_known l b b' tid d :
  exec l b = Some b' → EMatch tid d ∈ all_events b' → EMatch tid d ∈ all_events b ∨ known tid b.
Proof.
  intros He Hin. destruct (decide_internal l) as [Hl|Hl]; [|left; by rewrite <- (client_events l b b')].
  assert (all_events b' = all_events b → EMatch tid d ∈ all_events b ∨ known tid b) as Hsame by (intros <-; by left).
  destruct l; try (by exfalso; apply Hl);
    try (apply Hsame; cbn [exec] in He; repeat (case_match; try done); by simplify_eq); cbn [exec] in He.
  2, 3: (apply Hsame; unfold sweep_selects in He; destruct (s_pc (b_sweeper b)) eqn:Hpc; try done;
    repeat case_match; simplify_eq; unfold all_events; simpl; by rewrite Hpc).
  unfold sweep, all_events in *. destruct (s_pc (b_sweeper b)) as [| | |press used sc|sc| | |] eqn:Hpc; try done.
  - repeat case_match; simplify_eq/=; auto.
  - simplify_eq/=. auto.
  - destruct (_ <=? _); [|simplify_eq/=; auto].
    destruct (page_iter _ _ _ _ _ _) as [sc' again] eqn:Hit. simplify_eq.
    assert (EMatch tid d ∈ b_events b ++ sc_events sc') as Hin' by (by destruct again).
    apply elem_of_app in Hin' as [?|Hin']; [set_solver|].
    destruct (page_iter_match _ _ _ _ _ _ _ _ _ _ Hit Hin'); set_solver.
  - simplify_eq. left. unfold sweep_back in Hin. repeat case_match; simplify_eq/=; set_solver.
  - simplify_eq/=. auto.
Qed.
End buffer.

Section fleet.
Context {cfg : BufCfg} {Hok : BufCfgOk cfg} {F : FileFaults} `{L : Libs} {HL : LibsOk L} `{D : Deployment} `{K : KeyStore}.
Variable MarshalTraces : Traces → option bytes.
Abbreviation fleet_exec := (fleet_exec MarshalTraces).
Abbreviation fleet_run := (fleet_run MarshalTraces).
Abbreviation fleet_reachable := (fleet_reachable MarshalTraces).

(** ** The policies' answers *)

Definition decision_of (t : Traces) (c : Chain) : Decision := (chain_spec t c).1.

Definition keeps (d : Decision) : Prop := d = Sampled ∨ d = SampledLocal.

(** A processor's policies mean the same as before. *)
Definition same_policies (p p' : processor (B := SpanBuffer)) : Prop :=
  Forall evaluator_ok (p_eval p') ∧ ∀ t, chain_spec t (p_eval p') = chain_spec t (p_eval p).

Lemma Write_frame req b : b_interest (Write req b).2 = b_interest b ∧ all_events (Write req b).2 = all_events b.
Proof. unfold Write. repeat case_match; done. Qed.

(** ** One processor *)

(** The processor received, in one batch, spans of the trace which its policies
    answer [d] for. *)
Definition sampled_here (y : system) (tid : TraceID) (d : Decision) : Prop :=
  ∃ td, td ∈ y_received y ∧ one_trace tid (restrict tid td) ∧ decision_of (restrict tid td) (p_eval (y_proc y)) = d.

(** Its reasons to keep a trace: its own policies, or what it [heard]. *)
Definition excuse (heard : TraceID → Prop) (y : system) (tid : TraceID) : Prop :=
  heard tid ∨ ∃ d, keeps d ∧ sampled_here y tid d.

(** The same of a call: its output, and the trace it is about to announce. *)
Record call_sound (heard : TraceID → Prop) (y : system) (c : call) : Prop := {
  cs_out : ∀ x, x ∈ all_spans (c_out c) → excuse heard y (span_TraceID x);
  cs_pc : match c_pc c with
          | CAdd local e | CWake local e => sampled_here y e.1 (if local then SampledLocal else Sampled)
          | CNotify e => sampled_here y e.1 Sampled
          | _ => True
          end;
}.

Record sys_sound (heard : TraceID → Prop) (y : system) : Prop := {
  ss_calls : ∀ c, c ∈ y_calls y → call_sound heard y c;
  ss_policies : Forall evaluator_ok (p_eval (y_proc y));
  ss_known : ∀ u, known u (y_buf y) → excuse heard y u;
  ss_match : ∀ u d, EMatch u d ∈ all_events (y_buf y) → excuse heard y u;
  ss_forwarded : ∀ x, x ∈ all_spans (y_forwarded y) → excuse heard y (span_TraceID x);
  ss_notified : ∀ u, u ∈ p_notified (y_proc y) → sampled_here y u Sampled;
}.

Lemma sampled_mono y y' tid d :
  same_policies (y_proc y) (y_proc y') → y_received y ⊆ y_received y' → sampled_here y tid d → sampled_here y' tid d.
Proof.
  intros [_ Hs] Hsub (td & Hin & Hone & Hd). exists td. split; [by apply Hsub|]. split; [done|].
  unfold decision_of in *. by rewrite Hs.
Qed.

Lemma excuse_mono (h h' : TraceID → Prop) y y' tid :
  same_policies (y_proc y) (y_proc y') → y_received y ⊆ y_received y' → (∀ u, h u → h' u) →
  excuse h y tid → excuse h' y' tid.
Proof. intros Hp Hsub Hh [?|(d & Hk & Hs)]; [left; auto|right]. exists d. split; [done|]. by eapply sampled_mono. Qed.

Lemma same_policies_refl p : Forall evaluator_ok (p_eval p) → same_policies p p.
Proof. by split. Qed.

Lemma call_sound_mono (h h' : TraceID → Prop) y y' c :
  same_policies (y_proc y) (y_proc y') → y_received y ⊆ y_received y' → (∀ u, h u → h' u) →
  call_sound h y c → call_sound h' y' c.
Proof.
  intros Hp Hr Hh [Ho Hpc]. split; [intros x Hx; by eapply excuse_mono, Ho|].
  destruct (c_pc c); try done; by eapply sampled_mono.
Qed.

(** A step keeps the reasons if it adds nothing without one. *)
Lemma sound_intro h y y' :
  sys_sound h y → same_policies (y_proc y) (y_proc y') → y_received y ⊆ y_received y' →
  (∀ c, c ∈ y_calls y' → c ∈ y_calls y ∨ call_sound h y' c) →
  (∀ u, known u (y_buf y') → known u (y_buf y) ∨ excuse h y' u) →
  (∀ u d, EMatch u d ∈ all_events (y_buf y') → EMatch u d ∈ all_events (y_buf y) ∨ known u (y_buf y)) →
  (∀ x, x ∈ all_spans (y_forwarded y') → x ∈ all_spans (y_forwarded y) ∨ excuse h y' (span_TraceID x)) →
  (∀ u, u ∈ p_notified (y_proc y') → u ∈ p_notified (y_proc y) ∨ sampled_here y' u Sampled) →
  sys_sound h y'.
Proof.
  intros [H0 H1 H2 H3 H4 H5] Hp Hr Hc Hk Hm Hf Hn.
  pose proof (λ u, excuse_mono h h y y' u Hp Hr (λ _ x, x)) as Hmono.
  split; [|apply Hp|..].
  - intros c [?|?]%Hc; [|done]. eapply call_sound_mono; eauto.
  - intros u [?|?]%Hk; auto.
  - intros u d [?|?]%Hm; eauto.
  - intros x [?|?]%Hf; auto.
  - intros u [?|?]%Hn; [|done]. eapply sampled_mono; eauto.
Qed.

(** The entry of a call comes from a batch. *)
Lemma call_entry y c e :
  sys_inv MarshalTraces y → c ∈ y_calls y → e ∈ c_entries c →
  ∃ td, td ∈ y_received y ∧ e.2 = restrict e.1 td ∧ one_trace e.1 e.2.
Proof.
  intros Hi Hc He. destruct (si_from _ _ Hi e) as (td & Htd & [Ht Hone]%group_entry).
  - apply elem_of_app. left. unfold todo. apply list_elem_of_join. exists (c_entries c). split; [done|].
    apply list_elem_of_fmap. by exists c.
  - exists td. split; [exact Htd|]. split; [exact Ht|exact Hone].
Qed.

(** A transition of the call [c] in a state that is sound. *)
Record transition (h : TraceID → Prop) (y : system) (cs : list call) (c : call) (cs' : list call)
    (c' : call) (p : processor (B := SpanBuffer)) (o : option (bool * (TraceID * Traces))) : Prop := {
  tr_reachable : sys_reachable MarshalTraces y;
  tr_sound : sys_sound h y;
  tr_calls : y_calls y = cs ++ c :: cs';
  tr_step : call_step MarshalTraces c (y_proc y) = Some (c', p, o);
}.

Section transition.
Context {h y cs c cs' c' p o} (Ht : transition h y cs c cs' c' p o).
Abbreviation y' := (record_outcome o p (cs ++ c' :: cs') y).

Lemma sound_record :
  same_policies (y_proc y) p →
  (∀ u, known u (p_buf p) → known u (y_buf y) ∨ excuse h y' u) → all_events (p_buf p) = all_events (y_buf y) →
  (∀ u, u ∈ p_notified p → u ∈ p_notified (y_proc y) ∨ sampled_here y' u Sampled) → call_sound h y' c' →
  sys_sound h y'.
Proof.
  intros Hp Hk He Hn Hc'. apply (sound_intro h y); [apply Ht|done|done| |exact Hk| |by left|exact Hn].
  - simpl. rewrite (tr_calls _ _ _ _ _ _ _ _ Ht). intros c0. set_solver.
  - intros u d. unfold y_buf at 1. simpl. rewrite He. by left.
Qed.

Lemma transition_call : c ∈ y_calls y.
Proof. rewrite (tr_calls _ _ _ _ _ _ _ _ Ht). set_solver. Qed.

Lemma excuse_later u : same_policies (y_proc y) p → excuse h y u → excuse h y' u.
Proof. intros Hp. by apply excuse_mono. Qed.

(** The spans of an entry are excused if its trace is. *)
Lemma excuse_out e : e ∈ c_entries c → same_policies (y_proc y) p → excuse h y' e.1 →
  ∀ x, x ∈ all_spans (c_out c ++ e.2) → excuse h y' (span_TraceID x).
Proof.
  intros He Hp Hex x. rewrite all_spans_app, elem_of_app. intros [Hx|Hx].
  - apply excuse_later; [done|]. exact (cs_out _ _ _ (ss_calls _ _ (tr_sound _ _ _ _ _ _ _ _ Ht) _ transition_call) x Hx).
  - destruct (call_entry _ _ _ (sys_reachable_inv _ _ (tr_reachable _ _ _ _ _ _ _ _ Ht)) transition_call He) as (td & _ & _ & Hone & _).
    rewrite Forall_forall in Hone. by rewrite (Hone x Hx).
Qed.

End transition.

Lemma sound_check h y cs c cs' c' p o :
  transition h y cs c cs' c' p o → c_pc c = CLoop → sys_sound h (record_outcome o p (cs ++ c' :: cs') y).
Proof.
  intros Ht Epc. pose proof (transition_call Ht) as Hin. destruct (id Ht) as [Hy Hs Hcs Hst]. pose proof (same_policies_refl _ (ss_policies _ _ Hs)) as Hrefl.
  pose proof (ss_calls _ _ Hs _ Hin) as [Ho _].
  unfold call_step in Hst. rewrite Epc in Hst. destruct (c_todo c) as [|e l] eqn:El; [done|].
  assert (e ∈ c_entries c) as He by (unfold c_entries; rewrite Epc, El; by left).
  destruct (buf_HasInterest e.1 (p_buf (y_proc y))) eqn:Hh; simplify_eq;
    (apply (sound_record Ht); [done|auto|done|auto|split; [|done]]).
  - apply (excuse_out Ht); [done|done|]. apply excuse_later; [done|]. apply known_has in Hh. by apply (ss_known _ _ Hs).
  - intros x Hx. apply excuse_later; auto.
Qed.

Lemma sound_eval h y cs c cs' c' p o e :
  transition h y cs c cs' c' p o → c_pc c = CEval e → sys_sound h (record_outcome o p (cs ++ c' :: cs') y).
Proof.
  intros Ht Epc. pose proof (transition_call Ht) as Hin. destruct (id Ht) as [Hy Hs Hcs Hst]. pose proof (ss_policies _ _ Hs) as Hev. pose proof (ss_calls _ _ Hs _ Hin) as [Ho _].
  assert (e ∈ c_entries c) as He by (unfold c_entries; rewrite Epc; by left).
  destruct (call_entry _ _ _ (sys_reachable_inv _ _ Hy) Hin He) as (td & Htd & Htr & Hone).
  destruct (chain_loop_spec e.2 _ Hev) as (Hd & Hev' & Heq). fold (Chain_Evaluate e.2 (p_eval (y_proc y))) in Hd, Hev', Heq.
  unfold call_step in Hst. rewrite Epc in Hst.
  destruct (Chain_Evaluate e.2 (p_eval (y_proc y))) as [[d err] ev]. cbn [fst snd] in *.
  set (p1 := MkProcessor (p_buf (y_proc y)) ev (p_coord (y_proc y)) (p_notified (y_proc y))) in *.
  assert (same_policies (y_proc y) p1) as Hsame
    by (split; [done|]; intros t'; unfold chain_spec; cbn [p_eval p1]; by rewrite Heq).
  assert (p = p1) as Ep by (destruct d; repeat case_match; by simplify_eq).
  assert (same_policies (y_proc y) p) as Hsp by (by rewrite Ep).
  assert (sampled_here (record_outcome o p (cs ++ c' :: cs') y) e.1 d) as Hhere.
  { apply (sampled_mono y); [done|done|]. exists td. rewrite <- Htr. split; [done|]. split; [done|].
    unfold decision_of. by rewrite <- Hd. }
  assert (keeps d → ∀ x, x ∈ all_spans (c_out c ++ e.2) → excuse h (record_outcome o p (cs ++ c' :: cs') y) (span_TraceID x)) as Hkeep
    by (intros Hk; apply (excuse_out Ht); [done|done|right; eauto]).
  assert (∀ x, x ∈ all_spans (c_out c) → excuse h (record_outcome o p (cs ++ c' :: cs') y) (span_TraceID x)) as Hold by (intros; apply excuse_later; auto).
  apply (sound_record Ht); rewrite ?Ep; auto.
  unfold keeps in Hkeep. destruct d; repeat case_match; simplify_eq; (split; cbn [c_out c_pc]; [|auto]); auto.
Qed.

Lemma sound_add h y cs c cs' c' p o local e :
  transition h y cs c cs' c' p o → c_pc c = CAdd local e → sys_sound h (record_outcome o p (cs ++ c' :: cs') y).
Proof.
  intros Ht Epc. pose proof (transition_call Ht) as Hin. destruct (id Ht) as [Hy Hs Hcs Hst]. pose proof (same_policies_refl _ (ss_policies _ _ Hs)) as Hrefl.
  pose proof (ss_calls _ _ Hs _ Hin) as [Ho Hpc]. rewrite Epc in Hpc.
  pose proof (io_reachable_ctl _ (si_buf _ _ (sys_reachable_inv _ _ Hy))) as Hctl.
  unfold call_step in Hst. rewrite Epc in Hst. cbn [exec mbind option_bind] in Hst. injection Hst as <- <- <-.
  apply (sound_record Ht); [exact Hrefl| |done|auto|by split].
  intros u [->|?]%(known_add e.1 u (y_buf y)); [|by left|done]. right. right. destruct local; eexists; (split; [|exact Hpc]);
    unfold keeps; auto.
Qed.

Lemma sound_wake h y cs c cs' c' p o local e :
  transition h y cs c cs' c' p o → c_pc c = CWake local e → sys_sound h (record_outcome o p (cs ++ c' :: cs') y).
Proof.
  intros Ht Epc. pose proof (transition_call Ht) as Hin. destruct (id Ht) as [Hy Hs Hcs Hst]. pose proof (same_policies_refl _ (ss_policies _ _ Hs)) as Hrefl.
  pose proof (ss_calls _ _ Hs _ Hin) as [Ho Hpc]. rewrite Epc in Hpc.
  unfold call_step in Hst. rewrite Epc in Hst. destruct (exec LWakeSend (p_buf (y_proc y))) as [b|] eqn:Hb; [|done].
  injection Hst as <- <- <-. destruct (interest_frame _ _ _ Hb) as [Ei|[? ?]]; [|done].
  apply (sound_record Ht); [exact Hrefl| |cbn [exec] in Hb; by repeat case_match; simplify_eq/=|auto|].
  - intros u. unfold known. simpl. rewrite Ei. auto.
  - split; [done|]. by destruct local.
Qed.

Lemma sound_notify h y cs c cs' c' p o e :
  transition h y cs c cs' c' p o → c_pc c = CNotify e → sys_sound h (record_outcome o p (cs ++ c' :: cs') y).
Proof.
  intros Ht Epc. pose proof (transition_call Ht) as Hin. destruct (id Ht) as [Hy Hs Hcs Hst]. pose proof (same_policies_refl _ (ss_policies _ _ Hs)) as Hrefl.
  pose proof (ss_calls _ _ Hs _ Hin) as [Ho Hpc]. rewrite Epc in Hpc.
  unfold call_step in Hst. rewrite Epc in Hst. injection Hst as <- <- <-.
  assert (same_policies (y_proc y) (notify e.1 (y_proc y))) as Hsp by (unfold notify; by destruct (p_coord _)).
  apply (sound_record Ht); [done| | | |].
  - unfold notify. destruct (p_coord _); auto.
  - unfold notify. by destruct (p_coord _).
  - intros u Hu. unfold notify in Hu. destruct (p_coord (y_proc y)); [|by left]. simpl in Hu.
    apply elem_of_app in Hu as [?|Hu]; [by left|right]. apply list_elem_of_singleton in Hu. subst u. by apply (sampled_mono y).
  - split; [|done]. intros x Hx. apply excuse_later; auto.
Qed.

Lemma sound_write h y cs c cs' c' p o e d :
  transition h y cs c cs' c' p o → c_pc c = CWrite e d → sys_sound h (record_outcome o p (cs ++ c' :: cs') y).
Proof.
  intros Ht Epc. pose proof (transition_call Ht) as Hin. destruct (id Ht) as [Hy Hs Hcs Hst]. pose proof (same_policies_refl _ (ss_policies _ _ Hs)) as Hrefl.
  pose proof (ss_calls _ _ Hs _ Hin) as [Ho _].
  unfold call_step in Hst. rewrite Epc in Hst. cbn [buf_Write span_buffer_ops] in Hst.
  destruct (Write_frame (WriteReq e.1 d (c_now c)) (p_buf (y_proc y))) as [Ei Ee].
  destruct (Write (WriteReq e.1 d (c_now c)) (p_buf (y_proc y))) as [ok b]. cbn [snd] in Ei, Ee.
  injection Hst as <- <- <-. apply (sound_record Ht); [exact Hrefl| |exact Ee|auto|by split]. intros u. unfold known. simpl. rewrite Ei. auto.
Qed.

Lemma sound_call h y cs c cs' c' p o :
  transition h y cs c cs' c' p o → sys_sound h (record_outcome o p (cs ++ c' :: cs') y).
Proof.
  intros Ht. destruct (c_pc c) eqn:Epc;
    [by eapply sound_check|by eapply sound_eval|by eapply sound_add|by eapply sound_wake|by eapply sound_notify|by eapply sound_write].
Qed.

Lemma sound_exec h l y y' :
  sys_reachable MarshalTraces y → sys_exec MarshalTraces l y = Some y' → (∀ u, l = YDecision u → h u) →
  sys_sound h y → sys_sound h y'.
Proof.
  intros Hy He Hh Hs. pose proof (same_policies_refl _ (ss_policies _ _ Hs)) as Hsame.
  pose proof (io_reachable_ctl _ (si_buf _ _ (sys_reachable_inv _ _ Hy))) as Hctl.
  destruct l as [|td entries|i|i|tid|l|l]; cbn [sys_exec] in He.
  - simplify_eq. by apply (sound_intro h y); auto.
  - destruct (b_closed (y_buf y)); simplify_eq. apply (sound_intro h y); auto; [set_solver|].
    simpl. intros c [->|?]%elem_of_cons; [|by left]. right. split; simpl; [set_solver|done].
  - destruct (y_calls y !! i) as [c|] eqn:Hc; [|done]. cbn [mbind option_bind] in He.
    destruct (call_step MarshalTraces c (y_proc y)) as [[[c' p] o]|] eqn:Hp; [|done]. simplify_eq/=.
    apply (sound_call h y _ c). split; [done|done| |exact Hp]. symmetry. by apply take_drop_middle.
  - destruct (y_calls y !! i) as [[now [|] out []]|] eqn:Hc; simplify_eq.
    pose proof (take_drop_middle _ _ _ Hc) as Hcs. apply (sound_intro h y); auto.
    + simpl. intros c Hin. left. rewrite <- Hcs. set_solver.
    + simpl. intros x. rewrite all_spans_app, elem_of_app. intros [?|Hx]; [by left|right].
      apply (excuse_mono h h y); [done|done|auto|].
      exact (cs_out _ _ _ (ss_calls _ _ Hs _ (list_elem_of_lookup_2 _ _ _ Hc)) x Hx).
  - simplify_eq/=. apply (sound_intro h y); auto. intros u [->|?]%(known_add tid u (y_buf y)); [|by left|done]. right. left. by apply Hh.
  - case_decide as Hl; [|done]. destruct (exec l (y_buf y)) as [b|] eqn:Hb; [|done]. simplify_eq/=.
    apply (sound_intro h y); auto.
    + intros u. unfold known. destruct (interest_frame _ _ _ Hb) as [Ei|[tid ->]]; [|done].
      change (y_buf (with_buf b y)) with b. rewrite Ei. by left.
    + intros u d. by apply (match_known l).
  - destruct (permitted l (y_buf y)) eqn:Hl; [|done]. destruct (io_exec l (y_buf y)) as [b|] eqn:Hb; [|done]. simplify_eq/=.
    destruct (permitted_front _ _ _ Hl Hb). apply (sound_intro h y); auto; unfold y_buf in *; simpl.
    + intros u. unfold known. rewrite sf_interest. by left.
    + intros u d. rewrite sf_events. by left.
Qed.

(** ** The invariant *)

Record fleet_ok (f : fleet) : Prop := {
  fo_net : net_reachable (fl_net f);
  fo_procs : ∀ c y, fl_procs f !! c = Some y → sys_reachable MarshalTraces y ∧
    ∃ k, n_links (fl_net f) !! c = Some k ∧ sys_sound (λ u, u ∈ k_handled k) y;
  fo_links : ∀ c k u, n_links (fl_net f) !! c = Some k → u ∈ k_queued k →
    ∃ y, fl_procs f !! c = Some y ∧ u ∈ p_notified (y_proc y);
}.

Lemma fleet_new_ok l ss st now : Forall setting_ok l → fleet_ok (new_fleet l ss st now).
Proof.
  intros Hl. split; simpl.
  - constructor.
  - intros c y Hy. apply list_lookup_fmap_Some in Hy as (s & -> & Hs). rewrite Forall_lookup in Hl.
    destruct (Hl _ _ Hs) as [Hfile Hchain]. split; [by apply sys_init|]. exists new_link. split.
    { apply lookup_replicate. split; [done|]. by eapply lookup_lt_Some. }
    split; simpl; try done; try (intros; set_solver). intros u [t Ht]. by rewrite lookup_abs in Ht.
  - intros c k u [-> _]%lookup_replicate Hu. set_solver.
Qed.

Lemma sound_mono (h h' : TraceID → Prop) y : (∀ u, h u → h' u) → sys_sound h y → sys_sound h' y.
Proof.
  intros Hh [H0 H1 H2 H3 H4 H5].
  assert (∀ u, excuse h y u → excuse h' y u) as Hm
    by (intros u; apply excuse_mono; [by apply same_policies_refl|done|done]).
  split; eauto. intros c Hc. apply (call_sound_mono h h' y y); [by apply same_policies_refl|done|done|auto].
Qed.

Lemma notified_grows l y y' :
  sys_exec MarshalTraces l y = Some y' → p_notified (y_proc y) ⊆ p_notified (y_proc y').
Proof.
  intros He. destruct l as [|td entries|i|i|tid|l|l]; cbn [sys_exec] in He.
  - by simplify_eq.
  - destruct (b_closed (y_buf y)); by simplify_eq.
  - destruct (y_calls y !! i) as [c|]; [|done]. cbn [mbind option_bind] in He.
    destruct (call_step MarshalTraces c (y_proc y)) as [[[c' p] o]|] eqn:Hst; [|done]. simplify_eq/=.
    unfold call_step, notify in Hst. destruct (c_pc c) as [|e|local e|local e|e|e d].
    + repeat case_match; by simplify_eq/=.
    + repeat case_match; by simplify_eq/=.
    + by simplify_eq/=.
    + destruct (exec LWakeSend (p_buf (y_proc y))); by simplify_eq/=.
    + destruct (p_coord (y_proc y)); simplify_eq/=; set_solver.
    + destruct (buf_Write _ _ _ _). by simplify_eq/=.
  - repeat case_match; by simplify_eq.
  - by simplify_eq/=.
  - case_decide; [|done]. destruct (exec l (y_buf y)); by simplify_eq/=.
  - destruct (permitted l (y_buf y)); [|done]. destruct (io_exec l (y_buf y)); by simplify_eq/=.
Qed.

(** The other processors, and the network, after a step. *)
Lemma procs_step ls n n' (l : list system) c y :
  (∀ c y, l !! c = Some y → sys_reachable MarshalTraces y ∧
    ∃ k, n_links n !! c = Some k ∧ sys_sound (λ u, u ∈ k_handled k) y) →
  net_run ls n = Some n' → l !! c = Some y →
  sys_reachable MarshalTraces y ∧ ∃ k, n_links n' !! c = Some k ∧ sys_sound (λ u, u ∈ k_handled k) y.
Proof.
  intros Hp Hn Hy. destruct (Hp _ _ Hy) as (Hr & k & Hk & Hs). split; [done|].
  destruct (links_run_grow _ _ _ _ _ Hn Hk) as (k' & Hk' & Hsub). exists k'. split; [done|].
  apply (sound_mono (λ u, u ∈ k_handled k)); [|done]. intros u Hu. by apply (elem_of_prefix (k_handled k)).
Qed.

(** A processor and its link after a step. *)
Lemma fleet_ok_proc f c y y' l n h :
  fleet_ok f → fl_procs f !! c = Some y → sys_exec MarshalTraces l y = Some y' → label_ok l →
  net_run ((λ tid, NLink (Proc c) (KNotify tid)) <$> new_notified y y') (fl_net f) = Some n →
  (∀ u, l = YDecision u → ∃ k, n_links (fl_net f) !! c = Some k ∧ u ∈ k_handled k) →
  fleet_ok (MkFleet (<[c := y']> (fl_procs f)) n h).
Proof.
  intros [Hnet Hp Hl] Hy He Hlab Hn Hd. pose proof (notified_grows _ _ _ He) as Hsub.
  pose proof (λ c y, procs_step _ _ _ _ c y Hp Hn) as Hp'. split; simpl.
  - by eapply net_run_reachable.
  - intros c' y0 [(<- & <- & _)|[_ Hy0]]%list_lookup_insert_Some; [|by apply Hp'].
    destruct (Hp' _ _ Hy) as (Hreach & k' & Hk' & Hsound).
    split; [eapply sys_next; [done|by eapply sys_exec_step]|]. exists k'. split; [done|].
    eapply sound_exec; [done|exact He| |done]. intros u Hu. destruct (Hd u Hu) as (k & Hk & Hin).
    destruct (links_run_grow _ _ _ _ _ Hn Hk) as (k1 & Hk1 & Hsub1). simplify_eq. by apply (elem_of_prefix (k_handled k)).
  - intros c' k' u Hk' Hu. destruct (links_run _ _ _ _ _ Hn Hk') as (k0 & Hk0 & _ & Hq).
    destruct (Hq u Hu) as [Hold|Hnew].
    + destruct (Hl _ _ _ Hk0 Hold) as (y0 & Hy0 & Hu0). destruct (decide (c = c')) as [<-|Hne].
      * simplify_eq. exists y'. rewrite list_lookup_insert_eq by (by eapply lookup_lt_Some). auto.
      * exists y0. by rewrite list_lookup_insert_ne.
    + apply list_elem_of_fmap in Hnew as (tid & [= -> ->] & Hin). exists y'.
      rewrite list_lookup_insert_eq by (by eapply lookup_lt_Some). split; [done|].
      by apply (subseteq_drop (length (p_notified (y_proc y)))).
Qed.

Lemma fleet_ok_net f l n h :
  fleet_ok f → net_allowed (fl_procs f) l = true → net_exec l (fl_net f) = Some n →
  fleet_ok (MkFleet (fl_procs f) n h).
Proof.
  intros [Hnet Hp Hl] Ha He. assert (net_run [l] (fl_net f) = Some n) as Hn by (simpl; by rewrite He).
  split; simpl.
  - by eapply net_run_reachable.
  - intros c y. by eapply procs_step.
  - intros c k u Hk Hu. destruct (links_run _ _ _ _ _ Hn Hk) as (k0 & Hk0 & _ & Hq).
    destruct (Hq u Hu) as [Hold|Hnew]; [by eapply Hl|]. apply list_elem_of_singleton in Hnew. by subst l.
Qed.

Lemma fleet_exec_ok l f f' : fleet_label_ok l → fleet_exec l f = Some f' → fleet_ok f → fleet_ok f'.
Proof.
  intros Hlab He Hf. destruct l as [c l|c i|l].
  - assert (∃ y y' n, fl_procs f !! c = Some y ∧ sys_exec MarshalTraces l y = Some y' ∧ (∀ u, l ≠ YDecision u) ∧
      net_run ((λ tid, NLink (Proc c) (KNotify tid)) <$> new_notified y y') (fl_net f) = Some n ∧
      f' = MkFleet (<[c := y']> (fl_procs f)) n (fl_heard f)) as (y & y' & n & Hy & Hy' & Hl & Hn & ->).
    { cbn [Fleet.fleet_exec] in He. destruct l; exec_inv He; eexists _, _, _; split_and!; try done. }
    eapply fleet_ok_proc; try done. intros u ->. by destruct (Hl u).
  - cbn [Fleet.fleet_exec] in He. exec_inv He.
    eapply (fleet_ok_proc f c _ _ (YDecision _)); [done|eassumption|eassumption|done| |].
    + cbn [sys_exec exec mbind option_bind] in E3. simplify_eq. unfold new_notified. simpl. by rewrite drop_all.
    + intros u [= <-]. eexists. split; [eassumption|]. by eapply list_elem_of_lookup_2.
  - cbn [Fleet.fleet_exec] in He. exec_inv He. by apply (fleet_ok_net f l).
Qed.

Lemma fleet_reachable_ok f : fleet_reachable f → fleet_ok f.
Proof. induction 1; [by apply fleet_new_ok|by eapply fleet_exec_ok]. Qed.

(** The handler is only called with what was received. *)
Definition heard_ok (f : fleet) : Prop :=
  ∀ c k, n_links (fl_net f) !! c = Some k →
    ∃ h, fl_heard f !! c = Some h ∧ ∀ i, i ∈ h → (i < length (k_handled k))%nat.

Lemma heard_run ls f n p :
  heard_ok f → net_run ls (fl_net f) = Some n → heard_ok (MkFleet p n (fl_heard f)).
Proof.
  intros Hh Hn c k' Hk'. destruct (links_run _ _ _ _ _ Hn Hk') as (k & Hk & Hpre%prefix_length & _).
  destruct (Hh _ _ Hk) as (h & Hh' & Hle). exists h. split; [done|]. intros i Hi%Hle. lia.
Qed.

Lemma fleet_exec_heard l f f' : fleet_exec l f = Some f' → heard_ok f → heard_ok f'.
Proof.
  intros He Hh. destruct l as [c l|c i|l]; cbn [Fleet.fleet_exec sys_exec] in He.
  - destruct l; exec_inv He; by eapply heard_run.
  - exec_inv He. intros c' k' Hk'. destruct (decide (c = c')) as [<-|Hne]; simpl in *.
    + destruct (Hh _ _ Hk') as (h & Hh' & Hlt). simplify_eq. eexists.
      rewrite list_lookup_insert_eq by (by eapply lookup_lt_Some). split; [done|].
      intros j [->%elem_of_singleton|?]%elem_of_union; [by eapply lookup_lt_Some|by apply Hlt].
    + rewrite list_lookup_insert_ne by done. by apply Hh.
  - exec_inv He. apply (heard_run [l] f); [done|]. simpl. by rewrite E0.
Qed.

Lemma fleet_reachable_heard f : fleet_reachable f → heard_ok f.
Proof.
  induction 1 as [l ss s now _|l f f' _ IH _ He]; [|by eapply fleet_exec_heard].
  intros c k [_ Hlt]%lookup_replicate. exists ∅. split; [by apply lookup_replicate|set_solver].
Qed.

(** ** The theorems *)

(** Some processor's policies sampled the trace; if only locally, that of [c]. *)
Definition sampled_for (f : fleet) (c : nat) (tid : TraceID) : Prop :=
  ∃ c' y d, fl_procs f !! c' = Some y ∧ sampled_here y tid d ∧ (d = Sampled ∨ d = SampledLocal ∧ c' = c).

(** C8: only what was sampled leaves. Whatever the batches, the interleavings of
    all processors, buffers, links and streams, and the failures of connections:
    every span a processor forwards at once, and every record its buffer
    delivers, is of a trace of which some processor received, in one batch,
    spans that its policies sample. If that processor is another one, the
    answer was not that of a policy for local sampling. *)
Theorem only_sampled_leaves f c y :
  fleet_reachable f → fl_procs f !! c = Some y →
  (∀ x, x ∈ all_spans (y_forwarded y) → sampled_for f c (span_TraceID x)) ∧
  (∀ tid d, EMatch tid d ∈ all_events (y_buf y) → sampled_for f c tid).
Proof.
  intros Hr Hy. destruct (fleet_reachable_ok f Hr) as [Hnet Hp Hl].
  destruct (Hp _ _ Hy) as (_ & k & Hk & Hs).
  assert (∀ tid, excuse (λ u, u ∈ k_handled k) y tid → sampled_for f c tid) as Hex.
  { intros tid [Hin|(d & Hd & Hhere)].
    - destruct (no_decision_invented _ _ _ _ Hnet Hk Hin) as (_ & c' & k' & Hk' & Hq).
      destruct (Hl _ _ _ Hk' Hq) as (y' & Hy' & Hn). destruct (Hp _ _ Hy') as (_ & k0 & _ & Hs').
      exists c', y', Sampled. split; [done|]. split; [by apply Hs'|by left].
    - exists c, y, d. split; [done|]. split; [done|]. destruct Hd; auto. }
  split; [intros x Hx; by apply Hex, (ss_forwarded _ _ Hs)|intros tid d Hd; by apply Hex, (ss_match _ _ Hs tid d)].
Qed.

(** *** A decision reaches the buffer *)

Lemma route_allowed hs l procs : route_label hs l = true → net_allowed procs l = true.
Proof. intros Hl. apply existsb_exists in Hl as (h & _ & Hl). by destruct l. Qed.

Lemma stream_run hs ls f n :
  Forall (λ l, route_label hs l = true) ls → net_run ls (fl_net f) = Some n →
  fleet_run (FNet <$> ls) f = Some (MkFleet (fl_procs f) n (fl_heard f)).
Proof.
  intros Hls. revert f. induction Hls as [|l ls Hl _ IH]; intros f Hn; [simpl in *; simplify_eq; by destruct f|].
  cbn [Network.net_run] in Hn. destruct (net_exec l (fl_net f)) as [n1|] eqn:He; [|done].
  rewrite fmap_cons. cbn [Fleet.fleet_run Fleet.fleet_exec].
  rewrite (route_allowed hs l) by done. rewrite He. cbn [mbind option_bind] in *.
  exact (IH (MkFleet (fl_procs f) n1 (fl_heard f)) Hn).
Qed.

(** The steps of the streams [hs], of the proxies between them, and of the handler of processor [c]. *)
Definition reaching_label (hs : list (nat * nat)) (c : nat) (l : fleet_label) : bool :=
  match l with FNet l => route_label hs l | FHandle c' _ => bool_decide (c = c') | FProc _ _ => false end.

(** C9: a decision that waits at a coordinator can reach the buffers. Take a
    chain of streams from that coordinator, through proxies, to a processor:
    their senders have not returned, their clients are connected and receiving,
    and the channels behind the first have room. By steps of these streams, of
    the proxies' handlers and of the processor's handler alone, a trace
    identifier in the channel of the first stream, or in the batch of its
    sender, gets into the processor's interest set, so that it forwards all
    further spans of the trace at once. *)
Theorem decision_reaches_buffer f h rest c tid :
  fleet_reachable f → NoDup (h :: rest).*1 → route (fl_net f) h rest c → waits (fl_net f) h tid → wf_tid tid →
  is_Some (fl_procs f !! c) →
  ∃ ls f' y', Forall (λ l, reaching_label (h :: rest) c l = true) ls ∧ fleet_run ls f = Some f' ∧
    fl_procs f' !! c = Some y' ∧
    ∀ now t l out, call_step MarshalTraces (MkCall now ((tid, t) :: l) out CLoop) (y_proc y') =
      Some (MkCall now l (out ++ t) CLoop, y_proc y', None).
Proof.
  intros Hr Hnd Hroute Hw Hwf [y Hy].
  destruct (fleet_reachable_ok f Hr) as [Hnet Hp _]. destruct (Hp _ _ Hy) as [Hreach _].
  destruct (route_run rest (fl_net f) h c tid (net_reachable_ok _ Hnet) Hnd Hroute Hw Hwf)
    as (ls & n' & k & k' & q & Hls & Hrun & Hk & Hk' & Hq & Hinq).
  destruct (fleet_reachable_heard f Hr _ _ Hk) as (heard & Hh & Hlt).
  apply list_elem_of_lookup in Hinq as [i Hi].
  set (i' := (length (k_handled k) + i)%nat).
  assert (k_handled k' !! i' = Some tid) as Ht.
  { unfold i'. rewrite Hq, lookup_app_r by lia. rewrite <- Hi. f_equal. lia. }
  assert (i' ∉ heard) as Hni by (intros Hin'%Hlt; unfold i' in *; lia).
  assert (∃ b, exec (LAddInterest tid) (y_buf y) = Some b ∧ buf_HasInterest tid b = true) as (b & Hb & Hhas).
  { eexists. split; [reflexivity|]. apply (HasInterest_add tid (y_buf y)), io_reachable_ctl. by eapply si_buf, sys_reachable_inv. }
  set (y' := with_buf b y).
  exists ((FNet <$> ls) ++ [FHandle c i']), (MkFleet (<[c := y']> (fl_procs f)) n' (<[c := {[i']} ∪ heard]> (fl_heard f))), y'.
  split; [|split; [|split]].
  - apply Forall_app. split; [by apply Forall_fmap|]. constructor; [|constructor]. simpl. by apply bool_decide_eq_true_2.
  - refine (eq_trans (fleet_run_app _ _ _ _ _ (stream_run (h :: rest) ls f n' Hls Hrun)) _).
    cbn [Fleet.fleet_run Fleet.fleet_exec fl_procs fl_net fl_heard]. rewrite Hy, Hk', Hh. cbn [mbind option_bind].
    rewrite Ht. cbn [mbind option_bind sys_exec]. rewrite Hb. cbn [mbind option_bind]. by case_decide.
  - simpl. by rewrite list_lookup_insert_eq by (by eapply lookup_lt_Some).
  - intros now t l out. unfold call_step. cbn [c_pc c_todo fst]. change (p_buf (y_proc y')) with b. by rewrite Hhas.
Qed.
End fleet.

(** ** Two processors, a coordinator and a proxy

    The deployment of NetworkProps.v. The first processor samples the trace with
    the error, the second, at the proxy, has no policy and buffers both traces;
    the decision reaches it, and its buffer delivers. *)

#[local] Existing Instance NetworkProps.demo_deployment.
#[local] Existing Instance PubSub.Simple.store.

Abbreviation demo_label := (fleet_label (H := PData.Simple.pdata)).

Definition demo_settings : list setting :=
  [MkSetting (L := EvalDemo.libs) (zeroes 320) 0 SystemProps.demo_chain; MkSetting (L := EvalDemo.libs) (zeroes 320) 0 []].

(** [n] is the number of transitions the call takes. *)
Definition demo_call (c n : nat) : list demo_label :=
  FProc c <$> YBegin EvalDemo.batch Split.demo_entries :: replicate n (YCall 0) ++ [YReturn 0].

Definition demo_sampled : list demo_label :=
  [FProc 0 YStart; FProc 1 YStart] ++
  (FNet <$> NetworkProps.demo_connects) ++ demo_call 1 6 ++ demo_call 0 8 ++
  (FNet <$> [NSend (Proc 0); NNotify 0 1 true; NBroadcast 0 0 [1%nat; 0%nat]; NServer 0 (VTake 0)]).

Definition demo_reached : list demo_label :=
  (FNet <$> NetworkProps.demo_arrives) ++ [FHandle 1 0].

Definition demo_delivered : list demo_label :=
  (λ l, FProc 1 (YBuffer l)) <$> [LWakeSend; LTime 3; LRecv; LRecv; LTick; LCommit; LWake; LSweep; LSweep; LSweep; LSweep; LSweep].

Definition demo_start : fleet := new_fleet demo_settings [∅; ∅] ∅ 0.
Definition demo_fleet (ls : list demo_label) : fleet :=
  default demo_start (fleet_run EvalDemo.marshal ls demo_start).
Definition fleet_runs (ls : list demo_label) : bool :=
  match fleet_run EvalDemo.marshal ls demo_start with Some _ => true | None => false end.

Lemma demo_settings_ok : Forall setting_ok demo_settings.
Proof. repeat constructor. Qed.

Definition demo_label_ok (l : demo_label) : bool :=
  match l with FProc _ (YBegin _ _) => false | _ => true end.

Lemma demo_labels_ok (ls : list demo_label) : forallb demo_label_ok ls = true → Forall fleet_label_ok ls.
Proof.
  intros Hls%Is_true_eq_left%forallb_True. eapply Forall_impl; [exact Hls|]. intros l Hl. destruct l as [c l|c i|l]; [|exact I|exact I].
  by destruct l.
Qed.

Lemma demo_call_ok c n : Forall fleet_label_ok (demo_call c n).
Proof.
  constructor; [exact Split.demo_entries_ok|]. apply Forall_fmap, Forall_app. split; [by apply Forall_replicate|by constructor].
Qed.

Lemma demo_sampled_ok : Forall fleet_label_ok demo_sampled.
Proof.
  apply Forall_app. split; [by apply demo_labels_ok|]. apply Forall_app. split; [by apply demo_labels_ok|].
  apply Forall_app. split; [apply demo_call_ok|]. apply Forall_app. split; [apply demo_call_ok|by apply demo_labels_ok].
Qed.

Lemma demo_fleet_reachable ls :
  Forall fleet_label_ok ls → fleet_runs ls = true → fleet_reachable EvalDemo.marshal (demo_fleet ls).
Proof.
  unfold fleet_runs, demo_fleet. intros Hls Hr.
  destruct (fleet_run EvalDemo.marshal ls demo_start) as [f|] eqn:Hf; [|done].
  eapply fleet_run_reachable; [exact Hls|exact Hf|]. constructor. exact demo_settings_ok.
Qed.

Definition events_of (f : fleet (L := EvalDemo.libs)) (c : nat) : list event :=
  match fl_procs f !! c with Some y => all_events (y_buf y) | None => [] end.

Lemma only_sampled_leaves_witness :
  let f := demo_fleet (demo_sampled ++ demo_reached ++ demo_delivered) in
  ∃ y, fl_procs f !! 1%nat = Some y ∧ EMatch EvalDemo.tid_a [x61] ∈ all_events (y_buf y) ∧
    sampled_for f 1 EvalDemo.tid_a.
Proof.
  set (ls := demo_sampled ++ demo_reached ++ demo_delivered). cbv zeta.
  assert (fleet_reachable EvalDemo.marshal (demo_fleet ls)) as Hr.
  { apply demo_fleet_reachable; [|vm_compute; reflexivity]. apply Forall_app. split; [exact demo_sampled_ok|].
    apply demo_labels_ok. vm_compute. reflexivity. }
  assert (events_of (demo_fleet ls) 1 = [EMatch EvalDemo.tid_a [x61]]) as Hev by (vm_compute; reflexivity).
  unfold events_of in Hev. destruct (fl_procs (demo_fleet ls) !! 1%nat) as [y|] eqn:Hy; [|discriminate].
  assert (EMatch EvalDemo.tid_a [x61] ∈ all_events (y_buf y)) as Hin by (rewrite Hev; by constructor).
  exists y. exact (conj eq_refl (conj Hin (proj2 (only_sampled_leaves EvalDemo.marshal (demo_fleet ls) 1 y Hr Hy)
    EvalDemo.tid_a [x61] Hin))).
Defined.

Lemma decision_reaches_buffer_witness :
  let f := demo_fleet demo_sampled in
  ∃ ls f' y', Forall (λ l, reaching_label [(0, 0); (1, 0)]%nat 1 l = true) ls ∧ fleet_run EvalDemo.marshal ls f = Some f' ∧
    fl_procs f' !! 1%nat = Some y' ∧
    ∀ now t l out, call_step EvalDemo.marshal (MkCall now ((EvalDemo.tid_a, t) :: l) out CLoop) (y_proc y') =
      Some (MkCall now l (out ++ t) CLoop, y_proc y', None).
Proof.
  set (f := demo_fleet demo_sampled). cbv zeta.
  assert (fleet_reachable EvalDemo.marshal f) as Hr
    by (apply demo_fleet_reachable; [exact demo_sampled_ok|vm_compute; reflexivity]).
  assert (ready (fl_net f) (0, 0)%nat (Prox 1)) as H1 by (apply ready_b_ready; vm_compute; reflexivity).
  assert (ready (fl_net f) (1, 0)%nat (Proc 1)) as H2 by (apply ready_b_ready; vm_compute; reflexivity).
  assert (with_room (fl_net f) (1, 0)%nat) as H3 by (apply with_room_b_room; vm_compute; reflexivity).
  assert (waits (fl_net f) (0, 0)%nat EvalDemo.tid_a) as H4 by (apply waits_b_waits; vm_compute; reflexivity).
  assert (NoDup [0%nat; 1%nat]) as H5 by (apply (bool_decide_unpack (NoDup [0%nat; 1%nat])); vm_compute; exact I).
  assert (is_Some (fl_procs f !! 1%nat)) as H6 by (apply lookup_lt_is_Some; vm_compute; repeat constructor).
  exact (decision_reaches_buffer EvalDemo.marshal f (0, 0)%nat [(1, 0)%nat] 1 EvalDemo.tid_a
    Hr H5 (conj H1 (conj H3 H2)) H4 eq_refl H6).
Defined.
